(* ===== verification/_CoqProject ===== *)
-Q . S2P
Prelude.v
Text.v
Value.v
Model.v
Mapping.v
Fs.v
Config.v
Http.v
Sql.v
Schema.v
Cache.v
CacheFacts.v
Directory.v
CacheRefines.v
CacheProps.v
MockIdp.v
Scim.v
ScimProps.v
Service.v
ServiceFacts.v
ServiceProps.v
TypeSafety.v
Interleave.v
InterleaveFacts.v
InterleaveProps.v
Threads.v
ThreadsFacts.v
Buffer.v
Passwd.v
GroupPack.v
Nss.v
NssProps.v
NssLife.v
Oidc.v
OidcProps.v
OidcLiveness.v
Pam.v
PamProps.v
Conversation.v
Calls.v
CallsAlone.v
CallsSafe.v
LoginsSafe.v
Host.v
HostProps.v
Logging.v
UnitTests.v
OidcTests.v
E2eTests.v
