(* ===== verification/Prelude.v ===== *)
(** * sssd-oidc: a verification development

    sssd-oidc gives a Linux host the users and groups of a SCIM server and logs
    its users in with the OIDC device code flow. This library models its Rust
    code and proves what each part does and what the parts guarantee together.

    ** The program

    The library crate ([src/]) holds the logic. A [Service] answers lookups: it
    asks the SCIM server, turns a resource into a POSIX user or group by mapping
    its identifier to a numeric id, stores the result in an SQLite cache, and
    falls back to the cache when the server cannot be asked. An [OidcClient]
    discovers an identity provider, runs the device code flow and validates ID
    tokens. Two modules are loaded into other processes: the NSS module
    ([crates/nss_oidc]) puts the service's answers into C structs, and the PAM
    module ([crates/pam_oidc]) authenticates with the client and checks accounts
    with the service. [crates/mock-idp] is a server for tests.

    ** Conventions

    A call is a computation [M S E A] over an explicit state: it returns [Ok], or
    [Err] as a Rust [Result], or panics ([Panic]), and keeps the effects made
    before it failed. Integers are [Z] at their Rust width with both overflow
    behaviours of the build profile. A string is its bytes. The state of a
    module is a record with the world outside in it: the file system ([Fs]), the
    log of what was sent, slept and told ([Http]; the network and the clock answer
    from that log), the database ([Sql]) and the statics of the crate.

    ** The files

    - [Prelude]: outcomes, computations and their reasoning principles ([wp],
      [preserves], [safe] with their hint databases), machine integers, decimal
      and octal formatting. [Text]: operations on [str]. [Value]: the serde data
      model and the decoders of derived implementations.
    - [Model]: [model.rs]. [Mapping]: [mapping.rs], the identifier hash and the
      probing loop. [Fs], [Config]: the file system and [config.rs].
    - [Sql], [Cache]: the tables, the engine, and every operation of [cache.rs].
      [Schema]: the declarations of [Cache::open] as data, and SQL's rules for
      them, of which the tables of [Sql] are an instance. [CacheFacts] and [CacheProps]: its lemmas and its properties. [Directory]:
      what the cache promises, with no table, row or statement in it;
      [CacheRefines]: the operations of [cache.rs] carry the promise out.
    - [Http], [Scim]: requests and [scim.rs]; [ScimProps]: its properties.
      [MockIdp]: the mocks of [mock-idp/src/main.rs] as a world that witnesses
      run against.
    - [Service]: [service.rs]; [ServiceFacts] and [ServiceProps]. [TypeSafety]: the
      ids of every state and every answer are [u32].
    - [Interleave]: the calls of [service.rs] and [cache.rs] that take several
      SQLite transactions as programs over transactions, and pools of processes
      that run them on one cache file. [InterleaveFacts]: runs, costs, and a rely
      and guarantee rule; [InterleaveProps]: what holds in every schedule, and
      two races.
    - [Buffer], [Passwd], [GroupPack]: the caller's memory and the packing of
      [passwd.rs] and [group.rs]. [Nss]: [nss_oidc/src/ffi.rs] and [state.rs] with
      the lookups of [passwd.rs] and [group.rs]; [NssProps]: its properties;
      [NssLife]: the module through the life of its process.
    - [Oidc]: [oidc.rs]; [OidcProps]: its properties; [OidcLiveness]: an approved
      login ends with the token.
    - [Pam]: [pam_oidc/src/ffi.rs], [pam_conv.rs] and [state.rs]; [PamProps].
      [Conversation]: the heap a message to the user uses.
    - [Threads]: threads that take locks between their steps, pools of them, and
      [OnceLock::get_or_init]; [ThreadsFacts]: schedules end, lock discipline, a
      rely and guarantee rule with locks, and critical sections in serial order.
      [Calls]: every call of both modules as a thread; [CallsAlone]: alone, these
      are the calls of [Nss] and [Pam]. [CallsSafe], [LoginsSafe]: what the calls
      of the NSS and the PAM module keep while others act. [Host]: the processes
      of a machine and their threads; [HostProps]: enumerations and lookups made
      at the same time, and the witnesses for [Host].
    - [Logging]: [logging.rs].
    - [UnitTests], [OidcTests]: the crates' own unit tests as computations of the
      model. [E2eTests]: the tests of [crates/e2e], with their mocks.

    Definitions have the names of the Rust items; where Rust reuses a name the
    file tells them apart ([Cache.get_user_by_name], [Scim.get_user_by_name]), and
    the [by_name] of [passwd.rs] is [passwd_by_name]. A body that two functions
    repeat word for word is one definition with parameters ([getent_r],
    [with_service], [answer]). A program over transactions ends in [_p] and a
    thread in [_t]: [resolve_uid_p], [getpwnam_t].

    ** What is proved

    - Mapping: the probing loop refines a scan of the range in probe order that
      visits every slot once; what misconfigured ranges do.
    - Cache: every reachable database satisfies the schema; allocation evicts
      nobody; lookups respect the time to live; stores and lookups round trip; a
      cache file that opens is root's and private. In every sequence of calls,
      with whatever statements failing, the cache is an abstract directory of
      users, groups and memberships, and a lookup of a user answers with the
      latest store of the name or uid younger than the time to live, which is that
      of the purges. The constraints and writes of the tables are those of the declared schema.
    - Configuration: a token that loads comes from a private file.
    - SCIM: filters and path segments carry exactly the name they are built from;
      decoding round trips; pagination is complete and bounded; requests stay
      below the base URL with the token.
    - Service: the answer of every lookup, of users and of groups, and of the
      account check on every branch, the invariant of all reachable states,
      distinct ids in a listing, a primary gid that two users can share, [u32] ids
      in every column and answer.
    - Processes sharing a cache: alone, a program of transactions is the function
      of the service; in every schedule the schema holds, nobody panics and
      everybody returns; admissions to slots of their own do not disturb each
      other; admissions racing for one slot can end with one uid for two users,
      and a group can be read while it is being replaced.
    - NSS: no write outside the caller's buffer, no panic, [errno] and status
      discipline; what the caller reads back; an enumeration is the service's
      listing, every entry once and in order; a lookup by the uid just answered
      gives the same user within the ttl; supplementary groups are added once each; the
      invariant of all states the module reaches in its process.
    - OIDC: discovery accepts exactly the right documents; replies to a poll are
      classified as RFC 8628 says; the polling loop refines the RFC's relation
      and terminates; an approval in time ends in a token; validated claims come
      from a payload the issuer signed.
    - PAM: a login succeeds only with a validated token whose subject belongs to
      the user; the account check's answers; the invariant of reachable states; a
      message frees what it and the application allocated, each block once.
    - Threads and processes of a machine: whatever calls of both modules run at
      the same time, every schedule of their steps keeps the cache, the statics of
      every process and the callers' memory sound, and a login succeeds only with
      a valid token; every schedule ends, with every call
      returned and no lock held, and killed processes block no other; with nobody
      else about, a call split into steps is the call in one piece; threads that
      enumerate at the same time share the entries out, each delivered once; and a
      lookup by uid can be made to wait for the SCIM request of another's lookup
      by name.
    - The repository's unit tests pass on the model, for every hash; its end-to-end
      tests pass with a concrete one.

    Theorems about code outside the repository have that code as a parameter, and
    state what they need of it as a class of laws: [Murmur3Laws], [SqliteLaws],
    [SqliteFileLaws], [SqliteFileAdds], [WorldLaws], [JwtLaws], with concrete
    instances for the witnesses.

    The code does not validate the configured id ranges, and a range of size zero
    or one that leaves [u32] makes the mapping panic or wrap ([Mapping]). What is
    proved of the service and of the modules is proved for usable ranges
    ([usable_ranges]): those of the configuration that is loaded or, for a module
    that has not started, of the one its file system holds ([deployed]).

    ** Bounds and fuel

    [paginate] stops after the source's own thousand pages. [poll_loop] runs on
    [poll_fuel]: one iteration more than there are periods of five seconds before
    the deadline; every iteration sleeps that long, and the flow is proved never
    to use the fuel up. [probe] counts the slots of the range down. A program over
    transactions and a thread are finite trees; [call_cost] bounds the depth of the
    first, and every schedule of finitely many threads ends. Formatting stops at
    the digits a 64-bit integer has.

    ** What is not modelled

    Parameters of the model, because the repository only calls them: the murmur3
    hash, the SQLite engine (statement failures, clock, row order), the network
    and TLS behind [ureq] with its timeouts and redirects, the JSON and TOML
    parsers, the percent encoder, the [jsonwebtoken] crate, libpam and the
    application's conversation function, the operating system. Left out: what is
    logged and when; the texts of errors other than those of [oidc.rs]; the TOML
    form of an enumeration written as a table; null pointers where a call's
    contract forbids them; the stubs for systems other than Linux; the sockets and
    the runtime of the mock server.
    A database named [":memory:"] belongs to one connection; the machine of [Host]
    shares one cache, so that its configuration has to name a file. What is in the
    cache file is the state [db], which is not part of the file system.
    Threads and processes interleave between requests, transactions, accesses to
    statics, locks, sleeps and messages. One step each are: loading the
    configuration, whose files nobody writes while the machine runs; the
    validation of a token with its one request; a page of a listing. The clock
    moves only with requests, sleeps and messages of the log. Memory is
    sequentially consistent, which is what the locks give the code. A process that
    is killed, or that a panic aborts at the C boundary, is one whose threads move
    no more: every schedule may pass them over. The [Once] of [Logging] is modelled
    without threads. *)

From stdpp Require Import prelude strings gmap list numbers sorting.

(** ** Outcomes of a Rust call

    A call of the modelled program returns [Ok], returns [Err], or panics.
    A panic unwinds to the [extern "C"] boundary, where it aborts the host
    process; it is kept apart from [Err], which the callers handle. *)
Inductive outcome (E A : Type) : Type :=
  | Ok (a : A)
  | Err (e : E)
  | Panic.
Arguments Ok {_ _} _.
Arguments Err {_ _} _.
Arguments Panic {_ _}.

(** A computation over a state: the state survives errors, as in the source,
    where a failing call keeps the effects of the statements before it. *)
Definition M (S E A : Type) : Type := S → outcome E A * S.

Definition ret {S E A} (a : A) : M S E A := λ s, (Ok a, s).
Definition throw {S E A} (e : E) : M S E A := λ s, (Err e, s).
Definition panic {S E A} : M S E A := λ s, (Panic, s).
Definition bind {S E A B} (m : M S E A) (k : A → M S E B) : M S E B := λ s,
  match m s with
  | (Ok a, s') => k a s'
  | (Err e, s') => (Err e, s')
  | (Panic, s') => (Panic, s')
  end.

(** The [?] operator with its [From] conversion of the error. *)
Definition map_err {S E E' A} (f : E → E') (m : M S E A) : M S E' A := λ s,
  match m s with
  | (Ok a, s') => (Ok a, s')
  | (Err e, s') => (Err (f e), s')
  | (Panic, s') => (Panic, s')
  end.

(** [match m { Ok(a) => .., Err(e) => .. }]: both results are inspected. *)
Definition try_with {S E E' A B} (m : M S E A)
    (ok : A → M S E' B) (err : E → M S E' B) : M S E' B := λ s,
  match m s with
  | (Ok a, s') => ok a s'
  | (Err e, s') => err e s'
  | (Panic, s') => (Panic, s')
  end.

(** A computation over a component [T] of the state [S]. *)
Definition zoom {S T E A} (get : S → T) (set : T → S → S) (m : M T E A)
    : M S E A := λ s, let '(r, t) := m (get s) in (r, set t s).

(** A result already at hand ([Result] values of pure code). *)
Definition of_outcome {S E A} (r : outcome E A) : M S E A := λ s, (r, s).

Declare Scope rust_scope.
Delimit Scope rust_scope with rust.
Notation "'let?' x ':=' m 'in' k" := (bind m (λ x, k))
  (at level 10, x binder, m at level 100, k at level 200,
   format "'[v' 'let?'  x  ':='  m  'in' '/' k ']'") : rust_scope.
Notation "m1 ;;? m2" := (bind m1 (λ _, m2))
  (at level 100, right associativity) : rust_scope.
Open Scope rust_scope.

(** [for x in l { body(x)?; }] *)
Fixpoint for_each {S E A} (l : list A) (body : A → M S E ()) : M S E () :=
  match l with
  | [] => ret tt
  | x :: l => body x ;;? for_each l body
  end.

(** [for x in l { out.push(f(x)?); }] *)
Fixpoint collect {S E A B} (l : list A) (f : A → M S E B) : M S E (list B) :=
  match l with
  | [] => ret []
  | x :: l => let? y := f x in let? ys := collect l f in ret (y :: ys)
  end.

(** ** Reasoning about computations *)

(** Two computations are equal when they agree on every state. *)
#[export] Instance M_equiv {S E A} : Equiv (M S E A) := λ m1 m2, ∀ s, m1 s = m2 s.

#[export] Instance M_equivalence {S E A} : Equivalence (≡@{M S E A}).
Proof.
  split.
  - by intros m s.
  - intros m1 m2 Hm s. by rewrite (Hm s).
  - intros m1 m2 m3 H12 H23 s. by rewrite (H12 s), (H23 s).
Qed.

#[export] Instance bind_proper {S E A B} :
  Proper ((≡@{M S E A}) ==> pointwise_relation A (≡) ==> (≡@{M S E B})) bind.
Proof.
  intros m1 m2 Hm k1 k2 Hk s. unfold bind. rewrite (Hm s).
  destruct (m2 s) as [[a|e|] s']; [apply Hk|done|done].
Qed.

#[export] Instance try_with_proper {S E E' A B} :
  Proper ((≡@{M S E A}) ==> pointwise_relation A (≡) ==> pointwise_relation E (≡)
    ==> (≡@{M S E' B})) try_with.
Proof.
  intros m1 m2 Hm k1 k2 Hk h1 h2 Hh s. unfold try_with. rewrite (Hm s).
  destruct (m2 s) as [[a|e|] s']; [apply Hk|apply Hh|done].
Qed.

(** [wp m Q s]: running [m] on [s] ends in an outcome and a state in [Q]. *)
Definition wp {S E A} (m : M S E A) (Q : outcome E A → S → Prop) (s : S) : Prop :=
  Q (m s).1 (m s).2.

(** The postcondition of the first half of a [bind]. *)
Definition and_then {S E A B} (k : A → M S E B) (Q : outcome E B → S → Prop)
    : outcome E A → S → Prop := λ r s,
  match r with
  | Ok a => wp (k a) Q s
  | Err e => Q (Err e) s
  | Panic => Q Panic s
  end.

Section wp.
Context {S E : Type}.

Lemma wp_mono {A} (m : M S E A) (Q Q' : outcome E A → S → Prop) s :
  wp m Q s → (∀ r s', Q r s' → Q' r s') → wp m Q' s.
Proof. unfold wp. auto. Qed.

Lemma wp_ret {A} (a : A) (Q : outcome E A → S → Prop) s :
  Q (Ok a) s → wp (ret a) Q s.
Proof. done. Qed.

Lemma wp_bind {A B} (m : M S E A) (k : A → M S E B) (Q : outcome E B → S → Prop) s :
  wp m (and_then k Q) s → wp (bind m k) Q s.
Proof. unfold wp, bind, and_then. by destruct (m s) as [[a|e|] s']. Qed.

Lemma wp_bind_inv {A B} (m : M S E A) (k : A → M S E B) (Q : outcome E B → S → Prop) s :
  wp (bind m k) Q s → wp m (and_then k Q) s.
Proof. unfold wp, bind, and_then. by destruct (m s) as [[a|e|] s']. Qed.

Lemma wp_map_err {E' A} (f : E' → E) (m : M S E' A) (Q : outcome E A → S → Prop) s :
  wp m (λ r s', match r with
                | Ok a => Q (Ok a) s' | Err e => Q (Err (f e)) s' | Panic => Q Panic s'
                end) s →
  wp (map_err f m) Q s.
Proof. unfold wp, map_err. by destruct (m s) as [[a|e|] s']. Qed.

Lemma wp_try_with {E' A B} (m : M S E' A) ok err (Q : outcome E B → S → Prop) s :
  wp m (λ r s', match r with
                | Ok a => wp (ok a) Q s' | Err e => wp (err e) Q s' | Panic => Q Panic s'
                end) s →
  wp (try_with m ok err) Q s.
Proof. unfold wp, try_with. by destruct (m s) as [[a|e|] s']. Qed.

Lemma wp_zoom {T A} (get : S → T) (set : T → S → S) (m : M T E A)
    (Q : outcome E A → S → Prop) s :
  wp m (λ r t, Q r (set t s)) (get s) → wp (zoom get set m) Q s.
Proof. unfold wp, zoom. by destruct (m (get s)) as [r t]. Qed.
End wp.

(** ** Invariants of a computation, on every outcome *)
Definition preserves {S E A} (I : S → Prop) (m : M S E A) : Prop :=
  ∀ s, I s → I (m s).2.

Section preserves.
Context {S E : Type} (I : S → Prop).

Lemma preserves_ret {A} (a : A) : preserves I (ret (E:=E) a).
Proof. by intros s. Qed.
Lemma preserves_throw {A} (e : E) : preserves I (throw (A:=A) e).
Proof. by intros s. Qed.
Lemma preserves_panic {A} : preserves I (panic (E:=E) (A:=A)).
Proof. by intros s. Qed.
Lemma preserves_of_outcome {A} (r : outcome E A) : preserves I (of_outcome r).
Proof. by intros s. Qed.

Lemma preserves_bind {A B} (m : M S E A) (k : A → M S E B) :
  preserves I m → (∀ a, preserves I (k a)) → preserves I (bind m k).
Proof.
  intros Hm Hk s Hs. unfold bind. specialize (Hm s Hs).
  destruct (m s) as [[a|e|] s']; simpl in *; [by apply Hk|done|done].
Qed.

Lemma preserves_map_err {E' A} (f : E' → E) (m : M S E' A) :
  preserves I m → preserves I (map_err f m).
Proof.
  intros Hm s Hs. unfold map_err. specialize (Hm s Hs).
  by destruct (m s) as [[a|e|] s'].
Qed.

Lemma preserves_try_with {E' A B} (m : M S E' A) (ok : A → M S E B) (err : E' → M S E B) :
  preserves I m → (∀ a, preserves I (ok a)) → (∀ e, preserves I (err e)) →
  preserves I (try_with m ok err).
Proof.
  intros Hm Hok Herr s Hs. unfold try_with. specialize (Hm s Hs).
  destruct (m s) as [[a|e|] s']; simpl in *; [by apply Hok|by apply Herr|done].
Qed.

Lemma preserves_for_each {A} (l : list A) (body : A → M S E ()) :
  (∀ a, preserves I (body a)) → preserves I (for_each l body).
Proof.
  intros Hb. induction l as [|x l IH]; [apply preserves_ret|].
  apply preserves_bind; auto.
Qed.

Lemma preserves_collect {A B} (l : list A) (f : A → M S E B) :
  (∀ a, preserves I (f a)) → preserves I (collect l f).
Proof.
  intros Hf. induction l as [|x l IH]; [apply preserves_ret|].
  apply preserves_bind; [auto|intros y].
  apply preserves_bind; [auto|intros ys]. apply preserves_ret.
Qed.
End preserves.

Lemma preserves_zoom {S T E A} (I : S → Prop) (J : T → Prop) (get : S → T)
    (set : T → S → S) (m : M T E A) :
  preserves J m → (∀ s, I s → J (get s)) → (∀ s t, I s → J t → I (set t s)) →
  preserves I (zoom get set m).
Proof.
  intros Hm Hget Hset s Hs. unfold zoom. specialize (Hm (get s) (Hget s Hs)).
  destruct (m (get s)) as [r t]. by apply Hset.
Qed.

Create HintDb rust_inv discriminated.
#[export] Hint Resolve preserves_ret preserves_throw preserves_panic preserves_of_outcome
  preserves_bind preserves_map_err preserves_try_with preserves_for_each
  preserves_collect : rust_inv.
#[export] Hint Constants Opaque : rust_inv.
#[export] Hint Extern 3 (preserves _ (match ?x with _ => _ end)) => destruct x : rust_inv.
#[export] Hint Extern 2 (∀ _, preserves _ _) => intros ? : rust_inv.

(** Splits the control flow of a handler and closes the pure branches. *)
Ltac preserve := intros; eauto 30 with rust_inv.

(** ** Computations that keep an invariant and do not panic *)
Definition safe {S E A} (I : S → Prop) (m : M S E A) : Prop :=
  ∀ s, I s → I (m s).2 ∧ (m s).1 ≠ Panic.

Section safe.
Context {S E : Type} (I : S → Prop).

Lemma safe_ret {A} (a : A) : safe I (ret (E:=E) a).
Proof. by intros s. Qed.
Lemma safe_throw {A} (e : E) : safe I (throw (A:=A) e).
Proof. by intros s. Qed.

Lemma safe_bind {A B} (m : M S E A) (k : A → M S E B) :
  safe I m → (∀ a, safe I (k a)) → safe I (bind m k).
Proof.
  intros Hm Hk s Hs. unfold bind. destruct (Hm s Hs) as [Hs' Hp].
  destruct (m s) as [[a|e|] s']; simpl in *; [by apply Hk|done|done].
Qed.

Lemma safe_map_err {E' A} (f : E' → E) (m : M S E' A) : safe I m → safe I (map_err f m).
Proof.
  intros Hm s Hs. unfold map_err. destruct (Hm s Hs) as [Hs' Hp].
  by destruct (m s) as [[a|e|] s'].
Qed.

Lemma safe_try_with {E' A B} (m : M S E' A) (ok : A → M S E B) (err : E' → M S E B) :
  safe I m → (∀ a, safe I (ok a)) → (∀ e, safe I (err e)) → safe I (try_with m ok err).
Proof.
  intros Hm Hok Herr s Hs. unfold try_with. destruct (Hm s Hs) as [Hs' Hp].
  destruct (m s) as [[a|e|] s']; simpl in *; [by apply Hok|by apply Herr|done].
Qed.

Lemma safe_for_each {A} (l : list A) (body : A → M S E ()) :
  (∀ a, safe I (body a)) → safe I (for_each l body).
Proof.
  intros Hb. induction l as [|x l IH]; [apply safe_ret|]. apply safe_bind; auto.
Qed.

Lemma safe_collect {A B} (l : list A) (f : A → M S E B) :
  (∀ a, safe I (f a)) → safe I (collect l f).
Proof.
  intros Hf. induction l as [|x l IH]; [apply safe_ret|]. apply safe_bind; [auto|intros y].
  apply safe_bind; [auto|intros ys]. apply safe_ret.
Qed.

Lemma safe_of_preserves {A} (m : M S E A) :
  preserves I m → (∀ s, (m s).1 ≠ Panic) → safe I m.
Proof. intros Hm Hp s Hs. split; [by apply Hm|apply Hp]. Qed.

Lemma safe_of_wp {A} (m : M S E A) (Q : S → outcome E A → S → Prop) :
  (∀ s, I s → wp m (Q s) s) → (∀ s r s', I s → Q s r s' → I s' ∧ r ≠ Panic) → safe I m.
Proof. intros Hm HQ s Hs. apply (HQ s), Hm; done. Qed.
End safe.

Lemma safe_zoom {S T E A} (I : S → Prop) (J : T → Prop) (get : S → T)
    (set : T → S → S) (m : M T E A) :
  safe J m → (∀ s, I s → J (get s)) → (∀ s t, I s → J t → I (set t s)) →
  safe I (zoom get set m).
Proof.
  intros Hm Hget Hset s Hs. unfold zoom. destruct (Hm (get s) (Hget s Hs)) as [Ht Hp].
  destruct (m (get s)) as [r t]. split; [by apply Hset|done].
Qed.

Create HintDb rust_safe discriminated.
#[export] Hint Resolve safe_ret safe_throw safe_bind safe_map_err safe_try_with safe_for_each
  safe_collect : rust_safe.
#[export] Hint Constants Opaque : rust_safe.
#[export] Hint Extern 3 (safe _ (match ?x with _ => _ end)) => destruct x : rust_safe.
#[export] Hint Extern 2 (∀ _, safe _ _) => intros ? : rust_safe.

(** ** Computations that keep an invariant and return typed values *)
Definition yields {S E A} (I : S → Prop) (m : M S E A) (P : A → Prop) : Prop :=
  ∀ s, I s → I (m s).2 ∧ ∀ a, (m s).1 = Ok a → P a.

Section yields.
Context {S E : Type} (I : S → Prop).

Lemma yields_ret {A} (a : A) (P : A → Prop) : P a → yields I (ret (E:=E) a) P.
Proof. intros Ha s Hs. split; [done|]. by intros ? [= <-]. Qed.

Lemma yields_bind {A B} (m : M S E A) (k : A → M S E B) (P : A → Prop) (Q : B → Prop) :
  yields I m P → (∀ a, P a → yields I (k a) Q) → yields I (bind m k) Q.
Proof.
  intros Hm Hk s Hs. unfold bind. destruct (Hm s Hs) as [Hs' Ha].
  destruct (m s) as [[a|e|] s']; simpl in *; [by apply Hk; [apply Ha|]|done|done].
Qed.

Lemma yields_map_err {E' A} (f : E' → E) (m : M S E' A) (P : A → Prop) :
  yields I m P → yields I (map_err f m) P.
Proof.
  intros Hm s Hs. unfold map_err. destruct (Hm s Hs) as [Hs' Ha].
  destruct (m s) as [[a|e|] s']; simpl in *; (split; [done|]); intros ? [= <-]; auto.
Qed.

Lemma yields_try_with {E' A B} (m : M S E' A) (ok : A → M S E B) (err : E' → M S E B)
    (P : A → Prop) (Q : B → Prop) :
  yields I m P → (∀ a, P a → yields I (ok a) Q) → (∀ e, yields I (err e) Q) →
  yields I (try_with m ok err) Q.
Proof.
  intros Hm Hok Herr s Hs. unfold try_with. destruct (Hm s Hs) as [Hs' Ha].
  destruct (m s) as [[a|e|] s']; simpl in *; [by apply Hok; [apply Ha|]|by apply Herr|done].
Qed.

Lemma yields_collect {A B} (l : list A) (f : A → M S E B) (P : B → Prop) :
  (∀ a, yields I (f a) P) → yields I (collect l f) (Forall P).
Proof.
  intros Hf. induction l as [|x l IH]; [by apply yields_ret|].
  eapply yields_bind; [apply Hf|intros y Hy].
  eapply yields_bind; [apply IH|intros ys Hys]. apply yields_ret. by constructor.
Qed.

Lemma yields_of_preserves {A} (m : M S E A) : preserves I m → yields I m (λ _, True).
Proof. intros Hm s Hs. split; [by apply Hm|done]. Qed.

Lemma yields_mono {A} (m : M S E A) (P Q : A → Prop) :
  yields I m P → (∀ a, P a → Q a) → yields I m Q.
Proof. intros Hm HPQ s Hs. destruct (Hm s Hs) as [Hs' Ha]. auto. Qed.

Lemma yields_of_wp {A} (m : M S E A) (Q : S → outcome E A → S → Prop) (P : A → Prop) :
  (∀ s, I s → wp m (Q s) s) →
  (∀ s r s', I s → Q s r s' → I s' ∧ ∀ a, r = Ok a → P a) → yields I m P.
Proof. intros Hm HQ s Hs. apply (HQ s), Hm; done. Qed.
End yields.

Lemma yields_zoom {S T E A} (I : S → Prop) (J : T → Prop) (get : S → T)
    (set : T → S → S) (m : M T E A) (P : A → Prop) :
  yields J m P → (∀ s, I s → J (get s)) → (∀ s t, I s → J t → I (set t s)) →
  yields I (zoom get set m) P.
Proof.
  intros Hm Hget Hset s Hs. unfold zoom. destruct (Hm (get s) (Hget s Hs)) as [Ht Ha].
  destruct (m (get s)) as [r t]. split; [by apply Hset|done].
Qed.

(** ** Lists whose elements have distinct keys *)

Lemma filter_unique {A B} `{EqDecision B} (f : A → B) (l : list A) (x : A) :
  NoDup (f <$> l) → x ∈ l → filter (λ y, f y = f x) l = [x].
Proof.
  induction l as [|y l IH]; simpl; [by intros _ ?%not_elem_of_nil|].
  rewrite NoDup_cons, elem_of_cons. intros [Hy Hl] [->|Hx].
  - rewrite filter_cons_True by done. f_equal.
    destruct (filter _ l) as [|z zs] eqn:Hf; [done|]. exfalso. apply Hy.
    assert (z ∈ filter (λ z, f z = f y) l) as [Heq Hz]%list_elem_of_filter
      by (rewrite Hf; left).
    rewrite <-Heq. by apply list_elem_of_fmap_2.
  - rewrite filter_cons_False; [by apply IH|].
    intros Heq. apply Hy. rewrite Heq. by apply list_elem_of_fmap_2.
Qed.

Lemma NoDup_fmap_inj {A B} `{EqDecision B} (f : A → B) (l : list A) (x y : A) :
  NoDup (f <$> l) → x ∈ l → y ∈ l → f x = f y → x = y.
Proof.
  intros Hl Hx Hy Heq. assert (y ∈ filter (λ z, f z = f x) l) as Hin
    by (by apply list_elem_of_filter).
  rewrite (filter_unique f l x) in Hin by done. by apply list_elem_of_singleton in Hin.
Qed.

(** ** Machine integers

    Unsigned integers are [Z] within their width. Rust's [+] and [-] panic on
    overflow when the crate is built with overflow checks and wrap otherwise;
    [Cargo.toml] leaves the profile default, so both builds are modelled. The
    remainder by zero panics in every build. *)
Class BuildProfile := { overflow_checks : bool }.

Definition u32_modulus : Z := 2 ^ 32.
Definition u64_modulus : Z := 2 ^ 64.
Definition is_u32 (z : Z) : Prop := (0 ≤ z < u32_modulus)%Z.
Definition is_u64 (z : Z) : Prop := (0 ≤ z < u64_modulus)%Z.

Section machine_integers.
Context `{BuildProfile} {S E : Type}.

(** The exact result [z] of an operation, brought back to [w] values. *)
Definition narrow (w z : Z) : M S E Z :=
  if bool_decide (0 ≤ z < w)%Z then ret z
  else if overflow_checks then panic
  else ret (z `mod` w)%Z.

Definition u32_add (a b : Z) : M S E Z := narrow u32_modulus (a + b).
Definition u32_sub (a b : Z) : M S E Z := narrow u32_modulus (a - b).
Definition u32_rem (a b : Z) : M S E Z :=
  if bool_decide (b = 0)%Z then panic else ret (a `mod` b)%Z.
Definition u64_add (a b : Z) : M S E Z := narrow u64_modulus (a + b).

(** [i64] addition. *)
Definition i64_add (a b : Z) : M S E Z :=
  if bool_decide (- 2 ^ 63 ≤ a + b < 2 ^ 63)%Z then ret (a + b)%Z
  else if overflow_checks then panic
  else ret ((a + b + 2 ^ 63) `mod` 2 ^ 64 - 2 ^ 63)%Z.

Lemma narrow_in_range w z : (0 ≤ z < w)%Z → narrow w z = ret z.
Proof. intros Hz. unfold narrow. by rewrite bool_decide_eq_true_2. Qed.

Lemma u32_add_exact a b : is_u32 (a + b) → u32_add a b = ret (a + b)%Z.
Proof. apply narrow_in_range. Qed.
Lemma u32_sub_exact a b : is_u32 (a - b) → u32_sub a b = ret (a - b)%Z.
Proof. apply narrow_in_range. Qed.
Lemma u32_rem_exact a b : b ≠ 0%Z → u32_rem a b = ret (a `mod` b)%Z.
Proof. intros Hb. unfold u32_rem. by rewrite bool_decide_eq_false_2. Qed.
Lemma u64_add_exact a b : is_u64 (a + b) → u64_add a b = ret (a + b)%Z.
Proof. apply narrow_in_range. Qed.
End machine_integers.

(** The left unit law, which runs a sequence of exact operations. *)
Lemma bind_ret_l {S E A B} (a : A) (k : A → M S E B) : bind (ret a) k = k a.
Proof. done. Qed.

Create Rewrite HintDb rust_run.
#[export] Hint Rewrite @bind_ret_l : rust_run.

(** [impl From<A> for B]: the conversion [?] inserts. *)
Class From (A B : Type) := from : A → B.

(** ** Formatting *)

Definition digit_char (d : Z) : Ascii.ascii := Ascii.ascii_of_nat (48 + Z.to_nat d).

(** The digits of [n] in a base, least significant last; [fuel] digits at most. *)
Fixpoint digits (base : Z) (fuel : nat) (n : Z) (acc : string) : string :=
  match fuel with
  | O => acc
  | Datatypes.S fuel =>
      let acc := String (digit_char (n `mod` base)) acc in
      if bool_decide (n < base)%Z then acc else digits base fuel (n `div` base) acc
  end.

(** [{n}] for an unsigned integer of at most 64 bits: at most 20 digits. *)
Definition fmt_dec (n : Z) : string := digits 10 20 n "".

Fixpoint pad_left (c : Ascii.ascii) (k : nat) (s : string) : string :=
  match k with
  | O => s
  | Datatypes.S k => String c (pad_left c k s)
  end.

(** [{n:04o}]: octal, padded with zeros to four characters. *)
Definition fmt_octal4 (n : Z) : string :=
  let s := digits 8 22 n "" in pad_left (digit_char 0) (4 - String.length s) s.
