(* ===== verification/Text.v ===== *)
(** * Text: the [str] operations the program calls

    A Rust string is its UTF-8 bytes, one [ascii] per byte. The operations below
    that take characters are given the bytes of those characters: in valid UTF-8
    an encoded character starts at no other place than where that character is. *)

From S2P Require Import Prelude.
From Stdlib Require Import Ascii.
From stdpp Require Import prelude strings list.

Abbreviation byte := Ascii.ascii.
Definition byte_of (z : Z) : byte := Ascii.ascii_of_N (Z.to_N z).
Definition code (b : byte) : Z := Z.of_N (Ascii.N_of_ascii b).
Definition byte_string (codes : list Z) : string := foldr (λ z, String (byte_of z)) "" codes.

(** [strip_prefix] and [starts_with] *)
Fixpoint strip_prefix (p s : string) : option string :=
  match p, s with
  | "", _ => Some s
  | String a p, String b s => if bool_decide (a = b) then strip_prefix p s else None
  | String _ _, "" => None
  end.

Definition starts_with (p s : string) : bool := bool_decide (is_Some (strip_prefix p s)).

(** [trim_end_matches(c)] *)
Fixpoint trim_end_matches (c : byte) (s : string) : string :=
  match s with
  | "" => ""
  | String b s =>
      match trim_end_matches c s with
      | "" => if bool_decide (b = c) then "" else String b ""
      | t => String b t
      end
  end.

(** [replace(pat, to)] for a non-empty pattern: [skip] bytes of a match that was
    just replaced are still to be passed over. *)
Fixpoint replace_from (pat to : string) (skip : nat) (s : string) : string :=
  match s with
  | "" => ""
  | String b s' =>
      match skip with
      | S skip => replace_from pat to skip s'
      | O => if starts_with pat s then to +:+ replace_from pat to (String.length pat - 1) s'
             else String b (replace_from pat to 0 s')
      end
  end.
Definition replace (pat to s : string) : string := replace_from pat to 0 s.

Fixpoint string_rev_app (s acc : string) : string :=
  match s with "" => acc | String b s => string_rev_app s (String b acc) end.
Definition string_rev (s : string) : string := string_rev_app s "".

(** The characters [char::is_whitespace] accepts, encoded: U+0009 to U+000D,
    U+0020, U+0085, U+00A0, U+1680, U+2000 to U+200A, U+2028, U+2029, U+202F,
    U+205F and U+3000. *)
Definition white_space : list string := byte_string <$>
  [[9]; [10]; [11]; [12]; [13]; [32]; [194; 133]; [194; 160]; [225; 154; 128];
   [226; 128; 128]; [226; 128; 129]; [226; 128; 130]; [226; 128; 131]; [226; 128; 132];
   [226; 128; 133]; [226; 128; 134]; [226; 128; 135]; [226; 128; 136]; [226; 128; 137];
   [226; 128; 138]; [226; 128; 168]; [226; 128; 169]; [226; 128; 175]; [226; 129; 159];
   [227; 128; 128]]%Z.

Fixpoint strip_any (ps : list string) (s : string) : option string :=
  match ps with
  | [] => None
  | p :: ps => match strip_prefix p s with Some s' => Some s' | None => strip_any ps s end
  end.

(** Stripping as long as a pattern fits; each pattern is non-empty, so the
    length of the string is enough fuel. *)
Fixpoint strip_all (ps : list string) (fuel : nat) (s : string) : string :=
  match fuel with
  | O => s
  | S fuel => match strip_any ps s with Some s' => strip_all ps fuel s' | None => s end
  end.

Definition trim_start (s : string) : string := strip_all white_space (String.length s) s.
Definition trim_end (s : string) : string :=
  string_rev (strip_all (string_rev <$> white_space) (String.length s) (string_rev s)).
Definition trim (s : string) : string := trim_end (trim_start s).

(** ASCII [to_lowercase]. *)
Definition lower_byte (b : byte) : byte :=
  if bool_decide (65 ≤ code b ≤ 90)%Z then byte_of (code b + 32) else b.
Fixpoint to_lowercase (s : string) : string :=
  match s with "" => "" | String b s => String (lower_byte b) (to_lowercase s) end.

(** [CString::new] refuses a string with a NUL inside. *)
Fixpoint has_nul (s : string) : bool :=
  match s with
  | EmptyString => false
  | String c s => bool_decide (c = Ascii.zero) || has_nul s
  end.

(** [str::from_utf8]: the well-formed byte sequences. *)
Definition in_bytes (lo hi : Z) (b : byte) : bool := bool_decide (lo ≤ code b ≤ hi)%Z.
Definition continuation : byte → bool := in_bytes 128 191.
Fixpoint valid_utf8 (s : string) : bool :=
  match s with
  | "" => true
  | String b0 s1 =>
      if in_bytes 0 127 b0 then valid_utf8 s1 else
      match s1 with
      | "" => false
      | String b1 s2 =>
          if in_bytes 194 223 b0 then continuation b1 && valid_utf8 s2 else
          match s2 with
          | "" => false
          | String b2 s3 =>
              if in_bytes 224 239 b0 then
                (if in_bytes 224 224 b0 then in_bytes 160 191 b1
                 else if in_bytes 237 237 b0 then in_bytes 128 159 b1
                 else continuation b1)
                && continuation b2 && valid_utf8 s3
              else
              match s3 with
              | "" => false
              | String b3 s4 =>
                  in_bytes 240 244 b0 &&
                  (if in_bytes 240 240 b0 then in_bytes 144 191 b1
                   else if in_bytes 244 244 b0 then in_bytes 128 143 b1
                   else continuation b1)
                  && continuation b2 && continuation b3 && valid_utf8 s4
              end
          end
      end
  end.

Example utf8_samples :
  valid_utf8 <$> (byte_string <$> [[97; 98]; [195; 169]; [226; 130; 172]; [240; 159; 152; 128]]%Z)
  = [true; true; true; true] ∧
  valid_utf8 <$> (byte_string <$> [[128]; [192; 128]; [237; 160; 128]; [226; 130]; [245; 128; 128; 128]]%Z)
  = [false; false; false; false; false].
Proof. vm_compute. done. Qed.

Example trim_token : trim (byte_string [32; 9]%Z +:+ "my-token" +:+ byte_string [194; 160; 10]%Z) = "my-token".
Proof. vm_compute. reflexivity. Qed.
Example replace_user : replace "{user}" "alice" "/home/{user}/{user" = "/home/alice/{user".
Proof. vm_compute. reflexivity. Qed.
Example trim_slashes : trim_end_matches "/"%char "https://idp//" = "https://idp".
Proof. vm_compute. reflexivity. Qed.

(** ** Lemmas *)

Lemma string_app_cons b s t : String b s +:+ t = String b (s +:+ t).
Proof. reflexivity. Qed.
Lemma string_app_nil_l s : "" +:+ s = s.
Proof. reflexivity. Qed.

Lemma string_app_nil_r s : s +:+ "" = s.
Proof. induction s as [|b s IH]; [done|]. by rewrite string_app_cons, IH. Qed.

Lemma string_app_assoc s1 s2 s3 : s1 +:+ (s2 +:+ s3) = (s1 +:+ s2) +:+ s3.
Proof. induction s1 as [|b s IH]; [done|]. by rewrite !string_app_cons, IH. Qed.

Lemma string_length_app s1 s2 : String.length (s1 +:+ s2) = String.length s1 + String.length s2.
Proof. induction s1 as [|b s IH]; [done|]. rewrite string_app_cons. simpl. by rewrite IH. Qed.

Lemma strip_prefix_Some p s t : strip_prefix p s = Some t ↔ s = p +:+ t.
Proof.
  revert s. induction p as [|a p IH]; intros s; simpl; [rewrite string_app_nil_l; split; congruence|].
  destruct s as [|b s]; [done|]. case_bool_decide as Hab.
  - rewrite IH, string_app_cons. subst. split; [by intros ->|by intros [= ->]].
  - rewrite string_app_cons. split; [done|]. intros [= -> _]. done.
Qed.

Lemma starts_with_spec p s : starts_with p s = true ↔ ∃ t, s = p +:+ t.
Proof.
  unfold starts_with. rewrite bool_decide_eq_true. split.
  - intros [t Ht%strip_prefix_Some]. by exists t.
  - intros [t Ht%strip_prefix_Some]. by exists t.
Qed.

Lemma string_rev_app_app s acc : string_rev_app s acc = string_rev s +:+ acc.
Proof.
  unfold string_rev. revert acc. induction s as [|b s IH]; intros acc; simpl; [done|].
  by rewrite IH, (IH (String b "")), <-string_app_assoc.
Qed.

Lemma string_rev_cons b s : string_rev (String b s) = string_rev s +:+ String b "".
Proof. unfold string_rev at 1. simpl. apply string_rev_app_app. Qed.

Lemma string_rev_concat s1 s2 : string_rev (s1 +:+ s2) = string_rev s2 +:+ string_rev s1.
Proof.
  induction s1 as [|b s IH]; [by rewrite string_app_nil_r|].
  by rewrite string_app_cons, !string_rev_cons, IH, string_app_assoc.
Qed.

Lemma string_rev_involutive s : string_rev (string_rev s) = s.
Proof.
  induction s as [|b s IH]; [done|]. by rewrite string_rev_cons, string_rev_concat, IH.
Qed.

Lemma string_length_rev s : String.length (string_rev s) = String.length s.
Proof.
  induction s as [|b s IH]; [done|]. rewrite string_rev_cons, string_length_app, IH. simpl. lia.
Qed.

Lemma strip_any_Some ps s t : strip_any ps s = Some t → ∃ p, p ∈ ps ∧ s = p +:+ t.
Proof.
  induction ps as [|p ps IH]; simpl; [done|]. destruct (strip_prefix p s) eqn:Hp.
  - intros [= ->]. exists p. split; [by left|]. by apply strip_prefix_Some.
  - intros (q & Hq & ->)%IH. exists q. split; [by right|done].
Qed.

Lemma strip_any_extend ps s t : is_Some (strip_any ps s) → is_Some (strip_any ps (s +:+ t)).
Proof.
  induction ps as [|p ps IH]; simpl; [by intros []|].
  destruct (strip_prefix p s) as [s'|] eqn:Hp.
  - intros _. apply strip_prefix_Some in Hp as ->. rewrite <-string_app_assoc.
    by rewrite (proj2 (strip_prefix_Some p _ (s' +:+ t)) eq_refl).
  - intros Hs%IH. by destruct (strip_prefix p (s +:+ t)).
Qed.

(** A string of whole patterns. *)
Inductive made_of (ps : list string) : string → Prop :=
  | made_of_nil : made_of ps ""
  | made_of_app p s : p ∈ ps → made_of ps s → made_of ps (p +:+ s).

Lemma strip_all_spec ps fuel s :
  (∀ p, p ∈ ps → p ≠ "") → String.length s ≤ fuel →
  strip_any ps (strip_all ps fuel s) = None ∧
  ∃ pre, made_of ps pre ∧ s = pre +:+ strip_all ps fuel s.
Proof.
  intros Hps. revert s. induction fuel as [|fuel IH]; intros s Hf; simpl.
  - destruct s; simpl in Hf; [|lia]. split; [|by exists ""; split; [constructor|]].
    destruct (strip_any ps "") as [t|] eqn:Ht; [|done].
    apply strip_any_Some in Ht as (p & Hp & Heq). destruct p; [by destruct (Hps "" Hp)|done].
  - destruct (strip_any ps s) as [t|] eqn:Ht; [|by split; [|exists ""; split; [constructor|]]].
    apply strip_any_Some in Ht as (p & Hp & ->).
    destruct (IH t) as (Hn & pre & Hpre & Heq).
    { rewrite string_length_app in Hf. pose proof (Hps p Hp). destruct p; [done|]. simpl in Hf. lia. }
    split; [done|]. exists (p +:+ pre). split; [by constructor|].
    by rewrite <-string_app_assoc, <-Heq.
Qed.

Lemma white_space_nonempty p : p ∈ white_space → p ≠ "".
Proof. intros Hp ->. revert Hp. apply (bool_decide_unpack ("" ∉ white_space)). vm_compute. exact I. Qed.
Lemma rev_white_space_nonempty p : p ∈ string_rev <$> white_space → p ≠ "".
Proof. intros Hp ->. revert Hp. apply (bool_decide_unpack ("" ∉ string_rev <$> white_space)). vm_compute. exact I. Qed.

(** [trim] takes white space from both ends and leaves none there. *)
Lemma made_of_app_r ps s t : made_of ps s → made_of ps t → made_of ps (s +:+ t).
Proof.
  intros Hs Ht. induction Hs as [|p s Hp Hs IH]; [done|].
  rewrite <-string_app_assoc. by constructor.
Qed.

Lemma made_of_rev ps s : made_of (string_rev <$> ps) s → made_of ps (string_rev s).
Proof.
  induction 1 as [|p s Hp Hs IH]; [constructor|]. rewrite string_rev_concat.
  apply made_of_app_r; [done|]. apply list_elem_of_fmap in Hp as (q & -> & Hq).
  rewrite string_rev_involutive, <-(string_app_nil_r q). by repeat constructor.
Qed.

Lemma trim_spec s :
  ∃ pre post, made_of white_space pre ∧ made_of white_space post ∧
    s = pre +:+ trim s +:+ post ∧
    strip_any white_space (trim s) = None ∧
    strip_any (string_rev <$> white_space) (string_rev (trim s)) = None.
Proof.
  destruct (strip_all_spec white_space (String.length s) s) as (Hn & pre & Hpre & Heq);
    [apply white_space_nonempty|done|].
  fold (trim_start s) in Hn, Heq. set (t := trim_start s) in *.
  destruct (strip_all_spec (string_rev <$> white_space) (String.length t) (string_rev t))
    as (Hn' & post & Hpost & Heq'); [apply rev_white_space_nonempty|by rewrite string_length_rev|].
  set (u := strip_all _ _ _) in *.
  assert (Ht : t = trim s +:+ string_rev post).
  { unfold trim, trim_end. fold t u. rewrite <-(string_rev_involutive t), Heq'.
    apply string_rev_concat. }
  exists pre, (string_rev post). split_and!; [done|by apply made_of_rev|by rewrite <-Ht| |].
  - destruct (strip_any white_space (trim s)) eqn:Hs; [|done].
    destruct (strip_any_extend white_space (trim s) (string_rev post)) as [x Hx]; [by rewrite Hs|].
    by rewrite <-Ht, Hn in Hx.
  - unfold trim, trim_end. fold t u. by rewrite string_rev_involutive.
Qed.
