(* ===== verification/Value.v ===== *)
(** * Value: the data model behind [#[derive(Deserialize)]]

    A parsed document is a tree; a repeated key of an object stays visible. The
    decoders below are what the derived implementations of the source's structs
    do with such a tree, given the attributes of their fields. *)

From S2P Require Import Prelude.
From stdpp Require Import prelude strings list.

Inductive value :=
  | VNull
  | VBool (b : bool)
  | VInt (z : Z)
  | VFloat (text : string)
  | VString (s : string)
  | VArray (l : list value)
  | VObject (fields : list (string * value)).

Abbreviation decoder A := (value → option A).

(** The [serde_json] and [toml] parsers, up to the tree they build. *)
Class JsonParser := json_parse : string → option value.
Class TomlParser := toml_parse : string → option value.

Definition decode_string : decoder string := λ v,
  match v with VString s => Some s | _ => None end.
Definition decode_bool : decoder bool := λ v,
  match v with VBool b => Some b | _ => None end.
Definition decode_unsigned (modulus : Z) : decoder Z := λ v,
  match v with
  | VInt z => if bool_decide (0 ≤ z < modulus)%Z then Some z else None
  | _ => None
  end.
Definition decode_u32 : decoder Z := decode_unsigned u32_modulus.
Definition decode_u64 : decoder Z := decode_unsigned u64_modulus.
Definition decode_option {A} (dec : decoder A) : decoder (option A) := λ v,
  match v with VNull => Some None | v => Some <$> dec v end.
Definition decode_vec {A} (dec : decoder A) : decoder (list A) := λ v,
  match v with VArray l => mapM dec l | _ => None end.

(** One field of a struct, the [i]-th of those that are read: by name in an
    object, where it may occur once; by position in an array. [absent] and
    [absent_seq] are what the two forms give when it is not there. *)
Definition field {A} (v : value) (i : nat) (name : string) (absent absent_seq : option A)
    (dec : decoder A) : option A :=
  match v with
  | VObject kvs =>
      match filter (λ kv, kv.1 = name) kvs with
      | [] => absent
      | [kv] => dec kv.2
      | _ => None
      end
  | VArray l => match l !! i with Some x => dec x | None => absent_seq end
  | _ => None
  end.

(** A plain field; one of type [Option]; one with [#[serde(default = d)]]. *)
Definition required {A} (v : value) (i : nat) (name : string) (dec : decoder A) : option A :=
  field v i name None None dec.
Definition optional {A} (v : value) (i : nat) (name : string) (dec : decoder A)
    : option (option A) :=
  field v i name (Some None) None (decode_option dec).
Definition defaulted {A} (v : value) (i : nat) (name : string) (d : A) (dec : decoder A)
    : option A :=
  field v i name (Some d) (Some d) dec.

(** A struct of [n] fields is an object, or an array with nothing left over. *)
Definition as_struct (n : nat) (v : value) : option value :=
  match v with
  | VObject _ => Some v
  | VArray l => if bool_decide (length l ≤ n) then Some v else None
  | _ => None
  end.

(** ** Lemmas *)

(** The value a key has in an object where it occurs at most once. *)
Definition only_value (kvs : list (string * value)) (name : string) (v : option value) : Prop :=
  filter (λ kv, kv.1 = name) kvs = match v with Some v => [(name, v)] | None => [] end.

Section field_facts.
Context {A : Type} (dec : decoder A) (kvs : list (string * value)) (i : nat) (name : string).

Lemma required_object v :
  only_value kvs name v → required (VObject kvs) i name dec = v ≫= dec.
Proof. unfold only_value, required, field. intros ->. by destruct v. Qed.

Lemma optional_object v :
  only_value kvs name v →
  optional (VObject kvs) i name dec =
    match v with Some v => decode_option dec v | None => Some None end.
Proof. unfold only_value, optional, field. intros ->. by destruct v. Qed.

Lemma defaulted_object d v :
  only_value kvs name v →
  defaulted (VObject kvs) i name d dec = match v with Some v => dec v | None => Some d end.
Proof. unfold only_value, defaulted, field. intros ->. by destruct v. Qed.

(** A field that occurs twice makes the whole document an error. *)
Lemma field_repeated absent absent_seq kv1 kv2 rest :
  filter (λ kv, kv.1 = name) kvs = kv1 :: kv2 :: rest →
  field (VObject kvs) i name absent absent_seq dec = None.
Proof. unfold field. by intros ->. Qed.
End field_facts.

Lemma mapM_encode {A} (dec : decoder A) (enc : A → value) (l : list A) :
  (∀ a, dec (enc a) = Some a) → mapM dec (enc <$> l) = Some l.
Proof.
  intros He. apply mapM_Some_2. induction l as [|a l IH]; simpl; by constructor.
Qed.

(** Every value a field decodes to satisfies what its decoder guarantees. *)
Lemma field_decoded {A} (P : A → Prop) v i name absent absent_seq (dec : decoder A) a :
  (∀ v a, dec v = Some a → P a) → (∀ a, absent = Some a → P a) →
  (∀ a, absent_seq = Some a → P a) → field v i name absent absent_seq dec = Some a → P a.
Proof.
  intros Hdec Ha Hs. unfold field. destruct v as [| | | | |l|kvs]; try done.
  - destruct (l !! i) as [v|]; [by apply Hdec|by apply Hs].
  - destruct (filter _ kvs) as [|kv [|? ?]]; [by apply Ha|by apply Hdec|done].
Qed.

Lemma decoded_u64 v z : decode_u64 v = Some z → is_u64 z.
Proof.
  unfold decode_u64, decode_unsigned. destruct v; try done. case_bool_decide; [|done].
  by intros [= <-].
Qed.
