(* ===== verification/Model.v ===== *)
(** * Model: the POSIX users and groups the resolver produces ([src/model.rs]) *)

From S2P Require Import Prelude.
From stdpp Require Import prelude strings.

Record User := mk_user {
  user_external_id : string;
  user_name : string;
  user_uid : Z;
  user_gid : Z;
  user_gecos : string;
  user_home : string;
  user_shell : string;
  user_active : bool;
}.

Definition default_active : bool := true.

Record Group := mk_group {
  group_external_id : string;
  group_name : string;
  group_gid : Z;
  group_members : list string;
}.

#[export] Instance User_eq_dec : EqDecision User.
Proof. solve_decision. Defined.
#[export] Instance Group_eq_dec : EqDecision Group.
Proof. solve_decision. Defined.

(** A group's member list is a set the database returns in any order: groups
    are compared up to the order of their members. *)
#[export] Instance Group_equiv : Equiv Group := λ g1 g2,
  group_external_id g1 = group_external_id g2 ∧ group_name g1 = group_name g2 ∧
  group_gid g1 = group_gid g2 ∧ group_members g1 ≡ₚ group_members g2.

#[export] Instance Group_equivalence : Equivalence (≡@{Group}).
Proof.
  split.
  - by intros g.
  - intros g1 g2 (?&?&?&?). by split_and!.
  - intros g1 g2 g3 (?&?&?&Hm1) (?&?&?&Hm2). split_and!; [congruence..|by rewrite Hm1].
Qed.

#[export] Instance group_gid_proper : Proper ((≡) ==> (=)) group_gid.
Proof. by intros g1 g2 (_&_&?&_). Qed.
#[export] Instance group_members_proper : Proper ((≡) ==> (≡ₚ)) group_members.
Proof. by intros g1 g2 (_&_&_&?). Qed.
