(* ===== verification/Mapping.v ===== *)
(** * Mapping: external identifiers to numeric ids ([src/mapping.rs]) *)

From S2P Require Import Prelude.
From stdpp Require Import prelude strings list numbers sorting.
Open Scope Z_scope.

(** The [murmur3] crate: the 32-bit hash of a byte string under a seed, [None]
    when the reader fails. *)
Class Murmur3 := murmur3_32 : string → Z → option Z.

(** What the source relies on ("hashing cannot fail on a byte slice"): the
    hash of a byte slice exists, and is a [u32] because that is its type. *)
Class Murmur3Laws `{Murmur3} : Prop :=
  murmur3_total : ∀ bytes seed, ∃ h, murmur3_32 bytes seed = Some h ∧ is_u32 h.

Inductive IdRangeExhausted : Set := mk_IdRangeExhausted.

Section mapping.
Context `{BuildProfile} `{Murmur3} {S E : Type}.

Definition id_to_uid (external_id : string) (range_min range_size : Z) : M S E Z :=
  match murmur3_32 external_id 0 with
  | None => panic
  | Some hash =>
      let? r := u32_rem hash range_size in
      u32_add range_min r
  end.

(** The body of [for offset in 0..range_size], from [offset] on, with
    [n] iterations left. *)
Fixpoint probe `{From IdRangeExhausted E} (is_taken : Z → M S E (option bool))
    (base range_min range_size : Z) (n : nat) (offset : Z) : M S E Z :=
  match n with
  | O => throw (from mk_IdRangeExhausted)
  | Datatypes.S n =>
      let? d := u32_sub base range_min in
      let? p := u32_add d offset in
      let? r := u32_rem p range_size in
      let? candidate := u32_add range_min r in
      let? t := is_taken candidate in
      match t with
      | None => ret candidate
      | Some true => ret candidate
      | Some false => probe is_taken base range_min range_size n (offset + 1)
      end
  end.

Definition resolve_id `{From IdRangeExhausted E} (external_id : string)
    (range_min range_size : Z) (is_taken : Z → M S E (option bool)) : M S E Z :=
  let? base := id_to_uid external_id range_min range_size in
  probe is_taken base range_min range_size (Z.to_nat range_size) 0.
End mapping.

(** ** The abstract specification *)

(** A range a deployment can use: it lies within [u32]. *)
Definition valid_range (range_min range_size : Z) : Prop :=
  0 ≤ range_min ∧ 0 < range_size ∧ range_min + range_size ≤ u32_modulus.

(** Probing adds two numbers below the size, so it needs half the width. *)
Definition probe_range (range_min range_size : Z) : Prop :=
  valid_range range_min range_size ∧ 2 * range_size ≤ u32_modulus.

(** The slots of a range in the order an identifier of hash [h] visits them. *)
Definition probe_sequence (h range_min range_size : Z) : list Z :=
  (λ offset, range_min + (h + offset) `mod` range_size) <$> seqZ 0 range_size.

(** Taking the first slot of a list that is not held by somebody else. *)
Fixpoint first_available {S E} `{From IdRangeExhausted E}
    (is_taken : Z → M S E (option bool)) (slots : list Z) : M S E Z :=
  match slots with
  | [] => throw (from mk_IdRangeExhausted)
  | c :: slots =>
      let? t := is_taken c in
      match t with
      | Some false => first_available is_taken slots
      | _ => ret c
      end
  end.

(** ** Lemmas on the arithmetic *)

Lemma valid_range_slot min size k :
  valid_range min size → min ≤ min + k `mod` size < min + size.
Proof. intros (?&?&?). pose proof (Z.mod_pos_bound k size). lia. Qed.

Lemma valid_range_slot_u32 min size k :
  valid_range min size → is_u32 (min + k `mod` size).
Proof.
  intros Hv. pose proof (valid_range_slot min size k Hv).
  destruct Hv as (?&?&?). unfold is_u32. lia.
Qed.

Lemma probe_sequence_elem h min size c :
  valid_range min size → c ∈ probe_sequence h min size ↔ min ≤ c < min + size.
Proof.
  intros Hv. unfold probe_sequence. rewrite list_elem_of_fmap. split.
  - intros (o & -> & _). by apply valid_range_slot.
  - intros Hc. exists ((c - min - h) `mod` size). destruct Hv as (_&?&_). split.
    + rewrite Zplus_mod_idemp_r. replace (h + (c - min - h)) with (c - min) by lia.
      rewrite Z.mod_small; lia.
    + apply elem_of_seqZ. pose proof (Z.mod_pos_bound (c - min - h) size). lia.
Qed.

Lemma probe_sequence_NoDup h min size :
  valid_range min size → NoDup (probe_sequence h min size).
Proof.
  intros (_&Hs&_). apply NoDup_fmap_2_strong; [|apply NoDup_seqZ].
  intros a b Ha Hb Heq. apply elem_of_seqZ in Ha, Hb.
  assert (Hm : (h + a) `mod` size = (h + b) `mod` size) by lia. clear Heq.
  pose proof (Z.div_mod (h + a) size). pose proof (Z.div_mod (h + b) size).
  assert ((h + a) `div` size = (h + b) `div` size); nia.
Qed.

(** The probe order visits every slot of the range exactly once. *)
Lemma probe_sequence_Permutation h min size :
  valid_range min size → probe_sequence h min size ≡ₚ seqZ min size.
Proof.
  intros Hv. apply NoDup_Permutation.
  - by apply probe_sequence_NoDup.
  - apply NoDup_seqZ.
  - intros c. rewrite probe_sequence_elem, elem_of_seqZ by done. lia.
Qed.

Section mapping_facts.
Context `{BuildProfile} `{Murmur3Laws} {S E : Type} `{From IdRangeExhausted E}.
Implicit Types (s : S) (is_taken : Z → M S E (option bool)).

Lemma id_to_uid_eq ext min size h :
  murmur3_32 ext 0 = Some h → valid_range min size →
  id_to_uid (S:=S) (E:=E) ext min size = ret (min + h `mod` size).
Proof.
  intros Hh Hv. unfold id_to_uid. rewrite Hh.
  rewrite u32_rem_exact by (destruct Hv; lia). rewrite bind_ret_l.
  apply u32_add_exact. by apply valid_range_slot_u32.
Qed.

Lemma seqZ_step o n : seqZ o (Z.of_nat (Datatypes.S n)) = o :: seqZ (o + 1) (Z.of_nat n).
Proof. rewrite seqZ_cons by lia. do 2 f_equal; lia. Qed.

(** The loop of [resolve_id], started at an offset, follows the probe order. *)
Lemma probe_eq is_taken h min size n o :
  probe_range min size → 0 ≤ o → o + Z.of_nat n ≤ size →
  probe is_taken (min + h `mod` size) min size n o ≡
  first_available is_taken
    ((λ o, min + (h + o) `mod` size) <$> seqZ o (Z.of_nat n)).
Proof.
  intros [Hv Hw]. pose proof Hv as (?&?&?).
  pose proof (Z.mod_pos_bound h size ltac:(lia)) as Hb. unfold u32_modulus in *.
  revert o. induction n as [|n IH]; intros o Ho Hn; [done|].
  rewrite seqZ_step. simpl.
  rewrite u32_sub_exact by (unfold is_u32, u32_modulus; lia).
  rewrite bind_ret_l.
  rewrite u32_add_exact by (unfold is_u32, u32_modulus; lia).
  rewrite bind_ret_l, u32_rem_exact, bind_ret_l by lia.
  replace (min + h `mod` size - min + o) with (h `mod` size + o) by lia.
  rewrite Zplus_mod_idemp_l, u32_add_exact by (by apply valid_range_slot_u32).
  rewrite bind_ret_l. apply bind_proper; [done|].
  intros [[]|]; [done| |done]. apply IH; lia.
Qed.

Lemma resolve_id_eq is_taken ext min size h :
  murmur3_32 ext 0 = Some h → probe_range min size →
  resolve_id ext min size is_taken ≡ first_available is_taken (probe_sequence h min size).
Proof.
  intros Hh Hp. unfold resolve_id.
  rewrite (id_to_uid_eq _ _ _ h Hh), bind_ret_l by apply Hp.
  pose proof Hp as [(?&?&?) ?]. etrans; [apply probe_eq; [done|lia|lia]|].
  by rewrite Z2Nat.id by lia.
Qed.

(** What a scan of [slots] returns when [is_taken] reports [owner], an
    observation that stays the same while the scan runs ([I] is kept). *)
Definition scan_post (owner : Z → option bool) (I : S → Prop) (fault : E → Prop)
    (slots : list Z) : outcome E Z → S → Prop := λ r s, I s ∧
  match r with
  | Ok c => ∃ before after, slots = before ++ c :: after ∧
      owner c ≠ Some false ∧ Forall (λ c, owner c = Some false) before
  | Err e => fault e ∨
      (e = from mk_IdRangeExhausted ∧ Forall (λ c, owner c = Some false) slots)
  | Panic => False
  end.

Lemma first_available_wp is_taken owner I fault slots s :
  (∀ c s, I s → wp (is_taken c) (λ r s', I s' ∧
      match r with Ok t => t = owner c | Err e => fault e | Panic => False end) s) →
  I s → wp (first_available is_taken slots) (scan_post owner I fault slots) s.
Proof.
  intros Ht. revert s. induction slots as [|c slots IH]; intros s Hs; simpl.
  { split; [done|]. by right. }
  apply wp_bind. eapply wp_mono; [by apply Ht|].
  intros [t|e|] s' [Hs' Hr]; [|split; [done|by left]|done].
  assert (Hstop : owner c ≠ Some false → scan_post owner I fault (c :: slots) (Ok c) s').
  { intros Hc. split; [done|]. by exists [], slots. }
  destruct t as [[]|]; cbn -[wp scan_post]; [apply wp_ret, Hstop; by rewrite <-Hr| |
    apply wp_ret, Hstop; by rewrite <-Hr].
  eapply wp_mono; [by apply IH|]. intros r s'' [Hs'' Hpost]. split; [done|].
  destruct r as [c'|e|]; [|destruct Hpost as [|[-> ?]]; [by left|right; auto]|done].
  destruct Hpost as (before & after & -> & Hc' & Hall).
  exists (c :: before), after. auto.
Qed.
(** When the table does not change under the probe, [resolve_id] returns a
    slot of the range that nobody else holds, every slot before it in probe
    order being held by another identifier; it reports exhaustion only when
    every slot of the range is held by another; it never panics; and any other
    error is one the table lookup raised. *)
Lemma resolve_id_wp (is_taken : Z → M S E (option bool)) owner I fault ext min size s :
  probe_range min size →
  (∀ c s, I s → wp (is_taken c) (λ r s', I s' ∧
      match r with Ok t => t = owner c | Err e => fault e | Panic => False end) s) →
  I s →
  wp (resolve_id ext min size is_taken) (λ r s', I s' ∧
    match r with
    | Ok c => min ≤ c < min + size ∧ owner c ≠ Some false ∧
        ∃ h before after, murmur3_32 ext 0 = Some h ∧
          probe_sequence h min size = before ++ c :: after ∧
          Forall (λ c, owner c = Some false) before
    | Err e => fault e ∨
        (e = from mk_IdRangeExhausted ∧ ∀ c, min ≤ c < min + size → owner c = Some false)
    | Panic => False
    end) s.
Proof.
  intros Hp Ht Hs. destruct (murmur3_total ext 0) as (h & Hh & _).
  unfold wp. rewrite (resolve_id_eq is_taken _ _ _ h Hh Hp s).
  pose proof (first_available_wp is_taken owner I fault (probe_sequence h min size) s Ht Hs)
    as [HI Hr]. split; [done|]. revert Hr.
  destruct (first_available _ _ s).1 as [c|e|]; [| |done].
  - intros (before & after & Heq & Hc & Hall).
    split; [|split; [done|by exists h, before, after]].
    apply (probe_sequence_elem h); [apply Hp|]. rewrite Heq. set_solver.
  - intros [?|[-> Hall]]; [by left|right]. split; [done|].
    intros c Hc. rewrite Forall_forall in Hall. apply Hall.
    by apply probe_sequence_elem; [apply Hp|].
Qed.
End mapping_facts.

(** ** Properties *)

Section mapping_properties.
Context `{BuildProfile} `{Murmur3Laws} {S E : Type} `{From IdRangeExhausted E}.

(** C5: on a usable range, the probing loop with its [u32] arithmetic is the
    scan of the range's slots in probe order, on every state and outcome; and
    that order visits every slot of the range exactly once. *)
Theorem resolve_id_refines_scan (is_taken : Z → M S E (option bool)) ext min size :
  probe_range min size →
  ∃ h, murmur3_32 ext 0 = Some h ∧
    resolve_id ext min size is_taken ≡ first_available is_taken (probe_sequence h min size) ∧
    probe_sequence h min size ≡ₚ seqZ min size.
Proof.
  intros Hp. destruct (murmur3_total ext 0) as (h & Hh & _). exists h.
  split_and!; [done|by apply resolve_id_eq|by apply probe_sequence_Permutation, Hp].
Qed.

(** What [id_to_uid] does for every configured range, valid or not. *)
Theorem id_to_uid_behaviour ext min size (s : S) :
  is_u32 min → is_u32 size →
  ∃ h, murmur3_32 ext 0 = Some h ∧
    id_to_uid (E:=E) ext min size s =
      if bool_decide (size = 0) then (Panic, s)
      else if bool_decide (min + h `mod` size < u32_modulus) then (Ok (min + h `mod` size), s)
      else if overflow_checks then (Panic, s)
      else (Ok (min + h `mod` size - u32_modulus), s).
Proof.
  intros Hmin Hsize. destruct (murmur3_total ext 0) as (h & Hh & Hu). exists h.
  split; [done|]. unfold id_to_uid, u32_rem. rewrite Hh.
  case_bool_decide as Hz; [done|]. rewrite bind_ret_l. unfold u32_add, narrow.
  unfold is_u32, u32_modulus in *. pose proof (Z.mod_pos_bound h size ltac:(lia)).
  case_bool_decide as Hlt; case_bool_decide; try lia; [done|].
  destruct overflow_checks; [done|]. unfold ret. do 2 f_equal.
  symmetry. apply (Z.mod_unique_pos _ _ 1); lia.
Qed.
End mapping_properties.

Section mapping_overflow.
Context `{BuildProfile} `{Murmur3Laws} {S E : Type} `{From IdRangeExhausted E}.

Lemma probe_panics (is_taken : Z → M S E (option bool)) min size d n o s :
  overflow_checks = true → valid_range min size → is_u32 d → 0 ≤ o → d + o ≤ u32_modulus →
  (∀ c, is_taken c s = (Ok (Some false), s)) →
  u32_modulus ≤ d + o + Z.of_nat n - 1 →
  probe is_taken (min + d) min size n o s = (Panic, s).
Proof.
  intros Hchk Hv Hd Ho Hle Hall. revert o Ho Hle. pose proof Hv as (?&?&?).
  induction n as [|n IH]; intros o Ho Hle Hlast; unfold is_u32, u32_modulus in *; [lia|].
  simpl. rewrite u32_sub_exact by (unfold is_u32, u32_modulus; lia). rewrite bind_ret_l.
  replace (min + d - min) with d by lia.
  unfold u32_add at 1, narrow, bind at 1. unfold u32_modulus.
  case_bool_decide; [|by rewrite Hchk]. unfold ret at 1.
  rewrite u32_rem_exact, bind_ret_l, u32_add_exact, bind_ret_l
    by first [lia | by apply valid_range_slot_u32].
  unfold bind. rewrite Hall. apply IH; lia.
Qed.
End mapping_overflow.

Section mapping_config_hazards.
Context `{BuildProfile} `{Murmur3Laws} {S E : Type} `{From IdRangeExhausted E}.

(** C37: nothing validates the configured range. In a build without overflow
    checks, for every identifier whose hash is not a multiple of the size there
    is a [u32] range start for which the identifier gets id 0, root's; with
    overflow checks the same configuration panics. *)
Theorem unchecked_range_maps_to_root ext size h (s : S) :
  murmur3_32 ext 0 = Some h → 0 < size < u32_modulus → 0 < h `mod` size →
  ∃ min, is_u32 min ∧ ¬ valid_range min size ∧
    id_to_uid (E:=E) ext min size s =
      (if overflow_checks then Panic else Ok 0, s).
Proof.
  intros Hh Hsize Hpos. pose proof (Z.mod_pos_bound h size ltac:(lia)).
  exists (u32_modulus - h `mod` size).
  assert (Hu : is_u32 (u32_modulus - h `mod` size)) by (unfold is_u32, u32_modulus in *; lia).
  split_and!; [done|intros (?&?&?); lia|].
  unfold id_to_uid. rewrite Hh, u32_rem_exact, bind_ret_l by lia.
  unfold u32_add, narrow. rewrite bool_decide_eq_false_2 by lia.
  destruct overflow_checks; [done|]. unfold ret.
  replace (u32_modulus - h `mod` size + h `mod` size) with u32_modulus by lia.
  by rewrite Z.mod_same.
Qed.

(** With overflow checks on, a valid range of more than half the [u32]
    width is not reported as exhausted when it is: the addition of the probe
    offset overflows, and the lookup panics. *)
Lemma wide_range_exhaustion_panics (is_taken : Z → M S E (option bool)) ext min size h (s : S) :
  overflow_checks = true → murmur3_32 ext 0 = Some h → valid_range min size →
  u32_modulus ≤ h `mod` size + size - 1 →
  (∀ c, is_taken c s = (Ok (Some false), s)) →
  resolve_id ext min size is_taken s = (Panic, s).
Proof.
  intros Hchk Hh Hv Hwide Hall. unfold resolve_id.
  rewrite (id_to_uid_eq _ _ _ h Hh Hv), bind_ret_l. destruct Hv as (?&?&?).
  pose proof (Z.mod_pos_bound h size ltac:(lia)).
  apply probe_panics; try done; unfold is_u32; lia.
Qed.
End mapping_config_hazards.

(** ** Witnesses

    A concrete hash with collisions: the sum of the bytes. *)
Definition byte_sum (bytes : string) : Z :=
  foldr (λ b acc, Z.of_N (Ascii.N_of_ascii b) + acc) 0 (String.list_ascii_of_string bytes).
Definition byte_sum_hash : Murmur3 := λ bytes seed, Some ((byte_sum bytes + seed) `mod` u32_modulus).
Lemma byte_sum_hash_laws : @Murmur3Laws byte_sum_hash.
Proof.
  intros bytes seed. eexists. split; [reflexivity|]. apply Z.mod_pos_bound. reflexivity.
Qed.

Definition release_build : BuildProfile := {| overflow_checks := false |}.
Definition debug_build : BuildProfile := {| overflow_checks := true |}.
#[local] Instance range_error_id : From IdRangeExhausted IdRangeExhausted := id.

(** A table that never changes: slots 100 and 101 belong to others. *)
Definition two_taken (c : Z) : option bool := if bool_decide (c < 102) then Some false else None.
Definition two_taken_lookup (c : Z) : M () IdRangeExhausted (option bool) := ret (two_taken c).

Example resolve_probes_to_102 :
  @resolve_id release_build byte_sum_hash () _ _ "d" 100 10 two_taken_lookup tt = (Ok 102, tt).
Proof. vm_compute. reflexivity. Qed.

Lemma resolve_id_refines_scan_witness :
  probe_range 100 10 ∧ ∃ h, @murmur3_32 byte_sum_hash "d" 0 = Some h ∧
    @resolve_id release_build byte_sum_hash () _ _ "d" 100 10 two_taken_lookup
      ≡ first_available two_taken_lookup (probe_sequence h 100 10) ∧
    probe_sequence h 100 10 ≡ₚ seqZ 100 10.
Proof.
  assert (probe_range 100 10) as Hp by (vm_compute; split_and!; congruence).
  split; [exact Hp|].
  exact (@resolve_id_refines_scan release_build byte_sum_hash byte_sum_hash_laws () _ _
    two_taken_lookup "d" 100 10 Hp).
Defined.

Lemma id_to_uid_behaviour_witness :
  ∃ h, @murmur3_32 byte_sum_hash "d" 0 = Some h ∧
    @id_to_uid release_build byte_sum_hash () IdRangeExhausted "d" 4294967290 10 tt =
      (Ok (4294967290 + h `mod` 10), tt).
Proof.
  destruct (@id_to_uid_behaviour release_build byte_sum_hash byte_sum_hash_laws ()
    IdRangeExhausted "d" 4294967290 10 tt) as (h & Hh & Heq).
  - vm_compute. split; congruence.
  - vm_compute. split; congruence.
  - exists h. split; [exact Hh|]. rewrite Heq. injection Hh as <-. reflexivity.
Defined.

Lemma unchecked_range_maps_to_root_witness :
  ∃ min, is_u32 min ∧ ¬ valid_range min 200000 ∧
    @id_to_uid release_build byte_sum_hash () IdRangeExhausted "user-1" min 200000 tt
      = (Ok 0, tt).
Proof.
  apply (@unchecked_range_maps_to_root release_build byte_sum_hash ()
    IdRangeExhausted "user-1" 200000 541 tt); vm_compute; try split; reflexivity.
Defined.

Lemma wide_range_exhaustion_panics_witness :
  @resolve_id debug_build (λ _ _, Some 3000000000) () _ _ "d" 0 4000000000
    (λ _, ret (Some false)) tt = (Panic, tt).
Proof.
  apply (@wide_range_exhaustion_panics debug_build (λ _ _, Some 3000000000) () _ _
    (λ _, ret (Some false)) "d" 0 4000000000 3000000000 tt);
    try reflexivity; vm_compute; repeat split; congruence.
Defined.
