(* ===== verification/Fs.v ===== *)
(** * Fs: the file system operations the program calls ([std::fs])

    A path names an inode or nothing. The operating system may also refuse an
    operation for reasons of its own ([os_fault]). *)

From S2P Require Import Prelude.
From stdpp Require Import prelude strings gmap.

(** An [io::Error], identified by the text it displays. *)
Record io_error := mk_io_error { io_message : string }.

(** [lstat(2)]: what the path itself is, without following a symbolic link. *)
Record file_meta := mk_file_meta {
  meta_is_file : bool;
  meta_mode : Z;
  meta_uid : Z;
}.

Record inode := mk_inode {
  inode_meta : file_meta;
  inode_text : option string;
}.

Abbreviation filesystem := (gmap string inode).

Inductive fs_op := OpStat | OpChmod | OpRead.

Class Os := {
  os_fault : fs_op → string → option io_error;
  geteuid : Z;
}.

Definition not_found : io_error := mk_io_error "No such file or directory (os error 2)".
Definition invalid_utf8 : io_error := mk_io_error "stream did not contain valid UTF-8".

Section fs.
Context `{Os}.

Definition with_inode {A} (op : fs_op) (path : string)
    (k : inode → M filesystem io_error A) : M filesystem io_error A := λ fs,
  match os_fault op path with
  | Some e => (Err e, fs)
  | None => match fs !! path with None => (Err not_found, fs) | Some i => k i fs end
  end.

Definition symlink_metadata (path : string) : M filesystem io_error file_meta :=
  with_inode OpStat path (λ i, ret (inode_meta i)).

(** [chmod(2)] replaces the permission bits and keeps the file type bits. *)
Definition set_permissions (path : string) (mode : Z) : M filesystem io_error () :=
  with_inode OpChmod path (λ i fs,
    let m := inode_meta i in
    let m' := mk_file_meta (meta_is_file m)
      (Z.lor (Z.ldiff (meta_mode m) 4095) mode) (meta_uid m) in
    (Ok tt, <[path := mk_inode m' (inode_text i)]> fs)).

Definition read_to_string (path : string) : M filesystem io_error string :=
  with_inode OpRead path (λ i,
    match inode_text i with
    | Some text => ret text
    | None => throw invalid_utf8
    end).
End fs.
