(* ===== verification/Config.v ===== *)
(** * Config: the configuration and its secret file ([src/config.rs]) *)

From S2P Require Import Prelude Text Value Mapping Fs.
From stdpp Require Import prelude strings list gmap.

Definition DEFAULT_CONFIG_PATH : string := "/etc/sssd-oidc/config.toml".
Definition DEFAULT_BEARER_TOKEN_PATH : string := "/etc/sssd-oidc/scim-token".
Definition CONFIG_ENV_VAR : string := "SSSD_OIDC_CONFIG".

(** [std::env::var]: a variable that is set, to valid Unicode. *)
Class Env := env_var : string → option string.

Inductive ConfigError :=
  | ReadError (path : string) (source : io_error)
  | ParseError
  | ConfigInsecurePermissions (path detail : string).

(** Policy for account-activity checks when SCIM is unreachable. *)
Inductive OfflineAuthPolicy := CachedStatus | Deny.

Record SecurityConfig := mk_security_config { offline_auth_policy : OfflineAuthPolicy }.

Record ScimConfig := mk_scim_config {
  cfg_base_url : string;
  cfg_bearer_token_file : string;
  cfg_bearer_token : string;
}.

Record OidcConfig := mk_oidc_config {
  cfg_issuer_url : string;
  cfg_client_id : string;
  cfg_client_secret : option string;
  cfg_allow_insecure : bool;
}.

Record MappingConfig := mk_mapping_config {
  uid_range_min : Z;
  uid_range_size : Z;
  gid_range_min : Z;
  gid_range_size : Z;
}.

Record UserDefaultsConfig := mk_user_defaults {
  default_user_shell : string;
  home_template : string;
}.

Record CacheConfig := mk_cache_config {
  cfg_db_path : string;
  cfg_ttl_seconds : Z;
}.

Record Config := mk_config {
  cfg_scim : ScimConfig;
  cfg_oidc : OidcConfig;
  cfg_mapping : MappingConfig;
  cfg_user_defaults : UserDefaultsConfig;
  cfg_cache : CacheConfig;
  cfg_security : SecurityConfig;
}.

Definition default_bearer_token_file : string := DEFAULT_BEARER_TOKEN_PATH.
Definition default_range_min : Z := 200000.
Definition default_range_size : Z := 200000.
Definition default_shell : string := "/bin/bash".
Definition default_home_template : string := "/home/{user}".
Definition default_cache_ttl : Z := 3600.
Definition default_cache_path : string := "/var/lib/sssd-oidc/cache.db".
Definition default_policy : OfflineAuthPolicy := CachedStatus.

Definition default_mapping : MappingConfig :=
  mk_mapping_config default_range_min default_range_size default_range_min default_range_size.
Definition default_user_defaults : UserDefaultsConfig :=
  mk_user_defaults default_shell default_home_template.
Definition default_cache_config : CacheConfig := mk_cache_config default_cache_path default_cache_ttl.
Definition default_security : SecurityConfig := mk_security_config default_policy.

(** [rename_all = "snake_case"] on an enum of unit variants. *)
Definition decode_policy : decoder OfflineAuthPolicy := λ v,
  match v with
  | VString "cached_status" => Some CachedStatus
  | VString "deny" => Some Deny
  | _ => None
  end.

Definition decode_SecurityConfig : decoder SecurityConfig := λ v,
  v ← as_struct 1 v;
  policy ← defaulted v 0 "offline_auth_policy" default_policy decode_policy;
  Some (mk_security_config policy).

(** [bearer_token] is skipped: it starts empty and has no position. *)
Definition decode_ScimConfig : decoder ScimConfig := λ v,
  v ← as_struct 2 v;
  base_url ← required v 0 "base_url" decode_string;
  file ← defaulted v 1 "bearer_token_file" default_bearer_token_file decode_string;
  Some (mk_scim_config base_url file "").

Definition decode_OidcConfig : decoder OidcConfig := λ v,
  v ← as_struct 4 v;
  issuer_url ← required v 0 "issuer_url" decode_string;
  client_id ← required v 1 "client_id" decode_string;
  client_secret ← defaulted v 2 "client_secret" None (decode_option decode_string);
  allow_insecure ← defaulted v 3 "allow_insecure" false decode_bool;
  Some (mk_oidc_config issuer_url client_id client_secret allow_insecure).

Definition decode_MappingConfig : decoder MappingConfig := λ v,
  v ← as_struct 4 v;
  uid_min ← defaulted v 0 "uid_range_min" default_range_min decode_u32;
  uid_size ← defaulted v 1 "uid_range_size" default_range_size decode_u32;
  gid_min ← defaulted v 2 "gid_range_min" default_range_min decode_u32;
  gid_size ← defaulted v 3 "gid_range_size" default_range_size decode_u32;
  Some (mk_mapping_config uid_min uid_size gid_min gid_size).

Definition decode_UserDefaultsConfig : decoder UserDefaultsConfig := λ v,
  v ← as_struct 2 v;
  shell ← defaulted v 0 "shell" default_shell decode_string;
  home ← defaulted v 1 "home_template" default_home_template decode_string;
  Some (mk_user_defaults shell home).

Definition decode_CacheConfig : decoder CacheConfig := λ v,
  v ← as_struct 2 v;
  db_path ← defaulted v 0 "db_path" default_cache_path decode_string;
  ttl ← defaulted v 1 "ttl_seconds" default_cache_ttl decode_u64;
  Some (mk_cache_config db_path ttl).

Definition decode_Config : decoder Config := λ v,
  v ← as_struct 6 v;
  scim ← required v 0 "scim" decode_ScimConfig;
  oidc ← required v 1 "oidc" decode_OidcConfig;
  mapping ← defaulted v 2 "mapping" default_mapping decode_MappingConfig;
  user_defaults ← defaulted v 3 "user_defaults" default_user_defaults decode_UserDefaultsConfig;
  cache ← defaulted v 4 "cache" default_cache_config decode_CacheConfig;
  security ← defaulted v 5 "security" default_security decode_SecurityConfig;
  Some (mk_config scim oidc mapping user_defaults cache security).

(** [config.scim.bearer_token = token] *)
Definition with_bearer_token (config : Config) (token : string) : Config :=
  mk_config
    (mk_scim_config (cfg_base_url (cfg_scim config)) (cfg_bearer_token_file (cfg_scim config)) token)
    (cfg_oidc config) (cfg_mapping config) (cfg_user_defaults config) (cfg_cache config)
    (cfg_security config).

Section load.
Context `{Os}.

(** On Linux. *)
Definition check_secret_file_permissions (path : string) : M filesystem ConfigError () :=
  let? meta := map_err (ReadError path) (symlink_metadata path) in
  if negb (meta_is_file meta)
  then throw (ConfigInsecurePermissions path "not a regular file")
  else
    let mode := meta_mode meta in
    if bool_decide (Z.land mode 63 ≠ 0)%Z
    then throw (ConfigInsecurePermissions path
      ("permissions " +:+ fmt_octal4 (Z.land mode 511) +:+
       " are too open; must not be accessible by group or others. Run: chmod 600 " +:+ path))
    else
      let running_as_root := bool_decide (geteuid = 0)%Z in
      if running_as_root && bool_decide (meta_uid meta ≠ 0)%Z
      then throw (ConfigInsecurePermissions path
        ("owned by uid " +:+ fmt_dec (meta_uid meta) +:+ " but must be owned by root (uid 0)"))
      else ret tt.

Definition load_from `{TomlParser} (path : string) : M filesystem ConfigError Config :=
  let? contents := map_err (ReadError path) (read_to_string path) in
  match toml_parse contents ≫= decode_Config with
  | None => throw ParseError
  | Some config =>
      let token_path := cfg_bearer_token_file (cfg_scim config) in
      check_secret_file_permissions token_path ;;?
      let? token := map_err (ReadError token_path) (read_to_string token_path) in
      ret (with_bearer_token config (trim token))
  end.

Definition load `{TomlParser} `{Env} : M filesystem ConfigError Config :=
  let path := default DEFAULT_CONFIG_PATH (env_var CONFIG_ENV_VAR) in
  load_from path.
End load.

(** ** What loading guarantees *)

(** The files the check lets through. *)
Definition accepted_secret `{Os} (i : inode) : Prop :=
  meta_is_file (inode_meta i) = true ∧ Z.land (meta_mode (inode_meta i)) 63 = 0%Z ∧
  (geteuid = 0%Z → meta_uid (inode_meta i) = 0%Z).

Section load_facts.
Context `{Os}.

Lemma with_inode_cases {A} op path (k : inode → M filesystem io_error A) fs :
  (∃ e, with_inode op path k fs = (Err e, fs)) ∨
  (∃ i, os_fault op path = None ∧ fs !! path = Some i ∧ with_inode op path k fs = k i fs).
Proof. unfold with_inode. destruct (os_fault op path), (fs !! path); eauto. Qed.

(** The check reads the file's metadata once and changes nothing. *)
Lemma check_secret_wp path fs :
  wp (check_secret_file_permissions path) (λ r fs', fs' = fs ∧
    match r with
    | Ok _ => ∃ i, fs !! path = Some i ∧ accepted_secret i
    | Err e => (∃ s, e = ReadError path s) ∨ (∃ i d, fs !! path = Some i ∧
        ¬ accepted_secret i ∧ e = ConfigInsecurePermissions path d)
    | Panic => False
    end) fs.
Proof.
  unfold check_secret_file_permissions, symlink_metadata. apply wp_bind, wp_map_err. unfold wp.
  destruct (with_inode_cases OpStat path (λ i, ret (inode_meta i)) fs)
    as [[e ->]|(i & _ & Hi & ->)]; [by split; [|left; eexists]|].
  cbn [fst snd ret and_then]. unfold wp, accepted_secret.
  destruct (meta_is_file (inode_meta i)) eqn:Hfile; cbn [negb].
  2: { split; [done|]. right. exists i. eexists. split_and!; [done| |done].
       intros (Hf & _). congruence. }
  case_bool_decide as Hmode; cbn [fst snd throw].
  { split; [done|]. right. exists i. eexists. split_and!; [done| |done]. by intros (_ & Hm & _). }
  case_bool_decide as Heuid; case_bool_decide as Huid; cbn [andb fst snd throw ret].
  { split; [done|]. right. exists i. eexists. split_and!; [done| |done].
    intros (_ & _ & Hu). by apply Huid, Hu. }
  all: split; [done|]; exists i; split_and!; try done.
Qed.

Lemma read_to_string_wp path fs :
  wp (read_to_string path) (λ r fs', fs' = fs ∧
    match r with
    | Ok text => ∃ i, fs !! path = Some i ∧ inode_text i = Some text
    | Err _ => True
    | Panic => False
    end) fs.
Proof.
  unfold wp, read_to_string.
  destruct (with_inode_cases OpRead path (λ i, match inode_text i with
    | Some text => ret text | None => throw invalid_utf8 end) fs)
    as [[e ->]|(i & _ & Hi & ->)]; [done|].
  destruct (inode_text i) eqn:Ht; simpl; eauto.
Qed.

Lemma load_from_wp `{TomlParser} path fs :
  wp (load_from path) (λ r fs', fs' = fs ∧
    match r with
    | Ok config => ∃ i contents parsed token_file token,
        fs !! path = Some i ∧ inode_text i = Some contents ∧
        toml_parse contents ≫= decode_Config = Some parsed ∧
        fs !! cfg_bearer_token_file (cfg_scim parsed) = Some token_file ∧
        accepted_secret token_file ∧ inode_text token_file = Some token ∧
        config = with_bearer_token parsed (trim token)
    | Err _ => True
    | Panic => False
    end) fs.
Proof.
  apply wp_bind, wp_map_err. eapply wp_mono; [apply read_to_string_wp|].
  intros [contents|e|] fs' [-> Hr]; [|done|done]. destruct Hr as (i & Hi & Hc).
  cbn [and_then]. destruct (toml_parse contents ≫= decode_Config) as [parsed|] eqn:Hp; [|done].
  apply wp_bind. eapply wp_mono; [apply check_secret_wp|].
  intros [[]|e|] fs' [-> Hr]; [|done|done]. destruct Hr as (t & Ht & Hacc). cbn [and_then].
  apply wp_bind, wp_map_err. eapply wp_mono; [apply read_to_string_wp|].
  intros [token|e|] fs' [-> Hr]; [|done|done]. destruct Hr as (t' & Ht' & Htok).
  apply wp_ret. split; [done|]. assert (t' = t) as -> by congruence.
  by exists i, contents, parsed, t, token.
Qed.

(** Loading changes no file and does not panic. *)
Lemma load_cases `{TomlParser} `{Env} fs :
  (∃ config, load fs = (Ok config, fs)) ∨ (∃ e, load fs = (Err e, fs)).
Proof.
  pose proof (load_from_wp (default DEFAULT_CONFIG_PATH (env_var CONFIG_ENV_VAR)) fs) as Hl.
  unfold wp in Hl. unfold load. destruct (load_from _ fs) as [[config|e|] fs'];
    destruct Hl as [Hfs Hl]; cbn in Hfs; subst; [by left; eexists|by right; eexists|done].
Qed.
End load_facts.

(** ** The configuration a file system holds *)

Section configured.
Context `{TomlParser} `{Env}.

(** Where [load] reads, and the text it finds there. *)
Definition config_path : string := default DEFAULT_CONFIG_PATH (env_var CONFIG_ENV_VAR).
Definition config_text (fs : filesystem) : option string := fs !! config_path ≫= inode_text.

(** The configuration in that file, if it is one, satisfies [P]. *)
Definition configured (P : Config → Prop) (fs : filesystem) : Prop := ∀ text config,
  config_text fs = Some text → toml_parse text ≫= decode_Config = Some config → P config.

(** What holds of it and does not depend on the token holds of what is loaded. *)
Lemma load_configured `{Os} (P : Config → Prop) fs config :
  (∀ c token, P c → P (with_bearer_token c token)) → configured P fs →
  (load fs).1 = Ok config → P config.
Proof.
  intros Htoken Hfs Hl. pose proof (load_from_wp config_path fs) as Hw. unfold wp in Hw.
  change (load_from config_path) with load in Hw. rewrite Hl in Hw.
  destruct Hw as (_ & i & text & parsed & t & token & Hi & Ht & Hp & _ & _ & _ & ->).
  apply Htoken, (Hfs text); [|done]. unfold config_text. by rewrite Hi.
Qed.

Lemma load_reads `{Os} fs config : (load fs).1 = Ok config → is_Some (config_text fs).
Proof.
  intros Hl. pose proof (load_from_wp config_path fs) as Hw. unfold wp in Hw.
  change (load_from config_path) with load in Hw. rewrite Hl in Hw.
  destruct Hw as (_ & i & text & parsed & t & token & Hi & Ht & _).
  exists text. unfold config_text. by rewrite Hi.
Qed.
End configured.

Section config_properties.
Context `{Os}.

(** Which secret files are accepted, where the system lets them be
    examined: exactly the regular files closed to group and others, and the
    owner is looked at only when the process is root. A file of mode 0700 is
    accepted, and so is a foreign one by a process that is not root. *)
Lemma secret_check_exact path fs i :
  os_fault OpStat path = None → fs !! path = Some i →
  (check_secret_file_permissions path fs).1 = Ok tt ↔ accepted_secret i.
Proof.
  intros Hos Hi. pose proof (check_secret_wp path fs) as [_ Hr].
  destruct (check_secret_file_permissions path fs).1 as [[]|e|] eqn:Hc; [| |done].
  - destruct Hr as (i' & Hi' & Ha). assert (i' = i) as -> by congruence. done.
  - split; [done|]. intros Ha. destruct Hr as [[s ->]|(i' & d & Hi' & Hna & _)].
    + revert Hc. unfold check_secret_file_permissions, bind, map_err, symlink_metadata, with_inode.
      rewrite Hos, Hi. cbn -[Z.land]. destruct Ha as (-> & -> & _). cbn. by destruct (_ && _).
    + assert (i' = i) as -> by congruence. done.
Qed.

(** C34: loading changes no file and never panics. When it succeeds the
    configuration is the parsed one with the token filled in; the token file is
    a regular file without any permission for group or others, root's when the
    process is root, and the token is its text without the white space around
    it. No file of that kind is refused, where the system lets it be examined:
    mode 0700 is accepted, and a foreign file by a process that is not root. *)
Theorem loaded_secret_is_private `{TomlParser} path fs :
  (∀ file i, os_fault OpStat file = None → fs !! file = Some i →
    (check_secret_file_permissions file fs).1 = Ok tt ↔ accepted_secret i) ∧
  wp (load_from path) (λ r fs', fs' = fs ∧
    match r with
    | Ok config => ∃ contents parsed token_file text pre post,
        inode_text <$> fs !! path = Some (Some contents) ∧
        toml_parse contents ≫= decode_Config = Some parsed ∧
        fs !! cfg_bearer_token_file (cfg_scim parsed) = Some token_file ∧
        accepted_secret token_file ∧ inode_text token_file = Some text ∧
        config = with_bearer_token parsed (cfg_bearer_token (cfg_scim config)) ∧
        text = pre +:+ cfg_bearer_token (cfg_scim config) +:+ post ∧
        made_of white_space pre ∧ made_of white_space post ∧
        strip_any white_space (cfg_bearer_token (cfg_scim config)) = None
    | Err _ => True
    | Panic => False
    end) fs.
Proof.
  split; [by intros; apply secret_check_exact|].
  eapply wp_mono; [apply load_from_wp|]. intros [config|e|] fs' [-> Hr]; [|done|done].
  split; [done|]. destruct Hr as (i & contents & parsed & t & text & Hi & Hc & Hp & Ht & Ha & Htext & ->).
  destruct (trim_spec text) as (pre & post & Hpre & Hpost & Heq & Hno & _).
  exists contents, parsed, t, text, pre, post. rewrite Hi. simpl. rewrite Hc. by split_and!.
Qed.

(** A configuration file that gives only the three required values loads
    with defaults a deployment can use: both id ranges lie within [u32] and can
    be probed to their end, HTTPS is required, and entries live an hour. *)
Theorem minimal_config_is_usable base_url issuer_url client_id :
  ∃ config, decode_Config (VObject
      [("scim", VObject [("base_url", VString base_url)]);
       ("oidc", VObject [("issuer_url", VString issuer_url); ("client_id", VString client_id)])])
    = Some config ∧
    cfg_base_url (cfg_scim config) = base_url ∧ cfg_issuer_url (cfg_oidc config) = issuer_url ∧
    cfg_client_id (cfg_oidc config) = client_id ∧ cfg_allow_insecure (cfg_oidc config) = false ∧
    probe_range (uid_range_min (cfg_mapping config)) (uid_range_size (cfg_mapping config)) ∧
    probe_range (gid_range_min (cfg_mapping config)) (gid_range_size (cfg_mapping config)) ∧
    cfg_ttl_seconds (cfg_cache config) = 3600%Z ∧
    offline_auth_policy (cfg_security config) = CachedStatus.
Proof.
  eexists. split; [reflexivity|]. split_and!; try done; vm_compute; split_and!; congruence.
Qed.
End config_properties.

(** ** Witnesses *)

Definition secret_file (mode uid : Z) : inode :=
  mk_inode (mk_file_meta true mode uid) (Some ("token" +:+ byte_string [10]%Z)).
Definition os_as (euid : Z) : Os := {| os_fault := λ _ _, None; geteuid := euid |}.

Definition no_toml : TomlParser := λ _, None.

(** The foreign file of a process that is not root. *)
Lemma loaded_secret_is_private_witness :
  (@check_secret_file_permissions (os_as 1000) "scim-token"
    {["scim-token" := secret_file 33216 1001]}).1 = Ok tt.
Proof.
  apply (proj1 (@loaded_secret_is_private (os_as 1000) no_toml "config.toml" _)
    "scim-token" (secret_file 33216 1001)); [reflexivity|reflexivity|].
  vm_compute. repeat split. discriminate.
Defined.

Example config_sample_run :
  let toml : TomlParser := λ _, Some (VObject
    [("scim", VObject [("base_url", VString "https://example.okta.com/scim/v2")]);
     ("oidc", VObject [("issuer_url", VString "https://example.okta.com");
                       ("client_id", VString "my-client")])]) in
  let fs : filesystem := {["/etc/sssd-oidc/config.toml" := secret_file 33188 0;
                           "/etc/sssd-oidc/scim-token" := secret_file 33152 0]} in
  let env : Env := λ _, None in
  match (@load (os_as 0) toml env fs).1 with
  | Ok config => cfg_bearer_token (cfg_scim config)
  | _ => ""
  end = "token".
Proof. vm_compute. reflexivity. Qed.
