(* ===== verification/Http.v ===== *)
(** * Http: requests, the network and the clock

    The [ureq] agent and the machines it talks to are outside the repository:
    [World] chooses what a request meets, and what the monotonic clock reads,
    from everything the program did before. *)

From S2P Require Import Prelude Value.
From stdpp Require Import prelude strings list.

Inductive http_method := GET | POST.

Record Request := mk_request {
  req_method : http_method;
  req_url : string;
  req_query : list (string * string);
  req_headers : list (string * string);
  req_form : list (string * string);
}.

(** A response; its body is [None] when it cannot be read to its end as text. *)
Record Response := mk_response {
  resp_status : Z;
  resp_body : option string;
}.

(** [ureq::Error], as far as the program tells its cases apart. *)
Inductive ureq_error :=
  | StatusCode (code : Z)
  | Transport (text : string)
  | BodyError.

(** What the program does to the outside world, in order: requests, pauses (since
    which instant, and how many seconds were asked for), and messages shown to
    the user who logs in. *)
Inductive event :=
  | Sent (r : Request)
  | Slept (since secs : Z)
  | Told (msg : string).

Abbreviation net := (list event).

Class World := {
  transport : net → Request → ureq_error + Response;
  instant_now : net → Z;
}.

Definition nanos_per_sec : Z := 1000000000.

(** [std::time::Instant] is monotonic, and [thread::sleep] sleeps at least the
    time it is given; on Linux the clock starts at boot. *)
Class WorldLaws `{World} : Prop := {
  instant_nonneg : ∀ h, (0 ≤ instant_now h)%Z;
  instant_monotone : ∀ h e, (instant_now h ≤ instant_now (h ++ [e]))%Z;
  sleep_at_least : ∀ h t n, (t ≤ instant_now h)%Z →
    (t + n * nanos_per_sec ≤ instant_now (h ++ [Slept t n]))%Z;
}.

Section http.
Context `{World}.

(** [.call()] and [.send_form(..)]: [http_status_as_error], on by default, turns
    the 4xx and 5xx responses into errors. *)
Definition ureq_send (http_status_as_error : bool) (r : Request)
    : M net ureq_error Response := λ log,
  let log' := log ++ [Sent r] in
  match transport log r with
  | inl e => (Err e, log')
  | inr resp =>
      if http_status_as_error && bool_decide (400 ≤ resp_status resp < 600)%Z
      then (Err (StatusCode (resp_status resp)), log')
      else (Ok resp, log')
  end.

Definition read_json `{JsonParser} {S A} (dec : decoder A) (resp : Response)
    : M S ureq_error A :=
  match resp_body resp with
  | None => throw BodyError
  | Some text =>
      match json_parse text ≫= dec with
      | Some a => ret a
      | None => throw BodyError
      end
  end.

Definition read_body {S} (resp : Response) : M S ureq_error string :=
  match resp_body resp with Some text => ret text | None => throw BodyError end.

(** [sleep] notes the instant, and wakes up later. *)
Definition wake {E} (since secs : Z) : M net E () := λ log, (Ok tt, log ++ [Slept since secs]).
Definition sleep {E} (secs : Z) : M net E () := λ log, wake (instant_now log) secs log.
Definition now {E} : M net E Z := λ log, (Ok (instant_now log), log).

(** [Instant + Duration::from_secs(secs)]: the seconds of a Linux [Instant] are
    an [i64], and the addition panics where they overflow. *)
Definition instant_add_secs {S E} (t secs : Z) : M S E Z :=
  if bool_decide (t `div` nanos_per_sec + secs < 2 ^ 63)%Z
  then ret (t + secs * nanos_per_sec)%Z else panic.
End http.

(** ** Lemmas *)

(** A computation only appends to the log, and each event it adds satisfies [P]. *)
Definition emits {E A} (P : event → Prop) (m : M net E A) : Prop :=
  ∀ log, ∃ new, (m log).2 = log ++ new ∧ Forall P new.

Section emits_facts.
Context (P : event → Prop).

Lemma emits_ret {E A} (a : A) : emits P (ret (E:=E) a).
Proof. intros log. exists []. by rewrite app_nil_r. Qed.
Lemma emits_throw {E A} (e : E) : emits P (throw (A:=A) e).
Proof. intros log. exists []. by rewrite app_nil_r. Qed.
Lemma emits_panic {E A} : emits P (panic (E:=E) (A:=A)).
Proof. intros log. exists []. by rewrite app_nil_r. Qed.

Lemma emits_bind {E A B} (m : M net E A) (k : A → M net E B) :
  emits P m → (∀ a, emits P (k a)) → emits P (bind m k).
Proof.
  intros Hm Hk log. unfold bind. destruct (Hm log) as (new & Heq & Hnew).
  destruct (m log) as [[a|e|] log']; simpl in *; subst; [|by exists new..].
  destruct (Hk a (log ++ new)) as (new' & -> & Hnew'). exists (new ++ new').
  rewrite app_assoc. split; [done|by apply Forall_app].
Qed.

Lemma emits_map_err {E E' A} (f : E → E') (m : M net E A) : emits P m → emits P (map_err f m).
Proof.
  intros Hm log. unfold map_err. destruct (Hm log) as (new & Heq & Hnew). exists new.
  by destruct (m log) as [[a|e|] log'].
Qed.

Lemma emits_try_with {E E' A B} (m : M net E A) (ok : A → M net E' B) (err : E → M net E' B) :
  emits P m → (∀ a, emits P (ok a)) → (∀ e, emits P (err e)) → emits P (try_with m ok err).
Proof.
  intros Hm Hok Herr log. unfold try_with. destruct (Hm log) as (new & Heq & Hnew).
  destruct (m log) as [[a|e|] log']; simpl in *; subst; [| |by exists new].
  - destruct (Hok a (log ++ new)) as (new' & -> & Hnew'). exists (new ++ new').
    rewrite app_assoc. split; [done|by apply Forall_app].
  - destruct (Herr e (log ++ new)) as (new' & -> & Hnew'). exists (new ++ new').
    rewrite app_assoc. split; [done|by apply Forall_app].
Qed.

Lemma emits_narrow `{BuildProfile} {E} w z : emits P (narrow (S:=net) (E:=E) w z).
Proof.
  unfold narrow. destruct (bool_decide _); [apply emits_ret|].
  destruct overflow_checks; [apply emits_panic|apply emits_ret].
Qed.
End emits_facts.

Lemma emits_ureq_send `{World} (P : event → Prop) b r : P (Sent r) → emits P (ureq_send b r).
Proof.
  intros Hr log. exists [Sent r]. split; [|by constructor].
  unfold ureq_send. by destruct (transport log r); [|destruct (_ && _)].
Qed.

Lemma emits_read_json `{JsonParser} {A} (P : event → Prop) (dec : decoder A) resp :
  emits P (read_json dec resp).
Proof.
  unfold read_json. destruct (resp_body resp) as [t|]; [|apply emits_throw].
  destruct (json_parse t ≫= dec); [apply emits_ret|apply emits_throw].
Qed.

Lemma emits_read_body (P : event → Prop) resp : emits P (read_body resp).
Proof. unfold read_body. destruct (resp_body resp); [apply emits_ret|apply emits_throw]. Qed.

Lemma emits_sleep `{World} {E} (P : event → Prop) n :
  (∀ t, P (Slept t n)) → emits P (sleep (E:=E) n).
Proof. intros Hn log. exists [Slept (instant_now log) n]. split; [done|by constructor]. Qed.

Lemma emits_mono {E A} (P Q : event → Prop) (m : M net E A) :
  (∀ e, P e → Q e) → emits P m → emits Q m.
Proof. intros HPQ Hm log. destruct (Hm log) as (new & ? & ?). exists new. eauto using Forall_impl. Qed.

Create HintDb net_emits discriminated.
#[export] Hint Resolve emits_ret emits_throw emits_panic emits_bind emits_map_err emits_try_with
  emits_narrow emits_ureq_send emits_read_json emits_read_body emits_sleep : net_emits.
#[export] Hint Constants Opaque : net_emits.
#[export] Hint Extern 3 (emits _ (match ?x with _ => _ end)) => destruct x : net_emits.
#[export] Hint Extern 2 (∀ _, emits _ _) => intros ? : net_emits.

(** The requests a log records. *)
Definition requests (log : net) : list Request :=
  omap (λ e, match e with Sent r => Some r | _ => None end) log.

Lemma requests_app l1 l2 : requests (l1 ++ l2) = requests l1 ++ requests l2.
Proof. apply omap_app. Qed.

Lemma instant_monotone_app `{WorldLaws} h new : (instant_now h ≤ instant_now (h ++ new))%Z.
Proof.
  revert h. induction new as [|e new IH]; intros h; [by rewrite app_nil_r|].
  etrans; [apply (instant_monotone h e)|]. replace (h ++ e :: new) with ((h ++ [e]) ++ new)
    by by rewrite <-app_assoc. apply IH.
Qed.
