(* ===== verification/Sql.v ===== *)
(** * Sql: the SQLite engine, as the statements of the cache use it

    SQLite is not part of the repository. Its documented behaviour enters as the
    class [Sqlite], whose instances choose everything the SQL text leaves open:
    whether foreign keys are enforced (the program never sets the pragma), which
    statements fail, the clock each statement reads, the order of the rows of a
    query without [ORDER BY], and which [u64] values fit a parameter. *)

From S2P Require Import Prelude.
From stdpp Require Import prelude strings list.

Inductive sqlite_error :=
  | SqliteFailure (code : Z)
  | ConstraintViolation
  | ToSqlConversionFailure.

Class Sqlite := {
  foreign_keys : bool;
  sql_fault : nat → option sqlite_error;
  sql_now : nat → Z;
  scan_order : ∀ A, nat → list A → list A;
  u64_to_sql : Z → option Z;
}.
Arguments scan_order {_ A} _ _.

(** Documented: a query returns each of its rows once, in an unspecified order;
    an unsigned parameter binds when it fits SQLite's signed 64-bit integer. *)
Class SqliteLaws `{Sqlite} : Prop := {
  scan_order_perm : ∀ A n (l : list A), scan_order n l ≡ₚ l;
  u64_to_sql_fits : ∀ n, (0 ≤ n < 2 ^ 63)%Z → u64_to_sql n = Some n;
}.

(** The columns of the three tables, in the order [CREATE TABLE] lists them. *)
Record uid_row := mk_uid_row {
  ur_external_id : string;
  ur_login : string;
  ur_uid : Z;
  ur_gecos : string;
  ur_home : string;
  ur_shell : string;
  ur_gid : Z;
  ur_active : bool;
  ur_cached_at : Z;
}.

Record gid_row := mk_gid_row {
  gr_external_id : string;
  gr_name : string;
  gr_gid : Z;
  gr_cached_at : Z;
}.

Record member_row := mk_member_row {
  mr_group_external_id : string;
  mr_member_name : string;
}.

#[export] Instance uid_row_eq_dec : EqDecision uid_row.
Proof. solve_decision. Defined.
#[export] Instance gid_row_eq_dec : EqDecision gid_row.
Proof. solve_decision. Defined.
#[export] Instance member_row_eq_dec : EqDecision member_row.
Proof. solve_decision. Defined.

(** The database behind a connection, and the number of statements run on it. *)
Record db := mk_db {
  uid_cache : list uid_row;
  gid_cache : list gid_row;
  group_members_table : list member_row;
  stmt_no : nat;
}.

Definition set_uid_cache (t : list uid_row) (d : db) : db :=
  mk_db t (gid_cache d) (group_members_table d) (stmt_no d).
Definition set_gid_cache (t : list gid_row) (d : db) : db :=
  mk_db (uid_cache d) t (group_members_table d) (stmt_no d).
Definition set_group_members (t : list member_row) (d : db) : db :=
  mk_db (uid_cache d) (gid_cache d) t (stmt_no d).
Definition next_stmt (d : db) : db :=
  mk_db (uid_cache d) (gid_cache d) (group_members_table d) (S (stmt_no d)).

(** The empty database [CREATE TABLE IF NOT EXISTS] leaves in a new file. *)
Definition empty_db : db := mk_db [] [] [] 0.

(** [cached_at > strftime('%s','now') - ttl], for the clock [now]. *)
Definition unexpired (now ttl cached_at : Z) : Prop := (now - ttl < cached_at)%Z.
#[export] Instance unexpired_dec now ttl cached_at : Decision (unexpired now ttl cached_at).
Proof. unfold unexpired. apply _. Defined.

Section statements.
Context `{Sqlite}.

(** One statement: it may fail, leaving the tables alone (a statement is
    atomic); otherwise it reads the clock once and acts on the tables. *)
Definition statement {A} (body : Z → db → outcome sqlite_error A * db)
    : M db sqlite_error A := λ d,
  let n := stmt_no d in
  match sql_fault n with
  | Some e => (Err e, next_stmt d)
  | None => body (sql_now n) (next_stmt d)
  end.

(** A query: the selected rows of a table, in the engine's order. *)
Definition query {A} (select : Z → db → list A) : M db sqlite_error (list A) := λ d,
  statement (λ now d', (Ok (scan_order (stmt_no d) (select now d')), d')) d.

(** A write that cannot violate a constraint. *)
Definition execute (write : Z → db → db) : M db sqlite_error () :=
  statement (λ now d, (Ok tt, write now d)).

(** A [u64] parameter. *)
Definition bind_u64 {S} (n : Z) : M S sqlite_error Z :=
  match u64_to_sql n with
  | Some z => ret z
  | None => throw ToSqlConversionFailure
  end.

(** [ON DELETE CASCADE] from [gid_cache] to [group_members]. *)
Definition cascade (deleted : list gid_row) (members : list member_row) : list member_row :=
  if foreign_keys
  then filter (λ m, mr_group_external_id m ∉ gr_external_id <$> deleted) members
  else members.

(** [DELETE FROM gid_cache WHERE P]. *)
Definition delete_gid_rows (P : gid_row → Prop) `{∀ r, Decision (P r)} (d : db) : db :=
  set_group_members (cascade (filter P (gid_cache d)) (group_members_table d))
    (set_gid_cache (filter (λ r, ¬ P r) (gid_cache d)) d).

(** [INSERT OR REPLACE]: the rows that clash with the new one on the primary key
    or on a [UNIQUE] column are deleted first. *)
Definition uid_clash (r r' : uid_row) : Prop :=
  ur_external_id r' = ur_external_id r ∨ ur_uid r' = ur_uid r.
Definition gid_clash (r r' : gid_row) : Prop :=
  gr_external_id r' = gr_external_id r ∨ gr_gid r' = gr_gid r.

#[export] Instance uid_clash_dec r r' : Decision (uid_clash r r').
Proof. unfold uid_clash. apply _. Defined.
#[export] Instance gid_clash_dec r r' : Decision (gid_clash r r').
Proof. unfold gid_clash. apply _. Defined.

Definition replace_uid_row (r : uid_row) (d : db) : db :=
  set_uid_cache (filter (λ r', ¬ uid_clash r r') (uid_cache d) ++ [r]) d.

Definition replace_gid_row (r : gid_row) (d : db) : db :=
  let d := delete_gid_rows (gid_clash r) d in
  set_gid_cache (gid_cache d ++ [r]) d.

(** [INSERT INTO group_members]: refused on a duplicate primary key and, when
    foreign keys are enforced, without its group. *)
Definition insert_member (m : member_row) : M db sqlite_error () :=
  statement (λ now d,
    if bool_decide (m ∈ group_members_table d) then (Err ConstraintViolation, d)
    else if foreign_keys
      && bool_decide (mr_group_external_id m ∉ gr_external_id <$> gid_cache d)
    then (Err ConstraintViolation, d)
    else (Ok tt, set_group_members (group_members_table d ++ [m]) d)).
End statements.

(** ** Well-formed databases: the constraints of the schema *)

Record db_wf `{Sqlite} (d : db) : Prop := {
  wf_uid_external : NoDup (ur_external_id <$> uid_cache d);
  wf_uid : NoDup (ur_uid <$> uid_cache d);
  wf_gid_external : NoDup (gr_external_id <$> gid_cache d);
  wf_gid : NoDup (gr_gid <$> gid_cache d);
  wf_members : NoDup (group_members_table d);
  wf_references : foreign_keys = true →
    ∀ m, m ∈ group_members_table d → mr_group_external_id m ∈ gr_external_id <$> gid_cache d;
}.

(** Two databases with the same tables. *)
Definition same_tables (d d' : db) : Prop :=
  uid_cache d' = uid_cache d ∧ gid_cache d' = gid_cache d ∧
  group_members_table d' = group_members_table d.

#[export] Instance same_tables_equivalence : Equivalence same_tables.
Proof.
  split; unfold same_tables.
  - by intros d.
  - intros d d' (->&->&->). done.
  - intros d d' d'' (->&->&->) (->&->&->). done.
Qed.

Lemma same_tables_next d : same_tables d (next_stmt d).
Proof. done. Qed.
#[export] Hint Resolve same_tables_next : core.

(** Keeping some rows, and appending one that clashes with none of them. *)
Lemma NoDup_fmap_filter {A B} (f : A → B) (P : A → Prop) `{∀ x, Decision (P x)} (l : list A) :
  NoDup (f <$> l) → NoDup (f <$> filter P l).
Proof. intros Hl. eapply sublist_NoDup; [done|]. apply fmap_sublist, sublist_filter. Qed.

Lemma NoDup_fmap_replace {A B} (f : A → B) (P : A → Prop) `{∀ x, Decision (P x)}
    (l : list A) (y : A) :
  NoDup (f <$> l) → (∀ x, x ∈ l → P x → f x ≠ f y) → NoDup (f <$> filter P l ++ [y]).
Proof.
  intros Hl Hy. rewrite fmap_app. simpl. apply NoDup_app. split_and!.
  - by apply NoDup_fmap_filter.
  - intros z Hz Hz'. apply list_elem_of_singleton in Hz'. subst.
    apply list_elem_of_fmap in Hz as (x & Heq & Hx).
    apply list_elem_of_filter in Hx as [Hp Hx]. by apply (Hy x).
  - apply NoDup_singleton.
Qed.

Section statement_facts.
Context `{SqliteLaws}.

Lemma scan_order_nil {A} n : scan_order n (@nil A) = [].
Proof. apply Permutation_nil. symmetry. apply scan_order_perm. Qed.
Lemma scan_order_singleton {A} n (x : A) : scan_order n [x] = [x].
Proof. apply Permutation_singleton_r. apply scan_order_perm. Qed.
Lemma scan_order_elem {A} n (l : list A) x : x ∈ scan_order n l ↔ x ∈ l.
Proof. by rewrite (scan_order_perm A n l). Qed.
Lemma scan_order_empty {A} n (l : list A) : scan_order n l = [] → l = [].
Proof. intros Hl. apply Permutation_nil. by rewrite <-Hl, scan_order_perm. Qed.

(** The rules of a statement: it fails and changes no table, or it runs. *)
Lemma wp_statement {A} (body : Z → db → outcome sqlite_error A * db)
    (Q : outcome sqlite_error A → db → Prop) d :
  (∀ e, sql_fault (stmt_no d) = Some e → Q (Err e) (next_stmt d)) →
  (sql_fault (stmt_no d) = None →
    Q (body (sql_now (stmt_no d)) (next_stmt d)).1 (body (sql_now (stmt_no d)) (next_stmt d)).2) →
  wp (statement body) Q d.
Proof. unfold wp, statement. destruct (sql_fault (stmt_no d)) eqn:Hf; simpl; auto. Qed.

Lemma wp_query {A} (select : Z → db → list A) (Q : outcome sqlite_error (list A) → db → Prop) d :
  (∀ e, sql_fault (stmt_no d) = Some e → Q (Err e) (next_stmt d)) →
  (sql_fault (stmt_no d) = None →
    Q (Ok (scan_order (stmt_no d) (select (sql_now (stmt_no d)) (next_stmt d)))) (next_stmt d)) →
  wp (query select) Q d.
Proof. intros He Hok. unfold wp, query. by apply wp_statement. Qed.

Lemma wp_execute (write : Z → db → db) (Q : outcome sqlite_error () → db → Prop) d :
  (∀ e, sql_fault (stmt_no d) = Some e → Q (Err e) (next_stmt d)) →
  (sql_fault (stmt_no d) = None → Q (Ok tt) (write (sql_now (stmt_no d)) (next_stmt d))) →
  wp (execute write) Q d.
Proof. intros He Hok. unfold execute. by apply wp_statement. Qed.

(** Invariants that ignore the statement counter. *)
Lemma preserves_statement {A} (I : db → Prop) (body : Z → db → outcome sqlite_error A * db) :
  (∀ d, I d → I (next_stmt d)) → (∀ now d, I d → I (body now d).2) →
  preserves I (statement body).
Proof. intros Hn Hb d Hd. unfold statement. destruct (sql_fault _); simpl; auto. Qed.

Lemma preserves_query {A} (I : db → Prop) (select : Z → db → list A) :
  (∀ d, I d → I (next_stmt d)) → preserves I (query select).
Proof. intros Hn d Hd. unfold query. by apply (preserves_statement I). Qed.

Lemma preserves_execute (I : db → Prop) (write : Z → db → db) :
  (∀ d, I d → I (next_stmt d)) → (∀ now d, I d → I (write now d)) →
  preserves I (execute write).
Proof. intros. by apply preserves_statement. Qed.

Lemma preserves_bind_u64 (I : db → Prop) n : preserves I (bind_u64 n).
Proof. unfold bind_u64. preserve. Qed.

(** Every write of the cache keeps the schema's constraints. *)
Lemma db_wf_next d : db_wf d → db_wf (next_stmt d).
Proof. by intros []. Qed.

Lemma db_wf_empty : db_wf empty_db.
Proof. split; try apply NoDup_nil_2. intros _ m Hm. by apply not_elem_of_nil in Hm. Qed.

Lemma db_wf_replace_uid r d : db_wf d → db_wf (replace_uid_row r d).
Proof.
  intros []. split; simpl; try done; apply NoDup_fmap_replace; try done;
    intros x _ Hc Heq; apply Hc; unfold uid_clash; auto.
Qed.

Lemma db_wf_filter_uid (P : uid_row → Prop) `{∀ r, Decision (P r)} d :
  db_wf d → db_wf (set_uid_cache (filter P (uid_cache d)) d).
Proof. intros []. split; simpl; try done; by apply NoDup_fmap_filter. Qed.

Lemma db_wf_filter_members (P : member_row → Prop) `{∀ r, Decision (P r)} d :
  db_wf d → db_wf (set_group_members (filter P (group_members_table d)) d).
Proof.
  intros []. split; simpl; try done; [by apply NoDup_filter|].
  intros Hfk m [_ Hm]%list_elem_of_filter. auto.
Qed.

Lemma db_wf_delete_gid (P : gid_row → Prop) `{∀ r, Decision (P r)} d :
  db_wf d → db_wf (delete_gid_rows P d).
Proof.
  intros []. split; simpl; try done; try by apply NoDup_fmap_filter.
  - unfold cascade. destruct foreign_keys; [by apply NoDup_filter|done].
  - intros Hfk m. unfold cascade. rewrite Hfk. intros [Hdel Hm]%list_elem_of_filter.
    specialize (wf_references0 Hfk m Hm). apply list_elem_of_fmap in wf_references0 as (r & Hr & Hin).
    rewrite Hr in *. apply list_elem_of_fmap_2, list_elem_of_filter. split; [|done].
    intros Hp. apply Hdel, list_elem_of_fmap_2, list_elem_of_filter. done.
Qed.

Lemma db_wf_replace_gid r d : db_wf d → db_wf (replace_gid_row r d).
Proof.
  intros Hd. unfold replace_gid_row.
  pose proof (db_wf_delete_gid (gid_clash r) d Hd) as []. destruct Hd. split; simpl in *; try done.
  1,2: apply NoDup_fmap_replace; try done; intros x _ Hc Heq; apply Hc; unfold gid_clash; auto.
  intros Hfk m Hm. rewrite fmap_app. apply elem_of_app. left. auto.
Qed.

Lemma preserves_insert_member m : preserves db_wf (insert_member m).
Proof.
  apply preserves_statement; [apply db_wf_next|]. intros now d Hd.
  case_bool_decide as Hin; [done|]. case_match eqn:Hfk; [done|]. destruct Hd.
  split; simpl; try done.
  - apply NoDup_app. split_and!; [done| |apply NoDup_singleton].
    intros x Hx ->%list_elem_of_singleton. done.
  - intros Hf x [Hx| ->%list_elem_of_singleton]%elem_of_app; [auto|].
    rewrite Hf in Hfk. apply bool_decide_eq_false in Hfk. by apply dec_stable.
Qed.
End statement_facts.

#[export] Hint Resolve db_wf_next db_wf_replace_uid db_wf_filter_uid db_wf_filter_members
  db_wf_delete_gid db_wf_replace_gid preserves_query preserves_execute preserves_bind_u64
  preserves_insert_member : rust_inv.

(** ** A concrete engine, for runs on concrete inputs: no failure, a clock that
    stands still, rows in table order. *)
Definition still_engine (fk : bool) (now : Z) : Sqlite := {|
  foreign_keys := fk;
  sql_fault := λ _, None;
  sql_now := λ _, now;
  scan_order := λ A n l, l;
  u64_to_sql := λ n, if bool_decide (n < 2 ^ 63)%Z then Some n else None;
|}.

Lemma still_engine_laws fk now : @SqliteLaws (still_engine fk now).
Proof.
  split; [done|]. intros n Hn. simpl. by rewrite bool_decide_eq_true_2 by lia.
Qed.
