(* ===== verification/Schema.v ===== *)
(** * Schema: the tables and indexes that [Cache::open] declares ([src/cache.rs])

    [Sql] has the three tables as lists of records, with the constraints and the
    effect of each statement written out by hand. Here the [CREATE] statements of
    [cache.rs] are data, and SQL's rules for constraints are stated for any table:
    the hand-written ones are what these rules make of the declared schema. *)

From S2P Require Import Prelude Sql.
From stdpp Require Import prelude strings list gmap.

(** ** Declarations *)

Inductive column_type := TEXT | INTEGER.
Inductive sql_value := Null | Integer (z : Z) | Text (s : string).
#[export] Instance sql_value_eq_dec : EqDecision sql_value.
Proof. solve_decision. Defined.

Record column := mk_column {
  col_name : string;
  col_type : column_type;
  col_primary_key : bool;
  col_unique : bool;
  col_not_null : bool;
  col_default : option sql_value;
}.

(** [FOREIGN KEY (column) REFERENCES table(ref) ON DELETE CASCADE] *)
Record foreign_key := mk_foreign_key { fk_column : string; fk_table : string; fk_ref : string }.

Record table_def := mk_table_def {
  td_name : string;
  td_columns : list column;
  td_primary_key : list string;
  td_foreign_keys : list foreign_key;
}.
Record index_def := mk_index_def { ix_name : string; ix_table : string; ix_column : string }.
Inductive ddl := CreateTable (t : table_def) | CreateIndex (i : index_def).

Definition key_column (name : string) : column := mk_column name TEXT true false false None.
Definition unique_column (name : string) : column := mk_column name INTEGER false true true None.
Definition plain_column (name : string) (type : column_type) (def : option sql_value) : column :=
  mk_column name type false false true def.

Definition uid_cache_def : table_def := mk_table_def "uid_cache"
  [key_column "external_id"; plain_column "login" TEXT None; unique_column "uid";
   plain_column "gecos" TEXT (Some (Text "")); plain_column "home" TEXT (Some (Text ""));
   plain_column "shell" TEXT (Some (Text "")); plain_column "gid" INTEGER (Some (Integer 0));
   plain_column "active" INTEGER (Some (Integer 1)); plain_column "cached_at" INTEGER None] [] [].

Definition gid_cache_def : table_def := mk_table_def "gid_cache"
  [key_column "external_id"; plain_column "name" TEXT None; unique_column "gid";
   plain_column "cached_at" INTEGER None] [] [].

Definition group_members_def : table_def := mk_table_def "group_members"
  [plain_column "group_external_id" TEXT None; plain_column "member_name" TEXT None]
  ["group_external_id"; "member_name"]
  [mk_foreign_key "group_external_id" "gid_cache" "external_id"].

(** The second batch of [Cache::open]. *)
Definition schema_batch : list ddl :=
  [CreateTable uid_cache_def; CreateTable gid_cache_def; CreateTable group_members_def;
   CreateIndex (mk_index_def "idx_uid_cache_login" "uid_cache" "login");
   CreateIndex (mk_index_def "idx_gid_cache_name" "gid_cache" "name");
   CreateIndex (mk_index_def "idx_group_members_member_name" "group_members" "member_name")].

(** ** The catalog ([sqlite_master]) *)

Record catalog := mk_catalog {
  cat_tables : gmap string table_def;
  cat_indexes : gmap string index_def;
}.

(** [CREATE .. IF NOT EXISTS]: what has the name already stays as it is. An index
    needs its table and column; [None] is SQLite's error. *)
Definition run_ddl (c : catalog) (stmt : ddl) : option catalog :=
  match stmt with
  | CreateTable t => Some
      match cat_tables c !! td_name t with
      | Some _ => c
      | None => mk_catalog (<[td_name t := t]> (cat_tables c)) (cat_indexes c)
      end
  | CreateIndex i =>
      match cat_indexes c !! ix_name i with
      | Some _ => Some c
      | None =>
          t ← cat_tables c !! ix_table i;
          if bool_decide (ix_column i ∈ col_name <$> td_columns t)
          then Some (mk_catalog (cat_tables c) (<[ix_name i := i]> (cat_indexes c))) else None
      end
  end.
Definition run_batch (batch : list ddl) (c : catalog) : option catalog :=
  foldl (λ c stmt, c ≫= λ c, run_ddl c stmt) (Some c) batch.

Definition new_catalog : catalog := mk_catalog ∅ ∅.

(** [SELECT name FROM sqlite_master WHERE type = 'index' AND name LIKE 'idx_%'], for
    names in lower case: [_] is any character, and [%] any text. *)
Definition index_names (c : catalog) : list string :=
  filter (λ name, String.prefix "idx" name = true ∧ 4 ≤ String.length name)
    (map_to_list (cat_indexes c)).*1.

(** ** SQL's rules, for any declared table *)

Abbreviation row := (list sql_value).

Definition value_at (t : table_def) (r : row) (name : string) : option sql_value :=
  '(i, _) ← list_find (λ c, col_name c = name) (td_columns t); r !! i.

(** The sets of columns no two rows agree on. *)
Definition keys (t : table_def) : list (list string) :=
  ((λ c, [col_name c]) <$> filter (λ c, col_primary_key c || col_unique c) (td_columns t)) ++
  match td_primary_key t with [] => [] | key => [key] end.
Definition key_of (t : table_def) (key : list string) (r : row) : list (option sql_value) :=
  value_at t r <$> key.
Definition clash (t : table_def) (r r' : row) : Prop :=
  Exists (λ key, key_of t key r = key_of t key r') (keys t).
#[export] Instance clash_dec t r r' : Decision (clash t r r').
Proof. unfold clash. apply _. Defined.

(** A value a column takes. *)
Definition fits (c : column) (v : sql_value) : Prop :=
  match v with
  | Null => col_not_null c = false
  | Integer _ => col_type c = INTEGER
  | Text _ => col_type c = TEXT
  end.

(** A reference has its row, in the table [rows] of the definition [target]. *)
Definition referenced (t target : table_def) (rows : list row) (fk : foreign_key) (r : row) : Prop :=
  value_at t r (fk_column fk) ∈ (λ r', value_at target r' (fk_ref fk)) <$> rows.
#[export] Instance referenced_dec t target rows fk r : Decision (referenced t target rows fk r).
Proof. unfold referenced. apply _. Defined.

(** The rows of a table satisfy what was declared for it. *)
Definition conforms (enforced : bool) (t : table_def) (rows : list row)
    (tables : string → option (table_def * list row)) : Prop :=
  Forall (Forall2 fits (td_columns t)) rows ∧
  Forall (λ key, NoDup (key_of t key <$> rows)) (keys t) ∧
  (enforced = true → Forall (λ fk, ∃ target rows', tables (fk_table fk) = Some (target, rows') ∧
    Forall (referenced t target rows' fk) rows) (td_foreign_keys t)).

(** [INSERT OR REPLACE]: the rows the new one clashes with go. *)
Definition insert_or_replace (t : table_def) (r : row) (rows : list row) : list row :=
  filter (λ r', ¬ clash t r' r) rows ++ [r].

(** [INSERT]: refused where it clashes, or refers to nothing. *)
Definition insert_checked (enforced : bool) (t : table_def) (r : row) (rows : list row)
    (tables : string → option (table_def * list row)) : option (list row) :=
  if bool_decide (Exists (λ r', clash t r' r) rows) then None
  else if enforced && negb (forallb (λ fk,
      match tables (fk_table fk) with
      | Some (target, rows') => bool_decide (referenced t target rows' fk r)
      | None => false
      end) (td_foreign_keys t)) then None
  else Some (rows ++ [r]).

(** What [ON DELETE CASCADE] leaves of a table when the rows [deleted] of the table
    [target] go. *)
Definition cascaded (enforced : bool) (t target : table_def) (deleted rows : list row) : list row :=
  if enforced
  then filter (λ r, Forall (λ fk, fk_table fk = td_name target → ¬ referenced t target deleted fk r)
                (td_foreign_keys t)) rows
  else rows.

(** ** The records of [Sql] as rows *)

Definition uid_values (r : uid_row) : row :=
  [Text (ur_external_id r); Text (ur_login r); Integer (ur_uid r); Text (ur_gecos r);
   Text (ur_home r); Text (ur_shell r); Integer (ur_gid r);
   Integer (if ur_active r then 1 else 0); Integer (ur_cached_at r)].
Definition gid_values (r : gid_row) : row :=
  [Text (gr_external_id r); Text (gr_name r); Integer (gr_gid r); Integer (gr_cached_at r)].
Definition member_values (r : member_row) : row :=
  [Text (mr_group_external_id r); Text (mr_member_name r)].

Definition stored_tables (d : db) (name : string) : option (table_def * list row) :=
  match name with
  | "uid_cache" => Some (uid_cache_def, uid_values <$> uid_cache d)
  | "gid_cache" => Some (gid_cache_def, gid_values <$> gid_cache d)
  | "group_members" => Some (group_members_def, member_values <$> group_members_table d)
  | _ => None
  end.

(** Every table of a database satisfies its declaration. *)
Definition schema_holds `{Sqlite} (d : db) : Prop :=
  Forall (λ stmt, match stmt with
    | CreateTable t => ∃ rows, stored_tables d (td_name t) = Some (t, rows) ∧
        conforms foreign_keys t rows (stored_tables d)
    | CreateIndex _ => True
    end) schema_batch.

(** ** The hand-written rules are those of the schema *)

Lemma filter_fmap {A B} (f : A → B) (P : B → Prop) `{∀ y, Decision (P y)}
    (Q : A → Prop) `{∀ x, Decision (Q x)} (l : list A) :
  (∀ x, P (f x) ↔ Q x) → filter P (f <$> l) = f <$> filter Q l.
Proof.
  intros HPQ. induction l as [|x l IH]; [done|]. rewrite fmap_cons, !filter_cons, IH.
  pose proof (HPQ x). destruct (decide (P (f x))), (decide (Q x)); try done; tauto.
Qed.

(** The keys of a record's row. *)
Lemma uid_key_id r : key_of uid_cache_def ["external_id"] (uid_values r) = [Some (Text (ur_external_id r))].
Proof. reflexivity. Qed.
Lemma uid_key_uid r : key_of uid_cache_def ["uid"] (uid_values r) = [Some (Integer (ur_uid r))].
Proof. reflexivity. Qed.
Lemma gid_key_id r : key_of gid_cache_def ["external_id"] (gid_values r) = [Some (Text (gr_external_id r))].
Proof. reflexivity. Qed.
Lemma gid_key_gid r : key_of gid_cache_def ["gid"] (gid_values r) = [Some (Integer (gr_gid r))].
Proof. reflexivity. Qed.
Lemma member_key r : key_of group_members_def ["group_external_id"; "member_name"] (member_values r) =
  [Some (Text (mr_group_external_id r)); Some (Text (mr_member_name r))].
Proof. reflexivity. Qed.

Create Rewrite HintDb row_keys.
#[export] Hint Rewrite uid_key_id uid_key_uid gid_key_id gid_key_gid member_key : row_keys.

Lemma uid_values_clash r r' : clash uid_cache_def (uid_values r') (uid_values r) ↔ uid_clash r r'.
Proof.
  unfold clash, uid_clash. change (keys uid_cache_def) with [["external_id"]; ["uid"]].
  rewrite !Exists_cons, Exists_nil. autorewrite with row_keys.
  split; [intros [[=]|[[=]|[]]]; auto|intros [->| ->]; auto].
Qed.
Lemma gid_values_clash r r' : clash gid_cache_def (gid_values r') (gid_values r) ↔ gid_clash r r'.
Proof.
  unfold clash, gid_clash. change (keys gid_cache_def) with [["external_id"]; ["gid"]].
  rewrite !Exists_cons, Exists_nil. autorewrite with row_keys.
  split; [intros [[=]|[[=]|[]]]; auto|intros [->| ->]; auto].
Qed.
Lemma member_values_clash r r' :
  clash group_members_def (member_values r') (member_values r) ↔ r' = r.
Proof.
  unfold clash. change (keys group_members_def) with [["group_external_id"; "member_name"]].
  rewrite Exists_cons, Exists_nil. autorewrite with row_keys. destruct r, r'. cbn.
  split; [by intros [[= -> ->]|[]]|intros [= -> ->]; by left].
Qed.

Definition member_fk : foreign_key := mk_foreign_key "group_external_id" "gid_cache" "external_id".
Lemma member_referenced m (rows : list gid_row) :
  referenced group_members_def gid_cache_def (gid_values <$> rows) member_fk (member_values m) ↔
  mr_group_external_id m ∈ gr_external_id <$> rows.
Proof.
  unfold referenced. rewrite <-list_fmap_compose, !list_elem_of_fmap.
  change (value_at group_members_def (member_values m) _) with (Some (Text (mr_group_external_id m))).
  split; intros (r & Hr & Hin); exists r; (split; [|done]).
  - by injection Hr.
  - by rewrite Hr.
Qed.

(** Rows agree on a key when the records agree on its fields. *)
Lemma NoDup_key {R A} (t : table_def) (key : list string) (values : R → row) (f : R → A)
    (rows : list R) :
  (∀ r r', key_of t key (values r) = key_of t key (values r') ↔ f r = f r') →
  NoDup (key_of t key <$> (values <$> rows)) ↔ NoDup (f <$> rows).
Proof.
  intros Hkey. rewrite <-list_fmap_compose. induction rows as [|r rows IH]; [by rewrite !fmap_nil, !NoDup_nil|].
  rewrite !fmap_cons, !NoDup_cons, IH. rewrite !list_elem_of_fmap. cbn.
  setoid_rewrite Hkey. done.
Qed.

Lemma Forall_fits {R} (t : table_def) (values : R → row) (rows : list R) :
  (∀ r, Forall2 fits (td_columns t) (values r)) → Forall (Forall2 fits (td_columns t)) (values <$> rows).
Proof. intros Hv. apply Forall_fmap, Forall_true. exact Hv. Qed.

Section schema.
Context `{Sqlite}.

Lemma uid_conforms (rows : list uid_row) d :
  conforms foreign_keys uid_cache_def (uid_values <$> rows) (stored_tables d) ↔
  NoDup (ur_external_id <$> rows) ∧ NoDup (ur_uid <$> rows).
Proof.
  unfold conforms. change (keys uid_cache_def) with [["external_id"]; ["uid"]].
  rewrite !Forall_cons. rewrite (NoDup_key _ _ _ ur_external_id), (NoDup_key _ _ _ ur_uid)
    by (intros r r'; autorewrite with row_keys; split; congruence).
  split; [tauto|]. intros [He Hu]. split_and!; [|done|done|constructor|by constructor].
  apply Forall_fits. intros r. by repeat constructor.
Qed.

Lemma gid_conforms (rows : list gid_row) d :
  conforms foreign_keys gid_cache_def (gid_values <$> rows) (stored_tables d) ↔
  NoDup (gr_external_id <$> rows) ∧ NoDup (gr_gid <$> rows).
Proof.
  unfold conforms. change (keys gid_cache_def) with [["external_id"]; ["gid"]].
  rewrite !Forall_cons. rewrite (NoDup_key _ _ _ gr_external_id), (NoDup_key _ _ _ gr_gid)
    by (intros r r'; autorewrite with row_keys; split; congruence).
  split; [tauto|]. intros [He Hg]. split_and!; [|done|done|constructor|by constructor].
  apply Forall_fits. intros r. by repeat constructor.
Qed.

Lemma members_conform (rows : list member_row) d :
  conforms foreign_keys group_members_def (member_values <$> rows) (stored_tables d) ↔
  NoDup rows ∧ (foreign_keys = true →
    ∀ m, m ∈ rows → mr_group_external_id m ∈ gr_external_id <$> gid_cache d).
Proof.
  unfold conforms. change (keys group_members_def) with [["group_external_id"; "member_name"]].
  rewrite Forall_cons. rewrite (NoDup_key _ _ _ id), list_fmap_id
    by (intros [] []; autorewrite with row_keys; cbn; split; congruence).
  change (td_foreign_keys group_members_def) with [member_fk]. setoid_rewrite Forall_singleton.
  split.
  - intros (_ & [Hk _] & Hf). split; [done|]. intros Hfk m Hm.
    destruct (Hf Hfk) as (target & rows' & [= <- <-] & Hr). rewrite Forall_fmap, Forall_forall in Hr.
    by apply member_referenced, Hr.
  - intros [Hk Hf]. split_and!; [|done|constructor|].
    + apply Forall_fits. intros r. by repeat constructor.
    + intros Hfk. eexists _, _. split; [done|]. apply Forall_fmap, Forall_forall. intros m Hm.
      by apply member_referenced, Hf.
Qed.

(** The invariant of the development is what the schema declares. *)
Lemma schema_holds_wf d : schema_holds d ↔ db_wf d.
Proof.
  unfold schema_holds, schema_batch. rewrite !Forall_cons, Forall_nil. cbn [td_name uid_cache_def].
  split.
  - intros ((? & [= <-] & Hu) & (? & [= <-] & Hg) & (? & [= <-] & Hm) & _).
    apply uid_conforms in Hu as [? ?]. apply gid_conforms in Hg as [? ?].
    apply members_conform in Hm as [? ?]. by split.
  - intros []. split_and!; try done; eexists; (split; [reflexivity|]).
    + by apply uid_conforms.
    + by apply gid_conforms.
    + by apply members_conform.
Qed.
End schema.

(** ** The statements that write *)

Section writes.
Context `{Sqlite}.

Lemma replaced_uid_values r d :
  uid_values <$> uid_cache (replace_uid_row r d) =
    insert_or_replace uid_cache_def (uid_values r) (uid_values <$> uid_cache d).
Proof.
  cbn. unfold insert_or_replace. rewrite fmap_app. f_equal. symmetry. apply filter_fmap.
  intros r'. by rewrite uid_values_clash.
Qed.

Lemma replaced_gid_values r d :
  gid_values <$> gid_cache (replace_gid_row r d) =
    insert_or_replace gid_cache_def (gid_values r) (gid_values <$> gid_cache d).
Proof.
  cbn. unfold insert_or_replace. rewrite fmap_app. f_equal. symmetry. apply filter_fmap.
  intros r'. by rewrite gid_values_clash.
Qed.

(** The rows of [gid_cache] that a new one deletes. *)
Definition gid_deleted (r : gid_row) (d : db) : list row :=
  filter (λ v, clash gid_cache_def v (gid_values r)) (gid_values <$> gid_cache d).

Lemma replaced_gid_members r d :
  member_values <$> group_members_table (replace_gid_row r d) =
    cascaded foreign_keys group_members_def gid_cache_def (gid_deleted r d)
      (member_values <$> group_members_table d).
Proof.
  cbn. unfold cascaded, cascade, gid_deleted. destruct foreign_keys; [|done].
  rewrite (filter_fmap gid_values _ (gid_clash r)) by (intros r'; by rewrite gid_values_clash).
  symmetry. apply filter_fmap. intros m.
  change (td_foreign_keys group_members_def) with [member_fk]. rewrite Forall_singleton.
  rewrite member_referenced. cbn. tauto.
Qed.

Lemma insert_member_checked m d :
  sql_fault (stmt_no d) = None →
  let '(r, d') := insert_member m d in
  uid_cache d' = uid_cache d ∧ gid_cache d' = gid_cache d ∧
  match insert_checked foreign_keys group_members_def (member_values m)
          (member_values <$> group_members_table d) (stored_tables d) with
  | Some rows => r = Ok tt ∧ member_values <$> group_members_table d' = rows
  | None => r = Err ConstraintViolation ∧ group_members_table d' = group_members_table d
  end.
Proof.
  intros Hok. unfold insert_member, statement. rewrite Hok. unfold insert_checked.
  rewrite (bool_decide_ext (Exists _ _) (m ∈ group_members_table d)).
  2: { rewrite Exists_fmap, Exists_exists. setoid_rewrite member_values_clash. naive_solver. }
  cbn [group_members_table next_stmt gid_cache]. case_bool_decide as Hin; [done|].
  change (td_foreign_keys group_members_def) with [member_fk]. cbn [forallb fk_table member_fk stored_tables].
  rewrite (bool_decide_ext (referenced _ _ _ _ _) (mr_group_external_id m ∈ gr_external_id <$> gid_cache d))
    by apply member_referenced.
  rewrite andb_true_r, <-bool_decide_not.
  destruct (foreign_keys && _); [done|]. cbn. by rewrite fmap_app.
Qed.

(** C19: the hand-written invariant and statements of the tables are SQL's, for the
    schema that [Cache::open] declares: a database is well formed exactly when its
    rows satisfy the declared types, keys and references; [INSERT OR REPLACE]
    deletes the rows that clash on a declared key, and the members that refer to
    them; [INSERT] of a member is refused exactly where it repeats the primary key
    or refers to no group. *)
Theorem statements_follow_the_schema d :
  (schema_holds d ↔ db_wf d) ∧
  (∀ r, uid_values <$> uid_cache (replace_uid_row r d) =
    insert_or_replace uid_cache_def (uid_values r) (uid_values <$> uid_cache d)) ∧
  (∀ r, gid_values <$> gid_cache (replace_gid_row r d) =
      insert_or_replace gid_cache_def (gid_values r) (gid_values <$> gid_cache d) ∧
    member_values <$> group_members_table (replace_gid_row r d) =
      cascaded foreign_keys group_members_def gid_cache_def (gid_deleted r d)
        (member_values <$> group_members_table d)) ∧
  (∀ m, sql_fault (stmt_no d) = None →
    let '(r, d') := insert_member m d in
    uid_cache d' = uid_cache d ∧ gid_cache d' = gid_cache d ∧
    match insert_checked foreign_keys group_members_def (member_values m)
            (member_values <$> group_members_table d) (stored_tables d) with
    | Some rows => r = Ok tt ∧ member_values <$> group_members_table d' = rows
    | None => r = Err ConstraintViolation ∧ group_members_table d' = group_members_table d
    end).
Proof.
  split_and!.
  - apply schema_holds_wf.
  - intros r. apply replaced_uid_values.
  - intros r. split; [apply replaced_gid_values|apply replaced_gid_members].
  - intros m. apply insert_member_checked.
Qed.
End writes.

(** ** Opening a cache file, again *)

Definition declared (c : catalog) (stmt : ddl) : Prop :=
  match stmt with
  | CreateTable t => is_Some (cat_tables c !! td_name t)
  | CreateIndex i => is_Some (cat_indexes c !! ix_name i)
  end.

Lemma run_ddl_declares c c' stmt :
  run_ddl c stmt = Some c' → declared c' stmt ∧ ∀ stmt', declared c stmt' → declared c' stmt'.
Proof.
  destruct stmt as [t|i]; cbn; intros Hrun.
  - injection Hrun as <-. destruct (cat_tables c !! td_name t) eqn:Ht; [by rewrite Ht|].
    split; [cbn; by rewrite lookup_insert_eq|]. intros [t'|i']; [|done]. cbn.
    destruct (decide (td_name t = td_name t')) as [->|?]; [by rewrite lookup_insert_eq|].
    by rewrite lookup_insert_ne.
  - destruct (cat_indexes c !! ix_name i) eqn:Hi; [injection Hrun as <-; by rewrite Hi|].
    destruct (cat_tables c !! ix_table i) as [t|]; [|done]. cbn in Hrun.
    destruct (bool_decide _); [|done]. injection Hrun as <-.
    split; [cbn; by rewrite lookup_insert_eq|]. intros [t'|i']; [done|]. cbn.
    destruct (decide (ix_name i = ix_name i')) as [->|?]; [by rewrite lookup_insert_eq|].
    by rewrite lookup_insert_ne.
Qed.

Lemma run_ddl_declared c stmt : declared c stmt → run_ddl c stmt = Some c.
Proof. destruct stmt; cbn; intros [x ->]; done. Qed.

Lemma run_batch_cons stmt batch c :
  run_batch (stmt :: batch) c = run_ddl c stmt ≫= run_batch batch.
Proof.
  unfold run_batch. cbn. destruct (run_ddl c stmt) as [c'|]; cbn; [done|].
  by induction batch.
Qed.

Lemma run_batch_declares batch c c' :
  run_batch batch c = Some c' →
  Forall (declared c') batch ∧ ∀ stmt, declared c stmt → declared c' stmt.
Proof.
  revert c. induction batch as [|stmt batch IH]; intros c.
  - intros [= ->]. by split.
  - rewrite run_batch_cons. destruct (run_ddl c stmt) as [c1|] eqn:Hrun; [|done]. cbn.
    intros [Hb Hkeep]%IH. apply run_ddl_declares in Hrun as [Hd Hkeep1].
    split; [constructor; auto|auto].
Qed.

(** A file that was opened before is opened without a change to its catalog. *)
Lemma run_batch_again batch c c' : run_batch batch c = Some c' → run_batch batch c' = Some c'.
Proof.
  intros [Hb _]%run_batch_declares. induction Hb as [|stmt batch Hd _ IH]; [done|].
  by rewrite run_batch_cons, run_ddl_declared.
Qed.

Definition opened_catalog : catalog := default new_catalog (run_batch schema_batch new_catalog).

(** ** Witness: a member of no group is refused *)

#[local] Instance enforcing_engine : Sqlite := still_engine true 1000.
Lemma statements_follow_the_schema_witness :
  (insert_member (mk_member_row "grp" "alice") empty_db).1 = Err ConstraintViolation.
Proof.
  pose proof (proj2 (proj2 (proj2 (statements_follow_the_schema empty_db)))
    (mk_member_row "grp" "alice") eq_refl) as Hins.
  destruct (insert_member _ _) as [r d']. destruct Hins as (_ & _ & Hins). exact (proj1 Hins).
Defined.
