(* ===== verification/Cache.v ===== *)
(** * Cache: the SQLite cache of users and groups ([src/cache.rs]) *)

From S2P Require Import Prelude Model Mapping Fs Sql.
From stdpp Require Import prelude strings list gmap.

Inductive CacheError :=
  | Sqlite_error (e : sqlite_error)
  | RangeExhausted
  | InsecurePermissions (path detail : string).

#[export] Instance cache_error_from_range : From IdRangeExhausted CacheError :=
  λ _, RangeExhausted.
#[export] Instance cache_error_from_sqlite : From sqlite_error CacheError := Sqlite_error.

(** The connection is the [db] the operations act on. *)
Record Cache := mk_cache { ttl_seconds : Z }.

(** [Cache::harden_cache_file], on Linux. *)
Definition harden_cache_file `{Os} (path : string) : M filesystem CacheError () :=
  let? meta := map_err (λ e, InsecurePermissions path ("cannot stat file: " +:+ io_message e))
    (symlink_metadata path) in
  if negb (meta_is_file meta)
  then throw (InsecurePermissions path "not a regular file")
  else if bool_decide (meta_uid meta ≠ 0%Z)
  then throw (InsecurePermissions path
    ("owned by uid " +:+ fmt_dec (meta_uid meta) +:+ " but must be owned by root (uid 0)"))
  else
    let mode := Z.land (meta_mode meta) 511 in
    if bool_decide (mode ≠ 384%Z)
    then map_err (λ e, InsecurePermissions path
        ("permissions " +:+ fmt_octal4 mode +:+
         " are too open and could not be corrected: " +:+ io_message e +:+
         ". Run: chmod 600 " +:+ path))
      (set_permissions path 384)
    else ret tt.

(** Opening a SQLite file creates it when it is absent. *)
Class SqliteFile := connection_open : string → M filesystem sqlite_error ().

(** What [Cache::open] touches: the file system, and the database in the file. *)
Record storage := mk_storage { st_fs : filesystem; st_db : db }.
Definition set_fs (fs : filesystem) (s : storage) : storage := mk_storage fs (st_db s).
Definition set_db (d : db) (s : storage) : storage := mk_storage (st_fs s) d.

(** [Cache::open]: the two batches set the journal mode and create the tables
    and indexes that do not exist yet, so they change no row. A database named
    [":memory:"] is new and empty. *)
Definition open `{Os} `{Sqlite} `{SqliteFile} (path : string) (ttl_seconds : Z)
    : M storage CacheError Cache :=
  zoom st_fs set_fs (map_err from (connection_open path)) ;;?
  (if bool_decide (path ≠ ":memory:")
   then zoom st_fs set_fs (harden_cache_file path)
   else λ s, (Ok tt, set_db empty_db s)) ;;?
  zoom st_db set_db (map_err from (execute (λ _ d, d))) ;;?
  zoom st_db set_db (map_err from (execute (λ _ d, d))) ;;?
  ret (mk_cache ttl_seconds).

Definition open_in_memory `{Os} `{Sqlite} `{SqliteFile} : M storage CacheError Cache :=
  open ":memory:" 3600.

Section cache.
Context `{Sqlite} `{BuildProfile} `{Murmur3}.
Variable c : Cache.

(** [SELECT external_id FROM uid_cache WHERE uid = ?1], the first row compared
    with [external_id]. *)
Definition uid_owner (uid : Z) (external_id : string) : M db CacheError (option bool) :=
  let? rows := map_err from
    (query (λ _ d, ur_external_id <$> filter (λ r, ur_uid r = uid) (uid_cache d))) in
  match head rows with
  | Some owner => ret (Some (bool_decide (owner = external_id)))
  | None => ret None
  end.

Definition gid_owner (gid : Z) (external_id : string) : M db CacheError (option bool) :=
  let? rows := map_err from
    (query (λ _ d, gr_external_id <$> filter (λ r, gr_gid r = gid) (gid_cache d))) in
  match head rows with
  | Some owner => ret (Some (bool_decide (owner = external_id)))
  | None => ret None
  end.

Definition resolve_uid (external_id : string) (range_min range_size : Z) : M db CacheError Z :=
  resolve_id external_id range_min range_size (λ candidate, uid_owner candidate external_id).

Definition resolve_gid (external_id : string) (range_min range_size : Z) : M db CacheError Z :=
  resolve_id external_id range_min range_size (λ candidate, gid_owner candidate external_id).

(** The parameters of the [INSERT OR REPLACE INTO uid_cache]. *)
Definition user_row (user : User) (now : Z) : uid_row :=
  mk_uid_row (user_external_id user) (user_name user) (user_uid user) (user_gecos user)
    (user_home user) (user_shell user) (user_gid user) (user_active user) now.

Definition store_user (user : User) : M db CacheError () :=
  map_err from (execute (λ now, replace_uid_row (user_row user now))).

(** The closure that reads a [User] from the columns of a row. *)
Definition row_user (r : uid_row) : User :=
  mk_user (ur_external_id r) (ur_login r) (ur_uid r) (ur_gid r) (ur_gecos r) (ur_home r)
    (ur_shell r) (ur_active r).

Definition get_user_by_uid (uid : Z) : M db CacheError (option User) :=
  let? ttl := map_err from (bind_u64 (ttl_seconds c)) in
  let? rows := map_err from (query (λ now d, row_user <$>
    filter (λ r, ur_uid r = uid ∧ unexpired now ttl (ur_cached_at r)) (uid_cache d))) in
  ret (head rows).

Definition get_user_by_name (name : string) : M db CacheError (option User) :=
  let? ttl := map_err from (bind_u64 (ttl_seconds c)) in
  let? rows := map_err from (query (λ now d, row_user <$>
    filter (λ r, ur_login r = name ∧ unexpired now ttl (ur_cached_at r)) (uid_cache d))) in
  ret (head rows).

Definition group_row (group : Group) (now : Z) : gid_row :=
  mk_gid_row (group_external_id group) (group_name group) (group_gid group) now.

Definition store_group (group : Group) : M db CacheError () :=
  map_err from (execute (λ now, replace_gid_row (group_row group now))) ;;?
  map_err from (execute (λ _ d, set_group_members
    (filter (λ m, mr_group_external_id m ≠ group_external_id group)
      (group_members_table d)) d)) ;;?
  for_each (group_members group) (λ member,
    map_err from (insert_member (mk_member_row (group_external_id group) member))).

Definition get_group_members (external_id : string) : M db CacheError (list string) :=
  map_err from (query (λ _ d, mr_member_name <$>
    filter (λ m, mr_group_external_id m = external_id) (group_members_table d))).

(** The closure that reads a [Group], its members still to be loaded. *)
Definition row_group (r : gid_row) : Group :=
  mk_group (gr_external_id r) (gr_name r) (gr_gid r) [].

(** [group.members = self.get_group_members(&group.external_id)?] *)
Definition load_members (group : Group) : M db CacheError Group :=
  let? members := get_group_members (group_external_id group) in
  ret (mk_group (group_external_id group) (group_name group) (group_gid group) members).

Definition get_group_by_gid (gid : Z) : M db CacheError (option Group) :=
  let? ttl := map_err from (bind_u64 (ttl_seconds c)) in
  let? rows := map_err from (query (λ now d, row_group <$>
    filter (λ r, gr_gid r = gid ∧ unexpired now ttl (gr_cached_at r)) (gid_cache d))) in
  match head rows with
  | Some group => let? group := load_members group in ret (Some group)
  | None => ret None
  end.

Definition get_group_by_name (name : string) : M db CacheError (option Group) :=
  let? ttl := map_err from (bind_u64 (ttl_seconds c)) in
  let? rows := map_err from (query (λ now d, row_group <$>
    filter (λ r, gr_name r = name ∧ unexpired now ttl (gr_cached_at r)) (gid_cache d))) in
  match head rows with
  | Some group => let? group := load_members group in ret (Some group)
  | None => ret None
  end.

(** The three [DELETE]s, each with its own reading of the clock. *)
Definition purge_expired (ttl : Z) : M db CacheError () :=
  let? ttl1 := map_err from (bind_u64 ttl) in
  map_err from (execute (λ now d, set_group_members
    (filter (λ m, mr_group_external_id m ∉
        gr_external_id <$> filter (λ r, ¬ unexpired now ttl1 (gr_cached_at r)) (gid_cache d))
      (group_members_table d)) d)) ;;?
  let? ttl2 := map_err from (bind_u64 ttl) in
  map_err from (execute (λ now,
    delete_gid_rows (λ r, ¬ unexpired now ttl2 (gr_cached_at r)))) ;;?
  let? ttl3 := map_err from (bind_u64 ttl) in
  map_err from (execute (λ now d, set_uid_cache
    (filter (λ r, unexpired now ttl3 (ur_cached_at r)) (uid_cache d)) d)).

(** [gid_cache g JOIN group_members gm ON gm.group_external_id = g.external_id],
    restricted to the rows of one member that are fresh. *)
Definition join_member (member_name : string) (now ttl : Z) (d : db) : list gid_row :=
  g ← gid_cache d;
  _ ← filter (λ m, mr_group_external_id m = gr_external_id g ∧
        mr_member_name m = member_name ∧ unexpired now ttl (gr_cached_at g))
      (group_members_table d);
  [g].

Definition get_groups_for_member (member_name : string) : M db CacheError (list Group) :=
  let? ttl := map_err from (bind_u64 (ttl_seconds c)) in
  let? rows := map_err from
    (query (λ now d, row_group <$> join_member member_name now ttl d)) in
  collect rows load_members.
End cache.
