(* ===== verification/CacheFacts.v ===== *)
(** * CacheFacts: what the cache operations guarantee *)

From S2P Require Import Prelude Model Mapping Fs Sql Cache.
From stdpp Require Import prelude strings list gmap sorting.

(** ** The abstract view of the two identifier tables *)

(** The external identifier that holds a numeric id, if any. *)
Definition uid_holder (d : db) (uid : Z) : option string :=
  ur_external_id <$> head (filter (λ r, ur_uid r = uid) (uid_cache d)).
Definition gid_holder (d : db) (gid : Z) : option string :=
  gr_external_id <$> head (filter (λ r, gr_gid r = gid) (gid_cache d)).

(** What a prober for [ext] is told about a slot. *)
Definition owner_view (holder : option string) (ext : string) : option bool :=
  (λ owner, bool_decide (owner = ext)) <$> holder.

(** A slot a prober for [ext] may take: free, or its own. *)
Definition available (holder : option string) (ext : string) : Prop :=
  holder = None ∨ holder = Some ext.

Definition sql_failure `{Sqlite} (e : CacheError) : Prop :=
  ∃ n e', sql_fault n = Some e' ∧ e = Sqlite_error e'.

Definition no_faults `{Sqlite} : Prop := ∀ n, sql_fault n = None.

(** The outcome of a resolution against a fixed assignment of ids. *)
Definition resolution `{Sqlite} `{Murmur3} (holder : Z → option string) (ext : string)
    (min size : Z) (r : outcome CacheError Z) : Prop :=
  match r with
  | Ok c => (min ≤ c < min + size)%Z ∧ available (holder c) ext ∧
      ∃ h before after, murmur3_32 ext 0 = Some h ∧
        probe_sequence h min size = before ++ c :: after ∧
        Forall (λ c, ¬ available (holder c) ext) before
  | Err e => sql_failure e ∨
      (e = RangeExhausted ∧ ∀ c, (min ≤ c < min + size)%Z → ¬ available (holder c) ext)
  | Panic => False
  end.

Lemma owner_view_false holder ext :
  owner_view holder ext = Some false ↔ ¬ available holder ext.
Proof.
  unfold owner_view, available. destruct holder as [o|]; simpl.
  - case_bool_decide as Ho; [split; [done|]|split; [|done]].
    + intros []. right. by rewrite Ho.
    + intros _ [?|[= ?]]; done.
  - split; [done|]. intros []. by left.
Qed.

Lemma filter_eq_cases {A B} `{EqDecision B} (f : A → B) (l : list A) (v : B) :
  NoDup (f <$> l) → filter (λ x, f x = v) l = [] ∨ ∃ x, filter (λ x, f x = v) l = [x].
Proof.
  intros Hl. destruct (filter (λ x, f x = v) l) as [|x xs] eqn:Hf; [by left|right].
  assert (x ∈ filter (λ x, f x = v) l) as [<- Hx]%list_elem_of_filter by (rewrite Hf; left).
  exists x. by rewrite <-Hf, filter_unique.
Qed.

Section owners.
Context `{SqliteLaws} `{BuildProfile} `{Murmur3Laws}.

Lemma sql_failure_from d e :
  sql_fault (stmt_no d) = Some e → sql_failure (from e).
Proof. intros. by exists (stmt_no d), e. Qed.

Lemma uid_owner_wp uid ext d :
  db_wf d →
  wp (uid_owner uid ext) (λ r d', same_tables d d' ∧
    match r with
    | Ok t => t = owner_view (uid_holder d uid) ext
    | Err e => sql_failure e
    | Panic => False
    end) d.
Proof.
  intros Hd. apply wp_bind, wp_map_err, wp_query.
  - intros e He. split; [done|]. by eapply sql_failure_from.
  - intros _. unfold uid_holder, owner_view. simpl.
    destruct (filter_eq_cases ur_uid (uid_cache d) uid) as [->|[r ->]];
      [by apply Hd|csimpl; rewrite scan_order_nil|csimpl; rewrite scan_order_singleton];
      by apply wp_ret.
Qed.

Lemma gid_owner_wp gid ext d :
  db_wf d →
  wp (gid_owner gid ext) (λ r d', same_tables d d' ∧
    match r with
    | Ok t => t = owner_view (gid_holder d gid) ext
    | Err e => sql_failure e
    | Panic => False
    end) d.
Proof.
  intros Hd. apply wp_bind, wp_map_err, wp_query.
  - intros e He. split; [done|]. by eapply sql_failure_from.
  - intros _. unfold gid_holder, owner_view. simpl.
    destruct (filter_eq_cases gr_gid (gid_cache d) gid) as [->|[r ->]];
      [by apply Hd|csimpl; rewrite scan_order_nil|csimpl; rewrite scan_order_singleton];
      by apply wp_ret.
Qed.

Lemma db_wf_same_tables d d' : same_tables d d' → db_wf d → db_wf d'.
Proof. intros (E1&E2&E3) []. by split; rewrite ?E1, ?E2, ?E3. Qed.
Lemma uid_holder_same_tables d d' uid : same_tables d d' → uid_holder d' uid = uid_holder d uid.
Proof. unfold uid_holder. by intros (->&_&_). Qed.
Lemma gid_holder_same_tables d d' gid : same_tables d d' → gid_holder d' gid = gid_holder d gid.
Proof. unfold gid_holder. by intros (_&->&_). Qed.

(** The scan of [resolve_id] against lookups that report [owner_view]. *)
Lemma resolve_wp (lookup : Z → M db CacheError (option bool)) holder ext min size d :
  probe_range min size →
  (∀ c d', same_tables d d' → wp (lookup c) (λ r d'', same_tables d' d'' ∧
      match r with
      | Ok t => t = owner_view (holder c) ext | Err e => sql_failure e | Panic => False
      end) d') →
  wp (resolve_id ext min size lookup)
    (λ r d', same_tables d d' ∧ resolution holder ext min size r) d.
Proof.
  intros Hp Hl. eapply wp_mono.
  - apply (resolve_id_wp lookup (λ c, owner_view (holder c) ext) (same_tables d)
      sql_failure ext min size d Hp); [|done].
    intros c d' Hd'. eapply wp_mono; [by apply Hl|].
    intros r d'' [Hd'' Hr]. split; [by etrans|]. by destruct r.
  - intros r d' [Hd' Hr]. split; [done|]. destruct r as [c|e|]; simpl; [|..|done].
    + destruct Hr as (Hc & Hnot & h & before & after & Hh & Heq & Hall).
      split_and!; [lia|lia| |].
      * apply dec_stable. by rewrite <-owner_view_false.
      * exists h, before, after. split_and!; [done..|].
        eapply Forall_impl; [done|]. intros x. by rewrite owner_view_false.
    + destruct Hr as [|[-> Hall]]; [by left|right]. split; [done|].
      intros c Hc. rewrite <-owner_view_false. auto.
Qed.
End owners.

Section resolution_facts.
Context `{SqliteLaws} `{BuildProfile} `{Murmur3Laws}.

Lemma resolve_uid_wp ext min size d :
  db_wf d → probe_range min size →
  wp (resolve_uid ext min size)
    (λ r d', same_tables d d' ∧ resolution (uid_holder d) ext min size r) d.
Proof.
  intros Hd Hp. apply resolve_wp; [done|]. intros c d' Hd'.
  rewrite <-(uid_holder_same_tables d d') by done.
  apply uid_owner_wp. by eapply db_wf_same_tables.
Qed.

Lemma resolve_gid_wp ext min size d :
  db_wf d → probe_range min size →
  wp (resolve_gid ext min size)
    (λ r d', same_tables d d' ∧ resolution (gid_holder d) ext min size r) d.
Proof.
  intros Hd Hp. apply resolve_wp; [done|]. intros c d' Hd'.
  rewrite <-(gid_holder_same_tables d d') by done.
  apply gid_owner_wp. by eapply db_wf_same_tables.
Qed.

(** A holder is the row of the table with that id. *)
Lemma uid_holder_Some d uid ext :
  db_wf d → uid_holder d uid = Some ext ↔
    ∃ r, r ∈ uid_cache d ∧ ur_uid r = uid ∧ ur_external_id r = ext.
Proof.
  intros Hd. unfold uid_holder. split.
  - destruct (filter _ _) as [|r rs] eqn:Hf; simpl; [done|]. intros [= <-]. exists r.
    assert (r ∈ filter (λ r, ur_uid r = uid) (uid_cache d)) as [? ?]%list_elem_of_filter
      by (rewrite Hf; left). done.
  - intros (r & Hr & <- & <-). by rewrite (filter_unique ur_uid _ r) by (done || apply Hd).
Qed.

Lemma gid_holder_Some d gid ext :
  db_wf d → gid_holder d gid = Some ext ↔
    ∃ r, r ∈ gid_cache d ∧ gr_gid r = gid ∧ gr_external_id r = ext.
Proof.
  intros Hd. unfold gid_holder. split.
  - destruct (filter _ _) as [|r rs] eqn:Hf; simpl; [done|]. intros [= <-]. exists r.
    assert (r ∈ filter (λ r, gr_gid r = gid) (gid_cache d)) as [? ?]%list_elem_of_filter
      by (rewrite Hf; left). done.
  - intros (r & Hr & <- & <-). by rewrite (filter_unique gr_gid _ r) by (done || apply Hd).
Qed.

(** Storing a user at an available slot evicts nobody else's row. *)
Lemma replace_uid_row_keeps d row r :
  db_wf d → available (uid_holder d (ur_uid row)) (ur_external_id row) →
  r ∈ uid_cache d → ur_external_id r ≠ ur_external_id row →
  r ∈ uid_cache (replace_uid_row row d).
Proof.
  intros Hd Hav Hr Hne. simpl. apply elem_of_app. left.
  apply list_elem_of_filter. split; [|done]. intros [?|Huid]; [done|].
  assert (uid_holder d (ur_uid row) = Some (ur_external_id r)) as Hh
    by (apply uid_holder_Some; eauto).
  destruct Hav as [Hn|Hn]; congruence.
Qed.

Lemma replace_gid_row_keeps d row r :
  db_wf d → available (gid_holder d (gr_gid row)) (gr_external_id row) →
  r ∈ gid_cache d → gr_external_id r ≠ gr_external_id row →
  r ∈ gid_cache (replace_gid_row row d).
Proof.
  intros Hd Hav Hr Hne. simpl. apply elem_of_app. left.
  apply list_elem_of_filter. split; [|done]. intros [?|Hgid]; [done|].
  assert (gid_holder d (gr_gid row) = Some (gr_external_id r)) as Hh
    by (apply gid_holder_Some; eauto).
  destruct Hav as [Hn|Hn]; congruence.
Qed.

Lemma store_user_wp user d :
  wp (store_user user) (λ r d',
    match r with
    | Ok _ => ∃ now, now = sql_now (stmt_no d) ∧
        d' = next_stmt (replace_uid_row (user_row user now) d)
    | Err e => sql_failure e ∧ d' = next_stmt d
    | Panic => False
    end) d.
Proof.
  apply wp_map_err, wp_execute.
  - intros e He. split; [by eapply sql_failure_from|done].
  - intros _. by exists (sql_now (stmt_no d)).
Qed.

(** The holder of a slot after a store. *)
Lemma uid_holder_replace d row uid :
  db_wf d →
  uid_holder (replace_uid_row row d) uid =
    if bool_decide (ur_uid row = uid) then Some (ur_external_id row)
    else if bool_decide (uid_holder d uid = Some (ur_external_id row)) then None
    else uid_holder d uid.
Proof.
  intros Hd. assert (Hwf : db_wf (replace_uid_row row d)) by by apply db_wf_replace_uid.
  assert (Hiff : ∀ ext, uid_holder (replace_uid_row row d) uid = Some ext ↔
    (ur_uid row = uid ∧ ext = ur_external_id row) ∨
    (ur_uid row ≠ uid ∧ uid_holder d uid = Some ext ∧ ext ≠ ur_external_id row)).
  { intros ext. rewrite (uid_holder_Some _ uid ext Hwf), (uid_holder_Some _ uid ext Hd). simpl.
    setoid_rewrite elem_of_app. setoid_rewrite list_elem_of_singleton.
    setoid_rewrite list_elem_of_filter. unfold uid_clash. split.
    - intros (r & [[Hc Hr]| ->] & <- & <-); [right|by left]. split_and!; eauto.
    - intros [[<- ->]|(Hne & (r & Hr & <- & <-) & Hext)]; [by eauto|].
      exists r. split_and!; [left; split; [|done]|done..]. intros [?|?]; congruence. }
  case_bool_decide as H1'; [by apply Hiff; left|].
  case_bool_decide as H2'.
  - destruct (uid_holder (replace_uid_row row d) uid) as [e|] eqn:He; [|done].
    destruct (proj1 (Hiff e) eq_refl) as [[? ?]|(_ & ? & ?)]; congruence.
  - destruct (uid_holder d uid) as [e|] eqn:He.
    + apply Hiff. right. split_and!; [done..|congruence].
    + destruct (uid_holder (replace_uid_row row d) uid) as [e|] eqn:He'; [|done].
      destruct (proj1 (Hiff e) eq_refl) as [[? ?]|(_ & ? & ?)]; congruence.
Qed.
End resolution_facts.

Section allocation_facts.
Context `{SqliteLaws} `{BuildProfile} `{Murmur3Laws}.

(** The first available slot of a probe order is determined by its prefix. *)
Lemma first_available_unique (P : Z → Prop) (b1 b2 a1 a2 : list Z) (c1 c2 : Z) :
  b1 ++ c1 :: a1 = b2 ++ c2 :: a2 →
  P c1 → P c2 → Forall (λ c, ¬ P c) b1 → Forall (λ c, ¬ P c) b2 → c1 = c2.
Proof.
  revert b2. induction b1 as [|x b1 IH]; intros [|y b2] Heq H1' H2' Hb1 Hb2; simplify_eq/=.
  - done.
  - by apply Forall_cons in Hb2 as [? _].
  - by apply Forall_cons in Hb1 as [? _].
  - apply Forall_cons in Hb1 as [_ ?], Hb2 as [_ ?]. eauto.
Qed.

Lemma resolution_ext holder holder' ext min size r :
  (∀ c, holder' c = holder c) →
  resolution holder ext min size r → resolution holder' ext min size r.
Proof.
  intros Heq. destruct r as [c|e|]; simpl; [|by setoid_rewrite Heq|done].
  intros (? & Hav & h & b & a & ? & ? & Hb). split_and!; [lia|lia|by rewrite Heq|].
  exists h, b, a. split_and!; [done..|].
  eapply Forall_impl; [exact Hb|]. intros x. by rewrite Heq.
Qed.

Lemma resolution_uid_same d d' ext min size uid :
  same_tables d d' → resolution (uid_holder d) ext min size (Ok uid) →
  resolution (uid_holder d') ext min size (Ok uid).
Proof.
  intros Hd. apply (resolution_ext _ _ _ _ _ (Ok uid)).
  intros c. by apply uid_holder_same_tables.
Qed.

(** Slots that were taken stay taken and [uid] is now ours: probing again
    finds [uid]. *)
Lemma resolution_stable holder holder' ext min size uid r :
  resolution holder ext min size (Ok uid) →
  (∀ c, ¬ available (holder c) ext → ¬ available (holder' c) ext) →
  holder' uid = Some ext →
  resolution holder' ext min size r →
  match r with Ok uid' => uid' = uid | Err e => sql_failure e | Panic => False end.
Proof.
  intros (Hc & Hav & h & b & a & Hh & Heq & Hb) Hkeep Huid Hr.
  destruct r as [uid'|e|]; simpl in Hr; [|destruct Hr as [?|[-> Hall]]; [done|]|done].
  - destruct Hr as (Hc' & Hav' & h' & b' & a' & Hh' & Heq' & Hb').
    assert (h' = h) as -> by congruence. rewrite Heq in Heq'.
    symmetry. eapply (first_available_unique (λ c, available (holder' c) ext)); [done|..].
    + right. done.
    + done.
    + eapply Forall_impl; [exact Hb|auto].
    + done.
  - destruct (Hall uid Hc). by right.
Qed.

(** The hash slot, when it is free, is the answer. *)
Lemma resolution_first_free holder ext min size h uid :
  probe_range min size → murmur3_32 ext 0 = Some h →
  holder (min + h `mod` size)%Z = None →
  resolution holder ext min size (Ok uid) → uid = (min + h `mod` size)%Z.
Proof.
  intros Hp Hh Hfree (_ & Hav & h' & b & a & Hh' & Heq & Hb).
  assert (h' = h) as -> by congruence. unfold probe_sequence in Heq.
  rewrite seqZ_cons, fmap_cons, Z.add_0_r in Heq by (destruct Hp as [(?&?&?) ?]; lia).
  destruct b as [|x b]; simplify_eq/=; [done|].
  apply Forall_cons in Hb as [Hx _]. destruct Hx. by left.
Qed.

Lemma exists_other_slot min size c :
  (2 ≤ size → min ≤ c < min + size → ∃ c', (min ≤ c' < min + size) ∧ c' ≠ c)%Z.
Proof.
  intros. destruct (decide (c = min)) as [->|]; [exists (min + 1)%Z|exists min]; lia.
Qed.

(** A row stored at the slot its identifier resolved to. *)
Lemma stored_at_resolved d row min size uid :
  db_wf d → ur_uid row = uid →
  resolution (uid_holder d) (ur_external_id row) min size (Ok uid) →
  let d' := replace_uid_row row d in
  uid_holder d' uid = Some (ur_external_id row) ∧
  (∀ uid', uid_holder d' uid' = Some (ur_external_id row) → uid' = uid) ∧
  (∀ c, ¬ available (uid_holder d c) (ur_external_id row) →
    ¬ available (uid_holder d' c) (ur_external_id row)).
Proof.
  intros Hd Huid (_ & Hav & _) d'. subst d'. split_and!.
  - rewrite uid_holder_replace by done. by rewrite bool_decide_eq_true_2.
  - intros uid'. rewrite uid_holder_replace by done.
    case_bool_decide; [congruence|]. case_bool_decide; congruence.
  - intros c Hc. rewrite uid_holder_replace by done.
    case_bool_decide as Hu; [|case_bool_decide as Hh; [|done]].
    + intros _. apply Hc. by rewrite <-Hu, Huid.
    + intros _. apply Hc. by right.
Qed.

Lemma resolve_then_store_wp ext min size (mk : Z → User) (Q : outcome CacheError Z → db → Prop) d :
  db_wf d → probe_range min size →
  (∀ uid, user_uid (mk uid) = uid ∧ user_external_id (mk uid) = ext) →
  (∀ e d', same_tables d d' →
    sql_failure e ∨ (e = RangeExhausted ∧
      ∀ c, (min ≤ c < min + size)%Z → ¬ available (uid_holder d c) ext) → Q (Err e) d') →
  (∀ uid now d' d'', same_tables d d' → resolution (uid_holder d) ext min size (Ok uid) →
    d'' = next_stmt (replace_uid_row (user_row (mk uid) now) d') → Q (Ok uid) d'') →
  wp (let? uid := resolve_uid ext min size in store_user (mk uid) ;;? ret uid) Q d.
Proof.
  intros Hd Hp Hmk Herr Hok. apply wp_bind.
  eapply wp_mono; [by apply resolve_uid_wp|]. intros r d' [Hd' Hr].
  destruct r as [uid|e|]; [|by apply Herr|done].
  apply wp_bind. eapply wp_mono; [apply store_user_wp|].
  intros [[]|e|] d'' Hpost; [|destruct Hpost as [? ->]; apply Herr; [done|by left]|done].
  destruct Hpost as (now & _ & ->). apply wp_ret. by eapply Hok.
Qed.
End allocation_facts.


(** ** Lookups *)

(** What a cache lookup may answer: the row it found, fresh at the clock the
    query read, or the absence of any such row. *)
Definition lookup_answer {R A} (rows : list R) (key : R → Prop) (cached_at : R → Z)
    (now ttl : Z) (answer : R → A → Prop) (res : option A) : Prop :=
  match res with
  | Some a => ∃ r, r ∈ rows ∧ key r ∧ unexpired now ttl (cached_at r) ∧ answer r a
  | None => ∀ r, r ∈ rows → key r → ¬ unexpired now ttl (cached_at r)
  end.

Definition lookup_failure `{Sqlite} (ttl : Z) (e : CacheError) : Prop :=
  sql_failure e ∨ (u64_to_sql ttl = None ∧ e = Sqlite_error ToSqlConversionFailure).

(** The members the table lists for a group. *)
Definition members_of (d : db) (ext : string) : list string :=
  mr_member_name <$> filter (λ m, mr_group_external_id m = ext) (group_members_table d).

(** A group as read from its row: the columns, and the listed members in some
    order. *)
Definition group_of_row (d : db) (r : gid_row) (g : Group) : Prop :=
  group_external_id g = gr_external_id r ∧ group_name g = gr_name r ∧
  group_gid g = gr_gid r ∧ group_members g ≡ₚ members_of d (gr_external_id r).

Section lookup_facts.
Context `{SqliteLaws}.

Lemma bind_u64_wp ttl (Q : outcome sqlite_error Z → db → Prop) d :
  (∀ t, u64_to_sql ttl = Some t → Q (Ok t) d) →
  (u64_to_sql ttl = None → Q (Err ToSqlConversionFailure) d) →
  wp (bind_u64 ttl) Q d.
Proof. unfold bind_u64. destruct (u64_to_sql ttl); intros Hok Herr; [by apply wp_ret, Hok|by apply Herr]. Qed.

Lemma head_answer {R A} (rows : list R) (P : R → Prop) `{∀ r, Decision (P r)} (f : R → A) n :
  match head (scan_order n (f <$> filter P rows)) with
  | Some a => ∃ r, r ∈ rows ∧ P r ∧ f r = a
  | None => ∀ r, r ∈ rows → ¬ P r
  end.
Proof.
  destruct (scan_order n _) as [|a l] eqn:Hs; simpl.
  - apply scan_order_empty in Hs. intros r Hr HP.
    assert (f r ∈ f <$> filter P rows) as Hin
      by (apply list_elem_of_fmap_2; by apply list_elem_of_filter).
    rewrite Hs in Hin. by apply not_elem_of_nil in Hin.
  - assert (a ∈ f <$> filter P rows) as (r & -> & [? ?]%list_elem_of_filter)%list_elem_of_fmap
      by (rewrite <-(scan_order_elem n), Hs; left). eauto.
Qed.

(** The shape the four lookups share: bind the ttl, query, take the head. *)
Lemma lookup_wp {R A} (c : Cache) (table : db → list R) (key : R → Prop) (cached_at : R → Z)
    `{∀ r, Decision (key r)} (f : R → A) (k : option A → M db CacheError (option A))
    (Q : outcome CacheError (option A) → db → Prop) d :
  (∀ d', same_tables d d' → table d' = table d) →
  (∀ e d', same_tables d d' → lookup_failure (ttl_seconds c) e → Q (Err e) d') →
  (∀ ttl res d', u64_to_sql (ttl_seconds c) = Some ttl → same_tables d d' →
    lookup_answer (table d) key cached_at (sql_now (stmt_no d)) ttl (λ r a, f r = a) res →
    wp (k res) Q d') →
  wp (let? ttl := map_err from (bind_u64 (ttl_seconds c)) in
      let? rows := map_err from (query (λ now d, f <$>
        filter (λ r, key r ∧ unexpired now ttl (cached_at r)) (table d))) in
      k (head rows)) Q d.
Proof.
  intros Ht Herr Hok. apply wp_bind, wp_map_err, bind_u64_wp.
  - intros ttl Httl. apply wp_bind, wp_map_err, wp_query.
    + intros e He. apply Herr; [done|]. left. by eapply sql_failure_from.
    + intros _. apply (Hok ttl); [done..|]. rewrite (Ht (next_stmt d)) by done.
      pose proof (head_answer (table d)
        (λ r, key r ∧ unexpired (sql_now (stmt_no d)) ttl (cached_at r)) f (stmt_no d)) as Hh.
      destruct (head _) as [a|]; simpl.
      * destruct Hh as (r & ? & [? ?] & ?). eauto 10.
      * intros r Hr Hk Hf. by apply (Hh r).
  - intros Hn. apply Herr; [done|]. by right.
Qed.

Lemma get_user_by_uid_wp c uid d :
  wp (get_user_by_uid c uid) (λ r d', same_tables d d' ∧
    match r with
    | Ok res => ∃ ttl, u64_to_sql (ttl_seconds c) = Some ttl ∧
        lookup_answer (uid_cache d) (λ r, ur_uid r = uid) ur_cached_at
          (sql_now (stmt_no d)) ttl (λ r u, row_user r = u) res
    | Err e => lookup_failure (ttl_seconds c) e
    | Panic => False
    end) d.
Proof.
  apply (lookup_wp c uid_cache (λ r, ur_uid r = uid) ur_cached_at row_user ret).
  - by intros d' (-> & _).
  - done.
  - intros ttl res d' ? ? ?. apply wp_ret. eauto.
Qed.

Lemma get_user_by_name_wp c name d :
  wp (get_user_by_name c name) (λ r d', same_tables d d' ∧
    match r with
    | Ok res => ∃ ttl, u64_to_sql (ttl_seconds c) = Some ttl ∧
        lookup_answer (uid_cache d) (λ r, ur_login r = name) ur_cached_at
          (sql_now (stmt_no d)) ttl (λ r u, row_user r = u) res
    | Err e => lookup_failure (ttl_seconds c) e
    | Panic => False
    end) d.
Proof.
  apply (lookup_wp c uid_cache (λ r, ur_login r = name) ur_cached_at row_user ret).
  - by intros d' (-> & _).
  - done.
  - intros ttl res d' ? ? ?. apply wp_ret. eauto.
Qed.

Lemma get_group_members_wp ext d :
  wp (get_group_members ext) (λ r d', same_tables d d' ∧
    match r with
    | Ok members => members ≡ₚ members_of d ext
    | Err e => sql_failure e
    | Panic => False
    end) d.
Proof.
  apply wp_map_err, wp_query.
  - intros e He. split; [done|]. by eapply sql_failure_from.
  - intros _. split; [done|]. apply scan_order_perm.
Qed.

Lemma members_of_same_tables d d' ext : same_tables d d' → members_of d' ext = members_of d ext.
Proof. unfold members_of. by intros (_&_&->). Qed.

Lemma load_members_wp r d :
  wp (load_members (row_group r)) (λ res d', same_tables d d' ∧
    match res with
    | Ok g => group_of_row d r g
    | Err e => sql_failure e
    | Panic => False
    end) d.
Proof.
  apply wp_bind. eapply wp_mono; [apply get_group_members_wp|].
  intros [members|e|] d' [Hd' Hr]; [|done|done]. by apply wp_ret.
Qed.

(** What a group lookup by [key] returns. *)
Definition group_lookup_post (c : Cache) (key : gid_row → Prop) (d : db)
    : outcome CacheError (option Group) → db → Prop := λ r d', same_tables d d' ∧
  match r with
  | Ok res => ∃ ttl, u64_to_sql (ttl_seconds c) = Some ttl ∧
      lookup_answer (gid_cache d) key gr_cached_at (sql_now (stmt_no d)) ttl
        (group_of_row d) res
  | Err e => lookup_failure (ttl_seconds c) e
  | Panic => False
  end.

Lemma group_lookup_wp c (key : gid_row → Prop) `{∀ r, Decision (key r)} d :
  wp (let? ttl := map_err from (bind_u64 (ttl_seconds c)) in
      let? rows := map_err from (query (λ now d, row_group <$>
        filter (λ r, key r ∧ unexpired now ttl (gr_cached_at r)) (gid_cache d))) in
      match head rows with
      | Some group => let? group := load_members group in ret (Some group)
      | None => ret None
      end) (group_lookup_post c key d) d.
Proof.
  apply (lookup_wp c gid_cache key gr_cached_at row_group (λ res,
    match res with
    | Some group => let? group := load_members group in ret (Some group)
    | None => ret None
    end)).
  - by intros d' (_ & -> & _).
  - done.
  - intros ttl [g|] d' Httl Hd' Hres; [|apply wp_ret; split; eauto].
    destruct Hres as (r & Hr & Hk & Hf & <-). apply wp_bind.
    eapply wp_mono; [apply load_members_wp|]. intros [g|e|] d2 [Hd2 Hg]; [| |done].
    + apply wp_ret. split; [by etrans|]. exists ttl. split; [done|]. exists r.
      split_and!; [done..|]. unfold group_of_row in *.
      by rewrite (members_of_same_tables d d') in Hg.
    + split; [by etrans|by left].
Qed.

Lemma get_group_by_gid_wp c gid d :
  wp (get_group_by_gid c gid) (group_lookup_post c (λ r, gr_gid r = gid) d) d.
Proof. apply (group_lookup_wp c (λ r, gr_gid r = gid)). Qed.

Lemma get_group_by_name_wp c name d :
  wp (get_group_by_name c name) (group_lookup_post c (λ r, gr_name r = name) d) d.
Proof. apply (group_lookup_wp c (λ r, gr_name r = name)). Qed.

(** Running [load_members] over the rows of a query. *)
Lemma collect_members_wp rs d :
  wp (collect (row_group <$> rs) load_members) (λ r d', same_tables d d' ∧
    match r with
    | Ok gs => Forall2 (group_of_row d) rs gs
    | Err e => sql_failure e
    | Panic => False
    end) d.
Proof.
  revert d. induction rs as [|r rs IH]; intros d; simpl; [by apply wp_ret|].
  apply wp_bind. eapply wp_mono; [apply load_members_wp|].
  intros [g|e|] d' [Hd' Hg]; [|done|done].
  apply wp_bind. eapply wp_mono; [apply IH|].
  intros [gs|e|] d2 [Hd2 Hgs]; [|by split; [etrans|]|done].
  apply wp_ret. split; [by etrans|]. constructor; [done|].
  eapply Forall2_impl; [exact Hgs|]. intros x y. unfold group_of_row.
  by rewrite (members_of_same_tables d d').
Qed.
End lookup_facts.

(** ** Storing groups *)

(** The clock moves by less than the ttl while the statements run. *)
Definition within_ttl `{Sqlite} (ttl : Z) : Prop :=
  ∀ n m, unexpired (sql_now m) ttl (sql_now n).

Section store_group_facts.
Context `{SqliteLaws}.

Lemma wp_statement_ok (Hnf : no_faults) {A} (body : Z → db → outcome sqlite_error A * db)
    (Q : outcome sqlite_error A → db → Prop) d :
  Q (body (sql_now (stmt_no d)) (next_stmt d)).1 (body (sql_now (stmt_no d)) (next_stmt d)).2 →
  wp (statement body) Q d.
Proof. intros HQ. apply wp_statement; [by rewrite Hnf|done]. Qed.

Lemma insert_member_cases ext x d :
  db_wf d → ext ∈ gr_external_id <$> gid_cache d →
  wp (insert_member (mk_member_row ext x)) (λ r d', db_wf d' ∧ stmt_no d' = S (stmt_no d) ∧
    match r with
    | Ok _ => ¬ (mk_member_row ext x ∈ group_members_table d) ∧
        d' = next_stmt (set_group_members (group_members_table d ++ [mk_member_row ext x]) d)
    | Err e => d' = next_stmt d ∧ (sql_fault (stmt_no d) = Some e ∨
        ((mk_member_row ext x ∈ group_members_table d) ∧ e = ConstraintViolation))
    | Panic => False
    end) d.
Proof.
  intros Hd Hext. pose proof (preserves_insert_member (mk_member_row ext x) d Hd) as Hwf. revert Hwf.
  unfold insert_member, statement, wp. destruct (sql_fault (stmt_no d)) as [e|]; [by cbn; auto|].
  cbn [group_members_table gid_cache next_stmt mr_group_external_id].
  case_bool_decide; [by cbn; auto 10|].
  rewrite (bool_decide_eq_false_2 (ext ∉ _)) by (intros Hn; by apply Hn).
  rewrite andb_false_r. by cbn.
Qed.

Lemma members_of_elem d ext x :
  x ∈ members_of d ext ↔ mk_member_row ext x ∈ group_members_table d.
Proof.
  unfold members_of. rewrite list_elem_of_fmap. setoid_rewrite list_elem_of_filter. split.
  - intros ([e y] & Hy & He & Hm). simpl in *. by subst.
  - intros ?. by exists (mk_member_row ext x).
Qed.

Lemma members_of_app d d' m :
  group_members_table d' = group_members_table d ++ [m] →
  ∀ ext, members_of d' ext = members_of d ext ++
    (if bool_decide (mr_group_external_id m = ext) then [mr_member_name m] else []).
Proof.
  intros Heq ext. unfold members_of. rewrite Heq, filter_app, fmap_app. f_equal.
  case_bool_decide; [by rewrite filter_cons_True|by rewrite filter_cons_False].
Qed.

(** The loop over the members inserts their rows until a statement fails or a name
    comes again. *)
Definition members_inserted (ext : string) (before rest : list string) (d : db)
    (r : outcome CacheError ()) (d' : db) : Prop :=
  db_wf d' ∧ uid_cache d' = uid_cache d ∧ gid_cache d' = gid_cache d ∧
  (∀ ext', ext' ≠ ext → members_of d' ext' = members_of d ext') ∧
  ((NoDup (before ++ rest) ∧ r = Ok tt ∧ members_of d' ext = before ++ rest) ∨
   (∃ e pre x post, rest = pre ++ x :: post ∧ NoDup (before ++ pre) ∧
      (sql_failure e ∨ (x ∈ before ++ pre ∧ e = Sqlite_error ConstraintViolation)) ∧
      r = Err e ∧ members_of d' ext = before ++ pre)).

Lemma insert_members_wp ext before rest d :
  db_wf d → ext ∈ gr_external_id <$> gid_cache d →
  members_of d ext = before → NoDup before →
  wp (for_each rest (λ member, map_err from (insert_member (mk_member_row ext member))))
    (members_inserted ext before rest d) d.
Proof.
  revert before d. induction rest as [|x rest IH]; intros before d Hd Hext Hbefore Hnd.
  { apply wp_ret. unfold members_inserted. rewrite app_nil_r. auto 10. }
  simpl. apply wp_bind, wp_map_err. eapply wp_mono; [by apply insert_member_cases|].
  intros [[]|e|] d1 (Hd1 & _ & Hr); [| |done]; cbn [and_then].
  - destruct Hr as [Hin ->]. rewrite <-members_of_elem, Hbefore in Hin.
    set (d1 := next_stmt _) in *.
    pose proof (members_of_app d d1 (mk_member_row ext x) eq_refl) as Hm1. simpl in Hm1.
    eapply wp_mono; [apply (IH (before ++ [x])); try done|].
    + by rewrite Hm1, Hbefore, bool_decide_eq_true_2.
    + apply NoDup_app. split_and!; [done| |apply NoDup_singleton].
      by intros y Hy ->%list_elem_of_singleton.
    + intros r d' (Hwf' & Hu & Hg & Hother & Hres). split_and!; [done..| |].
      * intros ext' Hne. rewrite Hother, Hm1 by done.
        by rewrite bool_decide_eq_false_2, app_nil_r by congruence.
      * rewrite <-app_assoc in Hres. destruct Hres as [?|(e & pre & y & post & -> & Hp)].
        -- by left.
        -- right. exists e, (x :: pre), y, post. by rewrite <-app_assoc in Hp.
  - destruct Hr as [-> Hr]. split_and!; [done..|].
    right. exists (from e), [], x, rest. rewrite app_nil_r. split_and!; [done..| |done|done].
    destruct Hr as [Hf|[Hin ->]]; [left; by eapply sql_failure_from|right].
    rewrite <-Hbefore. split; [by apply members_of_elem|done].
Qed.

Lemma members_of_delete ext (d : db) :
  let d' := set_group_members
    (filter (λ m, mr_group_external_id m ≠ ext) (group_members_table d)) d in
  ∀ ext', members_of d' ext' = if bool_decide (ext' = ext) then [] else members_of d ext'.
Proof.
  intros d' ext'. unfold members_of, d'.
  case_bool_decide as He; cbn [group_members_table set_group_members].
  - destruct (filter _ (filter _ _)) as [|m ms] eqn:Hf; [done|].
    assert (m ∈ m :: ms) as Hm by left. rewrite <-Hf in Hm.
    rewrite !list_elem_of_filter in Hm. destruct Hm as (?&?&_). congruence.
  - rewrite list_filter_filter. f_equal. apply list_filter_iff.
    intros m. split; [by intros []|]. intros <-. done.
Qed.

(** [ON DELETE CASCADE] leaves the members of the groups that stay. *)
Lemma members_of_cascade deleted (d : db) ext :
  ext ∉ gr_external_id <$> deleted →
  members_of (set_group_members (cascade deleted (group_members_table d)) d) ext =
    members_of d ext.
Proof.
  intros Hext. unfold members_of, cascade. simpl. destruct foreign_keys; [|done].
  rewrite list_filter_filter. f_equal. apply list_filter_iff.
  intros m. split; [by intros []|]. intros <-. done.
Qed.

(** The group's own members go with the row that is replaced, where foreign keys
    are enforced. *)
Lemma members_of_replaced row d :
  db_wf d → members_of (replace_gid_row row d) (gr_external_id row) =
    if foreign_keys then [] else members_of d (gr_external_id row).
Proof.
  intros Hd. unfold members_of, replace_gid_row, delete_gid_rows, cascade. simpl.
  pose proof (wf_references d Hd) as Href. destruct foreign_keys; [|done].
  rewrite list_filter_filter. assert (∀ l : list member_row, (∀ m, m ∈ l → False) → l = []) as Hnil.
  { intros [|m l] Hl; [done|]. destruct (Hl m). by left. }
  rewrite (Hnil (filter _ _)); [done|]. intros m [[Hm Hnot] Hin]%list_elem_of_filter.
  specialize (Href eq_refl m Hin). apply list_elem_of_fmap in Href as (r & Heq & Hr).
  apply Hnot, list_elem_of_fmap. exists r. split; [done|]. apply list_elem_of_filter.
  split; [left; congruence|done].
Qed.

(** What a store of a group leaves behind, by how far it got: nothing; the row of
    the group, with no member of it where foreign keys are enforced; or its row and
    the members up to the failure. *)
Definition group_store_answer (g : Group) (d : db) (r : outcome CacheError ()) (d' : db) : Prop :=
  db_wf d' ∧ uid_cache d' = uid_cache d ∧
  ((∃ e, r = Err e ∧ sql_failure e ∧ same_tables d d') ∨
   (gid_cache d' = gid_cache (replace_gid_row (group_row g (sql_now (stmt_no d))) d) ∧
    (∀ row, row ∈ gid_cache d → ¬ gid_clash (group_row g 0) row →
      members_of d' (gr_external_id row) = members_of d (gr_external_id row)) ∧
    ((∃ e, r = Err e ∧ sql_failure e ∧ members_of d' (group_external_id g) =
        if foreign_keys then [] else members_of d (group_external_id g)) ∨
     (NoDup (group_members g) ∧ r = Ok tt ∧
        members_of d' (group_external_id g) = group_members g) ∨
     (∃ e pre x post, group_members g = pre ++ x :: post ∧ NoDup pre ∧
        (sql_failure e ∨ (x ∈ pre ∧ e = Sqlite_error ConstraintViolation)) ∧
        r = Err e ∧ members_of d' (group_external_id g) = pre)))).

Lemma store_group_cases g d : db_wf d → wp (store_group g) (group_store_answer g d) d.
Proof.
  intros Hd. unfold store_group. set (now := sql_now (stmt_no d)).
  apply wp_bind, wp_map_err, wp_execute.
  { intros e He. split_and!; [by apply db_wf_next|done|]. left. exists (from e).
    split_and!; [done|by eapply sql_failure_from|done]. }
  intros _. cbn [and_then]. fold now. set (d1 := replace_gid_row (group_row g now) (next_stmt d)).
  assert (db_wf d1) as Hd1 by by apply db_wf_replace_gid, db_wf_next.
  assert (∀ row, row ∈ gid_cache d → ¬ gid_clash (group_row g 0) row →
    gr_external_id row ≠ group_external_id g ∧
    members_of d1 (gr_external_id row) = members_of d (gr_external_id row)) as Hothers.
  { intros row Hrow Hc. split; [intros Heq; apply Hc; by left|].
    etrans; [apply (members_of_cascade _ (next_stmt d))|done].
    rewrite list_elem_of_fmap. intros (row' & Heq & [Hc' Hrow']%list_elem_of_filter).
    assert (row = row') as <-; [|done]. by eapply (NoDup_fmap_inj gr_external_id); [apply Hd|..]. }
  apply wp_bind, wp_map_err, wp_execute.
  { intros e He. split_and!; [by apply db_wf_next|done|]. right.
    split_and!; [done|intros row Hrow Hc; by apply Hothers|]. left. exists (from e).
    split_and!; [done|by eapply sql_failure_from|].
    exact (members_of_replaced (group_row g now) (next_stmt d) (db_wf_next d Hd)). }
  intros _. cbn [and_then]. set (d2 := set_group_members _ (next_stmt d1)).
  pose proof (members_of_delete (group_external_id g) (next_stmt d1)) as Hm2. cbv zeta in Hm2. fold d2 in Hm2.
  eapply wp_mono; [apply (insert_members_wp (group_external_id g) [] (group_members g) d2)|].
  - by apply db_wf_filter_members, db_wf_next.
  - simpl. rewrite fmap_app. apply elem_of_app. right. by left.
  - by rewrite Hm2, bool_decide_eq_true_2.
  - apply NoDup_nil_2.
  - intros r d' (Hwf' & Hu & Hg & Hother & Hres). split_and!; [done..|]. right.
    split_and!; [done| |by right]. intros row Hrow Hc.
    destruct (Hothers row Hrow Hc) as [Hne Hm]. by rewrite Hother, Hm2, bool_decide_eq_false_2.
Qed.

(** Where no statement fails. *)
Definition group_stored (g : Group) (d : db) (r : outcome CacheError ()) (d' : db) : Prop :=
  db_wf d' ∧ uid_cache d' = uid_cache d ∧
  (∃ now, gid_cache d' = gid_cache (replace_gid_row (group_row g now) d) ∧
    now = sql_now (stmt_no d)) ∧
  (∀ row, row ∈ gid_cache d → ¬ gid_clash (group_row g 0) row →
    members_of d' (gr_external_id row) = members_of d (gr_external_id row)) ∧
  ((NoDup (group_members g) ∧ r = Ok tt ∧
      members_of d' (group_external_id g) = group_members g) ∨
   (∃ pre x post, group_members g = pre ++ x :: post ∧ NoDup pre ∧ x ∈ pre ∧
      r = Err (Sqlite_error ConstraintViolation) ∧
      members_of d' (group_external_id g) = pre)).

Lemma store_group_wp (Hnf : no_faults) g d : db_wf d → wp (store_group g) (group_stored g d) d.
Proof.
  assert (∀ e, ¬ sql_failure e) as Hno by (intros e (n & e' & He & _); by rewrite Hnf in He).
  intros Hd. eapply wp_mono; [by apply store_group_cases|]. intros r d' (Hwf & Hu & Hr).
  destruct Hr as [(e & _ & []%Hno & _)|(Hg & Hothers & Hr)].
  split_and!; [done|done|by eexists|done|].
  destruct Hr as [(e & _ & []%Hno & _)|[Hr|(e & pre & x & post & Heq & Hnd & He & -> & Hm)]]; [by left|].
  right. destruct He as [[]%Hno|[Hx ->]]. by exists pre, x, post.
Qed.

(** A stored group holds its gid. *)
Lemma stored_group_holder g d r d' :
  group_stored g d r d' → gid_holder d' (group_gid g) = Some (group_external_id g).
Proof.
  intros (Hwf & _ & (now & Hg & _) & _). apply gid_holder_Some; [done|].
  exists (group_row g now). split; [|done]. rewrite Hg. simpl. apply elem_of_app. right. by left.
Qed.
End store_group_facts.

(** ** Purging and the member join *)

Section purge_facts.
Context `{SqliteLaws}.

(** What the three deletions leave, with the clocks they read. *)
Definition purged (ttl now0 now1 now2 : Z) (d d' : db) : Prop :=
  uid_cache d' = filter (λ r, unexpired now2 ttl (ur_cached_at r)) (uid_cache d) ∧
  gid_cache d' = filter (λ r, unexpired now1 ttl (gr_cached_at r)) (gid_cache d) ∧
  (∀ m, m ∈ group_members_table d' ↔ m ∈ group_members_table d ∧
    (∀ r, r ∈ gid_cache d → gr_external_id r = mr_group_external_id m →
      unexpired now0 ttl (gr_cached_at r) ∧
      (foreign_keys = true → unexpired now1 ttl (gr_cached_at r)))).

Lemma purge_expired_wp (Hnf : no_faults) ttl d :
  (0 ≤ ttl < 2 ^ 63)%Z →
  wp (purge_expired ttl) (λ r d', r = Ok tt ∧
    purged ttl (sql_now (stmt_no d)) (sql_now (S (stmt_no d))) (sql_now (S (S (stmt_no d)))) d d') d.
Proof.
  intros Httl. unfold purge_expired.
  assert (Hb : bind_u64 (S:=db) ttl = ret ttl) by (unfold bind_u64; by rewrite u64_to_sql_fits).
  rewrite Hb. change (map_err from (ret ttl)) with (@ret db CacheError Z ttl).
  cbn [bind]. rewrite bind_ret_l.
  apply wp_bind, wp_map_err, (wp_statement_ok Hnf). cbn [fst snd].
  cbn [and_then]. rewrite bind_ret_l.
  apply wp_bind, wp_map_err, (wp_statement_ok Hnf). cbn [fst snd].
  cbn [and_then]. rewrite bind_ret_l.
  apply wp_map_err, (wp_statement_ok Hnf). cbn [fst snd]. split; [done|].
  split_and!; cbn [uid_cache gid_cache group_members_table set_uid_cache next_stmt
    delete_gid_rows set_group_members set_gid_cache stmt_no].
  - done.
  - apply list_filter_iff. intros r. split; [apply dec_stable|auto].
  - intros m.
    assert (Hex : ∀ now, mr_group_external_id m ∉ gr_external_id <$>
        filter (λ r, ¬ unexpired now ttl (gr_cached_at r)) (gid_cache d) ↔
      ∀ r, r ∈ gid_cache d → gr_external_id r = mr_group_external_id m →
        unexpired now ttl (gr_cached_at r)).
    { intros now. rewrite list_elem_of_fmap. setoid_rewrite list_elem_of_filter. split.
      - intros Hn r Hr Heq. apply dec_stable. intros Hu. apply Hn. by exists r.
      - intros Hall (r & Heq & Hu & Hr). by apply Hu, Hall. }
    unfold cascade. destruct foreign_keys; rewrite !list_elem_of_filter, !Hex; clear.
    + split.
      * intros (H1' & H0' & Hm). split; [done|]. intros r Hr Heq. split; [|intros _]; auto.
      * intros (Hm & Hall). split_and!; [|by intros r Hr Heq; apply Hall|done].
        intros r Hr Heq. by apply Hall.
    + split.
      * intros (H0' & Hm). split; [done|]. intros r Hr Heq. split; [auto|done].
      * intros (Hm & Hall). split; [|done]. intros r Hr Heq. by apply Hall.
Qed.

(** The join lists each fresh group of the member once. *)
Lemma join_member_filter name now ttl d :
  NoDup (group_members_table d) →
  join_member name now ttl d =
    filter (λ g, mk_member_row (gr_external_id g) name ∈ group_members_table d ∧
      unexpired now ttl (gr_cached_at g)) (gid_cache d).
Proof.
  intros Hnd. unfold join_member. induction (gid_cache d) as [|g gs IH]; [done|].
  rewrite bind_cons, IH, filter_cons. clear IH. case_decide as Hc.
  - destruct Hc as [Hin Hf].
    replace (filter _ (group_members_table d)) with [mk_member_row (gr_external_id g) name]; [done|].
    rewrite <-(filter_unique id (group_members_table d) (mk_member_row (gr_external_id g) name))
      by (by rewrite ?list_fmap_id).
    apply list_filter_iff. intros [e n]. simpl. split; [by intros [= -> ->]|by intros (->&->&_)].
  - replace (filter _ (group_members_table d)) with (@nil member_row); [done|].
    destruct (filter _ (group_members_table d)) as [|[e n] ms] eqn:Hf; [done|].
    assert (mk_member_row e n ∈ mk_member_row e n :: ms) as Hm by left. rewrite <-Hf in Hm.
    apply list_elem_of_filter in Hm as [(?&?&?) ?]. simpl in *. subst. by destruct Hc.
Qed.

Lemma get_groups_for_member_wp c name d :
  db_wf d →
  wp (get_groups_for_member c name) (λ r d', same_tables d d' ∧
    match r with
    | Ok gs => ∃ ttl rs, u64_to_sql (ttl_seconds c) = Some ttl ∧
        Forall2 (group_of_row d) rs gs ∧
        rs ≡ₚ filter (λ g, mk_member_row (gr_external_id g) name ∈ group_members_table d ∧
          unexpired (sql_now (stmt_no d)) ttl (gr_cached_at g)) (gid_cache d)
    | Err e => lookup_failure (ttl_seconds c) e
    | Panic => False
    end) d.
Proof.
  intros Hd. apply wp_bind, wp_map_err, bind_u64_wp; [|intros Hn; split; [done|by right]].
  intros ttl Httl. apply wp_bind, wp_map_err, wp_query.
  { intros e He. split; [done|]. left. by eapply sql_failure_from. }
  intros _. cbv beta iota delta [and_then].
  set (rows := scan_order (stmt_no d) _).
  assert (∃ rs, rows = (row_group <$> rs) ∧
    rs ≡ₚ join_member name (sql_now (stmt_no d)) ttl (next_stmt d)) as (rs & -> & Hrs).
  { destruct (Permutation_map_inv row_group _ (scan_order_perm _ (stmt_no d)
      (row_group <$> join_member name (sql_now (stmt_no d)) ttl (next_stmt d))))
      as (rs & Heq & Hp). by exists rs. }
  eapply wp_mono; [apply collect_members_wp|].
  intros [gs|e|] d' [Hd' Hgs]; [|split; [by etrans|by left]|done].
  split; [by etrans|]. exists ttl, rs. split_and!; [done| |].
  - eapply Forall2_impl; [exact Hgs|]. done.
  - rewrite Hrs, join_member_filter; [done|]. apply Hd.
Qed.
End purge_facts.

(** The first repetition in a list is determined. *)
Lemma repetition_not_before {A} (p1 p2 : list A) (x1 x2 : A) (q1 q2 : list A) :
  p1 ++ x1 :: q1 = p2 ++ x2 :: q2 → NoDup p2 → x1 ∈ p1 → length p2 ≤ length p1.
Proof.
  intros Heq Hnd Hx. destruct (decide (length p2 ≤ length p1)); [done|exfalso].
  apply (f_equal (take (S (length p1)))) in Heq.
  rewrite take_app_ge in Heq by lia. replace (S (length p1) - length p1) with 1 in Heq by lia.
  rewrite (take_app_le p2) in Heq by lia.
  rewrite <-(take_drop (S (length p1)) p2), <-Heq in Hnd.
  apply NoDup_app in Hnd as (Hnd & _ & _). apply NoDup_app in Hnd as (_ & Hdis & _).
  destruct (Hdis x1 Hx). by left.
Qed.

Lemma first_repetition_unique {A} (p1 p2 : list A) (x1 x2 : A) (q1 q2 : list A) :
  p1 ++ x1 :: q1 = p2 ++ x2 :: q2 → NoDup p1 → NoDup p2 → x1 ∈ p1 → x2 ∈ p2 → p1 = p2.
Proof.
  intros Heq Hn1 Hn2 H1' H2'. apply (app_inj_1 _ _ _ _) in Heq as [? _]; [done|].
  apply Nat.le_antisymm; eapply repetition_not_before; eauto.
Qed.

(** ** The operations keep the schema's constraints *)

Section invariant_facts.
Context `{SqliteLaws} `{BuildProfile} `{Murmur3Laws}.

Lemma preserves_narrow {S E} (I : S → Prop) w z : preserves I (narrow (S:=S) (E:=E) w z).
Proof. unfold narrow. preserve. Qed.

Lemma preserves_probe (I : db → Prop) (is_taken : Z → M db CacheError (option bool))
    base min size n o :
  (∀ c, preserves I (is_taken c)) → preserves I (probe is_taken base min size n o).
Proof.
  intros Ht. revert o. induction n as [|n IH]; intros o; simpl; [apply preserves_throw|].
  apply preserves_bind; [apply preserves_narrow|intros d].
  apply preserves_bind; [apply preserves_narrow|intros p].
  apply preserves_bind; [unfold u32_rem; preserve|intros r].
  apply preserves_bind; [apply preserves_narrow|intros c].
  apply preserves_bind; [apply Ht|intros [[]|]]; first [apply preserves_ret|apply IH].
Qed.

Lemma preserves_resolve_id (I : db → Prop) (is_taken : Z → M db CacheError (option bool))
    ext min size :
  (∀ c, preserves I (is_taken c)) → preserves I (resolve_id ext min size is_taken).
Proof.
  intros Ht. unfold resolve_id, id_to_uid. apply preserves_bind.
  - destruct (murmur3_32 ext 0); [|apply preserves_panic].
    apply preserves_bind; [unfold u32_rem; preserve|intros; apply preserves_narrow].
  - intros base. by apply preserves_probe.
Qed.

(** A reading call keeps any invariant that ignores the statement counter. *)
Lemma preserves_uid_owner uid ext : preserves db_wf (uid_owner uid ext).
Proof. unfold uid_owner. preserve. Qed.
Lemma preserves_gid_owner gid ext : preserves db_wf (gid_owner gid ext).
Proof. unfold gid_owner. preserve. Qed.
Lemma preserves_resolve_uid ext min size : preserves db_wf (resolve_uid ext min size).
Proof. apply preserves_resolve_id. intros. apply preserves_uid_owner. Qed.
Lemma preserves_resolve_gid ext min size : preserves db_wf (resolve_gid ext min size).
Proof. apply preserves_resolve_id. intros. apply preserves_gid_owner. Qed.
Lemma preserves_store_user user : preserves db_wf (store_user user).
Proof. unfold store_user. preserve. Qed.
Lemma preserves_get_user_by_uid c uid : preserves db_wf (get_user_by_uid c uid).
Proof. unfold get_user_by_uid. preserve. Qed.
Lemma preserves_get_user_by_name c name : preserves db_wf (get_user_by_name c name).
Proof. unfold get_user_by_name. preserve. Qed.
Lemma preserves_load_members group : preserves db_wf (load_members group).
Proof. unfold load_members, get_group_members. preserve. Qed.
Lemma preserves_store_group group : preserves db_wf (store_group group).
Proof. unfold store_group. preserve. Qed.
#[local] Hint Resolve preserves_load_members : rust_inv.
Lemma preserves_get_group_by_gid c gid : preserves db_wf (get_group_by_gid c gid).
Proof. unfold get_group_by_gid. preserve. Qed.
Lemma preserves_get_group_by_name c name : preserves db_wf (get_group_by_name c name).
Proof. unfold get_group_by_name. preserve. Qed.
Lemma preserves_purge_expired ttl : preserves db_wf (purge_expired ttl).
Proof. unfold purge_expired. preserve. Qed.
Lemma preserves_get_groups_for_member c name : preserves db_wf (get_groups_for_member c name).
Proof. unfold get_groups_for_member. preserve. Qed.
End invariant_facts.

#[export] Hint Resolve preserves_resolve_uid preserves_resolve_gid preserves_store_user
  preserves_get_user_by_uid preserves_get_user_by_name preserves_store_group
  preserves_get_group_by_gid preserves_get_group_by_name preserves_purge_expired
  preserves_get_groups_for_member : rust_inv.

(** ** The operations do not panic *)

Section safety_facts.
Context `{SqliteLaws} `{BuildProfile} `{Murmur3Laws}.

Lemma safe_query {A} (select : Z → db → list A) : safe db_wf (query select).
Proof.
  apply safe_of_preserves; [apply preserves_query, db_wf_next|].
  intros d. unfold query, statement. by destruct (sql_fault _).
Qed.
Lemma safe_execute (write : Z → db → db) :
  (∀ now d, db_wf d → db_wf (write now d)) → safe db_wf (execute write).
Proof.
  intros Hw. apply safe_of_preserves; [by apply preserves_execute; [apply db_wf_next|]|].
  intros d. unfold execute, statement. by destruct (sql_fault _).
Qed.
Lemma safe_insert_member m : safe db_wf (insert_member m).
Proof.
  apply safe_of_preserves; [apply preserves_insert_member|].
  intros d. unfold insert_member, statement. destruct (sql_fault _); [done|].
  by repeat case_match.
Qed.
Lemma safe_bind_u64 n : safe db_wf (bind_u64 n).
Proof. unfold bind_u64. destruct (u64_to_sql n); [apply safe_ret|apply safe_throw]. Qed.
#[local] Hint Resolve safe_query safe_execute safe_insert_member safe_bind_u64 : rust_safe.
#[local] Hint Resolve db_wf_replace_uid db_wf_replace_gid db_wf_filter_members db_wf_filter_uid
  db_wf_delete_gid : rust_safe.

Lemma safe_resolve_uid ext min size : probe_range min size → safe db_wf (resolve_uid ext min size).
Proof.
  intros Hp. eapply safe_of_wp; [intros d Hd; by apply resolve_uid_wp|].
  intros d r d' Hd [Hs Hr]. split; [by eapply db_wf_same_tables|]. by intros ->.
Qed.
Lemma safe_resolve_gid ext min size : probe_range min size → safe db_wf (resolve_gid ext min size).
Proof.
  intros Hp. eapply safe_of_wp; [intros d Hd; by apply resolve_gid_wp|].
  intros d r d' Hd [Hs Hr]. split; [by eapply db_wf_same_tables|]. by intros ->.
Qed.
Lemma safe_store_user user : safe db_wf (store_user user).
Proof. unfold store_user. eauto with rust_safe. Qed.
Lemma safe_get_user_by_uid c uid : safe db_wf (get_user_by_uid c uid).
Proof. unfold get_user_by_uid. eauto 10 with rust_safe. Qed.
Lemma safe_get_user_by_name c name : safe db_wf (get_user_by_name c name).
Proof. unfold get_user_by_name. eauto 10 with rust_safe. Qed.
Lemma safe_load_members group : safe db_wf (load_members group).
Proof. unfold load_members, get_group_members. eauto 10 with rust_safe. Qed.
#[local] Hint Resolve safe_load_members : rust_safe.
Lemma safe_store_group group : safe db_wf (store_group group).
Proof. unfold store_group. eauto 12 with rust_safe. Qed.
Lemma safe_get_group_by_gid c gid : safe db_wf (get_group_by_gid c gid).
Proof. unfold get_group_by_gid. eauto 15 with rust_safe. Qed.
Lemma safe_get_group_by_name c name : safe db_wf (get_group_by_name c name).
Proof. unfold get_group_by_name. eauto 15 with rust_safe. Qed.
Lemma safe_purge_expired ttl : safe db_wf (purge_expired ttl).
Proof. unfold purge_expired. eauto 20 with rust_safe. Qed.
Lemma safe_get_groups_for_member c name : safe db_wf (get_groups_for_member c name).
Proof. unfold get_groups_for_member. eauto 15 with rust_safe. Qed.
End safety_facts.

#[export] Hint Resolve safe_resolve_uid safe_resolve_gid safe_store_user safe_get_user_by_uid
  safe_get_user_by_name safe_store_group safe_get_group_by_gid safe_get_group_by_name
  safe_purge_expired safe_get_groups_for_member : rust_safe.

(** ** The cache file *)

(** Regular, owned by root, readable and writable by its owner alone. *)
Definition private_root_file (i : inode) : Prop :=
  meta_is_file (inode_meta i) = true ∧ meta_uid (inode_meta i) = 0%Z ∧
  Z.land (meta_mode (inode_meta i)) 511 = 384%Z.

Lemma chmod_0600 m : Z.land (Z.lor (Z.ldiff m 4095) 384) 511 = 384%Z.
Proof.
  rewrite Z.land_lor_distr_l, Z.ldiff_land, <-Z.land_assoc.
  change (Z.land (Z.lnot 4095) 511) with 0%Z. by rewrite Z.land_0_r.
Qed.

Section file_facts.
Context `{Os}.

Lemma with_inode_wp {A} op path (k : inode → M filesystem io_error A)
    (Q : outcome io_error A → filesystem → Prop) fs :
  (∀ e, Q (Err e) fs) → (∀ i, fs !! path = Some i → wp (k i) Q fs) →
  wp (with_inode op path k) Q fs.
Proof.
  intros He Hk. unfold wp, with_inode. destruct (os_fault op path); [apply He|].
  destruct (fs !! path) eqn:Hi; [by apply Hk|apply He].
Qed.

(** Hardening fails and changes nothing, or leaves a private file of root's
    and every other path alone. *)
Lemma harden_cache_file_wp path fs :
  wp (harden_cache_file path) (λ r fs',
    match r with
    | Ok _ => (∃ i, fs !! path = Some i ∧ meta_is_file (inode_meta i) = true ∧
          meta_uid (inode_meta i) = 0%Z) ∧
        (∃ i', fs' !! path = Some i' ∧ private_root_file i') ∧
        ∀ p, p ≠ path → fs' !! p = fs !! p
    | Err e => fs' = fs ∧ ∃ detail, e = InsecurePermissions path detail
    | Panic => False
    end) fs.
Proof.
  unfold harden_cache_file, symlink_metadata.
  apply wp_bind, wp_map_err, with_inode_wp; [by intros e; split; [|eexists]|].
  intros i Hi. apply wp_ret.
  cbn [and_then]. destruct (meta_is_file (inode_meta i)) eqn:Hfile; cbn [negb].
  2: { split; [done|by eexists]. }
  case_bool_decide as Huid; [split; [done|by eexists]|].
  case_bool_decide as Hmode.
  - apply wp_map_err, with_inode_wp; [by intros e; split; [|eexists]|].
    intros i' Hi'.
    assert (i' = i) as -> by congruence. split_and!; [by eauto| |].
    + eexists. split; [apply lookup_insert_eq|]. split_and!; [done..|apply chmod_0600].
    + intros p Hp. by apply lookup_insert_ne.
  - apply wp_ret. split_and!; [by eauto| |done]. by exists i.
Qed.
End file_facts.
