(* ===== verification/Directory.v ===== *)
(** * Directory: what the cache promises

    The abstract state of the cache: finite maps from external identifiers to
    users and groups, each with the time it was stored, and the relation between
    groups and member names. [dir_step] says what each operation of [cache.rs] may
    answer and do, failures included; no table, row order or statement is in it.
    [CacheRefines] proves that the operations keep this promise. What follows from
    the promise alone is proved here: the users that are found are those stored
    last, whatever purges and failures came between. *)

From S2P Require Import Prelude Model Mapping Sql Cache CacheFacts.
From stdpp Require Import prelude strings list gmap sorting.

(** ** The abstract state *)

Record directory := mk_directory {
  dir_users : gmap string (User * Z);
  dir_groups : gmap string (Group * Z);
  dir_members : gset (string * string);
}.

Definition empty_directory : directory := mk_directory ∅ ∅ ∅.

(** ** Calls, and what was seen of one *)

Inductive cache_call :=
  | ResolveUid (external_id : string) (range_min range_size : Z)
  | ResolveGid (external_id : string) (range_min range_size : Z)
  | StoreUser (user : User)
  | GetUserByUid (uid : Z)
  | GetUserByName (name : string)
  | StoreGroup (group : Group)
  | GetGroupByGid (gid : Z)
  | GetGroupByName (name : string)
  | PurgeExpired (ttl : Z)
  | GetGroupsForMember (member_name : string).

Inductive cache_reply :=
  | Resolved (id : Z)
  | Finished
  | FoundUser (user : option User)
  | FoundGroup (group : option Group)
  | FoundGroups (groups : list Group).

(** A call, the readings of the clock that counted, and the outcome. *)
Record event := mk_event {
  ev_call : cache_call;
  ev_times : list Z;
  ev_reply : outcome CacheError cache_reply;
}.

(** ** Updates *)

(** A user replaces the one of its identifier and any other with its uid. *)
Definition put_user (u : User) (now : Z) (m : gmap string (User * Z)) : gmap string (User * Z) :=
  <[user_external_id u := (u, now)]> (filter (λ x, user_uid x.2.1 ≠ user_uid u) m).

(** What is known of a group apart from its members. *)
Definition group_head (g : Group) : Group :=
  mk_group (group_external_id g) (group_name g) (group_gid g) [].

Definition fresh_at (now ttl : Z) {A} (x : string * (A * Z)) : Prop := unexpired now ttl x.2.2.
#[export] Instance fresh_at_dec now ttl {A} (x : string * (A * Z)) : Decision (fresh_at now ttl x).
Proof. unfold fresh_at. apply _. Defined.

Section updates.
Context `{Sqlite}.

(** Groups leave; their members leave with them if foreign keys are enforced. *)
Definition drop_groups (gone : string * (Group * Z) → Prop) `{∀ x, Decision (gone x)} (D : directory)
    : directory :=
  mk_directory (dir_users D) (filter (λ x, ¬ gone x) (dir_groups D))
    (if foreign_keys
     then filter (λ m, m.1 ∉ dom (filter gone (dir_groups D))) (dir_members D)
     else dir_members D).

(** The group replaces those with its identifier or its gid, its members still
    to be stored. *)
Definition place_group (g : Group) (now : Z) (D : directory) : directory :=
  let D := drop_groups (λ x, x.1 = group_external_id g ∨ group_gid x.2.1 = group_gid g) D in
  mk_directory (dir_users D) (<[group_external_id g := (group_head g, now)]> (dir_groups D))
    (dir_members D).

Definition put_members (ext : string) (names : list string) (D : directory) : directory :=
  mk_directory (dir_users D) (dir_groups D)
    (filter (λ m, m.1 ≠ ext) (dir_members D) ∪ list_to_set (pair ext <$> names)).

Definition put_group (g : Group) (now : Z) (names : list string) (D : directory) : directory :=
  put_members (group_external_id g) names (place_group g now D).

(** The three deletions of a purge. *)
Definition purge_members (ttl now : Z) (D : directory) : directory :=
  mk_directory (dir_users D) (dir_groups D)
    (filter (λ m, m.1 ∉ dom (filter (λ x, ¬ fresh_at now ttl x) (dir_groups D))) (dir_members D)).
Definition purge_groups (ttl now : Z) (D : directory) : directory :=
  drop_groups (λ x, ¬ fresh_at now ttl x) D.
Definition purge_users (ttl now : Z) (D : directory) : directory :=
  mk_directory (filter (fresh_at now ttl) (dir_users D)) (dir_groups D) (dir_members D).
End updates.

(** ** Answers *)

(** The first slot in probe order that nobody else holds. *)
Definition chosen `{Murmur3} (open : Z → Prop) (ext : string) (min size : Z) (id : Z) : Prop :=
  ∃ h before after, murmur3_32 ext 0 = Some h ∧
    probe_sequence h min size = before ++ id :: after ∧
    open id ∧ Forall (λ id, ¬ open id) before.

Definition uid_open (D : directory) (ext : string) (uid : Z) : Prop :=
  ∀ e u t, dir_users D !! e = Some (u, t) → user_uid u = uid → e = ext.
Definition gid_open (D : directory) (ext : string) (gid : Z) : Prop :=
  ∀ e g t, dir_groups D !! e = Some (g, t) → group_gid g = gid → e = ext.

(** An entry with the key that is asked for, stored less than the ttl ago; none
    only if there is none. *)
Definition entry_found {A B} (m : gmap string (A * Z)) (key : A → Prop) (now ttl : Z)
    (answer : A → B → Prop) (res : option B) : Prop :=
  match res with
  | Some b => ∃ e a t, m !! e = Some (a, t) ∧ key a ∧ unexpired now ttl t ∧ answer a b
  | None => ∀ e a t, m !! e = Some (a, t) → key a → ¬ unexpired now ttl t
  end.

(** The group [g] is [head] with the members that are listed. *)
Definition with_members (D : directory) (head g : Group) : Prop :=
  group_head g = head ∧ NoDup (group_members g) ∧
  ∀ name, name ∈ group_members g ↔ (group_external_id head, name) ∈ dir_members D.

Section steps.
Context `{Sqlite} `{Murmur3}.
Variable c : Cache.

(** The errors of a call that leave the directory alone. *)
Definition may_fail (D : directory) (call : cache_call) (e : CacheError) : Prop :=
  match call with
  | ResolveUid ext min size => sql_failure e ∨
      (e = RangeExhausted ∧ ∀ id, (min ≤ id < min + size)%Z → ¬ uid_open D ext id)
  | ResolveGid ext min size => sql_failure e ∨
      (e = RangeExhausted ∧ ∀ id, (min ≤ id < min + size)%Z → ¬ gid_open D ext id)
  | StoreUser _ | StoreGroup _ => sql_failure e
  | PurgeExpired ttl => lookup_failure ttl e
  | _ => lookup_failure (ttl_seconds c) e
  end.

Definition ttl_is (ttl : Z) : Prop := u64_to_sql (ttl_seconds c) = Some ttl.

Inductive dir_step (D : directory) : event → directory → Prop :=
  | uid_resolved ext min size id :
      chosen (uid_open D ext) ext min size id →
      dir_step D (mk_event (ResolveUid ext min size) [] (Ok (Resolved id))) D
  | gid_resolved ext min size id :
      chosen (gid_open D ext) ext min size id →
      dir_step D (mk_event (ResolveGid ext min size) [] (Ok (Resolved id))) D
  | user_stored u now :
      dir_step D (mk_event (StoreUser u) [now] (Ok Finished))
        (mk_directory (put_user u now (dir_users D)) (dir_groups D) (dir_members D))
  | user_by_uid uid now ttl res :
      ttl_is ttl → entry_found (dir_users D) (λ u, user_uid u = uid) now ttl eq res →
      dir_step D (mk_event (GetUserByUid uid) [now] (Ok (FoundUser res))) D
  | user_by_name name now ttl res :
      ttl_is ttl → entry_found (dir_users D) (λ u, user_name u = name) now ttl eq res →
      dir_step D (mk_event (GetUserByName name) [now] (Ok (FoundUser res))) D
  | group_is_stored g now :
      NoDup (group_members g) →
      dir_step D (mk_event (StoreGroup g) [now] (Ok Finished)) (put_group g now (group_members g) D)
  | group_by_gid gid now ttl res :
      ttl_is ttl → entry_found (dir_groups D) (λ g, group_gid g = gid) now ttl (with_members D) res →
      dir_step D (mk_event (GetGroupByGid gid) [now] (Ok (FoundGroup res))) D
  | group_by_name name now ttl res :
      ttl_is ttl → entry_found (dir_groups D) (λ g, group_name g = name) now ttl (with_members D) res →
      dir_step D (mk_event (GetGroupByName name) [now] (Ok (FoundGroup res))) D
  | groups_for_member name now ttl heads gs :
      ttl_is ttl → NoDup heads →
      (∀ g, g ∈ heads ↔ ∃ e t, dir_groups D !! e = Some (g, t) ∧ (e, name) ∈ dir_members D ∧
        unexpired now ttl t) →
      Forall2 (with_members D) heads gs →
      dir_step D (mk_event (GetGroupsForMember name) [now] (Ok (FoundGroups gs))) D
  | expired_purged ttl sql_ttl t1 t2 t3 :
      u64_to_sql ttl = Some sql_ttl →
      dir_step D (mk_event (PurgeExpired ttl) [t1; t2; t3] (Ok Finished))
        (purge_users sql_ttl t3 (purge_groups sql_ttl t2 (purge_members sql_ttl t1 D)))
  | call_failed call e :
      may_fail D call e → dir_step D (mk_event call [] (Err e)) D
  (** Stores of groups and purges take several statements; a failure can leave
      them half done. *)
  | group_placed_only g now e :
      sql_failure e → dir_step D (mk_event (StoreGroup g) [now] (Err e)) (place_group g now D)
  | group_half_stored g now e pre x post :
      group_members g = pre ++ x :: post → NoDup pre →
      sql_failure e ∨ (x ∈ pre ∧ e = Sqlite_error ConstraintViolation) →
      dir_step D (mk_event (StoreGroup g) [now] (Err e)) (put_group g now pre D)
  | members_purged_only ttl sql_ttl t1 e :
      u64_to_sql ttl = Some sql_ttl → sql_failure e →
      dir_step D (mk_event (PurgeExpired ttl) [t1] (Err e)) (purge_members sql_ttl t1 D)
  | groups_purged_only ttl sql_ttl t1 t2 e :
      u64_to_sql ttl = Some sql_ttl → sql_failure e →
      dir_step D (mk_event (PurgeExpired ttl) [t1; t2] (Err e))
        (purge_groups sql_ttl t2 (purge_members sql_ttl t1 D)).

Inductive dir_trace : directory → list event → directory → Prop :=
  | trace_nil D : dir_trace D [] D
  | trace_cons D ev D1 tr D2 :
      dir_step D ev D1 → dir_trace D1 tr D2 → dir_trace D (ev :: tr) D2.
End steps.

(** ** The users that are found were stored last *)

(** The event stored the user at the time [t]. *)
Definition stores_at (ev : event) (u : User) (t : Z) : Prop :=
  ev = mk_event (StoreUser u) [t] (Ok Finished).

(** In the history [tr], [u] was stored at [t], and no user with its identifier or
    its uid was stored after that. *)
Definition latest_store (tr : list event) (u : User) (t : Z) : Prop :=
  ∃ before ev after, tr = before ++ ev :: after ∧ stores_at ev u t ∧
    ∀ ev' u' t', ev' ∈ after → stores_at ev' u' t' →
      user_external_id u' ≠ user_external_id u ∧ user_uid u' ≠ user_uid u.

(** An answer to [key] that is right for the history. *)
Definition right_answer (tr : list event) (key : User → Prop) (now ttl : Z) (res : option User) : Prop :=
  match res with
  | Some u => key u ∧ ∃ t, latest_store tr u t ∧ unexpired now ttl t
  | None => ∀ u t, latest_store tr u t → key u → ¬ unexpired now ttl t
  end.

(** No purge uses another ttl than the lookups. *)
Definition purges_own_ttl (c : Cache) (tr : list event) : Prop :=
  ∀ ev ttl, ev ∈ tr → ev_call ev = PurgeExpired ttl → ttl = ttl_seconds c.

(** The users stored so far, had nothing been purged. *)
Definition admit_event (m : gmap string (User * Z)) (ev : event) : gmap string (User * Z) :=
  match ev with
  | mk_event (StoreUser u) [now] (Ok Finished) => put_user u now m
  | _ => m
  end.
Definition stores (tr : list event) : gmap string (User * Z) := foldl admit_event ∅ tr.

Lemma stores_snoc tr ev : stores (tr ++ [ev]) = admit_event (stores tr) ev.
Proof. unfold stores. by rewrite foldl_app. Qed.

Lemma admit_event_cases m ev :
  (∃ u now, stores_at ev u now ∧ admit_event m ev = put_user u now m) ∨
  ((∀ u now, ¬ stores_at ev u now) ∧ admit_event m ev = m).
Proof.
  destruct ev as [[] [|now [|]] [[]| |]]; cbn; try (by right; split; [intros ? ? [=]|]).
  left. by exists user, now.
Qed.

Lemma put_user_lookup u now m e v :
  put_user u now m !! e = Some v ↔
    (e = user_external_id u ∧ v = (u, now)) ∨
    (e ≠ user_external_id u ∧ m !! e = Some v ∧ user_uid v.1 ≠ user_uid u).
Proof.
  unfold put_user. rewrite lookup_insert_Some, map_lookup_filter_Some.
  split; [intros [[<- <-]|(? & ? & ?)]|intros [[-> ->]|(? & ? & ?)]]; auto.
Qed.

Lemma latest_store_last tr ev u t : stores_at ev u t → latest_store (tr ++ [ev]) u t.
Proof. intros Hev. exists tr, ev, []. split_and!; [done..|]. by intros ? ? ? ?%not_elem_of_nil. Qed.

Lemma latest_store_snoc tr ev u t :
  latest_store (tr ++ [ev]) u t ↔ stores_at ev u t ∨ (latest_store tr u t ∧
    ∀ u' t', stores_at ev u' t' →
      user_external_id u' ≠ user_external_id u ∧ user_uid u' ≠ user_uid u).
Proof.
  split.
  - intros (b & ev' & a & Heq & Hev & Ha). destruct a as [|x a _] using rev_ind.
    + apply app_inj_tail in Heq as [_ ->]. by left.
    + rewrite app_comm_cons, app_assoc in Heq. apply app_inj_tail in Heq as [-> <-]. right. split.
      * exists b, ev', a. split_and!; [done..|]. intros. eapply Ha; [|done]. apply elem_of_app. by left.
      * intros u' t' Hu'. eapply Ha; [|exact Hu']. apply elem_of_app. right. by left.
  - intros [Hev|[(b & ev' & a & -> & Hev & Ha) Hx]]; [by apply latest_store_last|].
    exists b, ev', (a ++ [ev]). rewrite <-app_assoc. split_and!; [done..|].
    intros x u' t' [Hin| ->%list_elem_of_singleton]%elem_of_app Hx'; eauto.
Qed.

Lemma stores_latest tr e u t :
  stores tr !! e = Some (u, t) ↔ e = user_external_id u ∧ latest_store tr u t.
Proof.
  revert e u t. induction tr as [|ev tr IH] using rev_ind; intros e u t.
  { split; [done|]. intros [_ (b & ev & a & Heq & _)]. by destruct b. }
  rewrite stores_snoc, latest_store_snoc.
  destruct (admit_event_cases (stores tr) ev) as [(u' & now & Hev & ->)|[Hno ->]].
  - rewrite put_user_lookup, IH. simpl. split.
    + intros [[-> [= -> ->]]|(Hne & [-> Hl] & Hu)]; [by split; [|left]|].
      split; [done|]. right. split; [done|]. intros u'' t'' Hev'. unfold stores_at in *. simplify_eq.
      by split; [intros Heq; apply Hne|intros Heq; apply Hu].
    + intros [-> [Hev'|[Hl Hx]]]; [left; unfold stores_at in *; by simplify_eq|].
      right. destruct (Hx _ _ Hev) as [He Hu]. split; [congruence|]. split; [done|congruence].
  - rewrite IH. split; [intros [-> Hl]; split; [done|right; split; [done|]]|].
    + intros u' t' Hev. by destruct (Hno _ _ Hev).
    + intros [-> [Hev|[Hl _]]]; [by destruct (Hno _ _ Hev)|done].
Qed.

(** Entries only expire as time goes on. *)
Lemma expired_later now now' ttl t :
  (now ≤ now')%Z → ¬ unexpired now ttl t → ¬ unexpired now' ttl t.
Proof. unfold unexpired. lia. Qed.

Section histories.
Context `{Sqlite} `{Murmur3}.
Variable c : Cache.

Lemma dir_trace_app D tr1 tr2 D2 :
  dir_trace c D (tr1 ++ tr2) D2 → ∃ D1, dir_trace c D tr1 D1 ∧ dir_trace c D1 tr2 D2.
Proof.
  revert D. induction tr1 as [|ev tr1 IH]; intros D Htr.
  - exists D. by split; [constructor|].
  - inversion Htr as [|? ? D1 ? ? Hs Ht]; subst. destruct (IH D1 Ht) as (D3 & Ht' & Hs').
    exists D3. by split; [econstructor|].
Qed.

Lemma dir_trace_snoc D tr ev D2 :
  dir_trace c D (tr ++ [ev]) D2 → ∃ D1, dir_trace c D tr D1 ∧ dir_step c D1 ev D2.
Proof.
  intros (D1 & Htr & Hev)%dir_trace_app. inversion Hev as [|? ? D3 ? ? Hs Ht]; subst.
  inversion Ht; subst. by exists D1.
Qed.

(** At a time [now] that no event is later than: what is missing from the
    directory of the users that were stored has expired. *)
Definition purged_only (ttl now : Z) (all users : gmap string (User * Z)) : Prop :=
  users ⊆ all ∧
  ∀ e u t, all !! e = Some (u, t) → users !! e = Some (u, t) ∨ ¬ unexpired now ttl t.

Lemma purged_only_put ttl now all users u t :
  purged_only ttl now all users → purged_only ttl now (put_user u t all) (put_user u t users).
Proof.
  intros [Hsub Hexp]. split.
  - apply map_subseteq_spec. intros e v. rewrite !put_user_lookup.
    intros [?|(? & Hv & ?)]; [by left|right]. split_and!; [done| |done]. by eapply lookup_weaken.
  - intros e u' t'. rewrite !put_user_lookup. intros [[-> ?]|(Hne & Hv & Hu)]; [by left; left|].
    destruct (Hexp _ _ _ Hv) as [?|?]; [|by right]. left. by right.
Qed.

Lemma purged_only_filter ttl now now' all users :
  (now' ≤ now)%Z → purged_only ttl now all users →
  purged_only ttl now all (filter (fresh_at now' ttl) users).
Proof.
  intros Hle [Hsub Hexp]. split; [by etrans; [apply map_filter_subseteq|]|].
  intros e u t Hv. destruct (Hexp _ _ _ Hv) as [Hu|?]; [|by right].
  destruct (decide (unexpired now' ttl t)) as [Hf|Hf].
  - left. by apply map_lookup_filter_Some.
  - right. by eapply expired_later.
Qed.

Lemma step_users ttl now all D ev D' :
  ttl_is c ttl → (∀ ttl', ev_call ev = PurgeExpired ttl' → ttl' = ttl_seconds c) →
  Forall (λ t, t ≤ now)%Z (ev_times ev) → dir_step c D ev D' →
  purged_only ttl now all (dir_users D) → purged_only ttl now (admit_event all ev) (dir_users D').
Proof.
  intros Httl Hown Hnow Hs Hp. destruct Hs; try exact Hp.
  - by apply purged_only_put.
  - cbn in *. specialize (Hown _ eq_refl) as ->. unfold ttl_is in Httl. simplify_eq.
    repeat apply Forall_cons in Hnow as [? Hnow]. by apply purged_only_filter.
  - by destruct call.
Qed.

Lemma history_users ttl now tr D :
  ttl_is c ttl → purges_own_ttl c tr → Forall (λ t, t ≤ now)%Z (concat (ev_times <$> tr)) →
  dir_trace c empty_directory tr D → purged_only ttl now (stores tr) (dir_users D).
Proof.
  intros Httl. revert D. induction tr as [|ev tr IH] using rev_ind; intros D Hown Hnow Htr.
  { inversion Htr; subst. done. }
  apply dir_trace_snoc in Htr as (D1 & Htr & Hs).
  rewrite fmap_app, concat_app, Forall_app in Hnow. destruct Hnow as [Hnow Hlast].
  cbn in Hlast. rewrite app_nil_r in Hlast. rewrite stores_snoc.
  eapply step_users; [done| |done|exact Hs|].
  - intros ttl'. apply Hown. apply elem_of_app. right. by left.
  - apply IH; [|done..]. intros x ttl' Hx. apply Hown. apply elem_of_app. by left.
Qed.

Lemma found_right ttl now tr users key res :
  purged_only ttl now (stores tr) users → entry_found users key now ttl eq res →
  right_answer tr key now ttl res.
Proof.
  intros [Hsub Hexp]. destruct res as [u|]; simpl.
  - intros (e & u' & t & Hu & Hk & Hf & ->). split; [done|]. exists t. split; [|done].
    apply (stores_latest tr e). by eapply lookup_weaken.
  - intros Hno u t Hl Hk. pose proof (proj2 (stores_latest tr _ u t) (conj eq_refl Hl)) as Hs.
    destruct (Hexp _ _ _ Hs) as [Hu|?]; [by eapply Hno|done].
Qed.

(** A lookup of a user that succeeds answers rightly for the history before it. *)
Definition right_user_lookup (tr : list event) (ev : event) : Prop :=
  (∀ uid r, ev_call ev = GetUserByUid uid → ev_reply ev = Ok r →
    ∃ now ttl res, ttl_is c ttl ∧ ev_times ev = [now] ∧ r = FoundUser res ∧
      right_answer tr (λ u, user_uid u = uid) now ttl res) ∧
  (∀ name r, ev_call ev = GetUserByName name → ev_reply ev = Ok r →
    ∃ now ttl res, ttl_is c ttl ∧ ev_times ev = [now] ∧ r = FoundUser res ∧
      right_answer tr (λ u, user_name u = name) now ttl res).

Lemma lookups_see_latest_stores tr ev D D' :
  dir_trace c empty_directory tr D → dir_step c D ev D' → purges_own_ttl c tr →
  (∀ t t', t ∈ concat (ev_times <$> tr) → t' ∈ ev_times ev → t ≤ t')%Z →
  right_user_lookup tr ev.
Proof.
  intros Htr Hs Hown Hclock. assert (∀ ttl now (key : User → Prop) res,
    ev_times ev = [now] → ttl_is c ttl → entry_found (dir_users D) key now ttl eq res →
    right_answer tr key now ttl res) as Hright.
  { intros ttl now key res Hev Httl Hf. eapply found_right; [|exact Hf].
    apply history_users; [done..| |done]. apply Forall_forall. intros t Ht. apply Hclock; [done|].
    rewrite Hev. by left. }
  split; intros k r Hc Hr; destruct Hs; simplify_eq/=; eexists _, _, _; eauto.
Qed.
End histories.
