(* ===== verification/CacheRefines.v ===== *)
(** * CacheRefines: the cache keeps the promise of [Directory]

    The tables of [Sql] stand for a [directory]: a table is the finite map from its
    primary key to what else a row has. Every operation of [cache.rs] is a step of
    the directory, whatever statements fail and in whatever order rows come. *)

From S2P Require Import Prelude Model Mapping Fs Sql Cache CacheFacts.
From S2P Require Import Directory.
From stdpp Require Import prelude strings list gmap sorting.

(** ** Tables as finite maps *)

Section tables.
Context {R A : Type} (key : R → string) (val : R → A).

Definition table_map (rows : list R) : gmap string A := list_to_map ((λ r, (key r, val r)) <$> rows).

Lemma table_map_lookup rows k v :
  NoDup (key <$> rows) → table_map rows !! k = Some v ↔ ∃ r, r ∈ rows ∧ key r = k ∧ val r = v.
Proof.
  intros Hnd. unfold table_map. rewrite <-elem_of_list_to_map.
  - rewrite list_elem_of_fmap. split; [intros (r & [= -> ->] & Hr); eauto|].
    intros (r & Hr & <- & <-). by exists r.
  - by rewrite <-list_fmap_compose.
Qed.

Lemma table_map_filter rows (P : R → Prop) (P' : string * A → Prop)
    `{∀ r, Decision (P r)} `{∀ x, Decision (P' x)} :
  NoDup (key <$> rows) → (∀ r, r ∈ rows → P r ↔ P' (key r, val r)) →
  table_map (filter P rows) = filter P' (table_map rows).
Proof.
  intros Hnd HP. apply map_eq. intros k. apply option_eq. intros v.
  rewrite map_lookup_filter_Some, !table_map_lookup by (done || by apply NoDup_fmap_filter).
  setoid_rewrite list_elem_of_filter. split.
  - intros (r & [Hp Hr] & <- & <-). split; [eauto|]. by apply HP.
  - intros [(r & Hr & <- & <-) Hp]. exists r. split; [|done]. split; [by apply HP|done].
Qed.

Lemma table_map_snoc rows r :
  key r ∉ key <$> rows → table_map (rows ++ [r]) = <[key r := val r]> (table_map rows).
Proof.
  intros Hr. unfold table_map. rewrite fmap_app. cbn [fmap list_fmap].
  apply list_to_map_snoc. by rewrite <-list_fmap_compose.
Qed.

(** [INSERT OR REPLACE] *)
Lemma table_map_replace rows (P : R → Prop) (P' : string * A → Prop) r
    `{∀ r, Decision (P r)} `{∀ x, Decision (P' x)} :
  NoDup (key <$> rows) → (∀ r', r' ∈ rows → P r' ↔ key r' ≠ key r ∧ P' (key r', val r')) →
  table_map (filter P rows ++ [r]) = <[key r := val r]> (filter P' (table_map rows)).
Proof.
  intros Hnd HP. apply map_eq. intros k. apply option_eq. intros v.
  rewrite lookup_insert_Some, map_lookup_filter_Some, !table_map_lookup.
  - setoid_rewrite elem_of_app. setoid_rewrite list_elem_of_singleton.
    setoid_rewrite list_elem_of_filter. split.
    + intros (r' & [[Hp Hr]| ->] & <- & <-); [right|by left].
      apply HP in Hp as [Hne Hp]; [|done]. split_and!; [done|eauto|done].
    + intros [[<- <-]|(Hne & (r' & Hr & <- & <-) & Hp)]; [by eauto|]. exists r'.
      split; [left; split; [|done]|done]. by apply HP.
  - done.
  - apply NoDup_fmap_replace; [done|]. intros x Hx Hp. by apply HP.
Qed.
End tables.

Definition member_pair (m : member_row) : string * string :=
  (mr_group_external_id m, mr_member_name m).

(** The directory that the tables stand for. *)
Definition directory_of (d : db) : directory :=
  mk_directory
    (table_map ur_external_id (λ r, (row_user r, ur_cached_at r)) (uid_cache d))
    (table_map gr_external_id (λ r, (row_group r, gr_cached_at r)) (gid_cache d))
    (list_to_set (member_pair <$> group_members_table d)).

Lemma directory_same_tables d d' : same_tables d d' → directory_of d' = directory_of d.
Proof. unfold directory_of. by intros (-> & -> & ->). Qed.

Lemma directory_eq D D' :
  dir_users D = dir_users D' → dir_groups D = dir_groups D' → dir_members D = dir_members D' → D = D'.
Proof. destruct D, D'. simpl. by intros -> -> ->. Qed.

Lemma members_listed (l : list member_row) e x :
  (e, x) ∈ (list_to_set (member_pair <$> l) : gset (string * string)) ↔ mk_member_row e x ∈ l.
Proof.
  rewrite elem_of_list_to_set, list_elem_of_fmap. split; [|intros Hm; by exists (mk_member_row e x)].
  intros ([e' x'] & [= <- <-] & Hm). done.
Qed.

Lemma members_filter (l : list member_row) (P : member_row → Prop) (P' : string * string → Prop)
    `{∀ r, Decision (P r)} `{∀ x, Decision (P' x)} :
  (∀ r, P r ↔ P' (member_pair r)) →
  (list_to_set (member_pair <$> filter P l) : gset (string * string)) =
    filter P' (list_to_set (member_pair <$> l)).
Proof.
  intros HP. apply set_eq. intros [e x]. rewrite elem_of_filter, !members_listed, list_elem_of_filter.
  by rewrite HP.
Qed.

Section abstraction.
Context `{SqliteLaws}.

Lemma users_lookup d e u t :
  db_wf d → dir_users (directory_of d) !! e = Some (u, t) ↔
    ∃ r, r ∈ uid_cache d ∧ ur_external_id r = e ∧ row_user r = u ∧ ur_cached_at r = t.
Proof.
  intros Hd. cbn. rewrite table_map_lookup by apply Hd.
  split; [intros (r & ? & ? & [= <- <-])|intros (r & ? & ? & <- & <-)]; eauto.
Qed.
Lemma groups_lookup d e g t :
  db_wf d → dir_groups (directory_of d) !! e = Some (g, t) ↔
    ∃ r, r ∈ gid_cache d ∧ gr_external_id r = e ∧ row_group r = g ∧ gr_cached_at r = t.
Proof.
  intros Hd. cbn. rewrite table_map_lookup by apply Hd.
  split; [intros (r & ? & ? & [= <- <-])|intros (r & ? & ? & <- & <-)]; eauto.
Qed.

Lemma uid_open_available d ext uid :
  db_wf d → uid_open (directory_of d) ext uid ↔ available (uid_holder d uid) ext.
Proof.
  intros Hd. unfold uid_open, available. split.
  - intros Ho. destruct (uid_holder d uid) as [e|] eqn:Hh; [right|by left].
    apply uid_holder_Some in Hh as (r & Hr & Hu & <-); [|done]. f_equal.
    eapply Ho; [apply users_lookup; [done|]; by exists r|done].
  - intros Hav e u t (r & Hr & <- & <- & <-)%users_lookup <-; [|done].
    assert (uid_holder d (ur_uid r) = Some (ur_external_id r)) as Hh by (apply uid_holder_Some; eauto).
    cbn in *. destruct Hav; congruence.
Qed.
Lemma gid_open_available d ext gid :
  db_wf d → gid_open (directory_of d) ext gid ↔ available (gid_holder d gid) ext.
Proof.
  intros Hd. unfold gid_open, available. split.
  - intros Ho. destruct (gid_holder d gid) as [e|] eqn:Hh; [right|by left].
    apply gid_holder_Some in Hh as (r & Hr & Hu & <-); [|done]. f_equal.
    eapply Ho; [apply groups_lookup; [done|]; by exists r|done].
  - intros Hav e u t (r & Hr & <- & <- & <-)%groups_lookup <-; [|done].
    assert (gid_holder d (gr_gid r) = Some (gr_external_id r)) as Hh by (apply gid_holder_Some; eauto).
    cbn in *. destruct Hav; congruence.
Qed.

(** ** Writes *)

Lemma directory_replace_user u now d :
  db_wf d → directory_of (replace_uid_row (user_row u now) d) =
    mk_directory (put_user u now (dir_users (directory_of d))) (dir_groups (directory_of d))
      (dir_members (directory_of d)).
Proof.
  intros Hd. apply directory_eq; [|done..].
  cbn [directory_of replace_uid_row dir_users uid_cache set_uid_cache].
  rewrite (table_map_replace ur_external_id (λ r, (row_user r, ur_cached_at r)) (uid_cache d)
    (λ r, ¬ uid_clash (user_row u now) r) (λ x, user_uid x.2.1 ≠ user_uid u) (user_row u now));
    [by destruct u|apply Hd|]. intros r _. unfold uid_clash. simpl. tauto.
Qed.

Lemma directory_filter_users ttl now d :
  db_wf d →
  directory_of (set_uid_cache (filter (λ r, unexpired now ttl (ur_cached_at r)) (uid_cache d)) d) =
    purge_users ttl now (directory_of d).
Proof.
  intros Hd. apply directory_eq; [|done..]. cbn -[filter].
  apply table_map_filter; [apply Hd|]. by intros r _.
Qed.

Lemma dropped_keys d (P : gid_row → Prop) (gone : string * (Group * Z) → Prop)
    `{∀ r, Decision (P r)} `{∀ x, Decision (gone x)} e :
  db_wf d → (∀ r, r ∈ gid_cache d → P r ↔ gone (gr_external_id r, (row_group r, gr_cached_at r))) →
  e ∈ gr_external_id <$> filter P (gid_cache d) ↔
    e ∈ dom (filter gone (dir_groups (directory_of d))).
Proof.
  intros Hd HP. rewrite elem_of_dom, list_elem_of_fmap. setoid_rewrite list_elem_of_filter. split.
  - intros (r & -> & Hp & Hr). exists (row_group r, gr_cached_at r). apply map_lookup_filter_Some.
    split; [apply groups_lookup; [done|by exists r]|by apply HP].
  - intros ([g t] & (Hg & Hx)%map_lookup_filter_Some).
    apply groups_lookup in Hg as (r & Hr & <- & <- & <-); [|done]. exists r.
    split_and!; [done|by apply HP|done].
Qed.

Lemma directory_delete_groups d (P : gid_row → Prop) (gone : string * (Group * Z) → Prop)
    `{∀ r, Decision (P r)} `{∀ x, Decision (gone x)} :
  db_wf d → (∀ r, r ∈ gid_cache d → P r ↔ gone (gr_external_id r, (row_group r, gr_cached_at r))) →
  directory_of (delete_gid_rows P d) = drop_groups gone (directory_of d).
Proof.
  intros Hd HP. apply directory_eq; [done|..].
  - cbn -[filter]. apply table_map_filter; [apply Hd|]. intros r Hr. by rewrite HP.
  - unfold directory_of, drop_groups, delete_gid_rows, cascade. cbn -[filter]. destruct foreign_keys; [|done].
    apply members_filter. intros [e x]. cbn -[filter]. by rewrite (dropped_keys d P gone).
Qed.

Lemma directory_place_group g now d :
  db_wf d →
  directory_of (replace_gid_row (group_row g now) d) = place_group g now (directory_of d).
Proof.
  intros Hd. unfold replace_gid_row, place_group.
  rewrite <-(directory_delete_groups d (gid_clash (group_row g now))
    (λ x, x.1 = group_external_id g ∨ group_gid x.2.1 = group_gid g)) by done.
  set (d1 := delete_gid_rows _ d). assert (db_wf d1) as Hd1 by by apply db_wf_delete_gid.
  apply directory_eq; [done| |done].
  cbn [directory_of dir_groups gid_cache set_gid_cache].
  apply (table_map_snoc gr_external_id (λ r, (row_group r, gr_cached_at r)) _ (group_row g now)).
  pose proof (db_wf_replace_gid (group_row g now) d Hd) as Hwf.
  apply wf_gid_external in Hwf. unfold replace_gid_row in Hwf. fold d1 in Hwf.
  cbn [gid_cache set_gid_cache] in Hwf. rewrite fmap_app in Hwf.
  apply NoDup_app in Hwf as (_ & Hdis & _). intros Hin. apply (Hdis _ Hin). by left.
Qed.

(** The members of [ext] are [names], otherwise the directory is [D]. *)
Lemma directory_clear_members ext d :
  directory_of (set_group_members
    (filter (λ m, mr_group_external_id m ≠ ext) (group_members_table d)) d) =
    put_members ext [] (directory_of d).
Proof.
  apply directory_eq; [done..|]. cbn -[filter]. rewrite union_empty_r_L.
  by apply members_filter.
Qed.

Lemma put_members_listed d ext names D x :
  directory_of d = put_members ext names D →
  mk_member_row ext x ∈ group_members_table d ↔ x ∈ names.
Proof.
  intros Heq. rewrite <-members_listed.
  change (list_to_set _) with (dir_members (directory_of d)). rewrite Heq. cbn -[filter].
  rewrite elem_of_union, elem_of_filter, elem_of_list_to_set, list_elem_of_fmap. simpl. split.
  - intros [[? _]|(y & [= <-] & Hy)]; done.
  - intros Hx. right. by exists x.
Qed.

Lemma directory_insert_member d ext names x D :
  directory_of d = put_members ext names D →
  directory_of (set_group_members (group_members_table d ++ [mk_member_row ext x]) d) =
    put_members ext (names ++ [x]) D.
Proof.
  intros Heq. apply directory_eq.
  - change (dir_users (directory_of d) = dir_users D). by rewrite Heq.
  - change (dir_groups (directory_of d) = dir_groups D). by rewrite Heq.
  - unfold directory_of, put_members. cbn [dir_members group_members_table set_group_members].
    rewrite !fmap_app, !list_to_set_app_L.
    change (list_to_set (member_pair <$> group_members_table d)) with (dir_members (directory_of d)).
    rewrite Heq. cbn [put_members dir_members]. by rewrite (assoc_L (∪)).
Qed.

Lemma directory_purge_members ttl now d :
  db_wf d →
  directory_of (set_group_members (filter (λ m, mr_group_external_id m ∉
      gr_external_id <$> filter (λ r, ¬ unexpired now ttl (gr_cached_at r)) (gid_cache d))
    (group_members_table d)) d) = purge_members ttl now (directory_of d).
Proof.
  intros Hd. apply directory_eq; [done..|].
  unfold directory_of, purge_members. cbn [dir_members dir_groups group_members_table set_group_members].
  apply members_filter. intros [e x]. cbn [mr_group_external_id member_pair fst].
  by rewrite (dropped_keys d _ (λ x, ¬ fresh_at now ttl x)).
Qed.
End abstraction.

(** ** Readings of the clock *)

Section readings.
Context `{SqliteLaws} `{BuildProfile} `{Murmur3}.

(** The call [m] runs statements, and one at least if it succeeds. *)
Definition never_back {E A} (m : M db E A) : Prop := ∀ n, preserves (λ d, n ≤ stmt_no d) m.

Lemma never_back_le {E A} (m : M db E A) d : never_back m → stmt_no d ≤ stmt_no (m d).2.
Proof. intros Hm. by apply (Hm (stmt_no d)). Qed.

Lemma not_behind_next n d : n ≤ stmt_no d → n ≤ stmt_no (next_stmt d).
Proof. destruct d. simpl. lia. Qed.

Lemma never_back_query {A} (select : Z → db → list A) : never_back (query select).
Proof. intros n. apply preserves_query. intros d. apply not_behind_next. Qed.

Lemma never_back_resolve_uid ext min size : never_back (resolve_uid ext min size).
Proof.
  intros n. apply preserves_resolve_id. intros id. unfold uid_owner.
  apply preserves_bind; [apply preserves_map_err, never_back_query|intros rows].
  destruct (head rows); apply preserves_ret.
Qed.
Lemma never_back_resolve_gid ext min size : never_back (resolve_gid ext min size).
Proof.
  intros n. apply preserves_resolve_id. intros id. unfold gid_owner.
  apply preserves_bind; [apply preserves_map_err, never_back_query|intros rows].
  destruct (head rows); apply preserves_ret.
Qed.
Lemma never_back_load_members g : never_back (load_members g).
Proof.
  intros n. unfold load_members, get_group_members.
  apply preserves_bind; [apply preserves_map_err, never_back_query|intros]. apply preserves_ret.
Qed.

(** A lookup that succeeds has read the clock. *)
Lemma lookup_reads {A B} (c : Cache) (select : Z → Z → db → list A) (k : list A → M db CacheError B) m d :
  m = (let? ttl := map_err from (bind_u64 (ttl_seconds c)) in
       let? rows := map_err from (query (select ttl)) in k rows) →
  (∀ rows, never_back (k rows)) →
  stmt_no d + match (m d).1 with Ok _ => 1 | _ => 0 end ≤ stmt_no (m d).2.
Proof.
  intros -> Hk. unfold bind, map_err, bind_u64. destruct (u64_to_sql (ttl_seconds c)) as [ttl|]; cbn; [|lia].
  unfold query, statement. destruct (sql_fault (stmt_no d)); cbn; [lia|].
  match goal with |- context [k ?rows ?d'] =>
    pose proof (never_back_le (k rows) d' (Hk rows)) as Hle; destruct (k rows d') as [[b|e|] d2] end;
    cbn in *; lia.
Qed.
End readings.

(** ** Every operation is a step of the directory *)

Section simulation.
Context `{SqliteLaws} `{BuildProfile} `{Murmur3Laws}.
Variable c : Cache.

Definition cache_do (call : cache_call) : M db CacheError cache_reply :=
  match call with
  | ResolveUid ext min size => let? id := resolve_uid ext min size in ret (Resolved id)
  | ResolveGid ext min size => let? id := resolve_gid ext min size in ret (Resolved id)
  | StoreUser u => store_user u ;;? ret Finished
  | GetUserByUid uid => let? u := get_user_by_uid c uid in ret (FoundUser u)
  | GetUserByName name => let? u := get_user_by_name c name in ret (FoundUser u)
  | StoreGroup g => store_group g ;;? ret Finished
  | GetGroupByGid gid => let? g := get_group_by_gid c gid in ret (FoundGroup g)
  | GetGroupByName name => let? g := get_group_by_name c name in ret (FoundGroup g)
  | PurgeExpired ttl => purge_expired ttl ;;? ret Finished
  | GetGroupsForMember name => let? gs := get_groups_for_member c name in ret (FoundGroups gs)
  end.

(** The ranges that the configuration may have. *)
Definition call_ok (call : cache_call) : Prop :=
  match call with
  | ResolveUid _ min size | ResolveGid _ min size => probe_range min size
  | _ => True
  end.

(** What the call did is a step, at the first readings of the clock it made. *)
Definition simulated (call : cache_call) (d : db) (r : outcome CacheError cache_reply) (d' : db) : Prop :=
  db_wf d' ∧ ∃ k, stmt_no d + k ≤ stmt_no d' ∧
    dir_step c (directory_of d) (mk_event call (sql_now <$> seq (stmt_no d) k) r) (directory_of d').

Lemma wp_reply {A} (m : M db CacheError A) (f : A → cache_reply) (Q : outcome CacheError cache_reply → db → Prop) d :
  wp m (λ r d', Q match r with Ok a => Ok (f a) | Err e => Err e | Panic => Panic end d') d →
  wp (let? a := m in ret (f a)) Q d.
Proof. intros Hm. apply wp_bind. eapply wp_mono; [exact Hm|]. by intros [a|e|] d'. Qed.

(** A call that reads: it has counted [k] readings if it succeeded. *)
Lemma simulated_reading {A} (m : M db CacheError A) (P : outcome CacheError A → Prop) (f : A → cache_reply)
    call k d :
  db_wf d → wp m (λ r d', same_tables d d' ∧ P r) d →
  stmt_no d + match (m d).1 with Ok _ => k | _ => 0 end ≤ stmt_no (m d).2 →
  (∀ a, P (Ok a) →
    dir_step c (directory_of d) (mk_event call (sql_now <$> seq (stmt_no d) k) (Ok (f a))) (directory_of d)) →
  (∀ e, P (Err e) → may_fail c (directory_of d) call e) → ¬ P Panic →
  wp (let? a := m in ret (f a)) (simulated call d) d.
Proof.
  intros Hd Hm Hk Hok Herr Hpanic. apply wp_reply. unfold wp in *. destruct Hm as [Hs HP].
  split; [by eapply db_wf_same_tables|]. rewrite (directory_same_tables _ _ Hs).
  destruct ((m d).1) as [a|e|]; [| |done].
  - exists k. split; [done|]. by apply Hok.
  - exists 0. split; [lia|]. by apply call_failed, Herr.
Qed.

Lemma chosen_resolution (open : Z → Prop) (holder : Z → option string) ext min size r :
  (∀ id, open id ↔ available (holder id) ext) → resolution holder ext min size r →
  match r with
  | Ok id => chosen open ext min size id
  | Err e => sql_failure e ∨ (e = RangeExhausted ∧ ∀ id, (min ≤ id < min + size)%Z → ¬ open id)
  | Panic => False
  end.
Proof.
  intros Ho. destruct r as [id|e|]; simpl; [| |done].
  - intros (_ & Hav & h & b & a & Hh & Heq & Hb). exists h, b, a. split_and!; [done..|by apply Ho|].
    eapply Forall_impl; [exact Hb|]. intros x. by rewrite Ho.
  - intros [?|[-> Hall]]; [by left|right]. split; [done|]. intros id Hid. rewrite Ho. auto.
Qed.

Lemma simulated_resolve_uid ext min size d :
  db_wf d → probe_range min size →
  wp (cache_do (ResolveUid ext min size)) (simulated (ResolveUid ext min size) d) d.
Proof.
  intros Hd Hp. pose proof (never_back_le _ d (never_back_resolve_uid ext min size)) as Hle.
  eapply (simulated_reading _ (resolution (uid_holder d) ext min size) _ _ 0);
    [done|by apply resolve_uid_wp|by destruct (_ d).1; lia|..].
  - intros id Hr. apply uid_resolved.
    by apply (chosen_resolution _ _ _ _ _ (Ok id) (λ id, uid_open_available d ext id Hd)).
  - intros e Hr. by apply (chosen_resolution _ _ _ _ _ (Err e) (λ id, uid_open_available d ext id Hd)).
  - exact id.
Qed.
Lemma simulated_resolve_gid ext min size d :
  db_wf d → probe_range min size →
  wp (cache_do (ResolveGid ext min size)) (simulated (ResolveGid ext min size) d) d.
Proof.
  intros Hd Hp. pose proof (never_back_le _ d (never_back_resolve_gid ext min size)) as Hle.
  eapply (simulated_reading _ (resolution (gid_holder d) ext min size) _ _ 0);
    [done|by apply resolve_gid_wp|by destruct (_ d).1; lia|..].
  - intros id Hr. apply gid_resolved.
    by apply (chosen_resolution _ _ _ _ _ (Ok id) (λ id, gid_open_available d ext id Hd)).
  - intros e Hr. by apply (chosen_resolution _ _ _ _ _ (Err e) (λ id, gid_open_available d ext id Hd)).
  - exact id.
Qed.

Lemma simulated_store_user u d :
  db_wf d → wp (cache_do (StoreUser u)) (simulated (StoreUser u) d) d.
Proof.
  intros Hd. apply (wp_reply _ (λ _, Finished)), wp_map_err, wp_execute.
  - intros e He. split; [by apply db_wf_next|]. exists 0. split; [cbn; lia|].
    rewrite (directory_same_tables d (next_stmt d)) by done. apply call_failed. by eapply sql_failure_from.
  - intros _. split; [by apply db_wf_replace_uid, db_wf_next|]. exists 1. split; [cbn; lia|].
    rewrite directory_replace_user by by apply db_wf_next.
    rewrite (directory_same_tables d (next_stmt d)) by done. apply user_stored.
Qed.

(** ** Lookups *)

Lemma found_users d (key : User → Prop) now ttl (res : option User) :
  db_wf d →
  lookup_answer (uid_cache d) (λ r, key (row_user r)) ur_cached_at now ttl (λ r u, row_user r = u) res →
  entry_found (dir_users (directory_of d)) key now ttl eq res.
Proof.
  intros Hd. destruct res as [u|]; simpl.
  - intros (r & Hr & Hk & Hf & <-). exists (ur_external_id r), (row_user r), (ur_cached_at r).
    split_and!; [apply users_lookup; [done|by exists r]|done..].
  - intros Hno e u t (r & Hr & <- & <- & <-)%users_lookup; [|done]. by apply Hno.
Qed.

Lemma members_of_NoDup d ext : db_wf d → NoDup (members_of d ext).
Proof.
  intros Hd. unfold members_of. apply NoDup_fmap_2_strong; [|apply NoDup_filter, Hd].
  intros [e x] [e' x'] [He _]%list_elem_of_filter [He' _]%list_elem_of_filter Hx. simpl in *. congruence.
Qed.

Lemma with_members_row d r g :
  db_wf d → group_of_row d r g → with_members (directory_of d) (row_group r) g.
Proof.
  intros Hd (He & Hn & Hg & Hm). split_and!.
  - unfold group_head. by rewrite He, Hn, Hg.
  - rewrite Hm. by apply members_of_NoDup.
  - intros x. rewrite Hm, members_of_elem. symmetry. apply members_listed.
Qed.

Lemma found_groups d (key : Group → Prop) now ttl (res : option Group) :
  db_wf d →
  lookup_answer (gid_cache d) (λ r, key (row_group r)) gr_cached_at now ttl (group_of_row d) res →
  entry_found (dir_groups (directory_of d)) key now ttl (with_members (directory_of d)) res.
Proof.
  intros Hd. destruct res as [g|]; simpl.
  - intros (r & Hr & Hk & Hf & Hg). exists (gr_external_id r), (row_group r), (gr_cached_at r).
    split_and!; [apply groups_lookup; [done|by exists r]|done|done|by apply with_members_row].
  - intros Hno e u t (r & Hr & <- & <- & <-)%groups_lookup; [|done]. by apply Hno.
Qed.

Lemma never_back_ret {E A} (a : A) : never_back (ret (E:=E) a).
Proof. intros n. apply preserves_ret. Qed.
Lemma never_back_load head : never_back match head with
    | Some group => let? group := load_members group in ret (Some group)
    | None => ret None
    end.
Proof.
  destruct head as [g|]; [|apply never_back_ret]. intros n.
  apply preserves_bind; [apply never_back_load_members|intros; apply preserves_ret].
Qed.

Lemma simulated_user_by_uid uid d :
  db_wf d → wp (cache_do (GetUserByUid uid)) (simulated (GetUserByUid uid) d) d.
Proof.
  intros Hd. eapply (simulated_reading _ _ _ _ 1); [done|apply get_user_by_uid_wp|..].
  - eapply lookup_reads; [reflexivity|intros; apply never_back_ret].
  - intros res (ttl & Httl & Hres). apply user_by_uid with ttl; [done|].
    by apply (found_users d (λ u, user_uid u = uid)).
  - done.
  - exact id.
Qed.
Lemma simulated_user_by_name name d :
  db_wf d → wp (cache_do (GetUserByName name)) (simulated (GetUserByName name) d) d.
Proof.
  intros Hd. eapply (simulated_reading _ _ _ _ 1); [done|apply get_user_by_name_wp|..].
  - eapply lookup_reads; [reflexivity|intros; apply never_back_ret].
  - intros res (ttl & Httl & Hres). apply user_by_name with ttl; [done|].
    by apply (found_users d (λ u, user_name u = name)).
  - done.
  - exact id.
Qed.
Lemma simulated_group_by_gid gid d :
  db_wf d → wp (cache_do (GetGroupByGid gid)) (simulated (GetGroupByGid gid) d) d.
Proof.
  intros Hd. eapply (simulated_reading _ _ _ _ 1); [done|apply get_group_by_gid_wp|..].
  - eapply lookup_reads; [reflexivity|intros; apply never_back_load].
  - intros res (ttl & Httl & Hres). apply group_by_gid with ttl; [done|].
    by apply (found_groups d (λ g, group_gid g = gid)).
  - done.
  - exact id.
Qed.
Lemma simulated_group_by_name name d :
  db_wf d → wp (cache_do (GetGroupByName name)) (simulated (GetGroupByName name) d) d.
Proof.
  intros Hd. eapply (simulated_reading _ _ _ _ 1); [done|apply get_group_by_name_wp|..].
  - eapply lookup_reads; [reflexivity|intros; apply never_back_load].
  - intros res (ttl & Httl & Hres). apply group_by_name with ttl; [done|].
    by apply (found_groups d (λ g, group_name g = name)).
  - done.
  - exact id.
Qed.

Lemma simulated_groups_for_member name d :
  db_wf d → wp (cache_do (GetGroupsForMember name)) (simulated (GetGroupsForMember name) d) d.
Proof.
  intros Hd. eapply (simulated_reading _ _ _ _ 1); [done|by apply get_groups_for_member_wp|..].
  - eapply (lookup_reads c (λ ttl now d, row_group <$> join_member name now ttl d)); [reflexivity|].
    intros rows n. apply preserves_collect. intros g. apply never_back_load_members.
  - intros gs (ttl & rs & Httl & Hgs & Hrs).
    eapply (groups_for_member c _ name _ ttl (row_group <$> rs)); [done|..].
    + rewrite Hrs. apply (NoDup_fmap_1 group_external_id). rewrite <-list_fmap_compose.
      apply (NoDup_fmap_filter gr_external_id), Hd.
    + intros g. rewrite list_elem_of_fmap. setoid_rewrite Hrs.
      setoid_rewrite list_elem_of_filter. setoid_rewrite groups_lookup; [|done..].
      setoid_rewrite members_listed. split.
      * intros (r & -> & [Hm Hf] & Hr). exists (gr_external_id r), (gr_cached_at r). by eauto 10.
      * intros (e & t & (r & Hr & <- & <- & <-) & Hm & Hf). by exists r.
    + apply Forall2_fmap_l. eapply Forall2_impl; [exact Hgs|]. intros r g. by apply with_members_row.
  - done.
  - exact id.
Qed.

(** ** The calls of several statements *)

(** The loop over the members: it stores a prefix without repetition. *)
Definition members_stored (ext : string) (names : list string) (D : directory) (n : nat)
    (r : outcome CacheError ()) (d' : db) : Prop :=
  db_wf d' ∧ n ≤ stmt_no d' ∧
  match r with
  | Ok _ => NoDup names ∧ directory_of d' = put_members ext names D
  | Err e => ∃ pre x post, names = pre ++ x :: post ∧ NoDup pre ∧
      (sql_failure e ∨ (x ∈ pre ∧ e = Sqlite_error ConstraintViolation)) ∧
      directory_of d' = put_members ext pre D
  | Panic => False
  end.

Lemma insert_members_simulated ext pre rest D d :
  db_wf d → ext ∈ gr_external_id <$> gid_cache d → NoDup pre →
  directory_of d = put_members ext pre D →
  wp (for_each rest (λ member, map_err from (insert_member (mk_member_row ext member))))
    (members_stored ext (pre ++ rest) D (stmt_no d)) d.
Proof.
  revert pre d. induction rest as [|x rest IH]; intros pre d Hd Hext Hnd HD.
  { apply wp_ret. rewrite app_nil_r. split_and!; [done|lia|done..]. }
  cbn [for_each]. apply wp_bind, wp_map_err. eapply wp_mono; [by apply insert_member_cases|].
  intros [[]|e|] d1 (Hd1 & Hn & Hr); [| |done].
  - destruct Hr as [Hx ->]. rewrite (put_members_listed d ext pre D x HD) in Hx.
    cbn [and_then]. eapply wp_mono; [apply (IH (pre ++ [x])); [done|done| |]|].
    + apply NoDup_app. split_and!; [done| |apply NoDup_singleton].
      by intros y Hy ->%list_elem_of_singleton.
    + by apply directory_insert_member.
    + intros r d' (Hwf & Hle & Hr). rewrite <-app_assoc in Hr. cbn in Hle.
      split_and!; [done|lia|exact Hr].
  - destruct Hr as [-> Hr]. cbn [and_then]. split_and!; [done|cbn; lia|].
    exists pre, x, rest. split_and!; [done|done| |by rewrite (directory_same_tables d)].
    destruct Hr as [Hf|[Hin ->]]; [left; by eapply sql_failure_from|right].
    split; [|done]. by apply (put_members_listed d ext pre D).
Qed.

Lemma simulated_store_group g d :
  db_wf d → wp (cache_do (StoreGroup g)) (simulated (StoreGroup g) d) d.
Proof.
  intros Hd. set (ext := group_external_id g). set (now := sql_now (stmt_no d)).
  apply (wp_reply _ (λ _, Finished)). unfold store_group. fold ext.
  apply wp_bind, wp_map_err, wp_execute.
  { intros e He. split; [by apply db_wf_next|]. exists 0. split; [cbn; lia|].
    rewrite (directory_same_tables d (next_stmt d)) by done. apply call_failed.
    by eapply sql_failure_from. }
  intros _. cbn [and_then]. fold now. set (d1 := replace_gid_row (group_row g now) (next_stmt d)).
  assert (directory_of d1 = place_group g now (directory_of d)) as Hd1.
  { unfold d1. rewrite directory_place_group by by apply db_wf_next.
    by rewrite (directory_same_tables d (next_stmt d)). }
  assert (db_wf d1) as Hwf1 by by apply db_wf_replace_gid, db_wf_next.
  assert (stmt_no d1 = S (stmt_no d)) as Hn1 by done.
  apply wp_bind, wp_map_err, wp_execute.
  { intros e He. split; [by apply db_wf_next|]. exists 1. split; [cbn; lia|].
    rewrite (directory_same_tables d1 (next_stmt d1)), Hd1 by done. apply group_placed_only.
    by eapply sql_failure_from. }
  intros _. cbn [and_then]. set (d2 := set_group_members _ (next_stmt d1)).
  assert (db_wf d2) as Hwf2 by by apply db_wf_filter_members, db_wf_next.
  eapply wp_mono; [apply (insert_members_simulated ext [] (group_members g) (place_group g now (directory_of d)) d2)|].
  - done.
  - cbn. rewrite fmap_app. apply elem_of_app. right. by left.
  - apply NoDup_nil_2.
  - unfold d2. rewrite directory_clear_members.
    by rewrite (directory_same_tables d1 (next_stmt d1)), Hd1.
  - intros r d' (Hwf & Hle & Hr). split; [done|]. exists 1. cbn in Hle. split; [lia|]. fold now.
    destruct r as [[]|e|]; [| |done].
    + destruct Hr as [Hnd ->]. by apply group_is_stored.
    + destruct Hr as (pre & x & post & Heq & Hnd & He & ->). by eapply group_half_stored.
Qed.

Lemma simulated_purge ttl d :
  db_wf d → wp (cache_do (PurgeExpired ttl)) (simulated (PurgeExpired ttl) d) d.
Proof.
  intros Hd. apply (wp_reply _ (λ _, Finished)). unfold purge_expired.
  destruct (u64_to_sql ttl) as [t|] eqn:Ht.
  2: { unfold bind_u64. rewrite Ht. split; [done|]. exists 0. split; [cbn; lia|].
       apply call_failed. by right. }
  assert (bind_u64 (S:=db) ttl = ret t) as -> by (unfold bind_u64; by rewrite Ht).
  set (n := stmt_no d).
  apply wp_bind, wp_ret. cbn [and_then]. apply wp_bind, wp_map_err, wp_execute.
  { intros e He. split; [by apply db_wf_next|]. exists 0. split; [cbn; lia|].
    rewrite (directory_same_tables d (next_stmt d)) by done. apply call_failed. left.
    by eapply sql_failure_from. }
  intros _. cbn [and_then]. set (d1 := set_group_members _ (next_stmt d)).
  assert (db_wf d1) as Hwf1 by by apply db_wf_filter_members, db_wf_next.
  assert (directory_of d1 = purge_members t (sql_now n) (directory_of d)) as Hd1.
  { unfold d1. rewrite directory_purge_members by by apply db_wf_next.
    by rewrite (directory_same_tables d (next_stmt d)). }
  apply wp_bind, wp_ret. cbn [and_then]. apply wp_bind, wp_map_err, wp_execute.
  { intros e He. split; [by apply db_wf_next|]. exists 1. split; [cbn; lia|].
    rewrite (directory_same_tables d1 (next_stmt d1)), Hd1 by done.
    apply members_purged_only; [done|]. by eapply sql_failure_from. }
  intros _. cbn [and_then]. set (d2 := delete_gid_rows _ (next_stmt d1)).
  assert (db_wf d2) as Hwf2 by by apply db_wf_delete_gid, db_wf_next.
  assert (directory_of d2 = purge_groups t (sql_now (S n)) (directory_of d1)) as Hd2.
  { unfold d2, purge_groups.
    rewrite (directory_delete_groups (next_stmt d1) _ (λ x, ¬ fresh_at (sql_now (S n)) t x))
      by (done || by apply db_wf_next).
    by rewrite (directory_same_tables d1 (next_stmt d1)). }
  apply wp_bind, wp_ret. cbn [and_then]. apply wp_map_err, wp_execute.
  { intros e He. split; [by apply db_wf_next|]. exists 2. split; [cbn; lia|].
    rewrite (directory_same_tables d2 (next_stmt d2)), Hd2, Hd1 by done.
    apply groups_purged_only; [done|]. by eapply sql_failure_from. }
  intros _. split; [by apply db_wf_filter_uid, db_wf_next|]. exists 3. split; [cbn; lia|].
  rewrite (directory_filter_users t _ (next_stmt d2)) by by apply db_wf_next.
  rewrite (directory_same_tables d2 (next_stmt d2)), Hd2, Hd1 by done. by apply expired_purged.
Qed.

Lemma cache_simulated call d :
  call_ok call → db_wf d → wp (cache_do call) (simulated call d) d.
Proof.
  intros Hok Hd. destruct call.
  - by apply simulated_resolve_uid.
  - by apply simulated_resolve_gid.
  - by apply simulated_store_user.
  - by apply simulated_user_by_uid.
  - by apply simulated_user_by_name.
  - by apply simulated_store_group.
  - by apply simulated_group_by_gid.
  - by apply simulated_group_by_name.
  - by apply simulated_purge.
  - by apply simulated_groups_for_member.
Qed.

(** ** Any sequence of calls *)

Fixpoint cache_run (calls : list cache_call) (d : db) : list (outcome CacheError cache_reply) * db :=
  match calls with
  | [] => ([], d)
  | call :: calls =>
      let '(r, d) := cache_do call d in
      let '(rs, d) := cache_run calls d in (r :: rs, d)
  end.

Definition clock_readings (d d' : db) : list Z :=
  sql_now <$> seq (stmt_no d) (stmt_no d' - stmt_no d).

(** What [calls] did, with the outcomes [rs]: steps of the directory, at times
    that the clock read while they ran. *)
Definition traced (calls : list cache_call) (rs : list (outcome CacheError cache_reply)) (d d' : db)
    (tr : list event) : Prop :=
  ev_call <$> tr = calls ∧ ev_reply <$> tr = rs ∧
  concat (ev_times <$> tr) `sublist_of` clock_readings d d' ∧
  dir_trace c (directory_of d) tr (directory_of d').

Lemma dir_step_returns D call ts r D' : dir_step c D (mk_event call ts r) D' → r ≠ Panic.
Proof. by inversion 1. Qed.

Lemma run_traced calls d :
  Forall call_ok calls → db_wf d →
  let '(rs, d') := cache_run calls d in
  db_wf d' ∧ stmt_no d ≤ stmt_no d' ∧ Forall (λ r, r ≠ Panic) rs ∧ ∃ tr, traced calls rs d d' tr.
Proof.
  revert d. induction calls as [|call calls IH]; intros d Hok Hd; cbn.
  { split_and!; [done|lia|constructor|]. exists []. split_and!; [done..|apply sublist_nil_l|constructor]. }
  apply Forall_cons in Hok as [Hc Hok]. pose proof (cache_simulated call d Hc Hd) as Hs. unfold wp in Hs.
  destruct (cache_do call d) as [r d1]. cbn [fst snd] in Hs. destruct Hs as (Hd1 & k & Hk & Hs).
  specialize (IH d1 Hok Hd1). destruct (cache_run calls d1) as [rs d2].
  destruct IH as (Hd2 & Hle & Hrs & tr & <- & <- & Hsub & Htr).
  split_and!; [done|lia|constructor; [by eapply dir_step_returns|done]|].
  exists (mk_event call (sql_now <$> seq (stmt_no d) k) r :: tr). split_and!; [done..| |by econstructor].
  cbn [fmap list_fmap concat ev_times]. unfold clock_readings in *.
  replace (stmt_no d2 - stmt_no d) with (k + (stmt_no d1 - stmt_no d - k) + (stmt_no d2 - stmt_no d1)) by lia.
  rewrite !seq_app, !fmap_app. apply sublist_app; [apply sublist_inserts_r; done|].
  replace (stmt_no d + (k + (stmt_no d1 - stmt_no d - k))) with (stmt_no d1) by lia. done.
Qed.

(** C16: every sequence of calls of the cache in which ids are resolved in usable
    ranges does what the directory promises, from any database that satisfies the
    schema: whatever statements fail and in whatever order rows come, each call
    returns, and each is a step of the directory that the tables stand for, with the
    outcome that was returned, at times that the clock read during the call. *)
Theorem cache_refines_directory calls d :
  Forall call_ok calls → db_wf d →
  let '(rs, d') := cache_run calls d in
  db_wf d' ∧ Forall (λ r, r ≠ Panic) rs ∧ ∃ tr, traced calls rs d d' tr.
Proof.
  intros Hok Hd. pose proof (run_traced calls d Hok Hd) as Hrun.
  destruct (cache_run calls d) as [rs d']. by destruct Hrun as (? & _ & ? & ?).
Qed.

Lemma readings_sorted d d' :
  (∀ n m, n ≤ m → (sql_now n ≤ sql_now m)%Z) → StronglySorted Z.le (clock_readings d d').
Proof.
  intros Hclock. unfold clock_readings. generalize (stmt_no d) (stmt_no d' - stmt_no d). intros n k.
  revert n. induction k as [|k IH]; intros n; cbn; constructor; [apply IH|].
  apply Forall_fmap, Forall_forall. intros m [Hm _]%elem_of_seq. apply Hclock. lia.
Qed.

Lemma StronglySorted_sublist {A} (R : relation A) (l k : list A) :
  l `sublist_of` k → StronglySorted R k → StronglySorted R l.
Proof.
  induction 1 as [|x l k Hs IH|x l k Hs IH]; intros Hk; [done|..]; inversion Hk; subst; [|auto].
  constructor; [auto|]. rewrite Forall_forall in *. eauto using elem_of_sublist.
Qed.

(** C17: whatever calls are made on a new cache file, as long as ids are resolved
    in usable ranges, the clock does not run backwards and every purge is given the
    ttl that lookups use: a lookup of a user that
    succeeds answers with the user of the last store of its identifier and of its
    uid if that store is younger than the ttl, and with none exactly when there is
    no such store. Those purges are never seen, and neither are calls that fail. *)
Theorem cached_users_are_the_latest_stores calls :
  Forall call_ok calls → (∀ ttl, PurgeExpired ttl ∈ calls → ttl = ttl_seconds c) →
  (∀ n m, n ≤ m → (sql_now n ≤ sql_now m)%Z) →
  let '(rs, d) := cache_run calls empty_db in
  ∃ tr, traced calls rs empty_db d tr ∧
    ∀ before ev after, tr = before ++ ev :: after → right_user_lookup c before ev.
Proof.
  intros Hok Hown Hclock. pose proof (run_traced calls empty_db Hok db_wf_empty) as Hrun.
  destruct (cache_run calls empty_db) as [rs d]. destruct Hrun as (_ & _ & _ & tr & Htr).
  exists tr. split; [done|]. intros before ev after ->. destruct Htr as (Hcalls & _ & Hsub & Htr).
  change (directory_of empty_db) with empty_directory in Htr.
  apply dir_trace_app in Htr as (D & Hbefore & Hev).
  inversion Hev as [|? ? D1 ? ? Hs _]; subst. eapply lookups_see_latest_stores; [done..| |].
  - intros ev' ttl Hin Hc'. apply Hown. rewrite <-Hc'. apply list_elem_of_fmap_2, elem_of_app. by left.
  - intros t t' Ht Ht'. pose proof (StronglySorted_sublist _ _ _ Hsub (readings_sorted _ _ Hclock)) as Hsorted.
    rewrite fmap_app, concat_app in Hsorted. eapply StronglySorted_app_1_elem_of; [exact Hsorted|done|].
    cbn [fmap list_fmap concat]. apply elem_of_app. by left.
Qed.
End simulation.

(** ** Witnesses: an engine whose clock ticks with every statement, and whose
    fourth statement fails *)

Definition ticking_engine : Sqlite := {|
  foreign_keys := true;
  sql_fault := λ n, if bool_decide (n = 3) then Some (SqliteFailure 5) else None;
  sql_now := λ n, (1000 + Z.of_nat n)%Z;
  scan_order := λ A n l, l;
  u64_to_sql := λ n, if bool_decide (n < 2 ^ 63)%Z then Some n else None;
|}.

Lemma ticking_engine_laws : @SqliteLaws ticking_engine.
Proof. split; [done|]. intros n Hn. simpl. by rewrite bool_decide_eq_true_2 by lia. Qed.

#[local] Existing Instances ticking_engine ticking_engine_laws release_build byte_sum_hash byte_sum_hash_laws.

Definition brief_cache : Cache := mk_cache 6.
Definition a_user (ext name : string) (uid : Z) : User :=
  mk_user ext name uid 200001 "" "/home" "/bin/sh" true.

(** Alice is stored and looked up, the store of a group fails at its second
    statement, and then a user with Alice's uid replaces her. *)
Definition busy_calls : list cache_call :=
  [StoreUser (a_user "1" "alice" 7); GetUserByUid 7;
   StoreGroup (mk_group "g" "staff" 9 ["alice"]); GetUserByName "alice"; ResolveUid "ab" 100 10;
   StoreUser (a_user "2" "bob" 7); PurgeExpired 6; GetUserByName "alice"; GetUserByUid 7].

Lemma busy_caching_ok : Forall call_ok busy_calls.
Proof. repeat constructor; vm_compute; congruence. Qed.

Example busy_outcomes : (cache_run brief_cache busy_calls empty_db).1 =
  [Ok Finished; Ok (FoundUser (Some (a_user "1" "alice" 7))); Err (Sqlite_error (SqliteFailure 5));
   Ok (FoundUser (Some (a_user "1" "alice" 7))); Ok (Resolved 105); Ok Finished; Ok Finished;
   Ok (FoundUser None); Ok (FoundUser (Some (a_user "2" "bob" 7)))].
Proof. vm_compute. reflexivity. Qed.

Lemma cache_refines_directory_witness :
  let '(rs, d) := cache_run brief_cache busy_calls empty_db in
  db_wf d ∧ Forall (λ r, r ≠ Panic) rs ∧ ∃ tr, traced brief_cache busy_calls rs empty_db d tr.
Proof. exact (cache_refines_directory brief_cache busy_calls empty_db busy_caching_ok db_wf_empty). Defined.

Lemma cached_users_are_the_latest_stores_witness :
  let '(rs, d) := cache_run brief_cache busy_calls empty_db in
  ∃ tr, traced brief_cache busy_calls rs empty_db d tr ∧
    ∀ before ev after, tr = before ++ ev :: after → right_user_lookup brief_cache before ev.
Proof.
  refine (cached_users_are_the_latest_stores brief_cache busy_calls busy_caching_ok _ _).
  - intros ttl Hin. unfold busy_calls in Hin.
    repeat (apply elem_of_cons in Hin as [Heq|Hin]; [by simplify_eq|]). by apply not_elem_of_nil in Hin.
  - intros n m Hnm. unfold sql_now, ticking_engine. lia.
Defined.
