(* ===== verification/CacheProps.v ===== *)
(** * CacheProps: the properties of the cache, with their witnesses *)

From S2P Require Import Prelude Model Mapping Fs Sql Cache CacheFacts.
From stdpp Require Import prelude strings list gmap sorting relations.

(** ** The schema's constraints in every reachable database *)

(** One call on the cache, by any of its operations and whatever its outcome. *)
Inductive cache_step `{Sqlite} `{BuildProfile} `{Murmur3} : db → db → Prop :=
  | step_resolve_uid ext min size d : cache_step d (resolve_uid ext min size d).2
  | step_resolve_gid ext min size d : cache_step d (resolve_gid ext min size d).2
  | step_store_user user d : cache_step d (store_user user d).2
  | step_get_user_by_uid c uid d : cache_step d (get_user_by_uid c uid d).2
  | step_get_user_by_name c name d : cache_step d (get_user_by_name c name d).2
  | step_store_group group d : cache_step d (store_group group d).2
  | step_get_group_by_gid c gid d : cache_step d (get_group_by_gid c gid d).2
  | step_get_group_by_name c name d : cache_step d (get_group_by_name c name d).2
  | step_purge_expired ttl d : cache_step d (purge_expired ttl d).2
  | step_get_groups_for_member c name d : cache_step d (get_groups_for_member c name d).2.

(** Resolving an identifier and storing the user built for it. *)
Definition allocate `{Sqlite} `{BuildProfile} `{Murmur3} (ext : string) (min size : Z)
    (mk : Z → User) : M db CacheError Z :=
  let? uid := resolve_uid ext min size in store_user (mk uid) ;;? ret uid.

Section allocation_properties.
Context `{SqliteLaws} `{BuildProfile} `{Murmur3Laws}.

(** On a well-formed cache and a usable range, resolving an identifier
    changes no table and gives the first slot in probe order that is free or
    already its own, or [RangeExhausted] exactly when every slot of the range
    is held by others; it fails otherwise only where a query fails, and never
    panics. The same holds of group ids. *)
Lemma resolve_ids_spec ext min size d :
  db_wf d → probe_range min size →
  wp (resolve_uid ext min size)
    (λ r d', same_tables d d' ∧ resolution (uid_holder d) ext min size r) d ∧
  wp (resolve_gid ext min size)
    (λ r d', same_tables d d' ∧ resolution (gid_holder d) ext min size r) d.
Proof. intros. split; [by apply resolve_uid_wp|by apply resolve_gid_wp]. Qed.

(** A stored user keeps its id: resolving it again after the store gives
    the id it was stored under, or fails where a query fails. *)
Theorem stored_uid_is_stable ext min size (mk : Z → User) d :
  db_wf d → probe_range min size →
  (∀ uid, user_uid (mk uid) = uid ∧ user_external_id (mk uid) = ext) →
  wp (let? uid := allocate ext min size mk in
      let? uid' := resolve_uid ext min size in ret (uid, uid'))
    (λ r _, match r with
      | Ok (uid, uid') => uid' = uid
      | Err e => sql_failure e ∨ e = RangeExhausted
      | Panic => False
      end) d.
Proof.
  intros Hd Hp Hmk. apply wp_bind, resolve_then_store_wp; [done..| |].
  - by intros e d' _ [?|[? _]]; [left|right].
  - intros uid now d' d'' Hd' Hr ->. destruct (Hmk uid) as [Hu He].
    assert (db_wf d') as Hwf by by eapply db_wf_same_tables.
    apply (resolution_uid_same d d') in Hr; [|done].
    pose proof (stored_at_resolved d' (user_row (mk uid) now) min size uid) as Hst.
    simpl in Hst. rewrite He in Hst. destruct Hst as (Hh & _ & Hkeep); [done..|].
    apply wp_bind. eapply wp_mono.
    + apply resolve_uid_wp; [by apply db_wf_next, db_wf_replace_uid|done].
    + intros r d2 [_ Hr2]. pose proof (resolution_stable _ _ _ _ _ _ _ Hr Hkeep Hh Hr2).
      destruct r as [uid'|e|]; [done|by left|done].
Qed.

(** C11: storing a user under the id just resolved for it takes no other
    user's row away, gives it exactly that id, and keeps the schema's
    constraints. *)
Theorem allocate_uid_evicts_nobody ext min size (mk : Z → User) d :
  db_wf d → probe_range min size →
  (∀ uid, user_uid (mk uid) = uid ∧ user_external_id (mk uid) = ext) →
  wp (allocate ext min size mk)
    (λ r d', db_wf d' ∧
      (∀ row, row ∈ uid_cache d → ur_external_id row ≠ ext → row ∈ uid_cache d') ∧
      match r with
      | Ok uid => (min ≤ uid < min + size)%Z ∧
          ∀ uid', uid_holder d' uid' = Some ext ↔ uid' = uid
      | Err e => sql_failure e ∨ e = RangeExhausted
      | Panic => False
      end) d.
Proof.
  intros Hd Hp Hmk. apply resolve_then_store_wp; [done..| |].
  - intros e d' Hd' He. split_and!; [by eapply db_wf_same_tables| |by destruct He as [?|[? _]]; auto].
    intros row Hrow _. destruct Hd' as (-> & _). done.
  - intros uid now d' d'' Hd' Hr ->. destruct (Hmk uid) as [Hu He].
    assert (db_wf d') as Hwf by by eapply db_wf_same_tables.
    pose proof (stored_at_resolved d' (user_row (mk uid) now) min size uid) as Hst.
    simpl in Hst. rewrite He in Hst. destruct Hst as (Hh & Huniq & _); [done..| |].
    { by apply (resolution_uid_same d). }
    split_and!; [by apply db_wf_next, db_wf_replace_uid| |apply Hr|apply Hr|].
    + intros row Hrow Hne. apply replace_uid_row_keeps; simpl; rewrite ?He, ?Hu; try done.
      * rewrite (uid_holder_same_tables d d') by done. apply Hr.
      * by destruct Hd' as (-> & _).
    + intros uid'. split; [apply Huniq|]. by intros ->.
Qed.
End allocation_properties.

Section cache_properties.
Context `{SqliteLaws} `{BuildProfile} `{Murmur3Laws}.

(** C18: every database reachable from the empty one by calls of the cache, failed
    calls included, satisfies the schema: no external identifier and no numeric
    id twice in a table, no member twice in a group, and no member of an absent
    group where foreign keys are enforced. *)
Theorem cache_reachable_wf d : rtc cache_step empty_db d → db_wf d.
Proof.
  revert d. apply rtc_ind_r; [apply db_wf_empty|].
  intros d d' _ Hstep Hd. destruct Hstep.
  - by apply preserves_resolve_uid.
  - by apply preserves_resolve_gid.
  - by apply preserves_store_user.
  - by apply preserves_get_user_by_uid.
  - by apply preserves_get_user_by_name.
  - by apply preserves_store_group.
  - by apply preserves_get_group_by_gid.
  - by apply preserves_get_group_by_name.
  - by apply preserves_purge_expired.
  - by apply preserves_get_groups_for_member.
Qed.

(** An identifier that is already cached is not looked up by [resolve_id]:
    when the first slot of its probe order is free, the identifier gets that
    slot, although its cached id is another one. *)
Lemma cached_id_is_not_returned ext min size h old d :
  db_wf d → probe_range min size → murmur3_32 ext 0 = Some h →
  uid_holder d old = Some ext → uid_holder d (min + h `mod` size)%Z = None →
  wp (resolve_uid ext min size) (λ r _, match r with
    | Ok uid => uid = (min + h `mod` size)%Z ∧ uid ≠ old
    | Err e => sql_failure e
    | Panic => False
    end) d.
Proof.
  intros Hd Hp Hh Hold Hfree. eapply wp_mono; [by apply resolve_uid_wp|].
  intros [uid|e|] d' [_ Hr]; [|destruct Hr as [?|[_ Hall]]; [done|]|done].
  - assert (uid = min + h `mod` size)%Z as ->; [|split; [done|congruence]].
    by apply (resolution_first_free (uid_holder d) ext _ _ h).
  - destruct (Hall (min + h `mod` size)%Z); [apply valid_range_slot, Hp|by left].
Qed.

(** The id of an identifier depends on who was seen before it: on an empty
    cache it gets its hash slot, and after another identifier of the same slot
    was stored it gets another id, with the same configuration. *)
Theorem uid_depends_on_arrival_order ext1 ext2 min size h1 h2 (mk1 mk2 : Z → User) :
  no_faults → probe_range min size → (2 ≤ size)%Z → ext1 ≠ ext2 →
  murmur3_32 ext1 0 = Some h1 → murmur3_32 ext2 0 = Some h2 →
  (h1 `mod` size = h2 `mod` size)%Z →
  (∀ uid, user_uid (mk1 uid) = uid ∧ user_external_id (mk1 uid) = ext1) →
  (∀ uid, user_uid (mk2 uid) = uid ∧ user_external_id (mk2 uid) = ext2) →
  let slot := (min + h2 `mod` size)%Z in
  wp (allocate ext2 min size mk2) (λ r _, r = Ok slot) empty_db ∧
  wp (allocate ext1 min size mk1 ;;? allocate ext2 min size mk2)
    (λ r _, ∃ uid, r = Ok uid ∧ uid ≠ slot) empty_db.
Proof.
  intros Hnf Hp Hsize Hne Hh1 Hh2 Hmod Hmk1 Hmk2 slot.
  assert (Hno : ∀ e, ¬ sql_failure e) by (intros e (n & e' & He & _); by rewrite Hnf in He).
  assert (Hslot : slot = (min + h1 `mod` size)%Z) by (subst slot; by rewrite Hmod).
  pose proof (valid_range_slot min size h2 (proj1 Hp)) as Hin. fold slot in Hin.
  split.
  - apply resolve_then_store_wp; [apply db_wf_empty|done..| |].
    + intros e d _ [He|[_ Hall]]; [by destruct (Hno e)|]. destruct (Hall slot Hin). by left.
    + intros uid now d d' _ Hr _. f_equal.
      by apply (resolution_first_free (uid_holder empty_db) ext2 _ _ h2).
  - apply wp_bind, resolve_then_store_wp; [apply db_wf_empty|done..| |].
    + intros e d _ [He|[_ Hall]]; [by destruct (Hno e)|]. destruct (Hall slot Hin). by left.
    + intros uid now d d' Hd Hr ->. destruct (Hmk1 uid) as [Hu1 He1].
      apply (resolution_first_free (uid_holder empty_db) ext1 min size h1) in Hr; [|done..].
      rewrite <-Hslot in Hr. subst uid.
      assert (db_wf d) as Hwf by (eapply db_wf_same_tables; [done|apply db_wf_empty]).
      assert (Hh : ∀ c, uid_holder (next_stmt (replace_uid_row (user_row (mk1 slot) now) d)) c =
        if bool_decide (slot = c) then Some ext1 else None).
      { intros c. change (uid_holder (next_stmt ?d)) with (uid_holder d).
        rewrite uid_holder_replace by done. simpl. rewrite Hu1, He1.
        rewrite (uid_holder_same_tables _ _ _ Hd). by repeat case_bool_decide. }
      cbn [and_then]. apply resolve_then_store_wp; [by apply db_wf_next, db_wf_replace_uid|done..| |].
      * intros e d' _ [He|[_ Hall]]; [by destruct (Hno e)|].
        destruct (exists_other_slot min size slot) as (c & Hc & Hcne); [lia..|].
        destruct (Hall c Hc). left. by rewrite Hh, bool_decide_eq_false_2.
      * intros uid now' d' d'' _ (_ & Hav & _) _. exists uid. split; [done|]. intros ->.
        rewrite Hh, bool_decide_eq_true_2 in Hav by done. by destruct Hav as [?|[= ?]].
Qed.

(** A user stored in the cache is read back by uid exactly as stored, as
    long as the clock has moved by less than the ttl. *)
Lemma store_user_roundtrip c user d :
  no_faults → (0 ≤ ttl_seconds c < 2 ^ 63)%Z → within_ttl (ttl_seconds c) →
  (store_user user ;;? get_user_by_uid c (user_uid user)) d =
    (Ok (Some user), next_stmt (store_user user d).2).
Proof.
  intros Hnf Httl Hw.
  unfold store_user, execute, map_err, statement, bind at 1. rewrite Hnf. cbn [fst snd].
  unfold get_user_by_uid, bind_u64. rewrite u64_to_sql_fits by done.
  unfold query, map_err, statement, bind, ret. cbn -[filter]. rewrite Hnf.
  cbn -[filter]. do 2 f_equal.
  rewrite filter_app, filter_cons_True by (split; [done|apply Hw]). rewrite filter_nil.
  replace (filter _ (filter _ (uid_cache d))) with (@nil uid_row).
  - simpl. rewrite scan_order_singleton. by destruct user.
  - rewrite list_filter_filter. destruct (filter _ _) as [|r rs] eqn:Hf; [done|].
    assert (r ∈ r :: rs) as Hr by left. rewrite <-Hf in Hr.
    apply list_elem_of_filter in Hr as [[[Hu _] Hc] _]. destruct Hc. by right.
Qed.

(** Whatever the statements do, the lookups of users answer with a row of
    the table that carries the key asked for and that was cached less than the
    ttl before the query, all its columns included, and they answer [None] only
    when there is no such row; they change no table and never panic. *)
Theorem user_lookups_respect_ttl c uid name d :
  wp (get_user_by_uid c uid) (λ r d', same_tables d d' ∧
    match r with
    | Ok res => ∃ ttl, u64_to_sql (ttl_seconds c) = Some ttl ∧
        lookup_answer (uid_cache d) (λ r, ur_uid r = uid) ur_cached_at
          (sql_now (stmt_no d)) ttl (λ r u, row_user r = u) res
    | Err e => lookup_failure (ttl_seconds c) e
    | Panic => False
    end) d ∧
  wp (get_user_by_name c name) (λ r d', same_tables d d' ∧
    match r with
    | Ok res => ∃ ttl, u64_to_sql (ttl_seconds c) = Some ttl ∧
        lookup_answer (uid_cache d) (λ r, ur_login r = name) ur_cached_at
          (sql_now (stmt_no d)) ttl (λ r u, row_user r = u) res
    | Err e => lookup_failure (ttl_seconds c) e
    | Panic => False
    end) d.
Proof. split; [apply get_user_by_uid_wp|apply get_user_by_name_wp]. Qed.

(** C30: where no statement fails, a group whose members have distinct names is
    read back by gid as stored, up to the order of its members, while the clock has moved by less
    than the ttl. *)
Theorem store_group_roundtrip c group d :
  no_faults → (0 ≤ ttl_seconds c < 2 ^ 63)%Z → within_ttl (ttl_seconds c) →
  db_wf d → NoDup (group_members group) →
  wp (store_group group ;;? get_group_by_gid c (group_gid group))
    (λ r _, ∃ g, r = Ok (Some g) ∧ g ≡ group) d.
Proof.
  intros Hnf Httl Hw Hd Hnd. apply wp_bind.
  eapply wp_mono; [by apply store_group_wp|].
  intros r d' (Hwf & _ & (now & Hg & Hnow) & _ & Hres).
  destruct Hres as [(_ & -> & Hm)|(pre & x & post & Heq & _ & Hx & _)].
  2: { rewrite Heq in Hnd. apply NoDup_app in Hnd as (_ & Hdis & _).
       destruct (Hdis x Hx). by left. }
  assert (Hrow : group_row group now ∈ gid_cache d').
  { rewrite Hg. simpl. apply elem_of_app. right. by left. }
  cbn [and_then]. eapply wp_mono; [apply get_group_by_gid_wp|].
  intros r d'' [_ Hr].
  destruct r as [res|e|]; [|destruct Hr as [(n & e' & He' & _)|[He' _]]|done].
  2: by rewrite Hnf in He'. 2: by rewrite u64_to_sql_fits in He'.
  destruct Hr as (ttl & Hu & Hres). rewrite u64_to_sql_fits in Hu by done.
  injection Hu as <-. destruct res as [g|].
  - exists g. split; [done|]. destruct Hres as (row & Hin & Hgid & _ & (?&?&?&?)).
    assert (row = group_row group now) as ->.
    { eapply (NoDup_fmap_inj gr_gid); [apply Hwf|done..]. }
    split_and!; [done..|]. by rewrite <-Hm.
  - destruct (Hres _ Hrow eq_refl). rewrite Hnow. apply Hw.
Qed.

(** A group with a repeated member name is not stored whole: after the
    group's row was replaced and its old members deleted, the insertion stops
    at the first repetition with a constraint error, and the members before it
    are all the cache then lists for the group. *)
Lemma store_group_repeated_member group pre x post d :
  no_faults → db_wf d →
  group_members group = pre ++ x :: post → NoDup pre → x ∈ pre →
  wp (store_group group) (λ r d',
    r = Err (Sqlite_error ConstraintViolation) ∧
    members_of d' (group_external_id group) = pre ∧
    group_external_id group ∈ gr_external_id <$> gid_cache d') d.
Proof.
  intros Hnf Hd Heq Hnd Hx. eapply wp_mono; [by apply store_group_wp|].
  intros r d' (_ & _ & (now & Hg & _) & _ & [(Hall & _)|Hres]).
  - rewrite Heq in Hall. apply NoDup_app in Hall as (_ & Hdis & _).
    destruct (Hdis x Hx). by left.
  - destruct Hres as (pre' & x' & post' & Heq' & Hnd' & Hx' & -> & Hm).
    split_and!; [done| |].
    + rewrite Hm. rewrite Heq in Heq'. clear -Heq' Hnd Hnd' Hx Hx'.
      destruct (first_repetition_unique pre pre' x x' post post'); done.
    + rewrite Hg. simpl. rewrite fmap_app. apply elem_of_app. right. by left.
Qed.
End cache_properties.

Section more_cache_properties.
Context `{SqliteLaws} `{BuildProfile} `{Murmur3Laws}.

(** After a purge the tables hold exactly the rows that were cached less
    than the ttl before the deletion that visits them, and exactly the members
    of groups no deletion removed. *)
Theorem purge_expired_spec ttl d :
  no_faults → (0 ≤ ttl < 2 ^ 63)%Z →
  wp (purge_expired ttl) (λ r d', r = Ok tt ∧
    purged ttl (sql_now (stmt_no d)) (sql_now (S (stmt_no d))) (sql_now (S (S (stmt_no d)))) d d') d.
Proof. intros. by apply purge_expired_wp. Qed.

(** The offline group membership of a user is every unexpired cached group
    that lists the name, each exactly once, with its columns and members. *)
Theorem get_groups_for_member_spec c name d :
  db_wf d →
  wp (get_groups_for_member c name) (λ r d', same_tables d d' ∧
    match r with
    | Ok gs => ∃ ttl rs, u64_to_sql (ttl_seconds c) = Some ttl ∧
        Forall2 (group_of_row d) rs gs ∧
        rs ≡ₚ filter (λ g, mk_member_row (gr_external_id g) name ∈ group_members_table d ∧
          unexpired (sql_now (stmt_no d)) ttl (gr_cached_at g)) (gid_cache d)
    | Err e => lookup_failure (ttl_seconds c) e
    | Panic => False
    end) d.
Proof. apply get_groups_for_member_wp. Qed.
End more_cache_properties.

Section file_properties.
Context `{Os} `{SqliteLaws} `{SqliteFile}.

(** C36: a cache on a path opens only when that path is, in the end, a regular
    file owned by root with mode 0600, and the handle carries the configured
    ttl; opening never panics. *)
Theorem open_requires_private_file path ttl s :
  path ≠ ":memory:" →
  (∀ fs, wp (connection_open path) (λ r _, r ≠ Panic) fs) →
  wp (open path ttl) (λ r s', match r with
    | Ok c => ttl_seconds c = ttl ∧ ∃ i, st_fs s' !! path = Some i ∧ private_root_file i
    | Err _ => True
    | Panic => False
    end) s.
Proof.
  intros Hpath Hopen. apply wp_bind, wp_zoom, wp_map_err.
  eapply wp_mono; [apply Hopen|]. intros [[]|e|] fs Hr; [|done|done]. cbn [and_then].
  rewrite bool_decide_eq_true_2 by done. apply wp_bind, wp_zoom.
  eapply wp_mono; [apply harden_cache_file_wp|]. intros [[]|e|] fs' Hh; [|done|done].
  destruct Hh as (_ & Hi & _). cbn [and_then].
  apply wp_bind, wp_zoom, wp_map_err, wp_execute; [done|intros _].
  cbn [and_then]. apply wp_bind, wp_zoom, wp_map_err, wp_execute; [done|intros _].
  cbn [and_then]. by apply wp_ret.
Qed.

(** A cache file that is not root's is refused with an error and left as
    it was. *)
Theorem harden_refuses_foreign_file path fs i :
  fs !! path = Some i → meta_uid (inode_meta i) ≠ 0%Z →
  wp (harden_cache_file path) (λ r fs',
    fs' = fs ∧ ∃ detail, r = Err (InsecurePermissions path detail)) fs.
Proof.
  intros Hi Hu. eapply wp_mono; [apply harden_cache_file_wp|].
  intros [[]|e|] fs' Hr; [|destruct Hr as [-> [d ->]]; eauto|done].
  destruct Hr as ((i' & Hi' & _ & Hu') & _). congruence.
Qed.
End file_properties.

(** ** Witnesses: the properties at concrete inputs *)

#[local] Instance sample_engine : Sqlite := still_engine true 1000.
#[local] Instance sample_engine_laws : SqliteLaws := still_engine_laws true 1000.
#[local] Existing Instance release_build.
#[local] Existing Instance byte_sum_hash.
#[local] Existing Instance byte_sum_hash_laws.

Definition sample_cache : Cache := mk_cache 3600.
Definition sample_user (ext name : string) (uid : Z) : User :=
  mk_user ext name uid 200001 "Alice Smith" "/home/alice" "/bin/bash" true.
Definition sample_group (members : list string) : Group :=
  mk_group "grp-456" "engineering" 200010 members.

Lemma sample_range : probe_range 100 10.
Proof. vm_compute. repeat split; congruence. Qed.

Lemma sample_no_faults : no_faults.
Proof. by intros n. Qed.

Lemma sample_ttl : (0 ≤ ttl_seconds sample_cache < 2 ^ 63)%Z.
Proof. by vm_compute. Qed.

Lemma sample_within_ttl : within_ttl (ttl_seconds sample_cache).
Proof. intros n m. by vm_compute. Qed.

Lemma sample_user_shape ext name uid :
  user_uid (sample_user ext name uid) = uid ∧ user_external_id (sample_user ext name uid) = ext.
Proof. done. Qed.

Lemma resolve_ids_spec_witness :
  wp (resolve_uid "abc" 100 10)
    (λ r d', same_tables empty_db d' ∧ resolution (uid_holder empty_db) "abc" 100 10 r) empty_db ∧
  wp (resolve_gid "abc" 100 10)
    (λ r d', same_tables empty_db d' ∧ resolution (gid_holder empty_db) "abc" 100 10 r) empty_db.
Proof. exact (resolve_ids_spec "abc" 100 10 empty_db db_wf_empty sample_range). Defined.

Lemma stored_uid_is_stable_witness :
  wp (let? uid := allocate "abc" 100 10 (sample_user "abc" "alice") in
      let? uid' := resolve_uid "abc" 100 10 in ret (uid, uid'))
    (λ r _, match r with
      | Ok (uid, uid') => uid' = uid
      | Err e => sql_failure e ∨ e = RangeExhausted
      | Panic => False
      end) empty_db.
Proof.
  exact (stored_uid_is_stable "abc" 100 10 (sample_user "abc" "alice") empty_db
    db_wf_empty sample_range (sample_user_shape "abc" "alice")).
Defined.

Lemma allocate_uid_evicts_nobody_witness :
  wp (allocate "abc" 100 10 (sample_user "abc" "alice"))
    (λ r d', db_wf d' ∧
      (∀ row, row ∈ uid_cache empty_db → ur_external_id row ≠ "abc" → row ∈ uid_cache d') ∧
      match r with
      | Ok uid => (100 ≤ uid < 100 + 10)%Z ∧ ∀ uid', uid_holder d' uid' = Some "abc" ↔ uid' = uid
      | Err e => sql_failure e ∨ e = RangeExhausted
      | Panic => False
      end) empty_db.
Proof.
  exact (allocate_uid_evicts_nobody "abc" 100 10 (sample_user "abc" "alice") empty_db
    db_wf_empty sample_range (sample_user_shape "abc" "alice")).
Defined.

Lemma cache_reachable_wf_witness :
  db_wf (store_group (sample_group ["alice"; "bob"]) empty_db).2.
Proof. apply cache_reachable_wf, rtc_once, step_store_group. Defined.

(** The byte sums of ["ab"] and ["ba"] agree, so their probe orders do. *)
Definition displaced_db : db := replace_uid_row (mk_uid_row "ba" "bob" 106 "" "" "" 0 true 1000) empty_db.

Lemma cached_id_is_not_returned_witness :
  uid_holder displaced_db 106 = Some "ba" ∧
  (resolve_uid "ba" 100 10 displaced_db).1 = Ok 105%Z ∧
  wp (resolve_uid "ba" 100 10) (λ r _, match r with
    | Ok uid => uid = 105%Z ∧ uid ≠ 106%Z
    | Err e => sql_failure e
    | Panic => False
    end) displaced_db.
Proof.
  split; [vm_compute; reflexivity|split; [vm_compute; reflexivity|]].
  apply (cached_id_is_not_returned "ba" 100 10 195 106 displaced_db).
  - apply db_wf_replace_uid, db_wf_empty.
  - exact sample_range.
  - vm_compute. reflexivity.
  - vm_compute. reflexivity.
  - vm_compute. reflexivity.
Defined.

Lemma uid_depends_on_arrival_order_witness :
  wp (allocate "ba" 100 10 (sample_user "ba" "bob")) (λ r _, r = Ok 105%Z) empty_db ∧
  wp (allocate "ab" 100 10 (sample_user "ab" "alice") ;;?
      allocate "ba" 100 10 (sample_user "ba" "bob"))
    (λ r _, ∃ uid, r = Ok uid ∧ uid ≠ 105%Z) empty_db.
Proof.
  apply (uid_depends_on_arrival_order "ab" "ba" 100 10 195 195
    (sample_user "ab" "alice") (sample_user "ba" "bob") sample_no_faults sample_range);
    try apply sample_user_shape; vm_compute; congruence.
Defined.

Lemma store_user_roundtrip_witness :
  ((store_user (sample_user "abc-123" "alice" 200042) ;;? get_user_by_uid sample_cache 200042)
    empty_db).1 = Ok (Some (sample_user "abc-123" "alice" 200042)).
Proof.
  exact (f_equal fst (store_user_roundtrip sample_cache (sample_user "abc-123" "alice" 200042)
    empty_db sample_no_faults sample_ttl sample_within_ttl)).
Defined.

Lemma user_lookups_respect_ttl_witness :
  wp (get_user_by_uid sample_cache 106) (λ r d', same_tables displaced_db d' ∧
    match r with
    | Ok res => ∃ ttl, u64_to_sql 3600 = Some ttl ∧
        lookup_answer (uid_cache displaced_db) (λ r, ur_uid r = 106%Z) ur_cached_at
          1000 ttl (λ r u, row_user r = u) res
    | Err e => lookup_failure 3600 e
    | Panic => False
    end) displaced_db ∧
  (get_user_by_name sample_cache "bob" displaced_db).1 =
    Ok (Some (mk_user "ba" "bob" 106 0 "" "" "" true)).
Proof.
  split; [|vm_compute; reflexivity].
  exact (proj1 (user_lookups_respect_ttl sample_cache 106 "bob" displaced_db)).
Defined.

Lemma store_group_roundtrip_witness :
  wp (store_group (sample_group ["alice"; "bob"]) ;;? get_group_by_gid sample_cache 200010)
    (λ r _, ∃ g, r = Ok (Some g) ∧ g ≡ sample_group ["alice"; "bob"]) empty_db.
Proof.
  apply (store_group_roundtrip sample_cache (sample_group ["alice"; "bob"]) empty_db
    sample_no_faults sample_ttl sample_within_ttl db_wf_empty).
  apply (bool_decide_unpack _). vm_compute. exact I.
Defined.

Lemma store_group_repeated_member_witness :
  wp (store_group (sample_group ["John Smith"; "alice"; "John Smith"; "bob"])) (λ r d',
    r = Err (Sqlite_error ConstraintViolation) ∧
    members_of d' "grp-456" = ["John Smith"; "alice"] ∧
    "grp-456" ∈ gr_external_id <$> gid_cache d') empty_db.
Proof.
  apply (store_group_repeated_member
    (sample_group ["John Smith"; "alice"; "John Smith"; "bob"])
    ["John Smith"; "alice"] "John Smith" ["bob"] empty_db sample_no_faults db_wf_empty).
  - reflexivity.
  - apply (bool_decide_unpack _). vm_compute. exact I.
  - left.
Defined.

Lemma purge_expired_spec_witness :
  wp (purge_expired 0) (λ r d', r = Ok tt ∧ purged 0 1000 1000 1000 displaced_db d') displaced_db.
Proof. apply (purge_expired_spec 0 displaced_db sample_no_faults). by vm_compute. Defined.

Lemma get_groups_for_member_spec_witness :
  let d := (store_group (sample_group ["alice"; "bob"]) empty_db).2 in
  wp (get_groups_for_member sample_cache "alice") (λ r d', same_tables d d' ∧
    match r with
    | Ok gs => ∃ ttl rs, u64_to_sql 3600 = Some ttl ∧ Forall2 (group_of_row d) rs gs ∧
        rs ≡ₚ filter (λ g, mk_member_row (gr_external_id g) "alice" ∈ group_members_table d ∧
          unexpired (sql_now (stmt_no d)) ttl (gr_cached_at g)) (gid_cache d)
    | Err e => lookup_failure 3600 e
    | Panic => False
    end) d.
Proof.
  apply (get_groups_for_member_spec sample_cache "alice").
  apply preserves_store_group, db_wf_empty.
Defined.

Example offline_groups_of_alice :
  (get_groups_for_member sample_cache "alice"
    (store_group (sample_group ["alice"; "bob"]) empty_db).2).1
  = Ok [sample_group ["alice"; "bob"]].
Proof. vm_compute. reflexivity. Qed.

#[local] Instance sample_os : Os := {| os_fault := λ _ _, None; geteuid := 0 |}.

(** Opening leaves an existing file alone and creates a new one with 0644. *)
#[local] Instance sample_file : SqliteFile := λ path fs,
  (Ok tt, match fs !! path with
          | Some _ => fs
          | None => <[path := mk_inode (mk_file_meta true 33188 0) None]> fs
          end).

Lemma open_requires_private_file_witness :
  wp (open "/var/lib/sssd-oidc/cache.db" 3600) (λ r s', match r with
    | Ok c => ttl_seconds c = 3600%Z ∧
        ∃ i, st_fs s' !! "/var/lib/sssd-oidc/cache.db" = Some i ∧ private_root_file i
    | Err _ => True
    | Panic => False
    end) (mk_storage ∅ empty_db).
Proof.
  apply (open_requires_private_file "/var/lib/sssd-oidc/cache.db" 3600).
  - discriminate.
  - intros fs. vm_compute. discriminate.
Defined.

Lemma harden_refuses_foreign_file_witness :
  let fs : filesystem := {["cache.db" := mk_inode (mk_file_meta true 33152 1000) None]} in
  wp (harden_cache_file "cache.db") (λ r fs',
    fs' = fs ∧ ∃ detail, r = Err (InsecurePermissions "cache.db" detail)) fs.
Proof.
  apply (harden_refuses_foreign_file "cache.db" _
    (mk_inode (mk_file_meta true 33152 1000) None)); [reflexivity|discriminate].
Defined.

Example opened_cache_is_0600 :
  meta_mode ∘ inode_meta <$>
    st_fs (open "cache.db" 3600 (mk_storage ∅ empty_db)).2 !! "cache.db" = Some 33152%Z.
Proof. vm_compute. reflexivity. Qed.
