(* ===== verification/MockIdp.v ===== *)
(** * MockIdp: the mock SCIM and OIDC server ([crates/mock-idp/src/main.rs])

    A concrete world: the end-to-end tests run the modules against it, and the
    witnesses of this development run the model against it. *)

From S2P Require Import Prelude Value Http.
From stdpp Require Import prelude strings list.

(** A mounted mock: what it matches, and what it responds. *)
Record Mock := mk_mock {
  mock_method : http_method;
  mock_path : string;
  mock_query : list (string * string);
  mock_status : Z;
  mock_body : value;
  mock_up_to_n_times : option nat;
}.

Definition given (m : http_method) (path : string) (query : list (string * string))
    (status : Z) (body : value) : Mock := mk_mock m path query status body None.

Definition list_response_schemas : value :=
  VArray [VString "urn:ietf:params:scim:api:messages:2.0:ListResponse"].

Definition alice_json : value := VObject
  [("id", VString "user-uuid-alice-001"); ("userName", VString "alice");
   ("displayName", VString "Alice Smith"); ("active", VBool true);
   ("groups", VArray [VObject [("value", VString "group-uuid-eng-001");
                               ("display", VString "engineering")]])].
Definition bob_json : value := VObject
  [("id", VString "user-uuid-bob-002"); ("userName", VString "disabled_bob");
   ("displayName", VString "Bob Disabled"); ("active", VBool false); ("groups", VArray [])].
Definition engineering_json : value := VObject
  [("id", VString "group-uuid-eng-001"); ("displayName", VString "engineering");
   ("members", VArray [VObject [("value", VString "user-uuid-alice-001");
                                ("display", VString "alice")]])].

Definition dquote (s : string) : string :=
  String (Ascii.ascii_of_nat 34) "" +:+ s +:+ String (Ascii.ascii_of_nat 34) "".

Definition found (total : Z) (resources : list value) : value :=
  VObject [("schemas", list_response_schemas); ("totalResults", VInt total);
           ("Resources", VArray resources)].
Definition page (total : Z) (resources : list value) : value :=
  VObject [("schemas", list_response_schemas); ("totalResults", VInt total);
           ("startIndex", VInt 1); ("itemsPerPage", VInt 100); ("Resources", VArray resources)].

Definition mount_scim_mocks : list Mock :=
  [given GET "/Users" [("filter", "userName eq " +:+ dquote "alice")] 200 (found 1 [alice_json]);
   given GET "/Users" [("filter", "userName eq " +:+ dquote "disabled_bob")] 200 (found 1 [bob_json]);
   given GET "/Groups" [("filter", "displayName eq " +:+ dquote "engineering")] 200
     (found 1 [engineering_json]);
   given GET "/Users" [("startIndex", "1"); ("count", "100")] 200 (page 2 [alice_json; bob_json]);
   given GET "/Groups" [("startIndex", "1"); ("count", "100")] 200 (page 1 [engineering_json]);
   given GET "/Users" [("count", "0")] 200 (found 2 []);
   given GET "/Users/user-uuid-alice-001" [] 200 alice_json;
   given GET "/Groups/group-uuid-eng-001" [] 200 engineering_json].

Definition mount_oidc_mocks (base : string) : list Mock :=
  [given GET "/.well-known/openid-configuration" [] 200 (VObject
     [("issuer", VString base);
      ("authorization_endpoint", VString (base +:+ "/authorize"));
      ("token_endpoint", VString (base +:+ "/token"));
      ("device_authorization_endpoint", VString (base +:+ "/device"));
      ("jwks_uri", VString (base +:+ "/jwks"));
      ("userinfo_endpoint", VString (base +:+ "/userinfo"))]);
   given POST "/device" [] 200 (VObject
     [("device_code", VString "test-device-code-001"); ("user_code", VString "ABCD-1234");
      ("verification_uri", VString (base +:+ "/activate"));
      ("verification_uri_complete", VString (base +:+ "/activate?code=ABCD-1234"));
      ("expires_in", VInt 600); ("interval", VInt 1)]);
   mk_mock POST "/token" [] 400 (VObject
     [("error", VString "authorization_pending");
      ("error_description", VString "The user has not yet completed authorization")]) (Some 1);
   given POST "/token" [] 200 (VObject
     [("access_token", VString "test-access-token-001"); ("id_token", VString "test-id-token-001");
      ("token_type", VString "Bearer")])].

(** The server's [main]: the SCIM mocks, then the OIDC ones. *)
Definition mock_idp (base : string) : list Mock := mount_scim_mocks ++ mount_oidc_mocks base.

(** [wiremock] answers with the first mounted mock that matches and has not
    been used up, and with 404 when there is none. *)
Section server.
Variables (json_print : value → string) (base : string).

Definition mock_matches (m : Mock) (r : Request) : Prop :=
  mock_method m = req_method r ∧ req_url r = base +:+ mock_path m ∧
  Forall (λ q, q ∈ req_query r) (mock_query m).

#[export] Instance http_method_eq_dec : EqDecision http_method.
Proof. solve_decision. Defined.
#[export] Instance mock_matches_dec m r : Decision (mock_matches m r).
Proof. unfold mock_matches. apply _. Defined.

Definition mock_left (m : Mock) (log : net) : Prop :=
  match mock_up_to_n_times m with
  | None => True
  | Some n => length (filter (mock_matches m) (requests log)) < n
  end.
#[export] Instance mock_left_dec m log : Decision (mock_left m log).
Proof. unfold mock_left. destruct (mock_up_to_n_times m); apply _. Defined.

Definition mock_response (mocks : list Mock) (log : net) (r : Request) : Response :=
  match filter (λ m, mock_matches m r ∧ mock_left m log) mocks with
  | m :: _ => mk_response (mock_status m) (Some (json_print (mock_body m)))
  | [] => mk_response 404 (Some "")
  end.

(** Time passes only while the program sleeps. *)
Definition slept (log : net) : Z :=
  foldr (λ e acc, match e with Slept _ n => Z.max 0 n | _ => 0 end + acc)%Z 0%Z log.

Definition mock_world (mocks : list Mock) : World := {|
  transport := λ log r, inr (mock_response mocks log r);
  instant_now := λ log, (slept log * nanos_per_sec)%Z;
|}.

Lemma slept_app l1 l2 : slept (l1 ++ l2) = (slept l1 + slept l2)%Z.
Proof.
  induction l1 as [|e l1 IH]; [done|]. unfold slept in *. cbn [app foldr]. rewrite IH. lia.
Qed.

Lemma slept_nonneg l : (0 ≤ slept l)%Z.
Proof.
  induction l as [|e l IH]; [done|]. unfold slept in *. cbn [foldr]. destruct e; lia.
Qed.

Lemma mock_world_laws mocks : @WorldLaws (mock_world mocks).
Proof.
  split; cbn [instant_now mock_world]; unfold nanos_per_sec.
  - intros h. pose proof (slept_nonneg h). lia.
  - intros h e. rewrite slept_app. pose proof (slept_nonneg [e]). lia.
  - intros h t n Ht. rewrite slept_app.
    change (slept [Slept t n]) with (Z.max 0 n + 0)%Z. lia.
Qed.
End server.

(** ** A printer and a parser for the documents of the mock *)

Fixpoint print_value (v : value) : string :=
  match v with
  | VNull => "null"
  | VBool b => if b then "true" else "false"
  | VInt z => fmt_dec z
  | VFloat text => text
  | VString s => dquote s
  | VArray l => "[" +:+ foldr (λ v acc, print_value v +:+ "," +:+ acc) "]" l
  | VObject kvs => "{" +:+
      foldr (λ kv acc, dquote kv.1 +:+ ":" +:+ print_value kv.2 +:+ "," +:+ acc) "}" kvs
  end.

Definition document_parser (documents : list value) : JsonParser := λ text,
  head (filter (λ v, print_value v = text) documents).

Definition mock_base : string := "http://0.0.0.0:9980".
Definition mock_mocks : list Mock := mock_idp mock_base.
Definition idp_world : World := mock_world print_value mock_base mock_mocks.
Definition idp_parser : JsonParser := document_parser (mock_body <$> mock_mocks).
