(* ===== verification/Scim.v ===== *)
(** * Scim: the SCIM 2.0 client ([src/scim.rs]) *)

From S2P Require Import Prelude Text Value Http.
From Stdlib Require Import Ascii.
From stdpp Require Import prelude strings list.

(** The [percent_encoding] crate: its set of control characters, and the
    encoding of a string under a set of characters. *)
Class PercentEncoding := {
  controls : byte → bool;
  utf8_percent_encode : string → (byte → bool) → string;
}.

(** [CONTROLS] and fifteen more characters, the double quote (34) among them. *)
Definition PATH_SEGMENT_ENCODE `{PercentEncoding} (b : byte) : bool :=
  controls b || bool_decide (b ∈
    [" "; "034"; "#"; "%"; "/"; "?"; "["; "]"; "<"; ">"; "^"; "`"; "{"; "|"; "}"]%char).

Inductive ScimError :=
  | Scim_http (e : ureq_error)
  | Scim_json (e : string)
  | UserNotFound (name : string)
  | GroupNotFound (name : string).

#[export] Instance scim_error_from_ureq : From ureq_error ScimError := Scim_http.

Record ScimGroupRef := mk_scim_group_ref {
  sgr_value : string;
  sgr_display : option string;
}.

Record ScimUser := mk_scim_user {
  su_id : string;
  su_user_name : string;
  su_display_name : option string;
  su_active : option bool;
  su_groups : list ScimGroupRef;
}.

Record ScimMemberRef := mk_scim_member_ref {
  smr_value : string;
  smr_display : option string;
}.

Record ScimGroup := mk_scim_group {
  sg_id : string;
  sg_display_name : string;
  sg_members : list ScimMemberRef;
}.

Record ListResponse (T : Type) := mk_list_response {
  lr_total_results : Z;
  lr_resources : list T;
}.
Arguments mk_list_response {T} _ _.
Arguments lr_total_results {T} _.
Arguments lr_resources {T} _.

Definition decode_ScimGroupRef : decoder ScimGroupRef := λ v,
  v ← as_struct 2 v;
  value ← required v 0 "value" decode_string;
  display ← defaulted v 1 "display" None (decode_option decode_string);
  Some (mk_scim_group_ref value display).

Definition decode_ScimUser : decoder ScimUser := λ v,
  v ← as_struct 5 v;
  id ← required v 0 "id" decode_string;
  user_name ← required v 1 "userName" decode_string;
  display_name ← defaulted v 2 "displayName" None (decode_option decode_string);
  active ← defaulted v 3 "active" None (decode_option decode_bool);
  groups ← defaulted v 4 "groups" [] (decode_vec decode_ScimGroupRef);
  Some (mk_scim_user id user_name display_name active groups).

Definition decode_ScimMemberRef : decoder ScimMemberRef := λ v,
  v ← as_struct 2 v;
  value ← required v 0 "value" decode_string;
  display ← defaulted v 1 "display" None (decode_option decode_string);
  Some (mk_scim_member_ref value display).

Definition decode_ScimGroup : decoder ScimGroup := λ v,
  v ← as_struct 3 v;
  id ← required v 0 "id" decode_string;
  display_name ← required v 1 "displayName" decode_string;
  members ← defaulted v 2 "members" [] (decode_vec decode_ScimMemberRef);
  Some (mk_scim_group id display_name members).

Definition decode_ListResponse {T} (dec : decoder T) : decoder (ListResponse T) := λ v,
  v ← as_struct 2 v;
  total_results ← defaulted v 0 "totalResults" 0%Z decode_u64;
  resources ← defaulted v 1 "Resources" [] (decode_vec dec);
  Some (mk_list_response total_results resources).

(** The two characters that need an escape are one byte each, and no byte of
    another character equals one of them. *)
Fixpoint escape_filter_value (value : string) : string :=
  match value with
  | "" => ""
  | String ch value =>
      if bool_decide (ch = "\"%char) then String "\" (String "\" (escape_filter_value value))
      else if bool_decide (ch = "034"%char)
      then String "\" (String "034" (escape_filter_value value))
      else String ch (escape_filter_value value)
  end.

Record ScimClient := mk_scim_client {
  sc_base_url : string;
  sc_bearer_token : string;
}.

Definition ScimClient_new (base_url bearer_token : string) : ScimClient :=
  mk_scim_client (trim_end_matches "/"%char base_url) bearer_token.

Definition quote : string := String "034" "".

Section client.
Context `{World} `{JsonParser} `{PercentEncoding} (c : ScimClient).

Definition auth_header_value : string := "Bearer " +:+ sc_bearer_token c.

(** [self.http.get(&url).query_pairs(query).header("Authorization", ..)] *)
Definition scim_get (url : string) (query : list (string * string)) : Request :=
  mk_request GET url query [("Authorization", auth_header_value)] [].

Definition get_user_by_name (name : string) : M net ScimError (option ScimUser) :=
  let escaped := escape_filter_value name in
  let filter := "userName eq " +:+ quote +:+ escaped +:+ quote in
  let url := sc_base_url c +:+ "/Users" in
  let? response := map_err from (ureq_send true (scim_get url [("filter", filter)])) in
  let? resp := map_err from (read_json (decode_ListResponse decode_ScimUser) response) in
  ret (head (lr_resources resp)).

Definition get_user_by_id (id : string) : M net ScimError (option ScimUser) :=
  let encoded_id := utf8_percent_encode id PATH_SEGMENT_ENCODE in
  let url := sc_base_url c +:+ "/Users/" +:+ encoded_id in
  try_with (ureq_send true (scim_get url []))
    (λ response,
      let? user := map_err from (read_json decode_ScimUser response) in
      ret (Some user))
    (λ e, match e with
          | StatusCode 404 => ret None
          | e => throw (from e)
          end).

Definition get_group_by_name (name : string) : M net ScimError (option ScimGroup) :=
  let escaped := escape_filter_value name in
  let filter := "displayName eq " +:+ quote +:+ escaped +:+ quote in
  let url := sc_base_url c +:+ "/Groups" in
  let? response := map_err from (ureq_send true (scim_get url [("filter", filter)])) in
  let? resp := map_err from (read_json (decode_ListResponse decode_ScimGroup) response) in
  ret (head (lr_resources resp)).

Definition get_group_by_id (id : string) : M net ScimError (option ScimGroup) :=
  let encoded_id := utf8_percent_encode id PATH_SEGMENT_ENCODE in
  let url := sc_base_url c +:+ "/Groups/" +:+ encoded_id in
  try_with (ureq_send true (scim_get url []))
    (λ response,
      let? group := map_err from (read_json decode_ScimGroup response) in
      ret (Some group))
    (λ e, match e with
          | StatusCode 404 => ret None
          | e => throw (from e)
          end).

Definition is_online {E} : M net E bool :=
  let url := sc_base_url c +:+ "/Users" in
  try_with (ureq_send true (scim_get url [("count", "0")]))
    (λ _, ret true) (λ _, ret false).

Definition MAX_PAGINATION_PAGES : nat := 1000.
Definition page_count : Z := 100.

(** One request of [paginate_list]. *)
Definition fetch_page {T} (dec : decoder T) (resource : string) (start_index : Z)
    : M net ScimError (ListResponse T) :=
  let url := sc_base_url c +:+ "/" +:+ resource in
  let? response := map_err from (ureq_send true
    (scim_get url [("startIndex", fmt_dec start_index); ("count", fmt_dec page_count)])) in
  map_err from (read_json (decode_ListResponse dec) response).

Context `{BuildProfile}.

(** [for _page in 0..MAX_PAGINATION_PAGES], with [pages] iterations left. *)
Fixpoint paginate {T} (dec : decoder T) (resource : string) (pages : nat)
    (start_index : Z) (all : list T) : M net ScimError (list T) :=
  match pages with
  | O => ret all
  | S pages =>
      let? resp := fetch_page dec resource start_index in
      let fetched := length (lr_resources resp) in
      let all := all ++ lr_resources resp in
      if bool_decide (lr_total_results resp ≤ Z.of_nat (length all))%Z
         || bool_decide (fetched = 0)
      then ret all
      else let? start_index := u64_add start_index (Z.of_nat fetched) in
           paginate dec resource pages start_index all
  end.

Definition paginate_list {T} (dec : decoder T) (resource : string) : M net ScimError (list T) :=
  paginate dec resource MAX_PAGINATION_PAGES 1 [].

Definition list_users : M net ScimError (list ScimUser) := paginate_list decode_ScimUser "Users".
Definition list_groups : M net ScimError (list ScimGroup) := paginate_list decode_ScimGroup "Groups".
End client.
