(* ===== verification/ScimProps.v ===== *)
(** * ScimProps: what the SCIM client guarantees *)

From S2P Require Import Prelude Text Value Mapping Http Scim.
From Stdlib Require Import Ascii.
From stdpp Require Import prelude strings list.

(** ** Filter values *)

Definition push (b : byte) (r : option (string * string)) : option (string * string) :=
  (λ '(v, rest), (String b v, rest)) <$> r.

(** How a SCIM server reads the quoted literal of a filter: up to the first
    quote that no backslash escapes. *)
Fixpoint read_filter_literal (s : string) : option (string * string) :=
  match s with
  | "" => None
  | String b s =>
      if bool_decide (b = "034"%char) then Some ("", s)
      else if bool_decide (b = "\"%char)
      then match s with
           | "" => None
           | String b' s' => push b' (read_filter_literal s')
           end
      else push b (read_filter_literal s)
  end.

Lemma read_escaped value rest :
  read_filter_literal (escape_filter_value value +:+ quote +:+ rest) = Some (value, rest).
Proof.
  induction value as [|b value IH]; [done|]. simpl.
  case_bool_decide as Hb; [|case_bool_decide as Hq].
  - rewrite !string_app_cons. cbn [read_filter_literal].
    rewrite bool_decide_eq_false_2, bool_decide_eq_true_2, IH by done. by subst.
  - rewrite !string_app_cons. cbn [read_filter_literal].
    rewrite bool_decide_eq_false_2, bool_decide_eq_true_2, IH by done. by subst.
  - rewrite !string_app_cons. cbn [read_filter_literal].
    by rewrite !bool_decide_eq_false_2, IH by done.
Qed.

(** ** Where the requests go *)

(** A request of the SCIM client: below the base URL, with the bearer token. *)
Definition scim_request (c : ScimClient) (e : event) : Prop :=
  match e with
  | Sent r => req_method r = GET ∧ (∃ path, req_url r = sc_base_url c +:+ "/" +:+ path) ∧
      req_headers r = [("Authorization", "Bearer " +:+ sc_bearer_token c)] ∧ req_form r = []
  | _ => False
  end.

Section client_facts.
Context `{World} `{JsonParser} `{PercentEncoding} `{BuildProfile} (c : ScimClient).

Lemma scim_get_request path query :
  scim_request c (Sent (scim_get c (sc_base_url c +:+ "/" +:+ path) query)).
Proof. split_and!; [done|by exists path|done..]. Qed.

Lemma emits_get_user_by_name name : emits (scim_request c) (get_user_by_name c name).
Proof.
  pose proof (scim_get_request "Users"). unfold get_user_by_name. eauto 10 with net_emits.
Qed.
Lemma emits_get_group_by_name name : emits (scim_request c) (get_group_by_name c name).
Proof.
  pose proof (scim_get_request "Groups"). unfold get_group_by_name. eauto 10 with net_emits.
Qed.
Lemma emits_get_user_by_id id : emits (scim_request c) (get_user_by_id c id).
Proof.
  pose proof (scim_get_request ("Users/" +:+ utf8_percent_encode id PATH_SEGMENT_ENCODE)).
  unfold get_user_by_id. apply emits_try_with; [by apply emits_ureq_send|eauto 10 with net_emits|].
  intros []; eauto 20 with net_emits.
Qed.
Lemma emits_get_group_by_id id : emits (scim_request c) (get_group_by_id c id).
Proof.
  pose proof (scim_get_request ("Groups/" +:+ utf8_percent_encode id PATH_SEGMENT_ENCODE)).
  unfold get_group_by_id. apply emits_try_with; [by apply emits_ureq_send|eauto 10 with net_emits|].
  intros []; eauto 20 with net_emits.
Qed.
Lemma emits_is_online {E} : emits (scim_request c) (is_online (E:=E) c).
Proof.
  pose proof (scim_get_request "Users"). unfold is_online. eauto 10 with net_emits.
Qed.

Lemma fetch_page_log {T} (dec : decoder T) resource i log :
  (fetch_page c dec resource i log).2 = log ++ [Sent (scim_get c
    (sc_base_url c +:+ "/" +:+ resource)
    [("startIndex", fmt_dec i); ("count", fmt_dec page_count)])].
Proof.
  unfold fetch_page, bind, map_err, ureq_send. destruct (transport _ _) as [e|resp]; [done|].
  destruct (_ && _); [done|]. unfold read_json.
  destruct (resp_body resp) as [t|]; [|done]. by destruct (json_parse t ≫= _).
Qed.

(** A page that decodes says how many resources there are in a [u64]. *)
Lemma fetch_page_cases {T} (dec : decoder T) resource i log :
  match (fetch_page c dec resource i log).1 with
  | Ok resp => is_u64 (lr_total_results resp)
  | Err _ => True
  | Panic => False
  end.
Proof.
  unfold fetch_page, bind, map_err, ureq_send. destruct (transport _ _) as [e|resp]; [done|].
  destruct (_ && _); [done|]. unfold read_json.
  destruct (resp_body resp) as [t|]; [|done]. destruct (json_parse t ≫= _) as [lr|] eqn:Hd; [|done].
  simpl. apply bind_Some in Hd as (v & _ & Hd). unfold decode_ListResponse in Hd.
  apply bind_Some in Hd as (v' & _ & Hd). apply bind_Some in Hd as (total & Ht & Hd).
  apply bind_Some in Hd as (rs & _ & [= <-]). simpl.
  eapply field_decoded; [apply decoded_u64| | |exact Ht]; by intros ? [= <-].
Qed.

(** The start index stays within the total, so the addition does not overflow. *)
Lemma paginate_no_panic {T} (dec : decoder T) resource pages i (all : list T) log :
  i = (1 + Z.of_nat (length all))%Z → (paginate c dec resource pages i all log).1 ≠ Panic.
Proof.
  revert i all log. induction pages as [|pages IH]; intros i all log Hi; [done|].
  simpl. unfold bind at 1. pose proof (fetch_page_cases dec resource i log) as Hf.
  destruct (fetch_page c dec resource i log) as [[resp|e|] log']; [|done|done]. simpl in Hf.
  destruct (bool_decide (_ ≤ _)%Z) eqn:Hle; [done|]. destruct (bool_decide (_ = 0)) eqn:Hz; [done|].
  simpl. apply bool_decide_eq_false in Hle. rewrite length_app in Hle. unfold is_u64 in Hf.
  rewrite u64_add_exact, bind_ret_l by (unfold is_u64; lia).
  apply IH. rewrite length_app. lia.
Qed.

(** Each page is one request, whatever the server answers. *)
Lemma paginate_log {T} (dec : decoder T) resource pages i all log :
  ∃ new, (paginate c dec resource pages i all log).2 = log ++ new ∧
    length new ≤ pages ∧ Forall (scim_request c) new.
Proof.
  revert i all log. induction pages as [|pages IH]; intros i all log.
  { exists []. by rewrite app_nil_r. }
  simpl. unfold bind at 1. pose proof (fetch_page_log dec resource i log) as Hlog.
  set (page := Sent _) in Hlog.
  assert (Hpage : scim_request c page) by apply scim_get_request.
  destruct (fetch_page c dec resource i log) as [[resp|e|] log'].
  2,3: simpl in *; subst; exists [page]; simpl; by split_and!; [|lia|constructor].
  cbn [snd] in Hlog. subst log'.
  destruct (bool_decide _ || bool_decide _).
  { exists [page]. simpl. by split_and!; [|lia|constructor]. }
  unfold bind, u64_add, narrow.
  destruct (bool_decide _); [|destruct overflow_checks].
  2: exists [page]; simpl; by split_and!; [|lia|constructor].
  all: edestruct IH as (new & Heq & Hlen & Hnew); unfold ret; rewrite Heq; exists (page :: new);
    rewrite <-app_assoc; simpl; by split_and!; [|lia|constructor].
Qed.

Lemma list_users_no_panic log : (list_users c log).1 ≠ Panic.
Proof. by apply paginate_no_panic. Qed.
Lemma list_groups_no_panic log : (list_groups c log).1 ≠ Panic.
Proof. by apply paginate_no_panic. Qed.
End client_facts.

(** ** Complete listings *)

Section pagination.
Context `{World} `{JsonParser} `{PercentEncoding} `{BuildProfile} (c : ScimClient).

(** A server that holds [everything] and answers each page request, whatever
    came before, with at least [p] of the resources from [startIndex] on (or
    all that are left), at most [count], and their total number. *)
Definition serves {T} (dec : decoder T) (resource : string) (everything : list T) (p : nat) : Prop :=
  p ≤ 100 ∧ ∀ log i, i ≤ length everything → ∃ k text,
    p ≤ k ≤ 100 ∧
    transport log (scim_get c (sc_base_url c +:+ "/" +:+ resource)
      [("startIndex", fmt_dec (Z.of_nat (S i))); ("count", fmt_dec page_count)])
      = inr (mk_response 200 (Some text)) ∧
    json_parse text ≫= decode_ListResponse dec =
      Some (mk_list_response (Z.of_nat (length everything)) (take k (drop i everything))).

Lemma fetch_page_served {T} (dec : decoder T) resource everything p i log :
  serves dec resource everything p → i ≤ length everything →
  ∃ k, p ≤ k ≤ 100 ∧ (fetch_page c dec resource (Z.of_nat (S i)) log).1 =
    Ok (mk_list_response (Z.of_nat (length everything)) (take k (drop i everything))).
Proof.
  intros [_ Hs] Hi. destruct (Hs log i Hi) as (k & text & Hk & Ht & Hj). exists k. split; [done|].
  unfold fetch_page, bind, map_err, ureq_send. rewrite Ht. simpl.
  unfold read_json. simpl. by rewrite Hj.
Qed.

Lemma paginate_served {T} (dec : decoder T) resource everything p pages i log :
  serves dec resource everything p → 1 ≤ p → 0 < pages →
  i ≤ length everything → length everything ≤ i + pages * p → (Z.of_nat i + Z.of_nat pages * 100 < 2 ^ 63)%Z →
  (paginate c dec resource pages (Z.of_nat (S i)) (take i everything) log).1 = Ok everything.
Proof.
  intros Hs Hp Hpages. revert i log. induction pages as [|pages IH]; intros i log Hi Hlen Hbig; [lia|].
  cbn [paginate]. unfold bind at 1.
  destruct (fetch_page_served dec resource everything p i log Hs Hi) as (k & Hk & Hf).
  destruct (fetch_page _ _ _ _ log) as [r log'] eqn:Hpage. simpl in Hf. subst r.
  cbn [lr_resources lr_total_results].
  assert (Happ : take i everything ++ take k (drop i everything) = take (i + k) everything)
    by apply take_take_drop.
  rewrite Happ, length_take, length_take, length_drop.
  case_bool_decide as Hdone; simpl.
  { unfold ret. simpl. by rewrite take_ge by lia. }
  case_bool_decide as Hzero; [lia|].
  assert (Hstep : length everything - i > k) by lia. rewrite Nat.min_l by lia.
  assert (0 < pages) as Hpages' by (destruct pages; lia).
  rewrite u64_add_exact by (unfold is_u64, u64_modulus; lia). rewrite bind_ret_l.
  replace (Z.of_nat (S i) + Z.of_nat k)%Z with (Z.of_nat (S (i + k))) by lia.
  apply IH; lia.
Qed.
End pagination.

(** ** Path segments *)

Definition hex_digit (n : Z) : byte := byte_of (if bool_decide (n < 10)%Z then 48 + n else 55 + n).
Definition unhex_digit (b : byte) : Z := if bool_decide (code b < 65)%Z then code b - 48 else code b - 55.
Definition percent_encoded (b : byte) : string :=
  String "%" (String (hex_digit (code b `div` 16)) (String (hex_digit (code b `mod` 16)) "")).

(** The documented behaviour of the crate: the control characters are those
    below 32 and 127, and the encoding goes byte by byte, replacing those of the
    set and every byte that is not ASCII. *)
Class PercentEncodingLaws `{PercentEncoding} : Prop := {
  controls_spec : ∀ b, controls b = bool_decide (code b < 32)%Z || bool_decide (code b = 127)%Z;
  encode_nil : ∀ set, utf8_percent_encode "" set = "";
  encode_cons : ∀ b s set, utf8_percent_encode (String b s) set =
    (if set b || bool_decide (128 ≤ code b)%Z then percent_encoded b else String b "")
      +:+ utf8_percent_encode s set;
}.

Fixpoint percent_decode (s : string) : string :=
  match s with
  | "" => ""
  | String b s' =>
      if bool_decide (b = "%"%char)
      then match s' with
           | String h (String l rest) =>
               String (byte_of (unhex_digit h * 16 + unhex_digit l)) (percent_decode rest)
           | _ => String b (percent_decode s')
           end
      else String b (percent_decode s')
  end.

Lemma unhex_hex b :
  byte_of (unhex_digit (hex_digit (code b `div` 16)) * 16
    + unhex_digit (hex_digit (code b `mod` 16))) = b.
Proof. by destruct b as [[] [] [] [] [] [] [] []]. Qed.

(** No byte of an encoded identifier can end its path segment. *)
Definition segment_byte (b : byte) : Prop := b ∉ ["/"; "?"; "#"]%char.

Lemma hex_digit_segment b :
  segment_byte (hex_digit (code b `div` 16)) ∧ segment_byte (hex_digit (code b `mod` 16)).
Proof.
  destruct b as [[] [] [] [] [] [] [] []];
    split; apply (bool_decide_unpack (_ ∉ _)); vm_compute; exact I.
Qed.

Section path_facts.
Context `{PercentEncodingLaws}.

Lemma path_byte_kept b :
  PATH_SEGMENT_ENCODE b || bool_decide (128 ≤ code b)%Z = false →
  b ≠ "%"%char ∧ segment_byte b.
Proof.
  unfold PATH_SEGMENT_ENCODE, segment_byte. rewrite !orb_false_iff, !bool_decide_eq_false.
  rewrite !elem_of_cons. intros [[_ Hb] _]. split; [intros ->|]; tauto.
Qed.

Lemma percent_decode_encode id : percent_decode (utf8_percent_encode id PATH_SEGMENT_ENCODE) = id.
Proof.
  induction id as [|b id IH]; [by rewrite encode_nil|]. rewrite encode_cons.
  destruct (_ || _) eqn:Hb.
  - unfold percent_encoded. rewrite !string_app_cons, string_app_nil_l. cbn [percent_decode].
    by rewrite bool_decide_eq_true_2, IH, unhex_hex.
  - rewrite string_app_cons, string_app_nil_l. cbn [percent_decode].
    apply path_byte_kept in Hb as [Hb _]. by rewrite bool_decide_eq_false_2, IH.
Qed.

Lemma encoded_segment id :
  Forall segment_byte (String.list_ascii_of_string (utf8_percent_encode id PATH_SEGMENT_ENCODE)).
Proof.
  induction id as [|b id IH]; [by rewrite encode_nil|]. rewrite encode_cons.
  destruct (_ || _) eqn:Hb.
  - unfold percent_encoded. rewrite !string_app_cons, string_app_nil_l.
    destruct (hex_digit_segment b). repeat constructor; try done.
    apply (bool_decide_unpack (_ ∉ _)). vm_compute. exact I.
  - rewrite string_app_cons, string_app_nil_l. constructor; [|done]. by apply path_byte_kept.
Qed.
End path_facts.

(** ** Resources *)

Definition ref_value (r : ScimGroupRef) : value := VObject
  (("value", VString (sgr_value r)) ::
   match sgr_display r with Some d => [("display", VString d)] | None => [] end).

Lemma decode_ref_value r : decode_ScimGroupRef (ref_value r) = Some r.
Proof. by destruct r as [v [d|]]. Qed.

(** A list-valued attribute, which an empty list may leave out. *)
Definition list_attribute {A} (enc : A → value) (l : list A) : option value :=
  match l with [] => None | _ => Some (VArray (enc <$> l)) end.

Lemma decode_list_attribute {A} (dec : decoder A) (enc : A → value) (l : list A) :
  (∀ a, dec (enc a) = Some a) →
  match list_attribute enc l with Some v => decode_vec dec v | None => Some [] end = Some l.
Proof. intros He. destruct l as [|a l]; [done|]. by apply (mapM_encode dec enc (a :: l)). Qed.

Lemma required_string_inv kvs i name s :
  required (VObject kvs) i name decode_string = Some s → only_value kvs name (Some (VString s)).
Proof.
  unfold required, field, only_value. destruct (filter _ kvs) as [|[n v] [|]] eqn:Hf; [done| |done].
  assert ((n, v) ∈ filter (λ kv, kv.1 = name) kvs) as [Hn _]%list_elem_of_filter
    by (rewrite Hf; left).
  simpl in *. destruct v; simpl; try done. by intros [= ->]; rewrite Hn.
Qed.

Section scim_properties.
Context `{World} `{JsonParser} `{PercentEncodingLaws} `{BuildProfile} (c : ScimClient).

(** C33: however a name is built, the filter sent for it is the quoted literal
    of exactly that name: a server reading the literal recovers the name and
    finds nothing after it. *)
Theorem filter_literal_is_the_name name :
  ∃ literal, read_filter_literal literal = Some (name, "") ∧
    ∀ log, (get_user_by_name c name log).2 = log ++ [Sent (scim_get c
      (sc_base_url c +:+ "/Users") [("filter", "userName eq " +:+ quote +:+ literal)])].
Proof.
  exists (escape_filter_value name +:+ quote). split.
  2: { intros log. unfold get_user_by_name, bind, map_err, ureq_send. destruct (transport _ _) as [e|resp]; [done|].
    destruct (_ && _); [done|]. unfold read_json. destruct (resp_body resp) as [t|]; [|done].
    by destruct (json_parse t ≫= _). }
  rewrite <-(string_app_nil_r (_ +:+ quote)), <-string_app_assoc. apply read_escaped.
Qed.

(** An identifier is sent as one path segment that decodes to it: no byte
    of it can end the segment, and distinct identifiers give distinct URLs. *)
Lemma id_is_one_path_segment id :
  ∃ segment, percent_decode segment = id ∧
    Forall segment_byte (String.list_ascii_of_string segment) ∧
    ∀ log, (get_user_by_id c id log).2 =
      log ++ [Sent (scim_get c (sc_base_url c +:+ "/Users/" +:+ segment) [])].
Proof.
  exists (utf8_percent_encode id PATH_SEGMENT_ENCODE).
  split_and!; [apply percent_decode_encode|apply encoded_segment|]. intros log.
  unfold get_user_by_id, try_with, ureq_send. destruct (transport _ _) as [e|resp].
  - by destruct e as [[|p|p]| |]; try done; do 9 (destruct p as [p|p|]; try done).
  - destruct (_ && _).
    + destruct (resp_status resp) as [|p|p]; try done; by do 9 (destruct p as [p|p|]; try done).
    + unfold map_err, bind, read_json. destruct (resp_body resp) as [t|]; [|done].
      by destruct (json_parse t ≫= _).
Qed.

(** A user resource is read as it was written: its attributes in any order
    among any others, the optional ones present or absent; and a resource that
    is accepted has exactly one [id] and one [userName], both strings. *)
Lemma scim_user_roundtrip u kvs :
  (only_value kvs "id" (Some (VString (su_id u))) →
   only_value kvs "userName" (Some (VString (su_user_name u))) →
   only_value kvs "displayName" (VString <$> su_display_name u) →
   only_value kvs "active" (VBool <$> su_active u) →
   only_value kvs "groups" (list_attribute ref_value (su_groups u)) →
   decode_ScimUser (VObject kvs) = Some u) ∧
  (decode_ScimUser (VObject kvs) = Some u →
   only_value kvs "id" (Some (VString (su_id u))) ∧
   only_value kvs "userName" (Some (VString (su_user_name u)))).
Proof.
  split.
  - intros Hid Hname Hdisp Hact Hgr. unfold decode_ScimUser.
    cbn [as_struct mbind option_bind].
    rewrite (required_object _ _ _ _ _ Hid), (required_object _ _ _ _ _ Hname),
      (defaulted_object _ _ _ _ _ _ Hdisp), (defaulted_object _ _ _ _ _ _ Hact),
      (defaulted_object _ _ _ _ _ _ Hgr).
    rewrite decode_list_attribute by apply decode_ref_value.
    by destruct u as [id name [disp|] [act|] groups].
  - unfold decode_ScimUser. cbn [as_struct mbind option_bind]. intros Hu.
    destruct (required _ 0 _ _) as [id|] eqn:Hid; [|done]. cbn [mbind option_bind] in Hu.
    destruct (required _ 1 _ _) as [name|] eqn:Hname; [|done]. cbn [mbind option_bind] in Hu.
    destruct (defaulted _ 2 _ _ _); [|done]. cbn [mbind option_bind] in Hu.
    destruct (defaulted _ 3 _ _ _); [|done]. cbn [mbind option_bind] in Hu.
    destruct (defaulted _ 4 _ _ _); [|done]. cbn [mbind option_bind] in Hu. injection Hu as <-.
    split; by eapply required_string_inv.
Qed.

(** C32: against a server that serves every page, the listing is complete: it
    returns all the resources, in order, as long as a thousand pages hold them. *)
Theorem pagination_is_complete (users : list ScimUser) p log :
  serves c decode_ScimUser "Users" users p → 1 ≤ p → length users ≤ 1000 * p →
  (list_users c log).1 = Ok users.
Proof.
  intros Hs Hp Hlen. unfold list_users, paginate_list. change (@nil ScimUser) with (take 0 users).
  change 1%Z with (Z.of_nat 1). apply (paginate_served c decode_ScimUser "Users" users p); try done;
    unfold MAX_PAGINATION_PAGES; lia.
Qed.

(** C40: whatever the server answers, a listing ends after a thousand requests
    at most, and every request of the client is a GET below the configured base
    URL that carries the bearer token. *)
Theorem scim_requests_confined name id log :
  Forall (λ m : M net ScimError (), ∃ new, (m log).2 = log ++ new ∧
      length new ≤ MAX_PAGINATION_PAGES ∧ Forall (scim_request c) new)
    [list_users c ;;? ret tt; list_groups c ;;? ret tt] ∧
  emits (scim_request c) (get_user_by_name c name) ∧
  emits (scim_request c) (get_user_by_id c id) ∧
  emits (scim_request c) (get_group_by_name c name) ∧
  emits (scim_request c) (get_group_by_id c id) ∧
  emits (scim_request c) (is_online (E:=ScimError) c).
Proof.
  split_and!; [|apply emits_get_user_by_name|apply emits_get_user_by_id|
    apply emits_get_group_by_name|apply emits_get_group_by_id|apply emits_is_online].
  assert (Hret : ∀ {T} (m : M net ScimError T), (m ;;? ret tt) log = (
    match (m log).1 with Ok _ => Ok tt | Err e => Err e | Panic => Panic end, (m log).2)).
  { intros T m. unfold bind. by destruct (m log) as [[a|e|] log']. }
  repeat constructor; rewrite Hret; apply paginate_log.
Qed.
End scim_properties.

(** ** Witnesses *)

(** An encoder as the crate documents it. *)
Definition ascii_percent_encoding : PercentEncoding := {|
  controls := λ b, bool_decide (code b < 32)%Z || bool_decide (code b = 127)%Z;
  utf8_percent_encode := λ s set, foldr (λ b acc,
    (if set b || bool_decide (128 ≤ code b)%Z then percent_encoded b else String b "") +:+ acc) ""
    (String.list_ascii_of_string s);
|}.

Lemma ascii_percent_encoding_laws : @PercentEncodingLaws ascii_percent_encoding.
Proof. by split. Qed.

Example percent_sample :
  @utf8_percent_encode ascii_percent_encoding "a/b c%"
    (@PATH_SEGMENT_ENCODE ascii_percent_encoding) = "a%2Fb%20c%25".
Proof. vm_compute. reflexivity. Qed.

(** A parser that knows two documents: a page of two users and a single user. *)
Definition sample_alice : list (string * value) :=
  [("schemas", VArray []); ("userName", VString "alice"); ("id", VString "user-uuid-alice-001");
   ("active", VBool true); ("displayName", VString "Alice Smith");
   ("groups", VArray [ref_value (mk_scim_group_ref "group-uuid-eng-001" (Some "engineering"))])].
Definition sample_bob : list (string * value) :=
  [("id", VString "user-uuid-bob-002"); ("userName", VString "disabled_bob");
   ("active", VBool false)].
Definition alice : ScimUser := mk_scim_user "user-uuid-alice-001" "alice" (Some "Alice Smith")
  (Some true) [mk_scim_group_ref "group-uuid-eng-001" (Some "engineering")].
Definition bob : ScimUser := mk_scim_user "user-uuid-bob-002" "disabled_bob" None (Some false) [].
Definition sample_page (users : list value) : value :=
  VObject [("totalResults", VInt 2); ("Resources", VArray users)].
Definition sample_json : JsonParser := λ text,
  if bool_decide (text = "both") then Some (sample_page [VObject sample_alice; VObject sample_bob])
  else if bool_decide (text = "second") then Some (sample_page [VObject sample_bob])
  else if bool_decide (text = "none") then Some (sample_page [])
  else None.

(** A server with two users. *)
Definition sample_server : World := {|
  transport := λ log r, inr (mk_response 200 (Some
    (if bool_decide (head (req_query r) = Some ("startIndex", "1")) then "both"
     else if bool_decide (head (req_query r) = Some ("startIndex", "2")) then "second"
     else "none")));
  instant_now := λ log, 0%Z;
|}.
Definition sample_client : ScimClient := ScimClient_new "https://idp.example.com/scim/v2/" "token".

Lemma id_is_one_path_segment_witness :
  ∃ segment, percent_decode segment = "a/../b" ∧
    Forall segment_byte (String.list_ascii_of_string segment) ∧
    ∀ log, (@get_user_by_id sample_server sample_json ascii_percent_encoding
        sample_client "a/../b" log).2 =
      log ++ [Sent (scim_get sample_client (sc_base_url sample_client +:+ "/Users/" +:+ segment) [])].
Proof.
  exact (@id_is_one_path_segment sample_server sample_json ascii_percent_encoding
    ascii_percent_encoding_laws sample_client "a/../b").
Defined.

Lemma scim_user_roundtrip_witness : decode_ScimUser (VObject sample_alice) = Some alice.
Proof. apply scim_user_roundtrip; reflexivity. Defined.

Lemma sample_serves :
  @serves sample_server sample_json sample_client _ decode_ScimUser "Users" [alice; bob] 2.
Proof.
  split; [lia|]. intros log i Hi. exists 2.
  destruct i as [|[|[|i]]]; [exists "both"|exists "second"|exists "none"|simpl in Hi; lia];
    (split; [lia|split; vm_compute; reflexivity]).
Qed.

Lemma pagination_is_complete_witness :
  (@list_users sample_server sample_json sample_client release_build []).1 = Ok [alice; bob].
Proof.
  apply (@pagination_is_complete sample_server sample_json release_build sample_client
    [alice; bob] 2 [] sample_serves); simpl; lia.
Defined.
