(* ===== verification/Service.v ===== *)
(** * Service: the façade over SCIM and the cache ([src/service.rs]) *)

From S2P Require Import Prelude Text Model Value Mapping Http Sql Cache Scim Config.
From stdpp Require Import prelude strings list.

Inductive ServiceError :=
  | Svc_scim (e : ScimError)
  | Svc_cache (e : CacheError)
  | Svc_range_exhausted.

#[export] Instance service_error_from_scim : From ScimError ServiceError := Svc_scim.
#[export] Instance service_error_from_cache : From CacheError ServiceError := Svc_cache.
#[export] Instance service_error_from_range : From IdRangeExhausted ServiceError :=
  λ _, Svc_range_exhausted.

Definition MAX_NAME_LEN : nat := 256.

(** What the service acts on: the network and the database behind its cache. *)
Record backend := mk_backend { bk_net : net; bk_db : db }.
Definition set_bk_net (n : net) (b : backend) : backend := mk_backend n (bk_db b).
Definition set_bk_db (d : db) (b : backend) : backend := mk_backend (bk_net b) d.
Definition on_net {E A} (m : M net E A) : M backend E A := zoom bk_net set_bk_net m.
Definition on_db {E A} (m : M db E A) : M backend E A := zoom bk_db set_bk_db m.

Record Service := mk_service {
  svc_scim : ScimClient;
  svc_cache : Cache;
  svc_config : Config;
}.

(** [Service::new]: a failed purge is only logged. *)
Definition Service_new `{Sqlite} {E} (config : Config) (scim : ScimClient) (cache : Cache)
    : M db E Service :=
  let ttl := cfg_ttl_seconds (cfg_cache config) in
  try_with (purge_expired ttl) (λ _, ret tt) (λ _, ret tt) ;;?
  ret (mk_service scim cache config).

Section service.
Context `{World} `{JsonParser} `{PercentEncoding} `{Sqlite} `{BuildProfile} `{Murmur3}.
Variable self : Service.

Definition scim_user_to_model (scim_user : ScimUser) : M backend ServiceError User :=
  let mc := cfg_mapping (svc_config self) in
  let? uid := map_err from (on_db
    (resolve_uid (su_id scim_user) (uid_range_min mc) (uid_range_size mc))) in
  let gid_external :=
    match head (su_groups scim_user) with
    | Some first_group => sgr_value first_group
    | None => su_id scim_user
    end in
  let? gid := map_err from (on_db
    (resolve_gid gid_external (gid_range_min mc) (gid_range_size mc))) in
  let home := replace "{user}" (su_user_name scim_user)
    (home_template (cfg_user_defaults (svc_config self))) in
  ret (mk_user (su_id scim_user) (su_user_name scim_user) uid gid
    (default "" (su_display_name scim_user)) home
    (default_user_shell (cfg_user_defaults (svc_config self)))
    (default true (su_active scim_user))).

Definition scim_group_to_model (scim_group : ScimGroup) : M backend ServiceError Group :=
  let mc := cfg_mapping (svc_config self) in
  let? gid := map_err from (on_db
    (resolve_gid (sg_id scim_group) (gid_range_min mc) (gid_range_size mc))) in
  let members := omap smr_display (sg_members scim_group) in
  ret (mk_group (sg_id scim_group) (sg_display_name scim_group) gid members).

Definition lookup_user_by_name (name : string) : M backend ServiceError (option User) :=
  if bool_decide (MAX_NAME_LEN < String.length name) then ret None
  else
    try_with (on_net (Scim.get_user_by_name (svc_scim self) name))
      (λ found,
        match found with
        | Some scim_user =>
            let? user := scim_user_to_model scim_user in
            map_err from (on_db (store_user user)) ;;?
            ret (Some user)
        | None => map_err from (on_db (Cache.get_user_by_name (svc_cache self) name))
        end)
      (λ _, map_err from (on_db (Cache.get_user_by_name (svc_cache self) name))).

Definition lookup_user_by_uid (uid : Z) : M backend ServiceError (option User) :=
  let? cached := map_err from (on_db (get_user_by_uid (svc_cache self) uid)) in
  match cached with
  | Some cached => ret (Some cached)
  | None => ret None
  end.

Definition lookup_group_by_name (name : string) : M backend ServiceError (option Group) :=
  if bool_decide (MAX_NAME_LEN < String.length name) then ret None
  else
    try_with (on_net (Scim.get_group_by_name (svc_scim self) name))
      (λ found,
        match found with
        | Some scim_group =>
            let? group := scim_group_to_model scim_group in
            map_err from (on_db (store_group group)) ;;?
            ret (Some group)
        | None => map_err from (on_db (Cache.get_group_by_name (svc_cache self) name))
        end)
      (λ _, map_err from (on_db (Cache.get_group_by_name (svc_cache self) name))).

Definition lookup_group_by_gid (gid : Z) : M backend ServiceError (option Group) :=
  let? cached := map_err from (on_db (get_group_by_gid (svc_cache self) gid)) in
  match cached with
  | Some cached => ret (Some cached)
  | None => ret None
  end.

Definition list_all_users : M backend ServiceError (list User) :=
  let? scim_users := map_err from (on_net (list_users (svc_scim self))) in
  collect scim_users (λ su,
    let? user := scim_user_to_model su in
    map_err from (on_db (store_user user)) ;;?
    ret user).

Definition list_all_groups : M backend ServiceError (list Group) :=
  let? scim_groups := map_err from (on_net (list_groups (svc_scim self))) in
  collect scim_groups (λ sg,
    let? group := scim_group_to_model sg in
    map_err from (on_db (store_group group)) ;;?
    ret group).

Definition check_user_active (name : string) : M backend ServiceError bool :=
  if bool_decide (MAX_NAME_LEN < String.length name) then ret false
  else
    try_with (on_net (Scim.get_user_by_name (svc_scim self) name))
      (λ found,
        match found with
        | Some scim_user =>
            let? user := scim_user_to_model scim_user in
            map_err from (on_db (store_user user)) ;;?
            ret (user_active user)
        | None => ret false
        end)
      (λ _,
        match offline_auth_policy (cfg_security (svc_config self)) with
        | CachedStatus =>
            let? cached := map_err from
              (on_db (Cache.get_user_by_name (svc_cache self) name)) in
            match cached with
            | Some user => ret (user_active user)
            | None => ret false
            end
        | Deny => ret false
        end).

Definition is_online : M backend ServiceError bool := on_net (Scim.is_online (svc_scim self)).

Definition lookup_groups_for_user (name : string) : M backend ServiceError (list Z) :=
  if bool_decide (MAX_NAME_LEN < String.length name) then ret []
  else
    let mc := cfg_mapping (svc_config self) in
    try_with (on_net (Scim.get_user_by_name (svc_scim self) name))
      (λ found,
        match found with
        | Some scim_user =>
            let? user := scim_user_to_model scim_user in
            map_err from (on_db (store_user user)) ;;?
            collect (su_groups scim_user) (λ g, map_err from
              (on_db (resolve_gid (sgr_value g) (gid_range_min mc) (gid_range_size mc))))
        | None => ret []
        end)
      (λ _,
        let? cached := map_err from
          (on_db (get_groups_for_member (svc_cache self) name)) in
        ret (group_gid <$> cached)).
End service.
