(* ===== verification/ServiceFacts.v ===== *)
(** * ServiceFacts: lemmas on the service's operations *)

From S2P Require Import Prelude Text Model Value Mapping Http Sql Cache CacheFacts Scim.
From S2P Require Import Fs ScimProps Config Service.
From stdpp Require Import prelude strings list.

Lemma scim_lookup_no_panic `{World} `{JsonParser} c name log :
  (Scim.get_user_by_name c name log).1 ≠ Panic.
Proof.
  unfold Scim.get_user_by_name, bind, map_err, ureq_send.
  destruct (transport _ _) as [e|resp]; [done|]. destruct (_ && _); [done|].
  unfold read_json. destruct (resp_body resp); [|done]. by destruct (json_parse _ ≫= _).
Qed.

Lemma scim_group_lookup_no_panic `{World} `{JsonParser} c name log :
  (Scim.get_group_by_name c name log).1 ≠ Panic.
Proof.
  unfold Scim.get_group_by_name, bind, map_err, ureq_send.
  destruct (transport _ _) as [e|resp]; [done|]. destruct (_ && _); [done|].
  unfold read_json. destruct (resp_body resp); [|done]. by destruct (json_parse _ ≫= _).
Qed.

(** An id range that can be probed to its end, for users and for groups. *)
Definition usable_ranges (config : Config) : Prop :=
  probe_range (uid_range_min (cfg_mapping config)) (uid_range_size (cfg_mapping config)) ∧
  probe_range (gid_range_min (cfg_mapping config)) (gid_range_size (cfg_mapping config)).

(** A file system whose configuration has them. *)
Definition deployed `{TomlParser} `{Env} : filesystem → Prop := configured usable_ranges.

Lemma load_deployed `{Os} `{TomlParser} `{Env} fs config :
  deployed fs → (load fs).1 = Ok config → usable_ranges config.
Proof. by apply load_configured. Qed.

(** The errors of resolving and storing. *)
Definition admission_failure `{Sqlite} (e : ServiceError) : Prop :=
  ∃ ce, e = Svc_cache ce ∧ (sql_failure ce ∨ ce = RangeExhausted).

(** The group identifier a user's primary gid comes from. *)
Definition primary_group (su : ScimUser) : string :=
  match head (su_groups su) with Some g => sgr_value g | None => su_id su end.

Section service_facts.
Context `{World} `{JsonParser} `{PercentEncoding} `{SqliteLaws} `{BuildProfile} `{Murmur3Laws}.
Variable self : Service.

(** The user built for a SCIM user, given its ids. *)
Definition user_of (su : ScimUser) (uid gid : Z) : User :=
  mk_user (su_id su) (su_user_name su) uid gid (default "" (su_display_name su))
    (replace "{user}" (su_user_name su) (home_template (cfg_user_defaults (svc_config self))))
    (default_user_shell (cfg_user_defaults (svc_config self)))
    (default true (su_active su)).

Lemma wp_on_db {A} (m : M db CacheError A) (Q : outcome ServiceError A → backend → Prop) b :
  wp m (λ r d, match r with
               | Ok a => Q (Ok a) (set_bk_db d b)
               | Err e => Q (Err (Svc_cache e)) (set_bk_db d b)
               | Panic => Q Panic (set_bk_db d b)
               end) (bk_db b) →
  wp (map_err from (on_db m)) Q b.
Proof. intros Hm. by apply wp_map_err, wp_zoom. Qed.

Definition uid_resolution (d : db) (ext : string) : outcome CacheError Z → Prop :=
  resolution (uid_holder d) ext (uid_range_min (cfg_mapping (svc_config self)))
    (uid_range_size (cfg_mapping (svc_config self))).
Definition gid_resolution (d : db) (ext : string) : outcome CacheError Z → Prop :=
  resolution (gid_holder d) ext (gid_range_min (cfg_mapping (svc_config self)))
    (gid_range_size (cfg_mapping (svc_config self))).

#[local] Arguments uid_resolution : simpl never.
#[local] Arguments gid_resolution : simpl never.

Lemma resolution_failure holder ext min size e :
  resolution holder ext min size (Err e) → admission_failure (Svc_cache e).
Proof. intros [?|[-> _]]; eexists; eauto. Qed.

Lemma scim_user_to_model_wp su b :
  usable_ranges (svc_config self) → db_wf (bk_db b) →
  wp (scim_user_to_model self su) (λ r b', bk_net b' = bk_net b ∧
    same_tables (bk_db b) (bk_db b') ∧
    match r with
    | Ok u => ∃ uid gid, u = user_of su uid gid ∧
        uid_resolution (bk_db b) (su_id su) (Ok uid) ∧
        gid_resolution (bk_db b) (primary_group su) (Ok gid)
    | Err e => admission_failure e
    | Panic => False
    end) b.
Proof.
  intros [Hu Hg] Hd. apply wp_bind, wp_on_db. eapply wp_mono; [by apply resolve_uid_wp|].
  intros [uid|e|] d1 [Hd1 Hr]; [|split_and!; [done..|by eapply resolution_failure]|done].
  cbn [and_then]. apply wp_bind, wp_on_db. eapply wp_mono.
  { apply resolve_gid_wp; [|done]. by eapply db_wf_same_tables. }
  intros [gid|e|] d2 [Hd2 Hr2]; cbn [bk_db set_bk_db] in *; cbn [and_then].
  - apply wp_ret. split_and!; [done|by etrans|]. exists uid, gid. split_and!; [done..|].
    eapply (resolution_ext _ _ _ _ _ (Ok gid)); [|exact Hr2].
    intros c. symmetry. by apply gid_holder_same_tables.
  - split_and!; [done|by etrans|by eapply resolution_failure].
  - done.
Qed.

(** Building, storing and going on with a user: the sequence the lookups by
    name, the activity check, the membership lookup and the listing share. *)
Lemma admit_user_wp {A} su (k : User → M backend ServiceError A)
    (Q : outcome ServiceError A → backend → Prop) b :
  usable_ranges (svc_config self) → db_wf (bk_db b) →
  (∀ e b', bk_net b' = bk_net b → same_tables (bk_db b) (bk_db b') → admission_failure e →
    Q (Err e) b') →
  (∀ uid gid d', uid_resolution (bk_db b) (su_id su) (Ok uid) →
    gid_resolution (bk_db b) (primary_group su) (Ok gid) → same_tables (bk_db b) d' →
    wp (k (user_of su uid gid)) Q (mk_backend (bk_net b) (next_stmt (replace_uid_row
      (user_row (user_of su uid gid) (sql_now (stmt_no d'))) d')))) →
  wp (let? user := scim_user_to_model self su in
      map_err from (on_db (store_user user)) ;;? k user) Q b.
Proof.
  intros Hr Hd Herr Hok. apply wp_bind. eapply wp_mono; [by apply scim_user_to_model_wp|].
  intros [u|e|] b1 (Hn1 & Hd1 & Hpost); [|by apply Herr|done].
  destruct Hpost as (uid & gid & -> & Hu & Hg). cbn [and_then].
  apply wp_bind, wp_on_db. eapply wp_mono; [apply store_user_wp|].
  intros [[]|e|] d2 Hpost; [| |done].
  - destruct Hpost as (now & -> & ->). cbn [and_then]. unfold set_bk_db. rewrite Hn1. by apply Hok.
  - destruct Hpost as [He ->]. apply Herr; [done|done|]. exists e. auto.
Qed.

Lemma resolution_range holder ext min size uid :
  resolution holder ext min size (Ok uid) → (min ≤ uid < min + size)%Z.
Proof. intros (Hc & _). exact Hc. Qed.

(** A row that is still fresh is what the lookup by its uid gives. *)
Lemma lookup_user_by_uid_wp row ttl b :
  no_faults → db_wf (bk_db b) → row ∈ uid_cache (bk_db b) →
  u64_to_sql (ttl_seconds (svc_cache self)) = Some ttl →
  unexpired (sql_now (stmt_no (bk_db b))) ttl (ur_cached_at row) →
  wp (lookup_user_by_uid self (ur_uid row)) (λ r _, r = Ok (Some (row_user row))) b.
Proof.
  intros Hnf Hd Hrow Httl Hfresh. apply wp_bind, wp_on_db.
  eapply wp_mono; [apply get_user_by_uid_wp|]. intros [res|e|] d' [_ Hpost]; [| |done].
  - destruct Hpost as (ttl' & Httl' & Hpost). assert (ttl' = ttl) as -> by congruence.
    cbn [and_then]. destruct res as [u|]; apply wp_ret.
    + destruct Hpost as (row' & Hrow' & Huid & _ & <-). do 2 f_equal.
      assert (row' = row) as ->; [|done]. by eapply (NoDup_fmap_inj ur_uid); [apply Hd|..].
    + by destruct (Hpost row Hrow eq_refl).
  - destruct Hpost as [(n & e' & He & _)|[He _]]; [by rewrite Hnf in He|congruence].
Qed.

Lemma stored_user_wf (u : User) now d d' :
  same_tables d d' → db_wf d → db_wf (next_stmt (replace_uid_row (user_row u now) d')).
Proof. intros Hs Hd. apply db_wf_next, db_wf_replace_uid. by eapply db_wf_same_tables. Qed.

(** Resolving the groups of a user. *)
Lemma resolve_gids_wp groups b :
  usable_ranges (svc_config self) → db_wf (bk_db b) →
  wp (collect groups (λ g, map_err from (on_db (resolve_gid (sgr_value g)
      (gid_range_min (cfg_mapping (svc_config self)))
      (gid_range_size (cfg_mapping (svc_config self)))))))
    (λ r _, match r with
      | Ok gids => Forall2 (λ g gid, gid_resolution (bk_db b) (sgr_value g) (Ok gid)) groups gids
      | Err e => admission_failure e
      | Panic => False
      end) b.
Proof.
  intros Hr. revert b. induction groups as [|g groups IH]; intros b Hd; [by apply wp_ret|].
  apply wp_bind, wp_on_db. eapply wp_mono; [apply resolve_gid_wp; [done|apply Hr]|].
  intros [gid|e|] d1 [Hd1 Hg]; [|by eapply resolution_failure|done]. cbn [and_then].
  apply wp_bind. eapply wp_mono; [apply IH; by eapply db_wf_same_tables|].
  intros [gids|e|] b' Hpost; [|done|done]. apply wp_ret. constructor; [done|].
  eapply Forall2_impl; [exact Hpost|]. intros x c Hc.
  eapply (resolution_ext _ _ _ _ _ (Ok c)); [|exact Hc]. intros y. symmetry.
  by apply gid_holder_same_tables.
Qed.

(** What the cached status of a user says. *)
Definition cached_status (d : db) (name : string) (active : bool) : Prop :=
  ∃ ttl row, u64_to_sql (ttl_seconds (svc_cache self)) = Some ttl ∧ row ∈ uid_cache d ∧
    ur_login row = name ∧ unexpired (sql_now (stmt_no d)) ttl (ur_cached_at row) ∧
    ur_active row = active.

Definition no_cached_status (d : db) (name : string) : Prop :=
  ∃ ttl, u64_to_sql (ttl_seconds (svc_cache self)) = Some ttl ∧
    ∀ row, row ∈ uid_cache d → ur_login row = name →
      ¬ unexpired (sql_now (stmt_no d)) ttl (ur_cached_at row).

(** The answer of the activity check, by what SCIM said. *)
Definition active_answer (d : db) (name : string)
    (scim : outcome ScimError (option ScimUser)) (r : outcome ServiceError bool) : Prop :=
  match scim with
  | Ok (Some su) => r = Ok (default true (su_active su)) ∨ ∃ e, r = Err e ∧ admission_failure e
  | Ok None => r = Ok false
  | Err _ =>
      match offline_auth_policy (cfg_security (svc_config self)), r with
      | Deny, r => r = Ok false
      | CachedStatus, Ok true => cached_status d name true
      | CachedStatus, Ok false => cached_status d name false ∨ no_cached_status d name
      | CachedStatus, Err e => ∃ ce, e = Svc_cache ce ∧
          lookup_failure (ttl_seconds (svc_cache self)) ce
      | CachedStatus, Panic => False
      end
  | Panic => False
  end.

Lemma check_user_active_wp name b :
  usable_ranges (svc_config self) → db_wf (bk_db b) → String.length name ≤ MAX_NAME_LEN →
  wp (check_user_active self name) (λ r _,
    active_answer (bk_db b) name (Scim.get_user_by_name (svc_scim self) name (bk_net b)).1 r) b.
Proof.
  intros Hr Hd Hlen. unfold check_user_active. rewrite bool_decide_eq_false_2 by lia.
  apply wp_try_with, wp_zoom. unfold wp at 1.
  pose proof (scim_lookup_no_panic (svc_scim self) name (bk_net b)) as Hnp.
  destruct (Scim.get_user_by_name _ _ _) as [[[su|]|e|] log]; simpl in *; try done.
  - apply admit_user_wp; [done..| |].
    + intros e b' _ _ He. right. eauto.
    + intros uid gid d' _ _ _. apply wp_ret. by left.
  - destruct (offline_auth_policy _); [|done].
    apply wp_bind, wp_on_db. eapply wp_mono; [apply get_user_by_name_wp|].
    intros [[u|]|ce|] d' [_ Hpost]; cbn [and_then bk_db set_bk_net]; [..|done].
    + destruct Hpost as (ttl & Httl & row & Hrow & Hname & Hfresh & <-). apply wp_ret.
      cbn [user_active row_user]. destruct (ur_active row) eqn:Ha; [|left]; by exists ttl, row.
    + destruct Hpost as (ttl & Httl & Hno). apply wp_ret. right. by exists ttl.
    + by exists ce.
Qed.

(** What a lookup by name returns, and does to the database, by what SCIM said. *)
Definition name_answer (d : db) (scim : outcome ScimError (option ScimUser)) (name : string)
    (r : outcome ServiceError (option User)) (b' : backend) : Prop :=
  match scim with
  | Ok (Some su) =>
      match r with
      | Ok u => ∃ uid gid, u = Some (user_of su uid gid) ∧
          uid_resolution d (su_id su) (Ok uid) ∧
          gid_resolution d (primary_group su) (Ok gid) ∧
          uid_holder (bk_db b') uid = Some (su_id su) ∧
          (∀ row, row ∈ uid_cache d → ur_external_id row ≠ su_id su → row ∈ uid_cache (bk_db b'))
      | Err e => admission_failure e ∧ same_tables d (bk_db b')
      | Panic => False
      end
  | _ => same_tables d (bk_db b') ∧
      match r with
      | Ok u => ∃ ttl, u64_to_sql (ttl_seconds (svc_cache self)) = Some ttl ∧
          lookup_answer (uid_cache d) (λ r, ur_login r = name) ur_cached_at
            (sql_now (stmt_no d)) ttl (λ r u, row_user r = u) u
      | Err e => ∃ ce, e = Svc_cache ce ∧ lookup_failure (ttl_seconds (svc_cache self)) ce
      | Panic => False
      end
  end.

Lemma lookup_user_by_name_wp name b :
  usable_ranges (svc_config self) → db_wf (bk_db b) → String.length name ≤ MAX_NAME_LEN →
  wp (lookup_user_by_name self name)
    (name_answer (bk_db b) (Scim.get_user_by_name (svc_scim self) name (bk_net b)).1 name) b.
Proof.
  intros Hr Hd Hlen. unfold lookup_user_by_name, name_answer. rewrite bool_decide_eq_false_2 by lia.
  apply wp_try_with, wp_zoom. unfold wp at 1.
  pose proof (scim_lookup_no_panic (svc_scim self) name (bk_net b)) as Hnp.
  destruct (Scim.get_user_by_name _ _ _) as [[[su|]|e|] log]; simpl in *; [| | |done].
  2,3: apply wp_on_db; eapply wp_mono; [apply get_user_by_name_wp|];
    intros [u|ce|] d' [Hd' Hpost]; by eauto.
  apply admit_user_wp; [done..| |].
  - intros e b' _ Hd' He. by split.
  - intros uid gid d' Hu Hg Hsame. apply wp_ret. exists uid, gid.
    apply (resolution_uid_same _ d') in Hu as Hu'; [|done].
    pose proof (stored_at_resolved d' (user_row (user_of su uid gid) (sql_now (stmt_no d')))
      _ _ uid (db_wf_same_tables _ _ Hsame Hd) eq_refl Hu') as (Hh & _ & _).
    split_and!; [done..|]. intros row Hrow Hne. cbn [bk_db].
    apply replace_uid_row_keeps; [by eapply db_wf_same_tables|apply Hu'| |done].
    by destruct Hsame as (-> & _).
Qed.
End service_facts.

Arguments uid_resolution : simpl never.
Arguments gid_resolution : simpl never.
