(* ===== verification/ServiceProps.v ===== *)
(** * ServiceProps: the properties of the service, with their witnesses *)

From S2P Require Import Prelude Text Model Value Mapping Http Sql Cache CacheFacts MockIdp Scim.
From S2P Require Import ScimProps Config Service ServiceFacts.
From stdpp Require Import prelude strings list relations.

(** One call of the service, by any of its operations and whatever its outcome. *)
Inductive service_step `{World} `{JsonParser} `{PercentEncoding} `{Sqlite} `{BuildProfile}
    `{Murmur3} (self : Service) : backend → backend → Prop :=
  | step_new config b : service_step self b
      (on_db (E:=ServiceError) (Service_new config (svc_scim self) (svc_cache self)) b).2
  | step_user_by_name name b : service_step self b (lookup_user_by_name self name b).2
  | step_user_by_uid uid b : service_step self b (lookup_user_by_uid self uid b).2
  | step_group_by_name name b : service_step self b (lookup_group_by_name self name b).2
  | step_group_by_gid gid b : service_step self b (lookup_group_by_gid self gid b).2
  | step_list_users b : service_step self b (list_all_users self b).2
  | step_list_groups b : service_step self b (list_all_groups self b).2
  | step_check_active name b : service_step self b (check_user_active self name b).2
  | step_is_online b : service_step self b (is_online self b).2
  | step_groups_for_user name b : service_step self b (lookup_groups_for_user self name b).2.

Definition service_invariant `{Sqlite} (self : Service) (b : backend) : Prop :=
  db_wf (bk_db b) ∧ Forall (scim_request (svc_scim self)) (bk_net b).

Section invariant.
Context `{World} `{JsonParser} `{PercentEncoding} `{SqliteLaws} `{BuildProfile} `{Murmur3Laws}.
Variable self : Service.

Lemma preserves_on_db {E A} (m : M db E A) :
  preserves db_wf m → preserves (service_invariant self) (on_db m).
Proof.
  intros Hm. apply (preserves_zoom _ db_wf); [done|by intros b [? _]|].
  by intros b d [_ Hn] Hd.
Qed.

Lemma preserves_on_net {E A} (m : M net E A) :
  emits (scim_request (svc_scim self)) m → preserves (service_invariant self) (on_net m).
Proof.
  intros Hm b [Hd Hn]. unfold on_net, zoom. destruct (Hm (bk_net b)) as (new & Hnew & Hall).
  destruct (m (bk_net b)) as [r log]. simpl in *. subst. split; [done|by apply Forall_app].
Qed.

#[local] Hint Resolve preserves_on_db preserves_on_net emits_get_user_by_name
  emits_get_group_by_name emits_is_online : rust_inv.

Lemma emits_list_users : emits (scim_request (svc_scim self)) (list_users (svc_scim self)).
Proof.
  intros log. destruct (paginate_log (svc_scim self) decode_ScimUser "Users"
    MAX_PAGINATION_PAGES 1 [] log) as (new & ? & _ & ?). by exists new.
Qed.
Lemma emits_list_groups : emits (scim_request (svc_scim self)) (list_groups (svc_scim self)).
Proof.
  intros log. destruct (paginate_log (svc_scim self) decode_ScimGroup "Groups"
    MAX_PAGINATION_PAGES 1 [] log) as (new & ? & _ & ?). by exists new.
Qed.
#[local] Hint Resolve emits_list_users emits_list_groups : rust_inv.

Lemma preserves_service_new {E} config :
  preserves db_wf (Service_new (E:=E) config (svc_scim self) (svc_cache self)).
Proof. unfold Service_new. preserve. Qed.
Lemma preserves_scim_user_to_model su :
  preserves (service_invariant self) (scim_user_to_model self su).
Proof. unfold scim_user_to_model. preserve. Qed.
Lemma preserves_scim_group_to_model sg :
  preserves (service_invariant self) (scim_group_to_model self sg).
Proof. unfold scim_group_to_model. preserve. Qed.
#[local] Hint Resolve preserves_service_new preserves_scim_user_to_model
  preserves_scim_group_to_model : rust_inv.

Lemma preserves_lookup_user_by_name name :
  preserves (service_invariant self) (lookup_user_by_name self name).
Proof. unfold lookup_user_by_name. preserve. Qed.
Lemma preserves_lookup_user_by_uid uid :
  preserves (service_invariant self) (lookup_user_by_uid self uid).
Proof. unfold lookup_user_by_uid. preserve. Qed.
Lemma preserves_lookup_group_by_name name :
  preserves (service_invariant self) (lookup_group_by_name self name).
Proof. unfold lookup_group_by_name. preserve. Qed.
Lemma preserves_lookup_group_by_gid gid :
  preserves (service_invariant self) (lookup_group_by_gid self gid).
Proof. unfold lookup_group_by_gid. preserve. Qed.
Lemma preserves_list_all_users : preserves (service_invariant self) (list_all_users self).
Proof. unfold list_all_users. preserve. Qed.
Lemma preserves_list_all_groups : preserves (service_invariant self) (list_all_groups self).
Proof. unfold list_all_groups. preserve. Qed.
Lemma preserves_check_user_active name :
  preserves (service_invariant self) (check_user_active self name).
Proof. unfold check_user_active. preserve. Qed.
Lemma preserves_is_online : preserves (service_invariant self) (is_online self).
Proof. unfold is_online. preserve. Qed.
Lemma preserves_lookup_groups_for_user name :
  preserves (service_invariant self) (lookup_groups_for_user self name).
Proof. unfold lookup_groups_for_user. preserve. Qed.

(** C21: every state the service reaches, failed calls and an arbitrary network
    included, has a database that satisfies the schema, and a network log of
    GET requests below the base URL with the bearer token. *)
Theorem service_reachable_invariant b :
  rtc (service_step self) (mk_backend [] empty_db) b → service_invariant self b.
Proof.
  revert b. apply rtc_ind_r; [split; [apply db_wf_empty|constructor]|].
  intros b b' _ Hstep Hb. destruct Hstep.
  - apply preserves_on_db; [apply preserves_service_new|done].
  - by apply preserves_lookup_user_by_name.
  - by apply preserves_lookup_user_by_uid.
  - by apply preserves_lookup_group_by_name.
  - by apply preserves_lookup_group_by_gid.
  - by apply preserves_list_all_users.
  - by apply preserves_list_all_groups.
  - by apply preserves_check_user_active.
  - by apply preserves_is_online.
  - by apply preserves_lookup_groups_for_user.
Qed.
End invariant.

Section listing.
Context `{World} `{JsonParser} `{PercentEncoding} `{SqliteLaws} `{BuildProfile} `{Murmur3Laws}.
Variable self : Service.

(** The loop of the listing. *)
Definition admit_all (sus : list ScimUser) : M backend ServiceError (list User) :=
  collect sus (λ su,
    let? user := scim_user_to_model self su in
    map_err from (on_db (store_user user)) ;;?
    ret user).

(** After the loop each user holds its uid, and whoever held one before and is
    not of the listing still does. *)
Lemma admit_all_wp sus b :
  usable_ranges (svc_config self) → db_wf (bk_db b) → NoDup (su_id <$> sus) →
  wp (admit_all sus) (λ r b', match r with
    | Ok us => db_wf (bk_db b') ∧
        Forall2 (λ su u, ∃ uid gid, u = user_of self su uid gid) sus us ∧
        Forall (λ u, uid_holder (bk_db b') (user_uid u) = Some (user_external_id u)) us ∧
        (∀ ext uid, ext ∉ su_id <$> sus → uid_holder (bk_db b) uid = Some ext →
          uid_holder (bk_db b') uid = Some ext)
    | Err e => admission_failure e
    | Panic => False
    end) b.
Proof.
  intros Hr. revert b. induction sus as [|su sus IH]; intros b Hd Hnd.
  { apply wp_ret. split_and!; auto. }
  rewrite fmap_cons in Hnd. apply NoDup_cons in Hnd as [Hsu Hnd].
  apply wp_bind, admit_user_wp; [done..|].
  intros uid gid d' Hu Hg Hsame. apply wp_ret. cbn [and_then]. apply wp_bind.
  pose proof (stored_user_wf (user_of self su uid gid) (sql_now (stmt_no d')) _ _ Hsame Hd) as Hwf.
  eapply wp_mono; [by apply IH|].
  intros [us|e|] b2; [|done|done]. intros (Hwf2 & Hus & Hhold & Hkeep). apply wp_ret.
  cbn [bk_db] in *. set (row := user_row (user_of self su uid gid) _) in *.
  assert (Hd1 : ∀ c, uid_holder (next_stmt (replace_uid_row row d')) c =
    if bool_decide (uid = c) then Some (su_id su)
    else if bool_decide (uid_holder (bk_db b) c = Some (su_id su)) then None
    else uid_holder (bk_db b) c).
  { intros c. change (uid_holder (next_stmt ?d)) with (uid_holder d).
    rewrite uid_holder_replace by by eapply db_wf_same_tables.
    by rewrite (uid_holder_same_tables _ _ _ Hsame). }
  split_and!; [done|by constructor; eauto| |].
  - constructor; [|done]. apply Hkeep; [done|]. by rewrite Hd1, bool_decide_eq_true_2.
  - intros ext c Hext Hc. rewrite fmap_cons, not_elem_of_cons in Hext. destruct Hext as [Hne Hext].
    apply Hkeep; [done|]. rewrite Hd1, !bool_decide_eq_false_2; [done|congruence|].
    intros <-. destruct Hu as (_ & [Hav|Hav] & _); congruence.
Qed.

Lemma listed_ids_distinct sus (us : list User) (holder : Z → option string) :
  NoDup (su_id <$> sus) →
  Forall2 (λ su u, ∃ uid gid, u = user_of self su uid gid) sus us →
  Forall (λ u, holder (user_uid u) = Some (user_external_id u)) us →
  NoDup (user_uid <$> us).
Proof.
  intros Hnd Hus Hhold.
  assert (Hext : su_id <$> sus = user_external_id <$> us).
  { clear -Hus. induction Hus as [|su u sus us (? & ? & ->) _ IH]; [done|].
    rewrite !fmap_cons. by f_equal. }
  rewrite Hext in Hnd. clear Hus Hext sus. induction us as [|u us IH]; [apply NoDup_nil_2|].
  rewrite fmap_cons in *. apply NoDup_cons in Hnd as [Hu Hnd].
  apply Forall_cons in Hhold as [Hh Hhold]. apply NoDup_cons. split; [|by apply IH].
  intros (u' & Heq & Hin)%list_elem_of_fmap. apply Hu.
  rewrite Forall_forall in Hhold. specialize (Hhold u' Hin). rewrite <-Heq, Hh in Hhold.
  injection Hhold as ->. by apply list_elem_of_fmap_2.
Qed.

(** C26: with usable id ranges, listing everyone, where SCIM lists no identity
    twice, gives each identity a user built from its resource, in the order SCIM
    lists them, and no two of them the same uid; it fails only with SCIM, with a
    query or with an exhausted range. *)
Theorem listed_users_have_distinct_uids b :
  usable_ranges (svc_config self) → db_wf (bk_db b) →
  let listed := (list_users (svc_scim self) (bk_net b)).1 in
  (∀ sus, listed = Ok sus → NoDup (su_id <$> sus)) →
  wp (list_all_users self) (λ r b',
    match listed, r with
    | Ok sus, Ok us => NoDup (user_uid <$> us) ∧
        Forall2 (λ su u, ∃ uid gid, u = user_of self su uid gid) sus us ∧
        Forall (λ u, uid_holder (bk_db b') (user_uid u) = Some (user_external_id u)) us
    | Ok _, Err e => admission_failure e
    | Ok _, Panic => False
    | Err e, r => r = Err (Svc_scim e)
    | Panic, r => r = Panic
    end) b.
Proof.
  intros Hr Hd listed Hnd. unfold list_all_users. apply wp_bind, wp_map_err, wp_zoom.
  unfold wp at 1. fold listed. destruct listed as [sus|e|] eqn:Hl; [|done|done].
  cbn [and_then]. eapply wp_mono; [apply (admit_all_wp sus); auto|].
  intros [us|e|] b' Hpost; [|done|done]. destruct Hpost as (_ & Hus & Hhold & _).
  split_and!; [|done|done]. by eapply listed_ids_distinct; eauto.
Qed.
End listing.

Section lookups.
Context `{World} `{JsonParser} `{PercentEncoding} `{SqliteLaws} `{BuildProfile} `{Murmur3Laws}.
Variable self : Service.

(** The account check, on every branch. It permits a user only on SCIM's
    word or, where SCIM cannot be reached and the policy allows it, on that of
    an unexpired cached row that says active. A user SCIM does not know is
    denied even when cached, and [Deny] refuses everyone offline. *)
Lemma check_user_active_spec name b :
  usable_ranges (svc_config self) → db_wf (bk_db b) →
  wp (check_user_active self name) (λ r _,
    if decide (String.length name ≤ MAX_NAME_LEN)
    then active_answer self (bk_db b) name
      (Scim.get_user_by_name (svc_scim self) name (bk_net b)).1 r
    else r = Ok false) b.
Proof.
  intros Hr Hd. case_decide; [by apply check_user_active_wp|].
  unfold check_user_active. rewrite bool_decide_eq_true_2 by lia. by apply wp_ret.
Qed.

(** A name of more than 256 bytes is answered without a request, a query or
    any other effect. *)
Theorem oversized_names_do_nothing name b :
  MAX_NAME_LEN < String.length name →
  lookup_user_by_name self name b = (Ok None, b) ∧
  lookup_group_by_name self name b = (Ok None, b) ∧
  check_user_active self name b = (Ok false, b) ∧
  lookup_groups_for_user self name b = (Ok [], b).
Proof.
  intros Hlen. unfold lookup_user_by_name, lookup_group_by_name, check_user_active,
    lookup_groups_for_user. by rewrite bool_decide_eq_true_2.
Qed.

(** C24: what a lookup by name returns and does, where the configured id ranges are
    usable. A name of more than 256 bytes is answered with none, and nobody is
    asked and nothing changes. A user SCIM knows is built from its resource, gets
    the first available uid of its probe order, is stored under it, and evicts no
    other user, or the lookup fails with a statement or an exhausted range and
    stores nothing; a user SCIM does not know, or cannot be asked about, comes from
    the unexpired rows of the cache, which the lookup does not change. *)
Theorem lookup_user_by_name_spec name b :
  usable_ranges (svc_config self) → db_wf (bk_db b) →
  wp (lookup_user_by_name self name) (λ r b',
    if decide (String.length name ≤ MAX_NAME_LEN)
    then name_answer self (bk_db b)
      (Scim.get_user_by_name (svc_scim self) name (bk_net b)).1 name r b'
    else r = Ok None ∧ b' = b) b.
Proof.
  intros Hr Hd. case_decide; [by apply lookup_user_by_name_wp|].
  unfold lookup_user_by_name. by rewrite bool_decide_eq_true_2 by lia.
Qed.

(** The two lookups agree: the user that SCIM gave for a name is what a lookup
    by its uid gives right afterwards. *)
Lemma lookup_by_uid_agrees name su b :
  usable_ranges (svc_config self) → db_wf (bk_db b) → no_faults →
  (0 ≤ ttl_seconds (svc_cache self) < 2 ^ 63)%Z → within_ttl (ttl_seconds (svc_cache self)) →
  String.length name ≤ MAX_NAME_LEN →
  (Scim.get_user_by_name (svc_scim self) name (bk_net b)).1 = Ok (Some su) →
  wp (lookup_user_by_name self name) (λ r b', r = Err (Svc_cache RangeExhausted) ∨
    ∃ uid gid, let u := user_of self su uid gid in r = Ok (Some u) ∧
      (lookup_user_by_uid self uid b').1 = Ok (Some u)) b.
Proof.
  intros Hr Hd Hnf Httl Hw Hlen Hscim. unfold lookup_user_by_name.
  rewrite bool_decide_eq_false_2 by lia. apply wp_try_with, wp_zoom. unfold wp at 1.
  destruct (Scim.get_user_by_name _ _ _) as [r log]. cbn [fst snd] in *. subst r.
  apply admit_user_wp; [done..| |].
  - intros e b' _ _ (ce & -> & [(n & e' & He & _)| ->]); [by rewrite Hnf in He|by left].
  - intros uid gid d' _ _ Hsame. apply wp_ret. right. exists uid, gid. split; [done|].
    set (row := user_row _ _).
    apply (lookup_user_by_uid_wp self row (ttl_seconds (svc_cache self))); [done| | | |].
    + by eapply stored_user_wf.
    + simpl. apply elem_of_app. right. by left.
    + by apply u64_to_sql_fits.
    + apply Hw.
Qed.

(** C38: primary group ids are not reserved: they are resolved against the cached
    groups but never stored. With usable id ranges and where no statement fails, two
    users who are admitted one after the other, and whose primary groups (the first
    of the resource or, without one, the user's own identifier) hash to one slot that
    no cached group holds, get the same primary gid, unless an exhausted range stops
    an admission. *)
Theorem primary_gids_may_collide su1 su2 h1 h2 b :
  usable_ranges (svc_config self) → db_wf (bk_db b) → no_faults →
  murmur3_32 (primary_group su1) 0 = Some h1 → murmur3_32 (primary_group su2) 0 = Some h2 →
  let mc := cfg_mapping (svc_config self) in
  (h1 `mod` gid_range_size mc = h2 `mod` gid_range_size mc)%Z →
  gid_holder (bk_db b) (gid_range_min mc + h1 `mod` gid_range_size mc)%Z = None →
  wp (let? u1 := scim_user_to_model self su1 in
      map_err from (on_db (store_user u1)) ;;?
      let? u2 := scim_user_to_model self su2 in
      map_err from (on_db (store_user u2)) ;;?
      ret (u1, u2))
    (λ r _, match r with
      | Ok (u1, u2) => user_gid u1 = user_gid u2
      | Err e => e = Svc_cache RangeExhausted
      | Panic => False
      end) b.
Proof.
  intros Hr Hd Hnf Hh1 Hh2 mc Hmod Hfree.
  assert (Hadm : ∀ e, admission_failure e → e = Svc_cache RangeExhausted).
  { intros e (ce & -> & [(n & e' & He & _)| ->]); [by rewrite Hnf in He|done]. }
  apply admit_user_wp; [done..|by intros; apply Hadm|].
  intros uid1 gid1 d1 _ Hg1 Hs1.
  apply admit_user_wp; [done|by eapply stored_user_wf|by intros; apply Hadm|].
  intros uid2 gid2 d2 _ Hg2 _. apply wp_ret. cbn [user_gid user_of].
  pose proof (proj2 Hr) as Hp. fold mc in Hp.
  apply (resolution_first_free _ _ _ _ h1) in Hg1 as ->; [|done..].
  apply (resolution_first_free _ _ _ _ h2) in Hg2 as ->; [by fold mc; rewrite Hmod|done..|].
  fold mc. rewrite <-Hmod. cbn [bk_db].
  change (gid_holder (next_stmt (replace_uid_row ?r ?d))) with (gid_holder d).
  by rewrite (gid_holder_same_tables _ _ _ Hs1).
Qed.

(** C39: the groups of a user with a name of at most 256 bytes, with usable id
    ranges. Online they are one gid for each group reference
    of the SCIM resource, in order, each the first available one of its probe
    order; offline they are the gids of the unexpired cached groups that list
    the name; a user unknown to SCIM has none. *)
Theorem lookup_groups_for_user_spec name b :
  usable_ranges (svc_config self) → db_wf (bk_db b) → String.length name ≤ MAX_NAME_LEN →
  wp (lookup_groups_for_user self name) (λ r _,
    match (Scim.get_user_by_name (svc_scim self) name (bk_net b)).1, r with
    | Ok (Some su), Ok gids => Forall2 (λ g gid,
        gid_resolution self (bk_db b) (sgr_value g) (Ok gid)) (su_groups su) gids
    | Ok (Some su), Err e => admission_failure e
    | Ok None, r => r = Ok []
    | Err _, Ok gids => ∃ ttl, u64_to_sql (ttl_seconds (svc_cache self)) = Some ttl ∧
        gids ≡ₚ gr_gid <$> filter (λ g,
          mk_member_row (gr_external_id g) name ∈ group_members_table (bk_db b) ∧
          unexpired (sql_now (stmt_no (bk_db b))) ttl (gr_cached_at g)) (gid_cache (bk_db b))
    | Err _, Err e => ∃ ce, e = Svc_cache ce ∧
        lookup_failure (ttl_seconds (svc_cache self)) ce
    | _, Panic => False
    | Panic, _ => False
    end) b.
Proof.
  intros Hr Hd Hlen. unfold lookup_groups_for_user. rewrite bool_decide_eq_false_2 by lia.
  apply wp_try_with, wp_zoom. unfold wp at 1.
  pose proof (scim_lookup_no_panic (svc_scim self) name (bk_net b)) as Hnp.
  destruct (Scim.get_user_by_name _ _ _) as [[[su|]|e|] log]; simpl in *; [|done| |done].
  - apply admit_user_wp; [done..|by intros|]. intros uid gid d' _ _ Hsame.
    eapply wp_mono; [apply resolve_gids_wp; [done|by eapply stored_user_wf]|].
    intros [gids|e|] b' Hpost; [|done|done].
    eapply Forall2_impl; [exact Hpost|]. intros g c Hc.
    eapply (resolution_ext _ _ _ _ _ (Ok c)); [|exact Hc]. intros x. symmetry.
    exact (gid_holder_same_tables _ _ x Hsame).
  - apply wp_bind, wp_on_db. eapply wp_mono; [by apply get_groups_for_member_wp|].
    intros [gs|ce|] d' [_ Hpost]; [|by exists ce|done]. cbn [and_then]. apply wp_ret.
    destruct Hpost as (ttl & rs & Httl & Hrs & Hperm). exists ttl. split; [done|].
    cbn [bk_db set_bk_net] in *. rewrite <-Hperm. clear -Hrs.
    induction Hrs as [|r g rs gs (_ & _ & Hg & _) _ IH]; [done|]. rewrite !fmap_cons, Hg.
    by f_equiv.
Qed.
End lookups.

(** ** Groups *)

Section groups.
Context `{World} `{JsonParser} `{PercentEncoding} `{SqliteLaws} `{BuildProfile} `{Murmur3Laws}.
Variable self : Service.









End groups.

(** ** Witnesses: the service against the mock server *)

#[local] Existing Instance idp_world.
#[local] Existing Instance idp_parser.
#[local] Existing Instance ascii_percent_encoding.
#[local] Instance engine : Sqlite := still_engine true 1000.
#[local] Instance engine_laws : SqliteLaws := still_engine_laws true 1000.
#[local] Existing Instance release_build.
#[local] Existing Instance byte_sum_hash.
#[local] Existing Instance byte_sum_hash_laws.

Definition sample_config (policy : OfflineAuthPolicy) : Config :=
  mk_config (mk_scim_config mock_base "" "test-token")
    (mk_oidc_config mock_base "test-client" None true)
    default_mapping default_user_defaults default_cache_config (mk_security_config policy).
Definition sample_service (policy : OfflineAuthPolicy) : Service :=
  mk_service (ScimClient_new mock_base "test-token") (mk_cache 3600) (sample_config policy).
Definition fresh_backend : backend := mk_backend [] empty_db.

Definition alice_user : User := mk_user "user-uuid-alice-001" "alice" 201676 201590
  "Alice Smith" "/home/alice" "/bin/bash" true.

Lemma sample_usable policy : usable_ranges (sample_config policy).
Proof. split; vm_compute; repeat split; congruence. Qed.
Lemma engine_no_faults : no_faults.
Proof. by intros n. Qed.

Example lookup_alice :
  (lookup_user_by_name (sample_service CachedStatus) "alice" fresh_backend).1 = Ok (Some alice_user).
Proof. vm_compute. reflexivity. Qed.
Example disabled_bob_is_denied :
  (check_user_active (sample_service CachedStatus) "disabled_bob" fresh_backend).1 = Ok false.
Proof. vm_compute. reflexivity. Qed.
Example groups_of_alice :
  (lookup_groups_for_user (sample_service CachedStatus) "alice" fresh_backend).1 = Ok [201590]%Z.
Proof. vm_compute. reflexivity. Qed.
Example everyone_listed :
  (λ r, match r with Ok us => (λ u, (user_name u, user_uid u)) <$> us | _ => [] end)
    (list_all_users (sample_service CachedStatus) fresh_backend).1
  = [("alice", 201676%Z); ("disabled_bob", 201474%Z)].
Proof. vm_compute. reflexivity. Qed.

Lemma service_reachable_invariant_witness :
  service_invariant (sample_service Deny)
    (lookup_user_by_name (sample_service Deny) "alice" fresh_backend).2.
Proof. apply service_reachable_invariant, rtc_once, step_user_by_name. Defined.

Definition mock_bob : ScimUser :=
  mk_scim_user "user-uuid-bob-002" "disabled_bob" (Some "Bob Disabled") (Some false) [].

Lemma mock_listing :
  (list_users (svc_scim (sample_service CachedStatus)) (bk_net fresh_backend)).1 = Ok [alice; mock_bob].
Proof. vm_compute. reflexivity. Qed.
Lemma mock_alice policy :
  (Scim.get_user_by_name (svc_scim (sample_service policy)) "alice" (bk_net fresh_backend)).1
  = Ok (Some alice).
Proof. vm_compute. reflexivity. Qed.

Lemma listed_users_have_distinct_uids_witness :
  wp (list_all_users (sample_service CachedStatus)) (λ r _, match r with
    | Ok us => NoDup (user_uid <$> us) ∧ length us = 2
    | Err e => admission_failure e
    | Panic => False
    end) fresh_backend.
Proof.
  pose proof (listed_users_have_distinct_uids (sample_service CachedStatus) fresh_backend
    (sample_usable CachedStatus) db_wf_empty) as Hw.
  cbv zeta in Hw. rewrite mock_listing in Hw. eapply wp_mono; [apply Hw|].
  - intros sus [= <-]. apply (bool_decide_unpack _). vm_compute. exact I.
  - intros [us|e|] b' Hr; [|exact Hr|exact Hr]. destruct Hr as (Hnd & Hus & _).
    split; [exact Hnd|]. symmetry. exact (Forall2_length _ _ _ Hus).
Defined.

Lemma check_user_active_spec_witness :
  wp (check_user_active (sample_service Deny) "disabled_bob") (λ r _,
    active_answer (sample_service Deny) empty_db "disabled_bob"
      (Scim.get_user_by_name (svc_scim (sample_service Deny)) "disabled_bob" []).1 r) fresh_backend.
Proof.
  exact (check_user_active_spec (sample_service Deny) "disabled_bob" fresh_backend
    (sample_usable Deny) db_wf_empty).
Defined.

Fixpoint long_name (n : nat) : string :=
  match n with O => "" | S n => String (Ascii.ascii_of_nat 97) (long_name n) end.

Lemma oversized_names_do_nothing_witness :
  lookup_user_by_name (sample_service Deny) (long_name 257) fresh_backend = (Ok None, fresh_backend).
Proof.
  refine (proj1 (oversized_names_do_nothing (sample_service Deny) (long_name 257) fresh_backend _)).
  vm_compute. lia.
Defined.

Lemma lookup_user_by_name_spec_witness :
  wp (lookup_user_by_name (sample_service Deny) "alice") (λ r b',
    match r with
    | Ok u => ∃ uid gid, u = Some (user_of (sample_service Deny) alice uid gid) ∧
        uid_holder (bk_db b') uid = Some "user-uuid-alice-001"
    | Err e => admission_failure e
    | Panic => False
    end) fresh_backend.
Proof.
  pose proof (lookup_user_by_name_spec (sample_service Deny) "alice" fresh_backend
    (sample_usable Deny) db_wf_empty) as Hw.
  rewrite mock_alice in Hw. eapply wp_mono; [exact Hw|].
  intros r b' Hr. cbv beta in Hr. rewrite decide_True in Hr by (vm_compute; lia). revert Hr.
  destruct r as [u|e|]; intros Hr; [|exact (proj1 Hr)|exact Hr].
  destruct Hr as (uid & gid & Hu & _ & _ & Hh & _). exists uid, gid. split; [exact Hu|exact Hh].
Defined.

(** Two users of the groups ["staff-ab"] and ["staff-ba"], whose byte sums agree. *)
Definition member_of (id name group : string) : ScimUser :=
  mk_scim_user id name None (Some true) [mk_scim_group_ref group None].

Lemma primary_gids_may_collide_witness :
  let u1 := member_of "user-1" "ann" "staff-ab" in
  let u2 := member_of "user-2" "ben" "staff-ba" in
  primary_group u1 ≠ primary_group u2 ∧
  wp (let? u1 := scim_user_to_model (sample_service Deny) u1 in
      map_err from (on_db (store_user u1)) ;;?
      let? u2 := scim_user_to_model (sample_service Deny) u2 in
      map_err from (on_db (store_user u2)) ;;? ret (u1, u2))
    (λ r _, match r with
      | Ok (u1, u2) => user_gid u1 = user_gid u2
      | Err e => e = Svc_cache RangeExhausted
      | Panic => False
      end) fresh_backend.
Proof.
  split; [discriminate|].
  apply (primary_gids_may_collide (sample_service Deny) _ _ 772 772 fresh_backend
    (sample_usable Deny) db_wf_empty engine_no_faults); vm_compute; reflexivity.
Defined.

Lemma lookup_groups_for_user_spec_witness :
  wp (lookup_groups_for_user (sample_service Deny) "alice") (λ r _,
    match r with
    | Ok gids => Forall2 (λ g gid,
        gid_resolution (sample_service Deny) empty_db (sgr_value g) (Ok gid)) (su_groups alice) gids
    | Err e => admission_failure e
    | Panic => False
    end) fresh_backend.
Proof.
  pose proof (lookup_groups_for_user_spec (sample_service Deny) "alice" fresh_backend
    (sample_usable Deny) db_wf_empty ltac:(vm_compute; lia)) as Hw.
  rewrite mock_alice in Hw. exact Hw.
Defined.

(** A group of the mock server's kind with a repeated display name. *)
Definition twin_group : ScimGroup := mk_scim_group "group-2" "staff"
  [mk_scim_member_ref "u1" (Some "John Smith"); mk_scim_member_ref "u2" (Some "John Smith")].



Example twins_cannot_be_stored :
  ((let? group := scim_group_to_model (sample_service Deny) twin_group in
    map_err from (on_db (store_group group)) ;;? ret group) fresh_backend).1 =
  Err (Svc_cache (Sqlite_error ConstraintViolation)).
Proof. vm_compute. reflexivity. Qed.
