(* ===== verification/TypeSafety.v ===== *)
(** * TypeSafety: every id is a [u32]

    SQLite stores 64-bit integers and the code reads [uid] and [gid] columns into
    [u32], which fails for a value out of range. No such value gets into the
    tables, so the reads of [Cache] do not fail on it, and what the service
    answers fits the [uid_t] and [gid_t] of the C structs. *)

From S2P Require Import Prelude Text Model Value Mapping Http Sql Cache CacheFacts MockIdp Scim.
From S2P Require Import ScimProps Config Service ServiceFacts ServiceProps.
From stdpp Require Import prelude strings list relations.

Definition user_typed (u : User) : Prop := is_u32 (user_uid u) ∧ is_u32 (user_gid u).
Definition group_typed (g : Group) : Prop := is_u32 (group_gid g).

(** A well-formed database whose ids are of their columns' Rust types. *)
Definition db_typed `{Sqlite} (d : db) : Prop :=
  db_wf d ∧ (∀ r, r ∈ uid_cache d → is_u32 (ur_uid r) ∧ is_u32 (ur_gid r)) ∧
  ∀ r, r ∈ gid_cache d → is_u32 (gr_gid r).
Definition backend_typed `{Sqlite} (b : backend) : Prop := db_typed (bk_db b).

Section cache_types.
Context `{SqliteLaws} `{BuildProfile} `{Murmur3Laws}.

Lemma db_typed_same_tables d d' : same_tables d d' → db_typed d → db_typed d'.
Proof.
  intros Hs (Hwf & Hu & Hg). split; [by eapply db_wf_same_tables|].
  destruct Hs as (-> & -> & _). done.
Qed.

Lemma valid_range_u32 min size uid :
  valid_range min size → (min ≤ uid < min + size)%Z → is_u32 uid.
Proof. intros (?&?&?) ?. unfold is_u32. lia. Qed.

Lemma yields_resolve_uid ext min size :
  probe_range min size → yields db_typed (resolve_uid ext min size) is_u32.
Proof.
  intros Hp. eapply yields_of_wp; [intros d Hd; apply resolve_uid_wp; [apply Hd|done]|].
  intros d r d' Hd [Hs Hr]. split; [by eapply db_typed_same_tables|]. intros uid ->.
  eapply valid_range_u32; [apply Hp|apply Hr].
Qed.
Lemma yields_resolve_gid ext min size :
  probe_range min size → yields db_typed (resolve_gid ext min size) is_u32.
Proof.
  intros Hp. eapply yields_of_wp; [intros d Hd; apply resolve_gid_wp; [apply Hd|done]|].
  intros d r d' Hd [Hs Hr]. split; [by eapply db_typed_same_tables|]. intros gid ->.
  eapply valid_range_u32; [apply Hp|apply Hr].
Qed.

Lemma yields_store_user u : user_typed u → yields db_typed (store_user u) (λ _, True).
Proof.
  intros Hu. eapply yields_of_wp; [intros d _; apply store_user_wp|].
  intros d [[]|e|] d' (Hwf & Htu & Htg) Hpost; [| |done].
  - destruct Hpost as (now & _ & ->). split; [|done].
    split; [by apply db_wf_next, db_wf_replace_uid|]. split; [|done].
    intros r [[_ Hr]%list_elem_of_filter| ->%list_elem_of_singleton]%elem_of_app; [auto|exact Hu].
  - destruct Hpost as [_ ->]. split; [|done]. split; [by apply db_wf_next|done].
Qed.

Lemma yields_execute (w : Z → db → db) :
  (∀ now d, db_typed d → db_typed (w now d)) → yields db_typed (execute w) (λ _, True).
Proof.
  intros Hw. apply yields_of_preserves, preserves_execute; [|done].
  intros d Hd. by apply (db_typed_same_tables d).
Qed.

Lemma db_typed_delete_gid (P : gid_row → Prop) `{∀ r, Decision (P r)} d :
  db_typed d → db_typed (delete_gid_rows P d).
Proof.
  intros (Hwf & Hu & Hg). split; [by apply db_wf_delete_gid|]. split; [done|].
  intros r [_ Hr]%list_elem_of_filter. auto.
Qed.

Lemma db_typed_filter_members (P : member_row → Prop) `{∀ r, Decision (P r)} d :
  db_typed d → db_typed (set_group_members (filter P (group_members_table d)) d).
Proof. intros (Hwf & Hu & Hg). split; [by apply db_wf_filter_members|done]. Qed.

Lemma yields_insert_member m : yields db_typed (insert_member m) (λ _, True).
Proof.
  apply yields_of_preserves. intros d (Hwf & Hu & Hg).
  split; [by apply preserves_insert_member|]. revert Hu Hg. unfold insert_member, statement.
  destruct (sql_fault _); [done|]. by repeat (case_match; simpl).
Qed.

Lemma yields_store_group g : group_typed g → yields db_typed (store_group g) (λ _, True).
Proof.
  intros Hg. unfold store_group.
  eapply yields_bind; [apply yields_map_err, yields_execute|intros _ _].
  { intros now d Hd. pose proof (db_typed_delete_gid (gid_clash (group_row g now)) d Hd) as (_ & Hu & Hgs).
    split; [apply db_wf_replace_gid, Hd|]. split; [exact Hu|]. unfold replace_gid_row. simpl in *.
    intros r [Hr| ->%list_elem_of_singleton]%elem_of_app; [auto|exact Hg]. }
  eapply yields_bind; [apply yields_map_err, yields_execute|intros _ _].
  { intros now d. apply db_typed_filter_members. }
  induction (group_members g) as [|m ms IH]; [by apply yields_ret|].
  eapply yields_bind; [apply yields_map_err, yields_insert_member|by intros _ _].
Qed.

Lemma yields_purge_expired ttl : yields db_typed (purge_expired ttl) (λ _, True).
Proof.
  assert (yields db_typed (map_err (from (B:=CacheError)) (bind_u64 ttl)) (λ _, True)) as Hb.
  { apply yields_of_preserves. unfold bind_u64. preserve. }
  unfold purge_expired. eapply yields_bind; [exact Hb|intros t1 _].
  eapply yields_bind; [apply yields_map_err, yields_execute|intros _ _].
  { intros now d. apply db_typed_filter_members. }
  eapply yields_bind; [exact Hb|intros t2 _].
  eapply yields_bind; [apply yields_map_err, yields_execute|intros _ _].
  { intros now d. apply db_typed_delete_gid. }
  eapply yields_bind; [exact Hb|intros t3 _]. apply yields_map_err, yields_execute.
  intros now d (Hwf & Hu & Hg). split; [by apply db_wf_filter_uid|]. split; [|done].
  intros r [_ Hr]%list_elem_of_filter. auto.
Qed.

Lemma yields_cached_by_uid c uid :
  yields db_typed (get_user_by_uid c uid) (λ u, ∀ u', u = Some u' → user_typed u').
Proof.
  eapply yields_of_wp; [intros d _; apply get_user_by_uid_wp|].
  intros d r d' Hd [Hs Hr]. split; [by eapply db_typed_same_tables|]. intros u ->.
  destruct Hr as (ttl & _ & Hres). intros u' ->. destruct Hres as (row & Hin & _ & _ & <-).
  by apply Hd.
Qed.
Lemma yields_cached_by_name c name :
  yields db_typed (Cache.get_user_by_name c name) (λ u, ∀ u', u = Some u' → user_typed u').
Proof.
  eapply yields_of_wp; [intros d _; apply get_user_by_name_wp|].
  intros d r d' Hd [Hs Hr]. split; [by eapply db_typed_same_tables|]. intros u ->.
  destruct Hr as (ttl & _ & Hres). intros u' ->. destruct Hres as (row & Hin & _ & _ & <-).
  by apply Hd.
Qed.

Lemma group_of_row_typed d d' row g :
  db_typed d → row ∈ gid_cache d → group_of_row d' row g → group_typed g.
Proof. intros (_ & _ & Hg) Hin (_ & _ & Hgid & _). unfold group_typed. rewrite Hgid. auto. Qed.

Lemma yields_cached_group {K} (lookup : K → M db CacheError (option Group)) c (key : K → gid_row → Prop) k :
  (∀ d, wp (lookup k) (group_lookup_post c (key k) d) d) →
  yields db_typed (lookup k) (λ g, ∀ g', g = Some g' → group_typed g').
Proof.
  intros Hl. eapply yields_of_wp; [intros d _; apply Hl|].
  intros d r d' Hd [Hs Hr]. split; [by eapply db_typed_same_tables|]. intros g ->.
  destruct Hr as (ttl & _ & Hres). intros g' ->. destruct Hres as (row & Hin & _ & _ & Hg).
  by eapply group_of_row_typed.
Qed.

Lemma yields_groups_for_member c name :
  yields db_typed (get_groups_for_member c name) (Forall group_typed).
Proof.
  eapply yields_of_wp; [intros d Hd; apply get_groups_for_member_wp, Hd|].
  intros d r d' Hd [Hs Hr]. split; [by eapply db_typed_same_tables|]. intros gs ->.
  destruct Hr as (ttl & rs & _ & Hgs & Hrs).
  assert (Forall (λ r, r ∈ gid_cache d) rs) as Hall.
  { apply Forall_forall. intros row Hrow. rewrite Hrs in Hrow.
    by apply list_elem_of_filter in Hrow as [_ ?]. }
  clear Hrs. induction Hgs as [|row g rs gs Hg _ IH]; [done|].
  apply Forall_cons in Hall as [Hrow Hall].
  constructor; [by eapply group_of_row_typed|by apply IH].
Qed.
End cache_types.

Section service_types.
Context `{World} `{JsonParser} `{PercentEncoding} `{SqliteLaws} `{BuildProfile} `{Murmur3Laws}.
Variable self : Service.
Hypothesis Hranges : usable_ranges (svc_config self).

Lemma yields_on_db {E A} (m : M db E A) (P : A → Prop) :
  yields db_typed m P → yields backend_typed (on_db m) P.
Proof. intros Hm. by apply (yields_zoom _ db_typed). Qed.
Lemma yields_on_net {E A} (m : M net E A) : yields backend_typed (on_net m) (λ _, True).
Proof. apply (yields_zoom _ (λ _, True)); [|done|done]. by intros log. Qed.

Lemma yields_scim_user_to_model su : yields backend_typed (scim_user_to_model self su) user_typed.
Proof.
  destruct Hranges. unfold scim_user_to_model.
  eapply yields_bind; [by apply yields_map_err, yields_on_db, yields_resolve_uid|intros uid Hu].
  eapply yields_bind; [by apply yields_map_err, yields_on_db, yields_resolve_gid|intros gid Hg].
  by apply yields_ret.
Qed.
Lemma yields_scim_group_to_model sg : yields backend_typed (scim_group_to_model self sg) group_typed.
Proof.
  destruct Hranges. unfold scim_group_to_model.
  eapply yields_bind; [by apply yields_map_err, yields_on_db, yields_resolve_gid|intros gid Hg].
  by apply yields_ret.
Qed.

(** Building, storing and going on. *)
Lemma yields_admit_user {B} su (k : User → M backend ServiceError B) (P : B → Prop) :
  (∀ u, user_typed u → yields backend_typed (k u) P) →
  yields backend_typed (let? user := scim_user_to_model self su in
    map_err from (on_db (store_user user)) ;;? k user) P.
Proof.
  intros Hk. eapply yields_bind; [apply yields_scim_user_to_model|intros u Hu].
  eapply yields_bind; [by apply yields_map_err, yields_on_db, yields_store_user|intros _ _]. auto.
Qed.
Lemma yields_admit_group {B} sg (k : Group → M backend ServiceError B) (P : B → Prop) :
  (∀ g, group_typed g → yields backend_typed (k g) P) →
  yields backend_typed (let? group := scim_group_to_model self sg in
    map_err from (on_db (store_group group)) ;;? k group) P.
Proof.
  intros Hk. eapply yields_bind; [apply yields_scim_group_to_model|intros g Hg].
  eapply yields_bind; [by apply yields_map_err, yields_on_db, yields_store_group|intros _ _]. auto.
Qed.

Definition some_typed {A} (P : A → Prop) (o : option A) : Prop := ∀ a, o = Some a → P a.

Lemma yields_user_by_name name :
  yields backend_typed (lookup_user_by_name self name) (some_typed user_typed).
Proof.
  unfold lookup_user_by_name. case_bool_decide; [by apply yields_ret|].
  eapply yields_try_with; [apply yields_on_net|intros [su|] _|intros e].
  - apply yields_admit_user. intros u Hu. apply yields_ret. by intros ? [= <-].
  - apply yields_map_err, yields_on_db, yields_cached_by_name.
  - apply yields_map_err, yields_on_db, yields_cached_by_name.
Qed.

Lemma yields_group_by_name name :
  yields backend_typed (lookup_group_by_name self name) (some_typed group_typed).
Proof.
  assert (yields backend_typed (map_err (from (B:=ServiceError))
    (on_db (Cache.get_group_by_name (svc_cache self) name))) (some_typed group_typed)) as Hc.
  { apply yields_map_err, yields_on_db.
    apply (yields_cached_group (Cache.get_group_by_name (svc_cache self)) (svc_cache self)
      (λ n r, gr_name r = n)). intros d. apply get_group_by_name_wp. }
  unfold lookup_group_by_name. case_bool_decide; [by apply yields_ret|].
  eapply yields_try_with; [apply yields_on_net|intros [sg|] _|intros e]; [|exact Hc..].
  apply yields_admit_group. intros g Hg. apply yields_ret. by intros ? [= <-].
Qed.

Lemma yields_user_by_uid uid :
  yields backend_typed (lookup_user_by_uid self uid) (some_typed user_typed).
Proof.
  eapply yields_bind; [apply yields_map_err, yields_on_db, yields_cached_by_uid|].
  intros [u|] Hu; by apply yields_ret.
Qed.
Lemma yields_group_by_gid gid :
  yields backend_typed (lookup_group_by_gid self gid) (some_typed group_typed).
Proof.
  eapply yields_bind; [apply yields_map_err, yields_on_db|intros [g|] Hg; apply yields_ret; exact Hg].
  apply (yields_cached_group (get_group_by_gid (svc_cache self)) (svc_cache self)
    (λ g r, gr_gid r = g)). intros d. apply get_group_by_gid_wp.
Qed.

Lemma yields_list_all_users : yields backend_typed (list_all_users self) (Forall user_typed).
Proof.
  eapply yields_bind; [apply yields_map_err, yields_on_net|intros sus _].
  apply yields_collect. intros su. apply yields_admit_user. intros u Hu. by apply yields_ret.
Qed.
Lemma yields_list_all_groups : yields backend_typed (list_all_groups self) (Forall group_typed).
Proof.
  eapply yields_bind; [apply yields_map_err, yields_on_net|intros sgs _].
  apply yields_collect. intros sg. apply yields_admit_group. intros g Hg. by apply yields_ret.
Qed.

Lemma yields_groups_for_user name :
  yields backend_typed (lookup_groups_for_user self name) (Forall is_u32).
Proof.
  unfold lookup_groups_for_user. case_bool_decide; [by apply yields_ret|].
  eapply yields_try_with; [apply yields_on_net|intros [su|] _|intros e].
  - apply yields_admit_user. intros u _. apply yields_collect. intros g.
    apply yields_map_err, yields_on_db, yields_resolve_gid, Hranges.
  - by apply yields_ret.
  - eapply yields_bind; [apply yields_map_err, yields_on_db, yields_groups_for_member|].
    intros gs Hgs. apply yields_ret. by apply Forall_fmap.
Qed.

Lemma yields_check_user_active name :
  yields backend_typed (check_user_active self name) (λ _, True).
Proof.
  unfold check_user_active. case_bool_decide; [by apply yields_ret|].
  eapply yields_try_with; [apply yields_on_net|intros [su|] _|intros e].
  - apply yields_admit_user. intros u _. by apply yields_ret.
  - by apply yields_ret.
  - destruct (offline_auth_policy _); [|by apply yields_ret].
    eapply yields_bind; [apply yields_map_err, yields_on_db, yields_cached_by_name|].
    intros [u|] _; by apply yields_ret.
Qed.

Lemma service_step_typed b b' : service_step self b b' → backend_typed b → backend_typed b'.
Proof.
  intros Hstep Hb. destruct Hstep.
  - apply yields_on_db with (P := λ _, True); [|done]. unfold Service_new.
    apply (yields_bind _ _ _ (λ _, True)); [|intros _ _; by apply yields_ret].
    eapply yields_try_with; [apply yields_purge_expired|intros; by apply yields_ret..].
  - by apply yields_user_by_name.
  - by apply yields_user_by_uid.
  - by apply yields_group_by_name.
  - by apply yields_group_by_gid.
  - by apply yields_list_all_users.
  - by apply yields_list_all_groups.
  - by apply yields_check_user_active.
  - by apply yields_on_net.
  - by apply yields_groups_for_user.
Qed.

(** C22: ids are [u32] everywhere, with usable id ranges: in every state that calls of the service
    reach from an empty cache, every id column holds a [u32], and the users,
    groups and gids that the lookups then answer, from SCIM or from the cache,
    carry [u32] ids only. *)
Theorem ids_are_u32 b name uid gid :
  rtc (service_step self) (mk_backend [] empty_db) b →
  db_typed (bk_db b) ∧
  wp (lookup_user_by_name self name) (λ r _, ∀ u, r = Ok (Some u) → user_typed u) b ∧
  wp (lookup_user_by_uid self uid) (λ r _, ∀ u, r = Ok (Some u) → user_typed u) b ∧
  wp (lookup_group_by_name self name) (λ r _, ∀ g, r = Ok (Some g) → group_typed g) b ∧
  wp (lookup_group_by_gid self gid) (λ r _, ∀ g, r = Ok (Some g) → group_typed g) b ∧
  wp (list_all_users self) (λ r _, ∀ us, r = Ok us → Forall user_typed us) b ∧
  wp (list_all_groups self) (λ r _, ∀ gs, r = Ok gs → Forall group_typed gs) b ∧
  wp (lookup_groups_for_user self name) (λ r _, ∀ gids, r = Ok gids → Forall is_u32 gids) b.
Proof.
  intros Hb. assert (backend_typed b) as Ht.
  { revert b Hb. apply rtc_ind_r; [|intros b b' _ Hs; by apply service_step_typed].
    split; [apply db_wf_empty|]. split; intros r Hr; by apply not_elem_of_nil in Hr. }
  split_and!; [done|..].
  - intros u Hu. by apply (proj2 (yields_user_by_name name b Ht) _ Hu).
  - intros u Hu. by apply (proj2 (yields_user_by_uid uid b Ht) _ Hu).
  - intros g Hg. by apply (proj2 (yields_group_by_name name b Ht) _ Hg).
  - intros g Hg. by apply (proj2 (yields_group_by_gid gid b Ht) _ Hg).
  - exact (proj2 (yields_list_all_users b Ht)).
  - exact (proj2 (yields_list_all_groups b Ht)).
  - exact (proj2 (yields_groups_for_user name b Ht)).
Qed.
End service_types.

(** ** Witness: the state after a lookup of alice *)

#[local] Existing Instance idp_world.
#[local] Existing Instance idp_parser.
#[local] Existing Instance ascii_percent_encoding.
#[local] Instance typed_engine : Sqlite := still_engine true 1000.
#[local] Instance typed_engine_laws : SqliteLaws := still_engine_laws true 1000.
#[local] Existing Instance release_build.
#[local] Existing Instance byte_sum_hash.
#[local] Existing Instance byte_sum_hash_laws.

Lemma ids_are_u32_witness :
  db_typed (bk_db (lookup_user_by_name (sample_service Deny) "alice" fresh_backend).2).
Proof.
  refine (proj1 (ids_are_u32 (sample_service Deny) (sample_usable Deny) _ "alice" 0 0 _)).
  apply rtc_once, step_user_by_name.
Defined.
