(* ===== verification/Interleave.v ===== *)
(** * Interleave: processes that share one cache file

    Every process that loads the NSS or the PAM module opens its own connection
    to the same SQLite file ([state.rs] of both modules). SQLite serialises
    transactions, not calls: a write statement of [src/cache.rs] is committed on
    its own, because the code opens no transaction, and a lookup is one read
    transaction, because the rows of its query are still open while the members
    of a group are read. This file has the operations of [Cache] that take more
    than one transaction as programs over transactions, and runs pools of them. *)

From S2P Require Import Prelude Text Model Mapping Sql Cache Scim Config Service.
From stdpp Require Import prelude strings list relations.

(** A program: finished, or about to run a transaction. *)
Inductive prog (S E A : Type) : Type :=
  | Done (r : outcome E A)
  | Tx {F X : Type} (t : M S F X) (k : outcome F X → prog S E A).
Arguments Done {_ _ _} _.
Arguments Tx {_ _ _ _ _} _ _.

Fixpoint pbind {S E A B} (p : prog S E A) (k : A → prog S E B) : prog S E B :=
  match p with
  | Done (Ok a) => k a
  | Done (Err e) => Done (Err e)
  | Done Panic => Done Panic
  | Tx t c => Tx t (λ r, pbind (c r) k)
  end.

Notation "'let!' x ':=' p 'in' k" := (pbind p (λ x, k))
  (at level 10, x binder, p at level 100, k at level 200,
   format "'[v' 'let!'  x  ':='  p  'in' '/' k ']'") : rust_scope.

Fixpoint pmap_err {S E E' A} (f : E → E') (p : prog S E A) : prog S E' A :=
  match p with
  | Done (Ok a) => Done (Ok a)
  | Done (Err e) => Done (Err (f e))
  | Done Panic => Done Panic
  | Tx t c => Tx t (λ r, pmap_err f (c r))
  end.

(** [q] after [p], unless [p] panics: an error was [p]'s caller's to handle. *)
Fixpoint pthen {S E A B} (p : prog S E A) (q : prog S E B) : prog S E B :=
  match p with
  | Done Panic => Done Panic
  | Done _ => q
  | Tx t c => Tx t (λ r, pthen (c r) q)
  end.

(** [match p { Ok(a) => .., Err(e) => .. }] *)
Fixpoint ptry {S E E' A B} (p : prog S E A) (ok : A → prog S E' B) (err : E → prog S E' B)
    : prog S E' B :=
  match p with
  | Done (Ok a) => ok a
  | Done (Err e) => err e
  | Done Panic => Done Panic
  | Tx t c => Tx t (λ r, ptry (c r) ok err)
  end.

(** A program over a component of the state. *)
Fixpoint pzoom {S T E A} (get : S → T) (set : T → S → S) (p : prog T E A) : prog S E A :=
  match p with
  | Done r => Done r
  | Tx t c => Tx (zoom get set t) (λ r, pzoom get set (c r))
  end.

(** [for x in l { out.push(f(x)?); }] *)
Fixpoint collect_p {S E A B} (l : list A) (f : A → prog S E B) : prog S E (list B) :=
  match l with
  | [] => Done (Ok [])
  | x :: l => pbind (f x) (λ y, pbind (collect_p l f) (λ ys, Done (Ok (y :: ys))))
  end.

(** One transaction, and a computation that touches no shared state. *)
Definition tx {S E A} (t : M S E A) : prog S E A := Tx t Done.
Definition local {S E A} (m : M () E A) : prog S E A := Done (m tt).1.

Fixpoint for_each_p {S E A} (l : list A) (body : A → prog S E ()) : prog S E () :=
  match l with
  | [] => Done (Ok tt)
  | x :: l => let! _ := body x in for_each_p l body
  end.

(** The program on its own, without other processes. *)
Fixpoint run {S E A} (p : prog S E A) : M S E A := λ s,
  match p with
  | Done r => (r, s)
  | Tx t k => run (k (t s).1) (t s).2
  end.

(** ** Pools: any process that is not finished runs its next transaction *)

Definition pool (S E A : Type) : Type := list (prog S E A) * S.

Inductive pool_step {S E A} : pool S E A → pool S E A → Prop :=
  | pool_tx i F X (t : M S F X) k ps s :
      ps !! i = Some (Tx t k) →
      pool_step (ps, s) (<[i := k (t s).1]> ps, (t s).2).

(** A schedule: which process moves next, one that has returned being skipped. *)
Definition step_at {S E A} (w : pool S E A) (i : nat) : pool S E A :=
  match w.1 !! i with
  | Some (Tx t k) => (<[i := k (t w.2).1]> w.1, (t w.2).2)
  | _ => w
  end.
Definition schedule {S E A} (order : list nat) (w : pool S E A) : pool S E A := foldl step_at w order.

Definition finished {S E A} (p : prog S E A) : Prop :=
  match p with Done _ => True | Tx _ _ => False end.

(** A program takes at most [n] transactions, whatever they answer. *)
Fixpoint at_most {S E A} (n : nat) (p : prog S E A) {struct p} : Prop :=
  match p, n with
  | Done _, _ => True
  | Tx _ _, O => False
  | Tx t k, Datatypes.S n => ∀ r, at_most n (k r)
  end.

(** Rely and guarantee: from [s], and whatever steps of [R] the others make
    before each transaction, every transaction of the program is a step of [G],
    and the program ends with [Q], which the others' steps keep. *)
Fixpoint rg {S E A} (R G : S → S → Prop) (Q : outcome E A → S → Prop)
    (p : prog S E A) (s : S) : Prop :=
  match p with
  | Done r => ∀ s', R s s' → Q r s'
  | Tx t k => ∀ s', R s s' → G s' (t s').2 ∧ rg R G Q (k (t s').1) (t s').2
  end.

(** ** The operations of the cache, transaction by transaction *)

Section mapping_programs.
Context `{BuildProfile} `{Murmur3} {S E : Type}.

(** [probe] and [resolve_id] with a lookup that is a transaction each time. *)
Fixpoint probe_p `{From IdRangeExhausted E} (is_taken : Z → M S E (option bool))
    (base range_min range_size : Z) (n : nat) (offset : Z) : prog S E Z :=
  match n with
  | O => Done (Err (from mk_IdRangeExhausted))
  | Datatypes.S n =>
      let! d := local (u32_sub base range_min) in
      let! p := local (u32_add d offset) in
      let! r := local (u32_rem p range_size) in
      let! candidate := local (u32_add range_min r) in
      let! t := tx (is_taken candidate) in
      match t with
      | None => Done (Ok candidate)
      | Some true => Done (Ok candidate)
      | Some false => probe_p is_taken base range_min range_size n (offset + 1)
      end
  end.

Definition resolve_id_p `{From IdRangeExhausted E} (external_id : string)
    (range_min range_size : Z) (is_taken : Z → M S E (option bool)) : prog S E Z :=
  let! base := local (id_to_uid external_id range_min range_size) in
  probe_p is_taken base range_min range_size (Z.to_nat range_size) 0.
End mapping_programs.

Section cache_programs.
Context `{Sqlite} `{BuildProfile} `{Murmur3}.

Definition resolve_uid_p (external_id : string) (range_min range_size : Z)
    : prog db CacheError Z :=
  resolve_id_p external_id range_min range_size (λ candidate, uid_owner candidate external_id).

Definition resolve_gid_p (external_id : string) (range_min range_size : Z)
    : prog db CacheError Z :=
  resolve_id_p external_id range_min range_size (λ candidate, gid_owner candidate external_id).

Definition store_group_p (group : Group) : prog db CacheError () :=
  let! _ := tx (map_err from (execute (λ now, replace_gid_row (group_row group now)))) in
  let! _ := tx (map_err from (execute (λ _ d, set_group_members
    (filter (λ m, mr_group_external_id m ≠ group_external_id group)
      (group_members_table d)) d))) in
  for_each_p (group_members group) (λ member,
    tx (map_err from (insert_member (mk_member_row (group_external_id group) member)))).

Definition purge_expired_p (ttl : Z) : prog db CacheError () :=
  let! ttl1 := local (map_err from (bind_u64 ttl)) in
  let! _ := tx (map_err from (execute (λ now d, set_group_members
    (filter (λ m, mr_group_external_id m ∉
        gr_external_id <$> filter (λ r, ¬ unexpired now ttl1 (gr_cached_at r)) (gid_cache d))
      (group_members_table d)) d))) in
  let! ttl2 := local (map_err from (bind_u64 ttl)) in
  let! _ := tx (map_err from (execute (λ now,
    delete_gid_rows (λ r, ¬ unexpired now ttl2 (gr_cached_at r))))) in
  let! ttl3 := local (map_err from (bind_u64 ttl)) in
  tx (map_err from (execute (λ now d, set_uid_cache
    (filter (λ r, unexpired now ttl3 (ur_cached_at r)) (uid_cache d)) d))).

(** [Service::scim_user_to_model] and the store that follows it in every caller:
    nothing holds the slot between the probe that found it and the store. *)
Variable self : Service.

Definition scim_user_to_model_p (scim_user : ScimUser) : prog db ServiceError User :=
  let mc := cfg_mapping (svc_config self) in
  let! uid := pmap_err from
    (resolve_uid_p (su_id scim_user) (uid_range_min mc) (uid_range_size mc)) in
  let gid_external :=
    match head (su_groups scim_user) with
    | Some first_group => sgr_value first_group
    | None => su_id scim_user
    end in
  let! gid := pmap_err from
    (resolve_gid_p gid_external (gid_range_min mc) (gid_range_size mc)) in
  let home := replace "{user}" (su_user_name scim_user)
    (home_template (cfg_user_defaults (svc_config self))) in
  Done (Ok (mk_user (su_id scim_user) (su_user_name scim_user) uid gid
    (default "" (su_display_name scim_user)) home
    (default_user_shell (cfg_user_defaults (svc_config self)))
    (default true (su_active scim_user)))).

Definition admit_user_p (scim_user : ScimUser) : prog db ServiceError User :=
  let! user := scim_user_to_model_p scim_user in
  let! _ := pmap_err from (tx (store_user user)) in
  Done (Ok user).

Definition scim_group_to_model_p (scim_group : ScimGroup) : prog db ServiceError Group :=
  let mc := cfg_mapping (svc_config self) in
  let! gid := pmap_err from
    (resolve_gid_p (sg_id scim_group) (gid_range_min mc) (gid_range_size mc)) in
  let members := omap smr_display (sg_members scim_group) in
  Done (Ok (mk_group (sg_id scim_group) (sg_display_name scim_group) gid members)).

Definition admit_group_p (scim_group : ScimGroup) : prog db ServiceError Group :=
  let! group := scim_group_to_model_p scim_group in
  let! _ := pmap_err from (store_group_p group) in
  Done (Ok group).

(** A call of the service, after the network has answered it. *)
Inductive call :=
  | AdmitUser (scim_user : ScimUser)
  | AdmitGroup (scim_group : ScimGroup)
  | ResolveGroup (external_id : string)
  | ReadUserByUid (uid : Z)
  | ReadUserByName (name : string)
  | ReadGroupByGid (gid : Z)
  | ReadGroupByName (name : string)
  | ReadGroupsOf (name : string)
  | Purge (ttl : Z).

Definition forget {A} (p : prog db CacheError A) : prog db ServiceError () :=
  pthen (pmap_err from p) (Done (Ok tt)).

Definition call_p (c : call) : prog db ServiceError () :=
  let mc := cfg_mapping (svc_config self) in
  match c with
  | AdmitUser su => pthen (admit_user_p su) (Done (Ok tt))
  | AdmitGroup sg => pthen (admit_group_p sg) (Done (Ok tt))
  | ResolveGroup ext => forget (resolve_gid_p ext (gid_range_min mc) (gid_range_size mc))
  | ReadUserByUid uid => forget (tx (get_user_by_uid (svc_cache self) uid))
  | ReadUserByName name => forget (tx (Cache.get_user_by_name (svc_cache self) name))
  | ReadGroupByGid gid => forget (tx (get_group_by_gid (svc_cache self) gid))
  | ReadGroupByName name => forget (tx (Cache.get_group_by_name (svc_cache self) name))
  | ReadGroupsOf name => forget (tx (get_groups_for_member (svc_cache self) name))
  | Purge ttl => forget (purge_expired_p ttl)
  end.

(** The transactions a call makes at most. *)
Definition call_cost (c : call) : nat :=
  let mc := cfg_mapping (svc_config self) in
  match c with
  | AdmitUser su => Z.to_nat (uid_range_size mc) + (Z.to_nat (gid_range_size mc) + 1)
  | AdmitGroup sg => Z.to_nat (gid_range_size mc) + (2 + length (sg_members sg))
  | ResolveGroup _ => Z.to_nat (gid_range_size mc)
  | Purge _ => 3
  | _ => 1
  end.

(** A process makes one call after another. *)
Definition process_p (calls : list call) : prog db ServiceError () :=
  foldr (λ c p, pthen (call_p c) p) (Done (Ok tt)) calls.

Definition process_cost (calls : list call) : nat := sum_list (call_cost <$> calls).
End cache_programs.
