(* ===== verification/InterleaveFacts.v ===== *)
(** * InterleaveFacts: programs over transactions, and pools of them

    A program alone is the operation it was written from; the number of
    transactions of a program; the rely-guarantee rules, with the rule for
    pools; and how a schedule lets one process run. *)

From S2P Require Import Prelude Text Model Mapping Sql Cache Scim Config Service Interleave.
From stdpp Require Import prelude strings list relations.

(** ** A program alone is the operation *)

Section run_laws.
Context {S E : Type}.

Lemma run_bind {A B} (p : prog S E A) (k : A → prog S E B) :
  run (pbind p k) ≡ bind (run p) (λ a, run (k a)).
Proof.
  induction p as [[a|e|]|F X t c IH]; intros s; [done..|]. simpl. rewrite IH.
  unfold bind. simpl. done.
Qed.

Lemma run_pmap_err {E' A} (f : E → E') (p : prog S E A) :
  run (pmap_err f p) ≡ map_err f (run p).
Proof. induction p as [[a|e|]|F X t c IH]; intros s; [done..|]. simpl. by rewrite IH. Qed.

Lemma run_tx {A} (t : M S E A) : run (tx t) ≡ t.
Proof. intros s. simpl. by destruct (t s). Qed.

Lemma run_for_each {A} (l : list A) (body : A → prog S E ()) :
  run (for_each_p l body) ≡ for_each l (λ x, run (body x)).
Proof.
  induction l as [|x l IH]; [done|]. simpl. rewrite run_bind. apply bind_proper; [done|by intros ?].
Qed.

Lemma run_ptry {E' A B} (p : prog S E A) (ok : A → prog S E' B) (err : E → prog S E' B) :
  run (ptry p ok err) ≡ try_with (run p) (λ a, run (ok a)) (λ e, run (err e)).
Proof.
  induction p as [[a|e|]|F X t c IH]; intros s; [done..|]. simpl. rewrite IH. done.
Qed.

Lemma run_collect {A B} (l : list A) (f : A → prog S E B) :
  run (collect_p l f) ≡ collect l (λ x, run (f x)).
Proof.
  induction l as [|x l IH]; [done|]. simpl. rewrite run_bind.
  apply bind_proper; [done|intros y]. rewrite run_bind. apply bind_proper; [done|by intros ys].
Qed.

(** Computations that neither read nor write the state. *)
Lemma run_local_narrow `{BuildProfile} w z : run (local (narrow (S:=()) w z)) ≡ narrow (S:=S) (E:=E) w z.
Proof. intros s. unfold local, narrow. by repeat (simpl; case_match). Qed.
Lemma run_local_rem a b : run (local (u32_rem (S:=()) a b)) ≡ u32_rem (S:=S) (E:=E) a b.
Proof. intros s. unfold local, u32_rem. by case_match. Qed.
Lemma run_local_id_to_uid `{BuildProfile} `{Murmur3} ext min size :
  run (local (id_to_uid (S:=()) ext min size)) ≡ id_to_uid (S:=S) (E:=E) ext min size.
Proof.
  intros s. unfold local, id_to_uid. destruct (murmur3_32 ext 0) as [h|]; [|done].
  unfold bind, u32_rem, u32_add, narrow. destruct (bool_decide (size = 0%Z)); [done|]. simpl.
  by repeat case_match.
Qed.
End run_laws.

(** A component that can be put back unchanged, and whose last value counts. *)
Class Lens {S T} (get : S → T) (set : T → S → S) : Prop := {
  get_set : ∀ t s, get (set t s) = t;
  set_get : ∀ s, set (get s) s = s;
  set_set : ∀ t t' s, set t (set t' s) = set t s;
}.

Section zoom_laws.
Context {S T E : Type} (get : S → T) (set : T → S → S) `{!Lens get set}.

Lemma zoom_bind {A B} (m : M T E A) (k : A → M T E B) :
  zoom get set (bind m k) ≡ bind (zoom get set m) (λ a, zoom get set (k a)).
Proof.
  intros s. unfold zoom, bind. destruct (m (get s)) as [[a|e|] t]; simpl; [|done..].
  rewrite get_set. destruct (k a t) as [r t']. by rewrite set_set.
Qed.
Lemma zoom_try_with {E' A B} (m : M T E A) (ok : A → M T E' B) (err : E → M T E' B) :
  zoom get set (try_with m ok err) ≡
    try_with (zoom get set m) (λ a, zoom get set (ok a)) (λ e, zoom get set (err e)).
Proof.
  intros s. unfold zoom, try_with. destruct (m (get s)) as [[a|e|] t]; simpl; [| |done].
  - rewrite get_set. destruct (ok a t) as [r t']. by rewrite set_set.
  - rewrite get_set. destruct (err e t) as [r t']. by rewrite set_set.
Qed.
Lemma zoom_map_err {E' A} (f : E' → E) (m : M T E' A) :
  zoom get set (map_err f m) ≡ map_err f (zoom get set m).
Proof. intros s. unfold zoom, map_err. by destruct (m (get s)) as [[a|e|] t]. Qed.
Lemma zoom_ret {A} (a : A) : zoom get set (ret a) ≡@{M S E A} ret a.
Proof. intros s. unfold zoom, ret. by rewrite set_get. Qed.
Lemma zoom_proper {A} (m1 m2 : M T E A) : m1 ≡ m2 → zoom get set m1 ≡ zoom get set m2.
Proof. intros Hm s. unfold zoom. by rewrite (Hm (get s)). Qed.

Lemma run_pzoom {A} (p : prog T E A) : run (pzoom get set p) ≡ zoom get set (run p).
Proof.
  induction p as [r|F X t c IH]; intros s; simpl.
  - unfold zoom. by rewrite set_get.
  - rewrite IH. unfold zoom. destruct (t (get s)) as [r s']. simpl. rewrite get_set.
    destruct (run (c r) s') as [r' s'']. by rewrite set_set.
Qed.
End zoom_laws.

#[export] Instance zoom_proper' {S T E A} (get : S → T) (set : T → S → S) :
  Proper ((≡@{M T E A}) ==> (≡@{M S E A})) (zoom get set).
Proof. intros m1 m2. apply zoom_proper. Qed.

#[export] Instance map_err_proper {S E E' A} (f : E → E') :
  Proper ((≡@{M S E A}) ==> (≡@{M S E' A})) (map_err f).
Proof. intros m1 m2 Hm s. unfold map_err. by rewrite (Hm s). Qed.

Section run_programs.
Context `{Sqlite} `{BuildProfile} `{Murmur3}.

Lemma run_probe {S E} `{From IdRangeExhausted E} (is_taken : Z → M S E (option bool))
    base min size n o :
  run (probe_p is_taken base min size n o) ≡ probe is_taken base min size n o.
Proof.
  revert o. induction n as [|n IH]; intros o; [done|].
  unfold probe_p; fold (@probe_p _ S E _). unfold probe; fold (@probe _ S E _).
  rewrite run_bind. apply bind_proper; [apply run_local_narrow|intros d].
  rewrite run_bind. apply bind_proper; [apply run_local_narrow|intros p].
  rewrite run_bind. apply bind_proper; [apply run_local_rem|intros r].
  rewrite run_bind. apply bind_proper; [apply run_local_narrow|intros c].
  rewrite run_bind. apply bind_proper; [apply run_tx|intros [[]|]]; [done|apply IH|done].
Qed.

Lemma run_resolve_id {S E} `{From IdRangeExhausted E} (is_taken : Z → M S E (option bool))
    ext min size :
  run (resolve_id_p ext min size is_taken) ≡ resolve_id ext min size is_taken.
Proof.
  unfold resolve_id_p, resolve_id. rewrite run_bind.
  apply bind_proper; [apply run_local_id_to_uid|intros base]. apply run_probe.
Qed.

Lemma run_store_group group : run (store_group_p group) ≡ store_group group.
Proof.
  unfold store_group_p, store_group. rewrite run_bind. apply bind_proper; [apply run_tx|intros _].
  rewrite run_bind. apply bind_proper; [apply run_tx|intros _].
  rewrite run_for_each. induction (group_members group) as [|m ms IH]; [done|].
  simpl. apply bind_proper; [apply run_tx|by intros _].
Qed.

Lemma run_purge_expired ttl : run (purge_expired_p ttl) ≡ purge_expired ttl.
Proof.
  unfold purge_expired_p, purge_expired.
  assert (Hb : run (local (map_err from (bind_u64 (S:=()) ttl)))
      ≡@{M db CacheError Z} map_err from (bind_u64 ttl)).
  { intros s. unfold bind_u64. by case_match. }
  rewrite run_bind. apply bind_proper; [apply Hb|intros t1].
  rewrite run_bind. apply bind_proper; [apply run_tx|intros _].
  rewrite run_bind. apply bind_proper; [apply Hb|intros t2].
  rewrite run_bind. apply bind_proper; [apply run_tx|intros _].
  rewrite run_bind. apply bind_proper; [apply Hb|intros t3]. apply run_tx.
Qed.
End run_programs.

(** ** Bounded programs, and pools of them *)

Section bounds.
Context {S E : Type}.

Lemma at_most_mono {A} n m (p : prog S E A) : at_most n p → n ≤ m → at_most m p.
Proof.
  revert n m. induction p as [r|F X t k IH]; intros [|n] [|m] Hp Hm; simpl in *; try done; [lia|].
  intros r. eapply IH; [apply Hp|lia].
Qed.

Lemma at_most_pbind {A B} n m (p : prog S E A) (k : A → prog S E B) :
  at_most n p → (∀ a, at_most m (k a)) → at_most (n + m) (pbind p k).
Proof.
  revert n. induction p as [[a|e|]|F X t c IH]; intros n Hp Hk; simpl; try done.
  - eapply at_most_mono; [apply Hk|lia].
  - destruct n as [|n]; [done|]. simpl. intros r. by apply IH; [apply Hp|].
Qed.

Lemma at_most_pthen {A B} n m (p : prog S E A) (q : prog S E B) :
  at_most n p → at_most m q → at_most (n + m) (pthen p q).
Proof.
  revert n. induction p as [[a|e|]|F X t c IH]; intros n Hp Hq; simpl; try done.
  1,2: eapply at_most_mono; [exact Hq|lia].
  destruct n as [|n]; [done|]. simpl. intros r. by apply IH; [apply Hp|].
Qed.

Lemma at_most_pmap_err {E' A} n (f : E' → E) (p : prog S E' A) :
  at_most n p → at_most n (pmap_err f p).
Proof.
  revert n. induction p as [[a|e|]|F X t c IH]; intros [|n] Hp; simpl in *; try done.
  intros r. apply IH, Hp.
Qed.

Lemma at_most_tx {A} n (t : M S E A) : at_most (Datatypes.S n) (tx t).
Proof. done. Qed.

Lemma at_most_for_each {A} (l : list A) (body : A → prog S E ()) :
  (∀ a, at_most 1 (body a)) → at_most (length l) (for_each_p l body).
Proof.
  intros Hb. induction l as [|x l IH]; [done|].
  apply (at_most_pbind 1 (length l)); [done|by intros _].
Qed.

(** Each step of a pool uses up one of the transactions left. *)
Lemma pool_step_cost {A} ns (w w' : pool S E A) :
  Forall2 at_most ns w.1 → pool_step w w' →
  ∃ ns', Forall2 at_most ns' w'.1 ∧ Datatypes.S (sum_list ns') = sum_list ns.
Proof.
  intros Hns Hstep. revert Hns. destruct Hstep as [i F X t k ps s Hi]. simpl. intros Hns.
  rewrite <-(take_drop_middle ps i _ Hi) in Hns |- *.
  apply lookup_lt_Some in Hi as Hlt.
  rewrite insert_app_r_alt by (rewrite length_take; lia).
  rewrite length_take, Nat.min_l, Nat.sub_diag by lia. simpl.
  apply Forall2_app_inv_r in Hns as (n1 & n2 & H1 & H2 & ->).
  apply Forall2_cons_inv_r in H2 as (n & n2' & Hn & H2 & ->).
  destruct n as [|n]; [done|]. exists (n1 ++ n :: n2'). split.
  - apply Forall2_app; [done|]. constructor; [apply Hn|done].
  - rewrite !sum_list_with_app. simpl. lia.
Qed.

(** A pool with no step left is finished. *)
Lemma pool_progress {A} (ps : list (prog S E A)) s :
  Forall finished ps ∨ ∃ w, pool_step (ps, s) w.
Proof.
  induction ps as [|[r|F X t k] ps [IH|[w IH]]]; [by left|left; by constructor| | |].
  - right. inversion IH as [i F X t k ps' s' Hi]; subst. eexists. by apply (pool_tx (Datatypes.S i)).
  - right. eexists. by apply (pool_tx 0).
  - right. eexists. by apply (pool_tx 0).
Qed.

Lemma pool_steps_cost {A} ns (w w' : pool S E A) n :
  Forall2 at_most ns w.1 → nsteps pool_step n w w' →
  ∃ ns', Forall2 at_most ns' w'.1 ∧ n + sum_list ns' = sum_list ns.
Proof.
  intros Hns Hn. revert ns Hns. induction Hn as [w|n w1 w2 w3 Hs _ IH]; intros ns Hns; [by exists ns|].
  destruct (pool_step_cost ns w1 w2 Hns Hs) as (ns2 & Hns2 & <-).
  destruct (IH ns2 Hns2) as (ns3 & Hns3 & <-). by exists ns3.
Qed.

Lemma pool_completes {A} ns (w : pool S E A) :
  Forall2 at_most ns w.1 → ∃ n w', nsteps pool_step n w w' ∧ Forall finished w'.1.
Proof.
  remember (sum_list ns) as c eqn:Hc. revert w ns Hc.
  induction c as [c IH] using lt_wf_ind; intros [ps s] ns -> Hns.
  destruct (pool_progress ps s) as [Hf|[w Hw]].
  - exists 0, (ps, s). split; [constructor|done].
  - destruct (pool_step_cost ns _ _ Hns Hw) as (ns' & Hns' & Hsum).
    destruct (IH (sum_list ns') ltac:(lia) w ns' eq_refl Hns') as (n & w' & Hn & Hf).
    exists (Datatypes.S n), w'. split; [by econstructor|done].
Qed.
End bounds.

(** ** Rely and guarantee *)

Section rely_guarantee.
Context {S E : Type} (R G : S → S → Prop) `{!Reflexive R} `{!Transitive R}.

Lemma rg_stable {A} (Q : outcome E A → S → Prop) p s s' :
  rg R G Q p s → R s s' → rg R G Q p s'.
Proof.
  destruct p as [r|F X t k]; simpl; intros Hp Hs s'' Hs''; apply Hp; by etrans.
Qed.

Lemma rg_done {A} (Q : outcome E A → S → Prop) r s :
  (∀ s', R s s' → Q r s') → rg R G Q (Done r) s.
Proof. done. Qed.

Lemma rg_mono {A} (Q Q' : outcome E A → S → Prop) p s :
  rg R G Q p s → (∀ r s', Q r s' → Q' r s') → rg R G Q' p s.
Proof.
  intros Hp HQ. revert s Hp. induction p as [r|F X t k IH]; simpl; intros s Hp s' Hs.
  - apply HQ, Hp, Hs.
  - destruct (Hp s' Hs) as [Hg Hk]. auto.
Qed.

Lemma rg_pbind {A B} (Q1 : outcome E A → S → Prop) (Q : outcome E B → S → Prop) p k s :
  rg R G Q1 p s →
  (∀ a s', Q1 (Ok a) s' → rg R G Q (k a) s') →
  (∀ e s', Q1 (Err e) s' → Q (Err e) s') →
  (∀ s', Q1 Panic s' → Q Panic s') →
  rg R G Q (pbind p k) s.
Proof.
  intros Hp Hok Herr Hpan. revert s Hp. induction p as [[a|e|]|F X t c IH]; simpl; intros s Hp; auto.
  intros s' Hs. destruct (Hp s' Hs) as [Hg Hk]. auto.
Qed.

Lemma rg_ptry {E' A B} (Q1 : outcome E' A → S → Prop) (Q : outcome E B → S → Prop) (p : prog S E' A)
    ok err s :
  rg R G Q1 p s →
  (∀ a s', Q1 (Ok a) s' → rg R G Q (ok a) s') →
  (∀ e s', Q1 (Err e) s' → rg R G Q (err e) s') →
  (∀ s', Q1 Panic s' → Q Panic s') →
  rg R G Q (ptry p ok err) s.
Proof.
  intros Hp Hok Herr Hpan. revert s Hp. induction p as [[a|e|]|F X t c IH]; simpl; intros s Hp; auto.
  intros s' Hs. destruct (Hp s' Hs) as [Hg Hk]. auto.
Qed.

Lemma rg_pthen {A B} (Q1 : outcome E A → S → Prop) (Q : outcome E B → S → Prop) p q s :
  rg R G Q1 p s →
  (∀ r s', Q1 r s' → r ≠ Panic → rg R G Q q s') →
  (∀ s', Q1 Panic s' → Q Panic s') →
  rg R G Q (pthen p q) s.
Proof.
  intros Hp Hok Hpan. revert s Hp. induction p as [[a|e|]|F X t c IH]; simpl; intros s Hp.
  - by apply (Hok (Ok a)); [apply Hp|].
  - by apply (Hok (Err e)); [apply Hp|].
  - auto.
  - intros s' Hs. destruct (Hp s' Hs) as [Hg Hk]. auto.
Qed.

Lemma rg_pmap_err {E' A} (f : E' → E) (Q : outcome E A → S → Prop) (p : prog S E' A) s :
  rg R G (λ r s', match r with
                  | Ok a => Q (Ok a) s' | Err e => Q (Err (f e)) s' | Panic => Q Panic s'
                  end) p s →
  rg R G Q (pmap_err f p) s.
Proof.
  revert s. induction p as [[a|e|]|F X t c IH]; simpl; intros s Hp; [done..|].
  intros s' Hs. destruct (Hp s' Hs) as [Hg Hk]. auto.
Qed.

Lemma rg_tx {A} (t : M S E A) (Q : outcome E A → S → Prop) s :
  (∀ s', R s s' → wp t (λ r s'', G s' s'' ∧ ∀ s3, R s'' s3 → Q r s3) s') →
  rg R G Q (tx t) s.
Proof. simpl. intros Ht s' Hs. apply (Ht s' Hs). Qed.
End rely_guarantee.

Lemma rg_weaken {S E A} (R R' G G' : S → S → Prop) (Q Q' : outcome E A → S → Prop) p s :
  rg R G Q p s →
  (∀ s s', R' s s' → R s s') → (∀ s s', G s s' → G' s s') → (∀ r s, Q r s → Q' r s) →
  rg R' G' Q' p s.
Proof.
  intros Hp HR HG HQ. revert s Hp. induction p as [r|F X t k IH]; simpl; intros s Hp s' Hs; [auto|].
  destruct (Hp s') as [Hg Hk]; auto.
Qed.

(** ** Programs among others that keep an invariant *)

(** Steps that keep [I], whoever makes them. *)
Class Rely {S} (T : S → S → Prop) (I : S → Prop) : Prop := {
  rely_refl :: Reflexive T;
  rely_trans :: Transitive T;
  rely_keeps s s' : T s s' → I s → I s';
}.

(** No panic, and a value in [V] if there is one. *)
Definition fine {E A} (V : A → Prop) (r : outcome E A) : Prop :=
  match r with Ok a => V a | Err _ => True | Panic => False end.

(** Among others that make steps of [T], the program makes only such steps and
    ends well. *)
Definition returns {S E A} (T : S → S → Prop) (I : S → Prop) (V : A → Prop) (p : prog S E A) : Prop :=
  ∀ s, I s → rg T T (λ r s', I s' ∧ fine V r) p s.
Abbreviation keeps T I := (returns T I (λ _, True)).

Section returns.
Context {S : Type} {T : S → S → Prop} {I : S → Prop} `{!Rely T I}.

Lemma returns_done {E A} (V : A → Prop) (r : outcome E A) : fine V r → returns T I V (Done r).
Proof. intros Hr s Hs s' Hs'. split; [by eapply rely_keeps|done]. Qed.

Lemma returns_tx {E A} (V : A → Prop) (t : M S E A) :
  (∀ s, I s → wp t (λ r s', T s s' ∧ fine V r) s) → returns T I V (tx t).
Proof.
  intros Ht s Hs. apply rg_tx. intros s' Hs'. assert (I s') as Hi by by eapply rely_keeps.
  destruct (Ht s' Hi) as [Hg Hf]. split; [done|]. intros s'' Hs''. split; [|done].
  eapply rely_keeps; [|exact Hi]. by etrans.
Qed.

Lemma returns_mono {E A} (V V' : A → Prop) (p : prog S E A) :
  returns T I V p → (∀ a, V a → V' a) → returns T I V' p.
Proof.
  intros Hp HV s Hs. eapply rg_mono; [by apply Hp|]. intros [a|e|] s' [? Hf]; split; simpl in *; auto.
Qed.

Lemma returns_pbind {E A B} (V : A → Prop) (V' : B → Prop) (p : prog S E A) (k : A → prog S E B) :
  returns T I V p → (∀ a, V a → returns T I V' (k a)) → returns T I V' (pbind p k).
Proof.
  intros Hp Hk s Hs. eapply rg_pbind; [apply _|by apply Hp|..]; simpl.
  - intros a s' [Hs' Ha]. by apply Hk.
  - by intros e s' [Hs' _].
  - by intros s' [_ ?].
Qed.

Lemma returns_ptry {E E' A B} (V : A → Prop) (V' : B → Prop) (p : prog S E A)
    (ok : A → prog S E' B) (err : E → prog S E' B) :
  returns T I V p → (∀ a, V a → returns T I V' (ok a)) → (∀ e, returns T I V' (err e)) →
  returns T I V' (ptry p ok err).
Proof.
  intros Hp Hok Herr s Hs. eapply rg_ptry; [apply _|by apply Hp|..]; simpl.
  - intros a s' [Hs' Ha]. by apply Hok.
  - intros e s' [Hs' _]. by apply Herr.
  - by intros s' [_ ?].
Qed.

Lemma keeps_tx {E A} (t : M S E A) :
  (∀ s, I s → T s (t s).2) → (∀ s, I s → (t s).1 ≠ Panic) → keeps T I (tx t).
Proof.
  intros Ht Hp. apply returns_tx. intros s Hs. split; [by apply Ht|].
  specialize (Hp s Hs). by destruct (t s).1.
Qed.
Lemma keeps_pbind {E A B} (p : prog S E A) (k : A → prog S E B) :
  keeps T I p → (∀ a, keeps T I (k a)) → keeps T I (pbind p k).
Proof. intros Hp Hk. by eapply returns_pbind. Qed.

Lemma keeps_ptry {E E' A B} (p : prog S E A) (ok : A → prog S E' B) (err : E → prog S E' B) :
  keeps T I p → (∀ a, keeps T I (ok a)) → (∀ e, keeps T I (err e)) → keeps T I (ptry p ok err).
Proof. intros Hp Hok Herr. by eapply returns_ptry. Qed.

Lemma keeps_pthen {E A B} (p : prog S E A) (q : prog S E B) :
  keeps T I p → keeps T I q → keeps T I (pthen p q).
Proof.
  intros Hp Hq s Hs. eapply rg_pthen; [apply _|by apply Hp|..]; simpl.
  - intros r s' [Hs' _] _. by apply Hq.
  - by intros s' [_ ?].
Qed.

Lemma keeps_pmap_err {E E' A} (f : E → E') (p : prog S E A) : keeps T I p → keeps T I (pmap_err f p).
Proof.
  intros Hp s Hs. apply rg_pmap_err. eapply rg_mono; [by apply Hp|].
  intros [a|e|] s' [? ?]; by split.
Qed.

Lemma keeps_for_each {E A} (l : list A) (body : A → prog S E ()) :
  (∀ a, keeps T I (body a)) → keeps T I (for_each_p l body).
Proof.
  intros Hb. induction l as [|x l IH]; [by apply returns_done|].
  apply keeps_pbind; [done|by intros _].
Qed.

Lemma keeps_collect {E A B} (l : list A) (f : A → prog S E B) :
  (∀ a, keeps T I (f a)) → keeps T I (collect_p l f).
Proof.
  intros Hf. induction l as [|x l IH]; [by apply returns_done|].
  apply keeps_pbind; [done|intros y]. apply keeps_pbind; [done|intros ys]. by apply returns_done.
Qed.
End returns.

(** A program over a component, among others whose steps are [R]. *)
Lemma rg_pzoom_returns {S T E A} (get : S → T) (set : T → S → S) (R G : S → S → Prop)
    (I : S → Prop) (RT : T → T → Prop) (IT : T → Prop) (V : A → Prop) (p : prog T E A) s :
  (∀ t s, get (set t s) = t) → (∀ s s', R s s' → RT (get s) (get s')) →
  (∀ s t, RT (get s) t → G s (set t s)) → (∀ s, I s → IT (get s)) →
  (∀ s s', R s s' → I s → I s') → (∀ s s', G s s' → I s → I s') →
  returns RT IT V p → I s → rg R G (λ r s', I s' ∧ fine V r) (pzoom get set p) s.
Proof.
  intros Hgs HR HG HI HRI HGI Hp Hs. specialize (Hp (get s) (HI s Hs)). revert s Hs Hp.
  induction p as [r|F X t c IH]; simpl; intros s Hs Hp.
  - intros s' Hs'. split; [by eapply HRI|]. by apply (Hp (get s')), HR.
  - intros s' Hs'. unfold zoom. destruct (Hp (get s') (HR _ _ Hs')) as [Hg Hc].
    destruct (t (get s')) as [r t'] eqn:Ht. cbn [fst snd] in *. split; [by apply HG|].
    apply IH; [eapply HGI; [by apply HG|by eapply HRI]|]. by rewrite Hgs.
Qed.

Lemma returns_pzoom {S T E A} (get : S → T) (set : T → S → S) (RS : S → S → Prop)
    (IS : S → Prop) `{!Rely RS IS} (RT : T → T → Prop) (IT : T → Prop) (V : A → Prop) (p : prog T E A) :
  (∀ t s, get (set t s) = t) → (∀ s s', RS s s' → RT (get s) (get s')) →
  (∀ s t, RT (get s) t → RS s (set t s)) → (∀ s, IS s → IT (get s)) →
  returns RT IT V p → returns RS IS V (pzoom get set p).
Proof.
  intros Hgs HR HG HI Hp s Hs. eapply rg_pzoom_returns; eauto; by apply rely_keeps.
Qed.

Create HintDb rust_keeps discriminated.
#[export] Hint Resolve keeps_pbind keeps_ptry keeps_pthen keeps_pmap_err keeps_for_each
  keeps_collect : rust_keeps.
#[export] Hint Constants Opaque : rust_keeps.
#[export] Hint Extern 0 (Rely _ _) => apply _ : rust_keeps.
#[export] Hint Extern 1 (returns _ _ _ (Done _)) => apply returns_done; exact I : rust_keeps.
#[export] Hint Extern 3 (returns _ _ _ (match ?x with _ => _ end)) => destruct x : rust_keeps.
#[export] Hint Extern 2 (∀ _, returns _ _ _ _) => intros ? : rust_keeps.

(** *** Programs that handle every error *)

Fixpoint infallible {S E A} (p : prog S E A) : Prop :=
  match p with
  | Done (Err _) => False
  | Done _ => True
  | Tx t k => ∀ r, infallible (k r)
  end.

Section infallible.
Context {S E : Type}.

Lemma infallible_ptry {E' A B} (p : prog S E' A) (ok : A → prog S E B) (err : E' → prog S E B) :
  (∀ a, infallible (ok a)) → (∀ e, infallible (err e)) → infallible (ptry p ok err).
Proof.
  intros Hok Herr. induction p as [[a|e|]|F X t c IH]; [apply Hok|apply Herr|done|]. intros r. apply IH.
Qed.

Lemma infallible_pbind {A B} (p : prog S E A) (k : A → prog S E B) :
  infallible p → (∀ a, infallible (k a)) → infallible (pbind p k).
Proof.
  intros Hp Hk. induction p as [[a|e|]|F X t c IH]; [apply Hk|done|done|]. intros r. apply IH, Hp.
Qed.

Lemma infallible_pzoom {T A} (get : S → T) (set : T → S → S) (p : prog T E A) :
  infallible p → infallible (pzoom get set p).
Proof. intros Hp. induction p as [r|F X t c IH]; [done|]. intros r. apply IH, Hp. Qed.

Lemma rg_infallible {A} (R G : S → S → Prop) (Q : outcome E A → S → Prop) p s :
  infallible p → rg R G Q p s → rg R G (λ r s', Q r s' ∧ ∀ e, r ≠ Err e) p s.
Proof.
  intros Hi Hp. revert s Hp. induction p as [r|F X t k IH]; simpl; intros s Hp s' Hs.
  - split; [auto|]. by intros e ->.
  - destruct (Hp s' Hs) as [Hg Hk]. auto.
Qed.
End infallible.

(** Programs whose guarantees are within the others' relies run together as
    each of them runs alone. *)
Section parallel.
Context {S E A : Type} (R G : nat → S → S → Prop) (Q : nat → outcome E A → S → Prop).
Context `{∀ i, Reflexive (R i)} `{∀ i, Transitive (R i)}.
Context (compatible : ∀ i j s s', i ≠ j → G i s s' → R j s s').

Definition pool_rg (w : pool S E A) : Prop :=
  ∀ i p, w.1 !! i = Some p → rg (R i) (G i) (Q i) p w.2.

Lemma pool_rg_step w w' :
  pool_rg w → pool_step w w' →
  pool_rg w' ∧ length w'.1 = length w.1 ∧ ∃ i, i < length w.1 ∧ G i w.2 w'.2.
Proof.
  intros Hw Hstep. revert Hw. destruct Hstep as [i F X t k ps s Hi]. intros Hw.
  destruct (Hw i _ Hi s) as [Hg Hk]; [done|]. simpl in *.
  split_and!; [|by rewrite length_insert|].
  - intros j p Hj. simpl in *. apply list_lookup_insert_Some in Hj as [(<- & <- & _)|[Hne Hj]]; [done|].
    eapply rg_stable; [done|by apply (Hw j)|]. by apply (compatible i j).
  - exists i. split; [|done]. by apply lookup_lt_Some in Hi.
Qed.

Lemma pool_rg_reachable w w' :
  pool_rg w → rtc pool_step w w' →
  pool_rg w' ∧ length w'.1 = length w.1 ∧
  rtc (λ s s', ∃ i, i < length w.1 ∧ G i s s') w.2 w'.2.
Proof.
  intros Hw Hr. induction Hr as [w|w1 w2 w3 Hs _ IH]; [done|].
  destruct (pool_rg_step _ _ Hw Hs) as (Hw2 & Hl & Hg). destruct (IH Hw2) as (Hw3 & Hl3 & Hrtc).
  split_and!; [done|congruence|]. rewrite Hl in Hrtc. by eapply rtc_l.
Qed.
End parallel.

(** ** Schedules: one process of the pool runs for a while *)

Section schedules.
Context {S E A : Type}.

Lemma pool_runs {B} i (p : prog S E B) (k : B → prog S E A) ps s b s' :
  ps !! i = Some (pbind p k) → run p s = (Ok b, s') →
  rtc pool_step (ps, s) (<[i := k b]> ps, s').
Proof.
  revert ps s. induction p as [[a|e|]|F X t c IH]; simpl; intros ps s Hi Hrun; simplify_eq.
  - by rewrite list_insert_id.
  - eapply rtc_l; [by eapply pool_tx|]. eapply lookup_lt_Some in Hi as Hlt.
    specialize (IH (t s).1 (<[i:=pbind (c (t s).1) k]> ps) (t s).2).
    rewrite list_insert_insert_eq in IH. apply IH; [|done].
    by apply list_lookup_insert_eq.
Qed.

Lemma pool_runs_tx {F X} i (t : M S F X) (k : outcome F X → prog S E A) ps s r s' :
  ps !! i = Some (Tx t k) → t s = (r, s') →
  rtc pool_step (ps, s) (<[i := k r]> ps, s').
Proof. intros Hi Ht. apply rtc_once. pose proof (pool_tx i F X t k ps s Hi). by rewrite Ht in *. Qed.

Lemma schedule_nsteps (order : list nat) (w : pool S E A) :
  ∃ n, n ≤ length order ∧ nsteps pool_step n w (schedule order w).
Proof.
  revert w. induction order as [|i order IH]; intros w; [exists 0; split; [done|constructor]|].
  assert (step_at w i = w ∨ pool_step w (step_at w i)) as Hi.
  { unfold step_at. destruct w as [ps s]. simpl. destruct (ps !! i) as [[r|F X t k]|] eqn:Hi; [by left| |by left].
    right. by apply pool_tx. }
  change (schedule (i :: order) w) with (schedule order (step_at w i)).
  destruct (IH (step_at w i)) as (n & Hn & Hsteps). destruct Hi as [Heq|Hi].
  - exists n. rewrite Heq in *. simpl. split; [lia|done].
  - exists (Datatypes.S n). simpl. split; [lia|by econstructor].
Qed.

Lemma schedule_rtc (order : list nat) (w : pool S E A) : rtc pool_step w (schedule order w).
Proof. destruct (schedule_nsteps order w) as (n & _ & Hn). by eapply rtc_nsteps_2. Qed.
End schedules.

(** ** How many transactions the operations take *)

Section costs.
Context `{Sqlite} `{BuildProfile} `{Murmur3}.
Variable self : Service.

Lemma at_most_local {S E A B} n (m : M () E A) (k : A → prog S E B) :
  (∀ a, at_most n (k a)) → at_most n (pbind (local m) k).
Proof. intros Hk. unfold local. destruct (m tt).1; simpl; [apply Hk|done..]. Qed.

Lemma at_most_probe {S E} `{From IdRangeExhausted E} (is_taken : Z → M S E (option bool))
    base min size n o :
  at_most n (probe_p is_taken base min size n o).
Proof.
  revert o. induction n as [|n IH]; intros o; [done|].
  unfold probe_p; fold (@probe_p _ S E _). do 4 (apply at_most_local; intros ?).
  apply (at_most_pbind 1 n); [apply at_most_tx|]. intros [[]|]; [done|apply IH|done].
Qed.

Lemma at_most_resolve_id {S E} `{From IdRangeExhausted E} (is_taken : Z → M S E (option bool))
    ext min size :
  at_most (Z.to_nat size) (resolve_id_p ext min size is_taken).
Proof. apply at_most_local. intros base. apply at_most_probe. Qed.

Lemma at_most_store_group group :
  at_most (2 + length (group_members group)) (store_group_p group).
Proof.
  apply (at_most_pbind 1); [apply at_most_tx|intros _].
  apply (at_most_pbind 1); [apply at_most_tx|intros _].
  apply at_most_for_each. intros a. apply at_most_tx.
Qed.

Lemma at_most_purge ttl : at_most 3 (purge_expired_p ttl).
Proof.
  apply at_most_local; intros ?. apply (at_most_pbind 1); [apply at_most_tx|intros _].
  apply at_most_local; intros ?. apply (at_most_pbind 1); [apply at_most_tx|intros _].
  apply at_most_local; intros ?. apply at_most_tx.
Qed.

Lemma at_most_admit_user su : at_most (call_cost self (AdmitUser su)) (admit_user_p self su).
Proof.
  unfold call_cost, admit_user_p, scim_user_to_model_p. rewrite Nat.add_assoc.
  apply at_most_pbind; [|intros u; apply (at_most_pbind 1 0); [apply at_most_pmap_err, at_most_tx|done]].
  apply at_most_pbind; [apply at_most_pmap_err, at_most_resolve_id|intros uid].
  rewrite <-(Nat.add_0_r (Z.to_nat _)).
  apply at_most_pbind; [apply at_most_pmap_err, at_most_resolve_id|done].
Qed.

Lemma at_most_pbind_assoc {S E A B C} n (p : prog S E A) (k : A → prog S E B)
    (k' : B → prog S E C) :
  at_most n (pbind p (λ a, pbind (k a) k')) → at_most n (pbind (pbind p k) k').
Proof.
  revert n. induction p as [[a|e|]|F X t c IH]; intros n; [done..|].
  simpl. destruct n as [|n]; [done|]. intros Hp r. apply IH, Hp.
Qed.

Lemma omap_length_le {A B} (f : A → option B) (l : list A) : length (omap f l) ≤ length l.
Proof. induction l as [|x l IH]; csimpl; [done|]. destruct (f x); simpl; lia. Qed.

Lemma at_most_admit_group sg : at_most (call_cost self (AdmitGroup sg)) (admit_group_p self sg).
Proof.
  apply at_most_pbind_assoc. apply at_most_pbind; [apply at_most_pmap_err, at_most_resolve_id|].
  intros gid. cbn [pbind]. apply (at_most_mono (2 + length (omap smr_display (sg_members sg)) + 0)).
  - apply at_most_pbind; [|done].
    apply at_most_pmap_err, (at_most_store_group (mk_group _ _ gid _)).
  - pose proof (omap_length_le smr_display (sg_members sg)). lia.
Qed.

Lemma at_most_call c : at_most (call_cost self c) (call_p self c).
Proof.
  rewrite <-(Nat.add_0_r (call_cost self c)).
  destruct c; simpl call_p; unfold forget; apply at_most_pthen; try done;
    try apply at_most_pmap_err, at_most_tx.
  - apply at_most_admit_user.
  - apply at_most_admit_group.
  - apply at_most_pmap_err, at_most_resolve_id.
  - apply at_most_pmap_err, at_most_purge.
Qed.

Lemma at_most_process calls : at_most (process_cost self calls) (process_p self calls).
Proof.
  induction calls as [|c calls IH]; [done|].
  apply at_most_pthen; [apply at_most_call|done].
Qed.
End costs.
