(* ===== verification/InterleaveProps.v ===== *)
(** * InterleaveProps: processes that share one cache

    What holds whatever the schedule (the schema, no panic, an end), when the
    processes do not disturb each other, and what the missing transactions
    around several statements let a schedule do. *)

From S2P Require Import Prelude Text Model Value Mapping Http Sql Cache CacheFacts Scim.
From S2P Require Import Config Service ServiceFacts Interleave InterleaveFacts.
From stdpp Require Import prelude strings list relations.

(** ** A probe with its arithmetic done *)

Section probing.
Context `{BuildProfile} `{Murmur3Laws} {S E : Type} `{From IdRangeExhausted E}.

Lemma local_ok {A B} (m : M () E A) (a : A) (k : A → prog S E B) :
  m = ret a → pbind (local m) k = k a.
Proof. by intros ->. Qed.

Lemma probe_p_step (is_taken : Z → M S E (option bool)) h min size n o :
  probe_range min size → (0 ≤ o < size)%Z →
  probe_p is_taken (min + h `mod` size)%Z min size (Datatypes.S n) o =
    (let! t := tx (is_taken (min + (h + o) `mod` size)%Z) in
     match t with
     | None => Done (Ok (min + (h + o) `mod` size)%Z)
     | Some true => Done (Ok (min + (h + o) `mod` size)%Z)
     | Some false => probe_p is_taken (min + h `mod` size)%Z min size n (o + 1)
     end).
Proof.
  intros [Hv Hw] Ho. pose proof Hv as (?&?&?).
  pose proof (Z.mod_pos_bound h size ltac:(lia)). unfold u32_modulus in *.
  unfold probe_p; fold (@probe_p _ S E _).
  rewrite (local_ok _ (h `mod` size)%Z).
  2: { rewrite u32_sub_exact by (unfold is_u32, u32_modulus; lia). f_equal. lia. }
  rewrite (local_ok _ (h `mod` size + o)%Z).
  2: { apply u32_add_exact. unfold is_u32, u32_modulus; lia. }
  rewrite (local_ok _ ((h + o) `mod` size)%Z).
  2: { rewrite u32_rem_exact by lia. by rewrite Zplus_mod_idemp_l. }
  rewrite (local_ok _ (min + (h + o) `mod` size)%Z); [done|].
  by apply u32_add_exact, valid_range_slot_u32.
Qed.

Lemma resolve_id_p_start (is_taken : Z → M S E (option bool)) ext min size h :
  murmur3_32 ext 0 = Some h → valid_range min size →
  resolve_id_p ext min size is_taken =
    probe_p is_taken (min + h `mod` size)%Z min size (Z.to_nat size) 0.
Proof.
  intros Hh Hv. unfold resolve_id_p. rewrite (local_ok _ (min + h `mod` size)%Z); [done|].
  by apply id_to_uid_eq.
Qed.
End probing.

(** ** A program alone is the operation *)

#[export] Instance bk_db_lens : Lens bk_db set_bk_db.
Proof. split; [done| |done]. by intros []. Qed.
#[export] Instance bk_net_lens : Lens bk_net set_bk_net.
Proof. split; [done| |done]. by intros []. Qed.

Section alone.
Context `{Sqlite} `{BuildProfile} `{Murmur3}.
Variable self : Service.

Lemma on_db_bind {E A B} (m : M db E A) (k : A → M db E B) :
  on_db (bind m k) ≡ bind (on_db m) (λ a, on_db (k a)).
Proof. apply zoom_bind, _. Qed.
Lemma on_db_ret {E A} (a : A) : on_db (ret a) ≡@{M backend E A} ret a.
Proof. apply zoom_ret, _. Qed.
Lemma on_db_map_err {E E' A} (f : E' → E) (m : M db E' A) :
  on_db (map_err f m) ≡ map_err f (on_db m).
Proof. apply zoom_map_err. Qed.
#[local] Instance on_db_proper {E A} : Proper ((≡@{M db E A}) ==> (≡)) on_db.
Proof. intros m1 m2. apply zoom_proper. Qed.

Lemma run_resolve_uid ext min size : run (resolve_uid_p ext min size) ≡ resolve_uid ext min size.
Proof. apply run_resolve_id. Qed.
Lemma run_resolve_gid ext min size : run (resolve_gid_p ext min size) ≡ resolve_gid ext min size.
Proof. apply run_resolve_id. Qed.

Lemma run_scim_user_to_model su :
  on_db (run (scim_user_to_model_p self su)) ≡ scim_user_to_model self su.
Proof.
  unfold scim_user_to_model_p, scim_user_to_model. rewrite run_bind, on_db_bind.
  apply bind_proper; [by rewrite run_pmap_err, on_db_map_err, run_resolve_uid|intros uid].
  rewrite run_bind, on_db_bind.
  apply bind_proper; [by rewrite run_pmap_err, on_db_map_err, run_resolve_gid|intros gid].
  apply on_db_ret.
Qed.

Lemma run_scim_group_to_model sg :
  on_db (run (scim_group_to_model_p self sg)) ≡ scim_group_to_model self sg.
Proof.
  unfold scim_group_to_model_p, scim_group_to_model. rewrite run_bind, on_db_bind.
  apply bind_proper; [by rewrite run_pmap_err, on_db_map_err, run_resolve_gid|intros gid].
  apply on_db_ret.
Qed.

Lemma run_admit_user su :
  on_db (run (admit_user_p self su)) ≡
    (let? user := scim_user_to_model self su in
     map_err from (on_db (store_user user)) ;;? ret user).
Proof.
  unfold admit_user_p. rewrite run_bind, on_db_bind.
  apply bind_proper; [apply run_scim_user_to_model|intros user].
  rewrite run_bind, on_db_bind. apply bind_proper; [|intros _; apply on_db_ret].
  by rewrite run_pmap_err, on_db_map_err, run_tx.
Qed.

Lemma run_admit_group sg :
  on_db (run (admit_group_p self sg)) ≡
    (let? group := scim_group_to_model self sg in
     map_err from (on_db (store_group group)) ;;? ret group).
Proof.
  unfold admit_group_p. rewrite run_bind, on_db_bind.
  apply bind_proper; [apply run_scim_group_to_model|intros group'].
  rewrite run_bind, on_db_bind. apply bind_proper; [|intros _; apply on_db_ret].
  by rewrite run_pmap_err, on_db_map_err, run_store_group.
Qed.

(** Run without other processes, the programs of transactions are the
    operations of the cache and of the service, on every database and outcome. *)
Theorem alone_is_the_operation ext min size group ttl su sg :
  run (resolve_uid_p ext min size) ≡ resolve_uid ext min size ∧
  run (resolve_gid_p ext min size) ≡ resolve_gid ext min size ∧
  run (store_group_p group) ≡ store_group group ∧
  run (purge_expired_p ttl) ≡ purge_expired ttl ∧
  on_db (run (admit_user_p self su)) ≡
    (let? user := scim_user_to_model self su in
     map_err from (on_db (store_user user)) ;;? ret user) ∧
  on_db (run (admit_group_p self sg)) ≡
    (let? group := scim_group_to_model self sg in
     map_err from (on_db (store_group group)) ;;? ret group).
Proof.
  split_and!; [apply run_resolve_uid|apply run_resolve_gid|apply run_store_group|
    apply run_purge_expired|apply run_admit_user|apply run_admit_group].
Qed.
End alone.

(** ** Any calls, in any schedule *)

(** What the processes may do to one another's view: keep the schema. *)
Definition wf_step `{Sqlite} (d d' : db) : Prop := db_wf d → db_wf d'.

#[export] Instance wf_step_rely `{Sqlite} : Rely wf_step db_wf.
Proof. split; [by intros d Hd|intros d1 d2 d3 H12 H23 Hd; auto|auto]. Qed.

(** A program that keeps the schema and does not panic, as long as the others
    keep the schema too. *)
Abbreviation shared := (keeps wf_step db_wf).

Section shared.
Context `{SqliteLaws} `{BuildProfile} `{Murmur3Laws}.

Lemma shared_tx {E A} (t : M db E A) : safe db_wf t → shared (tx t).
Proof.
  intros Ht. apply keeps_tx; [intros d Hd _; by apply Ht|intros d Hd; by apply Ht].
Qed.

Lemma shared_probe `{From IdRangeExhausted E} (is_taken : Z → M db E (option bool)) h min size n o :
  probe_range min size → (∀ c, safe db_wf (is_taken c)) →
  (0 ≤ o)%Z → (o + Z.of_nat n ≤ size)%Z →
  shared (probe_p is_taken (min + h `mod` size)%Z min size n o).
Proof.
  intros Hp Ht. revert o. induction n as [|n IH]; intros o Ho Hn; [by apply returns_done|].
  rewrite probe_p_step by (done || lia).
  apply keeps_pbind; [by apply shared_tx|].
  intros [[]|]; [by apply returns_done|apply IH; lia|by apply returns_done].
Qed.

Lemma shared_resolve_id `{From IdRangeExhausted E} (is_taken : Z → M db E (option bool)) ext min size :
  probe_range min size → (∀ c, safe db_wf (is_taken c)) →
  shared (resolve_id_p ext min size is_taken).
Proof.
  intros Hp Ht. destruct (murmur3_total ext 0) as (h & Hh & _).
  rewrite (resolve_id_p_start _ _ _ _ h) by (done || apply Hp).
  apply shared_probe; [done..|]. destruct Hp as [(?&?&?) ?]. lia.
Qed.

Lemma safe_uid_owner uid ext : safe db_wf (uid_owner uid ext).
Proof. unfold uid_owner. eauto using safe_query with rust_safe. Qed.
Lemma safe_gid_owner gid ext : safe db_wf (gid_owner gid ext).
Proof. unfold gid_owner. eauto using safe_query with rust_safe. Qed.

Lemma shared_store_group group : shared (store_group_p group).
Proof.
  apply keeps_pbind; [|intros _; apply keeps_pbind; [|intros _; apply keeps_for_each; intros m]];
    apply shared_tx, safe_map_err.
  - apply safe_execute. intros now d. apply db_wf_replace_gid.
  - apply safe_execute. intros now d. by apply db_wf_filter_members.
  - apply safe_insert_member.
Qed.

Lemma shared_bind_u64 {A} ttl (k : Z → prog db CacheError A) :
  (∀ z, shared (k z)) → shared (pbind (local (map_err from (bind_u64 ttl))) k).
Proof.
  intros Hk. unfold bind_u64. destruct (u64_to_sql ttl); [apply Hk|by apply returns_done].
Qed.

Lemma shared_purge ttl : shared (purge_expired_p ttl).
Proof.
  apply shared_bind_u64; intros z1. apply keeps_pbind; [|intros _].
  { apply shared_tx, safe_map_err, safe_execute. intros now d. by apply db_wf_filter_members. }
  apply shared_bind_u64; intros z2. apply keeps_pbind; [|intros _].
  { apply shared_tx, safe_map_err, safe_execute. intros now d. apply db_wf_delete_gid. }
  apply shared_bind_u64; intros z3.
  apply shared_tx, safe_map_err, safe_execute. intros now d. apply db_wf_filter_uid.
Qed.

Variable self : Service.
Hypothesis Hranges : usable_ranges (svc_config self).

Lemma shared_scim_user_to_model su : shared (scim_user_to_model_p self su).
Proof.
  apply keeps_pbind; [|intros uid; apply keeps_pbind; [|intros gid; by apply returns_done]];
    apply keeps_pmap_err, shared_resolve_id; try apply Hranges; intros c.
  - apply safe_uid_owner.
  - apply safe_gid_owner.
Qed.

Lemma shared_resolve_gid ext :
  shared (resolve_gid_p ext (gid_range_min (cfg_mapping (svc_config self)))
    (gid_range_size (cfg_mapping (svc_config self)))).
Proof. apply shared_resolve_id; [apply Hranges|intros c; apply safe_gid_owner]. Qed.

Lemma shared_admit_user su : shared (admit_user_p self su).
Proof.
  apply keeps_pbind; [apply shared_scim_user_to_model|intros u].
  apply keeps_pbind; [|intros _; by apply returns_done].
  apply keeps_pmap_err, shared_tx, safe_store_user.
Qed.

Lemma shared_scim_group_to_model sg : shared (scim_group_to_model_p self sg).
Proof.
  apply keeps_pbind; [|intros gid; by apply returns_done]. apply keeps_pmap_err, shared_resolve_gid.
Qed.

Lemma shared_admit_group sg : shared (admit_group_p self sg).
Proof.
  apply keeps_pbind; [apply shared_scim_group_to_model|intros g].
  apply keeps_pbind; [|intros _; by apply returns_done].
  apply keeps_pmap_err, shared_store_group.
Qed.

Lemma shared_call c : shared (call_p self c).
Proof.
  destruct c; (apply keeps_pthen; [|by apply returns_done]);
    try (apply keeps_pmap_err, shared_tx; eauto with rust_safe; fail).
  - apply shared_admit_user.
  - apply shared_admit_group.
  - apply keeps_pmap_err, shared_resolve_gid.
  - apply keeps_pmap_err, shared_purge.
Qed.

Lemma shared_process calls : shared (process_p self calls).
Proof.
  induction calls as [|c calls IH]; [by apply returns_done|].
  apply keeps_pthen; [apply shared_call|done].
Qed.

Lemma processes_shared procs d ps d' :
  db_wf d → rtc pool_step (process_p self <$> procs, d) (ps, d') →
  pool_rg (λ _, wf_step) (λ _, wf_step) (λ _ r d', db_wf d' ∧ fine (λ _, True) r) (ps, d') ∧
  length ps = length procs ∧ db_wf d'.
Proof.
  intros Hd Hr. eapply (pool_rg_reachable (λ _, wf_step) (λ _, wf_step)) in Hr as (Hrg & Hl & Hg).
  - simpl in Hl. split_and!; [done|by rewrite Hl, length_fmap|]. simpl in Hg. clear -Hg Hd.
    induction Hg as [|d1 d2 d3 (i & _ & H12) _ IH]; auto.
  - intros _. apply _.
  - intros _. apply _.
  - done.
  - intros i p Hp. apply list_lookup_fmap_Some in Hp as (calls & -> & _). by apply shared_process.
Qed.
End shared.

Section shared_properties.
Context `{SqliteLaws} `{BuildProfile} `{Murmur3Laws}.

(** Whatever calls any number of processes make on one cache file, and
    however their transactions are scheduled, every database reached satisfies
    the schema and no process panics. *)
Theorem shared_cache_reachable_wf self procs d ps d' :
  usable_ranges (svc_config self) → db_wf d →
  rtc pool_step (process_p self <$> procs, d) (ps, d') →
  db_wf d' ∧ ∀ p, p ∈ ps → p ≠ Done Panic.
Proof.
  intros Hr Hd Hrtc. destruct (processes_shared self Hr procs d ps d') as (Hrg & _ & Hwf); [done..|].
  split; [done|]. intros p [i Hi]%list_elem_of_lookup ->.
  destruct (Hrg i _ Hi d') as [_ Hnp]; [by intros ?|by apply Hnp].
Qed.

(** No schedule goes on for ever, and none gets stuck: it takes at most as
    many transactions as the calls cost together, each resolution at most the
    slots of its range, and when no transaction is left every process has
    returned. *)
Theorem shared_cache_terminates self procs d n ps d' :
  nsteps pool_step n (process_p self <$> procs, d) (ps, d') →
  n ≤ sum_list (process_cost self <$> procs) ∧
  ((∀ w, ¬ pool_step (ps, d') w) → Forall finished ps) ∧
  ∃ m ps' d'', nsteps pool_step m (ps, d') (ps', d'') ∧ Forall finished ps'.
Proof.
  intros Hn. assert (Forall2 at_most (process_cost self <$> procs) (process_p self <$> procs)) as Hc.
  { clear Hn. induction procs as [|calls procs IH]; constructor; [apply at_most_process|done]. }
  eapply pool_steps_cost in Hn as (ns' & Hns' & Hsum); [|exact Hc].
  split_and!; [lia| |].
  - intros Hno. destruct (pool_progress ps d') as [?|[w Hw]]; [done|by destruct (Hno w)].
  - destruct (pool_completes ns' (ps, d') Hns') as (m & [ps' d''] & ? & ?). eauto.
Qed.
End shared_properties.

(** ** Admissions of identifiers with slots of their own *)

Definition home `{Murmur3} (self : Service) (ext : string) : Z :=
  let mc := cfg_mapping (svc_config self) in
  (uid_range_min mc + default 0 (murmur3_32 ext 0) `mod` uid_range_size mc)%Z.

Section disjoint.
Context `{SqliteLaws} `{BuildProfile} `{Murmur3Laws}.
Variable self : Service.
Hypothesis Hranges : usable_ranges (svc_config self).
Variable sus : list ScimUser.
Hypothesis Hids : NoDup (su_id <$> sus).
Hypothesis Hhomes : NoDup ((λ su, home self (su_id su)) <$> sus).

(** Every identifier finds its slot free, or its own. *)
Definition homes_open (d : db) : Prop :=
  db_wf d ∧ ∀ su, su ∈ sus → available (uid_holder d (home self (su_id su))) (su_id su).

(** An admission touches the row of its identifier only; so the others leave
    the row of every other identifier alone. *)
Definition admit_guarantee (ext : string) (d d' : db) : Prop :=
  homes_open d → homes_open d' ∧
    ∀ r, ur_external_id r ≠ ext → (r ∈ uid_cache d ↔ r ∈ uid_cache d').
Definition admit_rely (ext : string) (d d' : db) : Prop :=
  homes_open d → homes_open d' ∧
    ∀ r, ur_external_id r = ext → (r ∈ uid_cache d ↔ r ∈ uid_cache d').

(** The identifier holds its own slot, and no other. *)
Definition at_home (ext : string) (d : db) : Prop :=
  ∀ uid, uid_holder d uid = Some ext ↔ uid = home self ext.

Definition admitted_at_home (ext : string) (r : outcome ServiceError User) (d : db) : Prop :=
  match r with
  | Ok u => user_external_id u = ext ∧ user_uid u = home self ext ∧ at_home ext d
  | Err e => admission_failure e
  | Panic => False
  end.

#[local] Instance admit_rely_refl ext : Reflexive (admit_rely ext).
Proof. by intros d Hd. Qed.
#[local] Instance admit_rely_trans ext : Transitive (admit_rely ext).
Proof.
  intros d1 d2 d3 H12 H23 Hd1. destruct (H12 Hd1) as [Hd2 E12].
  destruct (H23 Hd2) as [Hd3 E23]. split; [done|]. intros r Hr. by rewrite E12, E23.
Qed.

Lemma admit_guarantee_rely ext ext' d d' :
  ext ≠ ext' → admit_guarantee ext d d' → admit_rely ext' d d'.
Proof.
  intros Hne Hg Hd. destruct (Hg Hd) as [Hd' Hr]. split; [done|].
  intros r Hext. apply Hr. congruence.
Qed.

Lemma homes_open_same_tables d d' : same_tables d d' → homes_open d → homes_open d'.
Proof.
  intros Hs [Hd Ho]. split; [by eapply db_wf_same_tables|]. intros su Hsu.
  rewrite (uid_holder_same_tables d d') by done. auto.
Qed.

Lemma admit_guarantee_read ext d d' : same_tables d d' → admit_guarantee ext d d'.
Proof.
  intros Hs Hd. split; [by eapply homes_open_same_tables|]. destruct Hs as (-> & _). done.
Qed.

Lemma admit_guarantee_store su u now d :
  su ∈ sus → user_external_id u = su_id su → user_uid u = home self (su_id su) →
  admit_guarantee (su_id su) d (next_stmt (replace_uid_row (user_row u now) d)).
Proof.
  intros Hsu He Hu [Hd Ho]. split; [split|].
  - by apply db_wf_next, db_wf_replace_uid.
  - intros su' Hsu'. change (uid_holder (next_stmt ?x)) with (uid_holder x).
    rewrite uid_holder_replace by done. simpl. rewrite Hu, He.
    case_bool_decide as Hh; [|case_bool_decide; [by left|auto]].
    right. f_equal. by rewrite (NoDup_fmap_inj (λ su, home self (su_id su)) sus su su').
  - intros r Hr. simpl. rewrite elem_of_app, list_elem_of_filter, list_elem_of_singleton.
    split; [|intros [[_ ?]| ->]; [done|by destruct Hr]].
    intros Hin. left. split; [|done]. unfold uid_clash. simpl. rewrite He, Hu.
    intros [?|Huid]; [done|].
    assert (uid_holder d (home self (su_id su)) = Some (ur_external_id r)) as Hh
      by (apply uid_holder_Some; eauto).
    destruct (Ho su Hsu) as [Hn|Hn]; congruence.
Qed.

Lemma at_home_stored su u now d :
  db_wf d → user_external_id u = su_id su → user_uid u = home self (su_id su) →
  at_home (su_id su) (next_stmt (replace_uid_row (user_row u now) d)).
Proof.
  intros Hd He Hu uid. change (uid_holder (next_stmt ?x)) with (uid_holder x).
  rewrite uid_holder_replace by done. simpl. rewrite He, Hu.
  case_bool_decide as Hh; [by rewrite Hh|]. case_bool_decide; split; congruence.
Qed.

Lemma at_home_stable ext d d' :
  homes_open d → at_home ext d → admit_rely ext d d' → at_home ext d'.
Proof.
  intros Ho Ha Hr uid. destruct (Hr Ho) as [[Hwf' _] E]. rewrite <-(Ha uid).
  rewrite !uid_holder_Some by (done || apply Ho).
  split; intros (r & Hin & Hu & He); exists r; split_and!; try done; by apply E.
Qed.

(** What a step of an admission leaves to the next one. *)
Definition still_open {E A} (ok : A → Prop) (err : E → Prop) (r : outcome E A) (d : db) : Prop :=
  homes_open d ∧ match r with Ok a => ok a | Err e => err e | Panic => False end.

Lemma rg_read {A} ext (t : M db CacheError A) (ok : A → Prop) d :
  homes_open d →
  (∀ d', homes_open d' → wp t (λ r d'', same_tables d' d'' ∧
     match r with Ok a => ok a | Err e => sql_failure e | Panic => False end) d') →
  rg (admit_rely ext) (admit_guarantee ext) (still_open ok sql_failure) (tx t) d.
Proof.
  intros Hd Ht. apply rg_tx. intros d' Hd'. destruct (Hd' Hd) as [Hopen _].
  eapply wp_mono; [by apply Ht|]. intros r d'' [Hs Hr].
  split; [by apply admit_guarantee_read|]. intros d3 H3'.
  split; [|done]. apply H3'. by eapply homes_open_same_tables.
Qed.

Lemma rg_resolve_uid su d :
  su ∈ sus → homes_open d →
  rg (admit_rely (su_id su)) (admit_guarantee (su_id su))
    (still_open (λ uid, uid = home self (su_id su)) sql_failure)
    (resolve_uid_p (su_id su) (uid_range_min (cfg_mapping (svc_config self)))
      (uid_range_size (cfg_mapping (svc_config self)))) d.
Proof.
  intros Hsu Hd. destruct (murmur3_total (su_id su) 0) as (h & Hh & _).
  destruct Hranges as [Hr _]. pose proof Hr as [(?&?&?) ?].
  unfold resolve_uid_p. rewrite (resolve_id_p_start _ _ _ _ h) by (done || apply Hr).
  destruct (Z.to_nat _) as [|n] eqn:Hn; [lia|].
  rewrite probe_p_step, Z.add_0_r by (done || lia).
  assert (home self (su_id su) = uid_range_min (cfg_mapping (svc_config self)) +
    h `mod` uid_range_size (cfg_mapping (svc_config self)))%Z as Hhome
    by (unfold home; by rewrite Hh).
  eapply rg_pbind; [apply _|eapply (rg_read _ _ (λ t, t ≠ Some false))|..]; [done| |..].
  - intros d' [Hd' Ho]. eapply wp_mono; [by apply uid_owner_wp|].
    intros [t|e|] d'' [Hs Ht]; [|done..]. split; [done|]. rewrite Ht, owner_view_false, <-Hhome.
    intros Hno. by apply Hno, Ho.
  - intros t d' [Hd' Ht]. destruct t as [[]|]; [|by destruct Ht|]; apply rg_done;
      intros d'' Hd''; (split; [by apply Hd''|done]).
  - done.
  - by intros d' [_ ?].
Qed.

Lemma rg_resolve_gid ext gext d :
  homes_open d →
  rg (admit_rely ext) (admit_guarantee ext)
    (still_open (λ _, True) (λ e, sql_failure e ∨ e = RangeExhausted))
    (resolve_gid_p gext (gid_range_min (cfg_mapping (svc_config self)))
      (gid_range_size (cfg_mapping (svc_config self)))) d.
Proof.
  intros Hd. destruct (murmur3_total gext 0) as (h & Hh & _).
  destruct Hranges as [_ Hr]. pose proof Hr as [(?&?&?) ?].
  unfold resolve_gid_p. rewrite (resolve_id_p_start _ _ _ _ h) by (done || apply Hr).
  assert (0 + Z.of_nat (Z.to_nat (gid_range_size (cfg_mapping (svc_config self)))) ≤
    gid_range_size (cfg_mapping (svc_config self)))%Z as Hn by lia.
  revert Hn Hd. generalize (Z.to_nat (gid_range_size (cfg_mapping (svc_config self)))) as n.
  assert (0 ≤ 0)%Z as Ho by done. revert Ho. generalize 0%Z at 2 3 4 as o. intros o Ho n.
  revert o Ho d. induction n as [|n IH]; intros o Ho d Hn Hd.
  { apply rg_done. intros d' Hd'. split; [by apply Hd'|by right]. }
  rewrite probe_p_step by (done || lia).
  eapply rg_pbind; [apply _|eapply (rg_read _ _ (λ _, True))|..]; [done| |..].
  - intros d' [Hd' _]. eapply wp_mono; [by apply gid_owner_wp|].
    intros [t|e|] d'' [Hs Ht]; done.
  - intros t d' [Hd' _]. destruct t as [[]|]; [|by apply IH; [lia..|]|]; apply rg_done;
      intros d'' Hd''; (split; [by apply Hd''|done]).
  - intros e d' [? ?]. split; [done|by left].
  - by intros d' [_ ?].
Qed.

Lemma rg_admit_user su d :
  su ∈ sus → homes_open d →
  rg (admit_rely (su_id su)) (admit_guarantee (su_id su)) (admitted_at_home (su_id su))
    (admit_user_p self su) d.
Proof.
  intros Hsu Hd.
  assert (rg (admit_rely (su_id su)) (admit_guarantee (su_id su))
    (still_open (λ u, user_external_id u = su_id su ∧ user_uid u = home self (su_id su))
      admission_failure) (scim_user_to_model_p self su) d) as Hmodel.
  { eapply rg_pbind; [apply _|apply rg_pmap_err|..].
    - eapply rg_mono; [by apply rg_resolve_uid|]. intros r d' Hr.
      instantiate (1 := still_open (λ uid, uid = home self (su_id su)) admission_failure).
      destruct r as [uid|e|]; destruct Hr as [? He]; [done| |done].
      split; [done|]. eexists. split; [done|by left].
    - intros uid d' [Hd' ->]. eapply rg_pbind; [apply _|apply rg_pmap_err|..].
      + eapply rg_mono; [by apply rg_resolve_gid|]. intros r d'' Hr.
        instantiate (1 := still_open (λ _, True) admission_failure).
        destruct r as [gid|e|]; destruct Hr as [? He]; [done| |done].
        split; [done|]. by eexists.
      + intros gid d'' [Hd'' _]. apply rg_done. intros d3 H3'. split; [by apply H3'|done].
      + done.
      + by intros d'' [_ ?].
    - done.
    - by intros d' [_ ?]. }
  eapply rg_pbind; [apply _|exact Hmodel|..].
  - intros u d' [Hd' [He Hu]]. eapply rg_pbind; [apply _|apply rg_pmap_err|..].
    + apply rg_tx. intros d1 Hd1. destruct (Hd1 Hd') as [Hopen _].
      eapply wp_mono; [apply store_user_wp|].
      instantiate (1 := λ r d, homes_open d ∧ match r with
        | Ok _ => at_home (su_id su) d | Err e => admission_failure e | Panic => False end).
      intros [[]|e|] d2 Hpost; [| |done].
      * destruct Hpost as (now & _ & ->).
        pose proof (admit_guarantee_store su u now d1 Hsu He Hu) as Hg.
        split; [done|]. intros d3 H3'. destruct (Hg Hopen) as [Ho2 _]. split; [by apply H3'|].
        eapply at_home_stable; [exact Ho2| |done]. apply at_home_stored; [apply Hopen|done..].
      * destruct Hpost as [Hf ->]. split; [by apply admit_guarantee_read|].
        intros d3 H3'. split; [by apply H3', (homes_open_same_tables d1)|].
        eexists. split; [done|by left].
    + intros [] d2 [Ho2 Hat]. apply rg_done. intros d3 H3'. split_and!; [done..|].
      by eapply at_home_stable.
    + by intros e d2 [_ ?].
    + by intros d2 [_ ?].
  - by intros e d' [_ ?].
  - by intros d' [_ ?].
Qed.
End disjoint.

Section disjoint_properties.
Context `{SqliteLaws} `{BuildProfile} `{Murmur3Laws}.

(** C9: processes that admit users whose home slots are distinct, and free or
    their own, do not disturb each other in any schedule: a process that
    succeeds has its user's home slot, the table gives the identifier exactly
    that uid, and the row of every identifier that nobody admits stays. *)
Theorem own_slots_never_interfere self sus d ps d' :
  usable_ranges (svc_config self) →
  NoDup (su_id <$> sus) → NoDup ((λ su, home self (su_id su)) <$> sus) →
  homes_open self sus d →
  rtc pool_step (admit_user_p self <$> sus, d) (ps, d') →
  (∀ i su r, sus !! i = Some su → ps !! i = Some (Done r) →
    admitted_at_home self (su_id su) r d') ∧
  (∀ row, row ∈ uid_cache d → ur_external_id row ∉ su_id <$> sus → row ∈ uid_cache d').
Proof.
  intros Hr Hids Hhomes Hd Hrtc.
  set (R i d1 d2 := ∀ su, sus !! i = Some su → admit_rely self sus (su_id su) d1 d2).
  set (G i d1 d2 := ∃ su, sus !! i = Some su ∧ admit_guarantee self sus (su_id su) d1 d2).
  set (Q i r d1 := ∀ su, sus !! i = Some su → admitted_at_home self (su_id su) r d1).
  assert (∀ i, Reflexive (R i)) by (intros i d1 su _; apply admit_rely_refl).
  assert (∀ i, Transitive (R i)).
  { intros i d1 d2 d3 H12 H23 su Hi. eapply admit_rely_trans; eauto. }
  edestruct (pool_rg_reachable R G Q) as (Hrg & Hl & Hsteps); [| |exact Hrtc|].
  - intros i j d1 d2 Hij (su & Hi & Hg) su' Hj. eapply admit_guarantee_rely; [|done].
    intros Heq. apply Hij. eapply NoDup_lookup; [exact Hids|..]; rewrite list_lookup_fmap.
    + by rewrite Hi.
    + by rewrite Hj, Heq.
  - intros i p Hp. apply list_lookup_fmap_Some in Hp as (su & -> & Hi).
    eapply rg_weaken; [apply (rg_admit_user self Hr sus Hhomes su)|..]; [|done|..].
    + by eapply list_elem_of_lookup_2.
    + intros d1 d2 H12. by apply H12.
    + intros d1 d2 H12. by exists su.
    + intros r d1 Hq su' Hi'. by assert (su' = su) as -> by congruence.
  - split.
    + intros i su r Hi Hp. by apply (Hrg i _ Hp d').
    + clear -Hsteps Hd. simpl in Hsteps. revert Hd.
      induction Hsteps as [|d1 d2 d3 (i & _ & su & Hi & Hg) _ IH]; intros Hd row Hrow Hne; [done|].
      destruct (Hg Hd) as [Hd2 E]. apply IH; [done| |done]. apply E; [|done].
      intros Heq. apply Hne. rewrite Heq. apply list_elem_of_fmap_2. by eapply list_elem_of_lookup_2.
Qed.
End disjoint_properties.

(** ** What the missing transactions allow *)

Section races.
Context `{SqliteLaws} `{BuildProfile} `{Murmur3Laws} (Hnf : no_faults).

Lemma no_sql_failure e : ¬ sql_failure e.
Proof. intros (n & e' & He & _). by rewrite Hnf in He. Qed.

Lemma wp_run {S E A} (m m' : M S E A) (Q : outcome E A → S → Prop) s :
  m ≡ m' → wp m' Q s → wp m Q s.
Proof. intros Hm. unfold wp. by rewrite (Hm s). Qed.

(** On a quiet database a user whose slot is free is built with that slot. *)
Lemma run_model_at_home self su d :
  usable_ranges (svc_config self) → db_wf d →
  uid_holder d (home self (su_id su)) = None →
  (∃ c, (gid_range_min (cfg_mapping (svc_config self)) ≤ c <
      gid_range_min (cfg_mapping (svc_config self)) +
      gid_range_size (cfg_mapping (svc_config self)))%Z ∧ gid_holder d c = None) →
  ∃ u d', run (scim_user_to_model_p self su) d = (Ok u, d') ∧ same_tables d d' ∧
    user_external_id u = su_id su ∧ user_uid u = home self (su_id su).
Proof.
  intros [Hu Hg] Hd Hfree (c & Hc & Hcfree).
  destruct (murmur3_total (su_id su) 0) as (h & Hh & _).
  assert (wp (run (scim_user_to_model_p self su)) (λ r d', same_tables d d' ∧ ∃ u, r = Ok u ∧
    user_external_id u = su_id su ∧ user_uid u = home self (su_id su)) d) as [Hs (u & Hr & ?)].
  2: { destruct (run (scim_user_to_model_p self su) d) as [r d'] eqn:Hrun. simpl in *. subst.
       by exists u, d'. }
  eapply wp_run; [apply run_bind|]. apply wp_bind.
  eapply wp_run; [by rewrite run_pmap_err, run_resolve_uid|]. apply wp_map_err.
  assert (home self (su_id su) = uid_range_min (cfg_mapping (svc_config self)) +
    h `mod` uid_range_size (cfg_mapping (svc_config self)))%Z as Hhome
    by (unfold home; by rewrite Hh).
  eapply wp_mono; [by apply resolve_uid_wp|]. intros [uid|e|] d1 [Hs1 Hres]; [| |done].
  2: { destruct Hres as [?%no_sql_failure|[_ Hall]]; [done|].
       destruct (Hall (home self (su_id su))); [rewrite Hhome; apply valid_range_slot, Hu|by left]. }
  cbn [and_then]. assert (uid = home self (su_id su)) as ->.
  { rewrite Hhome in *. by eapply resolution_first_free. }
  eapply wp_run; [apply run_bind|]. apply wp_bind.
  eapply wp_run; [by rewrite run_pmap_err, run_resolve_gid|]. apply wp_map_err.
  eapply wp_mono; [apply resolve_gid_wp; [by eapply db_wf_same_tables|done]|].
  intros [gid|e|] d2 [Hs2 Hres2]; [| |done].
  2: { destruct Hres2 as [?%no_sql_failure|[_ Hall]]; [done|].
       destruct (Hall c Hc). left. by rewrite (gid_holder_same_tables d d1). }
  split; [by etrans|]. by eexists.
Qed.

Lemma run_store_ok u d :
  ∃ now, run (pmap_err (from (B:=ServiceError)) (tx (store_user u))) d =
    (Ok tt, next_stmt (replace_uid_row (user_row u now) d)).
Proof.
  exists (sql_now (stmt_no d)). rewrite (run_pmap_err _ _ d). unfold map_err at 1.
  rewrite (run_tx _ d). unfold store_user, execute, map_err, statement. by rewrite Hnf.
Qed.

(** C27: two processes that admit two users of the same free slot can both
    probe before either stores. Then both succeed with the same uid, and the
    second store replaces the first user's row: the uid that the first process
    answered belongs to the second user in the cache. *)
Theorem racing_admissions_share_a_uid self su1 su2 d :
  usable_ranges (svc_config self) → db_wf d → su_id su1 ≠ su_id su2 →
  home self (su_id su1) = home self (su_id su2) →
  uid_holder d (home self (su_id su2)) = None →
  (∀ uid, uid_holder d uid ≠ Some (su_id su1)) →
  (∃ c, (gid_range_min (cfg_mapping (svc_config self)) ≤ c <
      gid_range_min (cfg_mapping (svc_config self)) +
      gid_range_size (cfg_mapping (svc_config self)))%Z ∧ gid_holder d c = None) →
  ∃ u1 u2 d', rtc pool_step ([admit_user_p self su1; admit_user_p self su2], d)
      ([Done (Ok u1); Done (Ok u2)], d') ∧
    user_external_id u1 = su_id su1 ∧ user_external_id u2 = su_id su2 ∧
    user_uid u1 = user_uid u2 ∧ uid_holder d' (user_uid u1) = Some (su_id su2) ∧
    ∀ uid, uid_holder d' uid ≠ Some (su_id su1).
Proof.
  intros Hr Hd Hne Hhome Hfree Hnew Hgid.
  destruct (run_model_at_home self su1 d) as (u1 & d1 & Hrun1 & Hs1 & He1 & Hu1); [done..|by rewrite Hhome|done|].
  assert (Hd1 : db_wf d1) by by eapply db_wf_same_tables.
  destruct (run_model_at_home self su2 d1) as (u2 & d2 & Hrun2 & Hs2 & He2 & Hu2); [done..| | |].
  { by rewrite (uid_holder_same_tables d d1). }
  { setoid_rewrite (gid_holder_same_tables d d1); done. }
  assert (Hd2 : db_wf d2) by by eapply db_wf_same_tables.
  destruct (run_store_ok u1 d2) as [now1 Hst1].
  set (d3 := next_stmt (replace_uid_row (user_row u1 now1) d2)) in *.
  assert (Hd3 : db_wf d3) by by apply db_wf_next, db_wf_replace_uid.
  destruct (run_store_ok u2 d3) as [now2 Hst2].
  exists u1, u2, (next_stmt (replace_uid_row (user_row u2 now2) d3)). split.
  - etrans; [eapply (pool_runs 0); [done|exact Hrun1]|]. simpl.
    etrans; [eapply (pool_runs 1); [done|exact Hrun2]|]. simpl.
    etrans; [eapply (pool_runs 0); [|exact Hst1]|]; [reflexivity|]. simpl.
    etrans; [eapply (pool_runs 1); [|exact Hst2]|]; [reflexivity|]. done.
  - split_and!; [done..|congruence| |].
    + change (uid_holder (next_stmt ?x)) with (uid_holder x).
      rewrite uid_holder_replace by done. simpl.
      rewrite bool_decide_eq_true_2 by congruence. by rewrite He2.
    + intros uid. change (uid_holder (next_stmt ?x)) with (uid_holder x).
      rewrite uid_holder_replace by done. simpl.
      case_bool_decide as Hc; [congruence|]. case_bool_decide; [done|].
      unfold d3. change (uid_holder (next_stmt ?x)) with (uid_holder x).
      rewrite uid_holder_replace by done. simpl.
      rewrite bool_decide_eq_false_2 by congruence. case_bool_decide; [done|].
      rewrite (uid_holder_same_tables d1 d2), (uid_holder_same_tables d d1) by done. auto.
Qed.

Lemma execute_ok (w : Z → db → db) d :
  map_err (from (B:=CacheError)) (execute w) d = (Ok tt, w (sql_now (stmt_no d)) (next_stmt d)).
Proof. unfold execute, map_err, statement. by rewrite Hnf. Qed.

(** The cache after the first two statements of [store_group]. *)
Definition group_emptied (g : Group) (d : db) : db :=
  let d1 := next_stmt (replace_gid_row (group_row g (sql_now (stmt_no d))) (next_stmt d)) in
  set_group_members (filter (λ m, mr_group_external_id m ≠ group_external_id g)
    (group_members_table d1)) d1.

Lemma group_emptied_spec g d :
  db_wf d →
  db_wf (group_emptied g d) ∧ members_of (group_emptied g d) (group_external_id g) = [] ∧
  group_row g (sql_now (stmt_no d)) ∈ gid_cache (group_emptied g d).
Proof.
  intros Hd. split_and!.
  - by apply db_wf_filter_members, db_wf_next, db_wf_replace_gid, db_wf_next.
  - unfold group_emptied. set (d1 := next_stmt (replace_gid_row _ _)).
    rewrite (members_of_delete _ d1). by rewrite bool_decide_eq_true_2.
  - simpl. apply elem_of_app. right. by left.
Qed.

Lemma run_insert_members g d :
  db_wf d → group_external_id g ∈ gr_external_id <$> gid_cache d →
  members_of d (group_external_id g) = [] → NoDup (group_members g) →
  ∃ d', run (for_each_p (group_members g) (λ member, tx (map_err (from (B:=CacheError))
      (insert_member (mk_member_row (group_external_id g) member))))) d = (Ok tt, d') ∧
    members_of d' (group_external_id g) = group_members g.
Proof.
  intros Hd Hg Hm Hnd.
  pose proof (insert_members_wp (group_external_id g) [] (group_members g) d Hd Hg Hm
    ltac:(apply NoDup_nil_2)) as Hins.
  assert (wp (run (for_each_p (group_members g) (λ member, tx (map_err (from (B:=CacheError))
      (insert_member (mk_member_row (group_external_id g) member))))))
    (members_inserted (group_external_id g) [] (group_members g) d) d) as Hrun.
  { eapply wp_run; [apply run_for_each|]. eapply wp_run; [|exact Hins].
    clear. induction (group_members g) as [|m ms IH]; [done|]. simpl.
    apply bind_proper; [apply run_tx|by intros _]. }
  unfold wp in Hrun. destruct (run _ d) as [r d']. exists d'.
  destruct Hrun as (_ & _ & _ & _ & [(_ & Hr & Hm')|(e & pre & x & post & Heq' & Hnd' & [(n & e' & He & _)|[Hx _]] & _)]);
    simpl in *; [by subst|by rewrite Hnf in He|].
  rewrite Heq' in Hnd. apply NoDup_app in Hnd as (_ & Hdis & _). destruct (Hdis x Hx). by left.
Qed.

Lemma lookup_emptied c g d :
  (0 ≤ ttl_seconds c < 2 ^ 63)%Z → within_ttl (ttl_seconds c) → db_wf d →
  let d1 := group_emptied g d in
  ∃ d2, get_group_by_gid c (group_gid g) d1 =
      (Ok (Some (mk_group (group_external_id g) (group_name g) (group_gid g) [])), d2) ∧
    same_tables d1 d2.
Proof.
  intros Httl Hw Hd d1. destruct (group_emptied_spec g d Hd) as (Hwf & Hm & Hrow).
  fold d1 in Hwf, Hm, Hrow.
  pose proof (get_group_by_gid_wp c (group_gid g) d1) as [Hs Hr].
  destruct (get_group_by_gid c (group_gid g) d1) as [r d2]. simpl in Hs, Hr.
  exists d2. split; [|done]. f_equal. destruct r as [res|e|]; [| |done].
  2: { destruct Hr as [?%no_sql_failure|[He _]]; [done|]. by rewrite u64_to_sql_fits in He. }
  destruct Hr as (ttl & Hu & Hres). rewrite u64_to_sql_fits in Hu by done. injection Hu as <-.
  destruct res as [g'|]; [|by destruct (Hres _ Hrow eq_refl); apply Hw].
  destruct Hres as (row & Hin & Hgid & _ & (He & Hn & Hg & Hmem)).
  assert (row = group_row g (sql_now (stmt_no d))) as ->
    by (eapply (NoDup_fmap_inj gr_gid); [apply Hwf|done..]).
  simpl in *. rewrite Hm in Hmem. apply Permutation_nil_r in Hmem.
  destruct g'. simpl in *. by subst.
Qed.
End races.

Section torn_reads.
Context `{SqliteLaws} `{BuildProfile} `{Murmur3Laws}.

(** C31: a group is not replaced in one transaction. Whatever the cache listed
    for it before, a process that looks it up while another stores it can find
    the group with no members, although the store then completes and the cache
    lists every member. *)
Theorem group_read_between_statements c g d :
  no_faults → (0 ≤ ttl_seconds c < 2 ^ 63)%Z → within_ttl (ttl_seconds c) →
  db_wf d → NoDup (group_members g) →
  ∃ d', rtc pool_step
      ([let! _ := store_group_p g in Done (Ok None); tx (get_group_by_gid c (group_gid g))], d)
      ([Done (Ok None); Done (Ok (Some
         (mk_group (group_external_id g) (group_name g) (group_gid g) [])))], d') ∧
    members_of d' (group_external_id g) = group_members g.
Proof.
  intros Hnf Httl Hw Hd Hnd.
  destruct (group_emptied_spec g d Hd) as (Hwf & Hm & Hrow).
  destruct (lookup_emptied Hnf c g d Httl Hw Hd) as (d2 & Hread & Hs).
  destruct (run_insert_members Hnf g d2) as (d3 & Hins & Hm3); [| | |done|].
  { by eapply db_wf_same_tables. }
  { destruct Hs as (_ & -> & _). by apply (list_elem_of_fmap_2 gr_external_id) in Hrow. }
  { by rewrite (members_of_same_tables (group_emptied g d)). }
  exists d3. split; [|done]. unfold store_group_p.
  etrans; [eapply (pool_runs_tx 0); [reflexivity|by apply execute_ok]|]. simpl.
  etrans; [eapply (pool_runs_tx 0); [reflexivity|by apply execute_ok]|]. simpl.
  etrans; [eapply (pool_runs_tx 1); [reflexivity|exact Hread]|]. simpl.
  etrans; [eapply (pool_runs 0); [|exact Hins]; reflexivity|]. done.
Qed.
End torn_reads.

(** ** Witnesses: two hosts' worth of processes on a range of ten slots *)

#[local] Instance shared_engine : Sqlite := still_engine true 1000.
#[local] Instance shared_engine_laws : SqliteLaws := still_engine_laws true 1000.
#[local] Existing Instance release_build.
#[local] Existing Instance byte_sum_hash.
#[local] Existing Instance byte_sum_hash_laws.

Definition small_config : Config :=
  mk_config (mk_scim_config "https://scim.example" "" "token")
    (mk_oidc_config "https://idp.example" "client" None false)
    (mk_mapping_config 100 10 100 10) default_user_defaults default_cache_config
    (mk_security_config Deny).
Definition small_service : Service :=
  mk_service (ScimClient_new "https://scim.example" "token") (mk_cache 3600) small_config.

(** The byte sums of ["ab"] and ["ba"] agree; that of ["b"] has a slot of its own. *)
Definition ann : ScimUser := mk_scim_user "ab" "ann" None (Some true) [].
Definition ben : ScimUser := mk_scim_user "ba" "ben" None (Some true) [].
Definition cam : ScimUser := mk_scim_user "b" "cam" None (Some true) [].

Lemma small_usable : usable_ranges (svc_config small_service).
Proof. split; vm_compute; repeat split; congruence. Qed.
Lemma shared_no_faults : no_faults.
Proof. by intros n. Qed.

Definition sample_procs : list (list call) :=
  [[AdmitUser ann; ReadUserByName "ann"]; [Purge 3600; AdmitUser ben]].
Definition sample_schedule : list nat := [0; 1; 1; 0; 1; 0; 1; 1; 0; 1; 1].

Example all_returned :
  Forall finished (schedule sample_schedule
    (process_p small_service <$> sample_procs, empty_db)).1.
Proof. vm_compute. repeat (apply Forall_cons_2; [exact I|]). apply Forall_nil_2. Qed.

Lemma shared_cache_reachable_wf_witness :
  db_wf (schedule sample_schedule (process_p small_service <$> sample_procs, empty_db)).2.
Proof.
  refine (proj1 (shared_cache_reachable_wf small_service sample_procs empty_db
    (schedule sample_schedule (process_p small_service <$> sample_procs, empty_db)).1 _
    small_usable db_wf_empty _)).
  rewrite <-surjective_pairing. apply schedule_rtc.
Defined.

Lemma shared_cache_terminates_witness :
  ∃ n, n ≤ sum_list (process_cost small_service <$> sample_procs) ∧
    nsteps pool_step n (process_p small_service <$> sample_procs, empty_db)
      (schedule sample_schedule (process_p small_service <$> sample_procs, empty_db)).
Proof.
  destruct (schedule_nsteps sample_schedule (process_p small_service <$> sample_procs, empty_db))
    as (n & _ & Hn). exists n. split; [|exact Hn].
  refine (proj1 (shared_cache_terminates small_service sample_procs empty_db n
    (schedule sample_schedule (process_p small_service <$> sample_procs, empty_db)).1
    (schedule sample_schedule (process_p small_service <$> sample_procs, empty_db)).2 _)).
  rewrite <-surjective_pairing. exact Hn.
Defined.

Definition apart_pool : pool db ServiceError User :=
  schedule [0; 1; 1; 0; 1; 0] (admit_user_p small_service <$> [ann; cam], empty_db).

Example apart_results :
  (λ p, match p with Done (Ok u) => Some (user_uid u) | _ => None end) <$> apart_pool.1 =
    [Some 105%Z; Some 108%Z].
Proof. vm_compute. reflexivity. Qed.

Lemma own_slots_never_interfere_witness :
  match apart_pool.1 !! 0 with
  | Some (Done r) => admitted_at_home small_service "ab" r apart_pool.2
  | _ => False
  end.
Proof.
  assert (rtc pool_step (admit_user_p small_service <$> [ann; cam], empty_db)
    (apart_pool.1, apart_pool.2)) as Hrtc
    by (rewrite <-surjective_pairing; apply schedule_rtc).
  pose proof (own_slots_never_interfere small_service [ann; cam] empty_db
    apart_pool.1 apart_pool.2 small_usable) as Hown.
  destruct Hown as [Hown _].
  - apply (bool_decide_unpack _). vm_compute. exact I.
  - apply (bool_decide_unpack _). vm_compute. exact I.
  - split; [apply db_wf_empty|]. intros su _. left. vm_compute. reflexivity.
  - exact Hrtc.
  - destruct (apart_pool.1 !! 0) as [[r|]|] eqn:Hp.
    + apply (Hown 0 ann r); [reflexivity|exact Hp].
    + vm_compute in Hp. discriminate.
    + vm_compute in Hp. discriminate.
Defined.

Lemma racing_admissions_share_a_uid_witness :
  ∃ u1 u2 d', rtc pool_step ([admit_user_p small_service ann; admit_user_p small_service ben], empty_db)
      ([Done (Ok u1); Done (Ok u2)], d') ∧
    user_uid u1 = user_uid u2 ∧ uid_holder d' (user_uid u1) = Some "ba".
Proof.
  destruct (racing_admissions_share_a_uid shared_no_faults small_service ann ben empty_db
    small_usable db_wf_empty) as (u1 & u2 & d' & Hr & _ & _ & Hu & Hh & _).
  - discriminate.
  - vm_compute. reflexivity.
  - vm_compute. reflexivity.
  - intros uid. discriminate.
  - exists 100%Z. split; [vm_compute; split; congruence|vm_compute; reflexivity].
  - exists u1, u2, d'. split; [exact Hr|split; [exact Hu|exact Hh]].
Defined.

Definition wheel : Group := mk_group "grp-1" "wheel" 105 ["ann"; "ben"].

Lemma group_read_between_statements_witness :
  let d := (store_group wheel empty_db).2 in
  members_of d "grp-1" = ["ann"; "ben"] ∧
  ∃ d', rtc pool_step
      ([let! _ := store_group_p wheel in Done (Ok None); tx (get_group_by_gid (mk_cache 3600) 105)], d)
      ([Done (Ok None); Done (Ok (Some (mk_group "grp-1" "wheel" 105 [])))], d') ∧
    members_of d' "grp-1" = ["ann"; "ben"].
Proof.
  split; [vm_compute; reflexivity|].
  apply (group_read_between_statements (mk_cache 3600) wheel _ shared_no_faults).
  - vm_compute. split; congruence.
  - intros n m. vm_compute. reflexivity.
  - apply preserves_store_group, db_wf_empty.
  - apply (bool_decide_unpack _). vm_compute. exact I.
Defined.
