(* ===== verification/Threads.v ===== *)
(** * Threads: threads that share mutexes and a state

    [Interleave] runs processes that share nothing but a database. The threads
    of one process also share the statics of a module, each behind a
    [std::sync::Mutex] or a [std::sync::OnceLock]. Here a thread is a program
    whose steps take a lock, release it, or act on the shared state; a lock that
    is taken blocks the others. This file has the pools of such threads and the
    rules to reason about them; [Calls] has the calls of the two modules. *)

From S2P Require Import Prelude Interleave.
From stdpp Require Import prelude list gmap relations.

(** A thread: it has returned, or is about to act, to lock, or to unlock. *)
Inductive thread (L S E A : Type) : Type :=
  | Return (r : outcome E A)
  | Act {F X : Type} (t : M S F X) (k : outcome F X → thread L S E A)
  | Acquire (l : L) (k : thread L S E A)
  | Release (l : L) (k : thread L S E A).
Arguments Return {_ _ _ _} _.
Arguments Act {_ _ _ _ _ _} _ _.
Arguments Acquire {_ _ _ _} _ _.
Arguments Release {_ _ _ _} _ _.

(** The steps of a program, then what follows its outcome. *)
Fixpoint tlift {L S E E' A B} (p : prog S E A) (k : outcome E A → thread L S E' B)
    : thread L S E' B :=
  match p with
  | Done r => k r
  | Tx t c => Act t (λ r, tlift (c r) k)
  end.

(** [let guard = l.lock(); p]: the guard is dropped however [p] ends. *)
Definition locked {L S E E' A B} (l : L) (p : prog S E A) (k : outcome E A → thread L S E' B)
    : thread L S E' B :=
  Acquire l (tlift p (λ r, Release l (k r))).

(** [once.get_or_init(p)]: the value that is there; otherwise one thread at a
    time gets to run [p], and those that waited find its value. *)
Section once.
Context {L S E A B : Type} (once : L) (get : S → option A) (set : A → S → S).

Definition get_once : M S Empty_set (option A) := λ s, (Ok (get s), s).
Definition set_once (a : A) : M S Empty_set () := λ s, (Ok tt, set a s).

Definition init_once (p : prog S E A) (k : A → thread L S E B) : thread L S E B :=
  Acquire once (Act get_once (λ r,
    match r with
    | Ok (Some a) => Release once (k a)
    | _ => tlift p (λ r,
        match r with
        | Ok a => Act (set_once a) (λ _, Release once (k a))
        | Err e => Release once (Return (Err e))
        | Panic => Release once (Return Panic)
        end)
    end)).

Definition get_or_init (p : prog S E A) (k : A → thread L S E B) : thread L S E B :=
  Act get_once (λ r,
    match r with
    | Ok (Some a) => k a
    | _ => init_once p k
    end).
End once.

(** A thread over a component of the state, its locks renamed. *)
Fixpoint tembed {L L' S T E A} (get : S → T) (set : T → S → S) (name : L → L')
    (p : thread L T E A) : thread L' S E A :=
  match p with
  | Return r => Return r
  | Act t k => Act (zoom get set t) (λ r, tembed get set name (k r))
  | Acquire l k => Acquire (name l) (tembed get set name k)
  | Release l k => Release (name l) (tembed get set name k)
  end.

(** The result, with another type. *)
Fixpoint treport {L S E E' A B} (f : outcome E A → outcome E' B) (p : thread L S E A)
    : thread L S E' B :=
  match p with
  | Return r => Return (f r)
  | Act t k => Act t (λ r, treport f (k r))
  | Acquire l k => Acquire l (treport f k)
  | Release l k => Release l (treport f k)
  end.

(** The thread on its own: every lock is free when it takes it. *)
Fixpoint trun {L S E A} (p : thread L S E A) : M S E A := λ s,
  match p with
  | Return r => (r, s)
  | Act t k => trun (k (t s).1) (t s).2
  | Acquire _ k | Release _ k => trun k s
  end.

Definition returned {L S E A} (p : thread L S E A) : Prop :=
  match p with Return _ => True | _ => False end.

(** ** Pools *)

Section pools.
Context {L S E A : Type} `{Countable L}.

(** The threads, who holds which lock, and the state. *)
Record tpool := mk_tpool {
  tp_threads : list (thread L S E A);
  tp_owners : gmap L nat;
  tp_state : S;
}.

Inductive tpool_step : tpool → tpool → Prop :=
  | thread_acts i F X (t : M S F X) k ps h s :
      ps !! i = Some (Act t k) →
      tpool_step (mk_tpool ps h s) (mk_tpool (<[i := k (t s).1]> ps) h (t s).2)
  | thread_locks i l k ps h s :
      ps !! i = Some (Acquire l k) → h !! l = None →
      tpool_step (mk_tpool ps h s) (mk_tpool (<[i := k]> ps) (<[l := i]> h) s)
  | thread_unlocks i l k ps h s :
      ps !! i = Some (Release l k) → h !! l = Some i →
      tpool_step (mk_tpool ps h s) (mk_tpool (<[i := k]> ps) (delete l h) s).

Definition idle (ps : list (thread L S E A)) (s : S) : tpool := mk_tpool ps ∅ s.

(** A schedule: which thread moves next; one that cannot is passed over. *)
Definition tstep_at (w : tpool) (i : nat) : tpool :=
  match tp_threads w !! i with
  | Some (Act t k) => mk_tpool (<[i := k (t (tp_state w)).1]> (tp_threads w)) (tp_owners w)
      (t (tp_state w)).2
  | Some (Acquire l k) =>
      match tp_owners w !! l with
      | None => mk_tpool (<[i := k]> (tp_threads w)) (<[l := i]> (tp_owners w)) (tp_state w)
      | Some _ => w
      end
  | Some (Release l k) =>
      if bool_decide (tp_owners w !! l = Some i)
      then mk_tpool (<[i := k]> (tp_threads w)) (delete l (tp_owners w)) (tp_state w)
      else w
  | _ => w
  end.
Definition tschedule (order : list nat) (w : tpool) : tpool := foldl tstep_at w order.

Lemma tschedule_rtc order w : rtc tpool_step w (tschedule order w).
Proof.
  revert w. induction order as [|i order IH]; intros w; [apply rtc_refl|].
  change (tschedule (i :: order) w) with (tschedule order (tstep_at w i)).
  assert (tstep_at w i = w ∨ tpool_step w (tstep_at w i)) as Hi.
  { unfold tstep_at. destruct w as [ps h s]. simpl.
    destruct (ps !! i) as [[r|F X t k|l k|l k]|] eqn:Hi; [by left| | | |by left].
    - right. by apply thread_acts.
    - destruct (h !! l) eqn:Hl; [by left|right; by apply thread_locks].
    - case_bool_decide; [right; by apply thread_unlocks|by left]. }
  destruct Hi as [Heq|Hi]; [by rewrite Heq|]. eapply rtc_l; [exact Hi|apply IH].
Qed.

(** A step is that of a thread which can move. *)
Lemma tpool_step_at w w' :
  tpool_step w w' → ∃ i p, tp_threads w !! i = Some p ∧ w' = tstep_at w i ∧
    match p with
    | Return _ => False
    | Act _ _ => True
    | Acquire l _ => tp_owners w !! l = None
    | Release l _ => tp_owners w !! l = Some i
    end.
Proof.
  intros [i F X t k ps h s Hi|i l k ps h s Hi Hl|i l k ps h s Hi Hl]; eexists i, _;
    (split; [exact Hi|]); unfold tstep_at; cbn [tp_threads tp_owners tp_state]; rewrite Hi; [done|..].
  - by rewrite Hl.
  - by rewrite bool_decide_eq_true_2.
Qed.

(** The lock each thread holds accounts for the owners of the pool. *)
Definition owners_ok (hs : list (option L)) (h : gmap L nat) : Prop :=
  ∀ l i, h !! l = Some i ↔ hs !! i = Some (Some l).

Lemma owners_ok_idle n : owners_ok (replicate n None) ∅.
Proof.
  intros l i. split; [by rewrite lookup_empty|]. by intros [? _]%lookup_replicate.
Qed.

Lemma owners_ok_acquire hs h i l :
  owners_ok hs h → hs !! i = Some None → h !! l = None →
  owners_ok (<[i := Some l]> hs) (<[l := i]> h).
Proof.
  intros Hok Hi Hl l' j. destruct (decide (l' = l)) as [->|Hne].
  - rewrite lookup_insert_eq. destruct (decide (j = i)) as [->|Hj].
    + rewrite list_lookup_insert_eq by by eapply lookup_lt_Some. done.
    + rewrite list_lookup_insert_ne by done. rewrite <-(Hok l j), Hl. split; [congruence|done].
  - rewrite lookup_insert_ne, (Hok l' j) by done. destruct (decide (j = i)) as [->|Hj].
    + rewrite list_lookup_insert_eq, Hi by by eapply lookup_lt_Some. split; congruence.
    + by rewrite list_lookup_insert_ne.
Qed.

Lemma owners_ok_release hs h i l :
  owners_ok hs h → hs !! i = Some (Some l) → owners_ok (<[i := None]> hs) (delete l h).
Proof.
  intros Hok Hi l' j. pose proof (proj2 (Hok l i) Hi) as Hl.
  destruct (decide (l' = l)) as [->|Hne].
  - rewrite lookup_delete_eq. split; [done|]. destruct (decide (j = i)) as [->|Hj].
    + by rewrite list_lookup_insert_eq by by eapply lookup_lt_Some.
    + rewrite list_lookup_insert_ne by done. rewrite <-(Hok l j). congruence.
  - rewrite lookup_delete_ne, (Hok l' j) by done. destruct (decide (j = i)) as [->|Hj].
    + rewrite list_lookup_insert_eq, Hi by by eapply lookup_lt_Some. split; congruence.
    + by rewrite list_lookup_insert_ne.
Qed.
End pools.
Arguments tpool : clear implicits.
Arguments tpool _ _ _ _ {_ _}.
