(* ===== verification/ThreadsFacts.v ===== *)
(** * ThreadsFacts: what threads that hold one lock at a time guarantee

    A thread alone is its program; threads that take their locks one after the
    other never block each other for good; and threads whose actions respect
    what the others' locks protect run together safely. *)

From S2P Require Import Prelude Interleave InterleaveFacts Threads.
From stdpp Require Import prelude list gmap relations.

(** ** A thread alone *)

Section run_laws.
Context {L S E : Type}.

Lemma trun_tlift {E' A B} (p : prog S E A) (k : outcome E A → thread L S E' B) s :
  trun (tlift p k) s = trun (k (run p s).1) (run p s).2.
Proof. revert s. induction p as [r|F X t c IH]; intros s; [done|apply IH]. Qed.

Lemma trun_locked {E' A B} l (p : prog S E A) (k : outcome E A → thread L S E' B) s :
  trun (locked l p k) s = trun (k (run p s).1) (run p s).2.
Proof. unfold locked. simpl. by rewrite trun_tlift. Qed.

Lemma trun_treport {E' A B} (f : outcome E A → outcome E' B) (p : thread L S E A) s :
  trun (treport f p) s = (f (trun p s).1, (trun p s).2).
Proof. revert s. induction p; intros s; simpl; auto. Qed.

Lemma trun_get_or_init {A B} once (get : S → option A) set (p : prog S E A)
    (k : A → thread L S E B) s :
  trun (get_or_init once get set p k) s =
    match get s with
    | Some a => trun (k a) s
    | None =>
        match run p s with
        | (Ok a, s') => trun (k a) (set a s')
        | (Err e, s') => (Err e, s')
        | (Panic, s') => (Panic, s')
        end
    end.
Proof.
  unfold get_or_init. simpl. destruct (get s) as [a|] eqn:Hg; [done|]. simpl. rewrite Hg.
  rewrite trun_tlift. by destruct (run p s) as [[a|e|] s'].
Qed.
End run_laws.

Lemma trun_tembed {L L' S T E A} (get : S → T) (set : T → S → S) (name : L → L') `{!Lens get set}
    (p : thread L T E A) s :
  trun (tembed get set name p) s = zoom get set (trun p) s.
Proof.
  revert s. induction p as [r|F X t c IH|l k IH|l k IH]; intros s; simpl; [| |apply IH..].
  - unfold zoom. by rewrite set_get.
  - rewrite IH. unfold zoom. destruct (t (get s)) as [r s']. simpl. rewrite get_set.
    destruct (trun (c r) s') as [r' s'']. by rewrite set_set.
Qed.

(** ** One lock at a time *)

(** A thread that holds [h] takes a lock only when it holds none, and has
    released it when it returns. *)
Fixpoint orderly {L S E A} (h : option L) (p : thread L S E A) : Prop :=
  match p with
  | Return _ => h = None
  | Act t k => ∀ r, orderly h (k r)
  | Acquire l k => h = None ∧ orderly (Some l) k
  | Release l k => h = Some l ∧ orderly None k
  end.

Section orderly.
Context {L S E : Type}.
Implicit Types h : option L.

Lemma orderly_tlift {E' A B} h (p : prog S E' A) (k : outcome E' A → thread L S E B) :
  (∀ r, orderly h (k r)) → orderly h (tlift p k).
Proof. intros Hk. induction p as [r|F X t c IH]; [apply Hk|intros r; apply IH]. Qed.

Lemma orderly_locked {E' A B} l (p : prog S E' A) (k : outcome E' A → thread L S E B) :
  (∀ r, orderly None (k r)) → orderly None (locked l p k).
Proof. intros Hk. split; [done|]. apply orderly_tlift. intros r. by split. Qed.

Lemma orderly_get_or_init {A B} once (get : S → option A) set (p : prog S E A)
    (k : A → thread L S E B) :
  (∀ a, orderly None (k a)) → orderly None (get_or_init once get set p k).
Proof.
  intros Hk. assert (orderly None (init_once once get set p k)) as Hi.
  { split; [done|]. assert (orderly (Some once) (tlift p (λ r,
      match r with
      | Ok a => Act (set_once set a) (λ _, Release once (k a))
      | Err e => Release once (Return (Err e))
      | Panic => Release once (Return Panic)
      end))) as Hp.
    { apply orderly_tlift. by intros [a|e|]. }
    by intros [[a|]|e|]. }
  by intros [[a|]|e|].
Qed.

Lemma orderly_treport {E' A B} h (f : outcome E A → outcome E' B) (p : thread L S E A) :
  orderly h p → orderly h (treport f p).
Proof.
  revert h. induction p as [r|F X t k IH|l k IH|l k IH]; intros h Hp; simpl in *;
    [done|intros r; by apply IH|destruct Hp; split; auto..].
Qed.
End orderly.

Lemma orderly_tembed {L L' S T E A} h (get : S → T) (set : T → S → S) (name : L → L')
    (p : thread L T E A) :
  orderly h p → orderly (name <$> h) (tembed get set name p).
Proof.
  revert h. induction p as [r|F X t k IH|l k IH|l k IH]; intros h Hp; simpl in *;
    [by subst|intros r; by apply IH| |]; destruct Hp as [-> Hp]; split; try done; by apply (IH _ Hp).
Qed.

(** *** Every schedule of every pool ends *)

Section termination.
Context {L S E A : Type} `{Countable L}.
Implicit Types p : thread L S E A.

(** What a thread is after its next step, whatever it reads. *)
Definition tnext p (p' : thread L S E A) : Prop :=
  match p with
  | Return _ => False
  | Act t k => ∃ r, p' = k r
  | Acquire _ k | Release _ k => p' = k
  end.

Lemma tnext_sn p : sn tnext p.
Proof.
  induction p as [r|F X t k IH|l k IH|l k IH]; apply Acc_intro; intros q Hq; unfold flip in Hq.
  - destruct Hq.
  - destruct Hq as [r ->]. apply IH.
  - simpl in Hq. subst q. exact IH.
  - simpl in Hq. subst q. exact IH.
Qed.

Definition tnext_one (ps ps' : list (thread L S E A)) : Prop :=
  ∃ i p p', ps !! i = Some p ∧ tnext p p' ∧ ps' = <[i := p']> ps.

Lemma tnext_one_sn ps : sn tnext_one ps.
Proof.
  induction ps as [|p ps IHps]; [constructor; by intros ? (i & p & p' & ? & _)|].
  revert ps IHps. induction (tnext_sn p) as [p _ IHp]. intros ps Hps.
  induction Hps as [ps Hps IHps]. constructor. intros ? (i & q & q' & Hi & Hq & ->).
  destruct i as [|i]; simpl in *.
  - simplify_eq. apply IHp; [exact Hq|by constructor].
  - apply IHps. by exists i, q, q'.
Qed.

Lemma tpool_step_next (w w' : tpool L S E A) :
  tpool_step w w' → tnext_one (tp_threads w) (tp_threads w').
Proof. intros []; eexists _, _, _; (split_and!; simpl; [done| |done]); by try eexists. Qed.

Lemma tpool_sn (w : tpool L S E A) : sn tpool_step w.
Proof.
  remember (tp_threads w) as ps eqn:Hps. revert w Hps. induction (tnext_one_sn ps) as [ps _ IH].
  intros w ->. constructor. intros w' Hw'. eapply IH; [by apply tpool_step_next|done].
Qed.
End termination.

(** *** Pools of orderly threads *)

Section orderly_pools.
Context {L S E A : Type} `{Countable L}.
Implicit Types w : tpool L S E A.

(** [hs] is what each thread holds. *)
Definition pool_orderly (hs : list (option L)) (w : tpool L S E A) : Prop :=
  owners_ok hs (tp_owners w) ∧ length hs = length (tp_threads w) ∧
  ∀ i h p, hs !! i = Some h → tp_threads w !! i = Some p → orderly h p.

Lemma pool_orderly_lookup hs w i p :
  pool_orderly hs w → tp_threads w !! i = Some p → ∃ h, hs !! i = Some h ∧ orderly h p.
Proof.
  intros (_ & Hh & Hall) Hi. apply lookup_lt_Some in Hi as Hlt.
  destruct (lookup_lt_is_Some_2 hs i) as [h Hhi]; [lia|]. exists h. eauto.
Qed.

Lemma pool_orderly_update hs ps o s i h p h' o' s' :
  pool_orderly hs (mk_tpool ps o s) → i < length ps → orderly h' p →
  hs !! i = Some h → owners_ok (<[i := h']> hs) o' →
  pool_orderly (<[i := h']> hs) (mk_tpool (<[i := p]> ps) o' s').
Proof.
  intros (_ & Hh & Hall) Hlt Hp Hi Ho. split; [done|]. simpl in *.
  rewrite !length_insert. split; [done|]. intros j h'' p'.
  destruct (decide (j = i)) as [->|Hj].
  - rewrite !list_lookup_insert_eq by lia. by intros [= <-] [= <-].
  - rewrite !list_lookup_insert_ne by done. apply Hall.
Qed.

Lemma pool_orderly_step hs w w' :
  pool_orderly hs w → tpool_step w w' → ∃ hs', pool_orderly hs' w'.
Proof.
  intros Hw Hstep. destruct Hstep as [i F X t k ps o s Hi|i l k ps o s Hi Hl|i l k ps o s Hi Hl];
    destruct (pool_orderly_lookup hs _ i _ Hw Hi) as (h & Hh & Hp);
    apply lookup_lt_Some in Hi as Hlt; simpl in Hp.
  - exists (<[i := h]> hs). eapply pool_orderly_update; [done|done|apply Hp|done|].
    rewrite list_insert_id by done. apply Hw.
  - destruct Hp as [-> Hp]. exists (<[i := Some l]> hs). eapply pool_orderly_update; [done..|].
    apply owners_ok_acquire; [apply Hw|done..].
  - destruct Hp as [-> Hp]. exists (<[i := None]> hs). eapply pool_orderly_update; [done..|].
    apply owners_ok_release; [apply Hw|done].
Qed.

Lemma pool_orderly_reachable hs w w' :
  pool_orderly hs w → rtc tpool_step w w' → ∃ hs', pool_orderly hs' w'.
Proof.
  intros Hw Hr. revert hs Hw. induction Hr as [w|w1 w2 w3 Hs _ IH]; intros hs Hw; [by exists hs|].
  destruct (pool_orderly_step hs w1 w2 Hw Hs) as [hs2 Hw2]. by apply (IH hs2).
Qed.

(** Who holds a lock waits for none, so it can move. *)
Lemma pool_orderly_holder hs w i l :
  pool_orderly hs w → hs !! i = Some (Some l) → tpool_step w (tstep_at w i).
Proof.
  intros Hw Hl. pose proof Hw as (Ho & Hlen & _). apply lookup_lt_Some in Hl as Hlt.
  destruct (lookup_lt_is_Some_2 (tp_threads w) i) as [p Hp]; [lia|].
  destruct (pool_orderly_lookup hs w i p Hw Hp) as (h & Hh & Hord).
  rewrite Hl in Hh. injection Hh as <-. apply Ho in Hl. destruct w as [ps o s].
  unfold tstep_at. cbn [tp_threads tp_owners tp_state] in *. rewrite Hp.
  destruct p as [r|F X t k|l' k|l' k]; [done|by apply thread_acts|by destruct Hord|].
  destruct Hord as [[= ->] _]. rewrite bool_decide_eq_true_2 by done. by apply thread_unlocks.
Qed.

(** A thread has returned, can move, or waits for one that can. *)
Lemma pool_orderly_waits hs w i p :
  pool_orderly hs w → tp_threads w !! i = Some p →
  returned p ∨ tpool_step w (tstep_at w i) ∨
  ∃ l k j, p = Acquire l k ∧ tp_owners w !! l = Some j ∧ tpool_step w (tstep_at w j).
Proof.
  intros Hw Hi. destruct (pool_orderly_lookup hs w i p Hw Hi) as (h & Hh & Hp).
  destruct p as [r|F X t k|l k|l k]; [by left|right..].
  - left. destruct w as [ps o s]. unfold tstep_at. cbn [tp_threads] in *. rewrite Hi.
    by apply thread_acts.
  - destruct (tp_owners w !! l) as [j|] eqn:Hl.
    + right. exists l, k, j. split_and!; [done..|]. by eapply pool_orderly_holder, Hw.
    + left. destruct w as [ps o s]. unfold tstep_at. cbn [tp_threads tp_owners] in *.
      rewrite Hi, Hl. by apply thread_locks.
  - destruct Hp as [-> _]. left. by eapply pool_orderly_holder.
Qed.

Lemma rtc_length w w' :
  rtc tpool_step w w' → length (tp_threads w) = length (tp_threads w').
Proof.
  induction 1 as [w|w1 w2 w3 Hs _ IH]; [done|]. rewrite <-IH.
  destruct Hs; simpl; by rewrite length_insert.
Qed.

(** Threads that have not returned. *)
Definition pending w i : bool :=
  match tp_threads w !! i with Some (Return _) | None => false | Some _ => true end.

Lemma pending_spec w i : pending w i = true → ∃ p, tp_threads w !! i = Some p ∧ ¬ returned p.
Proof.
  unfold pending. destruct (tp_threads w !! i) as [[]|]; intros; try done;
    (eexists; split; [reflexivity|exact id]).
Qed.

Lemma not_pending w i :
  i < length (tp_threads w) → pending w i = false → ∃ r, tp_threads w !! i = Some (Return r).
Proof.
  intros [p Hp]%lookup_lt_is_Some. unfold pending. rewrite Hp. destruct p as [r| | |]; [by exists r|done..].
Qed.

Lemma none_pending w : (∀ i, pending w i = false) → Forall returned (tp_threads w).
Proof.
  intros Hw. apply Forall_lookup. intros i p Hp. specialize (Hw i). unfold pending in Hw.
  rewrite Hp in Hw. by destruct p.
Qed.

(** *** Threads that share no locks with others *)

(** The thread takes only locks of [P]. *)
Fixpoint tlocks (P : L → Prop) (p : thread L S E A) : Prop :=
  match p with
  | Return _ => True
  | Act t k => ∀ r, tlocks P (k r)
  | Acquire l k => P l ∧ tlocks P k
  | Release l k => tlocks P k
  end.

Definition pool_local (P : nat → L → Prop) w : Prop :=
  (∀ i p, tp_threads w !! i = Some p → tlocks (P i) p) ∧
  (∀ l i, tp_owners w !! l = Some i → P i l).

Lemma pool_local_step P w w' : pool_local P w → tpool_step w w' → pool_local P w'.
Proof.
  intros [Ht Ho] Hstep. assert (∀ i p j q, tlocks (P i) p →
    <[i := p]> (tp_threads w) !! j = Some q → tlocks (P j) q) as Hins.
  { intros i p j q Hp [(-> & -> & _)|[_ Hq]]%list_lookup_insert_Some; [done|by apply Ht]. }
  destruct Hstep as [i F X t k ps o s Hi|i l k ps o s Hi Hl|i l k ps o s Hi Hl];
    specialize (Ht i _ Hi) as Hp; simpl in *; split; simpl.
  - intros j q. apply Hins, Hp.
  - done.
  - intros j q. apply Hins, Hp.
  - intros l' j [[<- <-]|[_ Hj]]%lookup_insert_Some; [apply Hp|by apply Ho].
  - intros j q. apply Hins, Hp.
  - intros l' j [_ Hj]%lookup_delete_Some. by apply Ho.
Qed.

(** The threads that still run, [live], can all return without the others: none
    of those holds a lock that they want. *)
Lemma pool_isolated P live `{!∀ i, Decision (live i)} hs w :
  pool_orderly hs w → pool_local P w →
  (∀ i j l, P i l → P j l → live i → live j) →
  ∃ order, Forall live order ∧ ∀ i, live i → i < length (tp_threads w) →
    ∃ r, tp_threads (tschedule order w) !! i = Some (Return r).
Proof.
  intros Hw Hl HP. cut (∃ order, Forall live order ∧ ∀ i, live i → pending (tschedule order w) i = false).
  { intros (order & Ho & Hd). exists order. split; [done|]. intros i Hi Hlt.
    apply not_pending, Hd, Hi. by rewrite <-(rtc_length _ _ (tschedule_rtc order w)). }
  revert hs Hw Hl. induction (tpool_sn w) as [w _ IH]. intros hs Hw Hl.
  assert (∀ i, live i → tpool_step w (tstep_at w i) →
    ∃ order, Forall live order ∧ ∀ i, live i → pending (tschedule order w) i = false) as Hgo.
  { intros i Hi Hs. destruct (pool_orderly_step hs w _ Hw Hs) as [hs' Hw'].
    destruct (IH _ Hs hs' Hw' (pool_local_step P w _ Hl Hs)) as (order & Ho & Hd).
    exists (i :: order). split; [by constructor|exact Hd]. }
  destruct (decide (Exists (λ i, live i ∧ pending w i = true) (seq 0 (length (tp_threads w)))))
    as [Hex|Hno].
  - apply Exists_exists in Hex as (i & _ & Hi & (p & Hp & Hnr)%pending_spec).
    destruct (pool_orderly_waits hs w i p Hw Hp) as [?|[Hs|(l & k & j & -> & Hj & Hs)]];
      [done|by apply (Hgo i)|]. apply (Hgo j); [|done].
    destruct Hl as [Hlt Hlo]. eapply (HP i j l); [apply (Hlt i _ Hp)|by apply Hlo|done].
  - exists []. split; [constructor|]. intros i Hi. change (tschedule [] w) with w.
    destruct (pending w i) eqn:Hp; [|done]. destruct Hno. apply Exists_exists. exists i.
    split; [|done]. apply pending_spec in Hp as (p & Hp & _). apply lookup_lt_Some in Hp.
    apply elem_of_seq. lia.
Qed.

(** Nobody waits for ever. *)
Lemma pool_orderly_progress hs w :
  pool_orderly hs w → Forall returned (tp_threads w) ∨ ∃ w', tpool_step w w'.
Proof.
  intros Hw. destruct (decide (Exists (λ i, pending w i = true) (seq 0 (length (tp_threads w)))))
    as [Hex|Hno].
  - right. apply Exists_exists in Hex as (i & _ & (p & Hp & Hnr)%pending_spec).
    destruct (pool_orderly_waits hs w i p Hw Hp) as [?|[Hs|(l & k & j & _ & _ & Hs)]]; by eauto.
  - left. apply none_pending. intros i. destruct (pending w i) eqn:Hp; [|done]. destruct Hno.
    apply Exists_exists. exists i. split; [|done]. apply pending_spec in Hp as (p & Hp & _).
    apply lookup_lt_Some in Hp. apply elem_of_seq. lia.
Qed.

(** With nothing left to do, no lock is held. *)
Lemma pool_orderly_returned hs w :
  pool_orderly hs w → Forall returned (tp_threads w) → tp_owners w = ∅.
Proof.
  intros Hw Hret. apply map_eq. intros l. rewrite lookup_empty.
  destruct (tp_owners w !! l) as [i|] eqn:Hl; [|done]. apply (proj1 Hw) in Hl.
  pose proof Hw as (_ & Hlen & _). apply lookup_lt_Some in Hl as Hlt.
  destruct (lookup_lt_is_Some_2 (tp_threads w) i) as [p Hp]; [lia|].
  destruct (pool_orderly_lookup hs w i p Hw Hp) as (h & Hh & Ho).
  rewrite Hl in Hh. injection Hh as <-. rewrite Forall_lookup in Hret. specialize (Hret i p Hp).
  by destruct p.
Qed.

Lemma pool_orderly_completes hs w :
  pool_orderly hs w →
  ∃ w', rtc tpool_step w w' ∧ Forall returned (tp_threads w') ∧ tp_owners w' = ∅.
Proof.
  revert hs. induction (tpool_sn w) as [w _ IH]. intros hs Hw.
  destruct (pool_orderly_progress hs w Hw) as [Hf|[w2 Hw2]].
  - exists w. split_and!; [done|done|by eapply pool_orderly_returned].
  - destruct (pool_orderly_step hs w w2 Hw Hw2) as [hs2 Hn2].
    destruct (IH w2 Hw2 hs2 Hn2) as (w' & Hn & Hf).
    exists w'. split; [by eapply rtc_l|done].
Qed.

Lemma pool_orderly_idle ps s :
  Forall (orderly None) ps → pool_orderly (replicate (length ps) None) (idle ps s).
Proof.
  intros Hall. split_and!; [apply owners_ok_idle|by rewrite length_replicate|].
  intros i h p [-> _]%lookup_replicate Hp. by eapply Forall_lookup_1 in Hall.
Qed.
End orderly_pools.

(** ** Rely and guarantee, with what a lock protects *)

(** What a thread that holds [h] relies on and guarantees. From [s], every action
    of the thread guarantees [G h] as long as the others' steps keep [R h], and
    the thread returns with [Q]. *)
Fixpoint tsafe {L S E A} (R G : option L → S → S → Prop) (Q : outcome E A → S → Prop)
    (h : option L) (p : thread L S E A) (s : S) : Prop :=
  match p with
  | Return r => h = None ∧ ∀ s', R None s s' → Q r s'
  | Act t k => ∀ s', R h s s' → G h s' (t s').2 ∧ tsafe R G Q h (k (t s').1) (t s').2
  | Acquire l k => h = None ∧ ∀ s', R None s s' → tsafe R G Q (Some l) k s'
  | Release l k => h = Some l ∧ ∀ s', R h s s' → tsafe R G Q None k s'
  end.

Section tsafe.
Context {L S E : Type} {R G : option L → S → S → Prop}.
Context `{!∀ h, Reflexive (R h)} `{!∀ h, Transitive (R h)}.

Lemma tsafe_stable {A} (Q : outcome E A → S → Prop) h p s s' :
  tsafe R G Q h p s → R h s s' → tsafe R G Q h p s'.
Proof.
  destruct p as [r|F X t k|l k|l k]; simpl.
  - intros [-> Hp] Hs. split; [done|]. intros s'' Hs''. apply Hp. by etrans.
  - intros Hp Hs s'' Hs''. apply Hp. by etrans.
  - intros [-> Hp] Hs. split; [done|]. intros s'' Hs''. apply Hp. by etrans.
  - intros [-> Hp] Hs. split; [done|]. intros s'' Hs''. apply Hp. by etrans.
Qed.

Lemma tsafe_mono {A} (Q Q' : outcome E A → S → Prop) h p s :
  tsafe R G Q h p s → (∀ r s', Q r s' → Q' r s') → tsafe R G Q' h p s.
Proof.
  intros Hp HQ. revert h s Hp. induction p as [r|F X t k IH|l k IH|l k IH]; simpl; intros h s.
  - intros [-> Hp]. auto.
  - intros Hp s' Hs. destruct (Hp s' Hs). auto.
  - intros [-> Hp]. auto.
  - intros [-> Hp]. auto.
Qed.

(** A program whose transactions keep the conditions of the lock held. *)
Lemma tsafe_tlift {E' A B} (Q1 : outcome E' A → S → Prop) (Q : outcome E B → S → Prop) h
    (p : prog S E' A) k s :
  rg (R h) (G h) Q1 p s →
  (∀ r s', Q1 r s' → tsafe R G Q h (k r) s') → tsafe R G Q h (tlift p k) s.
Proof.
  intros Hp Hk. revert s Hp. induction p as [r|F X t c IH]; simpl; intros s Hp.
  - by apply Hk, Hp.
  - intros s' Hs. destruct (Hp s' Hs) as [Hg Hc]. auto.
Qed.

Lemma tsafe_locked {E' A B} (Q1 : outcome E' A → S → Prop) (Q : outcome E B → S → Prop) l
    (p : prog S E' A) k s :
  (∀ s', R None s s' → rg (R (Some l)) (G (Some l)) Q1 p s') →
  (∀ r s' s'', Q1 r s' → R (Some l) s' s'' → tsafe R G Q None (k r) s'') →
  tsafe R G Q None (locked l p k) s.
Proof.
  intros Hp Hk. split; [done|]. intros s1 Hs1. eapply tsafe_tlift; [by apply Hp|].
  intros r s2 Hr. split; [done|]. eauto.
Qed.

(** A value that one thread at a time initialises: [I] holds whatever the others
    do, and while [once] is held nobody else sets the value. *)
Lemma tsafe_get_or_init {A B} (P : A → Prop) (I : S → Prop) (Q : outcome E B → S → Prop) once get set
    (p : prog S E A) k s :
  (∀ h s s', I s → R h s s' → I s') → (∀ h s, G h s s) →
  (∀ s s', get s = None → R (Some once) s s' → get s' = None) →
  (∀ s a, I s → get s = Some a → P a) →
  (∀ s a, I s → get s = None → P a → G (Some once) s (set a s) ∧ I (set a s)) →
  (∀ s, I s → get s = None → rg (R (Some once)) (G (Some once))
    (λ r s', I s' ∧ get s' = None ∧ ∃ a, r = Ok a ∧ P a) p s) →
  (∀ a s, P a → I s → tsafe R G Q None (k a) s) →
  I s → tsafe R G Q None (get_or_init once get set p k) s.
Proof.
  intros HR Hrefl Hnone Hget Hset Hp Hk HI s1 Hs1. assert (I s1) as HI1 by eauto. simpl.
  split; [by apply Hrefl|]. destruct (get s1) as [a|] eqn:Hg1; [by eapply Hk; eauto|].
  split; [done|]. intros s2 Hs2 s3 Hs3. assert (I s3) as HI3 by eauto. simpl.
  split; [by apply Hrefl|]. destruct (get s3) as [a|] eqn:Hg3.
  { split; [done|]. intros s4 Hs4. eapply Hk; eauto. }
  eapply tsafe_tlift; [by apply Hp|]. intros r s4 (HI4 & Hg4 & a & -> & Ha). simpl.
  intros s5 Hs5. destruct (Hset s5 a) as [HG HI5]; [by eauto..|].
  split; [done|]. split; [done|]. intros s6 Hs6. eapply Hk; eauto.
Qed.

Lemma tsafe_treport {A B E'} (f : outcome E A → outcome E' B) (Q : outcome E' B → S → Prop)
    h (p : thread L S E A) s :
  tsafe R G (λ r, Q (f r)) h p s → tsafe R G Q h (treport f p) s.
Proof.
  revert h s. induction p as [r|F X t k IH|l k IH|l k IH]; simpl; intros h s; [done|..].
  - intros Hp s' Hs. destruct (Hp s' Hs). auto.
  - intros [-> Hp]. auto.
  - intros [-> Hp]. auto.
Qed.
End tsafe.

(** Over a component, and for locks with other names: what the others do to the
    component is what was relied on, and what was guaranteed of it suffices. *)
Lemma tsafe_tembed {L L' S T E A} (R G : option L → T → T → Prop) (R' G' : option L' → S → S → Prop)
    (get : S → T) (set : T → S → S) (name : L → L') (Q : outcome E A → T → Prop) h
    (p : thread L T E A) s :
  (∀ t s, get (set t s) = t) →
  (∀ h s s', R' (name <$> h) s s' → R h (get s) (get s')) →
  (∀ h s t, G h (get s) t → G' (name <$> h) s (set t s)) →
  tsafe R G Q h p (get s) →
  tsafe R' G' (λ r s, Q r (get s)) (name <$> h) (tembed get set name p) s.
Proof.
  intros Hgs HR HG. revert h s. induction p as [r|F X t k IH|l k IH|l k IH]; simpl; intros h s.
  - intros [-> Hp]. split; [done|]. intros s' Hs. by apply Hp, (HR None).
  - intros Hp s' Hs. unfold zoom. specialize (Hp (get s') (HR _ _ _ Hs)).
    destruct (t (get s')) as [r t'] eqn:Ht. simpl in *. destruct Hp as [Hg Hp].
    split; [by apply HG|]. apply IH. by rewrite Hgs.
  - intros [-> Hp]. split; [done|]. intros s' Hs. apply (IH (Some l)), Hp, (HR None), Hs.
  - intros [-> Hp]. split; [done|]. intros s' Hs. apply (IH None), Hp, (HR (Some l)), Hs.
Qed.

(** Threads whose guarantees are within the others' relies, as far as these do
    not hold the same lock, run together as each of them runs alone. *)
Section parallel.
Context {L S E A : Type} `{Countable L} (R G : option L → S → S → Prop).
Context `{∀ h, Reflexive (R h)} `{∀ h, Transitive (R h)}.
Context (Q : nat → outcome E A → S → Prop).
Context (compatible : ∀ h1 h2 s s', (∀ l, h1 = Some l → h2 ≠ Some l) → G h1 s s' → R h2 s s').

Definition pool_tsafe (hs : list (option L)) (w : tpool L S E A) : Prop :=
  owners_ok hs (tp_owners w) ∧ length hs = length (tp_threads w) ∧
  ∀ i h p, hs !! i = Some h → tp_threads w !! i = Some p → tsafe R G (Q i) h p (tp_state w).

Lemma pool_tsafe_lookup hs w i p :
  pool_tsafe hs w → tp_threads w !! i = Some p →
  ∃ h, hs !! i = Some h ∧ tsafe R G (Q i) h p (tp_state w).
Proof.
  intros (_ & Hh & Hall) Hi. apply lookup_lt_Some in Hi as Hlt.
  destruct (lookup_lt_is_Some_2 hs i) as [h Hhi]; [lia|]. exists h. eauto.
Qed.

(** Two threads of a pool hold different locks. *)
Lemma owners_disjoint hs (o : gmap L nat) i j h1 h2 :
  owners_ok hs o → i ≠ j → hs !! i = Some h1 → hs !! j = Some h2 →
  ∀ l, h1 = Some l → h2 ≠ Some l.
Proof.
  intros Ho Hij Hi Hj l -> ->. apply Ho in Hi, Hj. congruence.
Qed.

Lemma pool_tsafe_step hs w w' :
  pool_tsafe hs w → tpool_step w w' →
  ∃ hs', pool_tsafe hs' w' ∧ (tp_state w' = tp_state w ∨ ∃ h, G h (tp_state w) (tp_state w')).
Proof.
  intros Hw Hstep. destruct Hstep as [i F X t k ps o s Hi|i l k ps o s Hi Hl|i l k ps o s Hi Hl];
    destruct (pool_tsafe_lookup hs _ i _ Hw Hi) as (h & Hh & Hp); simpl in Hp, Hi |- *;
    apply lookup_lt_Some in Hi as Hlt; destruct Hw as (Ho & Hlen & Hall); simpl in *.
  - destruct (Hp s) as [Hg Hk]; [done|]. exists hs. split; [|right; by exists h].
    split_and!; cbn [tp_threads tp_owners tp_state]; [done|by rewrite length_insert|].
    intros j h' q Hj.
    intros [(<- & <- & _)|[Hne Hq]]%list_lookup_insert_Some; [by simplify_eq|].
    eapply tsafe_stable; [by eapply Hall|]. eapply compatible; [|done].
    by eapply owners_disjoint.
  - destruct Hp as [-> Hp]. exists (<[i := Some l]> hs). split; [|by left].
    split_and!; cbn [tp_threads tp_owners tp_state];
      [by apply owners_ok_acquire|by rewrite !length_insert|].
    intros j h' q. destruct (decide (j = i)) as [->|Hj].
    + rewrite !list_lookup_insert_eq by lia. intros [= <-] [= <-]. by apply Hp.
    + rewrite !list_lookup_insert_ne by done. apply Hall.
  - destruct Hp as [-> Hp]. exists (<[i := None]> hs). split; [|by left].
    split_and!; cbn [tp_threads tp_owners tp_state];
      [by apply owners_ok_release|by rewrite !length_insert|].
    intros j h' q. destruct (decide (j = i)) as [->|Hj].
    + rewrite !list_lookup_insert_eq by lia. intros [= <-] [= <-]. by apply Hp.
    + rewrite !list_lookup_insert_ne by done. apply Hall.
Qed.

Lemma pool_tsafe_reachable hs w w' :
  pool_tsafe hs w → rtc tpool_step w w' →
  ∃ hs', pool_tsafe hs' w' ∧ rtc (λ s s', ∃ h, G h s s') (tp_state w) (tp_state w').
Proof.
  intros Hw Hr. revert hs Hw. induction Hr as [w|w1 w2 w3 Hs _ IH]; intros hs Hw; [by exists hs|].
  destruct (pool_tsafe_step _ _ _ Hw Hs) as (hs2 & Hw2 & Hg).
  destruct (IH hs2 Hw2) as (hs3 & Hw3 & Hrtc). exists hs3. split; [done|].
  destruct Hg as [<-|Hg]; [done|by eapply rtc_l].
Qed.

Lemma pool_tsafe_idle ps s :
  (∀ i p, ps !! i = Some p → tsafe R G (Q i) None p s) →
  pool_tsafe (replicate (length ps) None) (idle ps s).
Proof.
  intros Hall. split_and!; [apply owners_ok_idle|by rewrite length_replicate|].
  intros i h p [-> _]%lookup_replicate Hp. by apply Hall.
Qed.
End parallel.

(** ** Critical sections *)

(** A thread that is one critical section of [l]: it takes the lock, acts while
    it holds it, and returns when it has released it. *)
Fixpoint in_section {L S E A} (l : L) (p : thread L S E A) : Prop :=
  match p with
  | Return _ | Acquire _ _ => False
  | Act t k => ∀ r, in_section l (k r)
  | Release l' k => l' = l ∧ returned k
  end.
Definition critical {L S E A} (l : L) (p : thread L S E A) : Prop :=
  match p with Acquire l' k => l' = l ∧ in_section l k | _ => False end.

Lemma in_section_tlift {L S E E' A B} l (p : prog S E' A) (k : outcome E' A → thread L S E B) :
  (∀ r, in_section l (k r)) → in_section l (tlift p k).
Proof. intros Hk. induction p as [r|F X t c IH]; [apply Hk|intros r; apply IH]. Qed.

Section serial.
Context {L S E A : Type} `{Countable L} (l : L) (ps : list (thread L S E A)).

(** Some of the threads, one after the other: each runs alone, from the state
    that the one before it left. *)
Inductive serial (s : S) : list (nat * outcome E A) → S → Prop :=
  | serial_nil : serial s [] s
  | serial_snoc tr s1 i p r s2 :
      serial s tr s1 → ps !! i = Some p → trun p s1 = (r, s2) → serial s (tr ++ [(i, r)]) s2.

(** The threads that have returned are those of [tr]; who holds the lock is on
    its way from [s] to where its section takes it; the others have not started. *)
Definition settled (tr : list (nat * outcome E A)) (qs : list (thread L S E A)) (i : nat) : Prop :=
  if decide (i ∈ tr.*1) then ∃ r, (i, r) ∈ tr ∧ qs !! i = Some (Return r) else qs !! i = ps !! i.

Definition serialised (s0 : S) (w : tpool L S E A) : Prop :=
  ∃ tr s, serial s0 tr s ∧ NoDup tr.*1 ∧
    (∀ i, tp_owners w !! l ≠ Some i → settled tr (tp_threads w) i) ∧
    match tp_owners w !! l with
    | None => tp_state w = s
    | Some j => (j ∉ tr.*1) ∧ ∃ p q, ps !! j = Some p ∧ tp_threads w !! j = Some q ∧
        in_section l q ∧ trun q (tp_state w) = trun p s
    end.

Lemma settled_insert tr qs i j q : j ≠ i → settled tr qs i → settled tr (<[j := q]> qs) i.
Proof. intros Hne. unfold settled. by rewrite list_lookup_insert_ne by done. Qed.

Lemma settled_snoc tr qs i j r : j ≠ i → settled tr qs i → settled (tr ++ [(j, r)]) qs i.
Proof.
  intros Hne. unfold settled. rewrite fmap_app. simpl.
  destruct (decide (i ∈ tr.*1)) as [Hi|Hi].
  - rewrite decide_True by (rewrite elem_of_app; by left).
    intros (r' & Hr & Hq). exists r'. split; [|done]. rewrite elem_of_app. by left.
  - rewrite decide_False; [done|]. rewrite elem_of_app, list_elem_of_singleton. intros [?|?]; congruence.
Qed.

Lemma settled_returned tr qs i q :
  settled tr qs i → qs !! i = Some q → i ∈ tr.*1 → ∃ r, q = Return r.
Proof.
  unfold settled. intros Hs Hq Hi. rewrite decide_True in Hs by done.
  destruct Hs as (r & _ & Hr). exists r. congruence.
Qed.
Lemma settled_waiting tr qs i q :
  settled tr qs i → qs !! i = Some q → ¬ returned q → (i ∉ tr.*1) ∧ ps !! i = Some q.
Proof.
  unfold settled. intros Hs Hq Hn. destruct (decide _) as [Hi|Hi].
  - destruct Hs as (r & _ & Hr). rewrite Hq in Hr. by injection Hr as ->.
  - by rewrite <-Hs.
Qed.

Hypothesis Hcritical : Forall (critical l) ps.

Lemma serialised_step s0 w w' : serialised s0 w → tpool_step w w' → serialised s0 w'.
Proof.
  intros (tr & s & Htr & Hnd & Hset & Hown) Hstep. rewrite Forall_lookup in Hcritical.
  destruct Hstep as [i F X t k qs h s1 Hi|i l' k qs h s1 Hi Hl|i l' k qs h s1 Hi Hl];
    cbn [tp_threads tp_owners tp_state] in *; apply lookup_lt_Some in Hi as Hlt.
  - (* only the holder acts *)
    destruct (decide (h !! l = Some i)) as [Hhi|Hhi].
    2: { destruct (settled_waiting _ _ _ _ (Hset i Hhi) Hi) as [_ Hp]; [by intros []|].
         by destruct (Hcritical _ _ Hp). }
    rewrite Hhi in Hown, Hset. destruct Hown as (Hj & p & q & Hp & Hq & Hin & Hrun). simplify_eq.
    exists tr, s. split_and!; [done|done| |].
    + intros j Hne. apply settled_insert; [simpl in Hne; congruence|]. apply Hset. simpl in Hne. congruence.
    + simpl. rewrite Hhi. split; [done|]. exists p, (k (t s1).1).
      split_and!; [done|by apply list_lookup_insert_eq|apply Hin|apply Hrun].
  - (* a thread starts *)
    destruct (decide (h !! l = Some i)) as [Hhi|Hhi].
    { rewrite Hhi in Hown. destruct Hown as (_ & p & q & _ & Hq & Hin & _). by simplify_eq. }
    destruct (settled_waiting _ _ _ _ (Hset i Hhi) Hi) as [Hni Hp]; [by intros []|].
    destruct (Hcritical _ _ Hp) as [-> Hin]. rewrite Hl in Hown. subst s1.
    exists tr, s. split_and!; [done|done| |].
    + intros j Hne. simpl in *. rewrite lookup_insert_eq in Hne.
      apply settled_insert; [congruence|]. apply Hset. congruence.
    + simpl. rewrite lookup_insert_eq. split; [done|]. exists (Acquire l k), k.
      split_and!; [done|by apply list_lookup_insert_eq|done|done].
  - (* the holder is done *)
    destruct (decide (h !! l = Some i)) as [Hhi|Hhi].
    2: { destruct (settled_waiting _ _ _ _ (Hset i Hhi) Hi) as [_ Hp]; [by intros []|].
         by destruct (Hcritical _ _ Hp). }
    rewrite Hhi in Hown, Hset. destruct Hown as (Hj & p & q & Hp & Hq & Hin & Hrun). simplify_eq.
    destruct Hin as [-> Hret]. destruct k as [r| | |]; [|done..].
    exists (tr ++ [(i, r)]), s1. split_and!.
    + eapply serial_snoc; [exact Htr|exact Hp|]. by rewrite <-Hrun.
    + rewrite fmap_app. apply NoDup_app. split_and!; [done| |apply NoDup_singleton].
      intros j Hj' ->%list_elem_of_singleton. done.
    + intros j _. simpl. destruct (decide (j = i)) as [->|Hne].
      * unfold settled. rewrite decide_True.
        2: { rewrite fmap_app, elem_of_app. right. by apply list_elem_of_singleton. }
        exists r. split; [rewrite elem_of_app; right; by apply list_elem_of_singleton|].
        by apply list_lookup_insert_eq.
      * apply settled_insert, settled_snoc, Hset; congruence.
    + simpl. by rewrite lookup_delete_eq.
Qed.

(** A pool of critical sections of one lock is serialisable: when they have all
    returned, their results and the state are those of running them one after the
    other, each alone, in the order in which they held the lock. *)
Lemma critical_sections_serialise s0 w :
  rtc tpool_step (idle ps s0) w → Forall returned (tp_threads w) →
  ∃ tr, serial s0 tr (tp_state w) ∧ (tr.*1 ≡ₚ seq 0 (length ps)) ∧
    ∀ i r, (i, r) ∈ tr → tp_threads w !! i = Some (Return r).
Proof.
  intros Hr Hret. assert (serialised s0 w ∧ length (tp_threads w) = length ps) as [Hw Hlen].
  { remember (idle ps s0) as w0 eqn:Hw0. assert (serialised s0 w0 ∧ length (tp_threads w0) = length ps) as Hs.
    { subst w0. split; [|done]. exists [], s0. split_and!; [constructor|apply NoDup_nil_2| |].
      - intros i _. unfold settled. by rewrite decide_False by by apply not_elem_of_nil.
      - simpl. by rewrite lookup_empty. }
    clear Hw0. induction Hr as [w1|w1 w2 w3 H12 _ IH]; [done|]. apply IH; [done|].
    destruct Hs as [Hs Hl]. split; [by eapply serialised_step|]. rewrite <-Hl.
    destruct H12; simpl; by rewrite length_insert. }
  destruct Hw as (tr & s & Htr & Hnd & Hset & Hown). rewrite Forall_lookup in Hret.
  destruct (tp_owners w !! l) as [j|] eqn:Hj.
  { destruct Hown as (_ & p & q & _ & Hq & Hin & _). specialize (Hret j q Hq). by destruct q. }
  assert (∀ i, i ∈ tr.*1 ↔ i < length ps) as Hdom.
  { intros i. specialize (Hset i ltac:(done)). unfold settled in Hset. split.
    - intros Hi. rewrite decide_True in Hset by done. destruct Hset as (r & _ & Hq%lookup_lt_Some). lia.
    - intros [p Hp]%lookup_lt_is_Some_2. destruct (decide (i ∈ tr.*1)); [done|].
      rewrite Hp in Hset. specialize (Hret i p Hset). rewrite Forall_lookup in Hcritical.
      specialize (Hcritical i p Hp). by destruct p. }
  exists tr. split_and!.
  - by rewrite Hown.
  - apply NoDup_Permutation; [done|apply NoDup_seq|]. intros i. rewrite Hdom, elem_of_seq. lia.
  - intros i r Hir. specialize (Hset i ltac:(done)). unfold settled in Hset.
    assert (i ∈ tr.*1) as Hi by (apply list_elem_of_fmap; by exists (i, r)).
    rewrite decide_True in Hset by done. destruct Hset as (r' & Hr' & Hq).
    assert ((i, r') = (i, r)) as [= ->] by by eapply (NoDup_fmap_inj fst tr). done.
Qed.
End serial.
