(* ===== verification/Buffer.v ===== *)
(** * Buffer: the memory an NSS caller hands to the module

    [buf] is a run of bytes starting at an address; pointers into it are
    addresses. A write outside the run is undefined behaviour, which the model
    keeps as an error of its own so that its absence can be proved. *)

From S2P Require Import Prelude Text.
From stdpp Require Import prelude strings list list_numbers.

Inductive undefined_behaviour := OutOfBounds.

(** The bytes of the caller's buffer, and the address of the first one. *)
Record buffer := mk_buffer { buf_base : Z; buf_bytes : list Z }.

Definition bytes_of (s : string) : list Z := code <$> String.list_ascii_of_string s.

(** [copy_nonoverlapping(src, buf.add(offset), len)] *)
Definition write_bytes (offset : nat) (bs : list Z) : M buffer undefined_behaviour () := λ b,
  if bool_decide (offset + length bs ≤ length (buf_bytes b))
  then (Ok tt, mk_buffer (buf_base b)
    (take offset (buf_bytes b) ++ bs ++ drop (offset + length bs) (buf_bytes b)))
  else (Err OutOfBounds, b).

(** [write_str]: the pointer to the copy and the advanced offset, or [None] when
    the string and its terminator do not fit. *)
Definition write_str (buflen offset : nat) (s : string)
    : M buffer undefined_behaviour (option (Z * nat)) := λ b,
  let needed := String.length s + 1 in
  if bool_decide (buflen < offset + needed) then (Ok None, b)
  else
    (let ptr := (buf_base b + Z.of_nat offset)%Z in
     write_bytes offset (bytes_of s) ;;?
     write_bytes (offset + String.length s) [0%Z] ;;?
     ret (Some (ptr, offset + needed))) b.

Definition pointer_size : nat := 8.
Definition pointer_align : nat := 8.

(** The bytes of a pointer in memory (a little-endian 64-bit target). *)
Definition pointer_bytes (p : Z) : list Z := Z_to_little_endian 8 8 p.

(** [gr_mem.add(i).write_unaligned(ptr)] *)
Definition write_pointer (offset i : nat) (p : Z) : M buffer undefined_behaviour () :=
  write_bytes (offset + i * pointer_size) (pointer_bytes p).

(** ** What the caller reads back *)

(** The C string that starts at an address: the bytes before the first zero. *)
Fixpoint until_nul (bs : list Z) : option (list Z) :=
  match bs with
  | [] => None
  | b :: bs => if bool_decide (b = 0)%Z then Some [] else (b ::.) <$> until_nul bs
  end.

Definition read_c_string (b : buffer) (p : Z) : option (list Z) :=
  if bool_decide (buf_base b ≤ p)%Z
  then until_nul (drop (Z.to_nat (p - buf_base b)) (buf_bytes b)) else None.

Definition read_pointer (b : buffer) (p : Z) : Z :=
  little_endian_to_Z 8
    (take pointer_size (drop (Z.to_nat (p - buf_base b)) (buf_bytes b))).

(** A string as a C program sees it: up to its first NUL. *)
Definition c_string (s : string) : list Z := default [] (until_nul (bytes_of s ++ [0%Z])).

(** ** Lemmas *)

Lemma bytes_of_length s : length (bytes_of s) = String.length s.
Proof.
  unfold bytes_of. rewrite length_fmap. induction s as [|b s IH]; [done|]. simpl. by f_equal.
Qed.

Lemma until_nul_some bs : ∃ l, until_nul (bs ++ [0%Z]) = Some l.
Proof.
  induction bs as [|x bs [l IH]]; [by exists []|]. simpl. case_bool_decide; [by exists []|].
  exists (x :: l). by rewrite IH.
Qed.

Lemma until_nul_terminated bs rest :
  until_nul ((bs ++ [0%Z]) ++ rest) = Some (default [] (until_nul (bs ++ [0%Z]))).
Proof.
  induction bs as [|x bs IH]; [done|]. simpl. case_bool_decide; [done|]. rewrite IH.
  by destruct (until_nul_some bs) as [l ->].
Qed.

(** Without a NUL inside, nothing is cut off. *)
Lemma c_string_exact s : 0%Z ∉ bytes_of s → c_string s = bytes_of s.
Proof.
  unfold c_string. generalize (bytes_of s) as bs. induction bs as [|x bs IH]; [done|].
  rewrite not_elem_of_cons. intros [Hx Hbs]. simpl. rewrite bool_decide_eq_false_2 by done.
  specialize (IH Hbs). destruct (until_nul_some bs) as [l Hl]. rewrite Hl in *. simpl in *.
  by f_equal.
Qed.

(** The buffer [b] with its first bytes replaced by [img]. *)
Definition overlay (b : buffer) (img : list Z) : buffer :=
  mk_buffer (buf_base b) (img ++ drop (length img) (buf_bytes b)).

(** What [write_str] leaves for a list of strings written one after the other. *)
Definition image (ss : list string) : list Z := ss ≫= λ s, bytes_of s ++ [0%Z].

Lemma overlay_nil b : overlay b [] = b.
Proof. by destruct b. Qed.

Lemma overlay_length b img :
  length img ≤ length (buf_bytes b) → length (buf_bytes (overlay b img)) = length (buf_bytes b).
Proof. intros. simpl. rewrite length_app, length_drop. lia. Qed.

Lemma image_app ss1 ss2 : image (ss1 ++ ss2) = image ss1 ++ image ss2.
Proof. apply bind_app. Qed.

Lemma image_cons s ss : image (s :: ss) = (bytes_of s ++ [0%Z]) ++ image ss.
Proof. done. Qed.

Lemma image_singleton s : image [s] = bytes_of s ++ [0%Z].
Proof. unfold image. simpl. by rewrite app_nil_r. Qed.

Lemma write_bytes_overlay b img bs :
  length img + length bs ≤ length (buf_bytes b) →
  write_bytes (length img) bs (overlay b img) = (Ok tt, overlay b (img ++ bs)).
Proof.
  intros Hlen. unfold write_bytes. rewrite overlay_length by lia.
  rewrite bool_decide_eq_true_2 by done. unfold overlay. simpl. do 2 f_equal.
  rewrite take_app_length, (drop_app_ge img) by lia.
  rewrite drop_drop, length_app, <-app_assoc. do 3 f_equal. lia.
Qed.

(** [write_str] appends to the image or, where the string does not fit, leaves
    everything as it is. *)
Lemma write_str_overlay buflen b img s :
  buflen ≤ length (buf_bytes b) →
  write_str buflen (length img) s (overlay b img) =
    if bool_decide (buflen < length img + (String.length s + 1))
    then (Ok None, overlay b img)
    else (Ok (Some ((buf_base b + Z.of_nat (length img))%Z, length (img ++ image [s]))),
          overlay b (img ++ image [s])).
Proof.
  intros Hlen. unfold write_str. case_bool_decide as Hfit; [done|].
  unfold bind at 1. rewrite write_bytes_overlay by (rewrite bytes_of_length; lia).
  unfold bind. rewrite <-(bytes_of_length s) at 1. rewrite <-length_app.
  rewrite write_bytes_overlay by (rewrite length_app, bytes_of_length; simpl; lia).
  unfold ret. rewrite image_singleton, app_assoc. do 4 f_equal.
  rewrite !length_app, bytes_of_length. simpl. lia.
Qed.

(** The caller finds each string where its pointer says. *)
Lemma read_image b img1 s img2 :
  read_c_string (overlay b (img1 ++ image [s] ++ img2)) (buf_base b + Z.of_nat (length img1)) =
    Some (c_string s).
Proof.
  unfold read_c_string. cbn [overlay buf_base buf_bytes]. rewrite bool_decide_eq_true_2 by lia.
  replace (Z.to_nat _) with (length img1) by lia.
  rewrite <-!app_assoc, drop_app_length, image_singleton. apply until_nul_terminated.
Qed.

(** Unused bytes after the image belong to it as well as not. *)
Lemma overlay_slack b img n :
  overlay b (img ++ take n (drop (length img) (buf_bytes b))) = overlay b img.
Proof.
  unfold overlay. f_equal. rewrite <-app_assoc. f_equal. rewrite length_app.
  rewrite <-drop_drop. rewrite length_take.
  set (l := drop (length img) (buf_bytes b)). destruct (decide (n ≤ length l)).
  - rewrite Nat.min_l by lia. apply take_drop.
  - rewrite Nat.min_r by lia. rewrite take_ge by lia. by rewrite drop_all, app_nil_r.
Qed.

Lemma pointer_bytes_length p : length (pointer_bytes p) = pointer_size.
Proof.
  apply Nat2Z.inj. unfold pointer_bytes. by rewrite length_Z_to_little_endian.
Qed.

Lemma read_pointer_image b img1 p img2 :
  is_u64 p →
  read_pointer (overlay b (img1 ++ pointer_bytes p ++ img2))
    (buf_base b + Z.of_nat (length img1)) = p.
Proof.
  intros Hp. unfold read_pointer. cbn [overlay buf_base buf_bytes].
  replace (Z.to_nat _) with (length img1) by lia.
  rewrite <-!app_assoc, drop_app_length.
  rewrite take_app_length' by (by rewrite pointer_bytes_length).
  unfold pointer_bytes. rewrite little_endian_to_Z_to_little_endian by lia.
  apply Z.mod_small. exact Hp.
Qed.
