(* ===== verification/Passwd.v ===== *)
(** * Passwd: packing a user into [struct passwd]
    ([crates/nss_oidc/src/passwd.rs], [fill_passwd_buf] and [write_str]) *)

From S2P Require Import Prelude Text Model Buffer.
From stdpp Require Import prelude strings list.

(** [NssStatus] of [ffi.rs], with its codes. *)
Inductive NssStatus := TryAgain | Unavail | NotFound | Success.

Definition status_code (s : NssStatus) : Z :=
  match s with TryAgain => -2 | Unavail => -1 | NotFound => 0 | Success => 1 end.

#[export] Instance NssStatus_eq_dec : EqDecision NssStatus.
Proof. solve_decision. Defined.

Definition ERANGE : Z := 34.

(** What the caller of an NSS function passes: the buffer, the struct to fill
    and [errno]. *)
Record caller (R : Type) := mk_caller {
  cl_buf : buffer;
  cl_result : R;
  cl_errno : Z;
}.
Arguments mk_caller {R} _ _ _.
Arguments cl_buf {R} _.
Arguments cl_result {R} _.
Arguments cl_errno {R} _.

Definition set_cl_buf {R} (b : buffer) (c : caller R) : caller R :=
  mk_caller b (cl_result c) (cl_errno c).
Definition on_buf {R E A} (m : M buffer E A) : M (caller R) E A := zoom cl_buf set_cl_buf m.
Definition set_errno {R E} (n : Z) : M (caller R) E () := λ c,
  (Ok tt, mk_caller (cl_buf c) (cl_result c) n).
Definition set_result {R E} (r : R) : M (caller R) E () := λ c,
  (Ok tt, mk_caller (cl_buf c) r (cl_errno c)).

Definition buffer_too_small {R E} : M (caller R) E NssStatus :=
  set_errno ERANGE ;;? ret TryAgain.

(** [match write_str(..) { Some(p) => p, None => return buffer_too_small(errnop) }] *)
Definition put_str {R} (buflen offset : nat) (s : string)
    (k : Z → nat → M (caller R) undefined_behaviour NssStatus)
    : M (caller R) undefined_behaviour NssStatus :=
  let? w := on_buf (write_str buflen offset s) in
  match w with
  | Some (p, offset) => k p offset
  | None => buffer_too_small
  end.

Record passwd := mk_passwd {
  pw_name : Z;
  pw_passwd : Z;
  pw_uid : Z;
  pw_gid : Z;
  pw_gecos : Z;
  pw_dir : Z;
  pw_shell : Z;
}.

Definition fill_passwd_buf (user : User) (buflen : nat)
    : M (caller passwd) undefined_behaviour NssStatus :=
  put_str buflen 0 (user_name user) (λ pw_name offset,
  put_str buflen offset "x" (λ pw_passwd offset,
  put_str buflen offset (user_gecos user) (λ pw_gecos offset,
  put_str buflen offset (user_home user) (λ pw_dir offset,
  put_str buflen offset (user_shell user) (λ pw_shell offset,
    set_result (mk_passwd pw_name pw_passwd (user_uid user) (user_gid user)
      pw_gecos pw_dir pw_shell) ;;?
    set_errno 0 ;;?
    ret Success))))).

(** ** Lemmas *)

(** A caller whose buffer is [b] with an image written into it. *)
Definition with_image {R} (b : buffer) (img : list Z) (c : caller R) : caller R :=
  set_cl_buf (overlay b img) c.

Lemma put_str_wp {R} buflen b img s k (Q : outcome undefined_behaviour NssStatus → caller R → Prop) c :
  buflen ≤ length (buf_bytes b) →
  (buflen < length (img ++ image [s]) →
    Q (Ok TryAgain) (mk_caller (overlay b img) (cl_result c) ERANGE)) →
  (length (img ++ image [s]) ≤ buflen →
    wp (k (buf_base b + Z.of_nat (length img))%Z (length (img ++ image [s]))) Q
      (with_image b (img ++ image [s]) c)) →
  wp (put_str buflen (length img) s k) Q (with_image b img c).
Proof.
  intros Hlen Hsmall Hok. assert (Hl : length (img ++ image [s]) =
    length img + (String.length s + 1)).
  { rewrite image_singleton, !length_app, bytes_of_length. simpl. lia. }
  unfold put_str. apply wp_bind, wp_zoom. unfold wp at 1. cbn [cl_buf with_image set_cl_buf].
  rewrite write_str_overlay by done. case_bool_decide; cbn [fst snd and_then].
  - apply Hsmall. lia.
  - apply Hok. lia.
Qed.

Lemma image_length ss : length (image ss) = list_sum ((λ s, String.length s + 1) <$> ss).
Proof.
  induction ss as [|s ss IH]; [done|]. rewrite image_cons, !length_app, IH, bytes_of_length.
  rewrite fmap_cons. simpl. lia.
Qed.

(** The strings of a user, in the order they are packed. *)
Definition passwd_strings (u : User) : list string :=
  [user_name u; "x"; user_gecos u; user_home u; user_shell u].

(** A caller reading the struct finds the user's strings and numbers. *)
Definition passwd_reads (b : buffer) (p : passwd) (u : User) : Prop :=
  read_c_string b (pw_name p) = Some (c_string (user_name u)) ∧
  read_c_string b (pw_passwd p) = Some (c_string "x") ∧
  read_c_string b (pw_gecos p) = Some (c_string (user_gecos u)) ∧
  read_c_string b (pw_dir p) = Some (c_string (user_home u)) ∧
  read_c_string b (pw_shell p) = Some (c_string (user_shell u)) ∧
  pw_uid p = user_uid u ∧ pw_gid p = user_gid u.

(** Nothing outside the first [n] bytes of the buffer has changed. *)
Definition confined (n : nat) (b b' : buffer) : Prop :=
  buf_base b' = buf_base b ∧ length (buf_bytes b') = length (buf_bytes b) ∧
  drop n (buf_bytes b') = drop n (buf_bytes b).

Lemma confined_overlay n b img :
  length img ≤ n → n ≤ length (buf_bytes b) → confined n b (overlay b img).
Proof.
  intros Hi Hn. split_and!; [done|by apply overlay_length; lia|].
  unfold overlay. simpl. rewrite drop_app_ge by lia. rewrite drop_drop. f_equal. lia.
Qed.

(** What the packing functions promise, for the size [needed] of the packed
    data and what [reads] says of the filled struct. *)
Definition packing_post {R} (needed buflen : nat) (reads : buffer → R → Prop) (c : caller R)
    : outcome undefined_behaviour NssStatus → caller R → Prop := λ r c',
  confined buflen (cl_buf c) (cl_buf c') ∧
  if bool_decide (needed ≤ buflen)
  then r = Ok Success ∧ cl_errno c' = 0%Z ∧ reads (cl_buf c') (cl_result c')
  else r = Ok TryAgain ∧ cl_errno c' = ERANGE ∧ cl_result c' = cl_result c.

Lemma packing_too_small {R} needed buflen (reads : buffer → R → Prop) (c : caller R) img :
  buflen ≤ length (buf_bytes (cl_buf c)) → length img ≤ buflen → buflen < needed →
  packing_post needed buflen reads c (Ok TryAgain)
    (mk_caller (overlay (cl_buf c) img) (cl_result c) ERANGE).
Proof.
  intros. split; [by apply confined_overlay|]. by rewrite bool_decide_eq_false_2 by lia.
Qed.

Lemma read_image_at b pre s post :
  read_c_string (overlay b (image (pre ++ s :: post)))
    (buf_base b + Z.of_nat (length (image pre))) = Some (c_string s).
Proof.
  rewrite image_app, image_cons, <-image_singleton. apply read_image.
Qed.

(** One string of a packing, after the strings [pre]. *)
Lemma put_packed_wp {R} needed buflen (reads : buffer → R → Prop) c pre s k :
  buflen ≤ length (buf_bytes (cl_buf c)) →
  length (image pre) ≤ buflen → length (image (pre ++ [s])) ≤ needed →
  (length (image (pre ++ [s])) ≤ buflen →
    wp (k (buf_base (cl_buf c) + Z.of_nat (length (image pre)))%Z (length (image (pre ++ [s]))))
      (packing_post needed buflen reads c) (with_image (cl_buf c) (image (pre ++ [s])) c)) →
  wp (put_str buflen (length (image pre)) s k) (packing_post needed buflen reads c)
    (with_image (cl_buf c) (image pre) c).
Proof.
  rewrite image_app. intros Hlen Hpre Hneeded Hk. apply put_str_wp; [done| |done].
  intros Hs. apply packing_too_small; [done..|lia].
Qed.

Lemma with_image_nil {R} (c : caller R) : with_image (cl_buf c) (image []) c = c.
Proof. unfold with_image. rewrite overlay_nil. by destruct c. Qed.

Lemma fill_passwd_buf_wp user buflen c :
  buflen ≤ length (buf_bytes (cl_buf c)) →
  wp (fill_passwd_buf user buflen)
    (packing_post (length (image (passwd_strings user))) buflen
      (λ b p, passwd_reads b p user) c) c.
Proof.
  intros Hlen. rewrite <-(with_image_nil c) at 2. unfold fill_passwd_buf, passwd_strings.
  set (n := user_name user). set (g := user_gecos user). set (h := user_home user).
  set (sh := user_shell user).
  assert (Hle : ∀ k, length (image (take k [n; "x"; g; h; sh])) ≤ length (image [n; "x"; g; h; sh])).
  { intros k. rewrite <-(take_drop k [n; "x"; g; h; sh]) at 2. rewrite image_app, length_app. lia. }
  apply (put_packed_wp _ _ _ _ [] n); [done|simpl; lia|apply (Hle 1)|intros H1].
  apply (put_packed_wp _ _ _ _ [n] "x"); [done..|apply (Hle 2)|intros H2].
  apply (put_packed_wp _ _ _ _ [n; "x"] g); [done..|apply (Hle 3)|intros H3].
  apply (put_packed_wp _ _ _ _ [n; "x"; g] h); [done..|apply (Hle 4)|intros H4].
  apply (put_packed_wp _ _ _ _ [n; "x"; g; h] sh); [done..|apply (Hle 5)|intros H5].
  split; [by apply confined_overlay|]. rewrite bool_decide_eq_true_2 by exact H5.
  split_and!; [done|done|].
  split_and!; cbn [pw_name pw_passwd pw_gecos pw_dir pw_shell cl_buf cl_result]; try done.
  - apply (read_image_at (cl_buf c) []).
  - apply (read_image_at (cl_buf c) [n]).
  - apply (read_image_at (cl_buf c) [n; "x"]).
  - apply (read_image_at (cl_buf c) [n; "x"; g]).
  - apply (read_image_at (cl_buf c) [n; "x"; g; h]).
Qed.

(** Packing a user never writes outside the [buflen] bytes it was given. It
    succeeds exactly when the five strings with their terminators fit, and the
    caller then reads them and the two ids back through the struct; otherwise
    it answers [TryAgain] with [ERANGE] and leaves the struct as it was. *)
Lemma fill_passwd_buf_spec user buflen c :
  buflen ≤ length (buf_bytes (cl_buf c)) →
  wp (fill_passwd_buf user buflen) (λ r c',
    confined buflen (cl_buf c) (cl_buf c') ∧
    if bool_decide (list_sum ((λ s, String.length s + 1) <$> passwd_strings user) ≤ buflen)
    then r = Ok Success ∧ cl_errno c' = 0%Z ∧ passwd_reads (cl_buf c') (cl_result c') user
    else r = Ok TryAgain ∧ cl_errno c' = ERANGE ∧ cl_result c' = cl_result c) c.
Proof. intros Hlen. rewrite <-image_length. by apply fill_passwd_buf_wp. Qed.

(** ** Witnesses *)

Definition blank {R} (n : nat) (r : R) : caller R := mk_caller (mk_buffer 4096 (repeat 255%Z n)) r 7.
Definition no_passwd : passwd := mk_passwd 0 0 0 0 0 0 0.
Definition packed_user (name : string) : User :=
  mk_user "abc-123" name 200042 200001 "Alice Smith" "/home/alice" "/bin/bash" true.

Lemma fill_passwd_buf_spec_witness :
  wp (fill_passwd_buf (packed_user "alice") 64) (λ r c',
    confined 64 (cl_buf (blank 64 no_passwd)) (cl_buf c') ∧
    r = Ok Success ∧ cl_errno c' = 0%Z ∧
    passwd_reads (cl_buf c') (cl_result c') (packed_user "alice")) (blank 64 no_passwd).
Proof.
  exact (fill_passwd_buf_spec (packed_user "alice") 64 (blank 64 no_passwd) (le_n 64)).
Defined.

(** A name with a NUL inside is read back cut off at it. *)
Example embedded_nul_truncates :
  c_string ("root" +:+ byte_string [0]%Z +:+ "-impostor") = bytes_of "root".
Proof. vm_compute. reflexivity. Qed.
