(* ===== verification/GroupPack.v ===== *)
(** * GroupPack: packing a group into [struct group]
    ([crates/nss_oidc/src/group.rs], [fill_group_buf]) *)

From S2P Require Import Prelude Text Model Buffer Passwd.
From stdpp Require Import prelude strings list.

Record group_struct := mk_group_struct {
  gr_name : Z;
  gr_passwd : Z;
  gr_gid : Z;
  gr_mem : Z;
}.

(** The loop over the members: their pointers and the advanced offset. *)
Fixpoint write_members (buflen offset : nat) (members : list string)
    : M buffer undefined_behaviour (option (list Z * nat)) :=
  match members with
  | [] => ret (Some ([], offset))
  | member :: members =>
      let? w := write_str buflen offset member in
      match w with
      | None => ret None
      | Some (p, offset) =>
          let? ws := write_members buflen offset members in
          match ws with
          | None => ret None
          | Some (ptrs, offset) => ret (Some (p :: ptrs, offset))
          end
      end
  end.

(** [for (i, ptr) in member_ptrs.iter().enumerate()] *)
Fixpoint write_pointers (offset i : nat) (ptrs : list Z) : M buffer undefined_behaviour () :=
  match ptrs with
  | [] => ret tt
  | p :: ptrs => write_pointer offset i p ;;? write_pointers offset (S i) ptrs
  end.

(** [buf.add(offset)] *)
Definition buf_add (offset : nat) : M buffer undefined_behaviour Z := λ b,
  (Ok (buf_base b + Z.of_nat offset)%Z, b).

Definition fill_group_buf (grp : Group) (buflen : nat)
    : M (caller group_struct) undefined_behaviour NssStatus :=
  put_str buflen 0 (group_name grp) (λ gr_name offset,
  put_str buflen offset "x" (λ gr_passwd offset,
    let? w := on_buf (write_members buflen offset (group_members grp)) in
    match w with
    | None => buffer_too_small
    | Some (member_ptrs, offset) =>
        let misalign := offset mod pointer_align in
        let offset :=
          if bool_decide (misalign ≠ 0) then offset + (pointer_align - misalign) else offset in
        let ptrs_needed := (length member_ptrs + 1) * pointer_size in
        if bool_decide (buflen < offset + ptrs_needed) then buffer_too_small
        else
          let? gr_mem := on_buf (buf_add offset) in
          on_buf (write_pointers offset 0 member_ptrs) ;;?
          on_buf (write_pointer offset (length member_ptrs) 0) ;;?
          set_result (mk_group_struct gr_name gr_passwd (group_gid grp) gr_mem) ;;?
          set_errno 0 ;;?
          ret Success
    end)).

(** ** Lemmas *)

(** The addresses at which strings land that are packed after [pre]. *)
Fixpoint addresses (base : Z) (pre ms : list string) : list Z :=
  match ms with
  | [] => []
  | m :: ms => (base + Z.of_nat (length (image pre)))%Z :: addresses base (pre ++ [m]) ms
  end.

Lemma addresses_length base pre ms : length (addresses base pre ms) = length ms.
Proof. revert pre. induction ms as [|m ms IH]; intros pre; simpl; [done|]. by rewrite IH. Qed.

Lemma addresses_lookup base pre ms i m :
  ms !! i = Some m →
  addresses base pre ms !! i =
    Some (base + Z.of_nat (length (image (pre ++ take i ms))))%Z.
Proof.
  revert pre i. induction ms as [|x ms IH]; intros pre [|i]; simpl; [done..|by rewrite app_nil_r|].
  intros Hi. rewrite (IH _ _ Hi). by rewrite <-app_assoc.
Qed.

Lemma write_members_wp buflen b pre ms
    (Q : outcome undefined_behaviour (option (list Z * nat)) → buffer → Prop) :
  buflen ≤ length (buf_bytes b) → length (image pre) ≤ buflen →
  (∀ img, length img ≤ buflen → buflen < length (image (pre ++ ms)) →
    Q (Ok None) (overlay b img)) →
  (length (image (pre ++ ms)) ≤ buflen →
    Q (Ok (Some (addresses (buf_base b) pre ms, length (image (pre ++ ms)))))
      (overlay b (image (pre ++ ms)))) →
  wp (write_members buflen (length (image pre)) ms) Q (overlay b (image pre)).
Proof.
  intros Hlen. revert pre Q. induction ms as [|m ms IH]; intros pre Q Hpre Hsmall Hok; simpl.
  { apply wp_ret. rewrite app_nil_r in Hok. by apply Hok. }
  assert (Hm : length (image (pre ++ [m])) = length (image pre) + (String.length m + 1)).
  { rewrite image_app, image_singleton, !length_app, bytes_of_length. simpl. lia. }
  assert (Hall : image (pre ++ m :: ms) = image ((pre ++ [m]) ++ ms)) by by rewrite <-app_assoc.
  rewrite Hall in *. assert (Hgrow : length (image (pre ++ [m])) ≤ length (image ((pre ++ [m]) ++ ms))).
  { rewrite (image_app (pre ++ [m])), length_app. lia. }
  apply wp_bind. unfold wp at 1. rewrite write_str_overlay by done.
  rewrite <-image_app. case_bool_decide as Hfit; cbn [fst snd and_then].
  { apply wp_ret, Hsmall; lia. }
  apply wp_bind, IH; [lia| |].
  - intros img Himg Hbig. cbn [and_then]. by apply wp_ret, Hsmall.
  - intros Hfits. cbn [and_then]. by apply wp_ret, Hok.
Qed.

Definition pointer_image (ptrs : list Z) : list Z := ptrs ≫= pointer_bytes.

Lemma pointer_image_length ptrs : length (pointer_image ptrs) = length ptrs * pointer_size.
Proof.
  unfold pointer_image. induction ptrs as [|p ptrs IH]; [done|].
  cbn [mbind list_bind] in *. rewrite length_app, pointer_bytes_length, IH. simpl. lia.
Qed.

Lemma pointer_image_app l1 l2 : pointer_image (l1 ++ l2) = pointer_image l1 ++ pointer_image l2.
Proof. apply bind_app. Qed.

Lemma write_pointer_overlay b img ptrs p :
  length img + (length ptrs + 1) * pointer_size ≤ length (buf_bytes b) →
  write_pointer (length img) (length ptrs) p (overlay b (img ++ pointer_image ptrs)) =
    (Ok tt, overlay b (img ++ pointer_image (ptrs ++ [p]))).
Proof.
  intros Hlen. unfold write_pointer. rewrite <-pointer_image_length, <-length_app.
  rewrite write_bytes_overlay
    by (rewrite length_app, pointer_image_length, pointer_bytes_length; lia).
  rewrite pointer_image_app, <-app_assoc.
  change (pointer_image [p]) with (pointer_bytes p ++ []). by rewrite app_nil_r.
Qed.

Lemma write_pointers_overlay b img done_ ptrs :
  length img + (length done_ + length ptrs) * pointer_size ≤ length (buf_bytes b) →
  write_pointers (length img) (length done_) ptrs (overlay b (img ++ pointer_image done_)) =
    (Ok tt, overlay b (img ++ pointer_image (done_ ++ ptrs))).
Proof.
  revert done_. induction ptrs as [|p ptrs IH]; intros done_ Hlen; simpl.
  { by rewrite app_nil_r. }
  simpl in Hlen. unfold bind. rewrite write_pointer_overlay by lia.
  replace (S (length done_)) with (length (done_ ++ [p])) by (rewrite length_app; simpl; lia).
  rewrite IH by (rewrite length_app; simpl; lia). by rewrite <-app_assoc.
Qed.

(** The strings of a group, and the size of its packing. *)
Definition group_strings (g : Group) : list string := group_name g :: "x" :: group_members g.

Definition align_up (n : nat) : nat :=
  if bool_decide (n mod pointer_align ≠ 0) then n + (pointer_align - n mod pointer_align) else n.

Definition group_size (g : Group) : nat :=
  align_up (length (image (group_strings g))) + (length (group_members g) + 1) * pointer_size.

(** A caller reading the struct finds the name, the gid, and an array of
    pointers to the members that a null pointer ends. *)
Definition group_reads (b : buffer) (s : group_struct) (g : Group) : Prop :=
  read_c_string b (gr_name s) = Some (c_string (group_name g)) ∧
  read_c_string b (gr_passwd s) = Some (c_string "x") ∧
  gr_gid s = group_gid g ∧
  (∀ i m, group_members g !! i = Some m →
    read_c_string b (read_pointer b (gr_mem s + Z.of_nat (i * pointer_size))) = Some (c_string m)) ∧
  read_pointer b (gr_mem s + Z.of_nat (length (group_members g) * pointer_size)) = 0%Z.

Lemma align_up_ge n : n ≤ align_up n.
Proof. unfold align_up. case_bool_decide; lia. Qed.

Lemma read_image_more b pre s post tail :
  read_c_string (overlay b (image (pre ++ s :: post) ++ tail))
    (buf_base b + Z.of_nat (length (image pre))) = Some (c_string s).
Proof.
  rewrite image_app, image_cons, <-image_singleton, <-!app_assoc. apply read_image.
Qed.

Lemma read_pointer_at b img ptrs i p tail :
  is_u64 p → ptrs !! i = Some p →
  read_pointer (overlay b (img ++ pointer_image ptrs ++ tail))
    (buf_base b + Z.of_nat (length img) + Z.of_nat (i * pointer_size)) = p.
Proof.
  intros Hp Hi. rewrite <-(take_drop_middle ptrs i p Hi), pointer_image_app.
  change (pointer_image (p :: drop (S i) ptrs)) with
    (pointer_bytes p ++ pointer_image (drop (S i) ptrs)).
  rewrite <-!app_assoc, app_assoc.
  replace (buf_base b + Z.of_nat (length img) + Z.of_nat (i * pointer_size))%Z with
    (buf_base b + Z.of_nat (length (img ++ pointer_image (take i ptrs))))%Z.
  - by apply read_pointer_image.
  - apply lookup_lt_Some in Hi.
    rewrite length_app, pointer_image_length, length_take, Nat.min_l by lia. lia.
Qed.

(** What the finished buffer holds. *)
Definition group_image (b : buffer) (g : Group) : list Z :=
  let strs := image (group_strings g) in
  strs ++ take (align_up (length strs) - length strs) (drop (length strs) (buf_bytes b)) ++
  pointer_image (addresses (buf_base b) [group_name g; "x"] (group_members g) ++ [0%Z]).

Lemma group_image_reads b g gr_name_at gr_passwd_at gr_mem_at :
  group_size g ≤ length (buf_bytes b) →
  (0 ≤ buf_base b)%Z → (buf_base b + Z.of_nat (length (buf_bytes b)) ≤ u64_modulus)%Z →
  gr_name_at = (buf_base b + Z.of_nat (length (image [])))%Z →
  gr_passwd_at = (buf_base b + Z.of_nat (length (image [group_name g])))%Z →
  gr_mem_at = (buf_base b + Z.of_nat (align_up (length (image (group_strings g)))))%Z →
  group_reads (overlay b (group_image b g))
    (mk_group_struct gr_name_at gr_passwd_at (group_gid g) gr_mem_at) g.
Proof.
  intros Hsize Hbase Htop -> -> ->. unfold group_image.
  set (strs := image (group_strings g)). set (ms := group_members g).
  set (slack := take _ _). set (ptrs := addresses _ _ _).
  assert (Hslack : length (strs ++ slack) = align_up (length strs)).
  { pose proof (align_up_ge (length strs)). unfold slack, group_size in *. fold strs in Hsize.
    rewrite length_app, length_take, length_drop. lia. }
  assert (Hptr : ∀ i m, ms !! i = Some m → ptrs !! i = Some (buf_base b +
    Z.of_nat (length (image ([group_name g; "x"] ++ take i ms))))%Z)
    by (intros i m; apply addresses_lookup).
  split_and!; cbn [gr_name gr_passwd gr_gid gr_mem].
  - apply (read_image_more b [] (group_name g)).
  - apply (read_image_more b [group_name g] "x").
  - done.
  - intros i m Hm. specialize (Hptr i m Hm). rewrite <-Hslack, pointer_image_app, app_assoc.
    erewrite read_pointer_at; [| |exact Hptr].
    + rewrite <-app_assoc. unfold strs, group_strings. fold ms.
      replace (group_name g :: "x" :: ms) with
        (([group_name g; "x"] ++ take i ms) ++ m :: drop (S i) ms)
        by (by rewrite <-app_assoc, take_drop_middle).
      apply (read_image_more b ([group_name g; "x"] ++ take i ms) m).
    + assert (length (image ([group_name g; "x"] ++ take i ms)) ≤ length strs).
      { unfold strs, group_strings. fold ms. rewrite <-(take_drop i ms) at 2.
        replace (group_name g :: "x" :: take i ms ++ drop i ms) with
          (([group_name g; "x"] ++ take i ms) ++ drop i ms) by (by rewrite <-app_assoc).
        rewrite (image_app (_ ++ take i ms) (drop i ms)), length_app. lia. }
      pose proof (align_up_ge (length strs)). unfold group_size in Hsize. fold strs in Hsize.
      unfold is_u64, pointer_size in *. lia.
  - rewrite <-Hslack, app_assoc.
    fold ms. replace (length ms) with (length ptrs) by apply addresses_length.
    rewrite <-(app_nil_r (pointer_image _)).
    apply read_pointer_at; [by unfold is_u64, u64_modulus; lia|]. exact (list_lookup_middle ptrs [] 0%Z _ eq_refl).
Qed.

(** The array of pointers, its null pointer included, goes after the slack that
    aligns it. *)
Lemma write_array b g :
  group_size g ≤ length (buf_bytes b) →
  let strs := image (group_strings g) in
  let ptrs := addresses (buf_base b) [group_name g; "x"] (group_members g) in
  (write_pointers (align_up (length strs)) 0 ptrs ;;?
   write_pointer (align_up (length strs)) (length ptrs) 0) (overlay b strs) =
    (Ok tt, overlay b (group_image b g)).
Proof.
  intros Hsize strs ptrs. unfold group_image. fold strs ptrs. set (slack := take _ _).
  pose proof (align_up_ge (length strs)) as Hge. unfold group_size in Hsize. fold strs in Hsize.
  assert (Hslack : length (strs ++ slack) = align_up (length strs)).
  { unfold slack. rewrite length_app, length_take, length_drop. lia. }
  assert (Hptrs : length ptrs = length (group_members g)) by apply addresses_length.
  rewrite <-(overlay_slack b strs (align_up (length strs) - length strs)). fold slack.
  pose proof (write_pointers_overlay b (strs ++ slack) [] ptrs) as H1.
  pose proof (write_pointer_overlay b (strs ++ slack) ptrs 0) as H2.
  change (pointer_image []) with (@nil Z) in H1. rewrite app_nil_r, Hslack in H1. cbn [length] in H1.
  rewrite Hslack, Hptrs in H2. unfold bind.
  rewrite H1 by (rewrite Hptrs; unfold pointer_size in *; simpl; lia).
  cbn [app]. rewrite Hptrs, H2 by lia. by rewrite <-app_assoc.
Qed.

Lemma fill_group_buf_wp grp buflen c :
  buflen ≤ length (buf_bytes (cl_buf c)) → (0 ≤ buf_base (cl_buf c))%Z →
  (buf_base (cl_buf c) + Z.of_nat (length (buf_bytes (cl_buf c))) ≤ u64_modulus)%Z →
  wp (fill_group_buf grp buflen)
    (packing_post (group_size grp) buflen (λ b s, group_reads b s grp) c) c.
Proof.
  intros Hlen Hbase Htop. rewrite <-(with_image_nil c) at 2. unfold fill_group_buf.
  set (n := group_name grp). set (ms := group_members grp).
  pose proof (align_up_ge (length (image (group_strings grp)))) as Halign.
  assert (Hle : ∀ k, length (image (take k (n :: "x" :: ms))) ≤ group_size grp).
  { intros k. unfold group_size. transitivity (length (image (n :: "x" :: ms))).
    - rewrite <-(take_drop k (n :: "x" :: ms)) at 2. rewrite image_app, length_app. lia.
    - unfold group_strings in *. fold n ms in Halign. fold n ms. lia. }
  apply (put_packed_wp _ _ _ _ [] n); [done|simpl; lia|apply (Hle 1)|intros H1].
  apply (put_packed_wp _ _ _ _ [n] "x"); [done..|apply (Hle 2)|intros H2].
  apply wp_bind, wp_zoom. cbn [cl_buf with_image set_cl_buf].
  apply (write_members_wp buflen (cl_buf c) [n; "x"] ms); [done..| |].
  - intros img Himg Hbig. cbn [and_then].
    apply (packing_too_small (group_size grp) buflen _ c img); [done..|].
    pose proof (Hle (length (n :: "x" :: ms))) as Hn. rewrite take_ge in Hn by done.
    cbn [app] in Hbig. lia.
  - change ([n; "x"] ++ ms) with (group_strings grp). intros Hfit. cbn [and_then]. cbv zeta.
    rewrite addresses_length. fold (align_up (length (image (group_strings grp)))).
    change (align_up (length (image (group_strings grp))) + (length ms + 1) * pointer_size)
      with (group_size grp). case_bool_decide as Hsize.
    { by apply (packing_too_small (group_size grp) buflen _ c (image (group_strings grp))). }
    pose proof (write_array (cl_buf c) grp ltac:(lia)) as Hw. cbv zeta in Hw.
    rewrite addresses_length in Hw. unfold wp, bind, on_buf, zoom, buf_add in *.
    cbn [cl_buf set_cl_buf with_image] in *. fold n ms in Hw.
    destruct (write_pointers _ _ _ _) as [[[]|e|] b1]; [|done|done].
    cbn [cl_buf set_cl_buf] in *. rewrite Hw. cbn [fst snd cl_buf cl_result set_result set_errno ret].
    split; cbn [cl_buf cl_errno cl_result].
    + apply confined_overlay; [|done]. unfold group_image. rewrite !length_app.
      rewrite pointer_image_length, length_app, addresses_length, length_take, length_drop.
      unfold group_size, pointer_size in *. cbn [length]. lia.
    + rewrite bool_decide_eq_true_2 by lia. split_and!; [done..|].
      by apply group_image_reads; [lia|..].
Qed.

(** C13: packing a group never writes outside the [buflen] bytes it was given.
    It succeeds exactly when the strings, the alignment and the array of
    pointers with its null pointer fit, and the caller then reads the name, the
    gid and every member back through the struct; otherwise it answers
    [TryAgain] with [ERANGE] and leaves the struct as it was. *)
Theorem fill_group_buf_spec grp buflen c :
  buflen ≤ length (buf_bytes (cl_buf c)) → (0 ≤ buf_base (cl_buf c))%Z →
  (buf_base (cl_buf c) + Z.of_nat (length (buf_bytes (cl_buf c))) ≤ u64_modulus)%Z →
  wp (fill_group_buf grp buflen) (λ r c',
    confined buflen (cl_buf c) (cl_buf c') ∧
    if bool_decide (align_up (list_sum ((λ s, String.length s + 1) <$> group_strings grp))
         + (length (group_members grp) + 1) * pointer_size ≤ buflen)
    then r = Ok Success ∧ cl_errno c' = 0%Z ∧ group_reads (cl_buf c') (cl_result c') grp
    else r = Ok TryAgain ∧ cl_errno c' = ERANGE ∧ cl_result c' = cl_result c) c.
Proof. intros. rewrite <-image_length. by apply fill_group_buf_wp. Qed.

(** ** Witnesses *)

Definition no_group : group_struct := mk_group_struct 0 0 0 0.
Definition packed_group : Group := mk_group "grp-456" "engineering" 200010 ["alice"; "bob"].

Lemma fill_group_buf_spec_witness :
  wp (fill_group_buf packed_group 48) (λ r c',
    confined 48 (cl_buf (blank 48 no_group)) (cl_buf c') ∧
    r = Ok Success ∧ cl_errno c' = 0%Z ∧
    group_reads (cl_buf c') (cl_result c') packed_group) (blank 48 no_group).
Proof.
  apply (fill_group_buf_spec packed_group 48 (blank 48 no_group)); vm_compute; congruence || lia.
Defined.

Example packed_group_needs_48 :
  (fill_group_buf packed_group 47 (blank 47 no_group)).1 = Ok TryAgain.
Proof. vm_compute. reflexivity. Qed.
