(* ===== verification/Nss.v ===== *)
(** * Nss: the NSS module ([crates/nss_oidc/src/state.rs], [ffi.rs], and the
    [by_name], [by_uid] and [by_gid] of [passwd.rs] and [group.rs]) *)

From S2P Require Import Prelude Text Model Value Mapping Fs Http Sql Cache Scim Config Service.
From S2P Require Import Buffer Passwd GroupPack.
From stdpp Require Import prelude strings list.

Record NssState := mk_nss_state {
  ns_scim : ScimClient;
  ns_service : Service;
}.

(** The mutexes: around the service, and around the two enumerations. *)
Inductive nss_lock := ServiceLock | UserEnumLock | GroupEnumLock.

(** The module in its host process: the outside world and the statics [STATE],
    [USER_ENUM] and [GROUP_ENUM]. *)
Record nss := mk_nss {
  nss_fs : filesystem;
  nss_net : net;
  nss_db : db;
  nss_state : option (option NssState);
  nss_users : option (list User * nat);
  nss_groups : option (list Group * nat);
  nss_poisoned : nss_lock → bool;
}.

Definition set_storage (s : storage) (w : nss) : nss :=
  mk_nss (st_fs s) (nss_net w) (st_db s) (nss_state w) (nss_users w) (nss_groups w) (nss_poisoned w).
Definition set_backend (b : backend) (w : nss) : nss :=
  mk_nss (nss_fs w) (bk_net b) (bk_db b) (nss_state w) (nss_users w) (nss_groups w) (nss_poisoned w).
Definition set_state (st : option NssState) (w : nss) : nss :=
  mk_nss (nss_fs w) (nss_net w) (nss_db w) (Some st) (nss_users w) (nss_groups w) (nss_poisoned w).
Definition set_users (u : option (list User * nat)) (w : nss) : nss :=
  mk_nss (nss_fs w) (nss_net w) (nss_db w) (nss_state w) u (nss_groups w) (nss_poisoned w).
Definition set_groups (g : option (list Group * nat)) (w : nss) : nss :=
  mk_nss (nss_fs w) (nss_net w) (nss_db w) (nss_state w) (nss_users w) g (nss_poisoned w).
Definition on_storage {E A} (m : M storage E A) : M nss E A :=
  zoom (λ w, mk_storage (nss_fs w) (nss_db w)) set_storage m.
Definition on_backend {E A} (m : M backend E A) : M nss E A :=
  zoom (λ w, mk_backend (nss_net w) (nss_db w)) set_backend m.

(** A call: the module, and what the caller passed by pointer. *)
Record call (C : Type) := mk_call { call_nss : nss; call_args : C }.
Arguments mk_call {C} _ _.
Arguments call_nss {C} _.
Arguments call_args {C} _.
Definition set_nss {C} (w : nss) (c : call C) : call C := mk_call w (call_args c).
Definition set_args {C} (a : C) (c : call C) : call C := mk_call (call_nss c) a.
Definition on_nss {C E A} (m : M nss E A) : M (call C) E A := zoom call_nss set_nss m.
Definition on_args {C E A} (m : M C E A) : M (call C) E A := zoom call_args set_args m.

Section nss.
Context `{World} `{JsonParser} `{PercentEncoding} `{Sqlite} `{BuildProfile} `{Murmur3}.
Context `{Os} `{TomlParser} `{Env} `{SqliteFile}.

(** The closure of [STATE.get_or_init]. *)
Definition init_state {E} : M nss E (option NssState) :=
  try_with (on_storage (zoom st_fs set_fs load))
    (λ config,
      let base_url := cfg_base_url (cfg_scim config) in
      let bearer_token := cfg_bearer_token (cfg_scim config) in
      let scim := ScimClient_new base_url bearer_token in
      try_with (on_storage (open (cfg_db_path (cfg_cache config)) (cfg_ttl_seconds (cfg_cache config))))
        (λ cache,
          let svc_scim := ScimClient_new base_url bearer_token in
          let? svc := on_backend (on_db (Service_new config svc_scim cache)) in
          ret (Some (mk_nss_state scim svc)))
        (λ _, ret None))
    (λ _, ret None).

Definition get_state {E} : M nss E (option NssState) := λ w,
  match nss_state w with
  | Some st => (Ok st, w)
  | None => (let? st := init_state in λ w, (Ok st, set_state st w)) w
  end.

(** [mutex.lock()]: an error when the mutex is poisoned. *)
Definition lock {E} (l : nss_lock) : M nss E bool := λ w, (Ok (negb (nss_poisoned w l)), w).

Section lookups.
Context {C : Type} (set_errno_0 : M C undefined_behaviour ()).

Definition return_ (s : NssStatus) : M (call C) undefined_behaviour NssStatus :=
  on_args set_errno_0 ;;? ret s.

(** The state and the locked service, or [Unavail]. *)
Definition with_service (k : NssState → M (call C) undefined_behaviour NssStatus)
    : M (call C) undefined_behaviour NssStatus :=
  let? st := on_nss get_state in
  match st with
  | None => return_ Unavail
  | Some st =>
      let? locked := on_nss (lock ServiceLock) in
      if locked then k st else return_ Unavail
  end.

(** [match svc.lookup(..) { Ok(Some(x)) => fill, Ok(None) => .., Err(e) => .. }] *)
Definition answer {A} (lookup : M backend ServiceError (option A))
    (fill : A → M C undefined_behaviour NssStatus) : M (call C) undefined_behaviour NssStatus :=
  try_with (on_nss (on_backend lookup))
    (λ found,
      match found with
      | Some x => on_args (fill x)
      | None => return_ NotFound
      end)
    (λ _, return_ Unavail).
End lookups.

Definition passwd_by_name (name : string) (buflen : nat)
    : M (call (caller passwd)) undefined_behaviour NssStatus :=
  if negb (valid_utf8 name) then return_ (set_errno 0) NotFound
  else with_service (set_errno 0) (λ state,
    answer (set_errno 0) (lookup_user_by_name (ns_service state) name)
      (λ user, fill_passwd_buf user buflen)).

Definition passwd_by_uid (uid : Z) (buflen : nat)
    : M (call (caller passwd)) undefined_behaviour NssStatus :=
  with_service (set_errno 0) (λ state,
    answer (set_errno 0) (lookup_user_by_uid (ns_service state) uid)
      (λ user, fill_passwd_buf user buflen)).

Definition group_by_name (name : string) (buflen : nat)
    : M (call (caller group_struct)) undefined_behaviour NssStatus :=
  if negb (valid_utf8 name) then return_ (set_errno 0) NotFound
  else with_service (set_errno 0) (λ state,
    answer (set_errno 0) (lookup_group_by_name (ns_service state) name)
      (λ grp, fill_group_buf grp buflen)).

Definition group_by_gid (gid : Z) (buflen : nat)
    : M (call (caller group_struct)) undefined_behaviour NssStatus :=
  with_service (set_errno 0) (λ state,
    answer (set_errno 0) (lookup_group_by_gid (ns_service state) gid)
      (λ grp, fill_group_buf grp buflen)).

Definition nss_oidc_getpwnam_r := passwd_by_name.
Definition nss_oidc_getpwuid_r := passwd_by_uid.
Definition nss_oidc_getgrnam_r := group_by_name.
Definition nss_oidc_getgrgid_r := group_by_gid.
End nss.

(** ** Supplementary groups *)

(** The caller's array of gids, its fill and its size. *)
Record group_array := mk_group_array {
  ga_groups : list Z;
  ga_start : Z;
  ga_size : Z;
  ga_errno : Z;
}.

Definition ga_set_errno (n : Z) : M group_array undefined_behaviour () := λ a,
  (Ok tt, mk_group_array (ga_groups a) (ga_start a) (ga_size a) n).

(** [z as usize] *)
Definition as_usize (z : Z) : nat := Z.to_nat (z `mod` u64_modulus).

(** The scan of the first entries, from [i] on with [n] still to look at. *)
Fixpoint already_present (groups : list Z) (gid : Z) (n i : nat) : outcome undefined_behaviour bool :=
  match n with
  | O => Ok false
  | S n =>
      match groups !! i with
      | None => Err OutOfBounds
      | Some g => if bool_decide (g = gid) then Ok true else already_present groups gid n (S i)
      end
  end.

(** [*groups_buf.add(i) = gid] *)
Definition write_gid (i : nat) (gid : Z) : M group_array undefined_behaviour () := λ a,
  if bool_decide (i < length (ga_groups a))
  then (Ok tt, mk_group_array (<[i := gid]> (ga_groups a)) (ga_start a) (ga_size a) (ga_errno a))
  else (Err OutOfBounds, a).

Definition set_start (n : Z) : M group_array undefined_behaviour () := λ a,
  (Ok tt, mk_group_array (ga_groups a) n (ga_size a) (ga_errno a)).

Definition get_array : M group_array undefined_behaviour group_array := λ a, (Ok a, a).

(** The loop over the gids; [cur_size] is the size read before it. *)
Fixpoint add_groups `{BuildProfile} (group : Z) (cur_size : nat) (gids : list Z)
    : M group_array undefined_behaviour NssStatus :=
  match gids with
  | [] => ga_set_errno 0 ;;? ret Success
  | gid :: gids =>
      if bool_decide (gid = group) then add_groups group cur_size gids
      else
        let? a := get_array in
        let? present := of_outcome (already_present (ga_groups a) gid (as_usize (ga_start a)) 0) in
        if present then add_groups group cur_size gids
        else if bool_decide (cur_size ≤ as_usize (ga_start a))
        then ga_set_errno ERANGE ;;? ret TryAgain
        else
          write_gid (as_usize (ga_start a)) gid ;;?
          let? start := i64_add (ga_start a) 1 in
          set_start start ;;?
          add_groups group cur_size gids
  end.

Definition nss_oidc_initgroups_dyn `{World} `{JsonParser} `{PercentEncoding} `{Sqlite}
    `{BuildProfile} `{Murmur3} `{Os} `{TomlParser} `{Env} `{SqliteFile} (user : string) (group : Z)
    : M (call group_array) undefined_behaviour NssStatus :=
  if negb (valid_utf8 user) then return_ (ga_set_errno 0) NotFound
  else with_service (ga_set_errno 0) (λ state,
    try_with (on_nss (on_backend (lookup_groups_for_user (ns_service state) user)))
      (λ gids, on_args (
        let? a := get_array in add_groups group (as_usize (ga_size a)) gids))
      (λ _, return_ (ga_set_errno 0) Unavail)).

(** ** Enumeration *)

Section enumeration.
Context `{World} `{JsonParser} `{PercentEncoding} `{Sqlite} `{BuildProfile} `{Murmur3}.
Context `{Os} `{TomlParser} `{Env} `{SqliteFile}.

(** The loop of [setpwent]: what fails to convert is skipped, and a failure to
    store is ignored. *)
Fixpoint convert_users {E} (svc : Service) (scim_users : list ScimUser) : M backend E (list User) :=
  match scim_users with
  | [] => ret []
  | su :: scim_users =>
      try_with (scim_user_to_model svc su)
        (λ user,
          try_with (on_db (store_user user)) (λ _, ret tt) (λ _, ret tt) ;;?
          let? users := convert_users svc scim_users in
          ret (user :: users))
        (λ _, convert_users svc scim_users)
  end.

Fixpoint convert_groups {E} (svc : Service) (scim_groups : list ScimGroup) : M backend E (list Group) :=
  match scim_groups with
  | [] => ret []
  | sg :: scim_groups =>
      try_with (scim_group_to_model svc sg)
        (λ group,
          try_with (on_db (store_group group)) (λ _, ret tt) (λ _, ret tt) ;;?
          let? groups := convert_groups svc scim_groups in
          ret (group :: groups))
        (λ _, convert_groups svc scim_groups)
  end.

Definition nss_oidc_setpwent : M nss undefined_behaviour NssStatus :=
  let? st := get_state in
  match st with
  | None => ret Unavail
  | Some st =>
      try_with (on_backend (on_net (list_users (ns_scim st))))
        (λ scim_users,
          let? locked := lock ServiceLock in
          if negb locked then ret Unavail
          else
            let? users := on_backend (convert_users (ns_service st) scim_users) in
            let? enum_state := lock UserEnumLock in
            (if enum_state then λ w, (Ok tt, set_users (Some (users, 0)) w) else ret tt) ;;?
            ret Success)
        (λ _, ret Unavail)
  end.

Definition nss_oidc_setgrent : M nss undefined_behaviour NssStatus :=
  let? st := get_state in
  match st with
  | None => ret Unavail
  | Some st =>
      try_with (on_backend (on_net (list_groups (ns_scim st))))
        (λ scim_groups,
          let? locked := lock ServiceLock in
          if negb locked then ret Unavail
          else
            let? groups := on_backend (convert_groups (ns_service st) scim_groups) in
            let? enum_state := lock GroupEnumLock in
            (if enum_state then λ w, (Ok tt, set_groups (Some (groups, 0)) w) else ret tt) ;;?
            ret Success)
        (λ _, ret Unavail)
  end.
End enumeration.

(** The next entry of an enumeration: [get] and [set] are its static. *)
Definition getent_r {A R} (l : nss_lock) (get : nss → option (list A * nat))
    (set : option (list A * nat) → nss → nss)
    (fill : A → M (caller R) undefined_behaviour NssStatus)
    : M (call (caller R)) undefined_behaviour NssStatus :=
  let? locked := on_nss (lock l) in
  if negb locked then return_ (set_errno 0) Unavail
  else
    let? state := on_nss (λ w, (Ok (get w), w)) in
    match state with
    | None => return_ (set_errno 0) Unavail
    | Some (entries, idx) =>
        if bool_decide (length entries ≤ idx) then return_ (set_errno 0) NotFound
        else
          match entries !! idx with
          | None => panic
          | Some entry =>
              let? status := on_args (fill entry) in
              (if bool_decide (status = Success)
               then on_nss (λ w, (Ok tt, set (Some (entries, S idx)) w)) else ret tt) ;;?
              ret status
          end
    end.

Definition nss_oidc_getpwent_r (buflen : nat) : M (call (caller passwd)) undefined_behaviour NssStatus :=
  getent_r UserEnumLock nss_users set_users (λ user, fill_passwd_buf user buflen).
Definition nss_oidc_getgrent_r (buflen : nat)
    : M (call (caller group_struct)) undefined_behaviour NssStatus :=
  getent_r GroupEnumLock nss_groups set_groups (λ grp, fill_group_buf grp buflen).

Definition nss_oidc_endpwent : M nss undefined_behaviour NssStatus :=
  let? locked := lock UserEnumLock in
  (if locked then λ w, (Ok tt, set_users None w) else ret tt) ;;? ret Success.
Definition nss_oidc_endgrent : M nss undefined_behaviour NssStatus :=
  let? locked := lock GroupEnumLock in
  (if locked then λ w, (Ok tt, set_groups None w) else ret tt) ;;? ret Success.
