(* ===== verification/NssProps.v ===== *)
(** * NssProps: the properties of the NSS module, with their witnesses *)

From S2P Require Import Prelude Text Model Value Mapping Fs Http Sql Cache CacheFacts MockIdp.
From S2P Require Import Scim ScimProps Config Service ServiceFacts Buffer Passwd GroupPack Nss.
From stdpp Require Import prelude strings list.

(** ** Supplementary groups *)

(** The gids a call has to add to an array that already holds [have]. *)
Fixpoint new_gids (group : Z) (have gids : list Z) : list Z :=
  match gids with
  | [] => []
  | g :: gids =>
      if decide (g = group ∨ g ∈ have) then new_gids group have gids
      else g :: new_gids group (have ++ [g]) gids
  end.

Lemma new_gids_spec group have gids :
  NoDup (new_gids group have gids) ∧
  (∀ g, g ∈ new_gids group have gids ↔ g ∈ gids ∧ g ≠ group ∧ g ∉ have).
Proof.
  revert have. induction gids as [|x gids IH]; intros have; simpl.
  { split; [apply NoDup_nil_2|]. intros g. rewrite elem_of_nil. tauto. }
  case_decide as Hx.
  - destruct (IH have) as [Hnd Hin]. split; [done|]. intros g. rewrite Hin, elem_of_cons.
    split; [tauto|]. intros ([->|?] & ? & ?); [|done]. by destruct Hx.
  - destruct (IH (have ++ [x])) as [Hnd Hin]. split.
    + apply NoDup_cons. split; [|done]. rewrite Hin, elem_of_app, list_elem_of_singleton. tauto.
    + intros g. rewrite !elem_of_cons, Hin, elem_of_app, list_elem_of_singleton.
      destruct (decide (g = x)) as [->|]; tauto.
Qed.

(** An array a caller may pass: [start] entries in use, [size] available. *)
Definition array_ok (a : group_array) : Prop :=
  (0 ≤ ga_start a ≤ ga_size a)%Z ∧ (ga_size a < 2 ^ 63)%Z ∧
  (ga_size a ≤ Z.of_nat (length (ga_groups a)))%Z.

Definition entries (a : group_array) : list Z := take (Z.to_nat (ga_start a)) (ga_groups a).

Lemma as_usize_small z : (0 ≤ z < 2 ^ 63)%Z → as_usize z = Z.to_nat z.
Proof. intros Hz. unfold as_usize, u64_modulus. rewrite Z.mod_small; [done|lia]. Qed.

Lemma already_present_spec groups gid n i :
  i + n ≤ length groups →
  already_present groups gid n i = Ok (bool_decide (gid ∈ take n (drop i groups))).
Proof.
  revert i. induction n as [|n IH]; intros i Hlen; simpl.
  { done. }
  destruct (lookup_lt_is_Some_2 groups i) as [g Hg]; [lia|]. rewrite Hg.
  rewrite (drop_S groups g i Hg). cbn [take].
  destruct (bool_decide_reflect (g = gid)) as [->|Heq].
  - rewrite bool_decide_eq_true_2; [done|]. left.
  - rewrite IH by lia. f_equal. apply bool_decide_ext. rewrite elem_of_cons.
    split; [by right|]. by intros [->|?].
Qed.

(** The outcome of adding [gids] to the array [a]. *)
Definition groups_added (group : Z) (gids : list Z) (a : group_array)
    (r : outcome undefined_behaviour NssStatus) (a' : group_array) : Prop :=
  let new := new_gids group (entries a) gids in
  let room := Z.to_nat (ga_size a - ga_start a) in
  entries a' = entries a ++ take room new ∧ ga_size a' = ga_size a ∧
  ga_start a' = (ga_start a + Z.of_nat (length (take room new)))%Z ∧
  length (ga_groups a') = length (ga_groups a) ∧
  drop (Z.to_nat (ga_start a')) (ga_groups a') = drop (Z.to_nat (ga_start a')) (ga_groups a) ∧
  if bool_decide (length new ≤ room)
  then r = Ok Success ∧ ga_errno a' = 0%Z
  else r = Ok TryAgain ∧ ga_errno a' = ERANGE.

Lemma add_groups_wp `{BuildProfile} group gids a :
  array_ok a → wp (add_groups group (as_usize (ga_size a)) gids) (groups_added group gids a) a.
Proof.
  intros (Hstart & Hsize & Hlen). rewrite as_usize_small by lia.
  revert a Hstart Hsize Hlen. induction gids as [|g gids IH]; intros a Hstart Hsize Hlen.
  { split_and!; simpl; rewrite ?take_nil, ?app_nil_r; try done. simpl. lia. }
  simpl. case_bool_decide as Hg.
  { pose proof (IH a Hstart Hsize Hlen) as Ha. unfold groups_added in *. cbn [new_gids].
    by rewrite decide_True by by left. }
  unfold wp, bind, get_array, of_outcome. cbn [fst snd].
  rewrite as_usize_small by lia.
  rewrite already_present_spec by lia. rewrite drop_0. fold (entries a).
  case_bool_decide as Hin.
  { pose proof (IH a Hstart Hsize Hlen) as Ha. unfold groups_added in *. cbn [new_gids].
    by rewrite decide_True by by right. }
  case_bool_decide as Hfull.
  { unfold groups_added. cbn [new_gids]. rewrite decide_False by tauto.
    replace (Z.to_nat (ga_size a - ga_start a)) with 0 by lia. cbn [take].
    rewrite app_nil_r. split_and!; simpl; try done. lia. }
  unfold write_gid. rewrite bool_decide_eq_true_2 by lia. cbn [fst snd ga_start].
  unfold i64_add. rewrite bool_decide_eq_true_2 by lia. cbn [ret set_start].
  set (a1 := mk_group_array (<[Z.to_nat (ga_start a):=g]> (ga_groups a)) (ga_start a + 1) (ga_size a) (ga_errno a)).
  assert (He : entries a1 = entries a ++ [g]).
  { unfold entries, a1. simpl. replace (Z.to_nat (ga_start a + 1)) with (S (Z.to_nat (ga_start a))) by lia.
    rewrite (take_S_r _ _ g).
    - by rewrite take_insert_ge by lia.
    - apply list_lookup_insert_eq. lia. }
  change (wp (add_groups group (Z.to_nat (ga_size a1)) gids) (groups_added group (g :: gids) a) a1).
  eapply wp_mono; [apply IH; simpl; rewrite ?length_insert; lia|]. intros r a'.
  unfold groups_added. rewrite He. cbn [new_gids].
  rewrite decide_False by tauto. set (new := new_gids group (entries a ++ [g]) gids).
  replace (Z.to_nat (ga_size a - ga_start a)) with (S (Z.to_nat (ga_size a1 - ga_start a1)))
    by (simpl; lia).
  cbn [take length]. intros (Hent & Hsz & Hst & Hl & Hd & Hr).
  split_and!; [by rewrite Hent, <-app_assoc|done| | | |].
  - rewrite Hst. simpl. lia.
  - rewrite Hl. simpl. apply length_insert.
  - rewrite Hd. simpl. apply drop_insert_lt. rewrite Hst. simpl. lia.
  - case_bool_decide; case_bool_decide; (done || lia).
Qed.

(** ** The service's lookups do not panic *)

Section service_safety.
Context `{World} `{JsonParser} `{PercentEncoding} `{SqliteLaws} `{BuildProfile} `{Murmur3Laws}.
Variable self : Service.
Hypothesis Hranges : usable_ranges (svc_config self).

Definition backend_wf (b : backend) : Prop := db_wf (bk_db b).

Lemma safe_on_db {E A} (m : M db E A) : safe db_wf m → safe backend_wf (on_db m).
Proof. intros Hm. by apply (safe_zoom _ db_wf). Qed.

Lemma safe_on_net {E A} (m : M net E A) : (∀ log, (m log).1 ≠ Panic) → safe backend_wf (on_net m).
Proof. intros Hm. apply (safe_zoom _ (λ _, True)); [|done|done]. by intros log _. Qed.

Lemma safe_scim_user name : safe backend_wf (on_net (Scim.get_user_by_name (svc_scim self) name)).
Proof. apply safe_on_net. intros log. apply scim_lookup_no_panic. Qed.
Lemma safe_scim_group name : safe backend_wf (on_net (Scim.get_group_by_name (svc_scim self) name)).
Proof. apply safe_on_net. intros log. apply scim_group_lookup_no_panic. Qed.
#[local] Hint Resolve safe_on_db safe_scim_user safe_scim_group : rust_safe.

Lemma safe_scim_user_to_model su : safe backend_wf (scim_user_to_model self su).
Proof. destruct Hranges. unfold scim_user_to_model. eauto 15 with rust_safe. Qed.
Lemma safe_scim_group_to_model sg : safe backend_wf (scim_group_to_model self sg).
Proof. destruct Hranges. unfold scim_group_to_model. eauto 15 with rust_safe. Qed.
#[local] Hint Resolve safe_scim_user_to_model safe_scim_group_to_model : rust_safe.

Lemma safe_lookup_user_by_name name : safe backend_wf (lookup_user_by_name self name).
Proof. unfold lookup_user_by_name. eauto 20 with rust_safe. Qed.
Lemma safe_lookup_user_by_uid uid : safe backend_wf (lookup_user_by_uid self uid).
Proof. unfold lookup_user_by_uid. eauto 20 with rust_safe. Qed.
Lemma safe_lookup_group_by_name name : safe backend_wf (lookup_group_by_name self name).
Proof. unfold lookup_group_by_name. eauto 20 with rust_safe. Qed.
Lemma safe_lookup_group_by_gid gid : safe backend_wf (lookup_group_by_gid self gid).
Proof. unfold lookup_group_by_gid. eauto 20 with rust_safe. Qed.
Lemma safe_lookup_groups_for_user name : safe backend_wf (lookup_groups_for_user self name).
Proof. destruct Hranges. unfold lookup_groups_for_user. eauto 20 with rust_safe. Qed.
Lemma safe_check_user_active name : safe backend_wf (check_user_active self name).
Proof. unfold check_user_active. eauto 20 with rust_safe. Qed.
End service_safety.

(** ** The module's state *)

(** Opening a database gives a connection or an error. *)
Class SqliteFileLaws `{SqliteFile} : Prop :=
  connection_no_panic : ∀ path fs, (connection_open path fs).1 ≠ Panic.

(** The cache satisfies the schema; the ranges of the configuration are usable, of
    the one the module has loaded or, before that, of the one in its files. *)
Record nss_inv `{Sqlite} `{TomlParser} `{Env} (w : nss) : Prop := {
  inv_nss_db : db_wf (nss_db w);
  inv_nss_ranges : ∀ st, nss_state w = Some (Some st) → usable_ranges (svc_config (ns_service st));
  inv_nss_files : nss_state w = None → deployed (nss_fs w);
}.

Lemma nss_inv_backend `{Sqlite} `{TomlParser} `{Env} b w :
  nss_inv w → db_wf (bk_db b) → nss_inv (set_backend b w).
Proof. by intros [] ?; split. Qed.
Lemma nss_inv_users `{Sqlite} `{TomlParser} `{Env} us w : nss_inv w → nss_inv (set_users us w).
Proof. by intros []. Qed.
Lemma nss_inv_groups `{Sqlite} `{TomlParser} `{Env} gs w : nss_inv w → nss_inv (set_groups gs w).
Proof. by intros []. Qed.

Section module_state.
Context `{World} `{JsonParser} `{PercentEncoding} `{SqliteLaws} `{BuildProfile} `{Murmur3Laws}.
Context `{Os} `{TomlParser} `{Env} `{SqliteFile} `{!SqliteFileLaws}.

Definition storage_wf (s : storage) : Prop := db_wf (st_db s).

Lemma safe_on_file {E A} (m : M filesystem E A) :
  (∀ fs, (m fs).1 ≠ Panic) → safe storage_wf (zoom st_fs set_fs m).
Proof. intros Hm. apply (safe_zoom _ (λ _, True)); [|done|done]. by intros fs _. Qed.

Lemma safe_open path ttl : safe storage_wf (open path ttl).
Proof.
  unfold open. apply safe_bind; [apply safe_on_file|intros _].
  { intros fs. unfold map_err. pose proof (connection_no_panic path fs) as Hc.
    by destruct (connection_open path fs) as [[[]|e|] fs']. }
  apply safe_bind; [|intros _].
  { case_bool_decide; [|intros s _; split; [apply db_wf_empty|done]].
    apply safe_on_file. intros fs. pose proof (harden_cache_file_wp path fs) as Hh.
    unfold wp in Hh. by destruct (harden_cache_file path fs).1. }
  apply safe_bind; [|intros _; apply safe_bind; [|intros _; apply safe_ret]];
    apply (safe_zoom _ db_wf); try done; by apply safe_map_err, safe_execute.
Qed.

(** The enumerations and the locks, which only their own functions touch. *)
Definition same_statics (w w' : nss) : Prop :=
  nss_users w' = nss_users w ∧ nss_groups w' = nss_groups w ∧ nss_poisoned w' = nss_poisoned w.

Lemma init_state_wp {E} w :
  db_wf (nss_db w) → deployed (nss_fs w) →
  wp (init_state (E:=E)) (λ r w', db_wf (nss_db w') ∧ same_statics w w' ∧
    ∃ st, r = Ok st ∧ ∀ st', st = Some st' → usable_ranges (svc_config (ns_service st'))) w.
Proof.
  intros Hd Hdep. unfold init_state. apply wp_try_with, wp_zoom, wp_zoom. unfold wp at 1.
  cbn [st_fs]. pose proof (load_deployed (nss_fs w)) as Hr.
  destruct (load_cases (nss_fs w)) as [[config Hl]|[e Hl]]; rewrite Hl in *; cbn [fst snd] in *.
  - apply wp_try_with, wp_zoom. unfold wp at 1.
    set (s := mk_storage _ _).
    destruct (safe_open (cfg_db_path (cfg_cache config)) (cfg_ttl_seconds (cfg_cache config)) s Hd)
      as [Hd' Hp].
    destruct (open _ _ s) as [[cache|e|] s']; cbn [fst snd] in *; [| |done].
    + unfold Service_new. apply wp_bind, wp_zoom, wp_zoom, wp_bind, wp_try_with.
      destruct (safe_purge_expired (cfg_ttl_seconds (cfg_cache config)) (st_db s') Hd') as [Hd2 Hp2].
      unfold wp. cbn [bk_db nss_db set_storage].
      destruct (purge_expired _ (st_db s')) as [[[]|e|] d2]; [| |done];
        (split_and!; [done|done|]; eexists; split; [done|]; intros st' [= <-]; by apply Hr).
    + split_and!; [done|done|]. exists None. by split.
  - split_and!; [done|done|]. exists None. by split.
Qed.

Lemma get_state_wp {E} w :
  nss_inv w →
  wp (get_state (E:=E)) (λ r w', nss_inv w' ∧ same_statics w w' ∧
    ∃ st, r = Ok st ∧ nss_state w' = Some st) w.
Proof.
  intros Hw. unfold wp, get_state. destruct (nss_state w) as [st|] eqn:Hst.
  { split_and!; [done|done|]. by exists st. }
  change (wp (let? st := init_state (E:=E) in λ w, (Ok st, set_state st w)) (λ r w', nss_inv w' ∧
    same_statics w w' ∧ ∃ st, r = Ok st ∧ nss_state w' = Some st) w).
  apply wp_bind. destruct Hw as [Hd _ Hfs]. eapply wp_mono; [by apply init_state_wp, Hfs|].
  intros r w' (Hd' & Hpo & st & -> & Hu). cbn [and_then]. split_and!; [|done|by exists st].
  split; [done| |done]. cbn. intros st' [= ->]. by apply Hu.
Qed.

(** ** The discipline of the calls that fill a struct *)

(** The bytes outside the buffer are left alone; [errno] is set to [ERANGE] with
    [TryAgain] and to 0 otherwise; the struct changes only with [Success]. *)
Definition disciplined {R} (buflen : nat) (c c' : caller R)
    (r : outcome undefined_behaviour NssStatus) : Prop :=
  confined buflen (cl_buf c) (cl_buf c') ∧
  match r with
  | Ok Success => cl_errno c' = 0%Z
  | Ok TryAgain => cl_errno c' = ERANGE ∧ cl_result c' = cl_result c
  | Ok _ => cl_errno c' = 0%Z ∧ cl_result c' = cl_result c ∧ cl_buf c' = cl_buf c
  | Err _ => False
  | Panic => False
  end.

Definition call_post {R} (buflen : nat) (c : call (caller R))
    (r : outcome undefined_behaviour NssStatus) (c' : call (caller R)) : Prop :=
  nss_inv (call_nss c') ∧ disciplined buflen (call_args c) (call_args c') r.

Lemma packing_disciplined {R} needed buflen (reads : buffer → R → Prop) c r c' :
  packing_post needed buflen reads c r c' → disciplined buflen c c' r.
Proof.
  intros [Hc Hr]. split; [done|]. case_bool_decide; [by destruct Hr as (-> & ? & _)|].
  by destruct Hr as (-> & ? & ?).
Qed.

Lemma confined_refl n b : confined n b b.
Proof. done. Qed.

Lemma return_wp {R} buflen (c c1 : call (caller R)) s :
  s = NotFound ∨ s = Unavail → nss_inv (call_nss c1) → call_args c1 = call_args c →
  wp (return_ (set_errno 0) s) (call_post buflen c) c1.
Proof.
  intros Hs Hw Ha. split; [done|]. cbn. rewrite Ha. by destruct Hs as [-> | ->].
Qed.

(** The shape of the four lookups. *)
Lemma lookup_call_wp {A R} buflen (lookup : Service → M backend ServiceError (option A))
    (fill : A → M (caller R) undefined_behaviour NssStatus) (c : call (caller R)) :
  (∀ svc, usable_ranges (svc_config svc) → safe backend_wf (lookup svc)) →
  (∀ a, wp (fill a) (λ r c', disciplined buflen (call_args c) c' r) (call_args c)) →
  nss_inv (call_nss c) →
  wp (with_service (set_errno 0) (λ state, answer (set_errno 0) (lookup (ns_service state)) fill))
    (call_post buflen c) c.
Proof.
  intros Hl Hf Hw. unfold with_service. apply wp_bind, wp_zoom.
  eapply wp_mono; [by apply get_state_wp|]. intros r w (Hw1 & _ & st & -> & Hst). cbn [and_then].
  destruct st as [st|]; [|by apply return_wp; auto].
  apply wp_bind. unfold on_nss, lock, wp, zoom. cbn [fst snd and_then].
  destruct (negb _); [|by apply return_wp; auto].
  unfold answer. apply wp_try_with. unfold on_nss, on_backend, wp, zoom. cbn [call_nss set_nss].
  destruct (Hl (ns_service st) (inv_nss_ranges w Hw1 st Hst) (mk_backend (nss_net w) (nss_db w))
    (inv_nss_db w Hw1)) as [Hb Hp].
  destruct (lookup _ _) as [[[a|]|e|] b]; cbn [fst snd] in *; [| | |done].
  - unfold on_args, wp, zoom. cbn [call_args set_nss].
    specialize (Hf a). unfold wp in Hf. destruct (fill a (call_args c)) as [r c']. cbn in *.
    split; [|done]. by apply nss_inv_backend.
  - apply return_wp; [by left| |done]. by apply nss_inv_backend.
  - apply return_wp; [by right| |done]. by apply nss_inv_backend.
Qed.

Lemma getent_wp {A R} buflen l get set (fill : A → M (caller R) undefined_behaviour NssStatus)
    (c : call (caller R)) :
  (∀ a, wp (fill a) (λ r c', disciplined buflen (call_args c) c' r) (call_args c)) →
  (∀ st w, nss_inv w → nss_inv (set st w)) → nss_inv (call_nss c) →
  wp (getent_r l get set fill) (call_post buflen c) c.
Proof.
  intros Hf Hset Hw. unfold getent_r. apply wp_bind. unfold on_nss, lock, wp, zoom.
  cbn [fst snd and_then]. destruct (negb (negb _)); [by apply return_wp; auto|].
  apply wp_bind. unfold wp. cbn [fst snd and_then call_nss set_nss].
  destruct (get (call_nss c)) as [[entries idx]|]; [|by apply return_wp; auto].
  case_bool_decide as Hidx; [by apply return_wp; auto|].
  destruct (lookup_lt_is_Some_2 entries idx) as [a Ha]; [lia|]. rewrite Ha.
  apply wp_bind. unfold on_args, wp, zoom. cbn [call_args set_nss].
  specialize (Hf a). unfold wp in Hf. destruct (fill a (call_args c)) as [[s|e|] c'];
    cbn [fst snd and_then] in *; [|by destruct Hf..].
  unfold wp, bind. case_bool_decide; cbn; (split; [first [by apply Hset|exact Hw]|exact Hf]).
Qed.
End module_state.

Definition passwd_caller_ok (c : nat * caller passwd) : Prop :=
  c.1 ≤ length (buf_bytes (cl_buf c.2)).
Definition group_caller_ok (c : nat * caller group_struct) : Prop :=
  c.1 ≤ length (buf_bytes (cl_buf c.2)) ∧ (0 ≤ buf_base (cl_buf c.2))%Z ∧
  (buf_base (cl_buf c.2) + Z.of_nat (length (buf_bytes (cl_buf c.2))) ≤ u64_modulus)%Z.

Section call_properties.
Context `{World} `{JsonParser} `{PercentEncoding} `{SqliteLaws} `{BuildProfile} `{Murmur3Laws}.
Context `{Os} `{TomlParser} `{Env} `{SqliteFile} `{!SqliteFileLaws}.

Lemma fill_passwd_disciplined u buflen cl :
  passwd_caller_ok (buflen, cl) →
  wp (fill_passwd_buf u buflen) (λ r c', disciplined buflen cl c' r) cl.
Proof.
  intros Hok. eapply wp_mono; [by apply fill_passwd_buf_wp|]. intros r c'. apply packing_disciplined.
Qed.
Lemma fill_group_disciplined g buflen cl :
  group_caller_ok (buflen, cl) →
  wp (fill_group_buf g buflen) (λ r c', disciplined buflen cl c' r) cl.
Proof.
  intros (Hok & Hb & Ht). eapply wp_mono; [by apply fill_group_buf_wp|].
  intros r c'. apply packing_disciplined.
Qed.

Lemma getpwnam_wp name buflen c :
  nss_inv (call_nss c) → passwd_caller_ok (buflen, call_args c) →
  wp (nss_oidc_getpwnam_r name buflen) (call_post buflen c) c.
Proof.
  intros Hw Hok. unfold nss_oidc_getpwnam_r, passwd_by_name.
  destruct (negb _); [by apply return_wp; auto|].
  apply (lookup_call_wp buflen (λ s, lookup_user_by_name s name)); [|by intros; apply fill_passwd_disciplined|done].
  intros svc Hs. by apply safe_lookup_user_by_name.
Qed.
Lemma getpwuid_wp uid buflen c :
  nss_inv (call_nss c) → passwd_caller_ok (buflen, call_args c) →
  wp (nss_oidc_getpwuid_r uid buflen) (call_post buflen c) c.
Proof.
  intros Hw Hok.
  apply (lookup_call_wp buflen (λ s, lookup_user_by_uid s uid)); [|by intros; apply fill_passwd_disciplined|done].
  intros svc Hs. by apply safe_lookup_user_by_uid.
Qed.
Lemma getgrnam_wp name buflen c :
  nss_inv (call_nss c) → group_caller_ok (buflen, call_args c) →
  wp (nss_oidc_getgrnam_r name buflen) (call_post buflen c) c.
Proof.
  intros Hw Hok. unfold nss_oidc_getgrnam_r, group_by_name.
  destruct (negb _); [by apply return_wp; auto|].
  apply (lookup_call_wp buflen (λ s, lookup_group_by_name s name)); [|by intros; apply fill_group_disciplined|done].
  intros svc Hs. by apply safe_lookup_group_by_name.
Qed.
Lemma getgrgid_wp gid buflen c :
  nss_inv (call_nss c) → group_caller_ok (buflen, call_args c) →
  wp (nss_oidc_getgrgid_r gid buflen) (call_post buflen c) c.
Proof.
  intros Hw Hok.
  apply (lookup_call_wp buflen (λ s, lookup_group_by_gid s gid)); [|by intros; apply fill_group_disciplined|done].
  intros svc Hs. by apply safe_lookup_group_by_gid.
Qed.
Lemma getpwent_wp buflen c :
  nss_inv (call_nss c) → passwd_caller_ok (buflen, call_args c) →
  wp (nss_oidc_getpwent_r buflen) (call_post buflen c) c.
Proof. intros Hw Hok. apply getent_wp; [by intros; apply fill_passwd_disciplined|by intros st w []|done]. Qed.
Lemma getgrent_wp buflen c :
  nss_inv (call_nss c) → group_caller_ok (buflen, call_args c) →
  wp (nss_oidc_getgrent_r buflen) (call_post buflen c) c.
Proof. intros Hw Hok. apply getent_wp; [by intros; apply fill_group_disciplined|by intros st w []|done]. Qed.

(** C15: in a deployment with usable ranges the NSS functions that fill a struct
    never panic, whatever the name, the network, the database engine and the
    files do, and never write outside the buffer. [errno] is [ERANGE] exactly
    with [TryAgain] and 0 with every other status, and the struct is left as it
    was unless the status is [Success]. *)
Theorem nss_calls_disciplined name id buflen (cp : call (caller passwd))
    (cg : call (caller group_struct)) :
  nss_inv (call_nss cp) → nss_inv (call_nss cg) →
  buflen ≤ length (buf_bytes (cl_buf (call_args cp))) →
  buflen ≤ length (buf_bytes (cl_buf (call_args cg))) →
  let b := cl_buf (call_args cg) in
  (0 ≤ buf_base b)%Z → (buf_base b + Z.of_nat (length (buf_bytes b)) ≤ u64_modulus)%Z →
  wp (nss_oidc_getpwnam_r name buflen) (call_post buflen cp) cp ∧
  wp (nss_oidc_getpwuid_r id buflen) (call_post buflen cp) cp ∧
  wp (nss_oidc_getpwent_r buflen) (call_post buflen cp) cp ∧
  wp (nss_oidc_getgrnam_r name buflen) (call_post buflen cg) cg ∧
  wp (nss_oidc_getgrgid_r id buflen) (call_post buflen cg) cg ∧
  wp (nss_oidc_getgrent_r buflen) (call_post buflen cg) cg.
Proof.
  intros Hp Hg Hlp Hlg b Hbase Htop.
  split_and!; [apply getpwnam_wp|apply getpwuid_wp|apply getpwent_wp|apply getgrnam_wp|
    apply getgrgid_wp|apply getgrent_wp]; done.
Qed.
End call_properties.

(** ** A whole enumeration *)

(** Successive calls of a [get..ent_r], each with a buffer of its own: what each
    returned, and the state after them. *)
Fixpoint getents {R} (step : nat → M (call (caller R)) undefined_behaviour NssStatus)
    (calls : list (nat * caller R)) (w : nss)
    : list (outcome undefined_behaviour NssStatus * caller R) * nss :=
  match calls with
  | [] => ([], w)
  | (buflen, cl) :: calls =>
      let '(r, c) := step buflen (mk_call w cl) in
      let '(rs, w') := getents step calls (call_nss c) in
      ((r, call_args c) :: rs, w')
  end.

Definition succeeded {R} (r : outcome undefined_behaviour NssStatus * caller R) : bool :=
  match r.1 with Ok Success => true | _ => false end.

(** The calls delivered the next entries of [entries] from [idx] on, each once
    and in order; the others were retries for want of space, or came after the
    last entry. *)
Definition delivered {A R} (reads : A → buffer → R → Prop) (entries : list A) (idx : nat)
    (rs : list (outcome undefined_behaviour NssStatus * caller R)) : Prop :=
  let got := filter succeeded rs in
  Forall2 (λ a r, reads a (cl_buf r.2) (cl_result r.2) ∧ cl_errno r.2 = 0%Z)
    (take (length got) (drop idx entries)) got ∧
  Forall (λ r, r.1 = Ok Success ∨ (r.1 = Ok TryAgain ∧ cl_errno r.2 = ERANGE) ∨
    (r.1 = Ok NotFound ∧ cl_errno r.2 = 0%Z ∧ length entries ≤ idx + length got)) rs.

Section enumerate.
Context {A R : Type} (l : nss_lock) (get : nss → option (list A * nat)).
Context (set : option (list A * nat) → nss → nss).
Context (fill : nat → A → M (caller R) undefined_behaviour NssStatus).
Context (reads : A → buffer → R → Prop) (caller_ok : nat * caller R → Prop).
Hypothesis Hfill : ∀ buflen cl a, caller_ok (buflen, cl) →
  wp (fill buflen a) (λ r c', (r = Ok Success ∧ cl_errno c' = 0%Z ∧ reads a (cl_buf c') (cl_result c'))
    ∨ (r = Ok TryAgain ∧ cl_errno c' = ERANGE)) cl.
Hypothesis Hget : ∀ st w, get (set st w) = st.
Hypothesis Hlock : ∀ st w, nss_poisoned (set st w) l = nss_poisoned w l.

Lemma getent_step buflen cl w entries idx :
  caller_ok (buflen, cl) → nss_poisoned w l = false → get w = Some (entries, idx) →
  let rc := getent_r l get set (fill buflen) (mk_call w cl) in
  (∃ a, entries !! idx = Some a ∧ rc.1 = Ok Success ∧ cl_errno (call_args rc.2) = 0%Z ∧
     reads a (cl_buf (call_args rc.2)) (cl_result (call_args rc.2)) ∧
     call_nss rc.2 = set (Some (entries, S idx)) w) ∨
  (rc.1 = Ok TryAgain ∧ cl_errno (call_args rc.2) = ERANGE ∧ call_nss rc.2 = w) ∨
  (rc.1 = Ok NotFound ∧ cl_errno (call_args rc.2) = 0%Z ∧ call_nss rc.2 = w ∧ length entries ≤ idx).
Proof.
  intros Hok Hpo Hst. unfold getent_r, bind, on_nss, lock, zoom. cbn. rewrite Hpo. cbn. rewrite Hst.
  case_bool_decide as Hidx; [by right; right|].
  destruct (lookup_lt_is_Some_2 entries idx) as [a Ha]; [lia|]. rewrite Ha.
  unfold on_args, zoom. cbn. specialize (Hfill buflen cl a Hok). unfold wp in Hfill.
  destruct (fill buflen a cl) as [r c']. cbn in *.
  destruct Hfill as [(-> & He & Hr)|(-> & He)]; cbn; [left; by exists a|by right; left].
Qed.

Lemma getents_deliver calls w entries idx :
  Forall caller_ok calls → nss_poisoned w l = false → get w = Some (entries, idx) →
  let '(rs, w') := getents (λ buflen, getent_r l get set (fill buflen)) calls w in
  delivered reads entries idx rs ∧
  get w' = Some (entries, idx + length (filter succeeded rs)).
Proof.
  intros Hok. revert w idx. induction Hok as [|[buflen cl] calls Hc Hok IH]; intros w idx Hpo Hst.
  { simpl. rewrite Nat.add_0_r. split; [by split|done]. }
  cbn [getents]. pose proof (getent_step buflen cl w entries idx Hc Hpo Hst) as Hstep.
  destruct (getent_r l get set (fill buflen) (mk_call w cl)) as [r c] eqn:Hr. cbn [fst snd] in Hstep.
  destruct Hstep as [(a & Ha & -> & He & Hreads & Hw)|[(-> & He & Hw)|(-> & He & Hw & Hlen)]].
  - assert (Hpo' : nss_poisoned (call_nss c) l = false) by by rewrite Hw, Hlock.
    assert (Hst' : get (call_nss c) = Some (entries, S idx)) by by rewrite Hw, Hget.
    specialize (IH _ _ Hpo' Hst'). destruct (getents _ calls _) as [rs w'].
    destruct IH as [[Hf Hall] Hg]. unfold delivered. rewrite filter_cons_True by done.
    cbn [length]. split; [|by rewrite Hg; do 2 f_equal; lia]. split.
    + rewrite (drop_S entries a idx Ha). cbn [take]. by constructor.
    + constructor; [by left|]. eapply Forall_impl; [exact Hall|].
      intros x [?|[?|(? & ? & ?)]]; [by left|by right; left|right; right].
      split_and!; [done|done|lia].
  - rewrite <-Hw in Hpo, Hst. specialize (IH _ _ Hpo Hst). destruct (getents _ calls _) as [rs w'].
    destruct IH as [[Hf Hall] Hg]. unfold delivered. rewrite filter_cons_False by auto.
    split; [|done]. split; [done|]. constructor; [by right; left|done].
  - rewrite <-Hw in Hpo, Hst. specialize (IH _ _ Hpo Hst). destruct (getents _ calls _) as [rs w'].
    destruct IH as [[Hf Hall] Hg]. unfold delivered. rewrite filter_cons_False by auto.
    split; [|done]. split; [done|]. constructor; [right; right; split_and!; [done|done|lia]|done].
Qed.
End enumerate.

Lemma getpwent_deliver calls w users idx :
  Forall passwd_caller_ok calls → nss_poisoned w UserEnumLock = false →
  nss_users w = Some (users, idx) →
  let '(rs, w') := getents nss_oidc_getpwent_r calls w in
  delivered (λ u b p, passwd_reads b p u) users idx rs ∧
  nss_users w' = Some (users, idx + length (filter succeeded rs)).
Proof.
  apply (getents_deliver UserEnumLock nss_users set_users
    (λ buflen u, fill_passwd_buf u buflen) _ passwd_caller_ok); try done.
  intros buflen cl u Hok. eapply wp_mono; [by apply fill_passwd_buf_wp|].
  intros r c' [_ Hr]. case_bool_decide; [by left|right]. by destruct Hr as (? & ? & _).
Qed.
Lemma getgrent_deliver calls w groups idx :
  Forall group_caller_ok calls → nss_poisoned w GroupEnumLock = false →
  nss_groups w = Some (groups, idx) →
  let '(rs, w') := getents nss_oidc_getgrent_r calls w in
  delivered (λ g b s, group_reads b s g) groups idx rs ∧
  nss_groups w' = Some (groups, idx + length (filter succeeded rs)).
Proof.
  apply (getents_deliver GroupEnumLock nss_groups set_groups
    (λ buflen g, fill_group_buf g buflen) _ group_caller_ok); try done.
  intros buflen cl g (Hok & Hb & Ht). eapply wp_mono; [by apply fill_group_buf_wp|].
  intros r c' [_ Hr]. case_bool_decide; [by left|right]. by destruct Hr as (? & ? & _).
Qed.

(** An enumeration delivers every entry once, in order, whatever buffers the
    caller tries: a call whose buffer is too small answers [TryAgain] with
    [ERANGE] and the next call gets the same entry; [NotFound] comes only after
    the last one. *)
Lemma enumeration_delivers_in_order w users groups iu ig pcalls gcalls :
  nss_users w = Some (users, iu) → nss_groups w = Some (groups, ig) →
  nss_poisoned w UserEnumLock = false → nss_poisoned w GroupEnumLock = false →
  Forall passwd_caller_ok pcalls → Forall group_caller_ok gcalls →
  (let '(rs, w') := getents nss_oidc_getpwent_r pcalls w in
   delivered (λ u b p, passwd_reads b p u) users iu rs ∧
   nss_users w' = Some (users, iu + length (filter succeeded rs))) ∧
  (let '(rs, w') := getents nss_oidc_getgrent_r gcalls w in
   delivered (λ g b s, group_reads b s g) groups ig rs ∧
   nss_groups w' = Some (groups, ig + length (filter succeeded rs))).
Proof. intros. split; [by apply getpwent_deliver|by apply getgrent_deliver]. Qed.

Section initgroups.
Context `{World} `{JsonParser} `{PercentEncoding} `{SqliteLaws} `{BuildProfile} `{Murmur3Laws}.
Context `{Os} `{TomlParser} `{Env} `{SqliteFile} `{!SqliteFileLaws}.

(** What [initgroups_dyn] answers in each case: a name that is not UTF-8, a module
    that cannot start or whose mutex is poisoned, a service that fails, and the
    service's gids. *)
Definition initgroups_answered (user : string) (group : Z) (c : call group_array)
    (r : outcome undefined_behaviour NssStatus) (a' : group_array) : Prop :=
  let a := call_args c in
  let untouched := a' = mk_group_array (ga_groups a) (ga_start a) (ga_size a) 0 in
  if valid_utf8 user then
    ∃ st w, get_state (E:=undefined_behaviour) (call_nss c) = (Ok st, w) ∧
      match st with
      | Some st =>
          if nss_poisoned w ServiceLock then r = Ok Unavail ∧ untouched
          else
            match (lookup_groups_for_user (ns_service st) user
                     (mk_backend (nss_net w) (nss_db w))).1 with
            | Ok gids => groups_added group gids a r a' ∧
                let new := new_gids group (entries a) gids in
                NoDup new ∧ (∀ g, g ∈ new ↔ g ∈ gids ∧ g ≠ group ∧ g ∉ entries a)
            | Err _ => r = Ok Unavail ∧ untouched
            | Panic => False
            end
      | None => r = Ok Unavail ∧ untouched
      end
  else r = Ok NotFound ∧ untouched.

Lemma initgroups_wp user group (c : call group_array) :
  nss_inv (call_nss c) → array_ok (call_args c) →
  wp (nss_oidc_initgroups_dyn user group) (λ r c', nss_inv (call_nss c') ∧
    initgroups_answered user group c r (call_args c')) c.
Proof.
  intros Hw Ha. unfold nss_oidc_initgroups_dyn, initgroups_answered.
  destruct (valid_utf8 user); cbn [negb]; [|by split].
  unfold with_service. apply wp_bind, wp_zoom.
  pose proof (get_state_wp (E:=undefined_behaviour) (call_nss c) Hw) as Hs. unfold wp in Hs |- * at 1.
  destruct (get_state (call_nss c)) as [r0 w]. destruct Hs as (Hw1 & _ & st & Hr & Hst).
  cbn [fst snd] in *. subst r0. cbn [and_then].
  destruct st as [st|]; [|split; [done|]; by exists None, w].
  apply wp_bind. unfold on_nss at 1, lock, wp at 1, zoom. cbn [fst snd and_then call_nss set_nss].
  destruct (nss_poisoned w ServiceLock) eqn:Hpo; cbn [negb];
    [split; [done|]; exists (Some st), w; by rewrite Hpo|].
  apply wp_try_with. unfold on_nss, on_backend, wp at 1, zoom. cbn [call_nss set_nss].
  destruct (safe_lookup_groups_for_user (ns_service st) (inv_nss_ranges w Hw1 st Hst) user
    (mk_backend (nss_net w) (nss_db w)) (inv_nss_db w Hw1)) as [Hb Hp].
  destruct (lookup_groups_for_user _ _ _) as [[gids|e|] b] eqn:Hl; cbn [fst snd] in *; [| |done].
  - apply wp_zoom. cbn [call_args set_nss]. apply wp_bind. unfold get_array, wp at 1.
    cbn [fst snd and_then]. eapply wp_mono; [by apply add_groups_wp|].
    intros r a' Hadded. split; [by apply nss_inv_backend|]. exists (Some st), w. rewrite Hpo, Hl.
    split; [done|]. split; [done|]. apply new_gids_spec.
  - split; [by apply nss_inv_backend|]. exists (Some st), w. by rewrite Hpo, Hl.
Qed.

(** C14: where the configured id ranges are usable, [initgroups_dyn] appends to the
    caller's array, once each and in order, the gids the service gives that are
    neither the primary group nor already there, writes nowhere else, and does not
    panic. The array is never grown: where the new gids do not fit it is filled to
    its size, and the answer is [TryAgain] with [ERANGE]. A name that is not UTF-8
    is not found, and a module that cannot start, a poisoned mutex or a service
    that fails are unavailable; the array is then left as it was. *)
Theorem initgroups_adds_each_gid_once user group (c : call group_array) :
  nss_inv (call_nss c) → array_ok (call_args c) →
  wp (nss_oidc_initgroups_dyn user group) (λ r c', nss_inv (call_nss c') ∧
    initgroups_answered user group c r (call_args c')) c.
Proof. apply initgroups_wp. Qed.
End initgroups.

(** ** Witnesses: the module against the mock server *)

#[local] Existing Instance idp_world.
#[local] Existing Instance idp_parser.
#[local] Existing Instance ascii_percent_encoding.
#[local] Instance engine : Sqlite := still_engine true 1000.
#[local] Instance engine_laws : SqliteLaws := still_engine_laws true 1000.
#[local] Existing Instance release_build.
#[local] Existing Instance byte_sum_hash.
#[local] Existing Instance byte_sum_hash_laws.
#[local] Instance root_os : Os := os_as 0.
#[local] Instance no_env : Env := λ _, None.

(** Every document is the configuration of the tests. *)
#[local] Instance mock_toml : TomlParser := λ _, Some (VObject
  [("scim", VObject [("base_url", VString mock_base)]);
   ("oidc", VObject [("issuer_url", VString mock_base); ("client_id", VString "test-client");
                     ("allow_insecure", VBool true)])]).

#[local] Instance creating_open : SqliteFile := λ path fs,
  (Ok tt, match fs !! path with
          | Some _ => fs
          | None => <[path := mk_inode (mk_file_meta true 33188 0) None]> fs
          end).

#[local] Instance mock_file_laws : SqliteFileLaws.
Proof. by intros path fs. Qed.

(** The configuration of the tests can be deployed, wherever it is. *)
Lemma mock_deployed fs : deployed fs.
Proof.
  intros text config _ Hc. vm_compute in Hc. injection Hc as <-.
  split; vm_compute; repeat split; congruence.
Qed.

Definition installed : filesystem :=
  {["/etc/sssd-oidc/config.toml" := secret_file 33188 0;
    "/etc/sssd-oidc/scim-token" := secret_file 33152 0]}.
Definition loaded_module : nss :=
  mk_nss installed [] empty_db None None None (λ _, false).

Lemma loaded_module_inv : nss_inv loaded_module.
Proof. split; [apply db_wf_empty|done|intros _; apply mock_deployed]. Qed.

(** A lookup by name and then by the uid it returned, through the C functions. *)
Example getpwnam_alice :
  let c := mk_call loaded_module (blank 64 no_passwd) in
  let '(r, c') := nss_oidc_getpwnam_r "alice" 64 c in
  r = Ok Success ∧ pw_uid (cl_result (call_args c')) = 201676%Z ∧
  read_c_string (cl_buf (call_args c')) (pw_dir (cl_result (call_args c'))) = Some (bytes_of "/home/alice").
Proof. vm_compute. done. Qed.

Definition passwd_call : call (caller passwd) := mk_call loaded_module (blank 64 no_passwd).
Definition group_call : call (caller group_struct) := mk_call loaded_module (blank 64 no_group).

Lemma nss_calls_disciplined_witness :
  wp (nss_oidc_getpwnam_r "alice" 64) (call_post 64 passwd_call) passwd_call.
Proof.
  assert (H64p : 64 ≤ length (buf_bytes (cl_buf (call_args passwd_call)))) by (vm_compute; lia).
  assert (H64g : 64 ≤ length (buf_bytes (cl_buf (call_args group_call)))) by (vm_compute; lia).
  assert (Hb : (0 ≤ buf_base (cl_buf (call_args group_call)))%Z) by (vm_compute; congruence).
  assert (Ht : (buf_base (cl_buf (call_args group_call)) +
    Z.of_nat (length (buf_bytes (cl_buf (call_args group_call)))) ≤ u64_modulus)%Z)
    by (vm_compute; congruence).
  pose proof (nss_calls_disciplined "alice" 0 64 passwd_call group_call loaded_module_inv
    loaded_module_inv H64p H64g) as Hw.
  cbv zeta in Hw. destruct (Hw Hb Ht) as [Hn _]. exact Hn.
Defined.

Definition enumerating : nss := mk_nss installed [] empty_db None
  (Some ([packed_user "alice"; packed_user "bob"], 0)) (Some ([packed_group], 0)) (λ _, false).

(** A retry after a buffer of ten bytes, then both users, then the end. *)
Lemma enumeration_delivers_in_order_witness :
  let calls := [(10, blank 10 no_passwd); (64, blank 64 no_passwd); (64, blank 64 no_passwd);
                (64, blank 64 no_passwd)] in
  let '(rs, w') := getents nss_oidc_getpwent_r calls enumerating in
  rs.*1 = [Ok TryAgain; Ok Success; Ok Success; Ok NotFound] ∧
  delivered (λ u b p, passwd_reads b p u) [packed_user "alice"; packed_user "bob"] 0 rs.
Proof.
  intros calls.
  assert (Hcalls : Forall passwd_caller_ok calls)
    by (repeat constructor; unfold passwd_caller_ok; vm_compute; lia).
  assert (Hnone : Forall group_caller_ok []) by constructor.
  pose proof (enumeration_delivers_in_order enumerating _ _ 0 0 calls []
    eq_refl eq_refl eq_refl eq_refl Hcalls Hnone) as [Hd _].
  assert (Hr : (getents nss_oidc_getpwent_r calls enumerating).1.*1 =
    [Ok TryAgain; Ok Success; Ok Success; Ok NotFound]) by (vm_compute; reflexivity).
  destruct (getents nss_oidc_getpwent_r calls enumerating) as [rs w'].
  split; [exact Hr|exact (proj1 Hd)].
Defined.

Definition started_module : nss := (get_state (E:=undefined_behaviour) loaded_module).2.

Lemma started_module_inv : nss_inv started_module.
Proof. apply (get_state_wp (E:=undefined_behaviour) loaded_module loaded_module_inv). Qed.

Definition mock_service : Service :=
  mk_service (ScimClient_new mock_base "token") (mk_cache 3600)
    (mk_config (mk_scim_config mock_base DEFAULT_BEARER_TOKEN_PATH "token")
      (mk_oidc_config mock_base "test-client" None true)
      default_mapping default_user_defaults default_cache_config default_security).

Lemma initgroups_adds_each_gid_once_witness :
  let a := mk_group_array [200001; 0]%Z 1 2 7 in
  let c := mk_call loaded_module a in
  wp (nss_oidc_initgroups_dyn "alice" 200001) (λ r c', nss_inv (call_nss c') ∧
    initgroups_answered "alice" 200001 c r (call_args c')) c.
Proof.
  intros a c. apply (initgroups_adds_each_gid_once "alice" 200001 c).
  - exact loaded_module_inv.
  - vm_compute. repeat split; congruence.
Defined.

Example initgroups_alice :
  let c := mk_call started_module (mk_group_array [200001; 0]%Z 1 2 7) in
  let '(r, c') := nss_oidc_initgroups_dyn "alice" 200001 c in
  r = Ok Success ∧ ga_groups (call_args c') = [200001; 201590]%Z.
Proof. vm_compute. done. Qed.
