(* ===== verification/NssLife.v ===== *)
(** * NssLife: the NSS module over the whole life of its host process

    Every sequence of calls keeps the module's invariant; what [setpwent] and
    [setgrent] enumerate is the service's listing; and a lookup by name agrees
    with the lookup by id that follows it. *)

From S2P Require Import Prelude Text Model Value Mapping Fs Http Sql Cache CacheFacts MockIdp.
From S2P Require Import Scim ScimProps Config Service ServiceFacts ServiceProps Buffer Passwd.
From S2P Require Import GroupPack Nss NssProps.
From stdpp Require Import prelude strings list relations.

(** ** The functions of the module, called by anybody *)

Section steps.
Context `{World} `{JsonParser} `{PercentEncoding} `{Sqlite} `{BuildProfile} `{Murmur3}.
Context `{Os} `{TomlParser} `{Env} `{SqliteFile}.

(** One call of one of the eleven functions, with arguments its contract allows. *)
Inductive nss_step (w : nss) : nss → Prop :=
  | step_getpwnam name buflen cl : passwd_caller_ok (buflen, cl) →
      nss_step w (call_nss (nss_oidc_getpwnam_r name buflen (mk_call w cl)).2)
  | step_getpwuid uid buflen cl : passwd_caller_ok (buflen, cl) →
      nss_step w (call_nss (nss_oidc_getpwuid_r uid buflen (mk_call w cl)).2)
  | step_getgrnam name buflen cl : group_caller_ok (buflen, cl) →
      nss_step w (call_nss (nss_oidc_getgrnam_r name buflen (mk_call w cl)).2)
  | step_getgrgid gid buflen cl : group_caller_ok (buflen, cl) →
      nss_step w (call_nss (nss_oidc_getgrgid_r gid buflen (mk_call w cl)).2)
  | step_initgroups user group a : array_ok a →
      nss_step w (call_nss (nss_oidc_initgroups_dyn user group (mk_call w a)).2)
  | step_setpwent : nss_step w (nss_oidc_setpwent w).2
  | step_getpwent buflen cl : passwd_caller_ok (buflen, cl) →
      nss_step w (call_nss (nss_oidc_getpwent_r buflen (mk_call w cl)).2)
  | step_endpwent : nss_step w (nss_oidc_endpwent w).2
  | step_setgrent : nss_step w (nss_oidc_setgrent w).2
  | step_getgrent buflen cl : group_caller_ok (buflen, cl) →
      nss_step w (call_nss (nss_oidc_getgrent_r buflen (mk_call w cl)).2)
  | step_endgrent : nss_step w (nss_oidc_endgrent w).2.
End steps.

(** An enumeration never runs past its end. *)
Definition enum_ok {A} (e : option (list A * nat)) : Prop :=
  ∀ entries idx, e = Some (entries, idx) → idx ≤ length entries.

Record nss_alive `{Sqlite} `{TomlParser} `{Env} (w : nss) : Prop := {
  alive_inv : nss_inv w;
  alive_users : enum_ok (nss_users w);
  alive_groups : enum_ok (nss_groups w);
  alive_locks : ∀ l, nss_poisoned w l = false;
}.

Lemma alive_same_statics `{Sqlite} `{TomlParser} `{Env} w w' :
  nss_alive w → nss_inv w' → same_statics w w' → nss_alive w'.
Proof. intros [] Hw' (Hu & Hg & Hl). split; by rewrite ?Hu, ?Hg, ?Hl. Qed.

Section alive_enumerations.
Context `{Sqlite} `{TomlParser} `{Env} (w : nss) (Hw : nss_alive w).
Lemma alive_set_users us : enum_ok us → nss_alive (set_users us w).
Proof. intros Hus. destruct Hw. split; [by apply nss_inv_users|done..]. Qed.
Lemma alive_set_groups gs : enum_ok gs → nss_alive (set_groups gs w).
Proof. intros Hgs. destruct Hw. split; [by apply nss_inv_groups|done..]. Qed.
End alive_enumerations.

(** ** What the functions leave alone *)

Section frames.
Context `{World} `{JsonParser} `{PercentEncoding} `{Sqlite} `{BuildProfile} `{Murmur3}.
Context `{Os} `{TomlParser} `{Env} `{SqliteFile}.
Variable w0 : nss.

Definition framed (w : nss) : Prop := same_statics w0 w.
Definition call_framed {C} (c : call C) : Prop := framed (call_nss c).

Lemma framed_storage {E A} (m : M storage E A) : preserves framed (on_storage m).
Proof. apply (preserves_zoom _ (λ _, True)); [by intros s _|done|by intros w s Hw _]. Qed.
Lemma framed_backend {E A} (m : M backend E A) : preserves framed (on_backend m).
Proof. apply (preserves_zoom _ (λ _, True)); [by intros s _|done|by intros w s Hw _]. Qed.
#[local] Hint Resolve framed_storage framed_backend : rust_inv.

Lemma framed_init_state {E} : preserves framed (init_state (E:=E)).
Proof. unfold init_state. preserve. Qed.
Lemma framed_get_state {E} : preserves framed (get_state (E:=E)).
Proof.
  intros w Hw. unfold get_state. destruct (nss_state w); [done|].
  pose proof (framed_init_state (E:=E) w Hw) as Hi. unfold bind.
  by destruct (init_state w) as [[st|e|] w'].
Qed.

Lemma framed_on_nss {C E A} (m : M nss E A) :
  preserves framed m → preserves (call_framed (C:=C)) (on_nss m).
Proof. intros Hm. by apply (preserves_zoom _ framed). Qed.
Lemma framed_on_args {C E A} (m : M C E A) : preserves (call_framed (C:=C)) (on_args m).
Proof. apply (preserves_zoom _ (λ _, True)); [by intros s _|done|by intros c a Hc _]. Qed.
#[local] Hint Resolve framed_on_nss framed_on_args framed_get_state : rust_inv.

Lemma framed_return {C} (m : M C undefined_behaviour ()) s : preserves call_framed (return_ m s).
Proof. unfold return_. preserve. Qed.
#[local] Hint Resolve framed_return : rust_inv.

Lemma framed_with_service {C} (m : M C undefined_behaviour ()) k :
  (∀ st, preserves call_framed (k st)) → preserves call_framed (with_service m k).
Proof.
  intros Hk. unfold with_service. apply preserves_bind; [preserve|]. intros [st|]; [|preserve].
  apply preserves_bind; [|intros []; [apply Hk|preserve]]. apply framed_on_nss. by intros w Hw.
Qed.

Lemma framed_lookup {C A} (m : M C undefined_behaviour ())
    (lookup : NssState → M backend ServiceError (option A)) (fill : A → M C undefined_behaviour NssStatus) :
  preserves call_framed (with_service m (λ st, answer m (lookup st) fill)).
Proof. apply framed_with_service. intros st. unfold answer. preserve. Qed.

Lemma framed_initgroups user group :
  preserves call_framed (nss_oidc_initgroups_dyn user group).
Proof.
  unfold nss_oidc_initgroups_dyn. destruct (negb _); [preserve|].
  apply framed_with_service. intros st. preserve.
Qed.

Lemma framed_passwd_by_name name buflen : preserves call_framed (passwd_by_name name buflen).
Proof. unfold passwd_by_name. destruct (negb _); [preserve|apply framed_lookup]. Qed.
Lemma framed_group_by_name name buflen : preserves call_framed (group_by_name name buflen).
Proof. unfold group_by_name. destruct (negb _); [preserve|apply framed_lookup]. Qed.
End frames.

(** ** Starting an enumeration *)

Section enumerations.
Context `{World} `{JsonParser} `{PercentEncoding} `{SqliteLaws} `{BuildProfile} `{Murmur3Laws}.
Context `{Os} `{TomlParser} `{Env} `{SqliteFile} `{!SqliteFileLaws}.

Lemma bind_run {S E A B} (m : M S E A) (k : A → M S E B) s a s' :
  m s = (Ok a, s') → bind m k s = k a s'.
Proof. unfold bind. by intros ->. Qed.

Lemma get_state_again {E} w st : nss_state w = Some st → get_state (E:=E) w = (Ok st, w).
Proof. unfold get_state. by intros ->. Qed.

Definition nss_backend (w : nss) : backend := mk_backend (nss_net w) (nss_db w).

Lemma safe_convert_users {E} svc sus :
  usable_ranges (svc_config svc) → safe backend_wf (convert_users (E:=E) svc sus).
Proof.
  intros Hr. induction sus as [|su sus IH]; [apply safe_ret|]. cbn [convert_users].
  apply safe_try_with; [by apply safe_scim_user_to_model|intros u|done].
  apply safe_bind; [|intros _; apply safe_bind; [done|intros us; apply safe_ret]].
  apply safe_try_with; [apply safe_on_db, safe_store_user|intros; apply safe_ret..].
Qed.
Lemma safe_convert_groups {E} svc sgs :
  usable_ranges (svc_config svc) → safe backend_wf (convert_groups (E:=E) svc sgs).
Proof.
  intros Hr. induction sgs as [|sg sgs IH]; [apply safe_ret|]. cbn [convert_groups].
  apply safe_try_with; [by apply safe_scim_group_to_model|intros g|done].
  apply safe_bind; [|intros _; apply safe_bind; [done|intros gs; apply safe_ret]].
  apply safe_try_with; [apply safe_on_db, safe_store_group|intros; apply safe_ret..].
Qed.

(** The listing a function with a state starts from: its outcome, and what it
    leaves of the module. *)
Lemma set_backend_alive w b :
  nss_alive w → backend_wf b → nss_alive (set_backend b w).
Proof. intros [[Hd Hs] Hu Hg Hl] Hb. by split. Qed.

(** [setpwent] and [setgrent] are one function of their parameters. *)
Definition start_enumeration {R A} (l : nss_lock) (listing : ScimClient → M net ScimError (list R))
    (convert : Service → list R → M backend undefined_behaviour (list A))
    (set : option (list A * nat) → nss → nss) : M nss undefined_behaviour NssStatus :=
  let? st := get_state in
  match st with
  | None => ret Unavail
  | Some st =>
      try_with (on_backend (on_net (listing (ns_scim st))))
        (λ found,
          let? locked := lock ServiceLock in
          if negb locked then ret Unavail
          else
            let? entries := on_backend (convert (ns_service st) found) in
            let? enum_state := lock l in
            (if enum_state then λ w, (Ok tt, set (Some (entries, 0)) w) else ret tt) ;;?
            ret Success)
        (λ _, ret Unavail)
  end.

Lemma setpwent_start :
  nss_oidc_setpwent = start_enumeration UserEnumLock (λ c, list_users c) convert_users set_users.
Proof. done. Qed.
Lemma setgrent_start :
  nss_oidc_setgrent = start_enumeration GroupEnumLock (λ c, list_groups c) convert_groups set_groups.
Proof. done. Qed.

Section start.
Context {R A : Type} (l : nss_lock) (listing : ScimClient → M net ScimError (list R)).
Context (convert : Service → list R → M backend undefined_behaviour (list A)).
Context (set : option (list A * nat) → nss → nss).
Hypothesis Hlisting : ∀ c log, (listing c log).1 ≠ Panic.
Hypothesis Hconvert : ∀ svc found,
  usable_ranges (svc_config svc) → safe backend_wf (convert svc found).
Hypothesis Hset : ∀ entries w, nss_alive w → nss_alive (set (Some (entries, 0)) w).

(** One start on a module that has its state, by what SCIM and the conversion
    answer. *)
Lemma start_enumeration_run w st :
  nss_alive w → nss_state w = Some (Some st) →
  start_enumeration l listing convert set w =
    match listing (ns_scim st) (nss_net w) with
    | (Ok found, log) =>
        match convert (ns_service st) found (set_bk_net log (nss_backend w)) with
        | (Ok entries, b) => (Ok Success, set (Some (entries, 0)) (set_backend b w))
        | (Err e, b) => (Err e, set_backend b w)
        | (Panic, b) => (Panic, set_backend b w)
        end
    | (Err _, log) => (Ok Unavail, set_backend (set_bk_net log (nss_backend w)) w)
    | (Panic, log) => (Panic, set_backend (set_bk_net log (nss_backend w)) w)
    end.
Proof.
  intros Hw Hst. unfold start_enumeration. rewrite (bind_run _ _ w _ w (get_state_again w _ Hst)).
  unfold try_with, on_backend at 1, on_net, zoom at 1 2. cbn [bk_net].
  destruct (listing _ _) as [[found|e|] log]; [|done|done].
  unfold bind at 1, lock at 1. cbn [nss_poisoned set_backend]. rewrite (alive_locks w Hw). cbn [negb].
  unfold bind at 1, on_backend, zoom. change (mk_backend (nss_net (set_backend ?b w))
    (nss_db (set_backend ?b w))) with b.
  change (mk_backend (nss_net w) (nss_db w)) with (nss_backend w).
  destruct (convert _ _ _) as [[entries|e|] b]; [|done|done].
  unfold bind, lock. cbn [nss_poisoned set_backend]. rewrite (alive_locks w Hw). done.
Qed.

Lemma start_enumeration_alive w :
  nss_alive w → wp (start_enumeration l listing convert set) (λ r w', nss_alive w' ∧ r ≠ Panic) w.
Proof.
  intros Hw. pose proof (get_state_wp (E:=undefined_behaviour) w (alive_inv w Hw))
    as (Hw1 & Hs1 & st & Hr & Hst).
  pose proof (alive_same_statics _ _ Hw Hw1 Hs1) as Ha. unfold wp.
  assert (start_enumeration l listing convert set w = match st with
    | None => (Ok Unavail, (get_state (E:=undefined_behaviour) w).2)
    | Some _ => start_enumeration l listing convert set (get_state (E:=undefined_behaviour) w).2
    end) as ->.
  { unfold start_enumeration. destruct (get_state w) as [r w1] eqn:Hg. simpl in *. subst r.
    rewrite (bind_run _ _ w _ w1 Hg). destruct st as [st|]; [|done].
    by rewrite (bind_run _ _ w1 _ w1 (get_state_again w1 _ Hst)). }
  destruct st as [st|]; [|done]. set (w1 := (get_state w).2) in *. rewrite (start_enumeration_run w1 st Ha Hst).
  pose proof (Hlisting (ns_scim st) (nss_net w1)) as Hnp.
  destruct (listing _ _) as [[found|e|] log]; simpl in *; [| |done].
  - destruct (Hconvert (ns_service st) found (inv_nss_ranges _ Hw1 st Hst)
      (set_bk_net log (nss_backend w1)) (inv_nss_db _ Hw1)) as [Hb Hp].
    destruct (convert _ _ _) as [[entries|e|] b]; simpl in *; [| |done].
    + split; [by apply Hset, set_backend_alive|done].
    + split; [by apply set_backend_alive|done].
  - split; [apply set_backend_alive; [done|apply Hw1]|done].
Qed.
End start.

Lemma setpwent_alive w :
  nss_alive w → wp nss_oidc_setpwent (λ r w', nss_alive w' ∧ r ≠ Panic) w.
Proof.
  rewrite setpwent_start. apply start_enumeration_alive.
  - intros c log. apply list_users_no_panic.
  - intros svc sus. apply safe_convert_users.
  - intros us w' Hw'. apply alive_set_users; [done|]. intros entries idx [= <- <-]. lia.
Qed.
Lemma setgrent_alive w :
  nss_alive w → wp nss_oidc_setgrent (λ r w', nss_alive w' ∧ r ≠ Panic) w.
Proof.
  rewrite setgrent_start. apply start_enumeration_alive.
  - intros c log. apply list_groups_no_panic.
  - intros svc sgs. apply safe_convert_groups.
  - intros gs w' Hw'. apply alive_set_groups; [done|]. intros entries idx [= <- <-]. lia.
Qed.
End enumerations.

(** ** The calls that fill a struct *)

Section calls.
Context `{World} `{JsonParser} `{PercentEncoding} `{SqliteLaws} `{BuildProfile} `{Murmur3Laws}.
Context `{Os} `{TomlParser} `{Env} `{SqliteFile} `{!SqliteFileLaws}.

(** A call that keeps the module alive and returns a status. *)
Definition call_alive {C} (r : outcome undefined_behaviour NssStatus) (c' : call C) : Prop :=
  nss_alive (call_nss c') ∧ ∃ s, r = Ok s.

Lemma disciplined_returns {R} n (c c' : caller R) r : disciplined n c c' r → ∃ s, r = Ok s.
Proof. destruct r as [s|e|]; intros [_ Hr]; by eauto. Qed.

Lemma framed_call_alive {R} buflen m (c : call (caller R)) :
  nss_alive (call_nss c) → (∀ w, preserves (call_framed w) m) →
  wp m (call_post buflen c) c → wp m call_alive c.
Proof.
  intros Hw Hf [Hinv Hd]. split; [|by eapply disciplined_returns].
  eapply alive_same_statics; [exact Hw|exact Hinv|].
  apply (Hf (call_nss c) c). by split.
Qed.

Lemma getent_alive {A R} buflen l get set (fill : A → M (caller R) undefined_behaviour NssStatus)
    (c : call (caller R)) :
  nss_alive (call_nss c) → wp (getent_r l get set fill) (call_post buflen c) c →
  (∀ w entries idx, nss_alive w → get w = Some (entries, idx) → idx < length entries →
    nss_alive (set (Some (entries, S idx)) w)) →
  wp (getent_r l get set fill) call_alive c.
Proof.
  intros Hw [_ Hd] Hset. split; [|by eapply disciplined_returns]. clear Hd.
  unfold getent_r, bind at 1, lock, on_nss at 1, zoom. cbn [call_nss set_nss].
  rewrite (alive_locks _ Hw). cbn [negb]. unfold bind at 1, on_nss at 1, zoom. cbn [call_nss set_nss].
  destruct (get (call_nss c)) as [[entries idx]|] eqn:Hget; [|exact Hw].
  case_bool_decide as Hidx; [exact Hw|].
  destruct (entries !! idx) as [a|]; [|exact Hw].
  unfold bind at 1, on_args, zoom. cbn [call_args call_nss set_nss].
  destruct (fill a (call_args c)) as [[s|e|] cl]; [|exact Hw..].
  unfold bind. case_bool_decide; cbn; [|exact Hw]. apply Hset; [exact Hw|done|lia].
Qed.

Lemma initgroups_alive user group (c : call group_array) :
  nss_alive (call_nss c) → array_ok (call_args c) →
  wp (nss_oidc_initgroups_dyn user group) call_alive c.
Proof.
  intros Hw Ha. pose proof (framed_initgroups (call_nss c) user group c) as Hf.
  enough (wp (nss_oidc_initgroups_dyn user group) (λ r c', nss_inv (call_nss c') ∧ ∃ s, r = Ok s) c)
    as [Hinv Hr].
  { split; [|done]. eapply alive_same_statics; [exact Hw|exact Hinv|]. apply Hf. by split. }
  eapply wp_mono; [apply initgroups_wp; [apply Hw|done]|]. intros r c' [Hinv Hr]. split; [done|].
  unfold initgroups_answered in Hr. destruct (valid_utf8 user); [|destruct Hr as [-> _]; by eexists].
  destruct Hr as (st & w & _ & Hr). destruct st as [st|]; [|destruct Hr as [-> _]; by eexists].
  destruct (nss_poisoned w ServiceLock); [destruct Hr as [-> _]; by eexists|].
  destruct (lookup_groups_for_user _ _ _) as [[gids|e|] b]; cbn in Hr; [|destruct Hr as [-> _]; by eexists|done].
  destruct Hr as [(_ & _ & _ & _ & _ & Hr) _]. destruct (bool_decide _); destruct Hr as [-> _]; by eexists.
Qed.

Lemma users_advance w entries idx :
  nss_alive w → nss_users w = Some (entries, idx) → idx < length entries →
  nss_alive (set_users (Some (entries, S idx)) w).
Proof. intros Hw _ Hi. apply alive_set_users; [done|]. intros e i [= <- <-]. lia. Qed.
Lemma groups_advance w entries idx :
  nss_alive w → nss_groups w = Some (entries, idx) → idx < length entries →
  nss_alive (set_groups (Some (entries, S idx)) w).
Proof. intros Hw _ Hi. apply alive_set_groups; [done|]. intros e i [= <- <-]. lia. Qed.

Lemma endpwent_alive w : nss_alive w → wp nss_oidc_endpwent (λ r w', nss_alive w' ∧ r ≠ Panic) w.
Proof.
  intros Hw. unfold nss_oidc_endpwent, wp, bind, lock. rewrite (alive_locks _ Hw). simpl.
  split; [|done]. by apply alive_set_users.
Qed.
Lemma endgrent_alive w : nss_alive w → wp nss_oidc_endgrent (λ r w', nss_alive w' ∧ r ≠ Panic) w.
Proof.
  intros Hw. unfold nss_oidc_endgrent, wp, bind, lock. rewrite (alive_locks _ Hw). simpl.
  split; [|done]. by apply alive_set_groups.
Qed.

(** Every function, called on a live module with arguments it allows. *)
Definition all_calls_return (w : nss) : Prop :=
  (∀ name uid buflen cl, passwd_caller_ok (buflen, cl) → let c := mk_call w cl in
    wp (nss_oidc_getpwnam_r name buflen) call_alive c ∧
    wp (nss_oidc_getpwuid_r uid buflen) call_alive c ∧
    wp (nss_oidc_getpwent_r buflen) call_alive c) ∧
  (∀ name gid buflen cl, group_caller_ok (buflen, cl) → let c := mk_call w cl in
    wp (nss_oidc_getgrnam_r name buflen) call_alive c ∧
    wp (nss_oidc_getgrgid_r gid buflen) call_alive c ∧
    wp (nss_oidc_getgrent_r buflen) call_alive c) ∧
  (∀ user group a, array_ok a → wp (nss_oidc_initgroups_dyn user group) call_alive (mk_call w a)) ∧
  wp nss_oidc_setpwent (λ r w', nss_alive w' ∧ r ≠ Panic) w ∧
  wp nss_oidc_endpwent (λ r w', nss_alive w' ∧ r ≠ Panic) w ∧
  wp nss_oidc_setgrent (λ r w', nss_alive w' ∧ r ≠ Panic) w ∧
  wp nss_oidc_endgrent (λ r w', nss_alive w' ∧ r ≠ Panic) w.

Lemma alive_calls_return w : nss_alive w → all_calls_return w.
Proof.
  intros Hw. pose proof (alive_inv w Hw) as Hinv. split_and!.
  - intros name uid buflen cl Hok c. split_and!.
    + eapply framed_call_alive; [done|intros w0; apply framed_passwd_by_name|by apply getpwnam_wp].
    + eapply framed_call_alive; [done|intros w0; apply framed_lookup|by apply getpwuid_wp].
    + eapply getent_alive; [done|by apply getpwent_wp|apply users_advance].
  - intros name gid buflen cl Hok c. split_and!.
    + eapply framed_call_alive; [done|intros w0; apply framed_group_by_name|by apply getgrnam_wp].
    + eapply framed_call_alive; [done|intros w0; apply framed_lookup|by apply getgrgid_wp].
    + eapply getent_alive; [done|by apply getgrent_wp|apply groups_advance].
  - intros user group a Ha. by apply initgroups_alive.
  - by apply setpwent_alive.
  - by apply endpwent_alive.
  - by apply setgrent_alive.
  - by apply endgrent_alive.
Qed.

Lemma nss_step_alive w w' : nss_step w w' → nss_alive w → nss_alive w'.
Proof.
  intros Hstep Hw. destruct (alive_calls_return w Hw) as (Hp & Hg & Hi & Hsp & Hep & Hsg & Heg).
  destruct Hstep as [name buflen cl Hok|uid buflen cl Hok|name buflen cl Hok|gid buflen cl Hok
    |user group a Ha| |buflen cl Hok| | |buflen cl Hok|].
  - by destruct (Hp name 0%Z buflen cl Hok) as ([Ha _] & _ & _).
  - by destruct (Hp "" uid buflen cl Hok) as (_ & [Ha _] & _).
  - by destruct (Hg name 0%Z buflen cl Hok) as ([Ha _] & _ & _).
  - by destruct (Hg "" gid buflen cl Hok) as (_ & [Ha _] & _).
  - by destruct (Hi user group a Ha) as [Ha' _].
  - apply Hsp.
  - by destruct (Hp "" 0%Z buflen cl Hok) as (_ & _ & [Ha _]).
  - apply Hep.
  - apply Hsg.
  - by destruct (Hg "" 0%Z buflen cl Hok) as (_ & _ & [Ha _]).
  - apply Heg.
Qed.

(** The life of the module in a host process. Loaded into a process, with
    the files, the network and the database of a deployment with usable ranges,
    it stays sound through every sequence of calls of its eleven functions: the
    cache satisfies the schema, no enumeration runs past its end, no mutex is
    ever poisoned, and the next call, whichever it is, returns a status. *)
Theorem nss_reachable_invariant fs d w :
  db_wf d → deployed fs → rtc nss_step (mk_nss fs [] d None None None (λ _, false)) w →
  nss_alive w ∧ all_calls_return w.
Proof.
  intros Hd Hfs Hw. assert (nss_alive w) as Ha; [|split; [done|by apply alive_calls_return]].
  revert w Hw. apply rtc_ind_r; [|intros w w' _ Hs; by apply nss_step_alive].
  by split; [split| | |].
Qed.
End calls.

(** ** What is enumerated *)

Section listing.
Context `{World} `{JsonParser} `{PercentEncoding} `{SqliteLaws} `{BuildProfile} `{Murmur3Laws}.
Context `{Os} `{TomlParser} `{Env} `{SqliteFile} `{!SqliteFileLaws}.

(** The body of the loops of [list_all_users] and [list_all_groups]. *)
Definition admit_user svc (su : ScimUser) : M backend ServiceError User :=
  let? user := scim_user_to_model svc su in
  map_err from (on_db (store_user user)) ;;? ret user.
Definition admit_group svc (sg : ScimGroup) : M backend ServiceError Group :=
  let? group := scim_group_to_model svc sg in
  map_err from (on_db (store_group group)) ;;? ret group.

(** Where every resource of a listing can be admitted, the conversion of
    [setpwent], which skips failures, is that loop, which stops at the first. *)
Lemma convert_users_listing {E} svc sus b us b' :
  collect sus (admit_user svc) b = (Ok us, b') → convert_users (E:=E) svc sus b = (Ok us, b').
Proof.
  revert b us. induction sus as [|su sus IH]; intros b us; [by intros [= <- <-]|].
  cbn [collect convert_users]. unfold bind at 1, admit_user at 1, try_with at 1, bind at 1.
  destruct (scim_user_to_model svc su b) as [[u|e|] b1]; [|done..].
  unfold bind, ret, map_err, try_with, on_db, zoom.
  destruct (store_user u (bk_db b1)) as [[[]|e|] d2]; [|done..].
  destruct (collect sus _ _) as [[us'|e|] b3] eqn:Hc; [|done..].
  intros [= <- <-]. by rewrite (IH _ _ Hc).
Qed.

Lemma convert_groups_listing {E} svc sgs b gs b' :
  collect sgs (admit_group svc) b = (Ok gs, b') → convert_groups (E:=E) svc sgs b = (Ok gs, b').
Proof.
  revert b gs. induction sgs as [|sg sgs IH]; intros b gs; [by intros [= <- <-]|].
  cbn [collect convert_groups]. unfold bind at 1, admit_group at 1, try_with at 1, bind at 1.
  destruct (scim_group_to_model svc sg b) as [[g|e|] b1]; [|done..].
  unfold bind, ret, map_err, try_with, on_db, zoom.
  destruct (store_group g (bk_db b1)) as [[[]|e|] d2]; [|done..].
  destruct (collect sgs _ _) as [[gs'|e|] b3] eqn:Hc; [|done..].
  intros [= <- <-]. by rewrite (IH _ _ Hc).
Qed.

(** C10: in a started module with usable id ranges, where the listings succeed,
    [setpwent] and the calls of [getpwent_r] after it deliver the service's
    listing of all users, each user once and in the listing's order, whatever
    buffers the caller tries; and [setgrent] with [getgrent_r] that of all
    groups. The starting call leaves the network and the cache as the listing
    does. *)
Theorem enumeration_is_the_listing w st us bu gs bg pcalls gcalls :
  nss_alive w → nss_state w = Some (Some st) → ns_scim st = svc_scim (ns_service st) →
  list_all_users (ns_service st) (nss_backend w) = (Ok us, bu) →
  list_all_groups (ns_service st) (nss_backend w) = (Ok gs, bg) →
  Forall passwd_caller_ok pcalls → Forall group_caller_ok gcalls →
  (let '(r, w1) := nss_oidc_setpwent w in
   r = Ok Success ∧ nss_backend w1 = bu ∧
   delivered (λ u b p, passwd_reads b p u) us 0 (getents nss_oidc_getpwent_r pcalls w1).1) ∧
  (let '(r, w1) := nss_oidc_setgrent w in
   r = Ok Success ∧ nss_backend w1 = bg ∧
   delivered (λ g b s, group_reads b s g) gs 0 (getents nss_oidc_getgrent_r gcalls w1).1).
Proof.
  intros Hw Hst Hscim Hlu Hlg Hpc Hgc. split.
  - rewrite setpwent_start, (start_enumeration_run _ _ _ _ w st Hw Hst).
    unfold list_all_users, bind at 1, map_err, on_net, zoom in Hlu. rewrite Hscim.
    cbn [bk_net nss_backend] in Hlu.
    destruct (list_users _ _) as [[sus|e|] log]; [|done..].
    rewrite (convert_users_listing _ _ _ _ _ Hlu).
    pose proof (getpwent_deliver pcalls (set_users (Some (us, 0)) (set_backend bu w)) us 0 Hpc
      (alive_locks w Hw UserEnumLock) eq_refl) as Hd.
    destruct (getents _ _ _) as [rs w2]. split_and!; [done|by destruct bu|apply Hd].
  - rewrite setgrent_start, (start_enumeration_run _ _ _ _ w st Hw Hst).
    unfold list_all_groups, bind at 1, map_err, on_net, zoom in Hlg. rewrite Hscim.
    cbn [bk_net nss_backend] in Hlg.
    destruct (list_groups _ _) as [[sgs|e|] log]; [|done..].
    rewrite (convert_groups_listing _ _ _ _ _ Hlg).
    pose proof (getgrent_deliver gcalls (set_groups (Some (gs, 0)) (set_backend bg w)) gs 0 Hgc
      (alive_locks w Hw GroupEnumLock) eq_refl) as Hd.
    destruct (getents _ _ _) as [rs w2]. split_and!; [done|by destruct bg|apply Hd].
Qed.
End listing.

(** ** Lookups by name and by id *)

Section agreement.
Context `{World} `{JsonParser} `{PercentEncoding} `{SqliteLaws} `{BuildProfile} `{Murmur3Laws}.
Context `{Os} `{TomlParser} `{Env} `{SqliteFile} `{!SqliteFileLaws}.

(** A lookup of a live module that has its state: the service is asked, and a
    user it gives is packed. *)
Lemma lookup_call_run {A R} (lookup : NssState → M backend ServiceError (option A))
    (fill : A → M (caller R) undefined_behaviour NssStatus) w st cl :
  nss_alive w → nss_state w = Some (Some st) →
  with_service (set_errno 0) (λ state, answer (set_errno 0) (lookup state) fill) (mk_call w cl) =
    match lookup st (nss_backend w) with
    | (Ok (Some x), b) => ((fill x cl).1, mk_call (set_backend b w) (fill x cl).2)
    | (Ok None, b) => (Ok NotFound, mk_call (set_backend b w) (mk_caller (cl_buf cl) (cl_result cl) 0))
    | (Err _, b) => (Ok Unavail, mk_call (set_backend b w) (mk_caller (cl_buf cl) (cl_result cl) 0))
    | (Panic, b) => (Panic, mk_call (set_backend b w) cl)
    end.
Proof.
  intros Hw Hst. unfold with_service.
  rewrite (bind_run _ _ _ (Some st) (mk_call w cl)).
  2: { unfold on_nss, zoom. cbn [call_nss]. by rewrite (get_state_again w _ Hst). }
  rewrite (bind_run _ _ _ true (mk_call w cl)).
  2: { unfold on_nss, zoom, lock. cbn [call_nss]. by rewrite (alive_locks w Hw). }
  unfold answer, try_with, on_nss, on_backend, zoom. cbn [call_nss].
  change (mk_backend (nss_net w) (nss_db w)) with (nss_backend w).
  destruct (lookup st (nss_backend w)) as [[[x|]|e|] b]; [|done..].
  unfold on_args, zoom. cbn. by destruct (fill x cl).
Qed.

Lemma set_backend_backend b w : nss_backend (set_backend b w) = b.
Proof. by destruct b. Qed.

(** C28: in a started module with usable id ranges and no poisoned mutex, where no SQL
    statement fails and the two calls follow each other within the ttl: when
    [getpwnam_r] succeeds for a user that SCIM knows, [getpwuid_r] of the uid it
    returned gives the same user, so that both structs read back as one user,
    unless the second buffer is too small for it. *)
Theorem uid_lookup_agrees_with_name_lookup w st name su n1 n2 cl1 cl2 :
  nss_alive w → nss_state w = Some (Some st) →
  no_faults → (0 ≤ ttl_seconds (svc_cache (ns_service st)) < 2 ^ 63)%Z →
  within_ttl (ttl_seconds (svc_cache (ns_service st))) →
  (Scim.get_user_by_name (svc_scim (ns_service st)) name (nss_net w)).1 = Ok (Some su) →
  passwd_caller_ok (n1, cl1) → passwd_caller_ok (n2, cl2) →
  let '(r1, c1) := nss_oidc_getpwnam_r name n1 (mk_call w cl1) in
  r1 = Ok Success →
  let p1 := cl_result (call_args c1) in
  let '(r2, c2) := nss_oidc_getpwuid_r (pw_uid p1) n2 (mk_call (call_nss c1) cl2) in
  ∃ u, user_external_id u = su_id su ∧ user_name u = su_user_name su ∧
    passwd_reads (cl_buf (call_args c1)) p1 u ∧
    ((r2 = Ok Success ∧ passwd_reads (cl_buf (call_args c2)) (cl_result (call_args c2)) u) ∨
     (r2 = Ok TryAgain ∧ cl_errno (call_args c2) = ERANGE)).
Proof.
  intros Hw Hst Hnf Httl Hwithin Hscim Hok1 Hok2.
  unfold nss_oidc_getpwnam_r, passwd_by_name. destruct (valid_utf8 name); cbn [negb]; [|done].
  rewrite (lookup_call_run (λ s, lookup_user_by_name (ns_service s) name)
    (λ u, fill_passwd_buf u n1) w st cl1 Hw Hst).
  destruct (decide (String.length name ≤ MAX_NAME_LEN)) as [Hlen|Hlen].
  2: { unfold lookup_user_by_name. by rewrite bool_decide_eq_true_2 by lia. }
  pose proof (lookup_by_uid_agrees (ns_service st) name su (nss_backend w)
    (inv_nss_ranges w (alive_inv w Hw) st Hst) (inv_nss_db w (alive_inv w Hw)) Hnf Httl Hwithin Hlen Hscim) as Hagree.
  pose proof (safe_lookup_user_by_name (ns_service st) (inv_nss_ranges w (alive_inv w Hw) st Hst) name
    (nss_backend w) (inv_nss_db w (alive_inv w Hw))) as [Hb _].
  unfold wp in Hagree. revert Hagree Hb.
  destruct (lookup_user_by_name (ns_service st) name (nss_backend w)) as [[[u|]|e|] b]; [|done..].
  intros [?|(uid & gid & [= ->] & Hagree)] Hb Hr1; [done|]. cbn [snd] in Hagree. pose proof (fill_passwd_buf_wp (user_of (ns_service st) su uid gid) n1 cl1 Hok1) as [_ Hfill1].
  cbn [call_args call_nss]. case_bool_decide; [|by destruct Hfill1; congruence].
  destruct Hfill1 as (_ & _ & Hread1).
  assert (pw_uid (cl_result (fill_passwd_buf (user_of (ns_service st) su uid gid) n1 cl1).2) = uid) as -> by apply Hread1.
  assert (nss_alive (set_backend b w)) as Hw1 by by apply set_backend_alive.
  unfold nss_oidc_getpwuid_r, passwd_by_uid.
  rewrite (lookup_call_run (λ s, lookup_user_by_uid (ns_service s) uid)
    (λ u, fill_passwd_buf u n2) (set_backend b w) st cl2 Hw1 Hst).
  rewrite set_backend_backend. cbn [user_uid user_of].
  destruct (lookup_user_by_uid (ns_service st) uid b) as [r2 b2]. cbn [fst] in Hagree. subst r2.
  exists (user_of (ns_service st) su uid gid). split; [done|split; [done|split; [exact Hread1|]]].
  pose proof (fill_passwd_buf_wp (user_of (ns_service st) su uid gid) n2 cl2 Hok2) as [_ Hfill2].
  case_bool_decide; [left|right]; by destruct Hfill2 as (? & ? & ?).
Qed.
End agreement.

(** ** Witnesses: the module against the mock server *)

#[local] Existing Instance idp_world.
#[local] Existing Instance idp_parser.
#[local] Existing Instance ascii_percent_encoding.
#[local] Existing Instance NssProps.engine.
#[local] Existing Instance NssProps.engine_laws.
#[local] Existing Instance release_build.
#[local] Existing Instance byte_sum_hash.
#[local] Existing Instance byte_sum_hash_laws.
#[local] Existing Instance root_os.
#[local] Existing Instance no_env.
#[local] Existing Instance mock_toml.
#[local] Existing Instance creating_open.
#[local] Existing Instance mock_file_laws.

Lemma nss_reachable_invariant_witness :
  nss_alive (nss_oidc_endpwent (nss_oidc_setpwent loaded_module).2).2 ∧
  all_calls_return (nss_oidc_endpwent (nss_oidc_setpwent loaded_module).2).2.
Proof.
  apply (nss_reachable_invariant installed empty_db _ db_wf_empty (mock_deployed installed)).
  eapply rtc_l; [apply step_setpwent|]. apply rtc_once, step_endpwent.
Defined.

Definition mock_state : NssState := mk_nss_state (ScimClient_new mock_base "token") mock_service.

Lemma started_module_alive : nss_alive started_module.
Proof.
  split; [exact started_module_inv|..].
  - intros entries idx H. vm_compute in H. discriminate.
  - intros entries idx H. vm_compute in H. discriminate.
  - intros l. vm_compute. reflexivity.
Qed.
Lemma started_module_state : nss_state started_module = Some (Some mock_state).
Proof. vm_compute. reflexivity. Qed.

Definition mock_users : list User :=
  [mk_user "user-uuid-alice-001" "alice" 201676 201590 "Alice Smith" "/home/alice" "/bin/bash" true;
   mk_user "user-uuid-bob-002" "disabled_bob" 201474 201474 "Bob Disabled" "/home/disabled_bob"
     "/bin/bash" false].
Definition mock_groups : list Group :=
  [mk_group "group-uuid-eng-001" "engineering" 201590 ["alice"]].

Example started_users :
  (list_all_users mock_service (nss_backend started_module)).1 = Ok mock_users.
Proof. vm_compute. reflexivity. Qed.
Example started_groups :
  (list_all_groups mock_service (nss_backend started_module)).1 = Ok mock_groups.
Proof. vm_compute. reflexivity. Qed.

Lemma enumeration_is_the_listing_witness :
  let calls := [(10, blank 10 no_passwd); (64, blank 64 no_passwd); (64, blank 64 no_passwd)] in
  let w1 := (nss_oidc_setpwent started_module).2 in
  delivered (λ u b p, passwd_reads b p u) mock_users 0 (getents nss_oidc_getpwent_r calls w1).1.
Proof.
  intros calls w1.
  assert (Hcalls : Forall passwd_caller_ok calls)
    by (repeat constructor; unfold passwd_caller_ok; vm_compute; lia).
  assert (Hnone : Forall group_caller_ok []) by constructor.
  destruct (list_all_users mock_service (nss_backend started_module)) as [ru bu] eqn:Hu.
  destruct (list_all_groups mock_service (nss_backend started_module)) as [rg bg] eqn:Hg.
  pose proof started_users as Hsu. rewrite Hu in Hsu. cbn [fst] in Hsu. subst ru.
  pose proof started_groups as Hsg. rewrite Hg in Hsg. cbn [fst] in Hsg. subst rg.
  pose proof (enumeration_is_the_listing started_module mock_state mock_users bu mock_groups bg
    calls [] started_module_alive started_module_state eq_refl Hu Hg Hcalls Hnone) as [Hd _].
  subst w1. destruct (nss_oidc_setpwent started_module) as [r w1].
  exact (proj2 (proj2 Hd)).
Defined.

Lemma uid_lookup_agrees_with_name_lookup_witness :
  let '(r1, c1) := nss_oidc_getpwnam_r "alice" 64 (mk_call started_module (blank 64 no_passwd)) in
  r1 = Ok Success ∧
  let '(r2, c2) := nss_oidc_getpwuid_r 201676 64 (mk_call (call_nss c1) (blank 64 no_passwd)) in
  ∃ u, user_external_id u = "user-uuid-alice-001" ∧
    passwd_reads (cl_buf (call_args c1)) (cl_result (call_args c1)) u ∧
    ((r2 = Ok Success ∧ passwd_reads (cl_buf (call_args c2)) (cl_result (call_args c2)) u) ∨
     (r2 = Ok TryAgain ∧ cl_errno (call_args c2) = ERANGE)).
Proof.
  assert (Hok : passwd_caller_ok (64, blank 64 no_passwd)) by (unfold passwd_caller_ok; vm_compute; lia).
  pose proof (uid_lookup_agrees_with_name_lookup started_module mock_state "alice" alice 64 64
    (blank 64 no_passwd) (blank 64 no_passwd) started_module_alive started_module_state) as Hagree.
  assert (H1 : (nss_oidc_getpwnam_r "alice" 64 (mk_call started_module (blank 64 no_passwd))).1 = Ok Success)
    by (vm_compute; reflexivity).
  assert (H2 : pw_uid (cl_result (call_args (nss_oidc_getpwnam_r "alice" 64
    (mk_call started_module (blank 64 no_passwd))).2)) = 201676%Z) by (vm_compute; reflexivity).
  destruct (nss_oidc_getpwnam_r "alice" 64 (mk_call started_module (blank 64 no_passwd))) as [r1 c1].
  cbn [fst snd] in H1, H2. split; [exact H1|]. cbv zeta in Hagree. rewrite H2 in Hagree.
  destruct (nss_oidc_getpwuid_r 201676 64 (mk_call (call_nss c1) (blank 64 no_passwd))) as [r2 c2].
  destruct Hagree as (u & He & _ & Hr1 & Hr2).
  - intros n. reflexivity.
  - vm_compute. split; congruence.
  - intros n m. vm_compute. reflexivity.
  - vm_compute. reflexivity.
  - exact Hok.
  - exact Hok.
  - exact H1.
  - exists u. split; [exact He|]. split; [exact Hr1|exact Hr2].
Defined.
