(* ===== verification/Oidc.v ===== *)
(** * Oidc: discovery, the device code flow and ID tokens ([src/oidc.rs]) *)

From S2P Require Import Prelude Text Value Fs Http.
From Stdlib Require Import Ascii.
From stdpp Require Import prelude strings list.

(** The [jsonwebtoken] crate: its keys, its errors, and the functions the client
    calls. A [Validation] holds what the client sets. *)
Inductive jwt_error := mk_jwt_error (text : string).

Record JwtHeader (alg : Type) := mk_jwt_header {
  jh_alg : alg;
  jh_kid : option string;
}.
Arguments mk_jwt_header {alg} _ _.
Arguments jh_alg {alg} _.
Arguments jh_kid {alg} _.

Record Validation (alg : Type) := mk_validation {
  val_algorithm : alg;
  val_issuer : list string;
  val_audience : list string;
  val_required_spec_claims : list string;
  val_validate_exp : bool;
}.
Arguments mk_validation {alg} _ _ _ _ _.
Arguments val_algorithm {alg} _.
Arguments val_issuer {alg} _.
Arguments val_audience {alg} _.
Arguments val_required_spec_claims {alg} _.
Arguments val_validate_exp {alg} _.

Class Jsonwebtoken := {
  jwt_alg : Type;
  jwk : Type;
  decoding_key : Type;
  decode_header : string → jwt_error + JwtHeader jwt_alg;
  decode_JwkSet : decoder (list jwk);
  jwk_find : list jwk → string → option jwk;
  from_jwk : jwk → jwt_error + decoding_key;
  jwt_decode : ∀ A, decoder A → net → string → decoding_key → Validation jwt_alg → jwt_error + A;
}.
Arguments jwt_decode {_ A} _ _ _ _ _.

Inductive OidcError :=
  | Oidc_http (e : ureq_error)
  | Oidc_io (e : io_error)
  | MissingField (name : string)
  | IssuerMismatch (expected actual : string)
  | InsecureEndpoint (text : string)
  | AuthorizationPending
  | SlowDown
  | ExpiredToken
  | TokenError (text : string)
  | MissingIdToken
  | SubjectMismatch (token_sub expected : string)
  | IdTokenDecode (text : string)
  | JwtValidation (e : jwt_error).

#[export] Instance oidc_error_from_ureq : From ureq_error OidcError := Oidc_http.
#[export] Instance oidc_error_from_jwt : From jwt_error OidcError := JwtValidation.

Record OidcEndpoints := mk_endpoints {
  ep_device_authorization : string;
  ep_token : string;
  ep_issuer : string;
  ep_jwks_uri : string;
}.

Record DeviceAuthResponse := mk_device_auth {
  da_device_code : string;
  da_user_code : string;
  da_verification_uri : string;
  da_verification_uri_complete : option string;
  da_expires_in : Z;
  da_interval : Z;
}.

Definition default_interval : Z := 5.

Record TokenResponse := mk_token_response {
  tr_access_token : string;
  tr_id_token : option string;
  tr_token_type : string;
}.

Record TokenErrorResponse := mk_token_error { te_error : string }.

Record DiscoveryDocument := mk_discovery {
  dd_issuer : option string;
  dd_token_endpoint : option string;
  dd_device_authorization_endpoint : option string;
  dd_jwks_uri : option string;
}.

Record IdTokenClaims := mk_claims {
  cl_sub : string;
  cl_iss : string;
  cl_aud : value;
  cl_exp : Z;
  cl_iat : option Z;
}.

Definition decode_DeviceAuthResponse : decoder DeviceAuthResponse := λ v,
  v ← as_struct 6 v;
  device_code ← required v 0 "device_code" decode_string;
  user_code ← required v 1 "user_code" decode_string;
  verification_uri ← required v 2 "verification_uri" decode_string;
  complete ← optional v 3 "verification_uri_complete" decode_string;
  expires_in ← required v 4 "expires_in" decode_u64;
  interval ← defaulted v 5 "interval" default_interval decode_u64;
  Some (mk_device_auth device_code user_code verification_uri complete expires_in interval).

Definition decode_TokenResponse : decoder TokenResponse := λ v,
  v ← as_struct 3 v;
  access_token ← required v 0 "access_token" decode_string;
  id_token ← optional v 1 "id_token" decode_string;
  token_type ← required v 2 "token_type" decode_string;
  Some (mk_token_response access_token id_token token_type).

Definition decode_TokenErrorResponse : decoder TokenErrorResponse := λ v,
  v ← as_struct 1 v;
  error ← required v 0 "error" decode_string;
  Some (mk_token_error error).

Definition decode_DiscoveryDocument : decoder DiscoveryDocument := λ v,
  v ← as_struct 4 v;
  issuer ← optional v 0 "issuer" decode_string;
  token ← optional v 1 "token_endpoint" decode_string;
  device ← optional v 2 "device_authorization_endpoint" decode_string;
  jwks ← optional v 3 "jwks_uri" decode_string;
  Some (mk_discovery issuer token device jwks).

Definition decode_IdTokenClaims : decoder IdTokenClaims := λ v,
  v ← as_struct 5 v;
  sub ← required v 0 "sub" decode_string;
  iss ← required v 1 "iss" decode_string;
  aud ← required v 2 "aud" Some;
  exp ← required v 3 "exp" decode_u64;
  iat ← defaulted v 4 "iat" None (decode_option decode_u64);
  Some (mk_claims sub iss aud exp iat).

Record OidcClient := mk_oidc_client {
  oc_endpoints : OidcEndpoints;
  oc_client_id : string;
  oc_client_secret : option string;
}.

Definition get_request (url : string) : Request := mk_request GET url [] [] [].
Definition post_form (url : string) (form : list (string * string)) : Request :=
  mk_request POST url [] [] form.

(** [opt.ok_or_else(|| ..)?] *)
Definition ok_or {S E A} (o : option A) (e : E) : M S E A :=
  match o with Some a => ret a | None => throw e end.

(** A [Result] of the JWT crate, with the conversion of [?]. *)
Definition of_jwt {S A} (r : jwt_error + A) : M S OidcError A :=
  match r with inl e => throw (from e) | inr a => ret a end.

Section discovery.
Context `{World} `{JsonParser}.

Definition discover_with_options (issuer_url client_id : string) (client_secret : option string)
    (require_https : bool) : M net OidcError OidcClient :=
  let canonical_issuer := trim_end_matches "/"%char issuer_url in
  let url := canonical_issuer +:+ "/.well-known/openid-configuration" in
  let? response := map_err from (ureq_send true (get_request url)) in
  let? doc := map_err from (read_json decode_DiscoveryDocument response) in
  let? issuer := ok_or (dd_issuer doc) (MissingField "issuer") in
  let? token_endpoint := ok_or (dd_token_endpoint doc) (MissingField "token_endpoint") in
  let? device_authorization_endpoint := ok_or (dd_device_authorization_endpoint doc)
    (MissingField "device_authorization_endpoint") in
  let? jwks_uri := ok_or (dd_jwks_uri doc) (MissingField "jwks_uri") in
  let canonical_discovered := trim_end_matches "/"%char issuer in
  if bool_decide (canonical_discovered ≠ canonical_issuer)
  then throw (IssuerMismatch canonical_issuer issuer)
  else
    (if require_https
     then for_each
       [("token_endpoint", token_endpoint);
        ("device_authorization_endpoint", device_authorization_endpoint);
        ("jwks_uri", jwks_uri)]
       (λ '(name, endpoint),
         if negb (starts_with "https://" endpoint)
         then throw (InsecureEndpoint (name +:+ ": " +:+ endpoint)) else ret tt)
     else ret tt) ;;?
    ret (mk_oidc_client
      (mk_endpoints device_authorization_endpoint token_endpoint issuer jwks_uri)
      client_id client_secret).

Definition discover (issuer_url client_id : string) (client_secret : option string)
    : M net OidcError OidcClient :=
  discover_with_options issuer_url client_id client_secret true.
Definition discover_insecure (issuer_url client_id : string) (client_secret : option string)
    : M net OidcError OidcClient :=
  discover_with_options issuer_url client_id client_secret false.
End discovery.

Section client.
Context `{World} `{JsonParser} (self : OidcClient).

(** [if let Some(ref secret) = self.client_secret { form.push(..) }] *)
Definition with_secret (form : list (string * string)) : list (string * string) :=
  match oc_client_secret self with
  | Some secret => form ++ [("client_secret", secret)]
  | None => form
  end.

Definition request_device_code (scope : string) : M net OidcError DeviceAuthResponse :=
  let form := with_secret [("client_id", oc_client_id self); ("scope", scope)] in
  let? response := map_err from
    (ureq_send true (post_form (ep_device_authorization (oc_endpoints self)) form)) in
  map_err from (read_json decode_DeviceAuthResponse response).

Definition token_request (device_code : string) : Request :=
  post_form (ep_token (oc_endpoints self)) (with_secret
    [("client_id", oc_client_id self);
     ("grant_type", "urn:ietf:params:oauth:grant-type:device_code");
     ("device_code", device_code)]).

(** [match err_resp.error.as_str() { .. }] *)
Definition poll_error (error : string) : OidcError :=
  match error with
  | "authorization_pending" => AuthorizationPending
  | "slow_down" => SlowDown
  | "expired_token" => ExpiredToken
  | other => TokenError other
  end.

Definition poll_for_token (device_code : string) : M net OidcError TokenResponse :=
  let? response := map_err from (ureq_send false (token_request device_code)) in
  if bool_decide (200 ≤ resp_status response < 300)%Z
  then map_err from (read_json decode_TokenResponse response)
  else
    let? body := map_err from (read_body response) in
    match json_parse body ≫= decode_TokenErrorResponse with
    | Some err_resp => throw (poll_error (te_error err_resp))
    | None => throw (TokenError body)
    end.

Context `{BuildProfile}.

(** The polling [loop], [fuel] iterations of it; [None] when they are used up. *)
Fixpoint poll_loop (fuel : nat) (device_code : string) (deadline interval_secs : Z)
    : M net OidcError (option TokenResponse) :=
  match fuel with
  | O => ret None
  | S fuel =>
      sleep interval_secs ;;?
      let? t := now in
      if bool_decide (deadline ≤ t)%Z then throw ExpiredToken
      else
        try_with (poll_for_token device_code)
          (λ token, ret (Some token))
          (λ e,
            match e with
            | AuthorizationPending => poll_loop fuel device_code deadline interval_secs
            | SlowDown =>
                let? interval_secs := u64_add interval_secs 5 in
                poll_loop fuel device_code deadline interval_secs
            | e => throw e
            end)
  end.

Definition MIN_POLL_INTERVAL_SECS : Z := 5.

(** Every iteration sleeps five seconds or more, so the deadline is met within
    this many. *)
Definition poll_fuel (expires_in : Z) : nat := Z.to_nat (expires_in `div` 5 + 1).

Definition authenticate_device_flow (scope : string)
    (display_fn : string → string → M net OidcError ()) : M net OidcError TokenResponse :=
  let? device_auth := request_device_code scope in
  display_fn (da_user_code device_auth) (da_verification_uri device_auth) ;;?
  let interval_secs := Z.max (da_interval device_auth) MIN_POLL_INTERVAL_SECS in
  let? start := now in
  let? deadline := instant_add_secs start (da_expires_in device_auth) in
  let? token := poll_loop (poll_fuel (da_expires_in device_auth)) (da_device_code device_auth)
    deadline interval_secs in
  match token with
  | Some token => ret token
  | None => panic
  end.

Context `{Jsonwebtoken}.

(** The validation the client asks for. *)
Definition id_token_validation (alg : jwt_alg) : Validation jwt_alg :=
  mk_validation alg [ep_issuer (oc_endpoints self)] [oc_client_id self] ["sub"; "exp"; "iss"] true.

Definition validate_id_token (id_token : string) : M net OidcError IdTokenClaims :=
  let? header := of_jwt (decode_header id_token) in
  let? response := map_err from (ureq_send true (get_request (ep_jwks_uri (oc_endpoints self)))) in
  let? jwks := map_err from (read_json decode_JwkSet response) in
  let? key :=
    match jh_kid header with
    | Some kid => ok_or (jwk_find jwks kid)
        (IdTokenDecode ("no JWK with kid " +:+ String "034" kid +:+ String "034" ""))
    | None => ok_or (head jwks) (IdTokenDecode "JWKS is empty")
    end in
  let? decoding_key := of_jwt (from_jwk key) in
  λ log, of_jwt (jwt_decode decode_IdTokenClaims log id_token decoding_key
    (id_token_validation (jh_alg header))) log.
End client.
