(* ===== verification/OidcProps.v ===== *)
(** * OidcProps: what the OIDC client guarantees

    Discovery, the polling loop against RFC 8628, the classification of token
    replies, and what a validated ID token says. *)

From S2P Require Import Prelude Text Value Fs Http MockIdp Oidc.
From Stdlib Require Import Ascii.
From stdpp Require Import prelude strings list.

(** ** Discovery *)

Section discovery_facts.
Context `{World} `{JsonParser}.

(** A successful [GET] of a JSON document of type [A]. *)
Definition fetched {A} (dec : decoder A) (log : net) (r : Request) (a : A) : Prop :=
  ∃ resp text, transport log r = inr resp ∧ ¬ (400 ≤ resp_status resp < 600)%Z ∧
    resp_body resp = Some text ∧ json_parse text ≫= dec = Some a.

(** [self.http.get(..).call()?.body_mut().read_json()?] *)
Definition fetch_json {A} (dec : decoder A) (r : Request) : M net OidcError A :=
  let? response := map_err from (ureq_send true r) in
  map_err from (read_json dec response).

Lemma fetch_json_cases {A} (dec : decoder A) (log : net) (r : Request) :
  (∃ a, fetched dec log r a ∧ fetch_json dec r log = (Ok a, log ++ [Sent r])) ∨
  (∃ e, (∀ a, ¬ fetched dec log r a) ∧
    fetch_json dec r log = (Err (Oidc_http e), log ++ [Sent r])).
Proof.
  unfold fetch_json, bind, map_err, ureq_send, read_json, fetched.
  destruct (transport log r) as [e|resp]; [right; exists e; split; [|done]; by intros a (?&?&?&_)|].
  simpl. destruct (bool_decide _) eqn:Hst.
  - right. eexists. split; [|done]. intros a (?&?&[= <-]&Hn&_). by apply bool_decide_eq_true in Hst.
  - apply bool_decide_eq_false in Hst. destruct (resp_body resp) as [text|] eqn:Hb; simpl.
    + destruct (json_parse text ≫= dec) as [a|] eqn:Hd; simpl.
      * left. exists a. split; [|done]. by exists resp, text.
      * right. eexists. split; [|done]. intros a (?&?&[= <-]&_&Ht&Ha). congruence.
    + right. eexists. split; [|done]. intros a (?&?&[= <-]&_&Ht&_). congruence.
Qed.

Lemma fetched_det {A} (dec : decoder A) log r a a' :
  fetched dec log r a → fetched dec log r a' → a = a'.
Proof. intros (?&?&Ht&_&Hb&Hd) (?&?&Ht'&_&Hb'&Hd'). congruence. Qed.

Lemma bind_assoc {S E A B C} (m : M S E A) (f : A → M S E B) (g : B → M S E C) s :
  bind m (λ a, bind (f a) g) s = bind (bind m f) g s.
Proof. unfold bind. by destruct (m s) as [[a|e|] s']. Qed.

Definition discovery_request (issuer_url : string) : Request :=
  get_request (trim_end_matches "/"%char issuer_url +:+ "/.well-known/openid-configuration").

(** The checks on a discovery document, without the monad: the endpoints when
    all hold. *)
Definition acceptable (issuer_url : string) (require_https : bool) (doc : DiscoveryDocument)
    (ep : OidcEndpoints) : Prop :=
  dd_issuer doc = Some (ep_issuer ep) ∧
  dd_token_endpoint doc = Some (ep_token ep) ∧
  dd_device_authorization_endpoint doc = Some (ep_device_authorization ep) ∧
  dd_jwks_uri doc = Some (ep_jwks_uri ep) ∧
  trim_end_matches "/"%char (ep_issuer ep) = trim_end_matches "/"%char issuer_url ∧
  (require_https = true →
    Forall (λ e, starts_with "https://" e = true)
      [ep_token ep; ep_device_authorization ep; ep_jwks_uri ep]).

Lemma ok_or_some {S E A} (o : option A) (e : E) (s : S) a :
  ok_or o e s = (Ok a, s) ↔ o = Some a.
Proof. destruct o; simpl; split; intros [= ->]; done. Qed.
End discovery_facts.

Section discovery_spec.
Context `{World} `{JsonParser}.

(** The part of [discover_with_options] that follows the fetch. *)
Definition check_document (issuer_url client_id : string) (client_secret : option string)
    (require_https : bool) (doc : DiscoveryDocument) : M net OidcError OidcClient :=
  let canonical_issuer := trim_end_matches "/"%char issuer_url in
  let? issuer := ok_or (dd_issuer doc) (MissingField "issuer") in
  let? token_endpoint := ok_or (dd_token_endpoint doc) (MissingField "token_endpoint") in
  let? device_authorization_endpoint := ok_or (dd_device_authorization_endpoint doc)
    (MissingField "device_authorization_endpoint") in
  let? jwks_uri := ok_or (dd_jwks_uri doc) (MissingField "jwks_uri") in
  if bool_decide (trim_end_matches "/"%char issuer ≠ canonical_issuer)
  then throw (IssuerMismatch canonical_issuer issuer)
  else
    (if require_https
     then for_each
       [("token_endpoint", token_endpoint);
        ("device_authorization_endpoint", device_authorization_endpoint);
        ("jwks_uri", jwks_uri)]
       (λ '(name, endpoint),
         if negb (starts_with "https://" endpoint)
         then throw (InsecureEndpoint (name +:+ ": " +:+ endpoint)) else ret tt)
     else ret tt) ;;?
    ret (mk_oidc_client
      (mk_endpoints device_authorization_endpoint token_endpoint issuer jwks_uri)
      client_id client_secret).

Lemma check_document_spec issuer_url client_id secret require_https doc log :
  ∃ r, check_document issuer_url client_id secret require_https doc log = (r, log) ∧ r ≠ Panic ∧
    ∀ client, r = Ok client ↔ ∃ ep, acceptable issuer_url require_https doc ep ∧
      client = mk_oidc_client ep client_id secret.
Proof.
  unfold check_document, acceptable.
  destruct doc as [[i|] [t|] [d|] [j|]];
    try (eexists; split; [done|split; [done|]]; intros client; split; [done|];
         intros (?&(?&?&?&?&_)&_); simpl in *; congruence).
  simpl. unfold bind at 1 2 3 4; simpl. unfold ret at 1 2 3 4; simpl.
  case_bool_decide as Hi.
  { eexists; split; [done|split; [done|]]. intros client. split; [done|].
    intros (ep&([= ->]&_&_&_&Hep&_)&_). done. }
  destruct require_https; simpl.
  - destruct (starts_with "https://" t) eqn:Ht; simpl;
      [destruct (starts_with "https://" d) eqn:Hd; simpl;
       [destruct (starts_with "https://" j) eqn:Hj; simpl|]|].
    1: { eexists; split; [done|split; [done|]]. intros client. split.
      - intros [= <-]. exists (mk_endpoints d t i j). repeat split; [done|].
        intros _. by repeat constructor.
      - by intros ([d' t' i' j']&([= ->]&[= ->]&[= ->]&[= ->]&_)&->). }
    all: eexists; split; [done|split; [done|]]; intros client; (split; [done|]);
      intros ([d' t' i' j']&([= ->]&[= ->]&[= ->]&[= ->]&_&Hs)&->);
      specialize (Hs eq_refl); simpl in Hs; rewrite !Forall_cons in Hs;
      destruct Hs as (?&?&?&_); congruence.
  - eexists; split; [done|split; [done|]]. intros client. split.
    + intros [= <-]. by exists (mk_endpoints d t i j).
    + by intros ([d' t' i' j']&([= ->]&[= ->]&[= ->]&[= ->]&_)&->).
Qed.

Lemma discover_with_options_cases issuer_url client_id secret require_https log :
  ∃ r, discover_with_options issuer_url client_id secret require_https log =
      (r, log ++ [Sent (discovery_request issuer_url)]) ∧ r ≠ Panic ∧
    ∀ client, r = Ok client ↔ ∃ doc ep,
      fetched decode_DiscoveryDocument log (discovery_request issuer_url) doc ∧
      acceptable issuer_url require_https doc ep ∧ client = mk_oidc_client ep client_id secret.
Proof.
  assert (discover_with_options issuer_url client_id secret require_https log =
    bind (fetch_json decode_DiscoveryDocument (discovery_request issuer_url))
      (check_document issuer_url client_id secret require_https) log) as ->.
  { unfold fetch_json. by rewrite <-bind_assoc. }
  destruct (fetch_json_cases decode_DiscoveryDocument log (discovery_request issuer_url))
    as [(doc & Hf & Hrun)|(e & Hno & Hrun)]; unfold bind at 1; rewrite Hrun.
  - destruct (check_document_spec issuer_url client_id secret require_https doc
      (log ++ [Sent (discovery_request issuer_url)])) as (r & -> & Hp & Hr).
    exists r. split; [done|split; [done|]]. intros client. rewrite Hr. split.
    + intros (ep & ? & ?). by exists doc, ep.
    + intros (doc' & ep & Hf' & ? & ?). exists ep. replace doc with doc'; [done|].
      destruct Hf as (?&?&Ht&_&Hb&Hd), Hf' as (?&?&Ht'&_&Hb'&Hd'). congruence.
  - eexists. split; [done|split; [done|]]. intros client. split; [done|].
    intros (doc & ep & Hf & _). by destruct (Hno doc).
Qed.

(** C20: [discover] and [discover_insecure] send one request, to the well-known
    document under the configured issuer, and never panic. They give a client
    exactly when that document is fetched, names all four fields, its issuer is
    the configured one up to trailing slashes and, for [discover], its three
    endpoints are [https] URLs; the client has the document's endpoints. *)
Theorem discovery_checks_the_document issuer_url client_id secret (require_https : bool) log :
  let run := if require_https then discover else discover_insecure in
  let '(r, log') := run issuer_url client_id secret log in
  log' = log ++ [Sent (discovery_request issuer_url)] ∧ r ≠ Panic ∧
  ∀ client, r = Ok client ↔ ∃ doc ep,
    fetched decode_DiscoveryDocument log (discovery_request issuer_url) doc ∧
    acceptable issuer_url require_https doc ep ∧ client = mk_oidc_client ep client_id secret.
Proof.
  destruct (discover_with_options_cases issuer_url client_id secret require_https log)
    as (r & Hrun & Hr). by destruct require_https; cbv zeta; unfold discover, discover_insecure;
    rewrite Hrun.
Qed.
End discovery_spec.

(** ** One poll *)

(** The errors of RFC 8628, and of everything else that is an error document. *)
Definition classify (error : string) : OidcError :=
  if decide (error = "authorization_pending") then AuthorizationPending
  else if decide (error = "slow_down") then SlowDown
  else if decide (error = "expired_token") then ExpiredToken
  else TokenError error.

Definition rfc8628_codes : list string := ["authorization_pending"; "slow_down"; "expired_token"].

Lemma poll_error_classify error : poll_error error = classify error.
Proof.
  unfold classify.
  destruct (decide (error = "authorization_pending")) as [->|H1]; [done|].
  destruct (decide (error = "slow_down")) as [->|H2]; [done|].
  destruct (decide (error = "expired_token")) as [->|H3]; [done|].
  unfold poll_error. repeat match goal with
  | |- context [match ?x with _ => _ end] => is_var x; destruct x; try done
  end.
Qed.

Section poll.
Context `{World} `{JsonParser} (self : OidcClient).

(** The token endpoint answers [text], with a success status or without. *)
Definition token_reply (log : net) (device_code : string) (success : bool) (text : string) : Prop :=
  ∃ resp, transport log (token_request self device_code) = inr resp ∧
    bool_decide (200 ≤ resp_status resp < 300)%Z = success ∧ resp_body resp = Some text.

(** It answers a failure whose body is an error document naming [error]. *)
Definition refused (log : net) (device_code error : string) : Prop :=
  ∃ text, token_reply log device_code false text ∧
    json_parse text ≫= decode_TokenErrorResponse = Some (mk_token_error error).

Lemma token_reply_det log dc b1 b2 t1 t2 :
  token_reply log dc b1 t1 → token_reply log dc b2 t2 → b1 = b2 ∧ t1 = t2.
Proof.
  intros (r1&H1&Hb1&Ht1) (r2&H2&Hb2&Ht2). assert (r1 = r2) as -> by congruence.
  split; [by rewrite <-Hb1, <-Hb2|congruence].
Qed.

Lemma poll_for_token_cases device_code log :
  ∃ r, poll_for_token self device_code log =
      (r, log ++ [Sent (token_request self device_code)]) ∧
    ( (∃ e, r = Err (Oidc_http e) ∧ (∀ text, ¬ token_reply log device_code false text) ∧
        ∀ text, token_reply log device_code true text →
          json_parse text ≫= decode_TokenResponse = None)
    ∨ (∃ text tok, r = Ok tok ∧ token_reply log device_code true text ∧
        json_parse text ≫= decode_TokenResponse = Some tok)
    ∨ (∃ error, r = Err (classify error) ∧ refused log device_code error)
    ∨ (∃ text, r = Err (TokenError text) ∧ token_reply log device_code false text ∧
        json_parse text ≫= decode_TokenErrorResponse = None) ).
Proof.
  unfold poll_for_token, bind at 1, map_err at 1, ureq_send.
  unfold refused, token_reply.
  destruct (transport log (token_request self device_code)) as [e|resp] eqn:Ht; simpl.
  { eexists. split; [done|]. left. exists e. split; [done|]. split; intros ? (?&?&_); congruence. }
  destruct (bool_decide (200 ≤ resp_status resp < 300)%Z) eqn:Hst; simpl.
  - unfold map_err, read_json. destruct (resp_body resp) as [text|] eqn:Hb; simpl.
    + destruct (json_parse text ≫= decode_TokenResponse) as [tok|] eqn:Hd; simpl.
      * eexists. split; [done|]. right; left. exists text, tok. split; [done|]. split; [|done].
        by exists resp.
      * eexists. split; [done|]. left. eexists. split; [done|]. split.
        { intros ? (?&[= <-]&?&_). congruence. }
        intros ? (?&[= <-]&_&?). congruence.
    + eexists. split; [done|]. left. eexists. split; [done|].
      split; intros ? (?&[= <-]&_&?); congruence.
  - unfold bind at 1, map_err at 1, read_body. destruct (resp_body resp) as [text|] eqn:Hb; simpl.
    + destruct (json_parse text ≫= decode_TokenErrorResponse) as [[error]|] eqn:Hd; simpl.
      * rewrite poll_error_classify. eexists. split; [done|]. do 2 right; left. exists error.
        split; [done|]. exists text. split; [by exists resp|done].
      * eexists. split; [done|]. do 3 right. exists text. split; [done|]. split; [|done].
        by exists resp.
    + eexists. split; [done|]. left. eexists. split; [done|].
      split; intros ? (?&[= <-]&_&?); congruence.
Qed.

Lemma codes_spec error : error ∉ rfc8628_codes ↔
  error ≠ "authorization_pending" ∧ error ≠ "slow_down" ∧ error ≠ "expired_token".
Proof.
  unfold rfc8628_codes. rewrite !not_elem_of_cons. pose proof (not_elem_of_nil error). tauto.
Qed.

Lemma classify_cases error :
  (error = "authorization_pending" ∧ classify error = AuthorizationPending) ∨
  (error = "slow_down" ∧ classify error = SlowDown) ∨
  (error = "expired_token" ∧ classify error = ExpiredToken) ∨
  (classify error = TokenError error ∧ error ∉ rfc8628_codes).
Proof.
  unfold classify. destruct (decide (error = "authorization_pending")); [by left|].
  destruct (decide (error = "slow_down")); [by right; left|].
  destruct (decide (error = "expired_token")); [by do 2 right; left|].
  do 3 right. by rewrite codes_spec.
Qed.

Lemma refused_det log dc e1 e2 : refused log dc e1 → refused log dc e2 → e1 = e2.
Proof.
  intros (t1&H1&Hd1) (t2&H2&Hd2). destruct (token_reply_det _ _ _ _ _ _ H1 H2) as [_ ->].
  congruence.
Qed.

(** C29: a poll sends one request and never panics. It yields a token exactly when
    the endpoint answers 2xx with a token document; it reports pending, slow
    down or expired exactly when it answers another status with an error
    document naming that code of RFC 8628; and it gives a [TokenError] exactly
    for another code, or for a failure whose body is no error document, which
    it then quotes. *)
Theorem poll_classifies_the_reply device_code log :
  let '(r, log') := poll_for_token self device_code log in
  log' = log ++ [Sent (token_request self device_code)] ∧ r ≠ Panic ∧
  (∀ tok, r = Ok tok ↔ ∃ text, token_reply log device_code true text ∧
    json_parse text ≫= decode_TokenResponse = Some tok) ∧
  (r = Err AuthorizationPending ↔ refused log device_code "authorization_pending") ∧
  (r = Err SlowDown ↔ refused log device_code "slow_down") ∧
  (r = Err ExpiredToken ↔ refused log device_code "expired_token") ∧
  (∀ msg, r = Err (TokenError msg) ↔
    (refused log device_code msg ∧
      msg ∉ rfc8628_codes) ∨
    (token_reply log device_code false msg ∧
      json_parse msg ≫= decode_TokenErrorResponse = None)).
Proof.
  destruct (poll_for_token_cases device_code log)
    as (r & -> & [(e&->&Hno&Hbad)|[(text&tok&->&Hr&Hd)|[(error&->&Hr)|(text&->&Hr&Hd)]]]).
  - assert (∀ c, ¬ refused log device_code c) as Hnr by (intros c (t&Ht&_); by apply (Hno t)).
    split_and!; [done|done| | | | |]; try (split; [done|intros Hx; by apply Hnr in Hx]).
    + intros tok. split; [done|]. intros (t&Ht&Hd). by rewrite (Hbad t Ht) in Hd.
    + intros msg. split; [done|]. intros [[Hx _]|[Hx _]]; [by apply Hnr in Hx|by apply Hno in Hx].
  - assert (∀ t, ¬ token_reply log device_code false t) as Hno.
    { intros t Ht. by destruct (token_reply_det _ _ _ _ _ _ Hr Ht). }
    assert (∀ c, ¬ refused log device_code c) as Hnr by (intros c (t&Ht&_); by apply (Hno t)).
    split_and!; [done|done| | | | |]; try (split; [done|intros Hx; by apply Hnr in Hx]).
    + intros tok'. split; [intros [= <-]; by exists text|]. intros (t&Ht&Hd').
      destruct (token_reply_det _ _ _ _ _ _ Hr Ht) as [_ ->]. congruence.
    + intros msg. split; [done|]. intros [[Hx _]|[Hx _]]; [by apply Hnr in Hx|by apply Hno in Hx].
  - assert (∀ c, refused log device_code c → c = error) as Hdet by (intros; by eapply refused_det).
    assert (∀ t, ¬ token_reply log device_code true t) as Hno.
    { intros t Ht. destruct Hr as (?&Hr&_). by destruct (token_reply_det _ _ _ _ _ _ Hr Ht). }
    assert (∀ m, token_reply log device_code false m →
      json_parse m ≫= decode_TokenErrorResponse ≠ None) as Hdoc.
    { intros m Hm. destruct Hr as (?&Hr&Hd).
      destruct (token_reply_det _ _ _ _ _ _ Hr Hm) as [_ ->]. by rewrite Hd. }
    split_and!; [done|done|intros tok; split; [done|intros (t&Ht&_); by apply Hno in Ht]| | | |];
      destruct (classify_cases error) as [[-> ->]|[[-> ->]|[[-> ->]|[-> Hn]]]];
      try (split; [done|intros Hx; apply Hdet in Hx; rewrite ?codes_spec in *; intuition congruence]);
      try (by split).
    all: intros msg; split; [intros [= <-]; by left|].
    all: intros [[Hx Hin]|[Hx Hd]]; [apply Hdet in Hx; rewrite ?codes_spec in *; naive_solver|by apply Hdoc in Hx].
  - assert (∀ t, ¬ token_reply log device_code true t) as Hno.
    { intros t Ht. by destruct (token_reply_det _ _ _ _ _ _ Hr Ht). }
    assert (∀ c, ¬ refused log device_code c) as Hnr.
    { intros c (t&Ht&Hd'). destruct (token_reply_det _ _ _ _ _ _ Hr Ht) as [_ ->]. congruence. }
    split_and!; [done|done| | | | |]; try (split; [done|intros Hx; by apply Hnr in Hx]).
    + intros tok. split; [done|]. intros (t&Ht&_). by apply Hno in Ht.
    + intros msg. split; [intros [= <-]; by right|]. intros [[Hx _]|[Hx _]]; [by apply Hnr in Hx|].
      by destruct (token_reply_det _ _ _ _ _ _ Hr Hx) as [_ ->].
Qed.
End poll.

(** ** The polling loop *)

Section polling.
Context `{World} `{JsonParser} (self : OidcClient) (device_code : string) (deadline : Z).

(** RFC 8628 section 3.5, with [interval] an exact integer: wait [interval]
    seconds; give up at the deadline; otherwise poll, and stop at an answer. While
    the authorization is pending go on, five seconds slower after a
    [slow_down]. [n] counts the polls. *)
Inductive polling : nat → Z → net → outcome OidcError TokenResponse → net → Prop :=
  | polling_expired interval log :
      (deadline ≤ instant_now (log ++ [Slept (instant_now log) interval]))%Z →
      polling 0 interval log (Err ExpiredToken) (log ++ [Slept (instant_now log) interval])
  | polling_answered interval log r log' :
      (instant_now (log ++ [Slept (instant_now log) interval]) < deadline)%Z →
      poll_for_token self device_code (log ++ [Slept (instant_now log) interval]) = (r, log') →
      r ≠ Err AuthorizationPending → r ≠ Err SlowDown →
      polling 1 interval log r log'
  | polling_pending n interval log log' r log'' :
      (instant_now (log ++ [Slept (instant_now log) interval]) < deadline)%Z →
      poll_for_token self device_code (log ++ [Slept (instant_now log) interval]) =
        (Err AuthorizationPending, log') →
      polling n interval log' r log'' → polling (S n) interval log r log''
  | polling_slow_down n interval log log' r log'' :
      (instant_now (log ++ [Slept (instant_now log) interval]) < deadline)%Z →
      poll_for_token self device_code (log ++ [Slept (instant_now log) interval]) = (Err SlowDown, log') →
      polling n (interval + 5) log' r log'' → polling (S n) interval log r log''.

Definition lift_token (r : outcome OidcError TokenResponse)
    : outcome OidcError (option TokenResponse) :=
  match r with Ok t => Ok (Some t) | Err e => Err e | Panic => Panic end.

Context `{!WorldLaws} `{BuildProfile}.

Lemma poll_log log : ∃ r, poll_for_token self device_code log =
  (r, log ++ [Sent (token_request self device_code)]) ∧ r ≠ Panic.
Proof.
  destruct (poll_for_token_cases self device_code log)
    as (r & -> & [(e&->&_)|[(text&tok&->&_)|[(error&->&_)|(text&->&_)]]]); by eexists.
Qed.

(** The loop as one step. *)
Lemma poll_loop_step fuel interval log :
  poll_loop self (S fuel) device_code deadline interval log =
  let log1 := log ++ [Slept (instant_now log) interval] in
  if decide (deadline ≤ instant_now log1)%Z then (Err ExpiredToken, log1)
  else
    match poll_for_token self device_code log1 with
    | (Ok t, log2) => (Ok (Some t), log2)
    | (Err AuthorizationPending, log2) => poll_loop self fuel device_code deadline interval log2
    | (Err SlowDown, log2) =>
        (let? interval := u64_add interval 5 in
         poll_loop self fuel device_code deadline interval) log2
    | (Err e, log2) => (Err e, log2)
    | (Panic, log2) => (Panic, log2)
    end.
Proof.
  cbn [poll_loop]. unfold bind at 1, sleep, wake, bind at 1, now. cbv zeta.
  destruct (decide _) as [Hd|Hd]; [by rewrite bool_decide_eq_true_2|].
  rewrite bool_decide_eq_false_2 by done. unfold try_with.
  destruct (poll_for_token _ _ _) as [[t|[]|] log2]; done.
Qed.

(** Every iteration takes [interval] seconds, so [fuel] iterations of five
    seconds reach the deadline; an interval that could overflow passes it. *)
Lemma poll_loop_polling fuel interval log :
  (5 ≤ interval < 2 ^ 64)%Z →
  (deadline < instant_now log + 2 ^ 63 * nanos_per_sec)%Z →
  (deadline ≤ instant_now log + Z.of_nat fuel * 5 * nanos_per_sec)%Z → (0 < fuel) →
  ∃ n r log', poll_loop self fuel device_code deadline interval log = (lift_token r, log') ∧
    polling n interval log r log' ∧ n ≤ fuel ∧ r ≠ Panic.
Proof.
  revert interval log. induction fuel as [|fuel IH]; intros interval log Hi Hlim Hfuel Hpos; [lia|].
  rewrite poll_loop_step. cbv zeta. set (log1 := log ++ [Slept (instant_now log) interval]).
  pose proof (sleep_at_least log (instant_now log) interval ltac:(done)) as Hsleep. fold log1 in Hsleep.
  destruct (decide _) as [Hd|Hd].
  { exists 0, (Err ExpiredToken), log1. split_and!; [done|by apply polling_expired|lia|done]. }
  destruct (poll_log log1) as (r & Hr & Hp). set (log2 := log1 ++ _) in Hr. rewrite Hr.
  pose proof (instant_monotone_app log1 [Sent (token_request self device_code)]) as Hmono.
  fold log2 in Hmono. unfold nanos_per_sec in *.
  assert (r = Err AuthorizationPending ∨ r = Err SlowDown ∨
    r ≠ Err AuthorizationPending ∧ r ≠ Err SlowDown) as [->|[->|[Hn1 Hn2]]]
    by (destruct r as [|[]|]; auto; by do 2 right).
  - destruct (IH interval log2) as (n&r&log'&Hrun&Hpoll&Hn&Hrp); [lia|lia|lia|lia|].
    exists (S n), r, log'. split_and!; [done|by eapply polling_pending; [fold log1; lia|..]|lia|done].
  - rewrite u64_add_exact by (unfold is_u64, u64_modulus; lia).
    destruct (IH (interval + 5)%Z log2) as (n&r&log'&Hrun&Hpoll&Hn&Hrp); [lia|lia|lia|lia|].
    exists (S n), r, log'. split_and!; [done|by eapply polling_slow_down; [fold log1; lia|..]|lia|done].
  - exists 1, r, log2. split_and!; [|by apply polling_answered; [fold log1; lia|..]|lia|done].
    by destruct r as [t|[]|].
Qed.

(** The polls come before the deadline, five seconds apart. *)
Lemma polling_bounded n interval log r log' :
  (5 ≤ interval)%Z → polling n interval log r log' →
  n = 0 ∨ (instant_now log + Z.of_nat n * 5 * nanos_per_sec < deadline)%Z.
Proof.
  intros Hi Hpoll. induction Hpoll as [| |? ? ? ? ? ? ? Hr ? IH|? ? ? ? ? ? ? Hr ? IH]; [by left|..].
  all: pose proof (sleep_at_least log (instant_now log) interval ltac:(done)); right; unfold nanos_per_sec in *.
  { lia. }
  all: destruct (poll_log (log ++ [Slept (instant_now log) interval])) as (? & Hr' & _); rewrite Hr in Hr'.
  all: simplify_eq/=; specialize (IH ltac:(lia)).
  all: pose proof (instant_monotone_app (log ++ [Slept (instant_now log) interval])
    [Sent (token_request self device_code)]); destruct IH as [->|IH]; lia.
Qed.
End polling.

(** ** The device code flow *)

Section device_flow.
Context `{World} `{JsonParser} `{!WorldLaws} `{BuildProfile} (self : OidcClient).

(** A way to show the code: it may talk to the user, and returns. *)
Definition displays (display_fn : string → string → M net OidcError ()) : Prop :=
  ∀ code uri log, ∃ shown, display_fn code uri log = (Ok tt, log ++ shown) ∧
    Forall (λ e, ∃ msg, e = Told msg) shown.

Definition device_request (scope : string) : Request :=
  post_form (ep_device_authorization (oc_endpoints self))
    (with_secret self [("client_id", oc_client_id self); ("scope", scope)]).

Lemma request_device_code_fetch scope :
  request_device_code self scope = fetch_json decode_DeviceAuthResponse (device_request scope).
Proof. done. Qed.

Lemma decoded_device_auth v da :
  decode_DeviceAuthResponse v = Some da → is_u64 (da_expires_in da) ∧ is_u64 (da_interval da).
Proof.
  unfold decode_DeviceAuthResponse. intros Hd.
  do 7 (apply bind_Some in Hd as (?&?&Hd)). injection Hd as <-. simpl.
  split; (eapply field_decoded; [apply decoded_u64| | |eassumption]); by intros ? [= <-].
Qed.

(** How the flow, started on [log], may end. *)
Definition device_flow_end (scope : string) (log : net) (r : outcome OidcError TokenResponse)
    (log' : net) : Prop :=
  ((∃ e, r = Err (Oidc_http e)) ∧ log' = log ++ [Sent (device_request scope)] ∧
    ∀ da, ¬ fetched decode_DeviceAuthResponse log (device_request scope) da) ∨
  ∃ da shown, let start := log ++ Sent (device_request scope) :: shown in
    fetched decode_DeviceAuthResponse log (device_request scope) da ∧
    Forall (λ e, ∃ msg, e = Told msg) shown ∧
    let deadline := (instant_now start + da_expires_in da * nanos_per_sec)%Z in
    let too_late := (2 ^ 63 ≤ instant_now start `div` nanos_per_sec + da_expires_in da)%Z in
    (too_late ∧ r = Panic ∧ log' = start) ∨
    (¬ too_late ∧ r ≠ Panic ∧ ∃ n,
      polling self (da_device_code da) deadline n (Z.max (da_interval da) 5) start r log' ∧
      (n = 0 ∨ (Z.of_nat n * 5 < da_expires_in da)%Z)).

Lemma device_flow_cases scope display_fn log :
  displays display_fn →
  let '(r, log') := authenticate_device_flow self scope display_fn log in
  device_flow_end scope log r log'.
Proof.
  intros Hdisplay. unfold device_flow_end. destruct (authenticate_device_flow _ _ _ _) as [r log'] eqn:Hauth.
  unfold authenticate_device_flow in Hauth. rewrite request_device_code_fetch in Hauth.
  unfold bind at 1 in Hauth.
  destruct (fetch_json_cases decode_DeviceAuthResponse log (device_request scope))
    as [(da & Hf & Hrun)|(e & Hno & Hrun)]; rewrite Hrun in Hauth;
    [|injection Hauth as <- <-; left; split_and!; [by exists e|done|done]].
  right. destruct (Hdisplay (da_user_code da) (da_verification_uri da)
    (log ++ [Sent (device_request scope)])) as (shown & Hshow & Htold).
  exists da, shown. cbv zeta. set (start := log ++ Sent (device_request scope) :: shown).
  replace ((log ++ [Sent (device_request scope)]) ++ shown) with start in Hshow
    by by unfold start; rewrite <-app_assoc.
  split; [done|]. split; [done|]. unfold bind at 1 in Hauth. rewrite Hshow in Hauth.
  unfold bind at 1, now, bind at 1, instant_add_secs in Hauth.
  case_bool_decide as Hlate; [right|left; injection Hauth as <- <-; split; [lia|done]].
  split; [lia|].
  destruct Hf as (resp & text & _ & _ & _ & Hd). apply bind_Some in Hd as (v & _ & Hd).
  destruct (decoded_device_auth v da Hd) as [[He _] Hi]. unfold is_u64, u64_modulus in Hi.
  pose proof (instant_nonneg start) as Hstart.
  pose proof (Z.div_pos _ nanos_per_sec Hstart ltac:(done)) as Hdiv.
  pose proof (Z.div_mod (da_expires_in da) 5 ltac:(done)) as Hfuel.
  pose proof (Z.mod_pos_bound (da_expires_in da) 5 ltac:(done)) as Hmod.
  destruct (poll_loop_polling self (da_device_code da)
    (instant_now start + da_expires_in da * nanos_per_sec) (poll_fuel (da_expires_in da))
    (Z.max (da_interval da) MIN_POLL_INTERVAL_SECS) start) as (n & r' & log'' & Hloop & Hpoll & _ & Hp);
    unfold poll_fuel, MIN_POLL_INTERVAL_SECS, nanos_per_sec in *; [lia..|].
  unfold ret at 1, bind at 1 in Hauth. rewrite Hloop in Hauth.
  assert (r = r' ∧ log' = log'') as [-> ->] by (destruct r' as [tok|err|]; by injection Hauth as <- <-).
  split; [done|]. exists n. split; [done|].
  destruct (polling_bounded self (da_device_code da) _ n _ start r' log''
    (Z.le_max_r _ _) Hpoll); [by left|right]. unfold nanos_per_sec in *. lia.
Qed.

(** C2: the device code flow comes to an end, and the polling loop of the code is
    RFC 8628's: [poll_fuel] iterations are always enough, the interval never
    overflows, there is no poll in the first five seconds after another, and
    none past the deadline. The flow panics exactly when the server's
    [expires_in] takes the deadline out of the clock's range. *)
Theorem device_flow_follows_rfc8628 scope display_fn log :
  displays display_fn →
  let '(r, log') := authenticate_device_flow self scope display_fn log in
  device_flow_end scope log r log'.
Proof. apply device_flow_cases. Qed.
End device_flow.

(** ** ID tokens *)

(** What [jsonwebtoken] documents of [decode]: [jwt_signed] is its signature
    check, [unix_now] the clock it reads, and [leeway] the seconds of clock skew
    it forgives. A [Validation] speaks of the claims of an object payload. *)
Class JwtTheory `{Jsonwebtoken} := {
  jwt_signed : decoding_key → jwt_alg → string → value → Prop;
  unix_now : net → Z;
  leeway : Z;
}.

Definition claim (kvs : list (string * value)) (name : string) (v : value) : Prop :=
  only_value kvs name (Some v).

(** What the library checks of the issuer and the audience: a string has to be one
    of those expected, and a list of strings has to have one of them. A claim of
    any other type, such as null or a number, is not looked at. *)
Definition strings_among (expected : list string) (v : value) : Prop :=
  match v with
  | VString s => s ∈ expected
  | VArray l => (∀ v, v ∈ l → ∃ s, v = VString s) → ∃ s, VString s ∈ l ∧ s ∈ expected
  | _ => True
  end.

Class JwtLaws `{JwtTheory} : Prop := {
  jwt_decode_ok : ∀ A (dec : decoder A) log token key (val : Validation jwt_alg) a,
    jwt_decode dec log token key val = inr a →
    ∃ payload, jwt_signed key (val_algorithm val) token payload ∧ dec payload = Some a ∧
      ∀ kvs, payload = VObject kvs →
        (∀ v, claim kvs "iss" v → strings_among (val_issuer val) v) ∧
        (∀ v, claim kvs "aud" v → strings_among (val_audience val) v) ∧
        (val_validate_exp val = true →
          ∀ exp, claim kvs "exp" (VInt exp) → (unix_now log ≤ exp + leeway)%Z);
}.

Lemma required_object_inv {A} kvs i name (dec : decoder A) a :
  required (VObject kvs) i name dec = Some a → ∃ v, claim kvs name v ∧ dec v = Some a.
Proof.
  unfold required, field, claim, only_value.
  destruct (filter _ kvs) as [|[k v] [|? ?]] eqn:Hf; try done. intros Hd. exists v.
  assert ((k, v) ∈ filter (λ kv, kv.1 = name) kvs) as Hin by (rewrite Hf; by left).
  apply list_elem_of_filter in Hin as [Hk _]. simpl in Hk. by subst.
Qed.

Lemma decoded_string v s : decode_string v = Some s → v = VString s.
Proof. destruct v; try done. by intros [= ->]. Qed.

Lemma decoded_int v z : decode_u64 v = Some z → v = VInt z.
Proof.
  destruct v; try done. unfold decode_u64, decode_unsigned. case_bool_decide; [|done].
  by intros [= ->].
Qed.

(** The claims that the client reads are those of the payload. *)
Lemma decoded_claims kvs claims :
  decode_IdTokenClaims (VObject kvs) = Some claims →
  claim kvs "sub" (VString (cl_sub claims)) ∧ claim kvs "iss" (VString (cl_iss claims)) ∧
  claim kvs "aud" (cl_aud claims) ∧ claim kvs "exp" (VInt (cl_exp claims)).
Proof.
  unfold decode_IdTokenClaims. intros Hd. apply bind_Some in Hd as (v & [= <-] & Hd).
  apply bind_Some in Hd as (sub & (v1 & Hc1 & Hv1)%required_object_inv & Hd).
  apply bind_Some in Hd as (iss & (v2 & Hc2 & Hv2)%required_object_inv & Hd).
  apply bind_Some in Hd as (aud & (v3 & Hc3 & Hv3)%required_object_inv & Hd).
  apply bind_Some in Hd as (exp & (v4 & Hc4 & Hv4)%required_object_inv & Hd).
  apply bind_Some in Hd as (iat & _ & [= <-]). simpl.
  apply decoded_string in Hv1 as ->. apply decoded_string in Hv2 as ->.
  injection Hv3 as ->. apply decoded_int in Hv4 as ->. done.
Qed.

Section id_tokens.
Context `{World} `{JsonParser} `{JwtLaws} (self : OidcClient).

Definition jwks_request : Request := get_request (ep_jwks_uri (oc_endpoints self)).

(** The key a token is checked against: the one its header names, or the first. *)
Definition chosen_key (header : JwtHeader jwt_alg) (jwks : list jwk) (k : jwk) : Prop :=
  match jh_kid header with Some kid => jwk_find jwks kid = Some k | None => head jwks = Some k end.

Lemma validate_id_token_fetch id_token header log :
  decode_header id_token = inr header →
  validate_id_token self id_token log =
    (let? jwks := fetch_json decode_JwkSet jwks_request in
     let? key :=
       match jh_kid header with
       | Some kid => ok_or (jwk_find jwks kid)
           (IdTokenDecode ("no JWK with kid " +:+ String "034" kid +:+ String "034" ""))
       | None => ok_or (head jwks) (IdTokenDecode "JWKS is empty")
       end in
     let? decoding_key := of_jwt (from_jwk key) in
     λ log, of_jwt (jwt_decode decode_IdTokenClaims log id_token decoding_key
       (id_token_validation self (jh_alg header))) log) log.
Proof.
  intros Hh. unfold validate_id_token, of_jwt. rewrite Hh, bind_ret_l.
  unfold fetch_json. by rewrite bind_assoc.
Qed.

(** What it takes for [claims] to come out of a token. *)
Definition validated (id_token : string) (log : net) (claims : IdTokenClaims) : Prop :=
  ∃ header jwks k key payload,
    decode_header id_token = inr header ∧
    fetched decode_JwkSet log jwks_request jwks ∧ chosen_key header jwks k ∧
    from_jwk k = inr key ∧ jwt_signed key (jh_alg header) id_token payload ∧
    ∀ kvs, payload = VObject kvs →
      claim kvs "sub" (VString (cl_sub claims)) ∧
      claim kvs "iss" (VString (cl_iss claims)) ∧ cl_iss claims = ep_issuer (oc_endpoints self) ∧
      claim kvs "aud" (cl_aud claims) ∧ strings_among [oc_client_id self] (cl_aud claims) ∧
      claim kvs "exp" (VInt (cl_exp claims)) ∧
      (unix_now (log ++ [Sent jwks_request]) ≤ cl_exp claims + leeway)%Z.

Lemma validate_id_token_cases id_token log :
  let '(r, log') := validate_id_token self id_token log in
  r ≠ Panic ∧ (log' = log ∨ log' = log ++ [Sent jwks_request]) ∧
  ∀ claims, r = Ok claims → validated id_token log claims.
Proof.
  destruct (decode_header id_token) as [e|header] eqn:Hh.
  { unfold validate_id_token, of_jwt. rewrite Hh. split; [done|]. split; [by left|done]. }
  rewrite (validate_id_token_fetch _ _ _ Hh). unfold bind at 1.
  destruct (fetch_json_cases decode_JwkSet log jwks_request)
    as [(jwks & Hf & ->)|(e & _ & ->)]; [|split; [done|split; [by right|done]]].
  set (log1 := log ++ [Sent jwks_request]).
  assert ((∃ k, chosen_key header jwks k ∧ ∀ missing missing',
      match jh_kid header with
      | Some kid => ok_or (jwk_find jwks kid) (missing kid) | None => ok_or (head jwks) missing'
      end = ret (S:=net) (E:=OidcError) k) ∨
    (∀ missing missing', ∃ e, match jh_kid header with
      | Some kid => ok_or (jwk_find jwks kid) (missing kid) | None => ok_or (head jwks) missing'
      end = throw (S:=net) (A:=jwk) (e : OidcError))) as [(k & Hk & Hsel)|Hsel].
  { unfold chosen_key. destruct (jh_kid header) as [kid|];
      [destruct (jwk_find jwks kid) as [k|]|destruct (head jwks) as [k|]];
      [left; by exists k|right; by eexists|left; by exists k|right; by eexists]. }
  2: { unfold bind at 1. edestruct Hsel as [e He]. rewrite He. split; [done|split; [by right|done]]. }
  unfold bind at 1. erewrite Hsel. unfold ret at 1, bind at 1, of_jwt at 1.
  destruct (from_jwk k) as [e|key] eqn:Hkey; [split; [done|split; [by right|done]]|].
  unfold ret at 1, of_jwt. destruct (jwt_decode _ _ _ _ _) as [e|claims] eqn:Hdec;
    [split; [done|split; [by right|done]]|].
  split; [done|split; [by right|]]. intros claims' [= <-].
  destruct (jwt_decode_ok _ _ _ _ _ _ _ Hdec) as (payload & Hsig & Hdecode & Hobj).
  exists header, jwks, k, key, payload. split_and!; [done..|].
  intros kvs ->. destruct (decoded_claims _ _ Hdecode) as (Hsub & Hiss & Haud & Hexp).
  destruct (Hobj kvs eq_refl) as (Hi & Ha & He). split_and!; [done..| |done|by apply Ha|done|by apply He].
  by apply list_elem_of_singleton, (Hi _ Hiss).
Qed.

(** C4: [validate_id_token] never panics and makes at most one request, for the
    key set of the discovered issuer. When it accepts a token, the token's
    signature checks out under the key of that set which the header's [kid]
    names (without one, the first), and the claims it returns are those of the
    signed payload: issued by the discovered issuer, not expired (up to the
    library's leeway), and with an audience that, if it is a string or lists
    strings, includes this client. *)
Theorem validated_claims_are_the_issuers id_token log :
  let '(r, log') := validate_id_token self id_token log in
  r ≠ Panic ∧ (log' = log ∨ log' = log ++ [Sent jwks_request]) ∧
  ∀ claims, r = Ok claims → validated id_token log claims.
Proof. apply validate_id_token_cases. Qed.
End id_tokens.

(** ** The mock server, with a key set *)

Definition mock_jwks : Mock := given GET "/jwks" [] 200
  (VObject [("keys", VArray [VObject [("kty", VString "RSA"); ("kid", VString "key-1")]])]).
Definition oidc_mocks : list Mock := mock_mocks ++ [mock_jwks].
Definition oidc_world : World := mock_world print_value mock_base oidc_mocks.
Definition oidc_parser : JsonParser := document_parser (mock_body <$> oidc_mocks).

Definition mock_client : OidcClient := mk_oidc_client
  (mk_endpoints "http://0.0.0.0:9980/device" "http://0.0.0.0:9980/token" "http://0.0.0.0:9980"
    "http://0.0.0.0:9980/jwks") "sssd-oidc" None.

Definition show_code (code uri : string) : M net OidcError () := λ log,
  (Ok tt, log ++ [Told (uri +:+ " " +:+ code)]).

Definition mock_token : TokenResponse :=
  mk_token_response "test-access-token-001" (Some "test-id-token-001") "Bearer".
Definition mock_device_auth : DeviceAuthResponse :=
  mk_device_auth "test-device-code-001" "ABCD-1234" "http://0.0.0.0:9980/activate"
    (Some "http://0.0.0.0:9980/activate?code=ABCD-1234") 600 1.

Definition mock_flow : outcome OidcError TokenResponse * net :=
  @authenticate_device_flow oidc_world oidc_parser mock_client (Build_BuildProfile true)
    "openid" show_code [].

Example mock_flow_runs : mock_flow =
  (Ok mock_token,
   [Sent (device_request mock_client "openid"); Told "http://0.0.0.0:9980/activate ABCD-1234";
    Slept 0 5; Sent (token_request mock_client "test-device-code-001");
    Slept 5000000000 5; Sent (token_request mock_client "test-device-code-001")]).
Proof. vm_compute. reflexivity. Qed.

Example discovery_runs :
  @discover_insecure oidc_world oidc_parser "http://0.0.0.0:9980/" "sssd-oidc" None [] =
    (Ok mock_client, [Sent (discovery_request "http://0.0.0.0:9980")]).
Proof. vm_compute. reflexivity. Qed.

Example discovery_wants_https :
  (@discover oidc_world oidc_parser "http://0.0.0.0:9980/" "sssd-oidc" None []).1 =
    Err (InsecureEndpoint "token_endpoint: http://0.0.0.0:9980/token").
Proof. vm_compute. reflexivity. Qed.

Lemma show_code_displays : displays show_code.
Proof.
  intros code uri log. eexists. split; [done|]. constructor; [by eexists|constructor].
Qed.

(** The flow against the mock server polls, and ends with its token. *)
Lemma device_flow_follows_rfc8628_witness :
  displays show_code ∧ ∃ shown n log',
    let start := Sent (device_request mock_client "openid") :: shown in
    @polling oidc_world oidc_parser mock_client "test-device-code-001"
      (@instant_now oidc_world start + 600 * nanos_per_sec) n 5 start (Ok mock_token) log' ∧
    (n = 0 ∨ (Z.of_nat n * 5 < 600)%Z).
Proof.
  split; [apply show_code_displays|].
  pose proof (@device_flow_follows_rfc8628 oidc_world oidc_parser
    (mock_world_laws print_value mock_base oidc_mocks) (Build_BuildProfile true) mock_client
    "openid" show_code [] show_code_displays) as Hflow.
  fold mock_flow in Hflow. rewrite mock_flow_runs in Hflow.
  destruct Hflow as [([e He] & _)|(da & shown & Hda & _ & Hcases)]; [discriminate He|].
  assert (da = mock_device_auth) as ->.
  { destruct Hda as (resp & text & Hr & _ & Ht & Hd). cbn in Hr. injection Hr as <-.
    injection Ht as <-. revert Hd. vm_compute. by intros [= <-]. }
  destruct Hcases as [(_ & Hp & _)|(_ & _ & n & Hpoll & Hn)]; [discriminate Hp|].
  exists shown, n. eexists. split; [exact Hpoll|exact Hn].
Defined.

(** A token library for the one token of the mock server. *)
Definition mock_claims (base client : string) : list (string * value) :=
  [("sub", VString "user-uuid-alice-001"); ("iss", VString base); ("aud", VString client);
   ("exp", VInt 1700003600)].
Definition mock_unix_now (log : net) : Z := (1700000000 + slept log)%Z.

Definition mock_accepts (base client : string) (log : net) (token key : string)
    (val : Validation string) : bool :=
  bool_decide (token = "test-id-token-001") && bool_decide (key = "key-1") &&
  bool_decide (val_algorithm val = "RS256") && bool_decide (base ∈ val_issuer val) &&
  bool_decide (client ∈ val_audience val) &&
  bool_decide (mock_unix_now log ≤ 1700003600 + 60)%Z.

Definition mock_jwt (base client : string) : Jsonwebtoken := {|
  jwt_alg := string;
  jwk := string;
  decoding_key := string;
  decode_header := λ token,
    if bool_decide (token = "test-id-token-001")
    then inr (mk_jwt_header "RS256" (Some "key-1")) else inl (mk_jwt_error "InvalidToken");
  decode_JwkSet := λ v, v ← as_struct 1 v; required v 0 "keys" (decode_vec (λ k,
    k ← as_struct 2 k; required k 1 "kid" decode_string));
  jwk_find := λ jwks kid, head (filter (λ k, k = kid) jwks);
  from_jwk := inr;
  jwt_decode := λ A dec log token key val,
    if mock_accepts base client log token key val
    then match dec (VObject (mock_claims base client)) with
         | Some a => inr a | None => inl (mk_jwt_error "Json") end
    else inl (mk_jwt_error "InvalidToken");
|}.

Definition mock_signed (base client key alg token : string) (payload : value) : Prop :=
  token = "test-id-token-001" ∧ key = "key-1" ∧ alg = "RS256" ∧
  payload = VObject (mock_claims base client).

Definition mock_jwt_theory (base client : string) : @JwtTheory (mock_jwt base client) :=
  @Build_JwtTheory (mock_jwt base client) (mock_signed base client) mock_unix_now 60.

Lemma mock_jwt_laws base client :
  @JwtLaws (mock_jwt base client) (mock_jwt_theory base client).
Proof.
  split. intros A dec log token key val a. cbn [jwt_decode mock_jwt].
  destruct (mock_accepts _ _ _ _ _ _) eqn:Hacc; [|done].
  unfold mock_accepts in Hacc. rewrite !andb_true_iff, !bool_decide_eq_true in Hacc.
  destruct Hacc as [[[[[Ht Hk] Ha] Hi] Hc] He].
  destruct (dec _) as [a'|] eqn:Hd; [|done]. intros [= <-].
  exists (VObject (mock_claims base client)). split; [done|]. split; [done|].
  intros kvs [= <-]. split_and!.
  - unfold claim, only_value. simpl. by intros v [= <-].
  - unfold claim, only_value. simpl. by intros v [= <-].
  - unfold claim, only_value. simpl. intros _ exp [= <-]. done.
Qed.

Definition alice_claims : IdTokenClaims :=
  mk_claims "user-uuid-alice-001" mock_base (VString "sssd-oidc") 1700003600 None.

Example mock_token_validates :
  @validate_id_token oidc_world oidc_parser mock_client (mock_jwt mock_base "sssd-oidc")
    "test-id-token-001" [] = (Ok alice_claims, [Sent (jwks_request mock_client)]).
Proof. vm_compute. reflexivity. Qed.

Lemma validated_claims_are_the_issuers_witness :
  @JwtLaws (mock_jwt mock_base "sssd-oidc") (mock_jwt_theory mock_base "sssd-oidc") ∧
  strings_among [oc_client_id mock_client] (cl_aud alice_claims) ∧
  cl_iss alice_claims = ep_issuer (oc_endpoints mock_client).
Proof.
  split; [apply mock_jwt_laws|].
  pose proof (@validated_claims_are_the_issuers oidc_world oidc_parser
    (mock_jwt mock_base "sssd-oidc") (mock_jwt_theory mock_base "sssd-oidc")
    (mock_jwt_laws mock_base "sssd-oidc") mock_client "test-id-token-001" []) as Hval.
  rewrite mock_token_validates in Hval. destruct Hval as (_ & _ & Hval).
  destruct (Hval alice_claims eq_refl) as (h & jwks & k & key & payload & _ & _ & _ & _ & Hsig & Hobj).
  destruct Hsig as (_ & _ & _ & ->). destruct (Hobj _ eq_refl) as (_ & _ & Hiss & _ & Haud & _).
  split; [exact Haud|exact Hiss].
Defined.
