(* ===== verification/OidcLiveness.v ===== *)
(** * OidcLiveness: a login that is approved in time succeeds

    [OidcProps] bounds the device code flow from above: it ends, and its polls
    keep their distance. Here is the other half, for a server that grants the
    authorization and a machine whose clock does not run away. *)

From S2P Require Import Prelude Text Value Http MockIdp Oidc OidcProps.
From stdpp Require Import prelude strings list.

Section liveness.
Context `{World} `{JsonParser} `{!WorldLaws} `{BuildProfile} (self : OidcClient).

(** The user approves at the instant [T]: polls before it are pending, polls
    from then on get the token. *)
Definition approves_at (device_code : string) (T : Z) (tok : TokenResponse) : Prop :=
  ∀ log,
    ((instant_now log < T)%Z → refused self log device_code "authorization_pending") ∧
    ((T ≤ instant_now log)%Z → ∃ text, token_reply self log device_code true text ∧
      json_parse text ≫= decode_TokenResponse = Some tok).

(** A sleep oversleeps, and a request takes, [slack] nanoseconds at most. *)
Definition prompt (slack : Z) : Prop :=
  (∀ log n, (0 ≤ n)%Z →
    (instant_now (log ++ [Slept (instant_now log) n]) ≤ instant_now log + n * nanos_per_sec + slack)%Z) ∧
  ∀ log r, (instant_now (log ++ [Sent r]) ≤ instant_now log + slack)%Z.

Lemma approved_poll device_code T tok log :
  approves_at device_code T tok →
  (poll_for_token self device_code log).1 =
    if decide (instant_now log < T)%Z then Err AuthorizationPending else Ok tok.
Proof.
  intros Ha. destruct (Ha log) as [Hbefore Hafter].
  destruct (poll_for_token_cases self device_code log)
    as (r & -> & Hcases). simpl. destruct (decide _) as [Hlt|Hge].
  - specialize (Hbefore Hlt) as (text & Hreply & Hd).
    destruct Hcases as [(e&->&Hno&_)|[(text'&tok'&->&Hr&_)|[(error&->&Hr)|(text'&->&Hr&Hd')]]].
    + by destruct (Hno text).
    + by destruct (token_reply_det _ _ _ _ _ _ _ Hr Hreply).
    + destruct Hr as (text' & Hr & Hd'). destruct (token_reply_det _ _ _ _ _ _ _ Hr Hreply) as [_ ->].
      rewrite Hd in Hd'. by injection Hd' as <-.
    + destruct (token_reply_det _ _ _ _ _ _ _ Hr Hreply) as [_ ->]. congruence.
  - destruct (Hafter ltac:(lia)) as (text & Hreply & Hd).
    destruct Hcases as [(e&->&_&Hno)|[(text'&tok'&->&Hr&Hd')|[(error&->&Hr)|(text'&->&Hr&_)]]].
    + by rewrite (Hno text) in Hd.
    + destruct (token_reply_det _ _ _ _ _ _ _ Hr Hreply) as [_ ->]. congruence.
    + destruct Hr as (text' & Hr & _). by destruct (token_reply_det _ _ _ _ _ _ _ Hr Hreply).
    + by destruct (token_reply_det _ _ _ _ _ _ _ Hr Hreply).
Qed.

(** The loop never meets its deadline, so it ends with the token. *)
Lemma polling_approved device_code deadline T tok slack n interval log r log' :
  approves_at device_code T tok → prompt slack → (0 ≤ interval)%Z →
  (instant_now log + interval * nanos_per_sec + slack < deadline)%Z →
  (T + slack + interval * nanos_per_sec + slack < deadline)%Z →
  polling self device_code deadline n interval log r log' → r = Ok tok.
Proof.
  intros Ha [Hsleep Hsend] Hi Hnow Hin Hpoll.
  induction Hpoll as [i log Hlate|i log r log' Hlt Hr Hnp Hns|n i log log1 r log2 Hlt Hr Hpoll IH
    |n i log log1 r log2 Hlt Hr Hpoll IH]; pose proof (Hsleep log i Hi) as Hs.
  - lia.
  - pose proof (approved_poll device_code T tok (log ++ [Slept (instant_now log) i]) Ha) as Hp. rewrite Hr in Hp.
    simpl in Hp. by destruct (decide _).
  - pose proof (approved_poll device_code T tok (log ++ [Slept (instant_now log) i]) Ha) as Hp. rewrite Hr in Hp.
    simpl in Hp. destruct (decide _) as [Hbefore|]; [|done].
    destruct (poll_log self device_code (log ++ [Slept (instant_now log) i])) as (r' & Hr' & _).
    rewrite Hr in Hr'. injection Hr' as _ ->. apply IH; [done| |done].
    pose proof (Hsend (log ++ [Slept (instant_now log) i]) (token_request self device_code)). lia.
  - pose proof (approved_poll device_code T tok (log ++ [Slept (instant_now log) i]) Ha) as Hp. rewrite Hr in Hp.
    simpl in Hp. by destruct (decide _).
Qed.

(** C12: the device code flow succeeds when it should: if the server hands out a
    device code and the user approves early enough, which means that one more
    polling interval, with the delays of one sleep and one request, still ends
    before the code expires, then the flow returns the token of the grant. *)
Theorem approved_login_succeeds scope display_fn log da T tok slack :
  displays display_fn →
  fetched decode_DeviceAuthResponse log (device_request self scope) da →
  approves_at (da_device_code da) T tok → prompt slack →
  (∀ shown, Forall (λ e, ∃ msg, e = Told msg) shown →
    let start := instant_now (log ++ Sent (device_request self scope) :: shown) in
    (start `div` nanos_per_sec + da_expires_in da < 2 ^ 63)%Z ∧
    (Z.max start (T + slack) + Z.max (da_interval da) 5 * nanos_per_sec + slack <
      start + da_expires_in da * nanos_per_sec)%Z) →
  (authenticate_device_flow self scope display_fn log).1 = Ok tok.
Proof.
  intros Hdisplay Hda Ha Hprompt Htime.
  pose proof (device_flow_cases self scope display_fn log Hdisplay) as Hend.
  destruct (authenticate_device_flow self scope display_fn log) as [r log']. simpl.
  destruct Hend as [(_ & _ & Hno)|(da' & shown & Hda' & Hshown & Hend)]; [by destruct (Hno da)|].
  assert (da' = da) as -> by by eapply fetched_det.
  destruct (Htime shown Hshown) as [Hclock Hin]. cbv zeta in Hend, Hclock, Hin.
  destruct Hend as [(Hlate & _)|(_ & _ & n & Hpoll & _)]; [lia|].
  eapply polling_approved; [exact Ha|exact Hprompt| | | |exact Hpoll]; unfold nanos_per_sec in *; lia.
Qed.
End liveness.

(** ** Witness: the mock server, with a user who approves after twelve seconds *)

Definition approving_world : World := {|
  transport := λ log r,
    if decide (req_url r = mock_base +:+ "/token")
    then inr (if decide (slept log < 12)%Z
      then mk_response 400 (Some (print_value (VObject
        [("error", VString "authorization_pending");
         ("error_description", VString "The user has not yet completed authorization")])))
      else mk_response 200 (Some (print_value (VObject
        [("access_token", VString "test-access-token-001");
         ("id_token", VString "test-id-token-001"); ("token_type", VString "Bearer")]))))
    else inr (mock_response print_value mock_base oidc_mocks log r);
  instant_now := λ log, (slept log * nanos_per_sec)%Z;
|}.

Lemma approving_world_laws : @WorldLaws approving_world.
Proof. destruct (mock_world_laws print_value mock_base oidc_mocks). by split. Qed.

Lemma approving_world_approves : @approves_at approving_world oidc_parser mock_client
  "test-device-code-001" (12 * nanos_per_sec) mock_token.
Proof.
  intros log. cbn [instant_now approving_world]. unfold refused, token_reply.
  cbn [transport approving_world]. rewrite decide_True by done.
  split; intros Ht; unfold nanos_per_sec in Ht.
  - rewrite decide_True by lia. eexists. split; [by eexists|]. vm_compute. reflexivity.
  - rewrite decide_False by lia. eexists. split; [by eexists|]. vm_compute. reflexivity.
Qed.

Lemma approving_world_prompt : @prompt approving_world 0.
Proof.
  split; cbn [instant_now approving_world].
  - intros log n Hn. rewrite slept_app. change (slept [Slept _ n]) with (Z.max 0 n + 0)%Z.
    unfold nanos_per_sec. lia.
  - intros log r. rewrite slept_app. change (slept [Sent r]) with 0%Z. lia.
Qed.

Example approved_on_the_third_poll :
  length (requests (@authenticate_device_flow approving_world oidc_parser mock_client
    (Build_BuildProfile true) "openid" show_code []).2) = 4.
Proof. vm_compute. reflexivity. Qed.

Lemma told_takes_no_time shown : Forall (λ e, ∃ msg, e = Told msg) shown → slept shown = 0%Z.
Proof. induction 1 as [|e l [msg ->] _ IH]; [done|]. unfold slept in *. simpl. lia. Qed.

Lemma approved_login_succeeds_witness :
  (@authenticate_device_flow approving_world oidc_parser mock_client
    (Build_BuildProfile true) "openid" show_code []).1 = Ok mock_token.
Proof.
  apply (@approved_login_succeeds approving_world oidc_parser approving_world_laws
    (Build_BuildProfile true) mock_client "openid" show_code [] mock_device_auth
    (12 * nanos_per_sec) mock_token 0 show_code_displays).
  - eexists _, _. split; [reflexivity|]. split; [vm_compute; intuition congruence|].
    split; [reflexivity|]. vm_compute. reflexivity.
  - apply approving_world_approves.
  - apply approving_world_prompt.
  - intros shown Hshown. cbn [instant_now approving_world app].
    change (slept (Sent ?r :: shown)) with (0 + slept shown)%Z.
    rewrite (told_takes_no_time shown Hshown). vm_compute. split; reflexivity.
Defined.
