(* ===== verification/Pam.v ===== *)
(** * Pam: the PAM module ([crates/pam_oidc/src/ffi.rs], [pam_conv.rs], [state.rs]),
    as built for Linux *)

From S2P Require Import Prelude Text Model Value Mapping Fs Http Sql Cache Scim Config Service Oidc.
From stdpp Require Import prelude strings list.
From Stdlib Require Import Ascii.

Definition PAM_SUCCESS : Z := 0.
Definition PAM_AUTH_ERR : Z := 7.
Definition PAM_AUTHINFO_UNAVAIL : Z := 9.
Definition PAM_PERM_DENIED : Z := 6.
Definition PAM_AUTHTOK_ERR : Z := 20.
Definition PAM_IGNORE : Z := 25.

(** The message style and the item of [pam_conv.rs]. *)
Definition PAM_TEXT_INFO : Z := 4.
Definition PAM_CONV : Z := 5.

(** What [pam_get_item] leaves in its out parameter: a null pointer, or a
    conversation structure, whose function pointer may be null. *)
Inductive conv_item := NullItem | Conv (has_fn : bool).

(** [libpam] behind a handle: the results of [pam_get_user] (the return code, and
    the name when the pointer is not null) and of [pam_get_item] for an item type,
    and the return code of the application's conversation function for one message
    of a style. The memory the message and the response are in is [Conversation]'s. *)
Class PamHandle := {
  pam_get_user : net → Z * option string;
  pam_get_item : net → Z → Z * conv_item;
  conv_fn : net → Z → string → Z;
}.

(** The module in its host process: the outside world and the statics [SERVICE]
    and [OIDC_CLIENT]. A poisoned service mutex is recovered, so the module
    behaves the same whether it is poisoned or not. *)
Record pam := mk_pam {
  pam_fs : filesystem;
  pam_net : net;
  pam_db : db;
  pam_service : option (option Service);
  pam_client : option (option OidcClient);
}.

Definition pam_set_fs (fs : filesystem) (w : pam) : pam :=
  mk_pam fs (pam_net w) (pam_db w) (pam_service w) (pam_client w).
Definition pam_set_net (n : net) (w : pam) : pam :=
  mk_pam (pam_fs w) n (pam_db w) (pam_service w) (pam_client w).
Definition pam_set_storage (s : storage) (w : pam) : pam :=
  mk_pam (st_fs s) (pam_net w) (st_db s) (pam_service w) (pam_client w).
Definition pam_set_backend (b : backend) (w : pam) : pam :=
  mk_pam (pam_fs w) (bk_net b) (bk_db b) (pam_service w) (pam_client w).
Definition pam_set_service (s : option Service) (w : pam) : pam :=
  mk_pam (pam_fs w) (pam_net w) (pam_db w) (Some s) (pam_client w).
Definition pam_set_client (c : option OidcClient) (w : pam) : pam :=
  mk_pam (pam_fs w) (pam_net w) (pam_db w) (pam_service w) (Some c).
Definition pam_on_fs {E A} (m : M filesystem E A) : M pam E A := zoom pam_fs pam_set_fs m.
Definition pam_on_net {E A} (m : M net E A) : M pam E A := zoom pam_net pam_set_net m.
Definition pam_on_storage {E A} (m : M storage E A) : M pam E A :=
  zoom (λ w, mk_storage (pam_fs w) (pam_db w)) pam_set_storage m.
Definition pam_on_backend {E A} (m : M backend E A) : M pam E A :=
  zoom (λ w, mk_backend (pam_net w) (pam_db w)) pam_set_backend m.

(** ** Conversations *)

Section conversation.
Context `{PamHandle}.

(** The user's name, or the return code. *)
Definition get_pam_user : M net Z string := λ log,
  let '(ret, user_ptr) := pam_get_user log in
  match user_ptr with
  | Some user =>
      if bool_decide (ret ≠ PAM_SUCCESS) then (Err ret, log)
      else if valid_utf8 user then (Ok user, log) else (Err ret, log)
  | None => (Err ret, log)
  end.

Definition get_pam_conv (log : net) : option bool :=
  let '(ret, item) := pam_get_item log PAM_CONV in
  if bool_decide (ret ≠ PAM_SUCCESS) then None
  else match item with NullItem => None | Conv has_fn => Some has_fn end.

Definition pam_info {E} (msg : string) : M net E Z := λ log,
  match get_pam_conv log with
  | None => (Ok PAM_SUCCESS, log)
  | Some has_fn =>
      if has_nul msg then (Ok PAM_SUCCESS, log)
      else if negb has_fn then (Ok PAM_SUCCESS, log)
      else (Ok (conv_fn log PAM_TEXT_INFO msg), log ++ [Told msg])
  end.
End conversation.

(** [\n] *)
Definition newline : string := String (ascii_of_nat 10) "".

(** ** The statics and the entry points *)

Section pam.
Context `{World} `{JsonParser} `{PercentEncoding} `{Sqlite} `{BuildProfile} `{Murmur3}.
Context `{Os} `{TomlParser} `{Env} `{SqliteFile} `{Jsonwebtoken} `{PamHandle}.

(** The closure of [SERVICE.get_or_init]. *)
Definition init_service {E} : M pam E (option Service) :=
  try_with (pam_on_fs load)
    (λ config,
      let scim := ScimClient_new (cfg_base_url (cfg_scim config))
        (cfg_bearer_token (cfg_scim config)) in
      try_with (pam_on_storage
          (open (cfg_db_path (cfg_cache config)) (cfg_ttl_seconds (cfg_cache config))))
        (λ cache,
          let? svc := pam_on_backend (on_db (Service_new config scim cache)) in ret (Some svc))
        (λ _, ret None))
    (λ _, ret None).

Definition get_service {E} : M pam E (option Service) := λ w,
  match pam_service w with
  | Some s => (Ok s, w)
  | None => (let? s := init_service in λ w, (Ok s, pam_set_service s w)) w
  end.

(** The closure of [OIDC_CLIENT.get_or_init]. *)
Definition init_oidc_client {E} : M pam E (option OidcClient) :=
  try_with (pam_on_fs load)
    (λ config,
      let discover_fn :=
        if cfg_allow_insecure (cfg_oidc config) then discover_insecure else discover in
      try_with (pam_on_net (discover_fn (cfg_issuer_url (cfg_oidc config))
          (cfg_client_id (cfg_oidc config)) (cfg_client_secret (cfg_oidc config))))
        (λ c, ret (Some c))
        (λ _, ret None))
    (λ _, ret None).

Definition get_oidc_client {E} : M pam E (option OidcClient) := λ w,
  match pam_client w with
  | Some c => (Ok c, w)
  | None => (let? c := init_oidc_client in λ w, (Ok c, pam_set_client c w)) w
  end.

Definition sign_in_message (user_code verification_uri : string) : string :=
  "To sign in, visit: " +:+ verification_uri +:+ newline +:+ "Enter code: " +:+ user_code +:+
  newline +:+ "Waiting for authentication...".

Definition display (user_code verification_uri : string) : M net OidcError () :=
  pam_info (sign_in_message user_code verification_uri) ;;? ret tt.

(** What [authenticate_impl] does with the validated claims. *)
Definition verify_subject (username sub : string) : M pam Empty_set Z :=
  if bool_decide (sub = username) then ret PAM_SUCCESS
  else
    let? svc := get_service in
    match svc with
    | None => ret PAM_AUTH_ERR
    | Some svc =>
        try_with (pam_on_backend (lookup_user_by_name svc username))
          (λ found,
            match found with
            | Some user =>
                if bool_decide (user_external_id user = sub) then ret PAM_SUCCESS
                else ret PAM_AUTH_ERR
            | None => ret PAM_AUTH_ERR
            end)
          (λ _, ret PAM_AUTH_ERR)
    end.

Definition authenticate_impl : M pam Empty_set Z :=
  try_with (pam_on_net get_pam_user)
    (λ username,
      let? client := get_oidc_client in
      match client with
      | None => ret PAM_AUTHINFO_UNAVAIL
      | Some client =>
          try_with (pam_on_net (authenticate_device_flow client "openid" display))
            (λ token,
              match tr_id_token token with
              | None => ret PAM_AUTH_ERR
              | Some id_token_raw =>
                  try_with (pam_on_net (validate_id_token client id_token_raw))
                    (λ claims, verify_subject username (cl_sub claims))
                    (λ _, ret PAM_AUTH_ERR)
              end)
            (λ _, ret PAM_AUTH_ERR)
      end)
    (λ _, ret PAM_AUTH_ERR).

Definition chauthtok_impl : M pam Empty_set Z :=
  let? client := get_oidc_client in
  match client with
  | None => ret PAM_AUTHTOK_ERR
  | Some c =>
      pam_on_net (pam_info
        ("Password changes are not supported via PAM for OIDC accounts." +:+ newline +:+
         "Please change your password at your identity provider:" +:+ newline +:+ "  " +:+
         ep_issuer (oc_endpoints c))) ;;?
      ret PAM_AUTHTOK_ERR
  end.

Definition acct_mgmt_impl : M pam Empty_set Z :=
  try_with (pam_on_net get_pam_user)
    (λ username,
      let? svc := get_service in
      match svc with
      | None => ret PAM_AUTHINFO_UNAVAIL
      | Some svc =>
          try_with (pam_on_backend (check_user_active svc username))
            (λ active, ret (if active then PAM_SUCCESS else PAM_PERM_DENIED))
            (λ _, ret PAM_AUTHINFO_UNAVAIL)
      end)
    (λ _, ret PAM_AUTH_ERR).

Definition pam_sm_authenticate : M pam Empty_set Z := authenticate_impl.
Definition pam_sm_setcred : M pam Empty_set Z := ret PAM_SUCCESS.
Definition pam_sm_chauthtok : M pam Empty_set Z := chauthtok_impl.
Definition pam_sm_acct_mgmt : M pam Empty_set Z := acct_mgmt_impl.
End pam.
