(* ===== verification/PamProps.v ===== *)
(** * PamProps: what the PAM module lets through, with its witnesses *)

From S2P Require Import Prelude Text Model Value Mapping Fs Http Sql Cache CacheFacts MockIdp.
From S2P Require Import Scim ScimProps Config Service ServiceFacts Buffer Passwd GroupPack Nss.
From S2P Require Import NssProps Oidc OidcProps Pam.
From stdpp Require Import prelude strings list.

(** ** The module's state *)

(** A client that discovery made from a configuration that loads. *)
Definition discovered `{Os} `{TomlParser} `{Env} (c : OidcClient) : Prop :=
  ∃ fs config doc, (load fs).1 = Ok config ∧
    acceptable (cfg_issuer_url (cfg_oidc config)) (negb (cfg_allow_insecure (cfg_oidc config)))
      doc (oc_endpoints c) ∧
    oc_client_id c = cfg_client_id (cfg_oidc config).

Record pam_inv `{Sqlite} `{Os} `{TomlParser} `{Env} (w : pam) : Prop := {
  inv_db : db_wf (pam_db w);
  inv_service : ∀ svc, pam_service w = Some (Some svc) → usable_ranges (svc_config svc);
  inv_client : ∀ c, pam_client w = Some (Some c) → discovered c;
  inv_files : pam_service w = None → deployed (pam_fs w);
}.

Lemma pam_inv_net `{Sqlite} `{Os} `{TomlParser} `{Env} n w : pam_inv w → pam_inv (pam_set_net n w).
Proof. by intros [? ? ? ?]; split. Qed.

Lemma pam_inv_backend `{Sqlite} `{Os} `{TomlParser} `{Env} b w :
  pam_inv w → db_wf (bk_db b) → pam_inv (pam_set_backend b w).
Proof. by intros [? ? ? ?] ?; split. Qed.

Section pam_state.
Context `{World} `{JsonParser} `{PercentEncoding} `{SqliteLaws} `{BuildProfile} `{Murmur3Laws}.
Context `{Os} `{TomlParser} `{Env} `{SqliteFile} `{!SqliteFileLaws} `{Jsonwebtoken} `{PamHandle}.

Lemma load_no_panic fs : (load fs).1 ≠ Panic.
Proof.
  pose proof (load_from_wp (default DEFAULT_CONFIG_PATH (env_var CONFIG_ENV_VAR)) fs) as Hl.
  change (load_from (default DEFAULT_CONFIG_PATH (env_var CONFIG_ENV_VAR))) with load in Hl.
  unfold wp in Hl. destruct (load fs) as [[?|?|] ?]; [done|done|by destruct Hl].
Qed.

Lemma init_service_wp {E} w :
  db_wf (pam_db w) → deployed (pam_fs w) →
  wp (init_service (E:=E)) (λ r w', pam_client w' = pam_client w ∧ db_wf (pam_db w') ∧
    ∃ s, r = Ok s ∧ ∀ svc, s = Some svc → usable_ranges (svc_config svc)) w.
Proof.
  intros Hd Hfs. unfold init_service. apply wp_try_with, wp_zoom. unfold wp at 1.
  pose proof (load_no_panic (pam_fs w)) as Hp. pose proof (load_deployed (pam_fs w)) as Hr.
  destruct (load (pam_fs w)) as [[config|e|] fs']; cbn [fst snd] in *; [| |done].
  2: { split_and!; [done|done|]. exists None. by split. }
  apply wp_try_with, wp_zoom. unfold wp at 1. set (s := mk_storage _ _).
  destruct (safe_open (cfg_db_path (cfg_cache config)) (cfg_ttl_seconds (cfg_cache config)) s Hd)
    as [Hd' Hp'].
  destruct (open _ _ s) as [[cache|e|] s']; cbn [fst snd] in *; [| |done].
  2: { split_and!; [done|done|]. exists None. by split. }
  unfold Service_new. apply wp_bind, wp_zoom, wp_zoom, wp_bind, wp_try_with.
  destruct (safe_purge_expired (cfg_ttl_seconds (cfg_cache config)) (st_db s') Hd') as [Hd2 Hp2].
  unfold wp. cbn [bk_db pam_db pam_set_storage].
  destruct (purge_expired _ (st_db s')) as [[[]|e|] d2]; [| |done];
    (split_and!; [done|done|]; eexists; split; [done|]; intros svc [= <-]; by apply Hr).
Qed.

Lemma get_service_wp {E} w :
  pam_inv w →
  wp (get_service (E:=E)) (λ r w', pam_inv w' ∧ pam_client w' = pam_client w ∧
    ∃ s, r = Ok s ∧ pam_service w' = Some s) w.
Proof.
  intros Hw. unfold wp, get_service. destruct (pam_service w) as [s|] eqn:Hs.
  { split_and!; [done|done|]. by exists s. }
  change (wp (let? s := init_service (E:=E) in λ w, (Ok s, pam_set_service s w))
    (λ r w', pam_inv w' ∧ pam_client w' = pam_client w ∧
      ∃ s, r = Ok s ∧ pam_service w' = Some s) w).
  apply wp_bind. eapply wp_mono; [exact (init_service_wp w (inv_db w Hw) (inv_files w Hw Hs))|].
  intros r w' (Hc & Hd & s & -> & Hu). cbn [and_then]. split_and!; [|done|by exists s].
  split; [done|..|done].
  - cbn. intros svc [= ->]. by apply Hu.
  - cbn. intros c Hc'. apply (inv_client w Hw). by rewrite <-Hc.
Qed.

Lemma init_oidc_client_wp {E} w :
  wp (init_oidc_client (E:=E)) (λ r w', pam_service w' = pam_service w ∧ pam_db w' = pam_db w ∧
    pam_fs w' = pam_fs w ∧ ∃ c, r = Ok c ∧ ∀ client, c = Some client → discovered client) w.
Proof.
  unfold init_oidc_client. apply wp_try_with, wp_zoom. unfold wp at 1.
  destruct (load_cases (pam_fs w)) as [(config & Hl)|(e & Hl)]; rewrite Hl; cbn [fst snd].
  2: { split_and!; [done..|]. exists None. by split. }
  apply wp_try_with, wp_zoom. unfold wp at 1.
  set (o := cfg_oidc config).
  destruct (discover_with_options_cases (cfg_issuer_url o) (cfg_client_id o) (cfg_client_secret o)
    (negb (cfg_allow_insecure o)) (pam_net (pam_set_fs (pam_fs w) w))) as (r & Hrun & Hnp & Hok).
  assert ((if cfg_allow_insecure o then discover_insecure else discover) (cfg_issuer_url o)
    (cfg_client_id o) (cfg_client_secret o) (pam_net (pam_set_fs (pam_fs w) w)) =
    (r, pam_net (pam_set_fs (pam_fs w) w) ++ [Sent (discovery_request (cfg_issuer_url o))])) as ->.
  { rewrite <-Hrun. by destruct (cfg_allow_insecure o). }
  destruct r as [c|e|]; cbn [fst snd]; [| |done].
  - split_and!; [done..|]. exists (Some c). split; [done|]. intros client [= <-].
    destruct (Hok c) as [Hd _]. destruct (Hd eq_refl) as (doc & ep & _ & Hacc & ->).
    exists (pam_fs w), config, doc. by rewrite Hl.
  - split_and!; [done..|]. exists None. by split.
Qed.

Lemma get_oidc_client_wp {E} w :
  pam_inv w →
  wp (get_oidc_client (E:=E)) (λ r w', pam_inv w' ∧
    ∃ c, r = Ok c ∧ pam_client w' = Some c) w.
Proof.
  intros Hw. unfold wp, get_oidc_client. destruct (pam_client w) as [c|] eqn:Hc.
  { split; [done|]. by exists c. }
  change (wp (let? c := init_oidc_client (E:=E) in λ w, (Ok c, pam_set_client c w))
    (λ r w', pam_inv w' ∧ ∃ c, r = Ok c ∧ pam_client w' = Some c) w).
  apply wp_bind. eapply wp_mono; [apply init_oidc_client_wp|].
  intros r w' (Hs & Hd & Hfs & c & -> & Hu). cbn [and_then]. split; [|by exists c].
  split; cbn; [rewrite Hd; apply Hw|..].
  - rewrite Hs. apply (inv_service w Hw).
  - intros client [= ->]. by apply Hu.
  - rewrite Hs, Hfs. apply (inv_files w Hw).
Qed.
End pam_state.

(** ** Account management *)

Section account.
Context `{World} `{JsonParser} `{PercentEncoding} `{SqliteLaws} `{BuildProfile} `{Murmur3Laws}.
Context `{Os} `{TomlParser} `{Env} `{SqliteFile} `{!SqliteFileLaws} `{Jsonwebtoken} `{PamHandle}.

Lemma get_pam_user_cases log :
  (∃ user, get_pam_user log = (Ok user, log) ∧ pam_get_user log = (PAM_SUCCESS, Some user)) ∨
  (∃ ret, get_pam_user log = (Err ret, log)).
Proof.
  unfold get_pam_user. destruct (pam_get_user log) as [ret [user|]]; [|right; by eexists].
  case_bool_decide as Hr; [right; by eexists|]. subst ret.
  destruct (valid_utf8 user); [left; by eexists|right; by eexists].
Qed.

(** The code for an answer of [check_user_active]. *)
Definition account_code (active : outcome ServiceError bool) : Z :=
  match active with
  | Ok true => PAM_SUCCESS
  | Ok false => PAM_PERM_DENIED
  | _ => PAM_AUTHINFO_UNAVAIL
  end.

(** What [pam_sm_acct_mgmt] answers. *)
Definition account_managed (w : pam) (r : outcome Empty_set Z) : Prop :=
  match (get_pam_user (pam_net w)).1 with
  | Ok username => ∃ service w1, get_service (E:=Empty_set) w = (Ok service, w1) ∧
      match service with
      | None => r = Ok PAM_AUTHINFO_UNAVAIL
      | Some svc => ∃ active, r = Ok (account_code active) ∧
          if decide (String.length username ≤ MAX_NAME_LEN)
          then active_answer svc (pam_db w1) username
            (Scim.get_user_by_name (svc_scim svc) username (pam_net w1)).1 active
          else active = Ok false
      end
  | _ => r = Ok PAM_AUTH_ERR
  end.

Lemma account_wp w :
  pam_inv w → wp pam_sm_acct_mgmt (λ r w', pam_inv w' ∧ account_managed w r) w.
Proof.
  intros Hw. unfold pam_sm_acct_mgmt, acct_mgmt_impl, account_managed. apply wp_try_with, wp_zoom. unfold wp at 1.
  assert (pam_set_net (pam_net w) w = w) as Hid by by destruct w.
  destruct (get_pam_user_cases (pam_net w)) as [(user & -> & _)|(ret & ->)];
    cbn [fst snd]; rewrite Hid; [|by split].
  apply wp_bind. pose proof (get_service_wp (E:=Empty_set) w Hw) as Hs. unfold wp in Hs |- *.
  destruct (get_service w) as [r1 w1]. cbn [fst snd] in *.
  destruct Hs as (Hw1 & _ & service & -> & Hservice). cbn [and_then].
  destruct service as [svc|]; [|split; [done|]; by exists None, w1].
  apply wp_try_with, wp_zoom. unfold wp at 1.
  pose proof (inv_service w1 Hw1 svc Hservice) as Hranges.
  destruct (safe_check_user_active svc Hranges user (mk_backend (pam_net w1) (pam_db w1))
    (inv_db w1 Hw1)) as [Hd Hp].
  assert (wp (check_user_active svc user) (λ r _,
    if decide (String.length user ≤ MAX_NAME_LEN)
    then active_answer svc (pam_db w1) user
      (Scim.get_user_by_name (svc_scim svc) user (pam_net w1)).1 r
    else r = Ok false) (mk_backend (pam_net w1) (pam_db w1))) as Hc.
  { destruct (decide _); 
      [by apply (check_user_active_wp svc user (mk_backend (pam_net w1) (pam_db w1)));
        [|apply Hw1|]|].
    unfold check_user_active. rewrite bool_decide_eq_true_2 by lia. by apply wp_ret. }
  unfold wp in Hc. destruct (check_user_active _ _ _) as [active b]. cbn [fst snd] in *.
  pose proof (pam_inv_backend b w1 Hw1 Hd) as Hw2.
  destruct active as [[]|e|]; [..|done];
    (split; [done|]; exists (Some svc), w1; split; [done|]; eexists; by split; [|exact Hc]).
Qed.

(** C7: where the service the module keeps, or the configuration it will load,
    has usable id ranges, [pam_sm_acct_mgmt] does not panic: it gives one of four
    codes. A user it cannot name is an authentication error, and a module that cannot start is unavailable; an
    account is permitted exactly when the user is active, denied when not, and
    unavailable when the check fails, where the check answers from SCIM or, if
    SCIM cannot be asked, as the offline policy says. *)
Theorem account_management_follows_status w :
  pam_inv w → wp pam_sm_acct_mgmt (λ r w', pam_inv w' ∧ account_managed w r) w.
Proof. apply account_wp. Qed.
End account.

(** ** Lookups of the subject *)

Section subject.
Context `{World} `{JsonParser} `{PercentEncoding} `{SqliteLaws} `{BuildProfile} `{Murmur3Laws}.
Variable self : Service.

(** After the question to SCIM, only the database changes. *)
Lemma lookup_net name b :
  String.length name ≤ MAX_NAME_LEN →
  bk_net (lookup_user_by_name self name b).2 =
    (Scim.get_user_by_name (svc_scim self) name (bk_net b)).2.
Proof.
  intros Hlen. unfold lookup_user_by_name. rewrite bool_decide_eq_false_2 by lia.
  unfold try_with at 1, on_net at 1, zoom at 1.
  destruct (Scim.get_user_by_name _ _ _) as [r log]. cbn [snd set_bk_net].
  assert (∀ E A (m : M db E A), preserves (λ b, bk_net b = log) (on_db m)) as Hdb.
  { intros E A m. apply (preserves_zoom _ (λ _, True)); [by intros ? _|done|done]. }
  assert (preserves (λ b, bk_net b = log)
    (map_err (E':=ServiceError) from (on_db (Cache.get_user_by_name (svc_cache self) name)))) as Hcache.
  { apply preserves_map_err, Hdb. }
  destruct r as [[su|]|e|]; [|by apply Hcache|by apply Hcache|done].
  refine ((_ : preserves (λ b, bk_net b = log) (bind _ _)) _ _); [|done].
  unfold scim_user_to_model. pose proof Hdb. preserve.
Qed.

(** The user a lookup finds has the id that SCIM gives for the name, or that a
    cached row of that name has. *)
Lemma name_answer_found d scim name u b' :
  name_answer self d scim name (Ok (Some u)) b' →
  (∃ su, scim = Ok (Some su) ∧ su_id su = user_external_id u) ∨
  ((∀ su, scim ≠ Ok (Some su)) ∧ ∃ row, row ∈ uid_cache (bk_db b') ∧ ur_login row = name ∧
    ur_external_id row = user_external_id u).
Proof.
  unfold name_answer. destruct scim as [[su|]|e|].
  - intros (uid & gid & [= ->] & _). left. by exists su.
  - intros [(-> & _) (ttl & _ & row & Hrow & Hkey & _ & <-)]. right. split; [done|]. by exists row.
  - intros [(-> & _) (ttl & _ & row & Hrow & Hkey & _ & <-)]. right. split; [done|]. by exists row.
  - intros [(-> & _) (ttl & _ & row & Hrow & Hkey & _ & <-)]. right. split; [done|]. by exists row.
Qed.
End subject.

(** SCIM, or the cache where SCIM does not know the user or cannot be asked,
    gives the user that name the id [sub]. *)
Definition confirmed `{World} `{JsonParser} (w : pam) (username sub : string) : Prop :=
  ∃ svc log scim, pam_service w = Some (Some svc) ∧
    Scim.get_user_by_name (svc_scim svc) username log = (scim, pam_net w) ∧
    ((∃ su, scim = Ok (Some su) ∧ su_id su = sub) ∨
     ((∀ su, scim ≠ Ok (Some su)) ∧ ∃ row, row ∈ uid_cache (pam_db w) ∧
        ur_login row = username ∧ ur_external_id row = sub)).

Section authentication.
Context `{World} `{JsonParser} `{PercentEncoding} `{SqliteLaws} `{BuildProfile} `{Murmur3Laws}.
Context `{Os} `{TomlParser} `{Env} `{SqliteFile} `{!SqliteFileLaws} `{JwtLaws} `{PamHandle}.

Lemma verify_subject_wp username sub w :
  pam_inv w →
  wp (verify_subject username sub) (λ r w', pam_inv w' ∧ pam_client w' = pam_client w ∧
    (r = Ok PAM_AUTH_ERR ∨
     r = Ok PAM_SUCCESS ∧ (sub = username ∨ confirmed w' username sub))) w.
Proof.
  intros Hw. unfold verify_subject. case_bool_decide as Hsub.
  { apply wp_ret. split_and!; [done|done|]. right. auto. }
  apply wp_bind. eapply wp_mono; [by apply get_service_wp|].
  intros r w1 (Hw1 & Hc & service & -> & Hservice). cbn [and_then].
  destruct service as [svc|]; [|apply wp_ret; split_and!; [done|done|by left]].
  apply wp_try_with, wp_zoom. unfold wp at 1.
  set (b := mk_backend (pam_net w1) (pam_db w1)).
  pose proof (inv_service w1 Hw1 svc Hservice) as Hranges.
  destruct (safe_lookup_user_by_name svc Hranges username b (inv_db w1 Hw1)) as [Hd Hp].
  destruct (decide (String.length username ≤ MAX_NAME_LEN)) as [Hlen|Hlen].
  2: { unfold lookup_user_by_name. rewrite bool_decide_eq_true_2 by lia. cbn. split_and!; [by destruct w1|done|by left]. }
  pose proof (lookup_net svc username b Hlen) as Hnet.
  pose proof (lookup_user_by_name_wp svc username b Hranges (inv_db w1 Hw1) Hlen) as Hfound.
  unfold wp in Hfound. destruct (lookup_user_by_name svc username b) as [found b'].
  cbn [fst snd] in *. pose proof (pam_inv_backend b' w1 Hw1 Hd) as Hw2.
  destruct found as [[user|]|e|]; [|by split_and!; [| |left]|by split_and!; [| |left]|done].
  case_bool_decide as Hext; [|by split_and!; [| |left]]. apply wp_ret. split_and!; [done|done|].
  right. split; [done|]. right.
  exists svc, (pam_net w1), (Scim.get_user_by_name (svc_scim svc) username (pam_net w1)).1.
  split; [done|]. split.
  - cbn [pam_net pam_set_backend]. rewrite Hnet. apply surjective_pairing.
  - rewrite <-Hext. by apply name_answer_found in Hfound.
Qed.

Lemma display_displays : displays display.
Proof.
  intros code uri log. unfold display, bind, pam_info.
  destruct (get_pam_conv log) as [has_fn|]; [|exists []; by rewrite app_nil_r].
  destruct (has_nul _); [exists []; by rewrite app_nil_r|].
  destruct has_fn; [|exists []; by rewrite app_nil_r].
  eexists. split; [done|]. constructor; [by eexists|constructor].
Qed.

Context `{!WorldLaws}.

(** What [pam_sm_authenticate] answers, and what it takes to succeed. *)
Definition authenticated (w w' : pam) (r : outcome Empty_set Z) : Prop :=
  r = Ok PAM_AUTH_ERR ∨ r = Ok PAM_AUTHINFO_UNAVAIL ∨
  (r = Panic ∧ ∃ client log da, pam_client w' = Some (Some client) ∧
    fetched decode_DeviceAuthResponse log (device_request client "openid") da ∧
    (2 ^ 63 ≤ instant_now (pam_net w') `div` nanos_per_sec + da_expires_in da)%Z) ∨
  (r = Ok PAM_SUCCESS ∧ ∃ username client id_token log claims,
    pam_get_user (pam_net w) = (PAM_SUCCESS, Some username) ∧
    pam_client w' = Some (Some client) ∧
    validated client id_token log claims ∧
    (cl_sub claims = username ∨ confirmed w' username (cl_sub claims))).

Lemma authenticate_wp w :
  pam_inv w → wp pam_sm_authenticate (λ r w', pam_inv w' ∧ authenticated w w' r) w.
Proof.
  intros Hw. unfold pam_sm_authenticate, authenticate_impl, authenticated.
  apply wp_try_with, wp_zoom. unfold wp at 1.
  pose proof (λ w n, pam_inv_net n w) as Hset.
  destruct (get_pam_user_cases (pam_net w)) as [(user & -> & Huser)|(ret & ->)];
    cbn [fst snd]; [|split; [by apply Hset|by left]].
  apply wp_bind. eapply wp_mono; [by apply get_oidc_client_wp, Hset|].
  intros r w1 (Hw1 & c & -> & Hc). cbn [and_then].
  destruct c as [client|]; [|apply wp_ret; split; [done|by right; left]].
  apply wp_try_with, wp_zoom. unfold wp at 1.
  pose proof (device_flow_cases client "openid" display (pam_net w1) display_displays) as Hflow.
  destruct (authenticate_device_flow _ _ _ _) as [[token|e|] log1]; cbn [fst snd];
    [|apply wp_ret; split; [by apply Hset|by left]|].
  2: { split; [by apply Hset|]. right; right; left. split; [done|].
       destruct Hflow as [([e He] & _)|(da & shown & Hda & _ & Hend)]; [done|].
       exists client, (pam_net w1), da. split; [done|]. split; [done|].
       destruct Hend as [(Hlate & _ & ->)|(_ & Hp & _)]; [exact Hlate|done]. }
  destruct (tr_id_token token) as [id_token|]; [|apply wp_ret; split; [by apply Hset|by left]].
  apply wp_try_with, wp_zoom. unfold wp at 1. cbn [pam_net pam_set_net].
  pose proof (validate_id_token_cases client id_token log1) as Hval.
  destruct (validate_id_token _ _ _) as [[claims|e|] log2]; cbn [fst snd];
    [|apply wp_ret; split; [by do 2 apply Hset|by left]|by destruct Hval].
  eapply wp_mono; [by apply verify_subject_wp; do 2 apply Hset|].
  intros r w' (Hw' & Hc' & [->|(-> & Hsub)]); (split; [done|]); [by left|].
  do 3 right. split; [done|]. exists user, client, id_token, log1, claims.
  split; [done|]. split; [by rewrite Hc'|]. split; [by apply Hval|done].
Qed.
End authentication.

(** ** The entry points *)

Section entry_points.
Context `{World} `{JsonParser} `{PercentEncoding} `{SqliteLaws} `{BuildProfile} `{Murmur3Laws}.
Context `{Os} `{TomlParser} `{Env} `{SqliteFile} `{!SqliteFileLaws} `{JwtLaws} `{PamHandle}.
Context `{!WorldLaws}.

(** C1: [pam_sm_authenticate] succeeds only for a user to whom the identity
    provider issued a token: a signed one that validates for the client which
    discovery made from the configuration, with a subject that is the user's
    name or the id SCIM or the cache has under that name. Where the service the
    module keeps, or the configuration it will load, has usable id ranges, every
    other run ends in an authentication error or in unavailability, except that a
    device code with an [expires_in] beyond the clock's range panics. *)
Theorem authentication_needs_a_token w :
  pam_inv w →
  wp pam_sm_authenticate (λ r w', authenticated w w' r ∧
    ∀ client, pam_client w' = Some (Some client) → discovered client) w.
Proof.
  intros Hw. eapply wp_mono; [by apply authenticate_wp|]. intros r w' [Hw' Ha].
  split; [done|]. apply (inv_client w' Hw').
Qed.

Lemma chauthtok_wp w :
  pam_inv w → wp pam_sm_chauthtok (λ r w', pam_inv w' ∧ r = Ok PAM_AUTHTOK_ERR) w.
Proof.
  intros Hw. unfold pam_sm_chauthtok, chauthtok_impl. apply wp_bind.
  eapply wp_mono; [by apply get_oidc_client_wp|]. intros r w1 (Hw1 & c & -> & _). cbn [and_then].
  destruct c as [client|]; [|by apply wp_ret]. apply wp_bind, wp_zoom. unfold wp at 1, pam_info.
  assert (∀ n, pam_inv (pam_set_net n w1)) as Hset by (intros n; by apply pam_inv_net).
  destruct (get_pam_conv _) as [has_fn|]; [destruct (has_nul _); [|destruct has_fn]|];
    (split; [apply Hset|done]).
Qed.

(** One call of the module, or a change other processes make to the files, where
    a configuration keeps usable ranges, and to the shared database. *)
Inductive pam_step : pam → pam → Prop :=
  | step_authenticate w : pam_step w (pam_sm_authenticate w).2
  | step_setcred w : pam_step w (pam_sm_setcred w).2
  | step_chauthtok w : pam_step w (pam_sm_chauthtok w).2
  | step_acct_mgmt w : pam_step w (pam_sm_acct_mgmt w).2
  | step_outside w fs d : db_wf d → deployed fs →
      pam_step w (mk_pam fs (pam_net w) d (pam_service w) (pam_client w)).

(** Whatever calls are made on a module that was just loaded, in whatever
    order, and whatever other processes do to the files and the cache between
    them: the cache stays well formed, the service it keeps has usable ranges,
    and the client it keeps was discovered from a configuration, so that its
    issuer is the configured one, if the configuration on disk has usable
    ranges all along. The calls for credentials and passwords give
    their fixed answers. *)
Theorem pam_reachable_invariant fs log d w :
  db_wf d → deployed fs → rtc pam_step (mk_pam fs log d None None) w →
  pam_inv w ∧ (pam_sm_setcred w).1 = Ok PAM_SUCCESS ∧
  (pam_sm_chauthtok w).1 = Ok PAM_AUTHTOK_ERR.
Proof.
  intros Hd Hfs Hrtc. assert (pam_inv w) as Hw.
  { assert (pam_inv (mk_pam fs log d None None)) as Hinit by by split.
    induction Hrtc as [|w1 w2 w3 Hstep _ IH]; [done|]. apply IH. destruct Hstep.
    - by apply authenticate_wp.
    - done.
    - by apply chauthtok_wp.
    - by apply account_wp.
    - by destruct Hinit; split. }
  split; [done|]. split; [done|]. by apply chauthtok_wp.
Qed.
End entry_points.

(** ** Witnesses: the module against the mock server *)

#[local] Existing Instance oidc_world.
#[local] Existing Instance oidc_parser.
#[local] Existing Instance ascii_percent_encoding.
#[local] Instance pam_engine : Sqlite := still_engine true 1000.
#[local] Instance pam_engine_laws : SqliteLaws := still_engine_laws true 1000.
#[local] Existing Instance release_build.
#[local] Existing Instance byte_sum_hash.
#[local] Existing Instance byte_sum_hash_laws.
#[local] Existing Instances root_os no_env mock_toml creating_open mock_file_laws.
#[local] Instance token_library : Jsonwebtoken := mock_jwt mock_base "test-client".
#[local] Instance token_theory : JwtTheory := mock_jwt_theory mock_base "test-client".
#[local] Instance token_laws : JwtLaws := mock_jwt_laws mock_base "test-client".
#[local] Instance oidc_world_laws : WorldLaws := mock_world_laws print_value mock_base oidc_mocks.

(** A login of [alice] at a terminal. *)
#[local] Instance login : PamHandle := {|
  pam_get_user := λ _, (PAM_SUCCESS, Some "alice");
  pam_get_item := λ _ _, (PAM_SUCCESS, Conv true);
  conv_fn := λ _ _ _, PAM_SUCCESS;
|}.

Definition loaded_pam : pam := mk_pam installed [] empty_db None None.

Lemma loaded_pam_inv : pam_inv loaded_pam.
Proof. split; [apply db_wf_empty|done|done|intros _; apply mock_deployed]. Qed.

Example alice_logs_in : (pam_sm_authenticate loaded_pam).1 = Ok PAM_SUCCESS.
Proof. vm_compute. reflexivity. Qed.
Example alice_is_permitted : (pam_sm_acct_mgmt loaded_pam).1 = Ok PAM_SUCCESS.
Proof. vm_compute. reflexivity. Qed.

Lemma authentication_needs_a_token_witness :
  pam_inv loaded_pam ∧ ∃ client id_token log claims,
    validated client id_token log claims ∧ discovered client ∧
    (cl_sub claims = "alice" ∨
      confirmed (pam_sm_authenticate loaded_pam).2 "alice" (cl_sub claims)).
Proof.
  split; [apply loaded_pam_inv|].
  pose proof (authentication_needs_a_token loaded_pam loaded_pam_inv) as [Ha Hd].
  rewrite alice_logs_in in Ha.
  destruct Ha as [Ha|[Ha|[[Ha _]|(_ & user & client & token & log & claims & Hu & Hc & Hv & Hs)]]];
    [discriminate Ha..|].
  injection Hu as <-. exists client, token, log, claims. split; [exact Hv|].
  split; [exact (Hd client Hc)|exact Hs].
Defined.

Lemma account_management_follows_status_witness :
  pam_inv loaded_pam ∧ ∃ svc active w1,
    get_service (E:=Empty_set) loaded_pam = (Ok (Some svc), w1) ∧
    active_answer svc (pam_db w1) "alice"
      (Scim.get_user_by_name (svc_scim svc) "alice" (pam_net w1)).1 active ∧
    Ok PAM_SUCCESS = Ok (E:=Empty_set) (account_code active).
Proof.
  split; [apply loaded_pam_inv|].
  pose proof (account_management_follows_status loaded_pam loaded_pam_inv) as [_ Ha].
  rewrite alice_is_permitted in Ha. destruct Ha as (service & w1 & Hs & Ha).
  destruct service as [svc|]; [|discriminate Ha]. destruct Ha as (active & Hr & Ha).
  exists svc, active, w1. split; [exact Hs|]. split; [exact Ha|exact Hr].
Defined.

Lemma pam_reachable_invariant_witness :
  rtc pam_step loaded_pam (pam_sm_authenticate loaded_pam).2 ∧
  pam_inv (pam_sm_authenticate loaded_pam).2.
Proof.
  assert (Hstep : rtc pam_step loaded_pam (pam_sm_authenticate loaded_pam).2)
    by (eapply rtc_l; [apply step_authenticate|apply rtc_refl]).
  split; [exact Hstep|].
  exact (proj1 (pam_reachable_invariant installed [] empty_db _ db_wf_empty (mock_deployed installed) Hstep)).
Defined.
