(* ===== verification/Conversation.v ===== *)
(** * Conversation: the memory of a message to the user ([pam_conv.rs])

    [pam_info] of [Pam] says what a message answers and adds to the log. Here it is
    with the memory it uses: the C string it allocates, the response that the
    application's conversation function allocates and [pam_info] has to free, and
    every pointer that is followed or freed. *)

From S2P Require Import Prelude Text Http Pam.
From stdpp Require Import prelude strings gmap.

(** ** The heap *)

(** A pointer of C: [None] is the null pointer. *)
Definition pointer : Type := option positive.

Record PamMessage := mk_pam_message { msg_style : Z; msg : pointer }.
Record PamResponse := mk_pam_response { resp : pointer; resp_retcode : Z }.

(** The blocks that were allocated and not yet freed. *)
Inductive block := TextBlock (s : string) | ResponseBlock (r : PamResponse).
Abbreviation heap := (gmap positive block).

(** What C leaves undefined: [free] of a pointer that is not allocated (any more),
    and an access to a block that is not there. *)
Inductive memory_error := BadFree | BadAccess.

(** [free]: of a null pointer, it does nothing. *)
Definition free (p : pointer) : M heap memory_error () := λ h,
  match p with
  | None => (Ok tt, h)
  | Some a => if bool_decide (is_Some (h !! a)) then (Ok tt, delete a h) else (Err BadFree, h)
  end.

(** [( *resp )]: the response a pointer points to. *)
Definition deref_response (p : pointer) : M heap memory_error PamResponse := λ h,
  match p ≫= (h !!.) with
  | Some (ResponseBlock r) => (Ok r, h)
  | _ => (Err BadAccess, h)
  end.

(** [CString::new]: a block of its own. A text with a NUL in it is refused. *)
Definition CString_new (text : string) : M heap memory_error (option pointer) := λ h,
  if has_nul text then (Ok None, h)
  else let a := fresh (dom h) in (Ok (Some (Some a)), <[a := TextBlock text]> h).

(** ** [pam_info] *)

(** The conversation function at work: given the message, the code it returns, what
    it leaves in [resp], and what the heap is without the response: the blocks of
    the module that it has no business with, and those of its own. *)
Record conversed := mk_conversed {
  returned : Z;
  responded : pointer;
  response_blocks : heap;
  other_blocks : heap;
}.
Class Application := { converse : net → heap → PamMessage → conversed }.

(** A process: what it did to the outside world, and its heap. *)
Record process := mk_process { pr_net : net; pr_heap : heap }.
Definition set_heap (h : heap) (w : process) : process := mk_process (pr_net w) h.
Definition on_heap {E A} (m : M heap E A) : M process E A := zoom pr_heap set_heap m.

Section conversation.
Context `{PamHandle} `{Application}.

(** [conv_fn(1, &mut msg_ptr, &mut resp, conv.appdata_ptr)]: the user is told the text
    behind the message's pointer. *)
Definition call_conv_fn (m : PamMessage) : M process memory_error (Z * pointer) := λ w,
  match msg m ≫= (pr_heap w !!.) with
  | Some (TextBlock text) =>
      let c := converse (pr_net w) (pr_heap w) m in
      (Ok (returned c, responded c),
       mk_process (pr_net w ++ [Told text]) (response_blocks c ∪ other_blocks c))
  | _ => (Err BadAccess, w)
  end.

(** The response is freed after the text it holds. *)
Definition free_response (r : pointer) : M heap memory_error () :=
  if bool_decide (is_Some r) then
    let? response := deref_response r in
    (if bool_decide (is_Some (resp response)) then free (resp response) else ret tt) ;;?
    free r
  else ret tt.

(** [c_msg] is dropped where the function returns. *)
Definition pam_info_in_memory (text : string) : M process memory_error Z := λ w,
  match get_pam_conv (pr_net w) with
  | None => (Ok PAM_SUCCESS, w)
  | Some has_fn =>
      (let? c_msg := on_heap (CString_new text) in
       match c_msg with
       | None => ret PAM_SUCCESS
       | Some c_msg =>
           let pam_msg := mk_pam_message PAM_TEXT_INFO c_msg in
           if has_fn then
             let? answer := call_conv_fn pam_msg in
             let '(code, response) := answer in
             on_heap (free_response response) ;;?
             on_heap (free c_msg) ;;?
             ret code
           else on_heap (free c_msg) ;;? ret PAM_SUCCESS
       end) w
  end.
End conversation.

(** ** What libpam documents *)

(** A response is null, or a block that holds the structure, whose text is null or a
    block of its own. *)
Inductive response_in (h : heap) : pointer → Prop :=
  | no_response : h = ∅ → response_in h None
  | bare_response a code :
      h = {[a := ResponseBlock (mk_pam_response None code)]} → response_in h (Some a)
  | response_with_text a t code text :
      a ≠ t →
      h = {[a := ResponseBlock (mk_pam_response (Some t) code); t := TextBlock text]} →
      response_in h (Some a).

(** The conversation function of an application: what it returns depends on the style
    and the text of the message, it allocates its response, and it neither frees nor
    changes the message. *)
Class ApplicationLaws `{PamHandle} `{Application} : Prop := {
  converse_returns : ∀ log h m a text,
    msg m = Some a → h !! a = Some (TextBlock text) →
    returned (converse log h m) = conv_fn log (msg_style m) text;
  converse_responds : ∀ log h m,
    response_in (response_blocks (converse log h m)) (responded (converse log h m));
  converse_allocates : ∀ log h m,
    response_blocks (converse log h m) ##ₘ other_blocks (converse log h m);
  converse_keeps_message : ∀ log h m a,
    msg m = Some a → other_blocks (converse log h m) !! a = h !! a;
}.

(** ** What [pam_info] does with the memory *)

#[local] Arguments free _ _ : simpl never.

Lemma free_allocated h a b : h !! a = Some b → free (Some a) h = (Ok tt, delete a h).
Proof. intros Ha. unfold free. by rewrite bool_decide_eq_true_2 by eauto. Qed.

(** The blocks of the response, and no others, are freed, each of them once. *)
Lemma free_response_frees blocks r others :
  response_in blocks r → blocks ##ₘ others → free_response r (blocks ∪ others) = (Ok tt, others).
Proof.
  intros [->|a code ->|a t code text Hat ->] Hdisj.
  - by rewrite (left_id_L ∅ (∪)).
  - apply map_disjoint_singleton_l in Hdisj. rewrite <-insert_union_singleton_l.
    unfold free_response, bind, deref_response. cbn. rewrite lookup_insert_eq.
    rewrite bool_decide_eq_false_2 by (intros [? ?]; done). cbn.
    erewrite free_allocated by apply lookup_insert_eq. by rewrite delete_insert_id.
  - rewrite <-insert_union_l, <-insert_union_singleton_l.
    apply map_disjoint_insert_l in Hdisj as [Ha Ht]. apply map_disjoint_singleton_l in Ht.
    unfold free_response, bind, deref_response. cbn. rewrite lookup_insert_eq.
    rewrite bool_decide_eq_true_2 by eauto. cbn.
    erewrite free_allocated by (rewrite lookup_insert_ne by done; apply lookup_insert_eq).
    rewrite delete_insert_ne, delete_insert_id by done.
    erewrite free_allocated by apply lookup_insert_eq. by rewrite delete_insert_id.
Qed.

Section ownership.
Context `{ApplicationLaws}.

(** The heap a message should leave: as it was, but for what the application did to
    blocks of its own. *)
Definition left_by_application (text : string) (w : process) : heap :=
  if decide (get_pam_conv (pr_net w) = Some true ∧ has_nul text = false) then
    let a := fresh (dom (pr_heap w)) in
    delete a (other_blocks (converse (pr_net w) (<[a := TextBlock text]> (pr_heap w))
      (mk_pam_message PAM_TEXT_INFO (Some a))))
  else pr_heap w.

(** C35: [pam_info] follows and frees only pointers to allocated blocks, each block once;
    it answers and tells the user what [Pam.pam_info] does, on every branch; and it
    leaves neither its message nor the application's response allocated. *)
Theorem pam_info_owns_no_memory text w :
  ∃ code w', pam_info_in_memory text w = (Ok code, w') ∧
    pam_info (E:=Empty_set) text (pr_net w) = (Ok code, pr_net w') ∧
    pr_heap w' = left_by_application text w.
Proof.
  destruct w as [log h]. unfold pam_info_in_memory, pam_info, left_by_application. cbn [pr_net pr_heap].
  destruct (get_pam_conv log) as [has_fn|] eqn:Hconv; [|by rewrite decide_False by naive_solver; eauto].
  unfold bind, on_heap, zoom, CString_new. cbn [pr_net pr_heap].
  destruct (has_nul text) eqn:Hnul; [rewrite decide_False by naive_solver; by eauto|].
  set (a := fresh (dom h)). assert (h !! a = None) as Ha by apply not_elem_of_dom, is_fresh.
  destruct has_fn; cbn.
  2: { erewrite free_allocated by apply lookup_insert_eq. cbn. rewrite delete_insert_id by done.
       rewrite decide_False by naive_solver. eauto. }
  unfold call_conv_fn. cbn. rewrite lookup_insert_eq. cbn.
  set (m := mk_pam_message PAM_TEXT_INFO (Some a)). set (h1 := <[a:=TextBlock text]> h).
  rewrite (free_response_frees _ _ _ (converse_responds log h1 m) (converse_allocates log h1 m)). cbn.
  assert (other_blocks (converse log h1 m) !! a = Some (TextBlock text)) as Hm
    by (rewrite (converse_keeps_message log h1 m a eq_refl); apply lookup_insert_eq).
  rewrite (free_allocated _ _ _ Hm). cbn. rewrite decide_True by done. eexists _, _.
  split; [done|]. split; [|done].
  by rewrite (converse_returns log h1 m a text eq_refl) by apply lookup_insert_eq.
Qed.

(** An application that keeps nothing finds the heap as it was. *)
Lemma frugal_application_leaves_nothing text w :
  (∀ log h m, other_blocks (converse log h m) = h) → left_by_application text w = pr_heap w.
Proof.
  intros Hkeeps. unfold left_by_application. case_decide; [|done]. rewrite Hkeeps.
  apply delete_insert_id, not_elem_of_dom, is_fresh.
Qed.
End ownership.

(** ** Witness: an application that answers every message with an empty text *)

#[local] Instance polite_handle : PamHandle := {|
  pam_get_user := λ _, (PAM_SUCCESS, Some "alice");
  pam_get_item := λ _ _, (PAM_SUCCESS, Conv true);
  conv_fn := λ _ _ _, PAM_SUCCESS;
|}.

#[local] Instance polite : Application := {|
  converse := λ _ h _,
    let a := fresh (dom h) in let t := fresh ({[a]} ∪ dom h) in
    mk_conversed PAM_SUCCESS (Some a)
      {[a := ResponseBlock (mk_pam_response (Some t) 0); t := TextBlock ""]} h
|}.

Lemma polite_laws : ApplicationLaws.
Proof.
  split; [done| | |done]; intros log h m; cbn; set (a := fresh (dom h));
    pose proof (is_fresh ({[a]} ∪ dom h)) as Ht; set (t := fresh ({[a]} ∪ dom h)) in *;
    apply not_elem_of_union in Ht as [Hat%not_elem_of_singleton Ht%not_elem_of_dom].
  - by apply (response_with_text _ a t 0 "").
  - apply map_disjoint_insert_l. split; [apply not_elem_of_dom, is_fresh|].
    by apply map_disjoint_singleton_l.
Qed.

Definition calling : process := mk_process [] {[7%positive := TextBlock "the application's"]}.

Lemma pam_info_owns_no_memory_witness :
  ∃ w', pam_info_in_memory "hello" calling = (Ok PAM_SUCCESS, w') ∧
    pr_net w' = [Told "hello"] ∧ pr_heap w' = pr_heap calling.
Proof.
  destruct (@pam_info_owns_no_memory _ _ polite_laws "hello" calling) as (code & w' & Hrun & Hinfo & Hheap).
  exists w'. injection Hinfo as <- <-. split; [exact Hrun|]. split; [reflexivity|].
  rewrite Hheap. by apply frugal_application_leaves_nothing.
Defined.
