(* ===== verification/Calls.v ===== *)
(** * Calls: the calls of both modules, step by step

    [Nss] and [Pam] have every call of a module as one computation. Here each is
    a thread of [Threads]: a request of the network, a transaction of the cache,
    an access to a static or a step of the conversation is one action, between
    the locks that the code takes ([nss_oidc/src/state.rs], [ffi.rs],
    [pam_oidc/src/state.rs], [ffi.rs], [std::sync]). Two computations stay one
    step: loading the configuration, because no process of the host writes its
    files, and what a client computes from one reply. *)

From S2P Require Import Prelude Text Model Value Mapping Fs Http Sql Cache Scim Config Service.
From S2P Require Import Interleave Threads Buffer Passwd GroupPack Nss Oidc Pam.
From stdpp Require Import prelude strings list gmap.

(** ** [scim.rs] and [service.rs] *)

Section scim_programs.
Context `{World} `{JsonParser} `{PercentEncoding} `{BuildProfile} (c : ScimClient).

Fixpoint paginate_p {T} (dec : decoder T) (resource : string) (pages : nat)
    (start_index : Z) (all : list T) : prog net ScimError (list T) :=
  match pages with
  | O => Done (Ok all)
  | S pages =>
      let! resp := tx (fetch_page c dec resource start_index) in
      let fetched := length (lr_resources resp) in
      let all := all ++ lr_resources resp in
      if bool_decide (lr_total_results resp ≤ Z.of_nat (length all))%Z
         || bool_decide (fetched = 0)
      then Done (Ok all)
      else let! start_index := local (u64_add start_index (Z.of_nat fetched)) in
           paginate_p dec resource pages start_index all
  end.

Definition list_users_p : prog net ScimError (list ScimUser) :=
  paginate_p decode_ScimUser "Users" MAX_PAGINATION_PAGES 1 [].
Definition list_groups_p : prog net ScimError (list ScimGroup) :=
  paginate_p decode_ScimGroup "Groups" MAX_PAGINATION_PAGES 1 [].
End scim_programs.

Definition net_p {E A} (p : prog net E A) : prog backend E A := pzoom bk_net set_bk_net p.
Definition db_p {E A} (p : prog db E A) : prog backend E A := pzoom bk_db set_bk_db p.

Definition Service_new_p `{Sqlite} {E} (config : Config) (scim : ScimClient) (cache : Cache)
    : prog db E Service :=
  let ttl := cfg_ttl_seconds (cfg_cache config) in
  let! _ := ptry (purge_expired_p ttl) (λ _, Done (Ok tt)) (λ _, Done (Ok tt)) in
  Done (Ok (mk_service scim cache config)).

Section service_programs.
Context `{World} `{JsonParser} `{PercentEncoding} `{Sqlite} `{BuildProfile} `{Murmur3}.
Variable self : Service.

Definition lookup_user_by_name_p (name : string) : prog backend ServiceError (option User) :=
  if bool_decide (MAX_NAME_LEN < String.length name) then Done (Ok None)
  else
    ptry (tx (on_net (Scim.get_user_by_name (svc_scim self) name)))
      (λ found,
        match found with
        | Some scim_user =>
            let! user := db_p (admit_user_p self scim_user) in Done (Ok (Some user))
        | None => pmap_err from (tx (on_db (Cache.get_user_by_name (svc_cache self) name)))
        end)
      (λ _, pmap_err from (tx (on_db (Cache.get_user_by_name (svc_cache self) name)))).

Definition lookup_user_by_uid_p (uid : Z) : prog backend ServiceError (option User) :=
  let! cached := pmap_err from (tx (on_db (get_user_by_uid (svc_cache self) uid))) in
  match cached with
  | Some cached => Done (Ok (Some cached))
  | None => Done (Ok None)
  end.

Definition lookup_group_by_name_p (name : string) : prog backend ServiceError (option Group) :=
  if bool_decide (MAX_NAME_LEN < String.length name) then Done (Ok None)
  else
    ptry (tx (on_net (Scim.get_group_by_name (svc_scim self) name)))
      (λ found,
        match found with
        | Some scim_group =>
            let! group := db_p (admit_group_p self scim_group) in Done (Ok (Some group))
        | None => pmap_err from (tx (on_db (Cache.get_group_by_name (svc_cache self) name)))
        end)
      (λ _, pmap_err from (tx (on_db (Cache.get_group_by_name (svc_cache self) name)))).

Definition lookup_group_by_gid_p (gid : Z) : prog backend ServiceError (option Group) :=
  let! cached := pmap_err from (tx (on_db (get_group_by_gid (svc_cache self) gid))) in
  match cached with
  | Some cached => Done (Ok (Some cached))
  | None => Done (Ok None)
  end.

Definition check_user_active_p (name : string) : prog backend ServiceError bool :=
  if bool_decide (MAX_NAME_LEN < String.length name) then Done (Ok false)
  else
    ptry (tx (on_net (Scim.get_user_by_name (svc_scim self) name)))
      (λ found,
        match found with
        | Some scim_user =>
            let! user := db_p (admit_user_p self scim_user) in Done (Ok (user_active user))
        | None => Done (Ok false)
        end)
      (λ _,
        match offline_auth_policy (cfg_security (svc_config self)) with
        | CachedStatus =>
            let! cached := pmap_err from
              (tx (on_db (Cache.get_user_by_name (svc_cache self) name))) in
            match cached with
            | Some user => Done (Ok (user_active user))
            | None => Done (Ok false)
            end
        | Deny => Done (Ok false)
        end).

Definition lookup_groups_for_user_p (name : string) : prog backend ServiceError (list Z) :=
  if bool_decide (MAX_NAME_LEN < String.length name) then Done (Ok [])
  else
    let mc := cfg_mapping (svc_config self) in
    ptry (tx (on_net (Scim.get_user_by_name (svc_scim self) name)))
      (λ found,
        match found with
        | Some scim_user =>
            let! _ := db_p (admit_user_p self scim_user) in
            collect_p (su_groups scim_user) (λ g, pmap_err from
              (db_p (resolve_gid_p (sgr_value g) (gid_range_min mc) (gid_range_size mc))))
        | None => Done (Ok [])
        end)
      (λ _,
        let! groups := pmap_err from (tx (on_db (get_groups_for_member (svc_cache self) name))) in
        Done (Ok (group_gid <$> groups))).

(** The loops of [setpwent] and [setgrent]. *)
Fixpoint convert_users_p {E} (scim_users : list ScimUser) : prog backend E (list User) :=
  match scim_users with
  | [] => Done (Ok [])
  | su :: scim_users =>
      ptry (db_p (scim_user_to_model_p self su))
        (λ user,
          let! _ := ptry (tx (on_db (store_user user))) (λ _, Done (Ok tt)) (λ _, Done (Ok tt)) in
          let! users := convert_users_p scim_users in
          Done (Ok (user :: users)))
        (λ _, convert_users_p scim_users)
  end.

Fixpoint convert_groups_p {E} (scim_groups : list ScimGroup) : prog backend E (list Group) :=
  match scim_groups with
  | [] => Done (Ok [])
  | sg :: scim_groups =>
      ptry (db_p (scim_group_to_model_p self sg))
        (λ group,
          let! _ := ptry (db_p (store_group_p group)) (λ _, Done (Ok tt)) (λ _, Done (Ok tt)) in
          let! groups := convert_groups_p scim_groups in
          Done (Ok (group :: groups)))
        (λ _, convert_groups_p scim_groups)
  end.
End service_programs.

(** ** Outcomes and locks *)

(** [p], and what its caller does with a value or an error. *)
Definition ttry {L S E E' A B} (p : prog S E A) (ok : A → thread L S E' B)
    (err : E → thread L S E' B) : thread L S E' B :=
  tlift p (λ r, match r with Ok a => ok a | Err e => err e | Panic => Return Panic end).

Inductive module_lock := NssStateOnce | NssMutex (l : nss_lock) | PamServiceOnce | PamClientOnce | PamMutex.

#[export] Instance nss_lock_eq_dec : EqDecision nss_lock.
Proof. solve_decision. Defined.
#[export] Instance module_lock_eq_dec : EqDecision module_lock.
Proof. solve_decision. Defined.
#[export] Instance module_lock_countable : Countable module_lock.
Proof.
  refine (inj_countable'
    (λ l, match l with
          | NssStateOnce => 0 | NssMutex ServiceLock => 1 | NssMutex UserEnumLock => 2
          | NssMutex GroupEnumLock => 3 | PamServiceOnce => 4 | PamClientOnce => 5 | PamMutex => 6
          end)
    (λ n, match n with
          | 0 => NssStateOnce | 1 => NssMutex ServiceLock | 2 => NssMutex UserEnumLock
          | 3 => NssMutex GroupEnumLock | 4 => PamServiceOnce | 5 => PamClientOnce | _ => PamMutex
          end) _).
  by intros [|[]| | |].
Defined.

(** [match l.lock() { Ok(guard) => .., Err(_) => poisoned }]: the guard is
    dropped when [p] has ended. *)
Definition with_mutex {E E' A B} (l : nss_lock) (poisoned : thread module_lock nss E' B)
    (p : prog nss E A) (k : outcome E A → thread module_lock nss E' B) : thread module_lock nss E' B :=
  Acquire (NssMutex l) (Act (lock (E:=Empty_set) l) (λ r,
    match r with
    | Ok true => tlift p (λ r, Release (NssMutex l) (k r))
    | _ => Release (NssMutex l) poisoned
    end)).

(** ** [nss_oidc] *)

Section nss_calls.
Context `{World} `{JsonParser} `{PercentEncoding} `{Sqlite} `{BuildProfile} `{Murmur3}.
Context `{Os} `{TomlParser} `{Env} `{SqliteFile}.
Abbreviation nss_thread := (thread module_lock nss undefined_behaviour).

(** A database [":memory:"] belongs to the connection that opens it: this is its
    first state, where no other connection shares the component. The machine of
    [Host] shares it, and has its cache in a file. *)
Definition open_p (path : string) (ttl_seconds : Z) : prog storage CacheError Cache :=
  let! _ := tx (zoom st_fs set_fs (map_err from (connection_open path))) in
  let! _ := tx (if bool_decide (path ≠ ":memory:")
                then zoom st_fs set_fs (harden_cache_file path)
                else λ s, (Ok tt, set_db empty_db s)) in
  let! _ := tx (zoom st_db set_db (map_err from (execute (λ _ d, d)))) in
  let! _ := tx (zoom st_db set_db (map_err from (execute (λ _ d, d)))) in
  Done (Ok (mk_cache ttl_seconds)).

Definition storage_p {E A} (p : prog storage E A) : prog nss E A :=
  pzoom (λ w, mk_storage (nss_fs w) (nss_db w)) set_storage p.
Definition backend_p {E A} (p : prog backend E A) : prog nss E A :=
  pzoom (λ w, mk_backend (nss_net w) (nss_db w)) set_backend p.

Definition init_state_p {E} : prog nss E (option NssState) :=
  ptry (tx (on_storage (zoom st_fs set_fs load)))
    (λ config,
      let base_url := cfg_base_url (cfg_scim config) in
      let bearer_token := cfg_bearer_token (cfg_scim config) in
      let scim := ScimClient_new base_url bearer_token in
      ptry (storage_p (open_p (cfg_db_path (cfg_cache config)) (cfg_ttl_seconds (cfg_cache config))))
        (λ cache,
          let svc_scim := ScimClient_new base_url bearer_token in
          let! svc := backend_p (db_p (Service_new_p config svc_scim cache)) in
          Done (Ok (Some (mk_nss_state scim svc))))
        (λ _, Done (Ok None)))
    (λ _, Done (Ok None)).

Definition get_state_t {A} (k : option NssState → nss_thread A) : nss_thread A :=
  get_or_init NssStateOnce nss_state set_state init_state_p k.

(** A function that looks one entry up and fills the caller's struct [cl]. The
    code drops the guard at the end of the function: what follows the lookup
    touches only the caller's memory, so here the release is the last step. *)
Section lookups.
Context {A C : Type} (set_errno_0 : M C undefined_behaviour ()) (cl : C).

Definition return_t (s : NssStatus) : nss_thread (NssStatus * C) :=
  Return (Ok (s, (set_errno_0 cl).2)).

Definition fill_t (fill : M C undefined_behaviour NssStatus) : nss_thread (NssStatus * C) :=
  Return (match fill cl with
          | (Ok s, cl) => Ok (s, cl)
          | (Err e, _) => Err e
          | (Panic, _) => Panic
          end).

Definition lookup_t (lookup : Service → prog backend ServiceError (option A))
    (fill : A → M C undefined_behaviour NssStatus) : nss_thread (NssStatus * C) :=
  get_state_t (λ st,
    match st with
    | None => return_t Unavail
    | Some st =>
        with_mutex ServiceLock (return_t Unavail) (backend_p (lookup (ns_service st))) (λ r,
          match r with
          | Ok (Some x) => fill_t (fill x)
          | Ok None => return_t NotFound
          | Err _ => return_t Unavail
          | Panic => Return Panic
          end)
    end).
End lookups.

Definition getpwnam_t (name : string) (buflen : nat) (cl : caller passwd)
    : nss_thread (NssStatus * caller passwd) :=
  if negb (valid_utf8 name) then return_t (set_errno 0) cl NotFound
  else lookup_t (set_errno 0) cl (λ svc, lookup_user_by_name_p svc name)
    (λ user, fill_passwd_buf user buflen).

Definition getpwuid_t (uid : Z) (buflen : nat) (cl : caller passwd)
    : nss_thread (NssStatus * caller passwd) :=
  lookup_t (set_errno 0) cl (λ svc, lookup_user_by_uid_p svc uid)
    (λ user, fill_passwd_buf user buflen).

Definition getgrnam_t (name : string) (buflen : nat) (cl : caller group_struct)
    : nss_thread (NssStatus * caller group_struct) :=
  if negb (valid_utf8 name) then return_t (set_errno 0) cl NotFound
  else lookup_t (set_errno 0) cl (λ svc, lookup_group_by_name_p svc name)
    (λ grp, fill_group_buf grp buflen).

Definition getgrgid_t (gid : Z) (buflen : nat) (cl : caller group_struct)
    : nss_thread (NssStatus * caller group_struct) :=
  lookup_t (set_errno 0) cl (λ svc, lookup_group_by_gid_p svc gid)
    (λ grp, fill_group_buf grp buflen).

Definition initgroups_t (user : string) (group : Z) (a : group_array)
    : nss_thread (NssStatus * group_array) :=
  if negb (valid_utf8 user) then return_t (ga_set_errno 0) a NotFound
  else get_state_t (λ st,
    match st with
    | None => return_t (ga_set_errno 0) a Unavail
    | Some st =>
        with_mutex ServiceLock (return_t (ga_set_errno 0) a Unavail)
          (backend_p (lookup_groups_for_user_p (ns_service st) user)) (λ r,
          match r with
          | Ok gids => fill_t a
              (let? a := get_array in add_groups group (as_usize (ga_size a)) gids)
          | Err _ => return_t (ga_set_errno 0) a Unavail
          | Panic => Return Panic
          end)
    end).

(** [setpwent] lists without a lock, converts under the service's, and stores
    the listing under the enumeration's: never two locks at once. *)
Definition setent_t {R A} (listing : ScimClient → prog net ScimError (list R))
    (convert : Service → list R → prog backend undefined_behaviour (list A)) (l : nss_lock)
    (set : option (list A * nat) → nss → nss) : nss_thread NssStatus :=
  get_state_t (λ st,
    match st with
    | None => Return (Ok Unavail)
    | Some st =>
        ttry (backend_p (net_p (listing (ns_scim st))))
          (λ resources,
            with_mutex ServiceLock (Return (Ok Unavail))
              (backend_p (convert (ns_service st) resources)) (λ r,
              match r with
              | Ok entries =>
                  with_mutex l (Return (Ok Success))
                    (tx (E:=Empty_set) (λ w, (Ok tt, set (Some (entries, 0)) w)))
                    (λ _, Return (Ok Success))
              | Err e => Return (Err e)
              | Panic => Return Panic
              end))
          (λ _, Return (Ok Unavail))
    end).

Definition setpwent_t : nss_thread NssStatus :=
  setent_t list_users_p (λ svc, convert_users_p svc) UserEnumLock set_users.
Definition setgrent_t : nss_thread NssStatus :=
  setent_t list_groups_p (λ svc, convert_groups_p svc) GroupEnumLock set_groups.
End nss_calls.

Section nss_enumeration.
Abbreviation nss_thread := (thread module_lock nss undefined_behaviour).

(** The read of the static, the filling of the struct, and [*idx += 1] are steps
    of their own, under the mutex. *)
Definition getent_t {A R} (l : nss_lock) (get : nss → option (list A * nat))
    (set : option (list A * nat) → nss → nss)
    (fill : A → M (caller R) undefined_behaviour NssStatus) (cl : caller R)
    : nss_thread (NssStatus * caller R) :=
  let errno_0 := (set_errno (E:=undefined_behaviour) 0 cl).2 in
  with_mutex l (Return (Ok (Unavail, errno_0)))
    (let! state := tx (λ w, (Ok (get w), w)) in
     match state with
     | None => Done (Ok (Unavail, errno_0))
     | Some (entries, idx) =>
         if bool_decide (length entries ≤ idx) then Done (Ok (NotFound, errno_0))
         else
           match entries !! idx with
           | None => Done Panic
           | Some entry =>
               let! filled := Done (match fill entry cl with
                                    | (Ok s, cl) => Ok (s, cl)
                                    | (Err e, _) => Err e
                                    | (Panic, _) => Panic
                                    end) in
               let! _ :=
                 if bool_decide (filled.1 = Success)
                 then tx (λ w, (Ok tt, set (prod_map id S <$> get w) w)) else Done (Ok tt) in
               Done (Ok filled)
           end
     end)
    Return.

Definition getpwent_t (buflen : nat) (cl : caller passwd) : nss_thread (NssStatus * caller passwd) :=
  getent_t UserEnumLock nss_users set_users (λ user, fill_passwd_buf user buflen) cl.
Definition getgrent_t (buflen : nat) (cl : caller group_struct)
    : nss_thread (NssStatus * caller group_struct) :=
  getent_t GroupEnumLock nss_groups set_groups (λ grp, fill_group_buf grp buflen) cl.

Definition endpwent_t : nss_thread NssStatus :=
  with_mutex UserEnumLock (Return (Ok Success))
    (tx (E:=Empty_set) (λ w, (Ok tt, set_users None w))) (λ _, Return (Ok Success)).
Definition endgrent_t : nss_thread NssStatus :=
  with_mutex GroupEnumLock (Return (Ok Success))
    (tx (E:=Empty_set) (λ w, (Ok tt, set_groups None w))) (λ _, Return (Ok Success)).
End nss_enumeration.

(** ** [oidc.rs] and [pam_oidc] *)

Section pam_calls.
Context `{World} `{JsonParser} `{PercentEncoding} `{Sqlite} `{BuildProfile} `{Murmur3}.
Context `{Os} `{TomlParser} `{Env} `{SqliteFile} `{Jsonwebtoken} `{PamHandle}.
Abbreviation pam_thread := (thread module_lock pam Empty_set).

(** Others act while this thread sleeps. *)
Definition sleep_p {E} (secs : Z) : prog net E () := let! since := tx now in tx (wake since secs).

Fixpoint poll_loop_p (self : OidcClient) (fuel : nat) (device_code : string)
    (deadline interval_secs : Z) : prog net OidcError (option TokenResponse) :=
  match fuel with
  | O => Done (Ok None)
  | S fuel =>
      let! _ := sleep_p interval_secs in
      let! t := tx now in
      if bool_decide (deadline ≤ t)%Z then Done (Err ExpiredToken)
      else
        ptry (tx (poll_for_token self device_code))
          (λ token, Done (Ok (Some token)))
          (λ e,
            match e with
            | AuthorizationPending => poll_loop_p self fuel device_code deadline interval_secs
            | SlowDown =>
                let! interval_secs := local (u64_add interval_secs 5) in
                poll_loop_p self fuel device_code deadline interval_secs
            | e => Done (Err e)
            end)
  end.

Definition authenticate_device_flow_p (self : OidcClient) (scope : string)
    (display_fn : string → string → M net OidcError ()) : prog net OidcError TokenResponse :=
  let! device_auth := tx (request_device_code self scope) in
  let! _ := tx (display_fn (da_user_code device_auth) (da_verification_uri device_auth)) in
  let interval_secs := Z.max (da_interval device_auth) MIN_POLL_INTERVAL_SECS in
  let! start := tx now in
  let! deadline := local (instant_add_secs start (da_expires_in device_auth)) in
  let! token := poll_loop_p self (poll_fuel (da_expires_in device_auth))
    (da_device_code device_auth) deadline interval_secs in
  match token with
  | Some token => Done (Ok token)
  | None => Done Panic
  end.

Definition pam_net_p {E A} (p : prog net E A) : prog pam E A := pzoom pam_net pam_set_net p.
Definition pam_storage_p {E A} (p : prog storage E A) : prog pam E A :=
  pzoom (λ w, mk_storage (pam_fs w) (pam_db w)) pam_set_storage p.
Definition pam_backend_p {E A} (p : prog backend E A) : prog pam E A :=
  pzoom (λ w, mk_backend (pam_net w) (pam_db w)) pam_set_backend p.

Definition init_service_p {E} : prog pam E (option Service) :=
  ptry (tx (pam_on_fs load))
    (λ config,
      let scim := ScimClient_new (cfg_base_url (cfg_scim config))
        (cfg_bearer_token (cfg_scim config)) in
      ptry (pam_storage_p
          (open_p (cfg_db_path (cfg_cache config)) (cfg_ttl_seconds (cfg_cache config))))
        (λ cache,
          let! svc := pam_backend_p (db_p (Service_new_p config scim cache)) in
          Done (Ok (Some svc)))
        (λ _, Done (Ok None)))
    (λ _, Done (Ok None)).

Definition init_oidc_client_p {E} : prog pam E (option OidcClient) :=
  ptry (tx (pam_on_fs load))
    (λ config,
      let discover_fn :=
        if cfg_allow_insecure (cfg_oidc config) then discover_insecure else discover in
      ptry (tx (pam_on_net (discover_fn (cfg_issuer_url (cfg_oidc config))
          (cfg_client_id (cfg_oidc config)) (cfg_client_secret (cfg_oidc config)))))
        (λ c, Done (Ok (Some c)))
        (λ _, Done (Ok None)))
    (λ _, Done (Ok None)).

Definition get_service_t {A} (k : option Service → pam_thread A) : pam_thread A :=
  get_or_init PamServiceOnce pam_service pam_set_service init_service_p k.
Definition get_oidc_client_t {A} (k : option OidcClient → pam_thread A) : pam_thread A :=
  get_or_init PamClientOnce pam_client pam_set_client init_oidc_client_p k.

(** The mutex of the service; a poisoned one is recovered. *)
Definition verify_subject_t (username sub : string) : pam_thread Z :=
  if bool_decide (sub = username) then Return (Ok PAM_SUCCESS)
  else get_service_t (λ svc,
    match svc with
    | None => Return (Ok PAM_AUTH_ERR)
    | Some svc =>
        locked PamMutex (pam_backend_p (lookup_user_by_name_p svc username)) (λ r,
          match r with
          | Ok (Some user) =>
              if bool_decide (user_external_id user = sub) then Return (Ok PAM_SUCCESS)
              else Return (Ok PAM_AUTH_ERR)
          | Ok None => Return (Ok PAM_AUTH_ERR)
          | Err _ => Return (Ok PAM_AUTH_ERR)
          | Panic => Return Panic
          end)
    end).

Definition authenticate_t : pam_thread Z :=
  ttry (tx (pam_on_net get_pam_user))
    (λ username, get_oidc_client_t (λ client,
      match client with
      | None => Return (Ok PAM_AUTHINFO_UNAVAIL)
      | Some client =>
          ttry (pam_net_p (authenticate_device_flow_p client "openid" display))
            (λ token,
              match tr_id_token token with
              | None => Return (Ok PAM_AUTH_ERR)
              | Some id_token_raw =>
                  ttry (tx (pam_on_net (validate_id_token client id_token_raw)))
                    (λ claims, verify_subject_t username (cl_sub claims))
                    (λ _, Return (Ok PAM_AUTH_ERR))
              end)
            (λ _, Return (Ok PAM_AUTH_ERR))
      end))
    (λ _, Return (Ok PAM_AUTH_ERR)).

Definition chauthtok_t : pam_thread Z :=
  get_oidc_client_t (λ client,
    match client with
    | None => Return (Ok PAM_AUTHTOK_ERR)
    | Some c =>
        ttry (tx (E:=Empty_set) (pam_on_net (pam_info
          ("Password changes are not supported via PAM for OIDC accounts." +:+ newline +:+
           "Please change your password at your identity provider:" +:+ newline +:+ "  " +:+
           ep_issuer (oc_endpoints c)))))
          (λ _, Return (Ok PAM_AUTHTOK_ERR)) (λ _, Return (Ok PAM_AUTHTOK_ERR))
    end).

Definition acct_mgmt_t : pam_thread Z :=
  ttry (tx (pam_on_net get_pam_user))
    (λ username, get_service_t (λ svc,
      match svc with
      | None => Return (Ok PAM_AUTHINFO_UNAVAIL)
      | Some svc =>
          locked PamMutex (pam_backend_p (check_user_active_p svc username)) (λ r,
            match r with
            | Ok active => Return (Ok (if active then PAM_SUCCESS else PAM_PERM_DENIED))
            | Err _ => Return (Ok PAM_AUTHINFO_UNAVAIL)
            | Panic => Return Panic
            end)
      end))
    (λ _, Return (Ok PAM_AUTH_ERR)).
End pam_calls.
