(* ===== verification/CallsAlone.v ===== *)
(** * CallsAlone: a call on its own is the call of [Nss] and [Pam]

    The threads of [Calls] split the calls of the modules into steps. Run with
    nobody else about they are the calls: the same answer, the same caller's
    memory, the same module and world afterwards. *)

From S2P Require Import Prelude Text Model Value Mapping Fs Http Sql Cache Scim Config Service.
From S2P Require Import Interleave InterleaveFacts InterleaveProps Threads ThreadsFacts.
From S2P Require Import Buffer Passwd GroupPack Nss Oidc Pam Calls.
From stdpp Require Import prelude strings list.

#[export] Instance st_fs_lens : Lens st_fs set_fs.
Proof. split; [done| |done]. by intros []. Qed.
#[export] Instance st_db_lens : Lens st_db set_db.
Proof. split; [done| |done]. by intros []. Qed.
#[export] Instance nss_storage_lens : Lens (λ w, mk_storage (nss_fs w) (nss_db w)) set_storage.
Proof. split; [by intros []|by intros []|done]. Qed.
#[export] Instance nss_backend_lens : Lens (λ w, mk_backend (nss_net w) (nss_db w)) set_backend.
Proof. split; [by intros []|by intros []|done]. Qed.
#[export] Instance pam_net_lens : Lens pam_net pam_set_net.
Proof. split; [done|by intros []|done]. Qed.
#[export] Instance pam_storage_lens : Lens (λ w, mk_storage (pam_fs w) (pam_db w)) pam_set_storage.
Proof. split; [by intros []|by intros []|done]. Qed.
#[export] Instance pam_backend_lens : Lens (λ w, mk_backend (pam_net w) (pam_db w)) pam_set_backend.
Proof. split; [by intros []|by intros []|done]. Qed.

(** ** Programs *)

Section programs.
Context `{World} `{JsonParser} `{PercentEncoding} `{Sqlite} `{BuildProfile} `{Murmur3}.

Lemma run_paginate c {T} (dec : decoder T) resource pages start all :
  run (paginate_p c dec resource pages start all) ≡ paginate c dec resource pages start all.
Proof.
  revert start all. induction pages as [|pages IH]; intros start all; [done|].
  cbn [paginate_p paginate]. rewrite run_bind. apply bind_proper; [apply run_tx|intros resp].
  destruct (_ || _); [done|]. rewrite run_bind.
  apply bind_proper; [apply run_local_narrow|intros start']. apply IH.
Qed.

Lemma run_db_p {E A} (p : prog db E A) : run (db_p p) ≡ on_db (run p).
Proof. apply run_pzoom, _. Qed.
Lemma run_net_p {E A} (p : prog net E A) : run (net_p p) ≡ on_net (run p).
Proof. apply run_pzoom, _. Qed.
Lemma run_tx_err {S E E' A} (f : E → E') (m : M S E A) : run (pmap_err f (tx m)) ≡ map_err f m.
Proof. by rewrite run_pmap_err, run_tx. Qed.

Lemma run_Service_new {E} config scim cache :
  run (Service_new_p (E:=E) config scim cache) ≡ Service_new config scim cache.
Proof.
  unfold Service_new_p, Service_new. rewrite run_bind. apply bind_proper; [|by intros []].
  rewrite run_ptry. apply try_with_proper; [apply run_purge_expired|by intros ?..].
Qed.

Variable self : Service.

(** A user or a group that SCIM knows, admitted and then used. *)
Lemma run_admit_user_then {B} su (k : User → M backend ServiceError B)
    (kp : User → prog backend ServiceError B) :
  (∀ u, run (kp u) ≡ k u) →
  run (let! user := db_p (admit_user_p self su) in kp user) ≡
    (let? user := scim_user_to_model self su in
     map_err from (on_db (store_user user)) ;;? k user).
Proof.
  intros Hk. rewrite run_bind. etrans.
  { apply bind_proper; [etrans; [apply run_db_p|apply run_admit_user]|exact Hk]. }
  intros b. unfold bind. destruct (scim_user_to_model self su b) as [[u|e|] b']; [|done..].
  by destruct (map_err from (on_db (store_user u)) b') as [[[]|e|] b''].
Qed.

Lemma run_admit_group_then {B} sg (k : Group → M backend ServiceError B)
    (kp : Group → prog backend ServiceError B) :
  (∀ g, run (kp g) ≡ k g) →
  run (let! group := db_p (admit_group_p self sg) in kp group) ≡
    (let? group := scim_group_to_model self sg in
     map_err from (on_db (store_group group)) ;;? k group).
Proof.
  intros Hk. rewrite run_bind. etrans.
  { apply bind_proper; [etrans; [apply run_db_p|apply run_admit_group]|exact Hk]. }
  intros b. unfold bind. destruct (scim_group_to_model self sg b) as [[g|e|] b']; [|done..].
  by destruct (map_err from (on_db (store_group g)) b') as [[[]|e|] b''].
Qed.

Lemma run_lookup_user_by_name name : run (lookup_user_by_name_p self name) ≡ lookup_user_by_name self name.
Proof.
  unfold lookup_user_by_name_p, lookup_user_by_name. case_bool_decide; [done|].
  rewrite run_ptry. apply try_with_proper; [apply run_tx| |intros e; apply run_tx_err].
  intros [su|]; [by apply run_admit_user_then|apply run_tx_err].
Qed.

Lemma run_lookup_user_by_uid uid : run (lookup_user_by_uid_p self uid) ≡ lookup_user_by_uid self uid.
Proof.
  unfold lookup_user_by_uid_p. rewrite run_bind.
  apply bind_proper; [apply run_tx_err|by intros [u|]].
Qed.

Lemma run_lookup_group_by_name name :
  run (lookup_group_by_name_p self name) ≡ lookup_group_by_name self name.
Proof.
  unfold lookup_group_by_name_p, lookup_group_by_name. case_bool_decide; [done|].
  rewrite run_ptry. apply try_with_proper; [apply run_tx| |intros e; apply run_tx_err].
  intros [sg|]; [by apply run_admit_group_then|apply run_tx_err].
Qed.

Lemma run_lookup_group_by_gid gid : run (lookup_group_by_gid_p self gid) ≡ lookup_group_by_gid self gid.
Proof.
  unfold lookup_group_by_gid_p. rewrite run_bind.
  apply bind_proper; [apply run_tx_err|by intros [u|]].
Qed.

Lemma run_check_user_active name : run (check_user_active_p self name) ≡ check_user_active self name.
Proof.
  unfold check_user_active_p, check_user_active. case_bool_decide; [done|].
  rewrite run_ptry. apply try_with_proper; [apply run_tx| |intros e].
  - intros [su|]; [by apply run_admit_user_then|done].
  - destruct (offline_auth_policy _); [|done]. rewrite run_bind.
    apply bind_proper; [apply run_tx_err|by intros [u|]].
Qed.

Lemma run_lookup_groups_for_user name :
  run (lookup_groups_for_user_p self name) ≡ lookup_groups_for_user self name.
Proof.
  unfold lookup_groups_for_user_p, lookup_groups_for_user. case_bool_decide; [done|].
  rewrite run_ptry. apply try_with_proper; [apply run_tx| |intros e].
  - intros [su|]; [|done]. apply run_admit_user_then. intros _. rewrite run_collect.
    induction (su_groups su) as [|g gs IH]; [done|]. simpl. apply bind_proper.
    + rewrite run_pmap_err, run_db_p. apply map_err_proper, zoom_proper, run_resolve_gid.
    + intros gid. by apply bind_proper.
  - rewrite run_bind. apply bind_proper; [apply run_tx_err|done].
Qed.

Lemma run_ignored {S E E' A} (p : prog S E A) (m : M S E A) :
  run p ≡ m →
  run (ptry p (λ _, Done (Ok tt)) (λ _, Done (Ok tt))) ≡@{M S E' ()}
    try_with m (λ _, ret tt) (λ _, ret tt).
Proof. intros Hp. rewrite run_ptry. apply try_with_proper; [done|by intros ?..]. Qed.

Lemma run_convert_users {E} sus : run (convert_users_p (E:=E) self sus) ≡ convert_users self sus.
Proof.
  induction sus as [|su sus IH]; [done|]. cbn [convert_users_p convert_users]. rewrite run_ptry.
  apply try_with_proper; [rewrite run_db_p; apply run_scim_user_to_model| |by intros _].
  intros user. rewrite run_bind. apply bind_proper; [apply run_ignored, run_tx|intros _].
  rewrite run_bind. by apply bind_proper.
Qed.

Lemma run_convert_groups {E} sgs : run (convert_groups_p (E:=E) self sgs) ≡ convert_groups self sgs.
Proof.
  induction sgs as [|sg sgs IH]; [done|]. cbn [convert_groups_p convert_groups]. rewrite run_ptry.
  apply try_with_proper; [rewrite run_db_p; apply run_scim_group_to_model| |by intros _].
  intros group. rewrite run_bind. apply bind_proper.
  - apply run_ignored. rewrite run_db_p. apply zoom_proper, run_store_group.
  - intros _. rewrite run_bind. by apply bind_proper.
Qed.
End programs.

(** ** The NSS module *)

Lemma run_zoomed {S T E A} (get : S → T) (set : T → S → S) `{!Lens get set}
    (p : prog T E A) (m : M T E A) :
  run p ≡ m → run (pzoom get set p) ≡ zoom get set m.
Proof. intros Hp. by rewrite run_pzoom, Hp. Qed.

Section nss_alone.
Context `{World} `{JsonParser} `{PercentEncoding} `{Sqlite} `{BuildProfile} `{Murmur3}.
Context `{Os} `{TomlParser} `{Env} `{SqliteFile}.

Lemma run_open path ttl : run (open_p path ttl) ≡ open path ttl.
Proof.
  unfold open_p, open. rewrite run_bind. apply bind_proper; [apply run_tx|intros _].
  rewrite run_bind. apply bind_proper; [apply run_tx|intros _].
  rewrite run_bind. apply bind_proper; [apply run_tx|intros _].
  rewrite run_bind. apply bind_proper; [apply run_tx|by intros _].
Qed.

Lemma run_init_state {E} : run (init_state_p (E:=E)) ≡ init_state.
Proof.
  unfold init_state_p, init_state. rewrite run_ptry.
  apply try_with_proper; [apply run_tx|intros config|by intros _]. rewrite run_ptry.
  apply try_with_proper; [apply run_zoomed, run_open; apply _|intros cache|by intros _].
  rewrite run_bind. apply bind_proper; [|by intros svc].
  apply run_zoomed; [apply _|]. apply run_zoomed, run_Service_new. apply _.
Qed.

(** A call that fills what the caller passed, as a computation of the module. *)
Definition called {C} (m : M (call C) undefined_behaviour NssStatus) (cl : C)
    : M nss undefined_behaviour (NssStatus * C) := λ w,
  match m (mk_call w cl) with
  | (Ok s, c) => (Ok (s, call_args c), call_nss c)
  | (Err e, c) => (Err e, call_nss c)
  | (Panic, c) => (Panic, call_nss c)
  end.

Lemma trun_get_state {A} (k : option NssState → thread module_lock nss undefined_behaviour A) w :
  trun (get_state_t k) w = bind get_state (λ st, trun (k st)) w.
Proof.
  unfold get_state_t. rewrite trun_get_or_init. unfold bind at 1, get_state.
  destruct (nss_state w) as [st|]; [done|]. rewrite (run_init_state w). unfold bind.
  by destruct (init_state w) as [[st|e|] w'].
Qed.

Lemma trun_with_mutex {E A B} l (poisoned : thread module_lock nss undefined_behaviour B)
    (p : prog nss E A) k w :
  trun (with_mutex l poisoned p k) w =
    if nss_poisoned w l then trun poisoned w else trun (k (run p w).1) (run p w).2.
Proof.
  unfold with_mutex. simpl. destruct (nss_poisoned w l); [done|]. simpl. by rewrite trun_tlift.
Qed.

Section lookups.
Context {C : Type} (set_errno_0 : M C undefined_behaviour ()).
Hypothesis set_errno_ok : ∀ cl, (set_errno_0 cl).1 = Ok tt.

Lemma called_return s cl : trun (return_t set_errno_0 cl s) ≡ called (return_ set_errno_0 s) cl.
Proof.
  intros w. unfold called, return_, bind, on_args, zoom. cbn [call_args].
  pose proof (set_errno_ok cl) as Hok. simpl. by destruct (set_errno_0 cl) as [r cl']; simpl in *; subst.
Qed.

(** The prologue of the lookups, whatever they then do with the state. *)
Lemma called_with_service {E A} (p : NssState → prog nss E A)
    (k : outcome E A → thread module_lock nss undefined_behaviour (NssStatus * C))
    (body : NssState → M (call C) undefined_behaviour NssStatus) cl :
  (∀ st w, trun (k (run (p st) w).1) (run (p st) w).2 = called (body st) cl w) →
  trun (get_state_t (λ st,
    match st with
    | None => return_t set_errno_0 cl Unavail
    | Some st => with_mutex ServiceLock (return_t set_errno_0 cl Unavail) (p st) k
    end)) ≡ called (with_service set_errno_0 body) cl.
Proof.
  intros Hk w. rewrite trun_get_state. unfold called, with_service, bind, on_nss, zoom.
  cbn [call_nss]. destruct (get_state w) as [[[st|]|e|] w1]; [| |done..].
  2: { exact (called_return Unavail cl w1). }
  rewrite trun_with_mutex. cbn. destruct (nss_poisoned w1 ServiceLock); cbn.
  - exact (called_return Unavail cl w1).
  - apply Hk.
Qed.

Lemma called_lookup {A} (lookup : Service → M backend ServiceError (option A)) lookup_p
    (fill : A → M C undefined_behaviour NssStatus) cl :
  (∀ svc, run (lookup_p svc) ≡ lookup svc) →
  trun (lookup_t set_errno_0 cl lookup_p fill) ≡
    called (with_service set_errno_0 (λ st, answer set_errno_0 (lookup (ns_service st)) fill)) cl.
Proof.
  intros Hp. apply called_with_service. intros st w. unfold called, answer, try_with.
  unfold on_nss at 1, zoom at 1. cbn [call_nss].
  unfold backend_p. rewrite (run_zoomed _ _ _ _ (Hp (ns_service st)) w). unfold on_backend.
  destruct (zoom _ _ _ w) as [[[x|]|e|] w1]; cbn [fst snd]; [| | |done].
  - unfold fill_t, on_args, zoom. cbn. by destruct (fill x cl) as [[s|e|] cl'].
  - exact (called_return NotFound cl w1).
  - exact (called_return Unavail cl w1).
Qed.
End lookups.

Lemma trun_getpwnam name buflen cl :
  trun (getpwnam_t name buflen cl) ≡ called (nss_oidc_getpwnam_r name buflen) cl.
Proof.
  unfold getpwnam_t, nss_oidc_getpwnam_r, passwd_by_name. destruct (negb _).
  - by apply called_return.
  - apply (called_lookup (set_errno 0) (λ _, eq_refl) (λ svc, lookup_user_by_name svc name)).
    intros svc. apply run_lookup_user_by_name.
Qed.
Lemma trun_getpwuid uid buflen cl :
  trun (getpwuid_t uid buflen cl) ≡ called (nss_oidc_getpwuid_r uid buflen) cl.
Proof.
  apply (called_lookup (set_errno 0) (λ _, eq_refl) (λ svc, lookup_user_by_uid svc uid)).
  intros svc. apply run_lookup_user_by_uid.
Qed.
Lemma trun_getgrnam name buflen cl :
  trun (getgrnam_t name buflen cl) ≡ called (nss_oidc_getgrnam_r name buflen) cl.
Proof.
  unfold getgrnam_t, nss_oidc_getgrnam_r, group_by_name. destruct (negb _).
  - by apply called_return.
  - apply (called_lookup (set_errno 0) (λ _, eq_refl) (λ svc, lookup_group_by_name svc name)).
    intros svc. apply run_lookup_group_by_name.
Qed.
Lemma trun_getgrgid gid buflen cl :
  trun (getgrgid_t gid buflen cl) ≡ called (nss_oidc_getgrgid_r gid buflen) cl.
Proof.
  apply (called_lookup (set_errno 0) (λ _, eq_refl) (λ svc, lookup_group_by_gid svc gid)).
  intros svc. apply run_lookup_group_by_gid.
Qed.

Lemma trun_initgroups user group a :
  trun (initgroups_t user group a) ≡ called (nss_oidc_initgroups_dyn user group) a.
Proof.
  unfold initgroups_t, nss_oidc_initgroups_dyn. destruct (negb _); [by apply called_return|].
  apply called_with_service; [done|]. intros st w. unfold called, try_with.
  unfold on_nss at 1, zoom at 1. cbn [call_nss]. unfold backend_p.
  rewrite (run_zoomed _ _ _ _ (run_lookup_groups_for_user (ns_service st) user) w). unfold on_backend.
  destruct (zoom _ _ _ w) as [[gids|e|] w1]; cbn [fst snd]; [| |done].
  - unfold fill_t, on_args, zoom. cbn [call_args set_nss].
    by destruct (bind get_array _ a) as [[s|e|] a'].
  - by apply (called_return (ga_set_errno 0) (λ _, eq_refl) Unavail a w1).
Qed.

(** [setpwent] and [setgrent]. *)
Lemma trun_setent {R A} (listing_p : ScimClient → prog net ScimError (list R)) listing
    (convert_p : Service → list R → prog backend undefined_behaviour (list A))
    (convert : Service → list R → M backend undefined_behaviour (list A)) l
    (set : option (list A * nat) → nss → nss) :
  (∀ c, run (listing_p c) ≡ listing c) →
  (∀ svc found, run (convert_p svc found) ≡ convert svc found) →
  trun (setent_t listing_p convert_p l set) ≡
    (let? st := get_state in
     match st with
     | None => ret Unavail
     | Some st =>
         try_with (on_backend (on_net (listing (ns_scim st))))
           (λ found,
             let? locked := lock ServiceLock in
             if negb locked then ret Unavail
             else
               let? entries := on_backend (convert (ns_service st) found) in
               let? enum_state := lock l in
               (if enum_state then λ w, (Ok tt, set (Some (entries, 0)) w) else ret tt) ;;?
               ret Success)
           (λ _, ret Unavail)
     end).
Proof.
  intros Hl Hc w. unfold setent_t. rewrite trun_get_state. apply bind_proper; [done|]. clear w.
  intros [st|] w; [|done]. unfold ttry, backend_p, net_p. rewrite trun_tlift. unfold try_with.
  rewrite (run_zoomed _ _ _ _ (run_zoomed _ _ _ _ (Hl (ns_scim st))) w).
  unfold on_backend at 1, on_net at 1. destruct (zoom _ _ _ w) as [[found|e|] w1]; cbn [fst snd];
    [|done..].
  rewrite trun_with_mutex. unfold bind at 1, lock at 1. destruct (nss_poisoned w1 ServiceLock); cbn [negb];
    [done|].
  rewrite (run_zoomed _ _ _ _ (Hc (ns_service st) found) w1). unfold bind at 1, on_backend.
  destruct (zoom _ _ _ w1) as [[entries|e|] w2]; cbn [fst snd]; [|done..].
  rewrite trun_with_mutex. unfold bind, lock. by destruct (nss_poisoned w2 l).
Qed.

Lemma trun_setpwent : trun setpwent_t ≡ nss_oidc_setpwent.
Proof.
  apply (trun_setent _ (λ c, list_users c) _ (λ svc sus, convert_users svc sus)).
  - intros c. apply run_paginate.
  - intros svc found. apply run_convert_users.
Qed.
Lemma trun_setgrent : trun setgrent_t ≡ nss_oidc_setgrent.
Proof.
  apply (trun_setent _ (λ c, list_groups c) _ (λ svc sgs, convert_groups svc sgs)).
  - intros c. apply run_paginate.
  - intros svc found. apply run_convert_groups.
Qed.
End nss_alone.

Section enumeration_alone.

(** [getpwent_r] and [getgrent_r]: the index is the one that was read, because
    nobody else writes the static. *)
Lemma trun_getent {A R} l (get : nss → option (list A * nat)) set
    (fill : A → M (caller R) undefined_behaviour NssStatus) cl :
  trun (getent_t l get set fill cl) ≡ called (getent_r l get set fill) cl.
Proof.
  intros w. unfold getent_t, getent_r. rewrite trun_with_mutex.
  unfold called, bind at 1, lock, on_nss at 1, zoom. cbn [call_nss set_nss].
  destruct (nss_poisoned w l); cbn [negb]; [done|].
  unfold bind at 1, on_nss at 1, zoom. cbn [call_nss set_nss]. simpl.
  destruct (get w) as [[entries idx]|] eqn:Hg; [|done].
  case_bool_decide; [done|]. destruct (entries !! idx) as [x|]; [|done].
  unfold bind at 1, on_args, zoom. cbn [call_args call_nss set_nss].
  destruct (fill x cl) as [[s|e|] cl']; [|done..]. simpl. case_bool_decide; [|done].
  simpl. by rewrite Hg.
Qed.

Lemma trun_endpwent : trun endpwent_t ≡ nss_oidc_endpwent.
Proof.
  intros w. unfold endpwent_t. rewrite trun_with_mutex. unfold nss_oidc_endpwent, bind, lock.
  by destruct (nss_poisoned w UserEnumLock).
Qed.
Lemma trun_endgrent : trun endgrent_t ≡ nss_oidc_endgrent.
Proof.
  intros w. unfold endgrent_t. rewrite trun_with_mutex. unfold nss_oidc_endgrent, bind, lock.
  by destruct (nss_poisoned w GroupEnumLock).
Qed.
Lemma trun_getpwent buflen cl : trun (getpwent_t buflen cl) ≡ called (nss_oidc_getpwent_r buflen) cl.
Proof. apply trun_getent. Qed.
Lemma trun_getgrent buflen cl : trun (getgrent_t buflen cl) ≡ called (nss_oidc_getgrent_r buflen) cl.
Proof. apply trun_getent. Qed.
End enumeration_alone.

(** ** The PAM module *)

Section pam_alone.
Context `{World} `{JsonParser} `{PercentEncoding} `{Sqlite} `{BuildProfile} `{Murmur3}.
Context `{Os} `{TomlParser} `{Env} `{SqliteFile} `{Jsonwebtoken} `{PamHandle}.

Lemma run_local_u64_add {S E} a b : run (local (u64_add (S:=()) a b)) ≡ u64_add (S:=S) (E:=E) a b.
Proof. apply run_local_narrow. Qed.

Lemma run_poll_loop self fuel device_code deadline interval :
  run (poll_loop_p self fuel device_code deadline interval) ≡
    poll_loop self fuel device_code deadline interval.
Proof.
  revert interval. induction fuel as [|fuel IH]; intros interval; [done|].
  cbn [poll_loop_p poll_loop]. rewrite run_bind. apply bind_proper; [by intros log|intros _].
  rewrite run_bind. apply bind_proper; [apply run_tx|intros t]. case_bool_decide; [done|].
  rewrite run_ptry. apply try_with_proper; [apply run_tx|done|].
  intros e. destruct e; try done. rewrite run_bind.
  apply bind_proper; [apply run_local_u64_add|intros i]. apply IH.
Qed.

Lemma run_device_flow self scope display_fn :
  run (authenticate_device_flow_p self scope display_fn) ≡
    authenticate_device_flow self scope display_fn.
Proof.
  unfold authenticate_device_flow_p, authenticate_device_flow.
  rewrite run_bind. apply bind_proper; [apply run_tx|intros da].
  rewrite run_bind. apply bind_proper; [apply run_tx|intros _].
  rewrite run_bind. apply bind_proper; [apply run_tx|intros start].
  rewrite run_bind. apply bind_proper.
  { intros s. unfold local, instant_add_secs. by case_match. }
  intros deadline. rewrite run_bind. apply bind_proper; [apply run_poll_loop|by intros [t|]].
Qed.

Lemma run_init_service {E} : run (init_service_p (E:=E)) ≡ init_service.
Proof.
  unfold init_service_p, init_service. rewrite run_ptry.
  apply try_with_proper; [apply run_tx|intros config|by intros _]. rewrite run_ptry.
  apply try_with_proper; [apply run_zoomed, run_open; apply _|intros cache|by intros _].
  rewrite run_bind. apply bind_proper; [|by intros svc].
  apply run_zoomed; [apply _|]. apply run_zoomed, run_Service_new. apply _.
Qed.

Lemma run_init_oidc_client {E} : run (init_oidc_client_p (E:=E)) ≡ init_oidc_client.
Proof.
  unfold init_oidc_client_p, init_oidc_client. rewrite run_ptry.
  apply try_with_proper; [apply run_tx|intros config|by intros _]. rewrite run_ptry.
  apply try_with_proper; [apply run_tx|by intros c|by intros _].
Qed.

Lemma trun_get_service {A} (k : option Service → thread module_lock pam Empty_set A) :
  trun (get_service_t k) ≡ bind get_service (λ s, trun (k s)).
Proof.
  intros w. unfold get_service_t. rewrite trun_get_or_init. unfold bind at 1, get_service.
  destruct (pam_service w) as [s|]; [done|]. rewrite (run_init_service w). unfold bind.
  by destruct (init_service w) as [[s|e|] w'].
Qed.
Lemma trun_get_oidc_client {A} (k : option OidcClient → thread module_lock pam Empty_set A) :
  trun (get_oidc_client_t k) ≡ bind get_oidc_client (λ c, trun (k c)).
Proof.
  intros w. unfold get_oidc_client_t. rewrite trun_get_or_init. unfold bind at 1, get_oidc_client.
  destruct (pam_client w) as [c|]; [done|]. rewrite (run_init_oidc_client w). unfold bind.
  by destruct (init_oidc_client w) as [[c|e|] w'].
Qed.

Lemma trun_ttry {L S E E' A B} (p : prog S E A) (ok : A → thread L S E' B) err (m : M S E A) :
  run p ≡ m →
  trun (ttry p ok err) ≡ try_with m (λ a, trun (ok a)) (λ e, trun (err e)).
Proof.
  intros Hp s. unfold ttry. rewrite trun_tlift, (Hp s). unfold try_with.
  by destruct (m s) as [[a|e|] s'].
Qed.

Lemma trun_locked_ok {L S E E' A B} (l : L) (p : prog S E A) (k : outcome E A → thread L S E' B)
    (m : M S E A) ok err :
  run p ≡ m → k Panic = Return Panic →
  (∀ a, trun (k (Ok a)) ≡ ok a) → (∀ e, trun (k (Err e)) ≡ err e) →
  trun (locked l p k) ≡ try_with m ok err.
Proof.
  intros Hp Hpan Hok Herr s. rewrite trun_locked, (Hp s). unfold try_with.
  destruct (m s) as [[a|e|] s']; cbn [fst snd]; [apply Hok|apply Herr|]. by rewrite Hpan.
Qed.

Lemma trun_verify_subject username sub : trun (verify_subject_t username sub) ≡ verify_subject username sub.
Proof.
  unfold verify_subject_t, verify_subject. case_bool_decide; [done|]. rewrite trun_get_service.
  apply bind_proper; [done|]. intros [svc|]; [|done]. apply trun_locked_ok; [|done| |done].
  - apply run_zoomed, run_lookup_user_by_name. apply _.
  - intros [u|]; [by case_bool_decide|done].
Qed.

Lemma trun_authenticate : trun authenticate_t ≡ pam_sm_authenticate.
Proof.
  unfold authenticate_t, pam_sm_authenticate, authenticate_impl.
  rewrite (trun_ttry _ _ _ _ (run_tx _)). apply try_with_proper; [done| |done].
  intros username. rewrite trun_get_oidc_client. apply bind_proper; [done|]. intros [client|]; [|done].
  unfold pam_net_p. rewrite (trun_ttry _ _ _ _ (run_zoomed pam_net pam_set_net _ _ (run_device_flow client "openid" display))).
  apply try_with_proper; [done| |done]. intros token. destruct (tr_id_token token) as [raw|]; [|done].
  rewrite (trun_ttry _ _ _ _ (run_tx _)). apply try_with_proper; [done| |done].
  intros claims. apply trun_verify_subject.
Qed.

Lemma trun_chauthtok : trun chauthtok_t ≡ pam_sm_chauthtok.
Proof.
  unfold chauthtok_t, pam_sm_chauthtok, chauthtok_impl. rewrite trun_get_oidc_client.
  apply bind_proper; [done|]. intros [client|]; [|done]. intros w.
  rewrite (trun_ttry _ _ _ _ (run_tx _) w). unfold try_with, bind, pam_on_net, zoom, pam_info.
  by repeat case_match.
Qed.

Lemma trun_acct_mgmt : trun acct_mgmt_t ≡ pam_sm_acct_mgmt.
Proof.
  unfold acct_mgmt_t, pam_sm_acct_mgmt, acct_mgmt_impl.
  rewrite (trun_ttry _ _ _ _ (run_tx _)). apply try_with_proper; [done| |done].
  intros username. rewrite trun_get_service. apply bind_proper; [done|]. intros [svc|]; [|done].
  apply trun_locked_ok; [|done..].
  apply run_zoomed, run_check_user_active. apply _.
Qed.

(** Each call of the two modules, split into the steps between which other
    threads and processes can act, is with nobody else about the call as one
    computation: the same answer or panic, the same memory of the caller, the
    same module and world afterwards. *)
Lemma threads_alone_are_the_calls name uid gid buflen pw gr a :
  (trun (getpwnam_t name buflen pw) ≡ called (nss_oidc_getpwnam_r name buflen) pw ∧
   trun (getpwuid_t uid buflen pw) ≡ called (nss_oidc_getpwuid_r uid buflen) pw ∧
   trun (getgrnam_t name buflen gr) ≡ called (nss_oidc_getgrnam_r name buflen) gr ∧
   trun (getgrgid_t gid buflen gr) ≡ called (nss_oidc_getgrgid_r gid buflen) gr ∧
   trun (initgroups_t name gid a) ≡ called (nss_oidc_initgroups_dyn name gid) a ∧
   trun setpwent_t ≡ nss_oidc_setpwent ∧
   trun (getpwent_t buflen pw) ≡ called (nss_oidc_getpwent_r buflen) pw ∧
   trun endpwent_t ≡ nss_oidc_endpwent ∧
   trun setgrent_t ≡ nss_oidc_setgrent ∧
   trun (getgrent_t buflen gr) ≡ called (nss_oidc_getgrent_r buflen) gr ∧
   trun endgrent_t ≡ nss_oidc_endgrent) ∧
  trun authenticate_t ≡ pam_sm_authenticate ∧
  trun acct_mgmt_t ≡ pam_sm_acct_mgmt ∧
  trun chauthtok_t ≡ pam_sm_chauthtok.
Proof.
  split_and!; [apply trun_getpwnam|apply trun_getpwuid|apply trun_getgrnam|apply trun_getgrgid|
    apply trun_initgroups|apply trun_setpwent|apply trun_getpwent|apply trun_endpwent|
    apply trun_setgrent|apply trun_getgrent|apply trun_endgrent|apply trun_authenticate|
    apply trun_acct_mgmt|apply trun_chauthtok].
Qed.
End pam_alone.
