(* ===== verification/CallsSafe.v ===== *)
(** * CallsSafe: a call among the calls of others

    What every call of [Calls] does whatever the other threads of its process and
    the other processes of its host do between its steps, as long as they keep
    what the locks protect: it keeps the cache and the statics sound, does not
    panic, and leaves its caller's memory as the call alone does. *)

From S2P Require Import Prelude Text Model Value Mapping Fs Http Sql Cache CacheFacts Scim ScimProps.
From S2P Require Import Config Service ServiceFacts Interleave InterleaveFacts InterleaveProps.
From S2P Require Import Threads ThreadsFacts Buffer Passwd GroupPack Nss NssProps NssLife.
From S2P Require Import PamProps Calls.
From stdpp Require Import prelude strings list gmap.

(** ** The network: the log of the host only grows *)

Definition grows (log log' : net) : Prop := log `prefix_of` log'.

#[export] Instance grows_rely : Rely grows (λ _, True).
Proof. split; [apply _|apply _|done]. Qed.

Lemma emits_grows {E A} P (m : M net E A) log : emits P m → grows log (m log).2.
Proof. intros Hm. destruct (Hm log) as (new & -> & _). by exists new. Qed.

Lemma keeps_request {E A} P (m : M net E A) :
  emits P m → (∀ log, (m log).1 ≠ Panic) → keeps grows (λ _, True) (tx m).
Proof. intros Hm Hp. apply keeps_tx; [|done]. intros log _. by eapply emits_grows. Qed.

Section network.
Context `{World} `{JsonParser} `{PercentEncoding} `{BuildProfile}.

Lemma fetch_page_grows c {T} (dec : decoder T) resource i log :
  grows log (fetch_page c dec resource i log).2.
Proof. rewrite fetch_page_log. by eexists. Qed.

(** The start index stays within the total, whenever the pages are fetched. *)
Lemma keeps_paginate c {T} (dec : decoder T) resource pages i (all : list T) :
  i = (1 + Z.of_nat (length all))%Z → keeps grows (λ _, True) (paginate_p c dec resource pages i all).
Proof.
  revert i all. induction pages as [|pages IH]; intros i all Hi; [by apply returns_done|].
  cbn [paginate_p]. eapply (returns_pbind (λ resp, is_u64 (lr_total_results resp))).
  { apply returns_tx. intros log _. split; [apply fetch_page_grows|].
    pose proof (fetch_page_cases c dec resource i log) as Hf.
    by destruct (fetch_page c dec resource i log).1. }
  intros resp Ht. destruct (bool_decide (_ ≤ _)%Z) eqn:Hle; [by apply returns_done|].
  destruct (bool_decide (_ = 0)) eqn:Hz; [by apply returns_done|]. cbn [orb].
  apply bool_decide_eq_false in Hle. rewrite length_app in Hle. unfold is_u64 in Ht.
  rewrite (local_ok _ (i + Z.of_nat (length (lr_resources resp)))%Z)
    by (apply u64_add_exact; unfold is_u64; lia).
  apply IH. rewrite length_app. lia.
Qed.
End network.

(** ** The service *)

(** The database keeps its schema and the log grows. *)
Definition bk_step `{Sqlite} (b b' : backend) : Prop :=
  wf_step (bk_db b) (bk_db b') ∧ grows (bk_net b) (bk_net b').

#[export] Instance bk_step_rely `{Sqlite} : Rely bk_step backend_wf.
Proof.
  split.
  - intros b. by split.
  - intros b1 b2 b3 [Hd12 Hn12] [Hd23 Hn23]. split; by etrans.
  - intros b b' [Hd _]. apply Hd.
Qed.

Section service.
Context `{World} `{JsonParser} `{PercentEncoding} `{SqliteLaws} `{BuildProfile} `{Murmur3Laws}.
Variable self : Service.
Hypothesis Hranges : usable_ranges (svc_config self).

Lemma keeps_db_p {E A} (p : prog db E A) : shared p → keeps bk_step backend_wf (db_p p).
Proof.
  apply returns_pzoom; [apply _|done|by intros b b' [? _]| |done]. intros b d Hd. by split.
Qed.
Lemma keeps_net_p {E A} (p : prog net E A) :
  keeps grows (λ _, True) p → keeps bk_step backend_wf (net_p p).
Proof.
  apply returns_pzoom; [apply _|done|by intros b b' [_ ?]| |done]. intros b d Hd. by split.
Qed.
Lemma keeps_on_db {E A} (m : M db E A) : safe db_wf m → keeps bk_step backend_wf (tx (on_db m)).
Proof. intros Hm. apply (keeps_db_p (tx m)). by apply shared_tx. Qed.
Lemma keeps_on_net {E A} P (m : M net E A) :
  emits P m → (∀ log, (m log).1 ≠ Panic) → keeps bk_step backend_wf (tx (on_net m)).
Proof. intros Hm Hp. apply (keeps_net_p (tx m)). by eapply keeps_request. Qed.

Lemma keeps_ask_user name :
  keeps bk_step backend_wf (tx (on_net (Scim.get_user_by_name (svc_scim self) name))).
Proof. eapply keeps_on_net; [apply emits_get_user_by_name|apply scim_lookup_no_panic]. Qed.
Lemma keeps_ask_group name :
  keeps bk_step backend_wf (tx (on_net (Scim.get_group_by_name (svc_scim self) name))).
Proof. eapply keeps_on_net; [apply emits_get_group_by_name|apply scim_group_lookup_no_panic]. Qed.
Lemma keeps_admit_user su : keeps bk_step backend_wf (db_p (admit_user_p self su)).
Proof. by apply keeps_db_p, shared_admit_user. Qed.
Lemma keeps_admit_group sg : keeps bk_step backend_wf (db_p (admit_group_p self sg)).
Proof. by apply keeps_db_p, shared_admit_group. Qed.
Lemma keeps_resolve_gid ext : keeps bk_step backend_wf (db_p (resolve_gid_p ext
  (gid_range_min (cfg_mapping (svc_config self))) (gid_range_size (cfg_mapping (svc_config self))))).
Proof. by apply keeps_db_p, shared_resolve_gid. Qed.
Lemma keeps_user_to_model su : keeps bk_step backend_wf (db_p (scim_user_to_model_p self su)).
Proof. by apply keeps_db_p, shared_scim_user_to_model. Qed.
Lemma keeps_group_to_model sg : keeps bk_step backend_wf (db_p (scim_group_to_model_p self sg)).
Proof. by apply keeps_db_p, shared_scim_group_to_model. Qed.
Lemma keeps_store_group group : keeps bk_step backend_wf (db_p (store_group_p group)).
Proof. by apply keeps_db_p, shared_store_group. Qed.
#[local] Hint Resolve keeps_ask_user keeps_ask_group keeps_admit_user keeps_admit_group
  keeps_resolve_gid keeps_user_to_model keeps_group_to_model keeps_store_group : rust_keeps.
#[local] Hint Extern 2 (returns _ _ _ (tx (on_db _))) =>
  apply keeps_on_db; solve [eauto with rust_safe] : rust_keeps.

Lemma keeps_lookup_user_by_name name : keeps bk_step backend_wf (lookup_user_by_name_p self name).
Proof. unfold lookup_user_by_name_p. eauto 25 with rust_keeps. Qed.
Lemma keeps_lookup_user_by_uid uid : keeps bk_step backend_wf (lookup_user_by_uid_p self uid).
Proof. unfold lookup_user_by_uid_p. eauto 25 with rust_keeps. Qed.
Lemma keeps_lookup_group_by_name name : keeps bk_step backend_wf (lookup_group_by_name_p self name).
Proof. unfold lookup_group_by_name_p. eauto 25 with rust_keeps. Qed.
Lemma keeps_lookup_group_by_gid gid : keeps bk_step backend_wf (lookup_group_by_gid_p self gid).
Proof. unfold lookup_group_by_gid_p. eauto 25 with rust_keeps. Qed.
Lemma keeps_check_user_active name : keeps bk_step backend_wf (check_user_active_p self name).
Proof. unfold check_user_active_p. eauto 25 with rust_keeps. Qed.
Lemma keeps_lookup_groups_for_user name :
  keeps bk_step backend_wf (lookup_groups_for_user_p self name).
Proof. unfold lookup_groups_for_user_p. eauto 25 with rust_keeps. Qed.

Lemma keeps_convert_users {E} sus : keeps bk_step backend_wf (convert_users_p (E:=E) self sus).
Proof.
  induction sus as [|su sus IH]; [by apply returns_done|]. cbn [convert_users_p].
  eauto 25 with rust_keeps.
Qed.
Lemma keeps_convert_groups {E} sgs : keeps bk_step backend_wf (convert_groups_p (E:=E) self sgs).
Proof.
  induction sgs as [|sg sgs IH]; [by apply returns_done|]. cbn [convert_groups_p].
  eauto 25 with rust_keeps.
Qed.
End service.

(** ** The configuration of the machine *)

(** Its ranges are usable, and the cache is a file: a database named [":memory:"]
    would be its connection's own, not one that the processes share. *)
Definition machine_config (config : Config) : Prop :=
  usable_ranges config ∧ cfg_db_path (cfg_cache config) ≠ ":memory:".

Definition machine_files `{TomlParser} `{Env} : filesystem → Prop := configured machine_config.

(** Opening a database creates files and changes none that is there. *)
Class SqliteFileAdds `{SqliteFile} : Prop :=
  connection_adds : ∀ path fs p i, fs !! p = Some i → (connection_open path fs).2 !! p = Some i.

Section machine_files.
Context `{Os} `{TomlParser} `{Env} `{SqliteFile} `{!SqliteFileAdds}.

Lemma load_machine_config fs config :
  machine_files fs → (load fs).1 = Ok config → machine_config config.
Proof. by apply load_configured. Qed.

Lemma machine_files_same fs fs' :
  config_text fs' = config_text fs → machine_files fs → machine_files fs'.
Proof. intros Hc Hfs text config. rewrite Hc. apply Hfs. Qed.

Lemma open_keeps_config path fs :
  is_Some (config_text fs) → config_text (connection_open path fs).2 = config_text fs.
Proof.
  intros [text (i & Hi & Ht)%bind_Some]. unfold config_text. by rewrite (connection_adds path fs _ i Hi), Hi.
Qed.

(** Tightening the permissions of a file keeps what is in it. *)
Lemma harden_keeps_config path fs : config_text (harden_cache_file path fs).2 = config_text fs.
Proof.
  unfold harden_cache_file, symlink_metadata, set_permissions, with_inode, bind, map_err, ret, throw.
  destruct (os_fault OpStat path); [done|]. destruct (fs !! path) as [i|] eqn:Hi; [|done]. cbn.
  destruct (negb _); [done|]. case_bool_decide; [done|]. case_bool_decide; [|done].
  destruct (os_fault OpChmod path); [done|]. rewrite Hi. cbn. unfold config_text.
  destruct (decide (config_path = path)) as [->|Hne]; [by rewrite lookup_insert_eq, Hi|].
  by rewrite lookup_insert_ne.
Qed.
End machine_files.

(** ** The NSS module *)

Section rg_facts.
Context {S E A : Type} (R G : S → S → Prop).

(** What nobody's steps change stays true. *)
Lemma rg_invariant (J : S → Prop) (Q : outcome E A → S → Prop) p s :
  (∀ s s', R s s' → J s → J s') → (∀ s s', G s s' → J s → J s') → J s →
  rg R G Q p s → rg R G (λ r s', Q r s' ∧ J s') p s.
Proof.
  intros HR HG Hs Hp. revert s Hs Hp. induction p as [r|F X t k IH]; simpl; intros s Hs Hp.
  - intros s' Hs'. eauto.
  - intros s' Hs'. destruct (Hp s' Hs') as [Hg Hk]. eauto.
Qed.
End rg_facts.

(** The statics of a module are as its code leaves them. *)
Record statics_ok (w : nss) : Prop := {
  ok_state : ∀ st, nss_state w = Some (Some st) → usable_ranges (svc_config (ns_service st));
  ok_users : enum_ok (nss_users w);
  ok_groups : enum_ok (nss_groups w);
  ok_locks : ∀ l, nss_poisoned w l = false;
}.

Definition nss_sound `{Sqlite} `{TomlParser} `{Env} (w : nss) : Prop :=
  (db_wf (nss_db w) ∧ machine_files (nss_fs w)) ∧ statics_ok w.

(** A step that leaves alone the text of the configuration and what the locks in
    [kept] protect. Once it is initialised, the state of the module is for good. *)
Record nss_moves `{Sqlite} `{Env} (kept : module_lock → Prop) (w w' : nss) : Prop := {
  moves_db : wf_step (nss_db w) (nss_db w');
  moves_net : grows (nss_net w) (nss_net w');
  moves_config : config_text (nss_fs w') = config_text (nss_fs w);
  moves_statics : statics_ok w → statics_ok w';
  moves_once : ∀ st, nss_state w = Some st → nss_state w' = Some st;
  moves_state : kept NssStateOnce → nss_state w' = nss_state w;
  moves_users : kept (NssMutex UserEnumLock) → nss_users w' = nss_users w;
  moves_groups : kept (NssMutex GroupEnumLock) → nss_groups w' = nss_groups w;
}.

(** A thread that holds [h] relies on the others for what [h] protects, and
    leaves alone what it does not hold the lock of. *)
Definition nss_rely `{Sqlite} `{Env} (h : option module_lock) : nss → nss → Prop := nss_moves (λ l, h = Some l).
Definition nss_guar `{Sqlite} `{Env} (h : option module_lock) : nss → nss → Prop := nss_moves (λ l, h ≠ Some l).

Abbreviation nss_safe := (tsafe nss_rely nss_guar).

Section nss_moves.
Context `{Sqlite} `{TomlParser} `{Env}.

#[export] Instance nss_moves_refl kept : Reflexive (nss_moves kept).
Proof. intros w. by split. Qed.
#[export] Instance nss_moves_trans kept : Transitive (nss_moves kept).
Proof.
  intros w1 w2 w3 [?? Hc1 Hs1 Ho1 Hs Hu Hg] [?? Hc2 Hs2 Ho2 Hs' Hu' Hg'].
  split; [by etrans|by etrans|congruence|auto|auto|..]; intros Hk; by rewrite ?Hs', ?Hs, ?Hu', ?Hu, ?Hg', ?Hg.
Qed.

Lemma nss_moves_mono (k1 k2 : module_lock → Prop) w w' :
  (∀ l, k2 l → k1 l) → nss_moves k1 w w' → nss_moves k2 w w'.
Proof. intros Hk []. split; auto. Qed.

Lemma nss_moves_sound kept w w' : nss_moves kept w w' → nss_sound w → nss_sound w'.
Proof. intros [] [[] ]. split; [split|]; eauto using machine_files_same. Qed.
End nss_moves.

#[export] Instance nss_rely_refl `{Sqlite} `{Env} h : Reflexive (nss_rely h) := nss_moves_refl _.
#[export] Instance nss_rely_trans `{Sqlite} `{Env} h : Transitive (nss_rely h) := nss_moves_trans _.

(** Every step of a program on files, network and database. *)
Definition nss_outside `{Sqlite} `{Env} : nss → nss → Prop := nss_moves (λ _, True).

Section nss_programs.
Context `{World} `{JsonParser} `{PercentEncoding} `{SqliteLaws} `{BuildProfile} `{Murmur3Laws}.
Context `{Os} `{TomlParser} `{Env} `{SqliteFile} `{!SqliteFileLaws} {Hadds : SqliteFileAdds}.

Lemma statics_ok_same (w w' : nss) :
  nss_state w' = nss_state w → same_statics w w' → statics_ok w → statics_ok w'.
Proof. intros Hs (Hu & Hg & Hl) []. split; by rewrite ?Hs, ?Hu, ?Hg, ?Hl. Qed.

Lemma rg_backend_p {E A} (V : A → Prop) h (p : prog backend E A) w :
  returns bk_step backend_wf V p → nss_sound w →
  rg (nss_rely h) nss_outside (λ r w', nss_sound w' ∧ fine V r) (backend_p p) w.
Proof.
  intros Hp. apply (rg_pzoom_returns _ _ _ _ nss_sound bk_step backend_wf V p).
  - by intros [].
  - intros w1 w2 []. by split.
  - intros w1 b [Hd Hn]. split; try done. by apply statics_ok_same.
  - by intros w1 [[? ?] ?].
  - apply nss_moves_sound.
  - apply nss_moves_sound.
  - done.
Qed.

(** The files and the database. *)
Definition st_step (s s' : storage) : Prop :=
  wf_step (st_db s) (st_db s') ∧ config_text (st_fs s') = config_text (st_fs s).
Definition st_ready (s : storage) : Prop := storage_wf s ∧ is_Some (config_text (st_fs s)).
#[export] Instance st_step_rely : Rely st_step st_ready.
Proof.
  split.
  - by intros s.
  - intros s1 s2 s3 [Hd12 Hc12] [Hd23 Hc23]. split; [by etrans|congruence].
  - intros s s' [Hd Hc] [Hs Ht]. split; [by apply Hd|by rewrite Hc].
Qed.

Lemma keeps_file {E A} (m : M filesystem E A) :
  (∀ fs, (m fs).1 ≠ Panic) →
  (∀ fs, is_Some (config_text fs) → config_text (m fs).2 = config_text fs) →
  keeps st_step st_ready (tx (zoom st_fs set_fs m)).
Proof.
  intros Hp Hc. apply keeps_tx; intros s Hs; unfold zoom; specialize (Hp (st_fs s));
    specialize (Hc (st_fs s) (proj2 Hs)); destruct (m (st_fs s)) as [r fs]; [by split|done].
Qed.
Lemma keeps_batch {E A} (m : M db E A) :
  safe db_wf m → keeps st_step st_ready (tx (zoom st_db set_db m)).
Proof.
  intros Hm. apply keeps_tx; intros s [Hs _]; unfold zoom; specialize (Hm (st_db s));
    destruct (m (st_db s)) as [r d]; [|by apply Hm]. split; [|done]. intros _. by apply Hm.
Qed.

(** The cache of a machine is opened in a file. *)
Lemma keeps_open path ttl : path ≠ ":memory:" → keeps st_step st_ready (open_p path ttl).
Proof.
  intros Hpath. apply keeps_pbind; [|intros _].
  { apply keeps_file; intros fs; unfold map_err; pose proof (connection_no_panic path fs);
      pose proof (open_keeps_config path fs); by destruct (connection_open path fs) as [[[]|e|] fs']. }
  apply keeps_pbind; [|intros _].
  { rewrite bool_decide_eq_true_2 by done. apply keeps_file; intros fs; [|by rewrite harden_keeps_config].
    pose proof (harden_cache_file_wp path fs) as Hh. unfold wp in Hh. by destruct (harden_cache_file path fs).1. }
  apply keeps_pbind; [|intros _; apply keeps_pbind; [|intros _; by apply returns_done]];
    by apply keeps_batch, safe_map_err, safe_execute.
Qed.

(** With a configuration that is there, which stays. *)
Definition nss_ready (w : nss) : Prop := nss_sound w ∧ is_Some (config_text (nss_fs w)).

Lemma nss_moves_ready kept w w' : nss_moves kept w w' → nss_ready w → nss_ready w'.
Proof.
  intros Hm [Hw Hc]. split; [by eapply nss_moves_sound|]. by rewrite (moves_config _ _ _ Hm).
Qed.

Lemma rg_storage_p {E A} (V : A → Prop) h (p : prog storage E A) w :
  returns st_step st_ready V p → nss_ready w →
  rg (nss_rely h) nss_outside (λ r w', nss_ready w' ∧ fine V r) (storage_p p) w.
Proof.
  intros Hp. apply (rg_pzoom_returns _ _ _ _ nss_ready st_step st_ready V p).
  - by intros [].
  - by intros w1 w2 [].
  - intros w1 s [Hd Hc]. split; try done. by apply statics_ok_same.
  - by intros w1 [[[]]].
  - apply nss_moves_ready.
  - apply nss_moves_ready.
  - done.
Qed.

Lemma returns_Service_new {E} config scim cache :
  returns wf_step db_wf (λ svc, svc_config svc = config) (Service_new_p (E:=E) config scim cache).
Proof.
  eapply returns_pbind; [|intros _ _; by apply returns_done].
  eapply keeps_ptry; [apply shared_purge|intros _; by apply returns_done..].
Qed.

Lemma infallible_Service_new {E} config scim cache :
  infallible (Service_new_p (E:=E) config scim cache).
Proof. apply infallible_pbind; [by apply infallible_ptry|done]. Qed.

Lemma infallible_convert_users {E} self sus : infallible (convert_users_p (E:=E) self sus).
Proof.
  induction sus as [|su sus IH]; [done|]. apply infallible_ptry; [intros u|done].
  apply infallible_pbind; [by apply infallible_ptry|intros _]. by apply infallible_pbind.
Qed.
Lemma infallible_convert_groups {E} self sgs : infallible (convert_groups_p (E:=E) self sgs).
Proof.
  induction sgs as [|sg sgs IH]; [done|]. apply infallible_ptry; [intros g|done].
  apply infallible_pbind; [by apply infallible_ptry|intros _]. by apply infallible_pbind.
Qed.

(** The configuration that [load] gives has usable ranges, and so has the state. *)
Definition state_usable (st : option NssState) : Prop :=
  ∀ st', st = Some st' → usable_ranges (svc_config (ns_service st')).

Lemma rg_load h w :
  nss_sound w →
  rg (nss_rely h) nss_outside
    (λ r w', nss_sound w' ∧ r ≠ Panic ∧ ∀ config, r = Ok config → machine_config config ∧ nss_ready w')
    (tx (on_storage (zoom st_fs set_fs load))) w.
Proof.
  intros Hw. apply rg_tx. intros w1 H01. assert (nss_sound w1) as Hw1 by by eapply nss_moves_sound.
  unfold wp. assert ((on_storage (zoom st_fs set_fs load) w1) = ((load (nss_fs w1)).1, w1)) as ->.
  { unfold on_storage, zoom. cbn [st_fs].
    destruct (load_cases (nss_fs w1)) as [[config ->]|[e ->]]; by destruct w1. }
  split; [done|]. intros w2 Hw12. assert (nss_sound w2) as Hw2 by by eapply nss_moves_sound.
  split_and!; [done|apply load_no_panic|]. intros config Hl. split.
  - eapply load_machine_config; [apply Hw1|done].
  - split; [done|]. rewrite (moves_config _ _ _ Hw12). by eapply load_reads.
Qed.

Lemma rg_init_state {E} h w :
  nss_sound w →
  rg (nss_rely h) nss_outside (λ r w', nss_sound w' ∧ ∃ st, r = Ok st ∧ state_usable st)
    (init_state_p (E:=E)) w.
Proof.
  intros Hw. assert (∀ w', nss_sound w' → rg (nss_rely h) nss_outside
    (λ r w', nss_sound w' ∧ ∃ st, r = Ok st ∧ state_usable st) (Done (Ok (E:=E) None)) w') as Hnone.
  { intros w' Hw' w'' Hs. split; [by eapply nss_moves_sound|]. by exists None. }
  unfold init_state_p. eapply rg_ptry; [apply _|by apply rg_load|..].
  2: { intros e w' [Hw' _]. by apply Hnone. }
  2: { by intros w' (_ & ? & _). }
  intros config w1 (_ & _ & Hc). destruct (Hc config eq_refl) as [[Hu Hfile] Hw1]. cbv zeta.
  eapply rg_ptry; [apply _|by apply rg_storage_p, Hw1; apply keeps_open|..].
  2: { intros e w' [[Hw' _] _]. by apply Hnone. }
  2: { by intros w' [_ ?]. }
  intros cache w2 [[Hw2 _] _]. eapply rg_pbind; [apply _|eapply rg_infallible, rg_backend_p, Hw2|..].
  - apply infallible_pzoom, infallible_pzoom, infallible_Service_new.
  - eapply returns_pzoom; [apply _|done|by intros b b' [? _]|intros b d Hd; by split|done|].
    apply returns_Service_new.
  - intros svc w3 [[Hw3 Hcfg] _] w4 H34. split; [by eapply nss_moves_sound|].
    eexists. split; [done|]. intros st' [= <-]. simpl in *. by rewrite Hcfg.
  - intros e w3 [_ He]. by destruct (He e).
  - by intros w3 [[_ ?] _].
Qed.

(** *** Its threads *)

Lemma guar_outside h w w' : nss_outside w w' → nss_guar h w w'.
Proof. by apply nss_moves_mono. Qed.

Lemma rg_guar {E A} h (Q : outcome E A → nss → Prop) p w :
  rg (nss_rely h) nss_outside Q p w → rg (nss_rely h) (nss_guar h) Q p w.
Proof. intros Hp. eapply rg_weaken; [exact Hp|done|apply guar_outside|done]. Qed.

Lemma nss_safe_get_state {A} Q (k : option NssState → thread module_lock nss undefined_behaviour A) w :
  nss_sound w →
  (∀ st w', nss_sound w' → state_usable st → nss_safe Q None (k st) w') →
  nss_safe Q None (get_state_t k) w.
Proof.
  intros Hw Hk. apply (tsafe_get_or_init state_usable nss_sound); [| | | | | |auto|done].
  - intros h w1 w2 Hw1 H12. by eapply nss_moves_sound.
  - intros h w1. apply nss_moves_refl.
  - intros w1 w2 Hn H12. by rewrite (moves_state _ _ _ H12).
  - intros w1 st [_ []] Hs st' ->. eauto.
  - intros w1 st [Hd Hs] Hn Hst. split.
    + split; try done; [|by rewrite Hn]. intros []. split; try done.
      intros st' [= ->]. by apply Hst.
    + split; [done|]. destruct Hs. split; try done. intros st' [= ->]. by apply Hst.
  - intros w1 Hw1 Hn. apply rg_guar. eapply rg_mono; [apply (rg_invariant _ _ (λ w, nss_state w = None))|].
    + intros w2 w3 H23 Hn2. rewrite (moves_state _ _ _ H23 eq_refl). exact Hn2.
    + intros w2 w3 H23 Hn2. rewrite (moves_state _ _ _ H23 I). exact Hn2.
    + exact Hn.
    + by apply rg_init_state.
    + by intros r w2 [[Hw2 Hr] Hn2].
Qed.

(** The guard of a mutex: nobody poisons it. *)
Lemma nss_safe_with_mutex {E E' A B} (V : outcome E A → Prop) (Q : outcome E' B → nss → Prop) l poisoned
    (p : prog nss E A) k w :
  nss_sound w →
  (∀ w', nss_sound w' → rg (nss_rely (Some (NssMutex l))) (nss_guar (Some (NssMutex l)))
    (λ r w'', nss_sound w'' ∧ V r) p w') →
  (∀ r w', nss_sound w' → V r → nss_safe Q None (k r) w') →
  nss_safe Q None (with_mutex l poisoned p k) w.
Proof.
  intros Hw Hp Hk. split; [done|]. intros w1 H01 w2 H12. cbn [fst snd lock].
  assert (nss_sound w2) as Hw2 by by do 2 (eapply nss_moves_sound; [done|]).
  split; [apply nss_moves_refl|]. rewrite (ok_locks w2 (proj2 Hw2)). cbn [negb].
  eapply tsafe_tlift; [by apply Hp|]. intros r w3 [Hw3 Hr]. split; [done|]. intros w4 H34.
  apply Hk; [by eapply nss_moves_sound|done].
Qed.

Lemma nss_safe_service {E' A B} (Q : outcome E' B → nss → Prop) poisoned
    (p : prog backend ServiceError A) k w :
  nss_sound w → keeps bk_step backend_wf p →
  (∀ r w', nss_sound w' → r ≠ Panic → nss_safe Q None (k r) w') →
  nss_safe Q None (with_mutex ServiceLock poisoned (backend_p p) k) w.
Proof.
  intros Hw Hp Hk. apply (nss_safe_with_mutex (fine (λ _, True))); [done| |].
  - intros w' Hw'. by apply rg_guar, rg_backend_p.
  - intros r w' Hw' Hr. apply Hk; [done|]. by intros ->.
Qed.

Lemma nss_safe_return {E A} (Q : outcome E A → Prop) r w : Q r → nss_safe (λ r _, Q r) None (Return r) w.
Proof. by intros Hr. Qed.

(** What a call leaves its caller. *)
Definition filled {R} (buflen : nat) (cl : caller R)
    (r : outcome undefined_behaviour (NssStatus * caller R)) : Prop :=
  ∃ s cl', r = Ok (s, cl') ∧ disciplined buflen cl cl' (Ok s).

Lemma nss_safe_errno {R} buflen (cl : caller R) s w :
  s = NotFound ∨ s = Unavail →
  nss_safe (λ r _, filled buflen cl r) None (return_t (set_errno 0) cl s) w.
Proof.
  intros Hs. apply nss_safe_return. eexists _, _. split; [done|]. split; [done|]. by destruct Hs as [-> | ->].
Qed.

Lemma disciplined_ok {R} buflen (fill : M (caller R) undefined_behaviour NssStatus) cl :
  wp fill (λ r c', disciplined buflen cl c' r) cl →
  ∃ s cl', fill cl = (Ok s, cl') ∧ disciplined buflen cl cl' (Ok s).
Proof.
  unfold wp. destruct (fill cl) as [[s|e|] cl']; simpl; [|by intros [_ []]..]. intros Hd. by exists s, cl'.
Qed.

Lemma nss_safe_lookup {A R} buflen (cl : caller R) lookup (fill : A → M (caller R) undefined_behaviour NssStatus) w :
  nss_sound w →
  (∀ svc, usable_ranges (svc_config svc) → keeps bk_step backend_wf (lookup svc)) →
  (∀ a, wp (fill a) (λ r c', disciplined buflen cl c' r) cl) →
  nss_safe (λ r _, filled buflen cl r) None (lookup_t (set_errno 0) cl lookup fill) w.
Proof.
  intros Hw Hl Hf. apply nss_safe_get_state; [done|]. intros [st|] w1 Hw1 Hst.
  2: { apply nss_safe_errno. by right. }
  apply nss_safe_service; [done|by apply Hl, Hst|]. intros [[x|]|e|] w2 Hw2 Hr; [| | |done].
  - apply nss_safe_return. destruct (disciplined_ok buflen (fill x) cl (Hf x)) as (s & cl' & -> & Hd).
    by exists s, cl'.
  - apply nss_safe_errno. by left.
  - apply nss_safe_errno. by right.
Qed.

Lemma nss_safe_getpwnam name buflen cl w :
  nss_sound w → passwd_caller_ok (buflen, cl) →
  nss_safe (λ r _, filled buflen cl r) None (getpwnam_t name buflen cl) w.
Proof.
  intros Hw Hc. unfold getpwnam_t. destruct (negb _); [by apply nss_safe_errno; left|].
  apply nss_safe_lookup; [done|intros svc Hr; by apply keeps_lookup_user_by_name|].
  intros u. by apply fill_passwd_disciplined.
Qed.
Lemma nss_safe_getpwuid uid buflen cl w :
  nss_sound w → passwd_caller_ok (buflen, cl) →
  nss_safe (λ r _, filled buflen cl r) None (getpwuid_t uid buflen cl) w.
Proof.
  intros Hw Hc. apply nss_safe_lookup; [done|intros svc Hr; by apply keeps_lookup_user_by_uid|].
  intros u. by apply fill_passwd_disciplined.
Qed.
Lemma nss_safe_getgrnam name buflen cl w :
  nss_sound w → group_caller_ok (buflen, cl) →
  nss_safe (λ r _, filled buflen cl r) None (getgrnam_t name buflen cl) w.
Proof.
  intros Hw Hc. unfold getgrnam_t. destruct (negb _); [by apply nss_safe_errno; left|].
  apply nss_safe_lookup; [done|intros svc Hr; by apply keeps_lookup_group_by_name|].
  intros g. by apply fill_group_disciplined.
Qed.
Lemma nss_safe_getgrgid gid buflen cl w :
  nss_sound w → group_caller_ok (buflen, cl) →
  nss_safe (λ r _, filled buflen cl r) None (getgrgid_t gid buflen cl) w.
Proof.
  intros Hw Hc. apply nss_safe_lookup; [done|intros svc Hr; by apply keeps_lookup_group_by_gid|].
  intros g. by apply fill_group_disciplined.
Qed.

(** The array gets new gids, or nothing but [errno] changes. *)
Definition gids_filled (group : Z) (a : group_array)
    (r : outcome undefined_behaviour (NssStatus * group_array)) : Prop :=
  ∃ s a', r = Ok (s, a') ∧
    ((∃ gids, groups_added group gids a (Ok s) a') ∨
     (s = NotFound ∨ s = Unavail) ∧ a' = (ga_set_errno 0 a).2).

Lemma nss_safe_ga_errno group a s w :
  s = NotFound ∨ s = Unavail →
  nss_safe (λ r _, gids_filled group a r) None (return_t (ga_set_errno 0) a s) w.
Proof. intros Hs. apply nss_safe_return. eexists _, _. split; [done|]. by right. Qed.

Lemma nss_safe_initgroups user group a w :
  nss_sound w → array_ok a →
  nss_safe (λ r _, gids_filled group a r) None (initgroups_t user group a) w.
Proof.
  intros Hw Ha. unfold initgroups_t. destruct (negb _); [by apply nss_safe_ga_errno; left|].
  apply nss_safe_get_state; [done|]. intros [st|] w1 Hw1 Hst; [|by apply nss_safe_ga_errno; right].
  apply nss_safe_service; [done|by apply keeps_lookup_groups_for_user, Hst|].
  intros [gids|e|] w2 Hw2 Hr; [|by apply nss_safe_ga_errno; right|done].
  apply nss_safe_return. unfold bind, get_array.
  pose proof (add_groups_wp group gids a Ha) as Hadd. unfold wp in Hadd.
  destruct (add_groups _ _ _ a) as [r a'] eqn:Hrun. simpl in *.
  assert (∃ s, r = Ok s) as [s ->].
  { unfold groups_added in Hadd. destruct Hadd as (_ & _ & _ & _ & _ & Hadd).
    case_bool_decide; destruct Hadd as [-> _]; by eexists. }
  exists s, a'. split; [done|]. left. by exists gids.
Qed.

(** [setpwent] and [setgrent]. *)
Lemma nss_safe_setent {R A} (listing : ScimClient → prog net ScimError (list R))
    (convert : Service → list R → prog backend undefined_behaviour (list A)) l
    (set : option (list A * nat) → nss → nss) w :
  (∀ c, keeps grows (λ _, True) (listing c)) →
  (∀ svc found, usable_ranges (svc_config svc) → keeps bk_step backend_wf (convert svc found)) →
  (∀ svc found, infallible (convert svc found)) →
  (∀ entries w, nss_sound w → nss_guar (Some (NssMutex l)) w (set (Some (entries, 0)) w)) →
  nss_sound w →
  nss_safe (λ r _, ∃ s, r = Ok s) None (setent_t listing convert l set) w.
Proof.
  intros Hl Hc Hi Hs Hw. assert (∀ s w', nss_safe (λ r _, ∃ s, r = Ok s) None
    (Return (L:=module_lock) (S:=nss) (E:=undefined_behaviour) (Ok (A:=NssStatus) s)) w') as Hok.
  { intros s w'. apply nss_safe_return. by eexists. }
  apply nss_safe_get_state; [done|]. intros [st|] w1 Hw1 Hst; [|apply Hok].
  eapply tsafe_tlift; [by apply rg_guar, rg_backend_p, Hw1; apply keeps_net_p, Hl|].
  intros [found|e|] w2 [Hw2 Hf]; [|apply Hok|done].
  eapply nss_safe_with_mutex; [exact Hw2|..].
  { intros w3 Hw3. apply rg_guar. eapply rg_mono.
    - apply rg_infallible; [apply infallible_pzoom, Hi|].
      apply rg_backend_p, Hw3. apply Hc, Hst. done.
    - intros r w4 [[Hw4 Hr] He]. split; [done|]. exact (conj Hr He). }
  intros [entries|e|] w3 Hw3 [Hr He]; [|by destruct (He e)|done].
  eapply (nss_safe_with_mutex (λ _, True)); [exact Hw3| |intros _ w4 Hw4 _; apply Hok].
  intros w4 Hw4. apply rg_tx. intros w5 H45.
  assert (nss_sound w5) as Hw5 by by eapply nss_moves_sound. split; [by apply Hs|].
  intros w6 H56. split; [|done]. eapply nss_moves_sound; [exact H56|].
  eapply nss_moves_sound; [by apply (Hs entries w5)|done].
Qed.
Lemma enum_ok_start {A} (entries : list A) : enum_ok (Some (entries, 0)).
Proof. intros es i [= <- <-]. lia. Qed.
Lemma enum_ok_end {A} : enum_ok (A:=A) None.
Proof. by intros es i. Qed.
Lemma enum_ok_next {A} (entries : list A) idx : idx < length entries → enum_ok (Some (entries, S idx)).
Proof. intros Hlt es i [= <- <-]. lia. Qed.

Lemma guar_set_users w u : enum_ok u → nss_guar (Some (NssMutex UserEnumLock)) w (set_users u w).
Proof. intros Hu. split; try done. intros []. by split. Qed.
Lemma guar_set_groups w g : enum_ok g → nss_guar (Some (NssMutex GroupEnumLock)) w (set_groups g w).
Proof. intros Hg. split; try done. intros []. by split. Qed.

Lemma nss_safe_setpwent w : nss_sound w → nss_safe (λ r _, ∃ s, r = Ok s) None setpwent_t w.
Proof.
  apply nss_safe_setent.
  - intros c. by apply keeps_paginate.
  - intros svc sus Hr. by apply keeps_convert_users.
  - intros svc sus. apply infallible_convert_users.
  - intros us w' _. apply guar_set_users, enum_ok_start.
Qed.
Lemma nss_safe_setgrent w : nss_sound w → nss_safe (λ r _, ∃ s, r = Ok s) None setgrent_t w.
Proof.
  apply nss_safe_setent.
  - intros c. by apply keeps_paginate.
  - intros svc sgs Hr. by apply keeps_convert_groups.
  - intros svc sgs. apply infallible_convert_groups.
  - intros gs w' _. apply guar_set_groups, enum_ok_start.
Qed.

(** One change of a static under its lock. *)
Lemma nss_safe_change {A} l (f : nss → nss) (a : A) w :
  (∀ w, nss_guar (Some (NssMutex l)) w (f w)) → nss_sound w →
  nss_safe (λ r _, ∃ s, r = Ok (E:=undefined_behaviour) s) None
    (with_mutex l (Return (Ok a)) (tx (E:=Empty_set) (λ w, (Ok tt, f w))) (λ _, Return (Ok a))) w.
Proof.
  intros Hf Hw. apply (nss_safe_with_mutex (λ _, True)); [done| |].
  - intros w1 Hw1. apply rg_tx. intros w2 H12. split; [apply Hf|]. intros w3 H23. split; [|done].
    do 2 (eapply nss_moves_sound; [first [exact H23|apply Hf]|]). by eapply nss_moves_sound.
  - intros r w1 Hw1 _. apply nss_safe_return. by eexists.
Qed.

Lemma nss_safe_endpwent w : nss_sound w → nss_safe (λ r _, ∃ s, r = Ok s) None endpwent_t w.
Proof. apply nss_safe_change. intros w'. apply guar_set_users, enum_ok_end. Qed.
Lemma nss_safe_endgrent w : nss_sound w → nss_safe (λ r _, ∃ s, r = Ok s) None endgrent_t w.
Proof. apply nss_safe_change. intros w'. apply guar_set_groups, enum_ok_end. Qed.

(** The index that is advanced is the one that was read, and it stays within the
    entries: the mutex is held from the read to the write. *)
Lemma nss_safe_getent {A R} buflen l (get : nss → option (list A * nat)) set
    (fill : A → M (caller R) undefined_behaviour NssStatus) cl w :
  (∀ w w', nss_rely (Some (NssMutex l)) w w' → get w' = get w) →
  (∀ w, nss_sound w → enum_ok (get w)) →
  (∀ w entries idx, idx < length entries →
    nss_guar (Some (NssMutex l)) w (set (Some (entries, S idx)) w)) →
  (∀ a, wp (fill a) (λ r c', disciplined buflen cl c' r) cl) →
  nss_sound w → nss_safe (λ r _, filled buflen cl r) None (getent_t l get set fill cl) w.
Proof.
  intros Hget Hok Hset Hf Hw. unfold getent_t. cbv zeta.
  apply (nss_safe_with_mutex (filled buflen cl)); [done| |intros r w1 Hw1 Hr; by apply nss_safe_return].
  assert (∀ s, s = NotFound ∨ s = Unavail → filled buflen cl (Ok (s, (set_errno (E:=undefined_behaviour) 0 cl).2)))
    as Herrno.
  { intros s Hs. eexists _, _. split; [done|]. split; [done|]. by destruct Hs as [-> | ->]. }
  intros w1 Hw1 w2 H12. split; [apply nss_moves_refl|]. simpl.
  assert (nss_sound w2) as Hw2 by by eapply nss_moves_sound. clear w1 Hw1 H12.
  destruct (get w2) as [[entries idx]|] eqn:Hg; [|intros w3 H23; split;
    [by eapply nss_moves_sound|apply Herrno; by right]].
  case_bool_decide as Hidx; [intros w3 H23; split; [by eapply nss_moves_sound|apply Herrno; by left]|].
  destruct (lookup_lt_is_Some_2 entries idx) as [x ->]; [lia|].
  destruct (disciplined_ok buflen (fill x) cl (Hf x)) as (s & cl' & -> & Hd). cbn [pbind].
  case_bool_decide as Hs; cbn [pbind tx].
  - intros w3 H23. rewrite (Hget _ _ H23), Hg. cbn [fmap option_fmap option_map prod_map id fst snd].
    assert (nss_guar (Some (NssMutex l)) w3 (set (Some (entries, S idx)) w3)) as Hw3 by (apply Hset; lia).
    split; [exact Hw3|]. cbn [rg]. intros w4 H34. split; [|by exists s, cl'].
    eapply nss_moves_sound; [exact H34|]. eapply nss_moves_sound; [exact Hw3|].
    by eapply nss_moves_sound.
  - intros w3 H23. split; [by eapply nss_moves_sound|by exists s, cl'].
Qed.

Lemma nss_safe_getpwent buflen cl w :
  nss_sound w → passwd_caller_ok (buflen, cl) →
  nss_safe (λ r _, filled buflen cl r) None (getpwent_t buflen cl) w.
Proof.
  intros Hw Hc. apply nss_safe_getent; [| | | |done].
  - intros w1 w2 H12. by apply (moves_users _ _ _ H12).
  - intros w1 [_ Hw1]. apply Hw1.
  - intros w1 es i Hlt. by apply guar_set_users, enum_ok_next.
  - intros u. by apply fill_passwd_disciplined.
Qed.
Lemma nss_safe_getgrent buflen cl w :
  nss_sound w → group_caller_ok (buflen, cl) →
  nss_safe (λ r _, filled buflen cl r) None (getgrent_t buflen cl) w.
Proof.
  intros Hw Hc. apply nss_safe_getent; [| | | |done].
  - intros w1 w2 H12. by apply (moves_groups _ _ _ H12).
  - intros w1 [_ Hw1]. apply Hw1.
  - intros w1 es i Hlt. by apply guar_set_groups, enum_ok_next.
  - intros g. by apply fill_group_disciplined.
Qed.
End nss_programs.
