(* ===== verification/LoginsSafe.v ===== *)
(** * LoginsSafe: a PAM call among the calls of others

    What [CallsSafe] shows of the NSS calls, for those of the PAM module: the
    polling loop keeps its deadline while others act between its steps, and a
    login succeeds only with a token. *)

From S2P Require Import Prelude Text Model Value Mapping Fs Http Sql Cache CacheFacts Scim ScimProps.
From S2P Require Import Config Service ServiceFacts Interleave InterleaveFacts InterleaveProps.
From S2P Require Import Threads ThreadsFacts Nss NssProps Oidc OidcProps Pam PamProps Calls CallsSafe.
From stdpp Require Import prelude strings list gmap.

(** ** The OIDC client *)

Section rg_pzoom.
Context {S T E A : Type} (get : S → T) (set : T → S → S).

Lemma rg_pzoom (R G : T → T → Prop) (R' G' : S → S → Prop) (Q : outcome E A → T → Prop) p s :
  (∀ t s, get (set t s) = t) → (∀ s s', R' s s' → R (get s) (get s')) →
  (∀ s t, G (get s) t → G' s (set t s)) →
  rg R G Q p (get s) → rg R' G' (λ r s', Q r (get s')) (pzoom get set p) s.
Proof.
  intros Hgs HR HG Hp. revert s Hp. induction p as [r|F X t c IH]; simpl; intros s Hp s' Hs'.
  - by apply Hp, HR.
  - unfold zoom. destruct (Hp (get s') (HR _ _ Hs')) as [Hg Hc].
    destruct (t (get s')) as [r t'] eqn:Ht. cbn [fst snd] in *. split; [by apply HG|].
    apply IH. by rewrite Hgs.
Qed.
End rg_pzoom.

Section device_flow.
Context `{World} `{JsonParser} `{!WorldLaws} `{BuildProfile} (self : OidcClient).
Variable device_code : string.
Variable deadline : Z.

(** What the others add to the log takes time, and never turns it back. *)
Lemma grows_later log log' : grows log log' → (instant_now log ≤ instant_now log')%Z.
Proof. intros [new ->]. apply instant_monotone_app. Qed.

Lemma rg_poll_loop fuel interval log :
  (5 ≤ interval < 2 ^ 64)%Z →
  (deadline < instant_now log + 2 ^ 63 * nanos_per_sec)%Z →
  (deadline ≤ instant_now log + Z.of_nat fuel * 5 * nanos_per_sec)%Z → 0 < fuel →
  rg grows grows (λ r _, r ≠ Panic ∧ r ≠ Ok None)
    (poll_loop_p self fuel device_code deadline interval) log.
Proof.
  revert interval log. induction fuel as [|fuel IH]; intros interval log Hi Hlim Hfuel Hpos; [lia|].
  cbn [poll_loop_p sleep_p pbind tx]. intros log0 Hl0. split; [done|]. cbn [now fst snd].
  set (since := instant_now log0). intros log1 Hl1. split; [by eexists|]. cbn [wake fst snd].
  set (log2 := log1 ++ [Slept since interval]). intros log3 Hl3. split; [done|]. cbn [now fst snd].
  apply grows_later in Hl0, Hl1, Hl3. pose proof (sleep_at_least log1 since interval Hl1) as Hsleep.
  fold log2 in Hsleep. case_bool_decide as Hd; [by intros ? _|].
  cbn [ptry tx]. intros log4 Hl4. destruct (poll_log self device_code log4) as (r & Hr & Hp).
  rewrite Hr. cbn [fst snd]. set (log5 := log4 ++ _). split; [by eexists|].
  assert (instant_now log3 ≤ instant_now log5)%Z as Hl5.
  { etrans; [by apply grows_later|]. apply grows_later. by eexists. }
  unfold nanos_per_sec in *.
  assert (∀ i, (5 ≤ i < 2 ^ 64)%Z → rg grows grows (λ r _, r ≠ Panic ∧ r ≠ Ok None)
    (poll_loop_p self fuel device_code deadline i) log5) as Hnext.
  { intros i Hi'. apply IH; [done|lia..]. }
  destruct r as [token|e|]; [by intros ? _| |done].
  destruct e; try (by intros ? _); [by apply Hnext|].
  rewrite (local_ok _ (interval + 5)%Z) by (apply u64_add_exact; unfold is_u64, u64_modulus; lia).
  apply Hnext. lia.
Qed.
End device_flow.

(** ** Logins *)

(** A device code whose [expires_in] takes the deadline out of the clock's range
    has come in. *)
Definition clock_overflow `{World} `{JsonParser} (client : OidcClient) (log : net) : Prop :=
  ∃ log0 da, grows log0 log ∧
    fetched decode_DeviceAuthResponse log0 (device_request client "openid") da ∧
    (2 ^ 63 ≤ instant_now log `div` nanos_per_sec + da_expires_in da)%Z.

Section logins.
Context `{World} `{JsonParser} `{!WorldLaws} `{BuildProfile} `{PamHandle}.
Variable client : OidcClient.

Lemma rg_device_flow log :
  rg grows grows (λ r log', r = Panic → clock_overflow client log')
    (authenticate_device_flow_p client "openid" display) log.
Proof.
  unfold authenticate_device_flow_p. cbn [pbind tx]. intros log1 Hl1.
  rewrite request_device_code_fetch.
  destruct (fetch_json_cases decode_DeviceAuthResponse log1 (device_request client "openid"))
    as [(da & Hf & Hrun)|(e & _ & Hrun)]; rewrite Hrun; cbn [fst snd].
  2: { split; [by eexists|]. by intros ? _. }
  set (log2 := log1 ++ _). assert (grows log1 log2) as Hl2 by by eexists.
  split; [done|]. cbn [pbind]. intros log3 Hl3.
  destruct (display_displays (da_user_code da) (da_verification_uri da) log3) as (shown & Hshow & _).
  rewrite Hshow. cbn [fst snd]. set (log4 := log3 ++ shown).
  assert (grows log3 log4) as Hl4 by by eexists. split; [done|]. cbn [pbind].
  intros log5 Hl5. cbn [now fst snd]. split; [done|].
  unfold local, instant_add_secs. cbn [pbind]. case_bool_decide as Hclock; cbn [pbind].
  2: { intros log6 Hl6 _. exists log1, da. split; [by do 4 (etrans; [done|])|]. split; [done|].
       apply grows_later in Hl6. etrans; [|apply Z.add_le_mono_r, Z.div_le_mono, Hl6; done]. lia. }
  destruct Hf as (resp & text & _ & _ & _ & Hd). apply bind_Some in Hd as (v & _ & Hd).
  destruct (decoded_device_auth v da Hd) as [[He _] Hi]. unfold is_u64, u64_modulus in Hi.
  pose proof (instant_nonneg log5) as Hstart.
  pose proof (Z.div_pos _ nanos_per_sec Hstart ltac:(done)) as Hdiv.
  pose proof (Z.div_mod (da_expires_in da) 5 ltac:(done)) as Hfuel.
  pose proof (Z.mod_pos_bound (da_expires_in da) 5 ltac:(done)) as Hmod.
  eapply rg_pbind; [apply _|apply rg_poll_loop|..];
    unfold poll_fuel, MIN_POLL_INTERVAL_SECS, nanos_per_sec in *; try lia.
  - intros [token|] log6 [_ Hr]; [by intros ? _|done].
  - intros e log6 _. done.
  - by intros log6 [? _].
Qed.
End logins.

(** ** The PAM module *)

Record pam_statics_ok `{Os} `{TomlParser} `{Env} (w : pam) : Prop := {
  ok_service : ∀ svc, pam_service w = Some (Some svc) → usable_ranges (svc_config svc);
  ok_client : ∀ c, pam_client w = Some (Some c) → discovered c;
}.

Definition pam_sound `{Sqlite} `{Os} `{TomlParser} `{Env} (w : pam) : Prop :=
  (db_wf (pam_db w) ∧ machine_files (pam_fs w)) ∧ pam_statics_ok w.

(** A step that leaves alone the text of the configuration and the statics of the
    [OnceLock]s in [kept]; those that are initialised are for good. *)
Record pam_moves `{Sqlite} `{Os} `{TomlParser} `{Env} (kept : module_lock → Prop) (w w' : pam) : Prop := {
  pmoves_db : wf_step (pam_db w) (pam_db w');
  pmoves_net : grows (pam_net w) (pam_net w');
  pmoves_config : config_text (pam_fs w') = config_text (pam_fs w);
  pmoves_statics : pam_statics_ok w → pam_statics_ok w';
  pmoves_service_once : ∀ s, pam_service w = Some s → pam_service w' = Some s;
  pmoves_client_once : ∀ c, pam_client w = Some c → pam_client w' = Some c;
  pmoves_service : kept PamServiceOnce → pam_service w' = pam_service w;
  pmoves_client : kept PamClientOnce → pam_client w' = pam_client w;
}.

Definition pam_rely `{Sqlite} `{Os} `{TomlParser} `{Env} (h : option module_lock) : pam → pam → Prop :=
  pam_moves (λ l, h = Some l).
Definition pam_guar `{Sqlite} `{Os} `{TomlParser} `{Env} (h : option module_lock) : pam → pam → Prop :=
  pam_moves (λ l, h ≠ Some l).
Definition pam_outside `{Sqlite} `{Os} `{TomlParser} `{Env} : pam → pam → Prop := pam_moves (λ _, True).

Section pam_moves.
Context `{Sqlite} `{Os} `{TomlParser} `{Env}.

#[export] Instance pam_moves_refl kept : Reflexive (pam_moves kept).
Proof. intros w. by split. Qed.
#[export] Instance pam_moves_trans kept : Transitive (pam_moves kept).
Proof.
  intros w1 w2 w3 [?? Ht ??? Hs Hc] [?? Ht' ??? Hs' Hc'].
  split; [by etrans|by etrans|congruence|auto|auto|auto|..]; intros Hk; by rewrite ?Hs', ?Hs, ?Hc', ?Hc.
Qed.

Lemma pam_moves_mono (k1 k2 : module_lock → Prop) w w' :
  (∀ l, k2 l → k1 l) → pam_moves k1 w w' → pam_moves k2 w w'.
Proof. intros Hk []. split; auto. Qed.

Lemma pam_moves_sound kept w w' : pam_moves kept w w' → pam_sound w → pam_sound w'.
Proof. intros [] [[] ?]. split; [split|]; eauto using machine_files_same. Qed.

Lemma pam_guar_outside h w w' : pam_outside w w' → pam_guar h w w'.
Proof. by apply pam_moves_mono. Qed.
End pam_moves.

#[export] Instance pam_rely_refl `{Sqlite} `{Os} `{TomlParser} `{Env} h : Reflexive (pam_rely h) :=
  pam_moves_refl _.
#[export] Instance pam_rely_trans `{Sqlite} `{Os} `{TomlParser} `{Env} h : Transitive (pam_rely h) :=
  pam_moves_trans _.

Section pam_programs.
Context `{World} `{JsonParser} `{PercentEncoding} `{SqliteLaws} `{BuildProfile} `{Murmur3Laws}.
Context `{Os} `{TomlParser} `{Env} `{SqliteFile} `{!SqliteFileLaws} {Hadds : SqliteFileAdds}.

Lemma pam_statics_ok_same (w w' : pam) :
  pam_service w' = pam_service w → pam_client w' = pam_client w → pam_statics_ok w → pam_statics_ok w'.
Proof. intros Hs Hc []. split; by rewrite ?Hs, ?Hc. Qed.

Lemma pam_guar_rg {E A} h (Q : outcome E A → pam → Prop) p w :
  rg (pam_rely h) pam_outside Q p w → rg (pam_rely h) (pam_guar h) Q p w.
Proof. intros Hp. eapply rg_weaken; [exact Hp|done|apply pam_guar_outside|done]. Qed.

Lemma rg_pam_net {E A} h (Q : outcome E A → net → Prop) (p : prog net E A) w :
  rg grows grows Q p (pam_net w) → pam_sound w →
  rg (pam_rely h) pam_outside (λ r w', Q r (pam_net w') ∧ pam_sound w') (pam_net_p p) w.
Proof.
  intros Hp Hw. apply rg_invariant; [apply pam_moves_sound|apply pam_moves_sound|done|].
  apply (rg_pzoom pam_net pam_set_net grows grows); [done|by intros w1 w2 []| |done].
  intros w1 log Hl. split; try done. by apply pam_statics_ok_same.
Qed.

Lemma rg_pam_backend {E A} h (Q : outcome E A → backend → Prop) (p : prog backend E A) w :
  rg bk_step bk_step Q p (mk_backend (pam_net w) (pam_db w)) → pam_sound w →
  rg (pam_rely h) pam_outside (λ r w', Q r (mk_backend (pam_net w') (pam_db w')) ∧ pam_sound w')
    (pam_backend_p p) w.
Proof.
  intros Hp Hw. apply rg_invariant; [apply pam_moves_sound|apply pam_moves_sound|done|].
  apply (rg_pzoom (λ w, mk_backend (pam_net w) (pam_db w)) pam_set_backend bk_step bk_step);
    [by intros []|by intros w1 w2 []| |done].
  intros w1 b [Hd Hn]. split; try done. by apply pam_statics_ok_same.
Qed.

Lemma rg_pam_storage {E A} h (V : A → Prop) (p : prog storage E A) w :
  returns st_step st_ready V p → pam_sound w → is_Some (config_text (pam_fs w)) →
  rg (pam_rely h) pam_outside (λ r w', fine V r ∧ pam_sound w') (pam_storage_p p) w.
Proof.
  intros Hp Hw Hc. apply rg_invariant; [apply pam_moves_sound|apply pam_moves_sound|done|].
  eapply rg_mono.
  - apply (rg_pzoom (λ w, mk_storage (pam_fs w) (pam_db w)) pam_set_storage st_step st_step);
      [by intros []|by intros w1 w2 []| |by apply Hp; split; [apply Hw|]].
    intros w1 s [Hd Ht]. split; try done. by apply pam_statics_ok_same.
  - by intros r w' [_ Hr].
Qed.

Lemma pam_load_outcome w : pam_on_fs load w = ((load (pam_fs w)).1, w).
Proof.
  unfold pam_on_fs, zoom. destruct (load_cases (pam_fs w)) as [[config ->]|[e ->]]; by destruct w.
Qed.

(** The configuration comes from the files, and is there then. *)
Definition pam_loaded (config : Config) (w : pam) : Prop :=
  machine_config config ∧ is_Some (config_text (pam_fs w)) ∧ ∃ fs, (load fs).1 = Ok config.

Lemma rg_pam_load h w :
  pam_sound w →
  rg (pam_rely h) pam_outside
    (λ r w', (r ≠ Panic ∧ ∀ config, r = Ok config → pam_loaded config w') ∧ pam_sound w')
    (tx (pam_on_fs load)) w.
Proof.
  intros Hw. apply rg_tx. intros w1 Hw01. unfold wp. rewrite pam_load_outcome.
  assert (pam_sound w1) as Hw1 by by eapply pam_moves_sound. split; [done|]. intros w2 Hw12.
  split; [|by eapply pam_moves_sound]. split; [apply load_no_panic|]. intros config Hl. split_and!.
  - eapply load_machine_config; [apply Hw1|done].
  - rewrite (pmoves_config _ _ _ Hw12). by eapply load_reads.
  - by exists (pam_fs w1).
Qed.

Definition service_usable (s : option Service) : Prop :=
  ∀ svc, s = Some svc → usable_ranges (svc_config svc).
Definition client_discovered (c : option OidcClient) : Prop :=
  ∀ client, c = Some client → discovered client.

Lemma rg_init_service {E} h w :
  pam_sound w →
  rg (pam_rely h) pam_outside (λ r w', pam_sound w' ∧ ∃ s, r = Ok s ∧ service_usable s)
    (init_service_p (E:=E)) w.
Proof.
  intros Hw. assert (∀ w', pam_sound w' → rg (pam_rely h) pam_outside
    (λ r w', pam_sound w' ∧ ∃ s, r = Ok s ∧ service_usable s) (Done (Ok (E:=E) None)) w') as Hnone.
  { intros w' Hw' w'' Hs. split; [by eapply pam_moves_sound|]. by exists None. }
  unfold init_service_p. eapply rg_ptry; [apply _|by apply rg_pam_load|..].
  2: { intros e w' [_ Hw']. by apply Hnone. }
  2: { by intros w' [[? _] _]. }
  intros config w1 [[_ Hc] Hw1]. destruct (Hc config eq_refl) as ([Hu Hfile] & Ht & _). cbv zeta.
  eapply rg_ptry; [apply _|apply rg_pam_storage; [by apply keeps_open|exact Hw1|exact Ht]|..].
  2: { intros e w' [_ Hw']. by apply Hnone. }
  2: { by intros w' [? _]. }
  intros cache w2 [_ Hw2]. eapply rg_pbind; [apply _|eapply rg_infallible, rg_pam_backend, Hw2|..].
  - apply infallible_pzoom, infallible_pzoom, infallible_Service_new.
  - eapply returns_pzoom; [apply _|done|by intros b b' [? _]|intros b d Hd; by split| |
      apply returns_Service_new|apply Hw2]. by intros b.
  - intros svc w3 [[[_ Hs] Hw3] _] w4 H34. split; [by eapply pam_moves_sound|].
    eexists. split; [done|]. intros svc' [= <-]. simpl in *. by rewrite Hs.
  - intros e w3 [_ He]. by destruct (He e).
  - by intros w3 [[[_ ?] _] _].
Qed.

Lemma rg_init_oidc_client {E} h w :
  pam_sound w →
  rg (pam_rely h) pam_outside (λ r w', pam_sound w' ∧ ∃ c, r = Ok c ∧ client_discovered c)
    (init_oidc_client_p (E:=E)) w.
Proof.
  intros Hw. assert (∀ c w', client_discovered c → pam_sound w' → rg (pam_rely h) pam_outside
    (λ r w', pam_sound w' ∧ ∃ c, r = Ok c ∧ client_discovered c) (Done (Ok (E:=E) c)) w') as Hdone.
  { intros c w' Hc Hw' w'' Hs. split; [by eapply pam_moves_sound|]. by exists c. }
  unfold init_oidc_client_p. eapply rg_ptry; [apply _|by apply rg_pam_load|..].
  2: { intros e w' [_ Hw']. by apply Hdone. }
  2: { by intros w' [[? _] _]. }
  intros config w1 [[_ Hc] Hw1]. destruct (Hc config eq_refl) as (_ & _ & fs & Hload). cbv zeta.
  set (o := cfg_oidc config).
  eapply rg_ptry; [apply _|apply (rg_pam_net h (λ r _, r ≠ Panic ∧ ∀ c, r = Ok c → discovered c)
    (tx _)), Hw1|..].
  2: { intros c w2 [[_ Hd] Hw2]. apply Hdone; [|done]. intros c' [= <-]. by apply Hd. }
  2: { intros e w2 [_ Hw2]. by apply Hdone. }
  2: { by intros w2 [[? _] _]. }
  apply rg_tx. intros log _. unfold wp.
  destruct (discover_with_options_cases (cfg_issuer_url o) (cfg_client_id o) (cfg_client_secret o)
    (negb (cfg_allow_insecure o)) log) as (r & Hrun & Hnp & Hok).
  assert ((if cfg_allow_insecure o then discover_insecure else discover) (cfg_issuer_url o)
    (cfg_client_id o) (cfg_client_secret o) log = (r, log ++ [Sent (discovery_request (cfg_issuer_url o))])) as ->.
  { rewrite <-Hrun. by destruct (cfg_allow_insecure o). }
  cbn [fst snd]. split; [by eexists|]. intros log' _. split; [done|]. intros c ->.
  destruct (Hok c) as [Hd _]. destruct (Hd eq_refl) as (doc & ep & _ & Hacc & ->). by exists fs, config, doc.
Qed.
End pam_programs.

(** ** The calls *)

Abbreviation pam_safe := (tsafe pam_rely pam_guar).

(** SCIM was asked, and if it knew the user, [ext] is the id it gave. *)
Definition answered `{World} `{JsonParser} (self : Service) (username ext : string) (log : net) : Prop :=
  ∃ log0, grows log0 log ∧
    match (Scim.get_user_by_name (svc_scim self) username log0).1 with
    | Ok (Some su) => su_id su = ext
    | _ => True
    end.

(** A token for [sub] counts for [username] when that is the name itself, when
    SCIM gives the user of that name that id, or when SCIM does not know the user
    or cannot be asked, so that the cache decides. *)
Definition speaks_for `{World} `{JsonParser} (username sub : string) (log : net) : Prop :=
  sub = username ∨ ∃ svc, answered svc username sub log.

(** What a login has answered, seen from [now]. *)
Definition login_answered `{World} `{JsonParser} `{JwtTheory} `{Os} `{TomlParser} `{Env} `{PamHandle}
    (r : outcome Empty_set Z) (now : net) : Prop :=
  r = Ok PAM_AUTH_ERR ∨ r = Ok PAM_AUTHINFO_UNAVAIL ∨
  (r = Panic ∧ ∃ client, discovered client ∧ clock_overflow client now) ∨
  (r = Ok PAM_SUCCESS ∧ ∃ username client id_token log claims,
    (∃ log0, grows log0 log ∧ pam_get_user log0 = (PAM_SUCCESS, Some username)) ∧
    discovered client ∧ grows log now ∧ validated client id_token log claims ∧
    speaks_for username (cl_sub claims) now).

Section pam_threads.
Context `{World} `{JsonParser} `{PercentEncoding} `{SqliteLaws} `{BuildProfile} `{Murmur3Laws}.
Context `{Os} `{TomlParser} `{Env} `{SqliteFile} `{!SqliteFileLaws} {Hadds : SqliteFileAdds}.
Context `{JwtLaws} `{PamHandle}.

(** Sound, and not before [log0]. *)
Definition pam_since (log0 : net) (w : pam) : Prop := pam_sound w ∧ grows log0 (pam_net w).

Lemma pam_moves_since kept log0 w w' : pam_moves kept w w' → pam_since log0 w → pam_since log0 w'.
Proof. intros Hm [Hw Hg]. split; [by eapply pam_moves_sound|]. etrans; [exact Hg|apply Hm]. Qed.

Lemma rg_pam_since {E A} log0 h (J : pam → Prop) (Q : outcome E A → pam → Prop) p w :
  (∀ w w', pam_rely h w w' → J w → J w') → (∀ w w', pam_outside w w' → J w → J w') →
  J w → pam_since log0 w → rg (pam_rely h) pam_outside Q p w →
  rg (pam_rely h) (pam_guar h) (λ r w', Q r w' ∧ pam_since log0 w' ∧ J w') p w.
Proof.
  intros HR HG HJ Hw Hp. apply pam_guar_rg. apply rg_invariant; [| |done|done].
  - intros w1 w2 Hm []. split; [by eapply pam_moves_since|by eapply HR].
  - intros w1 w2 Hm []. split; [by eapply pam_moves_since|by eapply HG].
Qed.

Lemma pam_safe_get_service {A} Q (k : option Service → thread module_lock pam Empty_set A) log0 w :
  pam_since log0 w →
  (∀ s w', pam_since log0 w' → service_usable s → pam_safe Q None (k s) w') →
  pam_safe Q None (get_service_t k) w.
Proof.
  intros Hw Hk. apply (tsafe_get_or_init service_usable (pam_since log0)); [| | | | | |auto|done].
  - intros h w1 w2 Hw1 Hw12. by eapply pam_moves_since.
  - intros h w1. apply pam_moves_refl.
  - intros w1 w2 Hn Hw12. by rewrite (pmoves_service _ _ _ Hw12).
  - intros w1 s [[_ []] _] Hs svc ->. eauto.
  - intros w1 s [[Hd Hs] Hl] Hn Hu. assert (pam_statics_ok (pam_set_service s w1)) as Hok.
    { destruct Hs. split; [|done]. intros svc [= ->]. by apply Hu. }
    split; [|by split]. split; try done. by rewrite Hn.
  - intros w1 Hw1 Hn. eapply rg_mono.
    + apply (rg_pam_since log0 _ (λ w, pam_service w = None)); [| |exact Hn|exact Hw1|].
      * intros w2 w3 Hw23 Hn2. rewrite (pmoves_service _ _ _ Hw23 eq_refl). exact Hn2.
      * intros w2 w3 Hw23 Hn2. rewrite (pmoves_service _ _ _ Hw23 I). exact Hn2.
      * apply rg_init_service, Hw1.
    + by intros r w2 ([_ Hr] & Hw2 & Hn2).
Qed.

Lemma pam_safe_get_oidc_client {A} Q (k : option OidcClient → thread module_lock pam Empty_set A) log0 w :
  pam_since log0 w →
  (∀ c w', pam_since log0 w' → client_discovered c → pam_safe Q None (k c) w') →
  pam_safe Q None (get_oidc_client_t k) w.
Proof.
  intros Hw Hk. apply (tsafe_get_or_init client_discovered (pam_since log0)); [| | | | | |auto|done].
  - intros h w1 w2 Hw1 Hw12. by eapply pam_moves_since.
  - intros h w1. apply pam_moves_refl.
  - intros w1 w2 Hn Hw12. by rewrite (pmoves_client _ _ _ Hw12).
  - intros w1 c [[_ []] _] Hs client ->. eauto.
  - intros w1 c [[Hd Hs] Hl] Hn Hu. assert (pam_statics_ok (pam_set_client c w1)) as Hok.
    { destruct Hs. split; [done|]. intros client [= ->]. by apply Hu. }
    split; [|by split]. split; try done. by rewrite Hn.
  - intros w1 Hw1 Hn. eapply rg_mono.
    + apply (rg_pam_since log0 _ (λ w, pam_client w = None)); [| |exact Hn|exact Hw1|].
      * intros w2 w3 Hw23 Hn2. rewrite (pmoves_client _ _ _ Hw23 eq_refl). exact Hn2.
      * intros w2 w3 Hw23 Hn2. rewrite (pmoves_client _ _ _ Hw23 I). exact Hn2.
      * apply rg_init_oidc_client, Hw1.
    + by intros r w2 ([_ Hr] & Hw2 & Hn2).
Qed.

(** The mutex of the service, which serves when it is poisoned too. *)
Lemma pam_safe_service {E E' A B} (Q1 : outcome E A → backend → Prop) (Q : outcome E' B → pam → Prop)
    (p : prog backend E A) k log0 w :
  pam_since log0 w →
  (∀ b, backend_wf b → rg bk_step bk_step Q1 p b) →
  (∀ r b b', Q1 r b → bk_step b b' → Q1 r b') →
  (∀ r w', pam_since log0 w' → Q1 r (mk_backend (pam_net w') (pam_db w')) → pam_safe Q None (k r) w') →
  pam_safe Q None (locked PamMutex (pam_backend_p p) k) w.
Proof.
  intros Hw Hp Hstable Hk.
  eapply (tsafe_locked (λ r w', Q1 r (mk_backend (pam_net w') (pam_db w')) ∧ pam_since log0 w')).
  - intros w1 Hw01. assert (pam_since log0 w1) as Hw1 by by eapply pam_moves_since.
    eapply rg_mono; [apply (rg_pam_since log0 _ (λ _, True)); [done|done|done|exact Hw1|]|].
    + apply rg_pam_backend; [apply Hp, Hw1|apply Hw1].
    + by intros r w2 ([? _] & ? & _).
  - intros r w1 w2 [HQ Hw1] Hw12. apply Hk; [by eapply pam_moves_since|].
    eapply Hstable; [exact HQ|]. destruct Hw12. by split.
Qed.

Lemma pam_safe_return {E A} (Q : outcome E A → pam → Prop) r log0 w :
  pam_since log0 w → (∀ w', pam_since log0 w' → Q r w') → pam_safe Q None (Return r) w.
Proof. intros Hw HQ. split; [done|]. intros w' Hm. by apply HQ; eapply pam_moves_since. Qed.

(** A lookup by name takes the id from SCIM's answer, if there is one. *)
Lemma returns_admit_user self su :
  usable_ranges (svc_config self) →
  returns bk_step backend_wf (λ u, user_external_id u = su_id su) (db_p (admit_user_p self su)).
Proof.
  intros Hr. eapply returns_pzoom; [apply _|done|by intros b b' [? _]|intros b d Hd; by split|done|].
  eapply (returns_pbind (λ u, user_external_id u = su_id su)).
  - eapply returns_pbind; [apply keeps_pmap_err, shared_resolve_id; [apply Hr|intros c; apply safe_uid_owner]|].
    intros uid _. eapply returns_pbind; [apply keeps_pmap_err, shared_resolve_id; [apply Hr|intros c; apply safe_gid_owner]|].
    intros gid _. by apply returns_done.
  - intros u Hu. eapply returns_pbind; [apply keeps_pmap_err, shared_tx, safe_store_user|].
    intros _ _. by apply returns_done.
Qed.
Definition asked self username (r : outcome ScimError (option ScimUser)) (b : backend) : Prop :=
  ∃ log0, grows log0 (bk_net b) ∧ (Scim.get_user_by_name (svc_scim self) username log0).1 = r.

Lemma asked_stable self username r b b' : bk_step b b' → asked self username r b → asked self username r b'.
Proof. intros [_ Hn] (log0 & Hg & Hr). exists log0. split; [by etrans|done]. Qed.

Lemma rg_ask self username b :
  backend_wf b →
  rg bk_step bk_step (λ r b', (backend_wf b' ∧ fine (λ _, True) r) ∧ asked self username r b')
    (tx (on_net (Scim.get_user_by_name (svc_scim self) username))) b.
Proof.
  intros Hb. apply rg_tx. intros b1 Hb1. unfold wp, on_net, zoom.
  destruct (emits_get_user_by_name (svc_scim self) username (bk_net b1)) as (new & Hnew & _).
  pose proof (scim_lookup_no_panic (svc_scim self) username (bk_net b1)) as Hp.
  destruct (Scim.get_user_by_name _ _ _) as [r log'] eqn:Hr. cbn [fst snd] in *. subst log'.
  assert (bk_step b1 (set_bk_net (bk_net b1 ++ new) b1)) as Hb2 by (split; [done|by eexists]).
  split; [done|]. intros b3 Hb3. split; [split|].
  - eapply (rely_keeps (T:=bk_step)); [exact Hb3|]. eapply (rely_keeps (T:=bk_step)); [exact Hb2|].
    by eapply (rely_keeps (T:=bk_step)).
  - by destruct r.
  - eapply asked_stable; [exact Hb3|]. exists (bk_net b1). split; [by eexists|]. by rewrite Hr.
Qed.

Lemma rg_keeps_asked {E A} (V : A → Prop) self username r0 (p : prog backend E A) b :
  returns bk_step backend_wf V p → backend_wf b → asked self username r0 b →
  rg bk_step bk_step (λ r b', (backend_wf b' ∧ fine V r) ∧ asked self username r0 b') p b.
Proof.
  intros Hp Hb Ha. apply rg_invariant; [apply asked_stable|apply asked_stable|done|by apply Hp].
Qed.

Lemma rg_lookup_answered self username b :
  usable_ranges (svc_config self) → backend_wf b →
  rg bk_step bk_step (λ r b', r ≠ Panic ∧
      ∀ u, r = Ok (Some u) → answered self username (user_external_id u) (bk_net b'))
    (lookup_user_by_name_p self username) b.
Proof.
  intros Hr Hb. unfold lookup_user_by_name_p. case_bool_decide; [by intros ? _|].
  assert (∀ r0 b1, backend_wf b1 → asked self username r0 b1 → (∀ su, r0 ≠ Ok (Some su)) →
    rg bk_step bk_step (λ r b', r ≠ Panic ∧
      ∀ u, r = Ok (Some u) → answered self username (user_external_id u) (bk_net b'))
    (pmap_err (from (B:=ServiceError)) (tx (on_db (Cache.get_user_by_name (svc_cache self) username)))) b1)
    as Hcache.
  { intros r0 b1 Hb1 Ha Hno. eapply rg_mono; [eapply rg_keeps_asked, Ha; [|done]|].
    - apply keeps_pmap_err, keeps_on_db. eauto with rust_safe.
    - intros r b2 [[_ Hf] (log0 & Hg & Hr0)]. split; [by intros ->|]. intros u _.
      exists log0. split; [done|]. rewrite Hr0. destruct r0 as [[su|]| |]; try done. by destruct (Hno su). }
  eapply rg_ptry; [apply _|by apply rg_ask|..].
  - intros [su|] b1 [[Hb1 _] Ha]; [|by eapply Hcache].
    eapply rg_pbind; [apply _|apply (rg_keeps_asked _ _ _ _ _ _ (returns_admit_user self su Hr) Hb1 Ha)|..].
    + intros u b2 [[_ Hu] Ha2] b3 Hb3. split; [done|]. intros u' [= <-].
      destruct (asked_stable _ _ _ _ _ Hb3 Ha2) as (log0 & Hg & Hr0). exists log0. split; [done|].
      rewrite Hr0. by rewrite Hu.
    + by intros e b2 _.
    + by intros b2 [[_ ?] _].
  - intros e b1 [[Hb1 _] Ha]. by eapply Hcache.
  - by intros b1 [[_ ?] _].
Qed.
Lemma answered_grows self username ext log log' :
  grows log log' → answered self username ext log → answered self username ext log'.
Proof. intros Hl (log0 & Hg & Hr). exists log0. split; [by etrans|done]. Qed.

(** What the verification of the subject answers. *)
Lemma pam_safe_verify_subject (Q : outcome Empty_set Z → pam → Prop) username sub log0 w :
  pam_since log0 w →
  (∀ w', pam_since log0 w' → Q (Ok PAM_AUTH_ERR) w') →
  (∀ w', pam_since log0 w' → speaks_for username sub (pam_net w') → Q (Ok PAM_SUCCESS) w') →
  pam_safe Q None (verify_subject_t username sub) w.
Proof.
  intros Hw Herr Hok. unfold verify_subject_t. case_bool_decide as Hsub.
  { eapply pam_safe_return; [exact Hw|]. intros w' Hw'. apply Hok; [done|by left]. }
  assert (∀ w', pam_since log0 w' → pam_safe Q None (Return (L:=module_lock) (Ok PAM_AUTH_ERR)) w')
    as Hdeny by (intros w' Hw'; by eapply pam_safe_return).
  eapply pam_safe_get_service; [exact Hw|]. intros [svc|] w1 Hw1 Hu; [|by apply Hdeny].
  eapply (pam_safe_service (λ r b, r ≠ Panic ∧
    ∀ u, r = Ok (Some u) → answered svc username (user_external_id u) (bk_net b))); [exact Hw1|..].
  - intros b Hb. apply rg_lookup_answered; [by apply Hu|done].
  - intros r b b' [Hp Ha] [_ Hn]. split; [done|]. intros u Hr. eapply answered_grows; [exact Hn|by apply Ha].
  - intros [[u|]|e|] w2 Hw2 [Hp Ha]; [|by apply Hdeny|by apply Hdeny|done].
    case_bool_decide as Hext; [|by apply Hdeny]. destruct Hw2 as [Hs2 Hg2].
    apply (pam_safe_return _ _ (pam_net w2)); [by split|]. intros w3 [Hw3 Hg3].
    apply Hok; [split; [done|by etrans]|]. right. exists svc. rewrite <-Hext.
    eapply answered_grows; [exact Hg3|]. by apply Ha.
Qed.

Context `{!WorldLaws}.

Lemma pam_safe_get_user Q (ok : string → thread module_lock pam Empty_set Z) err log0 w :
  pam_since log0 w →
  (∀ user w', pam_since log0 w' →
    (∃ log1, grows log1 (pam_net w') ∧ pam_get_user log1 = (PAM_SUCCESS, Some user)) →
    pam_safe Q None (ok user) w') →
  (∀ e w', pam_since log0 w' → pam_safe Q None (err e) w') →
  pam_safe Q None (ttry (tx (pam_on_net get_pam_user)) ok err) w.
Proof.
  intros Hw Hok Herr w1 Hw01. assert (pam_since log0 w1) as Hw1 by by eapply pam_moves_since.
  assert (pam_set_net (pam_net w1) w1 = w1) as Hid by by destruct w1.
  unfold pam_on_net, zoom.
  destruct (get_pam_user_cases (pam_net w1)) as [(user & -> & Hu)|(e & ->)]; cbn [fst snd]; rewrite Hid.
  - split; [apply pam_moves_refl|]. apply Hok; [done|]. by exists (pam_net w1).
  - split; [apply pam_moves_refl|]. by apply Herr.
Qed.

(** What the device code flow and the validation leave to the rest of a login. *)
Lemma pam_safe_device_flow Q client (ok : TokenResponse → thread module_lock pam Empty_set Z) err log0 w :
  pam_since log0 w →
  (∀ token w', pam_since log0 w' → pam_safe Q None (ok token) w') →
  (∀ e w', pam_since log0 w' → pam_safe Q None (err e) w') →
  (∀ w', pam_since log0 w' → clock_overflow client (pam_net w') → Q Panic w') →
  pam_safe Q None (ttry (pam_net_p (authenticate_device_flow_p client "openid" display)) ok err) w.
Proof.
  intros Hw Hok Herr Hpan. eapply tsafe_tlift.
  - apply (rg_pam_since log0 None (λ _, True)); [done|done|done|exact Hw|].
    apply rg_pam_net; [apply rg_device_flow|apply Hw].
  - intros [token|e|] w1 ([Hp _] & Hw1 & _); [by apply Hok|by apply Herr|].
    apply (pam_safe_return _ _ (pam_net w1)); [split; [apply Hw1|done]|]. intros w2 [Hw2 Hg2].
    apply Hpan; [split; [done|etrans; [apply Hw1|done]]|].
    destruct (Hp eq_refl) as (log1 & da & Hg & Hf & Hlate). exists log1, da.
    split; [by etrans|]. split; [done|]. apply grows_later in Hg2.
    etrans; [|apply Z.add_le_mono_r, Z.div_le_mono, Hg2; done]. done.
Qed.

Lemma pam_safe_validate Q client id_token (ok : IdTokenClaims → thread module_lock pam Empty_set Z) err log0 w :
  pam_since log0 w →
  (∀ claims log1 w', grows log0 log1 → pam_since log1 w' → validated client id_token log1 claims →
    pam_safe Q None (ok claims) w') →
  (∀ e w', pam_since log0 w' → pam_safe Q None (err e) w') →
  pam_safe Q None (ttry (tx (pam_on_net (validate_id_token client id_token))) ok err) w.
Proof.
  intros Hw Hok Herr w1 Hw01. assert (pam_since log0 w1) as Hw1 by by eapply pam_moves_since.
  unfold pam_on_net, zoom. pose proof (validate_id_token_cases client id_token (pam_net w1)) as Hval.
  destruct (validate_id_token _ _ _) as [r log2]. destruct Hval as (Hp & Hlog & Hv). cbn [fst snd].
  assert (grows (pam_net w1) log2) as Hg by (destruct Hlog as [-> | ->]; [done|by eexists]).
  assert (pam_outside w1 (pam_set_net log2 w1)) as Hm.
  { split; try done. by apply pam_statics_ok_same. }
  split; [by apply pam_guar_outside|]. destruct r as [claims|e|]; [| |done].
  - apply (Hok claims (pam_net w1)); [apply Hw1| |by apply Hv].
    split; [eapply pam_moves_sound; [exact Hm|apply Hw1]|done].
  - apply Herr. by eapply pam_moves_since.
Qed.

Lemma pam_safe_authenticate w : pam_sound w → pam_safe (λ r w, login_answered r (pam_net w)) None authenticate_t w.
Proof.
  intros Hw. assert (∀ z w', z = PAM_AUTH_ERR ∨ z = PAM_AUTHINFO_UNAVAIL → pam_sound w' →
    pam_safe (λ r w, login_answered r (pam_net w)) None (Return (L:=module_lock) (Ok z)) w') as Hdeny.
  { intros z w' Hz Hw'. apply (pam_safe_return _ _ (pam_net w')); [by split|]. intros w2 _.
    destruct Hz as [-> | ->]; [by left|by right; left]. }
  apply (pam_safe_get_user _ _ _ (pam_net w)); [by split| |intros e w1 [Hw1 _]; apply Hdeny; auto].
  intros user w1 [Hw1 _] (log1 & Hg1 & Huser).
  apply (pam_safe_get_oidc_client _ _ (pam_net w1)); [by split|].
  intros [client|] w2 Hw2 Hc; [|apply Hdeny; [auto|apply Hw2]].
  specialize (Hc client eq_refl).
  apply (pam_safe_device_flow _ _ _ _ (pam_net w1)); [done| |intros e w3 [Hw3 _]; apply Hdeny; auto|].
  2: { intros w3 _ Hover. right; right; left. split; [done|]. by exists client. }
  intros token w3 Hw3. destruct (tr_id_token token) as [raw|]; [|apply Hdeny; [auto|apply Hw3]].
  apply (pam_safe_validate _ _ _ _ _ (pam_net w1)); [done| |intros e w4 [Hw4 _]; apply Hdeny; auto].
  intros claims log3 w4 Hg3 Hw4 Hv. apply (pam_safe_verify_subject _ _ _ log3); [done|by left|].
  intros w5 Hw5 Hs. do 3 right. split; [done|]. exists user, client, raw, log3, claims.
  split_and!; [|done|apply Hw5|done|done]. exists log1. split; [by etrans|done].
Qed.

(** The account check answers one of four codes. *)
Definition account_answered (r : outcome Empty_set Z) : Prop :=
  ∃ z, r = Ok z ∧ z ∈ [PAM_SUCCESS; PAM_PERM_DENIED; PAM_AUTHINFO_UNAVAIL; PAM_AUTH_ERR].

Lemma pam_safe_acct_mgmt w : pam_sound w → pam_safe (λ r _, account_answered r) None acct_mgmt_t w.
Proof.
  intros Hw. assert (∀ z w', pam_sound w' →
    z ∈ [PAM_SUCCESS; PAM_PERM_DENIED; PAM_AUTHINFO_UNAVAIL; PAM_AUTH_ERR] →
    pam_safe (λ r _, account_answered r) None (Return (L:=module_lock) (Ok z)) w') as Hcode.
  { intros z w' Hw' Hz. apply (pam_safe_return _ _ (pam_net w')); [by split|]. intros w2 _. by exists z. }
  apply (pam_safe_get_user _ _ _ (pam_net w)); [by split| |intros e w1 [Hw1 _]; apply Hcode; by set_unfold; auto].
  intros user w1 [Hw1 _] _.
  apply (pam_safe_get_service _ _ (pam_net w1)); [by split|].
  intros [svc|] w2 Hw2 Hu; [|apply Hcode; [apply Hw2|by set_unfold; auto]].
  eapply (pam_safe_service (λ r _, r ≠ Panic)); [exact Hw2| |done|].
  - intros b Hb. eapply rg_mono; [apply keeps_check_user_active; [by apply Hu|done]|].
    intros r b' [_ Hf]. by intros ->.
  - intros [[]|e|] w3 [Hw3 _] Hp; [apply Hcode; by set_unfold; auto..|done].
Qed.

Lemma pam_info_returns {E} msg log : ∃ z new, pam_info (E:=E) msg log = (Ok z, log ++ new).
Proof.
  unfold pam_info. destruct (get_pam_conv log) as [has_fn|]; [|exists PAM_SUCCESS, []; by rewrite app_nil_r].
  destruct (has_nul msg); [exists PAM_SUCCESS, []; by rewrite app_nil_r|].
  destruct has_fn; [by eexists _, _|exists PAM_SUCCESS, []; by rewrite app_nil_r].
Qed.

Lemma pam_safe_chauthtok w :
  pam_sound w → pam_safe (λ r _, r = Ok PAM_AUTHTOK_ERR) None chauthtok_t w.
Proof.
  intros Hw. assert (∀ w', pam_safe (λ r _, r = Ok (E:=Empty_set) PAM_AUTHTOK_ERR) None
    (Return (L:=module_lock) (Ok PAM_AUTHTOK_ERR)) w') as Hcode by done.
  apply (pam_safe_get_oidc_client _ _ (pam_net w)); [by split|].
  intros [client|] w2 [Hw2 _] _; [|apply Hcode]. intros w3 Hw23.
  destruct (pam_info_returns (E:=Empty_set) ("Password changes are not supported via PAM for OIDC accounts." +:+
    newline +:+ "Please change your password at your identity provider:" +:+ newline +:+ "  " +:+
    ep_issuer (oc_endpoints client)) (pam_net w3)) as (z & new & Hrun).
  unfold pam_on_net, zoom. rewrite Hrun. cbn [fst snd]. split; [|apply Hcode].
  apply pam_guar_outside. split; try done; [by eexists|]. by apply pam_statics_ok_same.
Qed.
End pam_threads.
