(* ===== verification/Host.v ===== *)
(** * Host: the processes of a machine and their threads

    A machine has one configuration, one network, one clock and one cache file;
    every process that loads the modules has statics and locks of its own. Any
    number of threads of any processes make calls of both modules. Every
    schedule of such calls keeps the machine sound, and none of them blocks for
    ever. *)

From S2P Require Import Prelude Text Model Value Mapping Fs Http Sql Cache CacheFacts Scim ScimProps.
From S2P Require Import Config Service ServiceFacts Interleave InterleaveFacts InterleaveProps.
From S2P Require Import Threads ThreadsFacts Buffer Passwd GroupPack Nss NssProps NssLife.
From S2P Require Import Oidc OidcProps Pam PamProps Calls CallsSafe LoginsSafe.
From stdpp Require Import prelude strings list gmap functions relations.

(** ** The machine *)

(** The statics of the NSS module and of the PAM module in one process. *)
Record nss_statics := mk_nss_statics {
  sn_state : option (option NssState);
  sn_users : option (list User * nat);
  sn_groups : option (list Group * nat);
  sn_poisoned : nss_lock → bool;
}.
Record pam_statics := mk_pam_statics {
  sp_service : option (option Service);
  sp_client : option (option OidcClient);
}.

Record host := mk_host {
  h_fs : filesystem;
  h_net : net;
  h_db : db;
  h_nss : nat → nss_statics;
  h_pam : nat → pam_statics;
}.

(** The modules of the process [pid], with the world that they share. *)
Definition nss_of (pid : nat) (h : host) : nss :=
  let s := h_nss h pid in
  mk_nss (h_fs h) (h_net h) (h_db h) (sn_state s) (sn_users s) (sn_groups s) (sn_poisoned s).
Definition put_nss (pid : nat) (w : nss) (h : host) : host :=
  mk_host (nss_fs w) (nss_net w) (nss_db w)
    (<[pid := mk_nss_statics (nss_state w) (nss_users w) (nss_groups w) (nss_poisoned w)]> (h_nss h))
    (h_pam h).
Definition pam_of (pid : nat) (h : host) : pam :=
  let s := h_pam h pid in mk_pam (h_fs h) (h_net h) (h_db h) (sp_service s) (sp_client s).
Definition put_pam (pid : nat) (w : pam) (h : host) : host :=
  mk_host (pam_fs w) (pam_net w) (pam_db w) (h_nss h)
    (<[pid := mk_pam_statics (pam_service w) (pam_client w)]> (h_pam h)).

(** A machine just booted. *)
Definition fresh_host (fs : filesystem) (d : db) : host :=
  mk_host fs [] d (λ _, mk_nss_statics None None None (λ _, false)) (λ _, mk_pam_statics None None).

(** The calls that libc and libpam make, with what they pass. *)
Inductive request :=
  | Getpwnam (name : string) (buflen : nat) (cl : caller passwd)
  | Getpwuid (uid : Z) (buflen : nat) (cl : caller passwd)
  | Getgrnam (name : string) (buflen : nat) (cl : caller group_struct)
  | Getgrgid (gid : Z) (buflen : nat) (cl : caller group_struct)
  | Initgroups (user : string) (group : Z) (a : group_array)
  | Setpwent
  | Getpwent (buflen : nat) (cl : caller passwd)
  | Endpwent
  | Setgrent
  | Getgrent (buflen : nat) (cl : caller group_struct)
  | Endgrent
  | Authenticate (handle : PamHandle)
  | AcctMgmt (handle : PamHandle)
  | Chauthtok (handle : PamHandle).

Inductive reply :=
  | Status (s : NssStatus)
  | PasswdFilled (s : NssStatus) (cl : caller passwd)
  | GroupFilled (s : NssStatus) (cl : caller group_struct)
  | GidsAdded (s : NssStatus) (a : group_array)
  | PamCode (z : Z).

Abbreviation host_lock := (nat * module_lock)%type.
Abbreviation host_thread := (thread host_lock host undefined_behaviour reply).

Definition reports {E A} (f : A → reply) (r : outcome E A) (e : E → undefined_behaviour)
    : outcome undefined_behaviour reply :=
  match r with Ok a => Ok (f a) | Err x => Err (e x) | Panic => Panic end.

(** A call of a module, in the process [pid]. *)
Definition in_nss {A} (pid : nat) (f : A → reply)
    (p : thread module_lock nss undefined_behaviour A) : host_thread :=
  tembed (nss_of pid) (put_nss pid) (pair pid) (treport (λ r, reports f r id) p).
Definition in_pam (pid : nat) (p : thread module_lock pam Empty_set Z) : host_thread :=
  tembed (pam_of pid) (put_pam pid) (pair pid)
    (treport (λ r, reports PamCode r (Empty_set_rect (λ _, undefined_behaviour))) p).

Section host.
Context `{World} `{JsonParser} `{PercentEncoding} `{Sqlite} `{BuildProfile} `{Murmur3}.
Context `{Os} `{TomlParser} `{Env} `{SqliteFile} `{Jsonwebtoken}.

Definition call_of (c : nat * request) : host_thread :=
  let '(pid, req) := c in
  match req with
  | Getpwnam name buflen cl => in_nss pid (uncurry PasswdFilled) (getpwnam_t name buflen cl)
  | Getpwuid uid buflen cl => in_nss pid (uncurry PasswdFilled) (getpwuid_t uid buflen cl)
  | Getgrnam name buflen cl => in_nss pid (uncurry GroupFilled) (getgrnam_t name buflen cl)
  | Getgrgid gid buflen cl => in_nss pid (uncurry GroupFilled) (getgrgid_t gid buflen cl)
  | Initgroups user group a => in_nss pid (uncurry GidsAdded) (initgroups_t user group a)
  | Setpwent => in_nss pid Status setpwent_t
  | Getpwent buflen cl => in_nss pid (uncurry PasswdFilled) (getpwent_t buflen cl)
  | Endpwent => in_nss pid Status endpwent_t
  | Setgrent => in_nss pid Status setgrent_t
  | Getgrent buflen cl => in_nss pid (uncurry GroupFilled) (getgrent_t buflen cl)
  | Endgrent => in_nss pid Status endgrent_t
  | Authenticate handle => in_pam pid authenticate_t
  | AcctMgmt handle => in_pam pid acct_mgmt_t
  | Chauthtok handle => in_pam pid chauthtok_t
  end.

(** Calls about to start, each in a process and on a thread of its own. *)
Definition start (calls : list (nat * request)) (h : host)
    : tpool host_lock host undefined_behaviour reply := idle (call_of <$> calls) h.
End host.

(** ** Nothing blocks for ever *)

Section orderly.
Context `{World} `{JsonParser} `{PercentEncoding} `{Sqlite} `{BuildProfile} `{Murmur3}.
Context `{Os} `{TomlParser} `{Env} `{SqliteFile} `{Jsonwebtoken}.

Lemma orderly_with_mutex {E E' A B} l (poisoned : thread module_lock nss E' B) (p : prog nss E A)
    (k : outcome E A → thread module_lock nss E' B) :
  orderly None poisoned → (∀ r, orderly None (k r)) → orderly None (with_mutex l poisoned p k).
Proof.
  intros Hp Hk. assert (orderly (Some (NssMutex l)) (tlift p (λ r, Release (NssMutex l) (k r)))) as Hs.
  { apply orderly_tlift. intros r. by split. }
  split; [done|]. by intros [[]|e|]; [..|split|split].
Qed.

Lemma orderly_ttry {L S E E' A B} (p : prog S E A) (ok : A → thread L S E' B) err :
  (∀ a, orderly None (ok a)) → (∀ e, orderly None (err e)) → orderly None (ttry p ok err).
Proof. intros Hok Herr. apply orderly_tlift. by intros [a|e|]. Qed.

Lemma orderly_lookup {A C} (m : M C undefined_behaviour ()) (cl : C) lookup
    (fill : A → M C undefined_behaviour NssStatus) :
  orderly None (lookup_t m cl lookup fill).
Proof.
  apply orderly_get_or_init. intros [st|]; [|done]. apply orderly_with_mutex; [done|].
  by intros [[x|]|e|].
Qed.

Lemma orderly_initgroups user group a : orderly None (initgroups_t user group a).
Proof.
  unfold initgroups_t. destruct (negb _); [done|]. apply orderly_get_or_init. intros [st|]; [|done].
  apply orderly_with_mutex; [done|]. by intros [gids|e|].
Qed.

Lemma orderly_setent {R A} listing (convert : Service → list R → prog backend undefined_behaviour (list A))
    l set :
  orderly None (setent_t listing convert l set).
Proof.
  apply orderly_get_or_init. intros [st|]; [|done]. apply orderly_ttry; [intros found|done].
  apply orderly_with_mutex; [done|]. intros [entries|e|]; [|done..].
  by apply orderly_with_mutex.
Qed.

Lemma orderly_getent {A R} l get set (fill : A → M (caller R) undefined_behaviour NssStatus) cl :
  orderly None (getent_t l get set fill cl).
Proof. by apply orderly_with_mutex. Qed.

Lemma orderly_verify_subject username sub : orderly None (verify_subject_t username sub).
Proof.
  unfold verify_subject_t. case_bool_decide; [done|]. apply orderly_get_or_init.
  intros [svc|]; [|done]. apply orderly_locked. intros [[u|]|e|]; [by case_bool_decide|done..].
Qed.

Lemma orderly_authenticate (handle : PamHandle) : orderly None authenticate_t.
Proof.
  apply orderly_ttry; [intros username|done]. apply orderly_get_or_init. intros [client|]; [|done].
  apply orderly_ttry; [intros token|done]. destruct (tr_id_token token); [|done].
  apply orderly_ttry; [intros claims|done]. apply orderly_verify_subject.
Qed.
Lemma orderly_acct_mgmt (handle : PamHandle) : orderly None acct_mgmt_t.
Proof.
  apply orderly_ttry; [intros username|done]. apply orderly_get_or_init. intros [svc|]; [|done].
  apply orderly_locked. by intros [[]|e|].
Qed.
Lemma orderly_chauthtok (handle : PamHandle) : orderly None chauthtok_t.
Proof. apply orderly_get_or_init. intros [client|]; [|done]. by apply orderly_ttry. Qed.

Lemma orderly_in_nss {A} pid (f : A → reply) p : orderly None p → orderly None (in_nss pid f p).
Proof. intros Hp. by apply (orderly_tembed None), orderly_treport. Qed.
Lemma orderly_in_pam pid p : orderly None p → orderly None (in_pam pid p).
Proof. intros Hp. by apply (orderly_tembed None), orderly_treport. Qed.

Lemma orderly_call c : orderly None (call_of c).
Proof.
  destruct c as [pid []]; (apply orderly_in_nss || apply orderly_in_pam).
  - unfold getpwnam_t. destruct (negb _); [done|apply orderly_lookup].
  - apply orderly_lookup.
  - unfold getgrnam_t. destruct (negb _); [done|apply orderly_lookup].
  - apply orderly_lookup.
  - apply orderly_initgroups.
  - apply orderly_setent.
  - apply orderly_getent.
  - by apply orderly_with_mutex.
  - apply orderly_setent.
  - apply orderly_getent.
  - by apply orderly_with_mutex.
  - apply orderly_authenticate.
  - apply orderly_acct_mgmt.
  - apply orderly_chauthtok.
Qed.

Lemma start_orderly calls h w :
  rtc tpool_step (start calls h) w → ∃ hs, pool_orderly hs w.
Proof.
  apply pool_orderly_reachable with (hs := replicate (length (call_of <$> calls)) None).
  apply pool_orderly_idle. apply Forall_fmap, Forall_forall. intros c _. apply orderly_call.
Qed.

(** A call takes the locks of its own process only. *)
Lemma tlocks_tembed {T E A} pid (get : host → T) set (p : thread module_lock T E A) :
  tlocks (λ l : host_lock, l.1 = pid) (tembed get set (pair pid) p).
Proof. induction p as [r|F X t k IH|l k IH|l k IH]; simpl; [done|intros r; apply IH|by split|done]. Qed.

Lemma start_local calls h w :
  rtc tpool_step (start calls h) w → pool_local (λ i l, calls.*1 !! i = Some l.1) w.
Proof.
  assert (pool_local (λ i l, calls.*1 !! i = Some l.1) (start calls h)) as Hstart.
  { split; [|done]. intros i p (c & -> & Hi)%list_lookup_fmap_Some. rewrite list_lookup_fmap, Hi.
    assert (∀ q : host_thread, tlocks (λ l, l.1 = c.1) q → tlocks (λ l, Some c.1 = Some l.1) q) as Hmono.
    { induction q as [r|F X t k IH|l k IH|l k IH]; simpl; [done|auto|intros [-> ?]; auto|done]. }
    apply Hmono. destruct c as [pid []]; apply tlocks_tembed. }
  intros Hr. induction Hr; eauto using pool_local_step.
Qed.

(** The calls of processes that have not been killed. *)
Definition running (calls : list (nat * request)) (killed : gset nat) (i : nat) : Prop :=
  ∃ c, calls !! i = Some c ∧ c.1 ∉ killed.
#[export] Instance running_dec calls killed i : Decision (running calls killed i).
Proof.
  destruct (calls !! i) as [c|] eqn:Hc; [destruct (decide (c.1 ∈ killed))|]; [right|left|right].
  - intros (c' & Hc' & Hk). rewrite Hc in Hc'. injection Hc' as <-. done.
  - by exists c.
  - intros (c' & Hc' & _). by rewrite Hc in Hc'.
Defined.

(** C6: the locks of the two modules never make a call wait for ever: wherever
    the threads of a machine have got to, no schedule goes on for ever, a thread
    can move unless every call has returned, and then no lock is held; so there
    is a schedule in which every call returns. Even if any processes are killed
    there, so that their threads never move again, the calls of all the others
    can return. *)
Theorem calls_never_deadlock calls h w :
  rtc tpool_step (start calls h) w →
  sn tpool_step w ∧
  ((∀ w', ¬ tpool_step w w') → Forall returned (tp_threads w) ∧ tp_owners w = ∅) ∧
  (∃ w', rtc tpool_step w w' ∧ Forall returned (tp_threads w') ∧ tp_owners w' = ∅) ∧
  ∀ killed : gset nat, ∃ order,
    Forall (running calls killed) order ∧
    ∀ i, running calls killed i → ∃ r, tp_threads (tschedule order w) !! i = Some (Return r).
Proof.
  intros Hr. destruct (start_orderly calls h w Hr) as [hs Hw]. split_and!.
  - apply tpool_sn.
  - intros Hno. destruct (pool_orderly_progress hs w Hw) as [Hret|[w' Hw']]; [|by destruct (Hno w')].
    split; [done|]. by eapply pool_orderly_returned.
  - by eapply pool_orderly_completes.
  - intros killed. destruct (pool_isolated _ (running calls killed) hs w Hw
      (start_local calls h w Hr)) as (order & Ho & Hdone).
    { intros i j l Hi Hj (c & Hc & Hk). rewrite list_lookup_fmap, Hc in Hi. injection Hi as Hi.
      apply list_lookup_fmap_Some in Hj as (c' & Hj & Hc'). exists c'. split; [done|]. congruence. }
    exists order. split; [done|]. intros i Hi. apply Hdone; [done|].
    rewrite <-(rtc_length _ _ Hr). unfold start, idle. cbn [tp_threads]. rewrite length_fmap.
    destruct Hi as (c & Hi & _). by eapply lookup_lt_Some.
Qed.
End orderly.

(** ** Every schedule keeps the machine sound *)

(** The cache satisfies its schema, a configuration on the machine's disk has usable
    ranges and its cache in a file, and the statics of every process are as the
    code leaves them. *)
Definition host_sound `{Sqlite} `{Os} `{TomlParser} `{Env} (h : host) : Prop :=
  (db_wf (h_db h) ∧ machine_files (h_fs h)) ∧ ∀ pid, statics_ok (nss_of pid h) ∧ pam_statics_ok (pam_of pid h).

(** Of the locks that a thread holds, those of the process [pid]. *)
Definition lock_of (pid : nat) (h : option host_lock) : option module_lock :=
  match h with Some (p, l) => if decide (p = pid) then Some l else None | None => None end.

Definition host_rely `{Sqlite} `{Os} `{TomlParser} `{Env} (l : option host_lock) (h h' : host) : Prop :=
  ∀ pid, nss_rely (lock_of pid l) (nss_of pid h) (nss_of pid h') ∧
    pam_rely (lock_of pid l) (pam_of pid h) (pam_of pid h').
Definition host_guar `{Sqlite} `{Os} `{TomlParser} `{Env} (l : option host_lock) (h h' : host) : Prop :=
  ∀ pid, nss_guar (lock_of pid l) (nss_of pid h) (nss_of pid h') ∧
    pam_guar (lock_of pid l) (pam_of pid h) (pam_of pid h').

Section host_moves.
Context `{Sqlite} `{Os} `{TomlParser} `{Env}.

#[export] Instance host_rely_refl l : Reflexive (host_rely l).
Proof. intros h pid. by split. Qed.
#[export] Instance host_rely_trans l : Transitive (host_rely l).
Proof. intros h1 h2 h3 H12 H23 pid. destruct (H12 pid), (H23 pid). split; by etrans. Qed.

Lemma lock_of_pair pid (l : option module_lock) : lock_of pid (pair pid <$> l) = l.
Proof. destruct l as [l|]; [|done]. simpl. by rewrite decide_True. Qed.
Lemma lock_of_some pid l m : lock_of pid l = Some m → l = Some (pid, m).
Proof. destruct l as [[p l]|]; [|done]. simpl. case_decide; [|done]. by intros [= ->]; subst. Qed.

Lemma host_compatible l1 l2 h h' :
  (∀ l, l1 = Some l → l2 ≠ Some l) → host_guar l1 h h' → host_rely l2 h h'.
Proof.
  intros Hne Hg pid. destruct (Hg pid) as [Hn Hp].
  assert (∀ m, lock_of pid l2 = Some m → lock_of pid l1 ≠ Some m) as Hdis.
  { intros m Hm Hm1. apply lock_of_some in Hm, Hm1. by apply (Hne _ Hm1). }
  split; [by eapply nss_moves_mono, Hn|by eapply pam_moves_mono, Hp].
Qed.

Lemma nss_of_put pid w h : nss_of pid (put_nss pid w h) = w.
Proof. unfold nss_of, put_nss. cbn. rewrite fn_lookup_insert. by destruct w. Qed.
Lemma pam_of_put pid w h : pam_of pid (put_pam pid w h) = w.
Proof. unfold pam_of, put_pam. cbn. rewrite fn_lookup_insert. by destruct w. Qed.

(** What a thread does to its module leaves the others' statics alone. *)
Lemma put_nss_guar pid l h w :
  nss_guar l (nss_of pid h) w → host_guar (pair pid <$> l) h (put_nss pid w h).
Proof.
  intros Hw pid'. split; [destruct (decide (pid' = pid)) as [->|Hne]|].
  - by rewrite nss_of_put, lock_of_pair.
  - assert (h_nss (put_nss pid w h) pid' = h_nss h pid') as Hs by by apply fn_lookup_insert_ne.
    unfold nss_of in *. rewrite Hs. destruct Hw. split; try done. by apply statics_ok_same.
  - destruct Hw. split; try done. by apply pam_statics_ok_same.
Qed.
Lemma put_pam_guar pid l h w :
  pam_guar l (pam_of pid h) w → host_guar (pair pid <$> l) h (put_pam pid w h).
Proof.
  intros Hw pid'. split; [|destruct (decide (pid' = pid)) as [->|Hne]].
  - destruct Hw. split; try done. by apply statics_ok_same.
  - by rewrite pam_of_put, lock_of_pair.
  - assert (h_pam (put_pam pid w h) pid' = h_pam h pid') as Hs by by apply fn_lookup_insert_ne.
    unfold pam_of in *. rewrite Hs. destruct Hw. split; try done. by apply pam_statics_ok_same.
Qed.

Lemma host_guar_sound l h h' : host_guar l h h' → host_sound h → host_sound h'.
Proof.
  intros Hg [[Hd Hf] Hs]. destruct (proj1 (Hg 0)) as [Hmd _ Hmc _ _ _ _ _]. split; [split|].
  - by apply Hmd.
  - by eapply machine_files_same.
  - intros pid. destruct (Hg pid) as [Hn Hp]. split; [by apply (moves_statics _ _ _ Hn), Hs|].
    by apply (pmoves_statics _ _ _ Hp), Hs.
Qed.
End host_moves.

(** What libc and libpam have to pass. *)
Definition request_ok (c : nat * request) : Prop :=
  match c.2 with
  | Getpwnam _ buflen cl | Getpwuid _ buflen cl | Getpwent buflen cl => passwd_caller_ok (buflen, cl)
  | Getgrnam _ buflen cl | Getgrgid _ buflen cl | Getgrent buflen cl => group_caller_ok (buflen, cl)
  | Initgroups _ _ a => array_ok a
  | _ => True
  end.

Definition pam_reply (r : outcome Empty_set Z) : outcome undefined_behaviour reply :=
  reports PamCode r (Empty_set_rect (λ _, undefined_behaviour)).

(** What a call has returned, seen from the machine as it is now. *)
Definition replied `{World} `{JsonParser} `{JwtTheory} `{Os} `{TomlParser} `{Env} (c : nat * request)
    (r : outcome undefined_behaviour reply) (h : host) : Prop :=
  match c.2 with
  | Getpwnam _ buflen cl | Getpwuid _ buflen cl | Getpwent buflen cl =>
      ∃ s cl', r = Ok (PasswdFilled s cl') ∧ disciplined buflen cl cl' (Ok s)
  | Getgrnam _ buflen cl | Getgrgid _ buflen cl | Getgrent buflen cl =>
      ∃ s cl', r = Ok (GroupFilled s cl') ∧ disciplined buflen cl cl' (Ok s)
  | Initgroups _ group a =>
      ∃ s a', r = Ok (GidsAdded s a') ∧
        ((∃ gids, groups_added group gids a (Ok s) a') ∨
         (s = NotFound ∨ s = Unavail) ∧ a' = (ga_set_errno 0 a).2)
  | Setpwent | Endpwent | Setgrent | Endgrent => ∃ s, r = Ok (Status s)
  | Authenticate handle => ∃ r0, r = pam_reply r0 ∧ login_answered r0 (h_net h)
  | AcctMgmt handle => ∃ r0, r = pam_reply r0 ∧ account_answered r0
  | Chauthtok handle => r = Ok (PamCode PAM_AUTHTOK_ERR)
  end.

Section soundness.
Context `{World} `{JsonParser} `{PercentEncoding} `{SqliteLaws} `{BuildProfile} `{Murmur3Laws}.
Context `{Os} `{TomlParser} `{Env} `{SqliteFile} `{!SqliteFileLaws} {Hadds : SqliteFileAdds}.
Context `{JwtLaws} `{!WorldLaws}.

Abbreviation host_safe := (tsafe host_rely host_guar).

Lemma host_safe_nss {A} (Qn : outcome undefined_behaviour A → nss → Prop)
    (Q : outcome undefined_behaviour reply → host → Prop) pid f p h :
  nss_safe Qn None p (nss_of pid h) → (∀ r h', Qn r (nss_of pid h') → Q (reports f r id) h') →
  host_safe Q None (in_nss pid f p) h.
Proof.
  intros Hp HQ. unfold in_nss.
  apply (tsafe_mono (λ r h', ∃ r0, r = reports f r0 id ∧ Qn r0 (nss_of pid h'))).
  2: { intros r h' (r0 & -> & Hr). by apply HQ. }
  apply (tsafe_tembed nss_rely nss_guar host_rely host_guar (nss_of pid) (put_nss pid) (pair pid)
    (λ r w, ∃ r0, r = reports f r0 id ∧ Qn r0 w) None).
  - intros w h'. apply nss_of_put.
  - intros l h1 h2 Hh. by destruct (Hh pid) as [Hn _]; rewrite lock_of_pair in Hn.
  - intros l h' w. apply put_nss_guar.
  - apply tsafe_treport. eapply tsafe_mono; [exact Hp|]. intros r w Hr. by exists r.
Qed.

Lemma host_safe_pam (Qn : outcome Empty_set Z → pam → Prop)
    (Q : outcome undefined_behaviour reply → host → Prop) pid p h :
  pam_safe Qn None p (pam_of pid h) → (∀ r h', Qn r (pam_of pid h') → Q (pam_reply r) h') →
  host_safe Q None (in_pam pid p) h.
Proof.
  intros Hp HQ. unfold in_pam.
  apply (tsafe_mono (λ r h', ∃ r0, r = pam_reply r0 ∧ Qn r0 (pam_of pid h'))).
  2: { intros r h' (r0 & -> & Hr). by apply HQ. }
  apply (tsafe_tembed pam_rely pam_guar host_rely host_guar (pam_of pid) (put_pam pid) (pair pid)
    (λ r w, ∃ r0, r = pam_reply r0 ∧ Qn r0 w) None).
  - intros w h'. apply pam_of_put.
  - intros l h1 h2 Hh. by destruct (Hh pid) as [_ Hn]; rewrite lock_of_pair in Hn.
  - intros l h' w. apply put_pam_guar.
  - apply tsafe_treport. eapply tsafe_mono; [exact Hp|]. intros r w Hr. by exists r.
Qed.

Lemma host_safe_call c h : host_sound h → request_ok c → host_safe (replied c) None (call_of c) h.
Proof.
  intros [Hd Hs] Hc. destruct c as [pid req]. destruct (Hs pid) as [Hn Hp].
  assert (nss_sound (nss_of pid h)) as Hnss by by split.
  assert (pam_sound (pam_of pid h)) as Hpam by by split.
  assert (∀ R (mk : NssStatus → R → reply) (p : thread module_lock nss undefined_behaviour (NssStatus * R))
    (P : NssStatus → R → Prop),
    nss_safe (λ r _, ∃ s x, r = Ok (s, x) ∧ P s x) None p (nss_of pid h) →
    host_safe (λ r _, ∃ s x, r = Ok (mk s x) ∧ P s x) None (in_nss pid (uncurry mk) p) h) as Hfill.
  { intros R mk p P Hsafe. eapply host_safe_nss; [exact Hsafe|].
    intros r h' (s & x & -> & Hx). by exists s, x. }
  assert (∀ p, nss_safe (λ r _, ∃ s, r = Ok s) None p (nss_of pid h) →
    host_safe (λ r _, ∃ s, r = Ok (Status s)) None (in_nss pid Status p) h) as Hstatus.
  { intros p Hsafe. eapply host_safe_nss; [exact Hsafe|]. intros r h' (s & ->). by exists s. }
  destruct req as [name n cl|uid n cl|name n cl|gid n cl|user group a| |n cl| | |n cl| |ph|ph|ph];
    cbn [call_of request_ok snd] in *; unfold replied; cbn [snd].
  - by apply Hfill, nss_safe_getpwnam.
  - by apply Hfill, nss_safe_getpwuid.
  - by apply Hfill, nss_safe_getgrnam.
  - by apply Hfill, nss_safe_getgrgid.
  - by apply Hfill, nss_safe_initgroups.
  - by apply Hstatus, nss_safe_setpwent.
  - by apply Hfill, nss_safe_getpwent.
  - by apply Hstatus, nss_safe_endpwent.
  - by apply Hstatus, nss_safe_setgrent.
  - by apply Hfill, nss_safe_getgrent.
  - by apply Hstatus, nss_safe_endgrent.
  - eapply host_safe_pam; [by apply pam_safe_authenticate|]. intros r h' Hr. by exists r.
  - eapply host_safe_pam; [by apply pam_safe_acct_mgmt|]. intros r h' Hr. by exists r.
  - eapply host_safe_pam; [by apply pam_safe_chauthtok|]. by intros r h' ->.
Qed.

Lemma start_safe calls h w :
  host_sound h → Forall request_ok calls → rtc tpool_step (start calls h) w →
  (∃ hs, pool_tsafe host_rely host_guar (λ i r h', ∀ c, calls !! i = Some c → replied c r h') hs w) ∧
  rtc (λ h h', ∃ l, host_guar l h h') h (tp_state w).
Proof.
  intros Hh Hc Hr. rewrite Forall_lookup in Hc.
  assert (pool_tsafe host_rely host_guar (λ i r h', ∀ c, calls !! i = Some c → replied c r h')
    (replicate (length (call_of <$> calls)) None) (start calls h)) as Hstart.
  { apply pool_tsafe_idle. intros i p Hi. apply list_lookup_fmap_Some in Hi as (c & -> & Hi).
    eapply tsafe_mono; [apply host_safe_call; [done|by eapply Hc]|]. intros r h' Hrep c' Hc'.
    by simplify_eq. }
  destruct (pool_tsafe_reachable host_rely host_guar _ host_compatible _ _ _ Hstart Hr)
    as (hs & Hw & Hg). split; [by exists hs|done].
Qed.

(** What every step of every thread keeps of the machine. *)
Definition host_keeps (h h' : host) : Prop :=
  (host_sound h → host_sound h') ∧ grows (h_net h) (h_net h') ∧
  ∀ pid, (∀ st, sn_state (h_nss h pid) = Some st → sn_state (h_nss h' pid) = Some st) ∧
    (∀ s, sp_service (h_pam h pid) = Some s → sp_service (h_pam h' pid) = Some s) ∧
    (∀ c, sp_client (h_pam h pid) = Some c → sp_client (h_pam h' pid) = Some c).

Lemma host_guar_keeps l h h' : host_guar l h h' → host_keeps h h'.
Proof.
  intros Hg. split_and!; [by apply host_guar_sound with l|apply (moves_net _ _ _ (proj1 (Hg 0)))|].
  intros pid. destruct (Hg pid) as [Hn Hp].
  split_and!; [apply (moves_once _ _ _ Hn)|apply (pmoves_service_once _ _ _ Hp)|
    apply (pmoves_client_once _ _ _ Hp)].
Qed.

Lemma steps_keep h h' : rtc (λ h h', ∃ l, host_guar l h h') h h' → host_keeps h h'.
Proof.
  induction 1 as [h|h1 h2 h3 [l Hl] _ (IHs & IHn & IHo)]; [done|].
  destruct (host_guar_keeps l h1 h2 Hl) as (Hs & Hn & Ho).
  split_and!; [auto|by etrans|]. intros pid. destruct (Ho pid) as (? & ? & ?), (IHo pid) as (? & ? & ?).
  split_and!; auto.
Qed.

(** C3: on a machine whose configuration has usable id ranges and names a file for
    the cache, where opening the cache changes no file that is there and nothing
    but the modules writes the configuration or the cache: whatever calls of the
    NSS and the PAM module any threads of any processes make at the same time,
    with memory that a caller may pass, and however their steps are scheduled,
    the cache keeps its schema, and every process its statics as the code leaves
    them (a usable configuration, enumerations within their ends, a discovered
    client, no poisoned mutex); a static that is initialised is never replaced; and every
    call that has returned has left its caller's memory as one call alone may and
    did not panic, but for a login whose device code expires beyond the clock's
    range. A login that succeeded had a token, signed and valid for a discovered
    client, with a subject that is the user's name or the id SCIM gives that name,
    if SCIM knew it when it was asked. *)
Theorem host_stays_sound calls h w :
  host_sound h → Forall request_ok calls → rtc tpool_step (start calls h) w →
  host_sound (tp_state w) ∧ host_keeps h (tp_state w) ∧
  ∀ i c r, calls !! i = Some c → tp_threads w !! i = Some (Return r) → replied c r (tp_state w).
Proof.
  intros Hh Hc Hr. destruct (start_safe calls h w Hh Hc Hr) as [[hs Hw] Hg].
  pose proof (steps_keep _ _ Hg) as Hk. split_and!; [by apply Hk|done|].
  intros i c r Hi Hret. destruct (pool_tsafe_lookup _ _ _ _ _ _ _ Hw Hret) as (l & _ & _ & Hq).
  by apply Hq.
Qed.
End soundness.
