(* ===== verification/HostProps.v ===== *)
(** * HostProps: threads of one process

    Threads that enumerate at the same time share the entries out, each to one of
    them; and a thread that waits for SCIM in a lookup makes the others wait too.
    Then the witnesses for [Host], on a machine with the mock server. *)

From S2P Require Import Prelude Text Model Value Mapping Fs Http Sql Cache CacheFacts MockIdp.
From S2P Require Import Scim ScimProps Config Service ServiceFacts.
From S2P Require Import Interleave InterleaveFacts InterleaveProps Threads ThreadsFacts.
From S2P Require Import Buffer Passwd GroupPack Nss NssProps NssLife Oidc OidcProps Pam PamProps.
From S2P Require Import Calls CallsAlone CallsSafe LoginsSafe Host.
From stdpp Require Import prelude strings list gmap relations.

(** ** Enumerating at the same time *)

Section enumerate.
Context {A R : Type} (l : nss_lock) (get : nss → option (list A * nat)).
Context (set : option (list A * nat) → nss → nss).
Context (fill : nat → A → M (caller R) undefined_behaviour NssStatus).
Variable calls : list (nat * caller R).

Definition getent_threads : list (thread module_lock nss undefined_behaviour (NssStatus * caller R)) :=
  (λ c, getent_t l get set (fill c.1) c.2) <$> calls.

Lemma getents_snoc (step : nat → M (call (caller R)) undefined_behaviour NssStatus) cs n cl w :
  getents step (cs ++ [(n, cl)]) w =
    let '(rs, w1) := getents step cs w in
    let '(r, c) := step n (mk_call w1 cl) in (rs ++ [(r, call_args c)], call_nss c).
Proof.
  revert w. induction cs as [|[n' cl'] cs IH]; intros w; cbn [getents app].
  - by destruct (step n (mk_call w cl)).
  - destruct (step n' _) as [r c]. rewrite IH. destruct (getents step cs _) as [rs w1].
    by destruct (step n _) as [r2 c2].
Qed.

(** The result of a thread and that of its call. *)
Definition same_result (r : outcome undefined_behaviour (NssStatus * caller R))
    (x : outcome undefined_behaviour NssStatus * caller R) : Prop :=
  match x.1 with Ok s => r = Ok (s, x.2) | Err e => r = Err e | Panic => r = Panic end.

Lemma serial_getents w tr w' :
  serial getent_threads w tr w' →
  ∃ cs rs, Forall2 (λ ir c, calls !! ir.1 = Some c) tr cs ∧
    Forall2 (λ ir x, same_result ir.2 x) tr rs ∧
    getents (λ n, getent_r l get set (fill n)) cs w = (rs, w').
Proof.
  induction 1 as [|tr w1 i p r w2 _ (cs & rs & Hcs & Hrs & Hrun) Hi Hp].
  { exists [], []. split_and!; [constructor|constructor|done]. }
  apply list_lookup_fmap_Some in Hi as ([n cl] & -> & Hi). cbn [fst snd] in Hp.
  rewrite (trun_getent l get set (fill n) cl w1) in Hp. unfold called in Hp.
  destruct (getent_r l get set (fill n) (mk_call w1 cl)) as [s c] eqn:Hs.
  exists (cs ++ [(n, cl)]), (rs ++ [(s, call_args c)]). split_and!.
  - apply Forall2_app; [done|]. by constructor.
  - apply Forall2_app; [done|]. constructor; [|constructor]. unfold same_result. cbn.
    by destruct s; injection Hp as <- _.
  - rewrite getents_snoc, Hrun, Hs. f_equal. by destruct s; injection Hp as _ <-.
Qed.

Lemma getent_critical : Forall (critical (NssMutex l)) getent_threads.
Proof.
  apply Forall_fmap, Forall_forall. intros [n cl] _. split; [done|].
  assert (∀ p : prog nss undefined_behaviour (NssStatus * caller R),
    in_section (NssMutex l) (tlift p (λ r, Release (NssMutex l) (Return (E:=undefined_behaviour) r)))) as Hp.
  { intros p. by apply in_section_tlift. }
  by intros [[]|e|].
Qed.
End enumerate.

(** The threads returned, in the order [order], the results [rs]. *)
Definition returned_in {L S R} `{Countable L} (w : tpool L S undefined_behaviour (NssStatus * caller R))
    (order : list nat) (rs : list (outcome undefined_behaviour NssStatus * caller R)) : Prop :=
  Forall2 (λ i x, ∃ s, x.1 = Ok s ∧ tp_threads w !! i = Some (Return (Ok (s, x.2)))) order rs.

(** The threads together are the calls of one thread, in some order. *)
Lemma getent_threads_deliver {A R} l (get : nss → option (list A * nat)) set
    (fill : nat → A → M (caller R) undefined_behaviour NssStatus) reads
    (caller_ok : nat * caller R → Prop) calls w entries idx w' :
  (∀ cs w, Forall caller_ok cs → nss_poisoned w l = false → get w = Some (entries, idx) →
    let '(rs, w') := getents (λ n, getent_r l get set (fill n)) cs w in
    delivered reads entries idx rs ∧ get w' = Some (entries, idx + length (filter succeeded rs))) →
  Forall caller_ok calls → nss_poisoned w l = false → get w = Some (entries, idx) →
  rtc tpool_step (idle (getent_threads l get set fill calls) w) w' → Forall returned (tp_threads w') →
  ∃ order rs, (order ≡ₚ seq 0 (length calls)) ∧ returned_in w' order rs ∧
    delivered reads entries idx rs ∧
    get (tp_state w') = Some (entries, idx + length (filter succeeded rs)).
Proof.
  intros Hdeliver Hok Hpo Hst Hr Hret.
  destruct (critical_sections_serialise (NssMutex l) _ (getent_critical l get set fill calls) w w' Hr Hret)
    as (tr & Htr & Hperm & Hres).
  destruct (serial_getents l get set fill calls w tr (tp_state w') Htr) as (cs & rs & Hcs & Hrs & Hrun).
  assert (Forall caller_ok cs) as Hcok.
  { clear -Hcs Hok. rewrite Forall_lookup in Hok. induction Hcs as [|ir c tr cs Hc _ IH]; constructor; eauto. }
  specialize (Hdeliver cs w Hcok Hpo Hst). rewrite Hrun in Hdeliver. destruct Hdeliver as [Hd Hg].
  exists tr.*1, rs. split_and!; [|clear Hcs Hrun Hperm Htr|done|done].
  { rewrite Hperm. unfold getent_threads. by rewrite length_fmap. }
  assert (Forall (λ x, ∃ s, x.1 = Ok s) rs) as Hall.
  { eapply Forall_impl; [apply Hd|]. intros x [?|[[? _]|[? _]]]; by eexists. }
  clear Hd Hg. revert Hres Hall. unfold returned_in.
  induction Hrs as [|[i r] x tr rs Hx _ IH]; intros Hres Hall; [constructor|].
  apply Forall_cons in Hall as [[s Hs] Hall]. constructor.
  - exists s. split; [done|]. unfold same_result in Hx. rewrite Hs in Hx. cbn in Hx. rewrite <-Hx.
    apply Hres. by left.
  - apply IH; [|done]. intros j r' Hj. apply Hres. by right.
Qed.

(** C8: threads that call [getpwent_r] (or [getgrent_r]) of one process at the
    same time share out the entries that are left: put in the order in which the
    threads held the mutex, their calls delivered the next entries, each entry to
    exactly one of them and none left out; a call that lacked space delivered
    nothing, and a call was told that there are no more only after the last. The
    enumeration goes on behind the entries that were delivered. *)
Theorem concurrent_enumeration_delivers_once w pcalls gcalls us i gs j
    (w1 : tpool module_lock nss undefined_behaviour (NssStatus * caller passwd))
    (w2 : tpool module_lock nss undefined_behaviour (NssStatus * caller group_struct)) :
  (∀ l, nss_poisoned w l = false) → nss_users w = Some (us, i) → nss_groups w = Some (gs, j) →
  Forall passwd_caller_ok pcalls → Forall group_caller_ok gcalls →
  rtc tpool_step (idle ((λ c, getpwent_t c.1 c.2) <$> pcalls) w) w1 → Forall returned (tp_threads w1) →
  rtc tpool_step (idle ((λ c, getgrent_t c.1 c.2) <$> gcalls) w) w2 → Forall returned (tp_threads w2) →
  (∃ order rs, (order ≡ₚ seq 0 (length pcalls)) ∧ returned_in w1 order rs ∧
    delivered (λ u b p, passwd_reads b p u) us i rs ∧
    nss_users (tp_state w1) = Some (us, i + length (filter succeeded rs))) ∧
  (∃ order rs, (order ≡ₚ seq 0 (length gcalls)) ∧ returned_in w2 order rs ∧
    delivered (λ g b s, group_reads b s g) gs j rs ∧
    nss_groups (tp_state w2) = Some (gs, j + length (filter succeeded rs))).
Proof.
  intros Hw Hu Hg Hpc Hgc Hr1 Hret1 Hr2 Hret2. split.
  - eapply (getent_threads_deliver UserEnumLock nss_users set_users (λ n u, fill_passwd_buf u n));
      [|exact Hpc|apply Hw|exact Hu|exact Hr1|done].
    intros cs w0 Hcs Hpo Hst. exact (getpwent_deliver cs w0 us i Hcs Hpo Hst).
  - eapply (getent_threads_deliver GroupEnumLock nss_groups set_groups (λ n g, fill_group_buf g n));
      [|exact Hgc|apply Hw|exact Hg|exact Hr2|done].
    intros cs w0 Hcs Hpo Hst. exact (getgrent_deliver cs w0 gs j Hcs Hpo Hst).
Qed.

(** ** Waiting for each other *)

Section waiting.
Context `{World} `{JsonParser} `{PercentEncoding} `{Sqlite} `{BuildProfile} `{Murmur3}.
Context `{Os} `{TomlParser} `{Env} `{SqliteFile}.

(** What is left of a lookup by name that has the mutex, and of one by uid that
    wants it. *)
Definition asking name buflen cl (st : NssState) : thread module_lock nss undefined_behaviour (NssStatus * caller passwd) :=
  tlift (backend_p (lookup_user_by_name_p (ns_service st) name)) (λ r, Release (NssMutex ServiceLock)
    match r with
    | Ok (Some user) => fill_t cl (fill_passwd_buf user buflen)
    | Ok None => return_t (set_errno 0) cl NotFound
    | Err _ => return_t (set_errno 0) cl Unavail
    | Panic => Return Panic
    end).
Definition waiting uid buflen cl (st : NssState) : thread module_lock nss undefined_behaviour (NssStatus * caller passwd) :=
  with_mutex ServiceLock (return_t (set_errno 0) cl Unavail)
    (backend_p (lookup_user_by_uid_p (ns_service st) uid)) (λ r,
    match r with
    | Ok (Some user) => fill_t cl (fill_passwd_buf user buflen)
    | Ok None => return_t (set_errno 0) cl NotFound
    | Err _ => return_t (set_errno 0) cl Unavail
    | Panic => Return Panic
    end).

(** C23: the mutex of the service is held while a lookup by name waits for SCIM.
    A thread that looks a user up by name can get to where the only step that any
    thread of the process can make is its request, while another that looks one
    up by uid, which asks nobody, waits for the mutex. *)
Theorem lookup_waits_for_anothers_request w st name n cl uid n' cl' :
  nss_state w = Some (Some st) → nss_poisoned w ServiceLock = false →
  valid_utf8 name = true → String.length name ≤ MAX_NAME_LEN →
  let P := mk_tpool [asking name n cl st; waiting uid n' cl' st] {[NssMutex ServiceLock := 0]} w in
  rtc tpool_step (idle [getpwnam_t name n cl; getpwuid_t uid n' cl'] w) P ∧
  ∀ P', tpool_step P P' →
    tp_threads P' !! 1 = Some (waiting uid n' cl' st) ∧
    nss_net (tp_state P') =
      (Scim.get_user_by_name (svc_scim (ns_service st)) name (nss_net w)).2.
Proof.
  intros Hst Hpo Hutf Hlen. cbv zeta. split.
  - pose proof (tschedule_rtc [0; 0; 0; 1] (idle [getpwnam_t name n cl; getpwuid_t uid n' cl'] w)) as Hr.
    assert (tschedule [0; 0; 0; 1] (idle [getpwnam_t name n cl; getpwuid_t uid n' cl'] w) =
      mk_tpool [asking name n cl st; waiting uid n' cl' st] {[NssMutex ServiceLock := 0]} w) as <-; [|done].
    unfold getpwnam_t. rewrite Hutf. cbn [negb]. unfold tschedule, idle. cbn [foldl].
    unfold tstep_at at 4. cbn [tp_threads tp_state tp_owners lookup list_lookup lookup_t get_state_t].
    cbn. rewrite Hst. cbn. rewrite lookup_empty. cbn. rewrite Hpo. cbn. rewrite Hst. done.
  - intros P' (i & p & Hi & -> & Hp)%tpool_step_at. unfold asking, lookup_user_by_name_p in *.
    rewrite bool_decide_eq_false_2 in * by lia. destruct i as [|[|i]]; [| |done]; cbn in Hi; simplify_eq.
    + unfold tstep_at. cbn. split; [done|]. unfold zoom, on_net, zoom. cbn.
      by destruct (Scim.get_user_by_name _ _ _).
    + cbn in Hp. by rewrite lookup_singleton_eq in Hp.
Qed.
End waiting.

(** ** Witnesses: a machine with the mock server *)

#[local] Existing Instances oidc_world oidc_parser ascii_percent_encoding.
#[local] Existing Instances pam_engine pam_engine_laws release_build byte_sum_hash byte_sum_hash_laws.
#[local] Existing Instances root_os no_env mock_toml creating_open mock_file_laws.
#[local] Existing Instances token_library token_theory token_laws oidc_world_laws.

#[local] Instance creating_adds : SqliteFileAdds.
Proof.
  intros path fs p i Hi. unfold connection_open, creating_open. cbn [snd].
  destruct (fs !! path) eqn:Hpath; [done|]. by rewrite lookup_insert_ne by congruence.
Qed.

(** Two threads of a process look alice up, another enumerates, and alice logs in
    through another process. *)
Definition busy_calls : list (nat * request) :=
  [(1, Getpwnam "alice" 64 (blank 64 no_passwd)); (1, Setpwent);
   (2, Authenticate login); (1, Getpwuid 201676 64 (blank 64 no_passwd))].
Definition busy_host : host := fresh_host installed empty_db.
Definition round_robin (threads rounds : nat) : list nat := concat (replicate rounds (seq 0 threads)).
Definition busy_end := tschedule (round_robin 4 60) (start busy_calls busy_host).

Definition codes (w : tpool host_lock host undefined_behaviour reply) :=
  (λ p, match p with
        | Return (Ok (Status s)) | Return (Ok (PasswdFilled s _)) => Some (inl s)
        | Return (Ok (PamCode z)) => Some (inr z)
        | _ => None
        end) <$> tp_threads w.

Example busy_results :
  codes busy_end = [Some (inl Success); Some (inl Success); Some (inr PAM_SUCCESS); Some (inl Success)].
Proof. vm_compute. reflexivity. Qed.

Lemma busy_host_sound : host_sound busy_host.
Proof.
  split; [split; [apply db_wf_empty|]|].
  - intros text config _ Hc. vm_compute in Hc. injection Hc as <-.
    split; [split|]; vm_compute; repeat split; congruence.
  - intros pid. split; split; done.
Qed.

Lemma busy_calls_ok : Forall request_ok busy_calls.
Proof. repeat constructor; unfold request_ok, passwd_caller_ok; vm_compute; lia. Qed.

Lemma host_stays_sound_witness :
  host_sound (tp_state busy_end) ∧
  ∃ client id_token log claims, discovered client ∧ validated client id_token log claims ∧
    speaks_for "alice" (cl_sub claims) (h_net (tp_state busy_end)).
Proof.
  destruct (host_stays_sound busy_calls busy_host busy_end busy_host_sound busy_calls_ok
    (tschedule_rtc _ _)) as (Hs & _ & Hr).
  split; [exact Hs|].
  assert (tp_threads busy_end !! 2 = Some (Return (Ok (PamCode PAM_SUCCESS)))) as Hlogin
    by (vm_compute; reflexivity).
  destruct (Hr 2 (2, Authenticate login) _ eq_refl Hlogin) as (r0 & Hr0 & Ha).
  destruct r0 as [z|[]|]; [|discriminate Hr0]. injection Hr0 as <-.
  destruct Ha as [Ha|[Ha|[[Ha _]|(_ & user & client & token & log & claims & (log0 & _ & Hu) & Hd & _ & Hv & Hsp)]]];
    [discriminate Ha..|].
  injection Hu as <-. exists client, token, log, claims. split; [exact Hd|]. split; [exact Hv|exact Hsp].
Defined.

(** Six steps into the same calls. *)
Definition busy_start := tschedule (round_robin 4 6) (start busy_calls busy_host).

Example busy_start_unfinished : codes busy_start = [None; None; None; None].
Proof. vm_compute. reflexivity. Qed.

Lemma calls_never_deadlock_witness :
  (∃ w', rtc tpool_step busy_start w' ∧ Forall returned (tp_threads w') ∧ tp_owners w' = ∅) ∧
  ∃ order, Forall (running busy_calls {[1]}) order ∧
    ∃ r, tp_threads (tschedule order busy_start) !! 2 = Some (Return r).
Proof.
  destruct (calls_never_deadlock busy_calls busy_host busy_start (tschedule_rtc _ _))
    as (_ & _ & Hall & Hkilled).
  split; [exact Hall|]. destruct (Hkilled {[1]}) as (order & Ho & Hd). exists order.
  split; [exact Ho|]. apply (Hd 2). exists (2, Authenticate login). split; [reflexivity|].
  vm_compute. congruence.
Defined.

Lemma lookup_waits_for_anothers_request_witness :
  let P := mk_tpool [asking "alice" 64 (blank 64 no_passwd) mock_state;
    waiting 201676 64 (blank 64 no_passwd) mock_state] {[NssMutex ServiceLock := 0]} started_module in
  rtc tpool_step (idle [getpwnam_t "alice" 64 (blank 64 no_passwd);
    getpwuid_t 201676 64 (blank 64 no_passwd)] started_module) P.
Proof.
  refine (proj1 (lookup_waits_for_anothers_request started_module mock_state "alice" 64
    (blank 64 no_passwd) 201676 64 (blank 64 no_passwd) _ _ _ _)).
  - vm_compute. reflexivity.
  - vm_compute. reflexivity.
  - vm_compute. reflexivity.
  - vm_compute. lia.
Defined.

(** Three threads enumerate the users, one of them with too small a buffer, and
    two the groups. *)
Definition enumerating_module : nss := (nss_oidc_setgrent (nss_oidc_setpwent started_module).2).2.
Definition user_calls : list (nat * caller passwd) :=
  [(10, blank 10 no_passwd); (64, blank 64 no_passwd); (64, blank 64 no_passwd)].
Definition group_calls : list (nat * caller group_struct) :=
  [(64, blank 64 no_group); (64, blank 64 no_group)].
Definition users_end := tschedule (round_robin 3 20)
  (idle ((λ c, getpwent_t c.1 c.2) <$> user_calls) enumerating_module).
Definition groups_end := tschedule (round_robin 2 20)
  (idle ((λ c, getgrent_t c.1 c.2) <$> group_calls) enumerating_module).

Lemma concurrent_enumeration_delivers_once_witness :
  (∃ order rs, (order ≡ₚ seq 0 3) ∧ returned_in users_end order rs ∧
    delivered (λ u b p, passwd_reads b p u) mock_users 0 rs) ∧
  (∃ order rs, (order ≡ₚ seq 0 2) ∧ returned_in groups_end order rs ∧
    delivered (λ g b s, group_reads b s g) mock_groups 0 rs).
Proof.
  destruct (concurrent_enumeration_delivers_once enumerating_module user_calls group_calls
    mock_users 0 mock_groups 0 users_end groups_end) as [(o1 & rs1 & Ho1 & Hr1 & Hd1 & _) (o2 & rs2 & Ho2 & Hr2 & Hd2 & _)].
  - intros l. vm_compute. reflexivity.
  - vm_compute. reflexivity.
  - vm_compute. reflexivity.
  - repeat constructor; unfold passwd_caller_ok; vm_compute; lia.
  - repeat constructor; unfold group_caller_ok; vm_compute; repeat split; (lia || congruence).
  - apply tschedule_rtc.
  - vm_compute. repeat (apply Forall_cons_2; [exact I|]). apply Forall_nil_2.
  - apply tschedule_rtc.
  - vm_compute. repeat (apply Forall_cons_2; [exact I|]). apply Forall_nil_2.
  - split; [exists o1, rs1; split; [exact Ho1|split; [exact Hr1|exact Hd1]]|].
    exists o2, rs2; split; [exact Ho2|split; [exact Hr2|exact Hd2]].
Defined.
