(* ===== verification/Logging.v ===== *)
(** * Logging: the syslog layer ([src/logging.rs])

    The subscriber that calls the layer, and the formatting of values, are the
    [tracing] crates'; [openlog] and [syslog] are recorded as what they are
    called with. *)

From S2P Require Import Prelude Text Config.
From stdpp Require Import prelude strings list.
From Stdlib Require Import Ascii.

Definition FACILITY_AUTHPRIV : Z := Z.shiftl 10 3.
Definition FACILITY_DAEMON : Z := Z.shiftl 3 3.

Inductive Level := ERROR | WARN | INFO | DEBUG | TRACE.
Inductive LevelFilter := OFF | AtMost (l : Level).

(** [<syslog.h>] *)
Definition LOG_ERR : Z := 3.
Definition LOG_WARNING : Z := 4.
Definition LOG_INFO : Z := 6.
Definition LOG_DEBUG : Z := 7.

(** The characters whose lower case is a letter of one of these names are the
    ASCII ones, so the ASCII lower case decides the match. *)
Definition parse_level `{Env} : LevelFilter :=
  match to_lowercase (default "" (env_var "SSSD_OIDC_LOG")) with
  | "error" => AtMost ERROR
  | "warn" => AtMost WARN
  | "info" => AtMost INFO
  | "debug" => AtMost DEBUG
  | "trace" => AtMost TRACE
  | "off" => OFF
  | _ => AtMost WARN
  end.

(** ** Initialisation *)

(** The statics [INIT] and [IDENT], the calls of [openlog], and the filter of the
    subscriber, [None] where another subscriber was there first. *)
Record logger := mk_logger {
  lg_init : bool;
  lg_ident : option string;
  lg_opened : list (string * Z);
  lg_subscriber : bool;
  lg_filter : option LevelFilter;
}.

Definition init `{Env} (ident : string) (facility : Z) (l : logger) : logger :=
  if lg_init l then l
  else
    let ident_c := match lg_ident l with
                   | Some i => i
                   | None => if has_nul ident then "sssd_oidc" else ident
                   end in
    mk_logger true (Some ident_c) (lg_opened l ++ [(ident_c, facility)]) true
      (if lg_subscriber l then lg_filter l else Some parse_level).

(** ** Events *)

Record MessageVisitor := mk_visitor { message : option string; fields : string }.
Definition default_visitor : MessageVisitor := mk_visitor None "".

(** A recorded field: its name, and its value as [Debug] or as a string. *)
Inductive field_value := AsDebug (text : string) | AsStr (text : string).

Definition is_empty (s : string) : bool := match s with EmptyString => true | _ => false end.

Definition record_debug (v : MessageVisitor) (name value : string) : MessageVisitor :=
  if bool_decide (name = "message") then mk_visitor (Some value) (fields v)
  else
    let sep := if is_empty (fields v) then "" else " " in
    mk_visitor (message v) (fields v +:+ sep +:+ name +:+ "=" +:+ value).

Definition record_str (v : MessageVisitor) (name value : string) : MessageVisitor :=
  if bool_decide (name = "message") then mk_visitor (Some value) (fields v)
  else
    let sep := if is_empty (fields v) then "" else " " in
    mk_visitor (message v) (fields v +:+ sep +:+ name +:+ "=" +:+ value).

Definition record (v : MessageVisitor) (f : string * field_value) : MessageVisitor :=
  match f.2 with AsDebug text => record_debug v f.1 text | AsStr text => record_str v f.1 text end.

Definition priority_of (l : Level) : Z :=
  match l with
  | ERROR => LOG_ERR | WARN => LOG_WARNING | INFO => LOG_INFO | DEBUG | TRACE => LOG_DEBUG
  end.

(** The call of [syslog], if there is one. *)
Definition on_event (level : Level) (module_path : option string)
    (event : list (string * field_value)) : option (Z * string) :=
  let priority := priority_of level in
  let visitor := foldl record default_visitor event in
  let module := default "sssd_oidc" module_path in
  let msg :=
    match message visitor with
    | Some m => if is_empty (fields visitor) then "[" +:+ module +:+ "] " +:+ m
                else "[" +:+ module +:+ "] " +:+ m +:+ " " +:+ fields visitor
    | None => if is_empty (fields visitor) then "[" +:+ module +:+ "] (event)"
              else "[" +:+ module +:+ "] " +:+ fields visitor
    end in
  if has_nul msg then None else Some (priority, msg).

(** ** Facts *)

(** Only the first initialisation counts. *)
Lemma init_once `{Env} i1 f1 i2 f2 l : init i2 f2 (init i1 f1 l) = init i1 f1 l.
Proof.
  destruct (lg_init l) eqn:Hl; unfold init; rewrite Hl; [by rewrite Hl|done].
Qed.

Definition text_of (v : field_value) : string :=
  match v with AsDebug t | AsStr t => t end.
Definition pair_text (f : string * field_value) : string := f.1 +:+ "=" +:+ text_of f.2.

(** The fields of a line: [key=value], separated by spaces. *)
Fixpoint join (l : list string) : string :=
  match l with [] => "" | [x] => x | x :: l => x +:+ " " +:+ join l end.

Definition is_message (f : string * field_value) : Prop := f.1 = "message".

Lemma join_snoc l x : l ≠ [] → join (l ++ [x]) = join l +:+ " " +:+ x.
Proof.
  induction l as [|y l IH]; [done|]. intros _. destruct l as [|z l]; [done|].
  change (join ((y :: z :: l) ++ [x])) with (y +:+ " " +:+ join ((z :: l) ++ [x])).
  rewrite IH by done. change (join (y :: z :: l)) with (y +:+ " " +:+ join (z :: l)).
  by rewrite !string_app_assoc.
Qed.

Lemma pair_text_not_empty f : is_empty (pair_text f) = false.
Proof. unfold pair_text. by destruct (f.1). Qed.

Lemma join_empty (l : list (string * field_value)) :
  is_empty (join (pair_text <$> l)) = bool_decide (l = []).
Proof.
  destruct l as [|f [|g l]]; [done|apply pair_text_not_empty|].
  change (is_empty (pair_text f +:+ " " +:+ join (pair_text <$> g :: l)) = false).
  pose proof (pair_text_not_empty f) as Hf. by destruct (pair_text f).
Qed.

(** What the visitor has after an event: the last message, and every other field
    in order. *)
Lemma visited event :
  foldl record default_visitor event =
    mk_visitor (text_of ∘ snd <$> last (filter is_message event))
      (join (pair_text <$> filter (λ f, ¬ is_message f) event)).
Proof.
  induction event as [|f event IH] using rev_ind; [done|].
  rewrite foldl_snoc, IH, !filter_app. unfold record.
  assert (∀ v, (match f.2 with AsDebug text => record_debug v f.1 text
    | AsStr text => record_str v f.1 text end) = record_str v f.1 (text_of f.2)) as ->
    by (intros v; by destruct f as [? []]).
  unfold record_str, is_message in *. case_bool_decide as Hm.
  - rewrite filter_cons_True, (filter_cons_False (λ f, ¬ f.1 = "message")) by tauto.
    by rewrite !filter_nil, app_nil_r, last_snoc.
  - rewrite filter_cons_False, (filter_cons_True (λ f, ¬ f.1 = "message")) by tauto.
    rewrite !filter_nil, app_nil_r, fmap_app, list_fmap_singleton. cbn [message fields]. f_equal.
    rewrite join_empty. case_bool_decide as He; [by rewrite He|].
    rewrite join_snoc; [done|]. by intros ?%fmap_nil_inv.
Qed.

(** A line carries the message and every field of its event, in their order,
    unless a NUL in it keeps it from being logged at all. *)
Theorem syslog_line_is_complete level module event text others :
  filter is_message event = [("message", text)] → filter (λ f, ¬ is_message f) event = others →
  let line := "[" +:+ module +:+ "] " +:+ join (text_of text :: (pair_text <$> others)) in
  on_event level (Some module) event =
    if has_nul line then None else Some (priority_of level, line).
Proof.
  intros Hm Ho. unfold on_event. rewrite visited, Hm, Ho. cbn [message fields last fmap option_fmap].
  rewrite join_empty. destruct others as [|f others]; [by rewrite bool_decide_eq_true_2|].
  by rewrite bool_decide_eq_false_2.
Qed.
