(* ===== verification/UnitTests.v ===== *)
(** * UnitTests: the crates' own unit tests, run on the model

    The [#[test]] functions of [cache.rs], [mapping.rs], [scim.rs], [passwd.rs]
    and [config.rs] as computations of the model: [unwrap] and a failed
    assertion panic, and a test passes when it returns. They pass for every hash
    of 32 bits, so the collisions they provoke are resolved wherever the hash
    puts the identifiers; [different_ids_differ], which is about murmur3 itself,
    passes when that hash tells the two identifiers apart. The tests of [oidc.rs]
    are in [OidcTests]. *)

From S2P Require Import Prelude Text Value Model Mapping Fs Config Http Sql Schema Cache CacheFacts Scim Buffer.
From stdpp Require Import prelude strings list gmap sorting.

(** ** Assertions *)

Definition unwrap {S E A} (m : M S E A) : M S Empty_set A := try_with m ret (λ _, panic).
Definition unwrap_err {S E A} (m : M S E A) : M S Empty_set E := try_with m (λ _, panic) ret.
Definition unwrap_some {S A} (o : option A) : M S Empty_set A :=
  match o with Some a => ret a | None => panic end.
Definition assert_true {S} (b : bool) : M S Empty_set () := if b then ret tt else panic.
Definition assert_eq {S A} `{EqDecision A} (x y : A) : M S Empty_set () :=
  assert_true (bool_decide (x = y)).
Definition assert_ne {S A} `{EqDecision A} (x y : A) : M S Empty_set () :=
  assert_true (bool_decide (x ≠ y)).
Definition contains (s needle : string) : bool :=
  match String.index 0 needle s with Some _ => true | None => false end.

Definition passes {S} (test : M S Empty_set ()) (s : S) : Prop := wp test (λ r _, r = Ok tt) s.

Section assertion_rules.
Context {S E : Type}.

Lemma wp_unwrap {A} (m : M S E A) (Q : outcome Empty_set A → S → Prop) s :
  wp m (λ r s', match r with Ok a => Q (Ok a) s' | _ => Q Panic s' end) s → wp (unwrap m) Q s.
Proof. intros Hm. apply wp_try_with. eapply wp_mono; [done|]. by intros []. Qed.

Lemma passes_assert (b : bool) (s : S) : b = true → passes (assert_true b) s.
Proof. by intros ->. Qed.
Lemma passes_eq {A} `{EqDecision A} (x y : A) (s : S) : x = y → passes (assert_eq x y) s.
Proof. intros. by apply passes_assert, bool_decide_eq_true_2. Qed.
Lemma passes_ne {A} `{EqDecision A} (x y : A) (s : S) : x ≠ y → passes (assert_ne x y) s.
Proof. intros. by apply passes_assert, bool_decide_eq_true_2. Qed.

Lemma passes_bind {A} (m : M S Empty_set A) k s (P : A → S → Prop) :
  wp m (λ r s', ∃ a, r = Ok a ∧ P a s') s → (∀ a s', P a s' → passes (k a) s') →
  passes (bind m k) s.
Proof.
  intros Hm Hk. apply wp_bind. eapply wp_mono; [exact Hm|]. intros r s' (a & -> & Ha). by apply Hk.
Qed.

Lemma passes_then (t1 t2 : M S Empty_set ()) s :
  wp t1 (λ r s', r = Ok tt ∧ s' = s) s → passes t2 s → passes (t1 ;;? t2) s.
Proof.
  intros H1 H2. eapply (passes_bind _ _ _ (λ _ s', s' = s)).
  - eapply wp_mono; [exact H1|]. intros r s' [-> ->]. eauto.
  - by intros _ s' ->.
Qed.
End assertion_rules.

(** ** [cache.rs] *)

Section cache_tests.
Context `{Sqlite} `{BuildProfile} `{Murmur3} `{Os}.

(** An in-memory database needs no file. *)
#[local] Instance memory_file : SqliteFile := λ _, ret tt.

Definition on_cache {E A} (m : M db E A) : M storage Empty_set A := unwrap (zoom st_db set_db m).
Definition open_cache : M storage Empty_set Cache := unwrap open_in_memory.

Definition test_alice : User :=
  mk_user "abc-123" "alice" 200042 200001 "Alice Smith" "/home/alice" "/bin/bash" true.

Definition round_trip_user : M storage Empty_set () :=
  let? cache := open_cache in
  let user := test_alice in
  on_cache (store_user user) ;;?
  let? found := on_cache (get_user_by_uid cache 200042) in
  let? by_uid := unwrap_some found in
  assert_eq by_uid user ;;?
  let? found := on_cache (Cache.get_user_by_name cache "alice") in
  let? by_name := unwrap_some found in
  assert_eq by_name user ;;?
  let? found := on_cache (get_user_by_uid cache 999999) in
  assert_eq found None.

Definition round_trip_group : M storage Empty_set () :=
  let? cache := open_cache in
  let group := mk_group "grp-456" "engineering" 200010 ["alice"; "bob"] in
  on_cache (store_group group) ;;?
  let? found := on_cache (get_group_by_gid cache 200010) in
  let? by_gid := unwrap_some found in
  assert_eq (group_name by_gid) "engineering" ;;?
  assert_eq (group_gid by_gid) 200010%Z ;;?
  assert_eq (group_members by_gid) ["alice"; "bob"] ;;?
  let? found := on_cache (Cache.get_group_by_name cache "engineering") in
  let? by_name := unwrap_some found in
  assert_eq (group_gid by_name) 200010%Z ;;?
  assert_eq (group_members by_name) ["alice"; "bob"].

Definition purge_expired_removes_old_entries : M storage Empty_set () :=
  let? cache := open_cache in
  on_cache (store_user test_alice) ;;?
  let group := mk_group "grp-456" "engineering" 200010 ["alice"] in
  on_cache (store_group group) ;;?
  on_cache (purge_expired 0) ;;?
  let? user := on_cache (get_user_by_uid cache 200042) in
  assert_eq user None ;;?
  let? group := on_cache (get_group_by_gid cache 200010) in
  assert_eq group None.

Definition purge_expired_keeps_recent_entries : M storage Empty_set () :=
  let? cache := open_cache in
  on_cache (store_user test_alice) ;;?
  on_cache (purge_expired 86400) ;;?
  let? user := on_cache (get_user_by_uid cache 200042) in
  assert_true (bool_decide (is_Some user)).

Definition get_groups_for_member_returns_matching_groups : M storage Empty_set () :=
  let? cache := open_cache in
  let eng := mk_group "grp-eng" "engineering" 200010 ["alice"; "bob"] in
  let ops := mk_group "grp-ops" "operations" 200020 ["alice"; "carol"] in
  let design := mk_group "grp-des" "design" 200030 ["carol"] in
  on_cache (store_group eng) ;;?
  on_cache (store_group ops) ;;?
  on_cache (store_group design) ;;?
  let? alice_groups := on_cache (get_groups_for_member cache "alice") in
  assert_eq (merge_sort Z.le (group_gid <$> alice_groups)) [200010; 200020]%Z ;;?
  let? carol_groups := on_cache (get_groups_for_member cache "carol") in
  assert_eq (merge_sort Z.le (group_gid <$> carol_groups)) [200020; 200030]%Z ;;?
  let? nobody := on_cache (get_groups_for_member cache "nobody") in
  assert_eq nobody [].

Definition resolve_uid_returns_same_id_for_same_external_id : M storage Empty_set () :=
  let? cache := open_cache in
  let? uid1 := on_cache (resolve_uid "user-aaa" 200000 200000) in
  on_cache (store_user (mk_user "user-aaa" "aaa" uid1 200001 "" "/home/aaa" "/bin/bash" true)) ;;?
  let? uid2 := on_cache (resolve_uid "user-aaa" 200000 200000) in
  assert_eq uid1 uid2.

Definition resolve_uid_linear_probes_on_collision : M storage Empty_set () :=
  let? cache := open_cache in
  let? uid_aaa := on_cache (resolve_uid "user-aaa" 200000 200000) in
  on_cache (store_user (mk_user "user-aaa" "aaa" uid_aaa 200001 "" "/home/aaa" "/bin/bash" true)) ;;?
  let? natural_bbb := id_to_uid "user-bbb" 200000 200000 in
  on_cache (store_user
    (mk_user "blocker" "blocker" natural_bbb 200001 "" "/home/blocker" "/bin/bash" true)) ;;?
  let? uid_bbb := on_cache (resolve_uid "user-bbb" 200000 200000) in
  assert_ne uid_bbb natural_bbb ;;?
  assert_true (bool_decide (200000 ≤ uid_bbb < 400000)%Z).

Definition resolve_gid_handles_collision : M storage Empty_set () :=
  let? cache := open_cache in
  let? gid_a := on_cache (resolve_gid "group-a" 300000 100) in
  on_cache (store_group (mk_group "group-a" "alpha" gid_a [])) ;;?
  let? natural_b := id_to_uid "group-b" 300000 100 in
  (if bool_decide (natural_b ≠ gid_a)
   then on_cache (store_group (mk_group "blocker" "blocker" natural_b []))
   else ret tt) ;;?
  let? gid_b := on_cache (resolve_gid "group-b" 300000 100) in
  assert_ne gid_b natural_b ;;?
  assert_true (bool_decide (300000 ≤ gid_b < 300100)%Z).

(** The tests that compute without the hash, and those that collide. *)
Definition cache_table_tests : list (M storage Empty_set ()) :=
  [round_trip_user; round_trip_group; purge_expired_removes_old_entries;
   purge_expired_keeps_recent_entries; get_groups_for_member_returns_matching_groups].
Definition cache_collision_tests : list (M storage Empty_set ()) :=
  [resolve_uid_returns_same_id_for_same_external_id; resolve_uid_linear_probes_on_collision;
   resolve_gid_handles_collision].
End cache_tests.

Section cache_tests_pass.
Context `{SqliteLaws} `{BuildProfile} `{Murmur3Laws} `{Os}.
Hypothesis Hnf : no_faults.

Lemma no_failure e : ¬ sql_failure e.
Proof. intros (n & e' & He & _). by rewrite Hnf in He. Qed.

(** The ids the tables hold are among [uids] and [gids]. *)
Definition holds (uids gids : list Z) (s : storage) : Prop :=
  db_wf (st_db s) ∧ (∀ r, r ∈ uid_cache (st_db s) → ur_uid r ∈ uids) ∧
  (∀ r, r ∈ gid_cache (st_db s) → gr_gid r ∈ gids).

Lemma open_cache_passes s : wp open_cache (λ r s', ∃ c, r = Ok c ∧ holds [] [] s') s.
Proof.
  apply wp_unwrap. unfold open_in_memory, open, wp, bind, zoom, map_err, execute, statement.
  simpl. rewrite !Hnf. simpl. eexists. split; [done|].
  split; [apply db_wf_next, db_wf_next, db_wf_empty|split; intros r Hr; by apply not_elem_of_nil in Hr].
Qed.

Lemma holder_held uids gids s c ext :
  holds uids gids s → uid_holder (st_db s) c = Some ext → c ∈ uids.
Proof. intros (Hd & Hu & _) (r & Hr & <- & _)%uid_holder_Some; [by apply Hu|done]. Qed.
Lemma gid_holder_held uids gids s c ext :
  holds uids gids s → gid_holder (st_db s) c = Some ext → c ∈ gids.
Proof. intros (Hd & _ & Hg) (r & Hr & <- & _)%gid_holder_Some; [by apply Hg|done]. Qed.

(** A resolution with a free slot left succeeds. *)
Lemma resolve_uid_passes ext min size uids gids s free :
  probe_range min size → holds uids gids s → (min ≤ free < min + size)%Z → free ∉ uids →
  wp (on_cache (resolve_uid ext min size)) (λ r s', ∃ uid, r = Ok uid ∧
    (resolution (uid_holder (st_db s)) ext min size (Ok uid) ∧
     same_tables (st_db s) (st_db s') ∧ holds uids gids s')) s.
Proof.
  intros Hp Hs Hfree Hno. apply wp_unwrap, wp_zoom.
  eapply wp_mono; [apply resolve_uid_wp; [apply Hs|done]|]. intros [uid|e|] d' [Hd Hr]; [| |done].
  - exists uid. split_and!; [done..|]. destruct Hs as (Hwf & Hu & Hg). pose proof Hd as (E1 & E2 & _).
    split; [by eapply db_wf_same_tables|simpl; by rewrite E1, E2].
  - destruct Hr as [?%no_failure|[_ Hall]]; [done|]. destruct (Hall free Hfree). left.
    destruct (uid_holder _ free) eqn:Hh; [|done]. by destruct Hno; eapply holder_held.
Qed.
Lemma resolve_gid_passes ext min size uids gids s free :
  probe_range min size → holds uids gids s → (min ≤ free < min + size)%Z → free ∉ gids →
  wp (on_cache (resolve_gid ext min size)) (λ r s', ∃ gid, r = Ok gid ∧
    (resolution (gid_holder (st_db s)) ext min size (Ok gid) ∧
     same_tables (st_db s) (st_db s') ∧ holds uids gids s')) s.
Proof.
  intros Hp Hs Hfree Hno. apply wp_unwrap, wp_zoom.
  eapply wp_mono; [apply resolve_gid_wp; [apply Hs|done]|]. intros [gid|e|] d' [Hd Hr]; [| |done].
  - exists gid. split_and!; [done..|]. destruct Hs as (Hwf & Hu & Hg). pose proof Hd as (E1 & E2 & _).
    split; [by eapply db_wf_same_tables|simpl; by rewrite E1, E2].
  - destruct Hr as [?%no_failure|[_ Hall]]; [done|]. destruct (Hall free Hfree). left.
    destruct (gid_holder _ free) eqn:Hh; [|done]. by destruct Hno; eapply gid_holder_held.
Qed.

Lemma store_user_passes u uids gids s :
  holds uids gids s →
  wp (on_cache (store_user u)) (λ r s', ∃ x, r = Ok x ∧
    (holds (user_uid u :: uids) gids s' ∧
     uid_holder (st_db s') (user_uid u) = Some (user_external_id u))) s.
Proof.
  intros (Hwf & Hu & Hg). apply wp_unwrap, wp_zoom. eapply wp_mono; [apply store_user_wp|].
  intros [[]|e|] d' Hr; [|by destruct Hr as [?%no_failure _]|done].
  destruct Hr as (now & _ & ->). exists (). split; [done|]. split.
  - split; [by apply db_wf_next, db_wf_replace_uid|]. split; [|done]. simpl.
    intros r [[_ Hr]%list_elem_of_filter| ->%list_elem_of_singleton]%elem_of_app; [right; auto|left].
  - cbn [st_db set_db]. change (uid_holder (next_stmt ?d)) with (uid_holder d).
    change (user_uid u) with (ur_uid (user_row u now)).
    rewrite uid_holder_replace by done. by rewrite bool_decide_eq_true_2.
Qed.

Lemma store_group_passes g uids gids s :
  NoDup (group_members g) → holds uids gids s →
  wp (on_cache (store_group g)) (λ r s', ∃ x, r = Ok x ∧
    (holds uids (group_gid g :: gids) s' ∧
     gid_holder (st_db s') (group_gid g) = Some (group_external_id g))) s.
Proof.
  intros Hnd (Hwf & Hu & Hg). apply wp_unwrap, wp_zoom.
  eapply wp_mono; [by apply (store_group_wp Hnf)|]. intros r d' Hst.
  pose proof (stored_group_holder _ _ _ _ Hst) as Hh.
  destruct Hst as (Hwf' & Hu' & (now & Hg' & _) & _ & Hr).
  assert (r = Ok tt) as ->.
  { destruct Hr as [(_ & ? & _)|(pre & x & post & Heq & _ & Hx & _)]; [done|].
    rewrite Heq in Hnd. apply NoDup_app in Hnd as (_ & Hdis & _). destruct (Hdis x Hx). left. }
  exists (). split; [done|]. split; [|done]. split; [done|]. simpl. split; [by rewrite Hu'|].
  rewrite Hg'. simpl.
  intros r [[_ Hr']%list_elem_of_filter| ->%list_elem_of_singleton]%elem_of_app; [right; auto|left].
Qed.

(** Two ids leave a slot of a range of three free. *)
Lemma slot_beside a b min size :
  (3 ≤ size)%Z → ∃ c, (min ≤ c < min + size)%Z ∧ c ∉ [a; b].
Proof.
  intros. setoid_rewrite not_elem_of_cons. setoid_rewrite list_elem_of_singleton.
  destruct (decide (min = a ∨ min = b)); [|exists min; lia].
  destruct (decide ((min + 1 = a ∨ min + 1 = b)%Z)); [exists (min + 2)%Z; lia|exists (min + 1)%Z; lia].
Qed.

Lemma taken_is_not_taken_again holder ext other min size slot id :
  holder slot = Some other → other ≠ ext → resolution holder ext min size (Ok id) → id ≠ slot.
Proof. intros Hh Hne (_ & [Hav|Hav] & _) ->; congruence. Qed.

Lemma natural_slot_passes {S} ext min size (s : S) :
  valid_range min size →
  wp (id_to_uid (E:=Empty_set) ext min size) (λ r s', ∃ n, r = Ok n ∧ s' = s) s.
Proof.
  intros Hv. destruct (murmur3_total ext 0) as (h & Hh & _).
  rewrite (id_to_uid_eq _ _ _ h Hh Hv). apply wp_ret. by eexists.
Qed.

Lemma same_id_passes s : passes resolve_uid_returns_same_id_for_same_external_id s.
Proof.
  eapply passes_bind; [apply open_cache_passes|intros c s1 Hs1].
  eapply passes_bind; [by apply (resolve_uid_passes _ _ _ [] [] _ 200000%Z); vm_compute; try set_solver|].
  intros uid1 s2 (Hr1 & Hsame & Hs2).
  eapply passes_bind; [by apply store_user_passes|]. intros _ s3 (Hs3 & Hh).
  cbn [user_uid user_external_id] in *.
  destruct (slot_beside uid1 uid1 200000 200000) as (free & Hfree & Hno); [done|].
  eapply passes_bind.
  { apply (resolve_uid_passes _ _ _ [uid1] [] _ free); [by vm_compute|exact Hs3|done|]. intros ->%list_elem_of_singleton.
    apply Hno. left. }
  intros uid2 s4 (Hr2 & _). apply passes_eq. symmetry.
  apply (resolution_stable _ _ _ _ _ _ _ Hr1) in Hr2; [done| |done].
  intros c' Hc'. destruct Hc'. left. destruct (uid_holder (st_db s1) c') eqn:Hc; [|done].
  by apply (holder_held [] [] s1 c') in Hc; [apply not_elem_of_nil in Hc|].
Qed.

Lemma collision_passes s : passes resolve_uid_linear_probes_on_collision s.
Proof.
  eapply passes_bind; [apply open_cache_passes|intros c s1 Hs1].
  eapply passes_bind; [by apply (resolve_uid_passes _ _ _ [] [] _ 200000%Z); vm_compute; try set_solver|].
  intros uid_aaa s2 (_ & _ & Hs2).
  eapply passes_bind; [by apply store_user_passes|]. intros _ s3 (Hs3 & _).
  cbn [user_uid] in *.
  eapply (passes_bind _ _ _ (λ _ s', s' = s3)); [by apply natural_slot_passes|]. intros natural _ ->.
  eapply passes_bind; [by apply store_user_passes|]. intros _ s4 (Hs4 & Hh).
  cbn [user_uid user_external_id] in *.
  destruct (slot_beside natural uid_aaa 200000 200000) as (free & Hfree & Hno); [done|].
  eapply passes_bind.
  { apply (resolve_uid_passes _ _ _ [natural; uid_aaa] [] _ free); [by vm_compute|exact Hs4|done|exact Hno]. }
  intros uid_bbb s5 (Hr & _). apply passes_then.
  - unfold assert_ne. rewrite bool_decide_eq_true_2; [done|].
    by eapply taken_is_not_taken_again; [exact Hh| |exact Hr].
  - apply passes_assert, bool_decide_eq_true_2, Hr.
Qed.

Lemma gid_collision_passes s : passes resolve_gid_handles_collision s.
Proof.
  eapply passes_bind; [apply open_cache_passes|intros c s1 Hs1].
  eapply passes_bind; [by apply (resolve_gid_passes _ _ _ [] [] _ 300000%Z); vm_compute; try set_solver|].
  intros gid_a s2 (_ & _ & Hs2).
  eapply passes_bind; [by apply store_group_passes; [apply NoDup_nil_2|]|]. intros _ s3 (Hs3 & Hh3).
  cbn [group_gid group_external_id] in *.
  eapply (passes_bind _ _ _ (λ _ s', s' = s3)); [by apply natural_slot_passes|]. intros natural _ ->.
  eapply (passes_bind _ _ _ (λ _ s', holds [] [natural; gid_a] s' ∧
    ∃ other, gid_holder (st_db s') natural = Some other ∧ other ≠ "group-b")).
  { case_bool_decide as Heq.
    - eapply wp_mono; [by apply store_group_passes; [apply NoDup_nil_2|]|].
      intros r s' (x & -> & Hs' & Hh). exists x. split_and!; [done..|]. by exists "blocker".
    - subst natural. apply wp_ret. exists (). split; [done|]. split; [|by exists "group-a"].
      destruct Hs3 as (Hwf & Hu & Hg). split_and!; [done..|]. intros r Hr. right. auto. }
  intros _ s4 (Hs4 & other & Hh & Hne).
  destruct (slot_beside natural gid_a 300000 100) as (free & Hfree & Hno); [done|].
  eapply passes_bind.
  { apply (resolve_gid_passes _ _ _ [] [natural; gid_a] _ free); [by vm_compute|exact Hs4|done|exact Hno]. }
  intros gid_b s5 (Hr & _). apply passes_then.
  - unfold assert_ne. rewrite bool_decide_eq_true_2; [done|].
    by eapply taken_is_not_taken_again; [exact Hh|exact Hne|exact Hr].
  - apply passes_assert, bool_decide_eq_true_2, Hr.
Qed.

Lemma cache_collision_tests_pass s : Forall (λ t, passes t s) cache_collision_tests.
Proof.
  repeat constructor; [apply same_id_passes|apply collision_passes|apply gid_collision_passes].
Qed.
End cache_tests_pass.

(** A clock that stands still and rows in the order of the table: the order in
    which [round_trip_group] expects the members, which no [ORDER BY] asks for. *)
Lemma cache_table_tests_pass `{BuildProfile} `{Murmur3} `{Os} fk s :
  Forall (λ t, passes t s) (@cache_table_tests (still_engine fk 1700000000) _).
Proof. destruct fk; repeat constructor; vm_compute; reflexivity. Qed.

(** The catalog of the database [open_in_memory] has opened. *)
Definition open_schema : M catalog Empty_set () := λ c,
  match run_batch schema_batch c with Some c' => (Ok tt, c') | None => (Panic, c) end.
Definition indexes_exist_after_open : M catalog Empty_set () :=
  open_schema ;;?
  let? indexes := (λ c, (Ok (index_names c), c)) in
  assert_true (bool_decide ("idx_uid_cache_login" ∈ indexes)) ;;?
  assert_true (bool_decide ("idx_gid_cache_name" ∈ indexes)) ;;?
  assert_true (bool_decide ("idx_group_members_member_name" ∈ indexes)).

Lemma indexes_test_passes : passes indexes_exist_after_open new_catalog.
Proof. vm_compute. reflexivity. Qed.

(** ** [mapping.rs] *)

#[local] Instance range_error : From IdRangeExhausted IdRangeExhausted := id.

Section mapping_tests.
Context `{BuildProfile} `{Murmur3}.

Definition deterministic_mapping : M () Empty_set () :=
  let? uid1 := id_to_uid "00u1a2b3c4d5e6f7g8h9" 200000 200000 in
  let? uid2 := id_to_uid "00u1a2b3c4d5e6f7g8h9" 200000 200000 in
  assert_eq uid1 uid2.

Definition within_range : M () Empty_set () :=
  let? uid := id_to_uid "some-uuid-value" 200000 200000 in
  assert_true (bool_decide (200000 ≤ uid)%Z) ;;?
  assert_true (bool_decide (uid < 400000)%Z).

Definition different_ids_differ : M () Empty_set () :=
  let? uid_a := id_to_uid "user-a-uuid" 200000 200000 in
  let? uid_b := id_to_uid "user-b-uuid" 200000 200000 in
  assert_ne uid_a uid_b.

(** The closures of the test, over its [HashMap]. *)
Definition lookup_taken (taken : gmap Z string) (ext : string) (candidate : Z)
    : M () IdRangeExhausted (option bool) :=
  match taken !! candidate with
  | None => ret None
  | Some eid => ret (Some (bool_decide (eid = ext)))
  end.

Definition resolve_id_probes_on_collision : M () Empty_set () :=
  let taken : gmap Z string := ∅ in
  let? uid_a := unwrap (resolve_id "user-a" 100 10 (lookup_taken taken "user-a")) in
  let taken := <[uid_a := "user-a"]> taken in
  let? natural_b := id_to_uid "user-b" 100 10 in
  let taken := <[natural_b := default "blocker" (taken !! natural_b)]> taken in
  let? uid_b := unwrap (resolve_id "user-b" 100 10 (lookup_taken taken "user-b")) in
  assert_ne uid_b natural_b ;;?
  assert_true (bool_decide (100 ≤ uid_b < 110)%Z).

Definition resolve_id_returns_range_exhausted : M () Empty_set () :=
  try_with (resolve_id "new-user" 100 3 (λ _, ret (Some false)))
    (λ _, assert_true false) (λ e : IdRangeExhausted, assert_true true).

Definition mapping_tests : list (M () Empty_set ()) :=
  [deterministic_mapping; within_range; resolve_id_probes_on_collision;
   resolve_id_returns_range_exhausted].
End mapping_tests.

Section mapping_tests_pass.
Context `{BuildProfile} `{Murmur3Laws}.

Definition taken_view (taken : gmap Z string) (ext : string) (c : Z) : option bool :=
  (λ eid, bool_decide (eid = ext)) <$> taken !! c.

(** A resolution against a table with a free slot succeeds. *)
Lemma resolve_taken_passes taken ext min size free s :
  probe_range min size → (min ≤ free < min + size)%Z → taken !! free = None →
  wp (unwrap (resolve_id ext min size (lookup_taken taken ext))) (λ r s', ∃ c, r = Ok c ∧
    ((min ≤ c < min + size)%Z ∧ taken_view taken ext c ≠ Some false)) s.
Proof.
  intros Hp Hin Hfree. apply wp_unwrap. eapply wp_mono.
  - apply (resolve_id_wp _ (taken_view taken ext) (λ _, True) (λ _, False)); [done| |done].
    intros c s' _. unfold wp, lookup_taken, taken_view. by destruct (taken !! c).
  - intros [c|e|] s' [_ Hr]; [|destruct Hr as [[]|[_ Hall]]|done].
    + exists c. split; [done|]. by destruct Hr as (? & ? & _).
    + specialize (Hall free Hin). unfold taken_view in Hall. by rewrite Hfree in Hall.
Qed.

Lemma probes_on_collision_passes s : passes resolve_id_probes_on_collision s.
Proof.
  eapply passes_bind; [by apply (resolve_taken_passes _ _ _ _ 100%Z)|]. intros uid_a s1 _.
  eapply (passes_bind _ _ _ (λ _ _, True)).
  { eapply wp_mono; [by apply natural_slot_passes|]. intros r s' (n & -> & _). by exists n. }
  intros natural s2 _. destruct (slot_beside natural uid_a 100 10) as (free & Hfree & Hno); [done|].
  apply not_elem_of_cons in Hno as [Hn1 Hn2]. apply not_elem_of_cons in Hn2 as [Hn2 _].
  eapply passes_bind.
  { apply (resolve_taken_passes _ _ _ _ free); [by vm_compute|done|].
    by rewrite !lookup_insert_ne. }
  intros uid_b s3 [Hin Hview]. apply passes_then.
  - unfold assert_ne. rewrite bool_decide_eq_true_2; [done|]. intros ->. apply Hview.
    unfold taken_view. rewrite lookup_insert_eq. simpl.
    destruct (decide (uid_a = natural)) as [->|].
    + by rewrite lookup_insert_eq.
    + by rewrite lookup_insert_ne, lookup_empty.
  - by apply passes_assert, bool_decide_eq_true_2.
Qed.

Lemma mapping_tests_pass s : Forall (λ t, passes t s) mapping_tests.
Proof.
  destruct (murmur3_total "00u1a2b3c4d5e6f7g8h9" 0) as (h1 & Hh1 & _).
  destruct (murmur3_total "some-uuid-value" 0) as (h2 & Hh2 & _).
  repeat constructor.
  - unfold deterministic_mapping. rewrite !(id_to_uid_eq _ _ _ h1) by done.
    rewrite !bind_ret_l. by apply passes_eq.
  - unfold within_range. rewrite (id_to_uid_eq _ _ _ h2), bind_ret_l by done.
    pose proof (Z.mod_pos_bound h2 200000). rewrite !bool_decide_eq_true_2 by lia. done.
  - apply probes_on_collision_passes.
  - apply wp_try_with. eapply wp_mono.
    + apply (resolve_id_wp _ (λ _, Some false) (λ _, True) (λ _, False)); [by vm_compute|by intros|done].
    + intros [c|e|] s' [_ Hr]; [|done|done]. by destruct Hr as (_ & Hc & _).
Qed.

(** The one test that is about murmur3 itself: it passes exactly when the hash puts
    the two identifiers on different slots. *)
Lemma different_ids_differ_passes ha hb s :
  murmur3_32 "user-a-uuid" 0 = Some ha → murmur3_32 "user-b-uuid" 0 = Some hb →
  passes different_ids_differ s ↔ (ha `mod` 200000 ≠ hb `mod` 200000)%Z.
Proof.
  intros Ha Hb. unfold different_ids_differ.
  rewrite (id_to_uid_eq _ _ _ ha), (id_to_uid_eq _ _ _ hb), !bind_ret_l by done.
  unfold passes, wp, assert_ne, assert_true. case_bool_decide as Hne; cbn.
  - split; [|done]. intros _ Heq. apply Hne. by rewrite Heq.
  - split; [done|]. intros Hd. destruct Hd. lia.
Qed.
End mapping_tests_pass.

(** ** [scim.rs] *)

Definition escape_filter_value_handles_plain_string : M () Empty_set () :=
  assert_eq (escape_filter_value "alice") "alice".
Definition escape_filter_value_escapes_quotes : M () Empty_set () :=
  assert_eq (escape_filter_value ("al" +:+ quote +:+ "ice")) ("al\" +:+ quote +:+ "ice").
Definition escape_filter_value_escapes_backslashes : M () Empty_set () :=
  assert_eq (escape_filter_value "al\ice") "al\\ice".
Definition escape_filter_value_escapes_both : M () Empty_set () :=
  assert_eq (escape_filter_value ("a\" +:+ quote +:+ "b")) ("a\\\" +:+ quote +:+ "b").

Definition scim_tests : list (M () Empty_set ()) :=
  [escape_filter_value_handles_plain_string; escape_filter_value_escapes_quotes;
   escape_filter_value_escapes_backslashes; escape_filter_value_escapes_both].

(** ** [passwd.rs] *)

(** [CStr::from_ptr(p).to_str().unwrap()], compared with a string. *)
Definition assert_reads (p : Z) (s : string) : M buffer Empty_set () := λ b,
  assert_eq (read_c_string b p) (Some (bytes_of s)) b.

Definition write_str_writes_nul_terminated_string_and_advances_offset : M buffer Empty_set () :=
  let? written := unwrap (write_str 64 0 "hello") in
  let? '(ptr, offset) := unwrap_some written in
  assert_reads ptr "hello" ;;?
  assert_eq offset 6.

Definition write_str_returns_none_when_buffer_too_small : M buffer Empty_set () :=
  let? written := unwrap (write_str 3 0 "hello") in
  assert_eq written None.

Definition write_str_consecutive_writes_pack_correctly : M buffer Empty_set () :=
  let? written := unwrap (write_str 64 0 "alice") in
  let? '(p1, offset) := unwrap_some written in
  assert_eq offset 6 ;;?
  let? written := unwrap (write_str 64 offset "x") in
  let? '(p2, offset) := unwrap_some written in
  assert_eq offset 8 ;;?
  assert_reads p1 "alice" ;;?
  assert_reads p2 "x".

Definition write_str_exact_fit : M buffer Empty_set () :=
  let? written := unwrap (write_str 3 0 "ab") in
  let? '(_, offset) := unwrap_some written in
  assert_eq offset 3 ;;?
  let? written := unwrap (write_str 3 offset "c") in
  assert_eq written None.

(** Each test with the size of its array [[0i8; n]]. *)
Definition passwd_tests : list (nat * M buffer Empty_set ()) :=
  [(64, write_str_writes_nul_terminated_string_and_advances_offset);
   (3, write_str_returns_none_when_buffer_too_small);
   (64, write_str_consecutive_writes_pack_correctly); (3, write_str_exact_fit)].
Definition zeroed (n : nat) : buffer := mk_buffer 4096 (replicate n 0%Z).

(** ** [config.rs] *)

Section config_tests.
Context `{Os} `{TomlParser}.

(** The paths of the two temporary files. *)
Definition token_path : string := "/tmp/.tmpToken".
Definition cfg_path : string := "/tmp/.tmpConfig".

Definition line (s : string) : string := s +:+ byte_string [10]%Z.
Definition assignment (key v : string) : string :=
  line (key +:+ " = " +:+ quote +:+ v +:+ quote).
Definition toml_content (base_url token_path issuer_url client_id : string) : string :=
  line "" +:+ line "[scim]" +:+ assignment "base_url" base_url +:+
  assignment "bearer_token_file" token_path +:+ line "" +:+ line "[oidc]" +:+
  assignment "issuer_url" issuer_url +:+ assignment "client_id" client_id.

(** A temporary file is a regular file of the process with mode 0600. *)
Definition new_file (path contents : string) : M filesystem Empty_set () := λ fs,
  (Ok tt, <[path := mk_inode (mk_file_meta true 33152 geteuid) (Some contents)]> fs).

Definition make_token_file (token : string) : M filesystem Empty_set () :=
  new_file token_path token ;;? unwrap (set_permissions token_path 384).

Definition load_test_config : M filesystem Empty_set Config :=
  new_file cfg_path (toml_content "https://example.okta.com/scim/v2" token_path
    "https://example.okta.com" "my-client") ;;?
  unwrap (load_from cfg_path).

Definition parse_minimal_config : M filesystem Empty_set () :=
  make_token_file "test-token" ;;?
  let? config := load_test_config in
  assert_eq (cfg_base_url (cfg_scim config)) "https://example.okta.com/scim/v2" ;;?
  assert_eq (cfg_bearer_token (cfg_scim config)) "test-token" ;;?
  assert_eq (uid_range_min (cfg_mapping config)) 200000%Z ;;?
  assert_eq (default_user_shell (cfg_user_defaults config)) "/bin/bash".

Definition token_file_whitespace_trimmed : M filesystem Empty_set () :=
  make_token_file ("  my-token" +:+ byte_string [10]%Z) ;;?
  let? config := load_test_config in
  assert_eq (cfg_bearer_token (cfg_scim config)) "my-token".

(** [to_string] of the error a refused file gives. *)
Definition insecure_message (e : ConfigError) : option string :=
  match e with
  | ConfigInsecurePermissions path detail =>
      Some ("insecure permissions on " +:+ path +:+ ": " +:+ detail)
  | _ => None
  end.

Definition rejects_world_readable_token_file : M filesystem Empty_set () :=
  make_token_file "secret" ;;?
  unwrap (set_permissions token_path 420) ;;?
  new_file cfg_path (toml_content "https://example.com/scim/v2" token_path
    "https://example.com" "test") ;;?
  let? err := unwrap_err (load_from cfg_path) in
  let? msg := unwrap_some (insecure_message err) in
  assert_true (contains msg "too open") ;;?
  assert_true (contains msg "0644").

Definition config_tests : list (M filesystem Empty_set ()) :=
  [parse_minimal_config; token_file_whitespace_trimmed; rejects_world_readable_token_file].
End config_tests.

(** What the tests ask of the TOML parser: it reads the two texts they write. *)
Definition tables (base_url issuer_url client_id : string) : value := VObject
  [("scim", VObject [("base_url", VString base_url); ("bearer_token_file", VString token_path)]);
   ("oidc", VObject [("issuer_url", VString issuer_url); ("client_id", VString client_id)])].
Definition written : list (string * string * string) :=
  [("https://example.okta.com/scim/v2", "https://example.okta.com", "my-client");
   ("https://example.com/scim/v2", "https://example.com", "test")].

Class TestTomlLaws `{TomlParser} : Prop :=
  toml_reads_content : ∀ base_url issuer_url client_id,
    (base_url, issuer_url, client_id) ∈ written →
    toml_parse (toml_content base_url token_path issuer_url client_id) =
      Some (tables base_url issuer_url client_id).

Section config_tests_pass.
Context `{TestTomlLaws} (euid : Z).
#[local] Instance test_os : Os := os_as euid.

Definition temp_file (mode : Z) (text : string) : inode :=
  mk_inode (mk_file_meta true mode euid) (Some text).

Lemma make_token_file_run token fs :
  ∃ fs', make_token_file token fs = (Ok tt, fs') ∧ fs' !! token_path = Some (temp_file 33152 token).
Proof.
  unfold make_token_file, bind, new_file, unwrap, try_with, set_permissions, with_inode.
  cbn [os_fault test_os os_as]. rewrite lookup_insert_eq. eexists. split; [reflexivity|].
  by rewrite lookup_insert_eq.
Qed.

Definition too_open (mode : Z) : ConfigError := ConfigInsecurePermissions token_path
  ("permissions " +:+ fmt_octal4 (Z.land mode 511) +:+
   " are too open; must not be accessible by group or others. Run: chmod 600 " +:+ token_path).

Lemma check_secret_run mode token fs :
  fs !! token_path = Some (temp_file mode token) →
  check_secret_file_permissions token_path fs =
    (if bool_decide (Z.land mode 63 ≠ 0)%Z then Err (too_open mode) else Ok tt, fs).
Proof.
  intros Htok. unfold check_secret_file_permissions, bind, map_err, symlink_metadata, with_inode.
  cbn [os_fault test_os os_as]. rewrite Htok. cbn -[Z.land fmt_octal4].
  case_bool_decide; [done|]. rewrite andb_comm.
  case_bool_decide; cbn; [|done]. by rewrite bool_decide_eq_false_2.
Qed.

(** The configuration the tests load, its token file having [mode]. *)
Lemma load_from_run base_url issuer_url client_id mode token fs :
  (base_url, issuer_url, client_id) ∈ written →
  fs !! cfg_path = Some (temp_file 33152 (toml_content base_url token_path issuer_url client_id)) →
  fs !! token_path = Some (temp_file mode token) →
  load_from cfg_path fs =
    (if bool_decide (Z.land mode 63 ≠ 0)%Z then Err (too_open mode) else Ok
      (mk_config (mk_scim_config base_url token_path (trim token))
        (mk_oidc_config issuer_url client_id None false) default_mapping default_user_defaults
        default_cache_config default_security), fs).
Proof.
  intros Hin Hcfg Htok. unfold load_from, bind at 1, map_err at 1, read_to_string at 1, with_inode.
  cbn [os_fault test_os os_as]. rewrite Hcfg. cbn [inode_text temp_file].
  unfold ret at 1. rewrite toml_reads_content by done. cbn [mbind option_bind].
  destruct (decode_Config _) as [c|] eqn:Hc; vm_compute in Hc; [|done]. injection Hc as <-.
  cbn [cfg_bearer_token_file cfg_scim]. change (load_from _) with (load_from cfg_path).
  unfold bind at 1. setoid_rewrite (check_secret_run mode token fs Htok).
  case_bool_decide; [done|]. unfold bind, map_err, read_to_string, with_inode.
  cbn [os_fault test_os os_as]. setoid_rewrite Htok. done.
Qed.

Lemma make_token_file_passes token fs :
  wp (make_token_file token) (λ r fs', ∃ x, r = Ok x ∧
    fs' !! token_path = Some (temp_file 33152 token)) fs.
Proof. destruct (make_token_file_run token fs) as (fs' & Hrun & Ht). unfold wp. rewrite Hrun. eauto. Qed.

Lemma load_test_config_passes token fs :
  fs !! token_path = Some (temp_file 33152 token) →
  wp load_test_config (λ r fs', ∃ config, r = Ok config ∧ config =
    mk_config (mk_scim_config "https://example.okta.com/scim/v2" token_path (trim token))
      (mk_oidc_config "https://example.okta.com" "my-client" None false) default_mapping
      default_user_defaults default_cache_config default_security) fs.
Proof.
  intros Htok. unfold load_test_config. apply wp_bind. unfold wp at 1, new_file. cbn [fst snd and_then].
  apply wp_unwrap. unfold wp. erewrite (load_from_run _ _ _ 33152 token).
  - case_bool_decide as Hm; [by destruct Hm|]. eexists. by split.
  - left.
  - by rewrite lookup_insert_eq.
  - by rewrite lookup_insert_ne.
Qed.

Lemma rejects_world_readable_passes fs : passes rejects_world_readable_token_file fs.
Proof.
  eapply passes_bind; [apply make_token_file_passes|]. intros ? fs1 Ht. cbv beta in Ht.
  eapply (passes_bind _ _ _ (λ _ fs', fs' !! token_path = Some (temp_file 33188 "secret"))).
  { apply wp_unwrap. unfold wp, set_permissions, with_inode. cbn [os_fault test_os os_as].
    rewrite Ht. cbn [fst snd]. exists (). split; [done|]. by rewrite lookup_insert_eq. }
  intros _ fs2 Ht2. apply wp_bind. unfold wp at 1, new_file. cbn [fst snd and_then].
  eapply (passes_bind _ _ _ (λ e _, e = too_open 33188)).
  - apply wp_try_with. unfold wp. erewrite (load_from_run _ _ _ 33188 "secret").
    + rewrite bool_decide_eq_true_2 by done. eexists. by split.
    + right. left.
    + by rewrite lookup_insert_eq.
    + by rewrite lookup_insert_ne.
  - intros e fs3 ->. vm_compute. reflexivity.
Qed.

Lemma config_tests_pass fs : Forall (λ t, passes t fs) config_tests.
Proof.
  repeat constructor; [..|apply rejects_world_readable_passes];
    (eapply passes_bind; [apply make_token_file_passes|]; intros ? fs1 Ht; cbv beta in Ht;
     eapply passes_bind; [apply load_test_config_passes, Ht|]; cbv beta; intros config fs2 Hc; rewrite Hc; clear Ht);
    vm_compute; reflexivity.
Qed.
End config_tests_pass.

(** ** All of them *)

Section all_tests.
Context `{TestTomlLaws} `{BuildProfile} `{Murmur3Laws} (fk : bool) (euid : Z).
#[local] Instance tests_engine : Sqlite := still_engine fk 1700000000.
#[local] Instance tests_engine_laws : SqliteLaws := still_engine_laws fk 1700000000.
#[local] Instance tests_os : Os := os_as euid.

(** The unit tests pass: from every storage and file system, with foreign keys
    enforced or not, in either build profile, for every user that runs them and
    every hash of 32 bits. *)
Theorem unit_tests_pass s fs :
  Forall (λ t, passes t s) (cache_table_tests ++ cache_collision_tests) ∧
  Forall (λ t, passes t fs) config_tests ∧
  passes indexes_exist_after_open new_catalog ∧
  Forall (λ t, passes t tt) (mapping_tests ++ scim_tests) ∧
  Forall (λ t, passes t.2 (zeroed t.1)) passwd_tests.
Proof.
  split_and!.
  - apply Forall_app. split; [apply cache_table_tests_pass|].
    apply cache_collision_tests_pass. intros n. reflexivity.
  - apply config_tests_pass.
  - apply indexes_test_passes.
  - apply Forall_app. split; [apply mapping_tests_pass|]. repeat constructor; vm_compute; reflexivity.
  - repeat constructor; vm_compute; reflexivity.
Qed.
End all_tests.

(** ** Witness: a parser of the two texts, and the hash by byte sums *)

Definition two_texts : TomlParser := λ text,
  (λ '(base_url, issuer_url, client_id), tables base_url issuer_url client_id) <$>
    head (filter (λ '(base_url, issuer_url, client_id),
      toml_content base_url token_path issuer_url client_id = text) written).

Lemma two_texts_laws : @TestTomlLaws two_texts.
Proof.
  intros base_url issuer_url client_id [[= -> -> ->]|[[= -> -> ->]|[]%not_elem_of_nil]%elem_of_cons]%elem_of_cons;
    vm_compute; reflexivity.
Qed.

Lemma unit_tests_pass_witness :
  passes (@resolve_uid_linear_probes_on_collision (still_engine true 1700000000)
    release_build byte_sum_hash (os_as 0)) (mk_storage ∅ empty_db).
Proof.
  refine (Forall_lookup_1 _ _ 6 _ (proj1 (@unit_tests_pass two_texts two_texts_laws release_build
    byte_sum_hash byte_sum_hash_laws true 0 (mk_storage ∅ empty_db) ∅)) _). reflexivity.
Defined.
