(* ===== verification/OidcTests.v ===== *)
(** * OidcTests: the unit tests of [oidc.rs], run on the model

    Three of them are about a helper of the tests, which reads the subject of a
    token without checking its signature, and two about the text of an error. The
    [base64] crate, [serde_json] and the texts of other crates' errors are
    parameters; the tests pass for all of them that read back what they write. *)

From S2P Require Import Prelude Text Value Fs Config Http Scim Oidc UnitTests.
From stdpp Require Import prelude strings list.

(** ** [Display] of an error *)

(** The texts of the errors of [ureq] and of [serde_json]. *)
Class ErrorTexts := {
  ureq_text : ureq_error → string;
  json_text : string → string;
}.

Definition oidc_error_text `{ErrorTexts} (e : OidcError) : string :=
  match e with
  | Oidc_http e => "HTTP request failed: " +:+ ureq_text e
  | Oidc_io e => "I/O error: " +:+ io_message e
  | MissingField name => "discovery document missing required field: " +:+ name
  | IssuerMismatch expected actual =>
      "discovery issuer mismatch: expected " +:+ expected +:+ ", got " +:+ actual
  | InsecureEndpoint text => "discovery endpoint must use https: " +:+ text
  | AuthorizationPending => "authorization pending — user has not yet completed browser auth"
  | SlowDown => "polling too fast — increase interval"
  | ExpiredToken => "device code has expired"
  | TokenError text => "token request denied: " +:+ text
  | MissingIdToken => "ID token missing from response"
  | SubjectMismatch token_sub expected =>
      "ID token subject " +:+ quote +:+ token_sub +:+ quote +:+ " does not match user " +:+
      quote +:+ expected +:+ quote
  | IdTokenDecode text => "failed to decode ID token: " +:+ text
  | JwtValidation (mk_jwt_error text) => "JWT validation failed: " +:+ text
  end.

(** ** The subject of a token *)

Fixpoint split_once (c : byte) (s : string) : option (string * string) :=
  match s with
  | EmptyString => None
  | String b s =>
      if bool_decide (b = c) then Some ("", s)
      else prod_map (String b) id <$> split_once c s
  end.

(** [s.splitn(n, c)]: at most [n] pieces, the last one with all that is left. *)
Fixpoint splitn (n : nat) (c : byte) (s : string) : list string :=
  match n with
  | O => []
  | S O => [s]
  | S n =>
      match split_once c s with
      | Some (piece, rest) => piece :: splitn n c rest
      | None => [s]
      end
  end.
Definition dot : byte := byte_of 46.

(** [BASE64_URL_SAFE_NO_PAD]; [inl] is the text of its error. *)
Class Base64 := {
  b64_encode : string → string;
  b64_decode : string → string + string;
}.
Class Base64Laws `{Base64} : Prop := {
  b64_reads_back : ∀ s, b64_decode (b64_encode s) = inr s;
  b64_alphabet : ∀ s, dot ∉ String.list_ascii_of_string (b64_encode s);
}.

Section subject_tests.
Context `{ErrorTexts} `{Base64} `{JsonParser}.

(** The struct of the one optional field [sub]. *)
Definition decode_subject : decoder (option string) := λ v,
  v ← as_struct 1 v; optional v 0 "sub" decode_string.

Definition extract_id_token_subject (id_token : string) : M () OidcError string :=
  match splitn 3 dot id_token with
  | _ :: payload :: _ =>
      let? payload_bytes := match b64_decode payload with
                            | inl e => throw (IdTokenDecode ("base64: " +:+ e))
                            | inr payload_bytes => ret payload_bytes
                            end in
      let? claims := match json_parse payload_bytes ≫= decode_subject with
                     | None => throw (IdTokenDecode ("json: " +:+ json_text payload_bytes))
                     | Some claims => ret claims
                     end in
      match claims with
      | Some sub => ret sub
      | None => throw (IdTokenDecode "missing sub claim")
      end
  | _ => throw (IdTokenDecode "not a valid JWT")
  end.

Definition json_member (key v : string) : string :=
  quote +:+ key +:+ quote +:+ ":" +:+ quote +:+ v +:+ quote.
Definition make_jwt (claims_json : string) : string :=
  b64_encode ("{" +:+ json_member "alg" "RS256" +:+ "}") +:+ "." +:+
  b64_encode claims_json +:+ ".fake-signature".

Definition claims_of_alice : string :=
  "{" +:+ json_member "sub" "user-uuid-alice-001" +:+ "," +:+
  json_member "iss" "https://idp.example.com" +:+ "}".
Definition claims_of_nobody : string := "{" +:+ json_member "iss" "https://idp.example.com" +:+ "}".

Definition extract_subject_from_valid_jwt : M () Empty_set () :=
  let? sub := unwrap (extract_id_token_subject (make_jwt claims_of_alice)) in
  assert_eq sub "user-uuid-alice-001".
Definition extract_subject_missing_sub_claim : M () Empty_set () :=
  let? err := unwrap_err (extract_id_token_subject (make_jwt claims_of_nobody)) in
  assert_true (contains (oidc_error_text err) "missing sub claim").
Definition extract_subject_invalid_jwt_format : M () Empty_set () :=
  let? err := unwrap_err (extract_id_token_subject "not-a-jwt") in
  assert_true (contains (oidc_error_text err) "not a valid JWT").
Definition issuer_mismatch_error_message : M () Empty_set () :=
  let err := IssuerMismatch "https://good.example.com" "https://evil.example.com" in
  assert_true (contains (oidc_error_text err) "https://good.example.com") ;;?
  assert_true (contains (oidc_error_text err) "https://evil.example.com").
Definition insecure_endpoint_error_message : M () Empty_set () :=
  let err := InsecureEndpoint "token_endpoint: http://evil.com/token" in
  assert_true (contains (oidc_error_text err) "https") ;;?
  assert_true (contains (oidc_error_text err) "http://evil.com/token").

Definition oidc_tests : list (M () Empty_set ()) :=
  [extract_subject_from_valid_jwt; extract_subject_missing_sub_claim;
   extract_subject_invalid_jwt_format; issuer_mismatch_error_message;
   insecure_endpoint_error_message].
End subject_tests.

(** What the tests ask of the JSON parser: it reads the two objects they write. *)
Class TestJsonLaws `{JsonParser} : Prop := {
  json_reads_alice : json_parse claims_of_alice =
    Some (VObject [("sub", VString "user-uuid-alice-001"); ("iss", VString "https://idp.example.com")]);
  json_reads_nobody : json_parse claims_of_nobody =
    Some (VObject [("iss", VString "https://idp.example.com")]);
}.

(** ** They pass *)

Lemma split_once_free c s t :
  c ∉ String.list_ascii_of_string s → split_once c (s +:+ String c t) = Some (s, t).
Proof.
  induction s as [|b s IH]; intros Hc.
  - rewrite string_app_nil_l. cbn [split_once]. by rewrite bool_decide_eq_true_2.
  - apply not_elem_of_cons in Hc as [Hne Hc]. rewrite string_app_cons. cbn [split_once].
    rewrite bool_decide_eq_false_2 by done. by rewrite (IH Hc).
Qed.

Section subject_facts.
Context `{ErrorTexts} `{Base64Laws} `{TestJsonLaws}.

Lemma jwt_parts claims_json : ∃ header signature,
  splitn 3 dot (make_jwt claims_json) = [header; b64_encode claims_json; signature].
Proof.
  unfold make_jwt. set (header := b64_encode ("{" +:+ _)).
  exists header, "fake-signature". cbn [splitn].
  change ("." +:+ ?x) with (String dot x). change ".fake-signature" with (String dot "fake-signature").
  by rewrite !split_once_free by apply b64_alphabet.
Qed.

(** The helper reads the subject that was put into a token's payload. *)
Lemma extract_made claims_json v s :
  json_parse claims_json = Some v →
  extract_id_token_subject (make_jwt claims_json) s =
    match decode_subject v with
    | Some (Some sub) => (Ok sub, s)
    | Some None => (Err (IdTokenDecode "missing sub claim"), s)
    | None => (Err (IdTokenDecode ("json: " +:+ json_text claims_json)), s)
    end.
Proof.
  intros Hv. unfold extract_id_token_subject.
  destruct (jwt_parts claims_json) as (header & signature & ->).
  rewrite b64_reads_back. cbn [bind ret]. rewrite Hv. cbn.
  by destruct (decode_subject v) as [[sub|]|].
Qed.

(** The unit tests of [oidc.rs] pass. *)
Theorem oidc_tests_pass : Forall (λ t, passes t tt) oidc_tests.
Proof.
  assert (∀ m b, (m : M () Empty_set ()) tt = assert_true b tt → b = true → passes m tt) as Hrun.
  { intros m b Hm ->. unfold passes, wp. by rewrite Hm. }
  repeat constructor; [| |eapply Hrun; [reflexivity|vm_compute; reflexivity]..].
  - unfold extract_subject_from_valid_jwt. eapply Hrun; [|reflexivity].
    unfold bind, unwrap, try_with. by rewrite (extract_made _ _ _ json_reads_alice).
  - unfold extract_subject_missing_sub_claim. eapply Hrun; [|reflexivity].
    unfold bind, unwrap_err, try_with. by rewrite (extract_made _ _ _ json_reads_nobody).
Qed.
End subject_facts.

(** ** Witness: two characters for a byte, and a parser of the two texts *)

Fixpoint hex_encode (s : string) : string :=
  match s with
  | EmptyString => ""
  | String b s => String (byte_of (65 + code b / 16)) (String (byte_of (65 + code b mod 16)) (hex_encode s))
  end.
Fixpoint hex_decode (s : string) : string + string :=
  match s with
  | EmptyString => inr ""
  | String _ EmptyString => inl "Invalid padding"
  | String hi (String lo s) =>
      match hex_decode s with
      | inr s => inr (String (byte_of (16 * (code hi - 65) + (code lo - 65))) s)
      | inl e => inl e
      end
  end.
#[local] Instance hex64 : Base64 := { b64_encode := hex_encode; b64_decode := hex_decode }.

Lemma hex64_laws : Base64Laws.
Proof.
  split; intros s; cbn; induction s as [|b s IH]; [done| |apply not_elem_of_nil|].
  - cbn. rewrite IH. f_equal. f_equal. by destruct b as [[] [] [] [] [] [] [] []].
  - cbn. rewrite !not_elem_of_cons. split_and!; [..|exact IH];
      by destruct b as [[] [] [] [] [] [] [] []].
Qed.

#[local] Instance two_objects : JsonParser := λ text,
  if bool_decide (text = claims_of_alice) then
    Some (VObject [("sub", VString "user-uuid-alice-001"); ("iss", VString "https://idp.example.com")])
  else if bool_decide (text = claims_of_nobody) then
    Some (VObject [("iss", VString "https://idp.example.com")])
  else None.
Lemma two_objects_laws : TestJsonLaws.
Proof. by split. Qed.

#[local] Instance some_texts : ErrorTexts := { ureq_text := λ _, "ureq"; json_text := λ _, "json" }.

Lemma oidc_tests_pass_witness :
  passes extract_subject_from_valid_jwt tt ∧ passes extract_subject_missing_sub_claim tt.
Proof.
  pose proof (@oidc_tests_pass _ _ hex64_laws _ two_objects_laws) as Ht.
  split; [exact (Forall_inv Ht)|exact (Forall_inv (Forall_inv_tail Ht))].
Defined.
