(* ===== verification/E2eTests.v ===== *)
(** * E2eTests: the end-to-end tests ([crates/e2e/tests]), run on the model

    The tests start a mock provider of their own ([common/mock_idp.rs]), write a
    configuration that points at it ([common/mod.rs]) and call the service, the OIDC
    client and the exported functions of the two modules. Here they are computations
    over a machine with files, a log and a database; they are run with a concrete
    hash, JSON printer and token library, and with the [wiremock] of [MockIdp]. *)

From S2P Require Import Prelude Text Model Value Mapping Fs Config Http Sql Cache MockIdp Scim Service.
From S2P Require Import ScimProps Buffer Passwd GroupPack Nss Oidc Pam UnitTests.
From stdpp Require Import prelude strings list gmap.

(** ** The mock provider ([common/mock_idp.rs]) *)

Section mock_idp.
Variables (rsa_n rsa_e : string).

Definition jwks_json : value := VObject [("keys", VArray [VObject
  [("kty", VString "RSA"); ("use", VString "sig"); ("alg", VString "RS256");
   ("kid", VString "test-key-1"); ("n", VString rsa_n); ("e", VString rsa_e)]])].

(** The mocks [MockIdp::start] mounts on the server at [issuer]. *)
Definition start (issuer : string) : list Mock :=
  [given GET "/Users" [("filter", "userName eq " +:+ dquote "alice")] 200 (found 1 [alice_json]);
   given GET "/Users" [("filter", "userName eq " +:+ dquote "disabled_bob")] 200 (found 1 [bob_json]);
   given GET "/Users" [("filter", "userName eq " +:+ dquote "nonexistent")] 200 (found 0 []);
   given GET "/Groups" [("filter", "displayName eq " +:+ dquote "engineering")] 200
     (found 1 [engineering_json]);
   given GET "/Groups" [("filter", "displayName eq " +:+ dquote "nonexistent")] 200 (found 0 []);
   given GET "/Users" [("startIndex", "1"); ("count", "100")] 200 (page 2 [alice_json; bob_json]);
   given GET "/Groups" [("startIndex", "1"); ("count", "100")] 200 (page 1 [engineering_json]);
   given GET "/Users" [("count", "0")] 200 (found 2 []);
   given GET "/.well-known/openid-configuration" [] 200 (VObject
     [("issuer", VString issuer);
      ("authorization_endpoint", VString (issuer +:+ "/authorize"));
      ("token_endpoint", VString (issuer +:+ "/token"));
      ("device_authorization_endpoint", VString (issuer +:+ "/device"));
      ("jwks_uri", VString (issuer +:+ "/jwks"));
      ("userinfo_endpoint", VString (issuer +:+ "/userinfo"))]);
   given GET "/jwks" [] 200 jwks_json].

(** [sign_id_token]: the claims, and the header's key, handed to [encode]. *)
Definition test_claims (issuer : string) (now : Z) (subject : string) : value := VObject
  [("sub", VString subject); ("iss", VString issuer); ("aud", VString "test-client-id");
   ("exp", VInt (now + 3600)); ("iat", VInt now)].
Definition sign_id_token (encode : string → value → string) (issuer : string) (now : Z)
    (subject : string) : string := encode "test-key-1" (test_claims issuer now subject).

Definition mount_device_code_flow (issuer id_token : string) : list Mock :=
  [given POST "/device" [] 200 (VObject
     [("device_code", VString "test-device-code-001"); ("user_code", VString "ABCD-1234");
      ("verification_uri", VString (issuer +:+ "/activate"));
      ("verification_uri_complete", VString (issuer +:+ "/activate?code=ABCD-1234"));
      ("expires_in", VInt 600); ("interval", VInt 0)]);
   mk_mock POST "/token" [] 400 (VObject
     [("error", VString "authorization_pending");
      ("error_description", VString "The user has not yet completed authorization")]) (Some 1);
   given POST "/token" [] 200 (VObject
     [("access_token", VString "test-access-token-001"); ("id_token", VString id_token);
      ("token_type", VString "Bearer")])].

Definition mount_device_code_flow_expired (issuer : string) : list Mock :=
  [given POST "/device" [] 200 (VObject
     [("device_code", VString "test-device-code-expired"); ("user_code", VString "XXXX-9999");
      ("verification_uri", VString (issuer +:+ "/activate"));
      ("expires_in", VInt 600); ("interval", VInt 0)]);
   given POST "/token" [] 400 (VObject
     [("error", VString "expired_token");
      ("error_description", VString "The device code has expired")])].
End mock_idp.

(** ** The configuration ([common/mod.rs]) *)

Definition number (key : string) (n : Z) : string := line (key +:+ " = " +:+ fmt_dec n).
Definition test_toml (scim_base_url oidc_issuer_url : string) : string :=
  line "" +:+ line "[scim]" +:+ assignment "base_url" scim_base_url +:+
  assignment "bearer_token_file" token_path +:+ line "" +:+
  line "[oidc]" +:+ assignment "issuer_url" oidc_issuer_url +:+
  assignment "client_id" "test-client-id" +:+ line "" +:+
  line "[mapping]" +:+ number "uid_range_min" 200000 +:+ number "uid_range_size" 200000 +:+
  number "gid_range_min" 200000 +:+ number "gid_range_size" 200000 +:+ line "" +:+
  line "[user_defaults]" +:+ assignment "shell" "/bin/bash" +:+
  assignment "home_template" "/home/{user}" +:+ line "" +:+
  line "[cache]" +:+ assignment "db_path" ":memory:".

Definition test_config `{Os} `{TomlParser} (scim_base_url oidc_issuer_url : string)
    : M filesystem Empty_set Config :=
  new_file token_path "test-bearer-token" ;;?
  unwrap (set_permissions token_path 384) ;;?
  new_file cfg_path (test_toml scim_base_url oidc_issuer_url) ;;?
  unwrap (load_from cfg_path).

Definition in_range (id : Z) : bool := bool_decide (200000 ≤ id < 400000)%Z.
Definition is_none {A} (o : option A) : bool := bool_decide (¬ is_Some o).

(** An in-memory database needs no file. *)
#[local] Instance memory_file : SqliteFile := λ _, ret tt.

(** ** [nss.rs]: the service *)

(** The machine a test runs on: its files, and the network and database of its
    service. *)
Record testbed := mk_testbed { tb_fs : filesystem; tb_backend : backend }.
Definition on_files {E A} (m : M filesystem E A) : M testbed E A :=
  zoom tb_fs (λ fs t, mk_testbed fs (tb_backend t)) m.
Definition ask {A} (m : M backend ServiceError A) : M testbed Empty_set A :=
  unwrap (zoom tb_backend (λ b t, mk_testbed (tb_fs t) b) m).

Section service_tests.
Context `{World} `{JsonParser} `{PercentEncoding} `{Sqlite} `{BuildProfile} `{Murmur3}.
Context `{Os} `{TomlParser} (base : string).

Definition open_cache_in_memory : M testbed Empty_set Cache :=
  unwrap (zoom (λ t, mk_storage (tb_fs t) (bk_db (tb_backend t)))
    (λ s t, mk_testbed (st_fs s) (set_bk_db (st_db s) (tb_backend t))) open_in_memory).
Definition on_bed_db {A} (m : M db CacheError A) : M testbed Empty_set A :=
  ask (map_err from (on_db m)).

(** [ScimClient::new(..)] and [Service::new(config, scim, cache)] *)
Definition service_of (config : Config) (cache : Cache) : M testbed Empty_set Service :=
  let scim := ScimClient_new (cfg_base_url (cfg_scim config)) (cfg_bearer_token (cfg_scim config)) in
  ask (on_db (Service_new config scim cache)).

Definition make_service (scim_base_url oidc_issuer_url : string) : M testbed Empty_set Service :=
  let? config := on_files (test_config scim_base_url oidc_issuer_url) in
  let? cache := open_cache_in_memory in
  service_of config cache.

Definition lookup_user_by_name_via_scim : M testbed Empty_set () :=
  let? svc := make_service base base in
  let? answer := ask (lookup_user_by_name svc "alice") in
  let? user := unwrap_some answer in
  assert_eq (user_name user) "alice" ;;?
  assert_eq (user_gecos user) "Alice Smith" ;;?
  assert_eq (user_home user) "/home/alice" ;;?
  assert_eq (user_shell user) "/bin/bash" ;;?
  assert_true (in_range (user_uid user)) ;;?
  assert_true (in_range (user_gid user)).

Definition lookup_nonexistent_user : M testbed Empty_set () :=
  let? svc := make_service base base in
  let? user := ask (lookup_user_by_name svc "nonexistent") in
  assert_true (is_none user).

Definition lookup_group_by_name_via_scim : M testbed Empty_set () :=
  let? svc := make_service base base in
  let? answer := ask (lookup_group_by_name svc "engineering") in
  let? group := unwrap_some answer in
  assert_eq (group_name group) "engineering" ;;?
  assert_true (in_range (group_gid group)) ;;?
  assert_eq (group_members group) ["alice"].

Definition uid_reverse_lookup_after_cache : M testbed Empty_set () :=
  let? svc := make_service base base in
  let? answer := ask (lookup_user_by_name svc "alice") in
  let? user := unwrap_some answer in
  let? answer := ask (lookup_user_by_uid svc (user_uid user)) in
  let? by_uid := unwrap_some answer in
  assert_eq (user_name by_uid) "alice" ;;?
  assert_true (in_range (user_uid by_uid)).

Definition deterministic_uid_mapping : M testbed Empty_set () :=
  let? uid1 := id_to_uid "user-uuid-alice-001" 200000 200000 in
  let? uid2 := id_to_uid "user-uuid-alice-001" 200000 200000 in
  assert_eq uid1 uid2 ;;?
  assert_true (in_range uid1).

Definition active_user_passes_acct_mgmt : M testbed Empty_set () :=
  let? svc := make_service base base in
  let? active := ask (check_user_active svc "alice") in
  assert_true active.

Definition inactive_user_denied_by_acct_mgmt : M testbed Empty_set () :=
  let? svc := make_service base base in
  let? active := ask (check_user_active svc "disabled_bob") in
  assert_true (negb active).

(** The second service has the testbed's database for its own: the first one is
    not used again. *)
Definition acct_mgmt_falls_back_to_cache_on_scim_error : M testbed Empty_set () :=
  let? svc := make_service base base in
  ask (lookup_user_by_name svc "alice") ;;?
  let? config := on_files (test_config "http://127.0.0.1:1" "http://127.0.0.1:1") in
  let? cache := open_cache_in_memory in
  on_bed_db (store_user (mk_user "user-uuid-alice-001" "alice" 200000 200000 "Alice Smith"
    "/home/alice" "/bin/bash" true)) ;;?
  let? svc2 := service_of config cache in
  let? active := ask (check_user_active svc2 "alice") in
  assert_true active.

Definition is_online_returns_true_when_scim_reachable : M testbed Empty_set () :=
  let? svc := make_service base base in
  let? online := ask (Service.is_online svc) in
  assert_true online.

Definition is_online_returns_false_when_scim_unreachable : M testbed Empty_set () :=
  let? svc := make_service "http://127.0.0.1:1" "http://127.0.0.1:1" in
  let? online := ask (Service.is_online svc) in
  assert_true (negb online).

Definition initgroups_returns_supplementary_gids : M testbed Empty_set () :=
  let? svc := make_service base base in
  let? gids := ask (lookup_groups_for_user svc "alice") in
  assert_ne gids [] ;;?
  assert_true (forallb in_range gids).

Definition initgroups_returns_empty_for_nonexistent_user : M testbed Empty_set () :=
  let? svc := make_service base base in
  let? gids := ask (lookup_groups_for_user svc "nonexistent") in
  assert_eq gids [].

Definition enumerate_users_via_scim_pagination : M testbed Empty_set () :=
  let? svc := make_service base base in
  let? users := ask (list_all_users svc) in
  assert_eq (length users) 2 ;;?
  let names := user_name <$> users in
  assert_true (bool_decide ("alice" ∈ names)) ;;?
  assert_true (bool_decide ("disabled_bob" ∈ names)).

Definition enumerate_groups_via_scim_pagination : M testbed Empty_set () :=
  let? svc := make_service base base in
  let? groups := ask (list_all_groups svc) in
  assert_eq (length groups) 1 ;;?
  let? group := unwrap_some (groups !! 0) in
  assert_eq (group_name group) "engineering".

Definition service_tests : list (M testbed Empty_set ()) :=
  [lookup_user_by_name_via_scim; lookup_nonexistent_user; lookup_group_by_name_via_scim;
   uid_reverse_lookup_after_cache; deterministic_uid_mapping; active_user_passes_acct_mgmt;
   inactive_user_denied_by_acct_mgmt; acct_mgmt_falls_back_to_cache_on_scim_error;
   is_online_returns_true_when_scim_reachable; is_online_returns_false_when_scim_unreachable;
   initgroups_returns_supplementary_gids; initgroups_returns_empty_for_nonexistent_user;
   enumerate_users_via_scim_pagination; enumerate_groups_via_scim_pagination].
End service_tests.

(** ** [nss_ffi.rs]: the exported functions of the NSS module *)

(** Text the caller reads behind a pointer: [CStr::from_ptr(p).to_str().unwrap()]. *)
Definition read_str {S} (b : buffer) (p : Z) : M S Empty_set string :=
  let? bytes := unwrap_some (read_c_string b p) in
  let text := byte_string bytes in
  if valid_utf8 text then ret text else panic.

(** [vec[..n]] *)
Definition slice_to {S A} (l : list A) (n : Z) : M S Empty_set (list A) :=
  if bool_decide (0 ≤ n ≤ Z.of_nat (length l))%Z then ret (take (Z.to_nat n) l) else panic.

(** A zeroed struct, a zeroed array of [n] bytes, and a zero in [errnop]. *)
Definition zeroed_passwd : passwd := mk_passwd 0 0 0 0 0 0 0.
Definition zeroed_group : group_struct := mk_group_struct 0 0 0 0.
Definition fresh_caller {R} (zero : R) (n : nat) : caller R := mk_caller (zeroed n) zero 0.

(** A call of the module with what it gets by pointer, and what is there afterwards.
    Undefined behaviour fails a test. *)
Definition through {C} (f : M (call C) undefined_behaviour NssStatus) (args : C)
    : M nss Empty_set (NssStatus * C) := λ w,
  match f (mk_call w args) with
  | (Ok status, c) => (Ok (status, call_args c), call_nss c)
  | (_, c) => (Panic, call_nss c)
  end.

(** The pointers of [gr_mem] up to the null pointer; [n] bounds their number. *)
Fixpoint read_members {S} (n : nat) (b : buffer) (p : Z) : M S Empty_set (list string) :=
  match n with
  | O => panic
  | S n =>
      let entry := read_pointer b p in
      if bool_decide (entry = 0%Z) then ret []
      else
        let? member := read_str b entry in
        let? members := read_members n b (p + Z.of_nat pointer_size) in
        ret (member :: members)
  end.

Section ffi_tests.
Context `{World} `{JsonParser} `{PercentEncoding} `{Sqlite} `{BuildProfile} `{Murmur3}.
Context `{Os} `{TomlParser} `{Env} (base : string).

(** The process the tests run in, and what the first of them does before its
    calls. The environment the tests set is [Env]. *)
Definition test_process : nss := mk_nss ∅ [] empty_db None None None (λ _, false).
Definition ensure_init : M nss Empty_set () :=
  zoom nss_fs (λ fs w, set_storage (mk_storage fs (nss_db w)) w) (test_config base base) ;;? ret tt.

Definition getpwnam (name : string) (n : nat) : M nss Empty_set (NssStatus * caller passwd) :=
  through (nss_oidc_getpwnam_r name n) (fresh_caller zeroed_passwd n).
Definition getpwuid (uid : Z) (n : nat) : M nss Empty_set (NssStatus * caller passwd) :=
  through (nss_oidc_getpwuid_r uid n) (fresh_caller zeroed_passwd n).
Definition getgrnam (name : string) (n : nat) : M nss Empty_set (NssStatus * caller group_struct) :=
  through (nss_oidc_getgrnam_r name n) (fresh_caller zeroed_group n).
Definition getgrgid (gid : Z) (n : nat) : M nss Empty_set (NssStatus * caller group_struct) :=
  through (nss_oidc_getgrgid_r gid n) (fresh_caller zeroed_group n).
Definition initgroups (user : string) : M nss Empty_set (NssStatus * group_array) :=
  through (nss_oidc_initgroups_dyn user 0) (mk_group_array (replicate 64 0%Z) 0 64 0).

Definition nss_getpwnam_r_fills_passwd_struct : M nss Empty_set () :=
  let? '(status, c) := getpwnam "alice" 1024 in
  let result := cl_result c in
  let? name := read_str (cl_buf c) (pw_name result) in
  let? password := read_str (cl_buf c) (pw_passwd result) in
  let? gecos := read_str (cl_buf c) (pw_gecos result) in
  let? dir := read_str (cl_buf c) (pw_dir result) in
  let? shell := read_str (cl_buf c) (pw_shell result) in
  assert_eq status Success ;;?
  assert_eq (cl_errno c) 0%Z ;;?
  assert_eq name "alice" ;;?
  assert_eq password "x" ;;?
  assert_true (in_range (pw_uid result)) ;;?
  assert_true (in_range (pw_gid result)) ;;?
  assert_eq gecos "Alice Smith" ;;?
  assert_eq dir "/home/alice" ;;?
  assert_eq shell "/bin/bash".

Definition nss_getpwnam_r_returns_notfound_for_unknown_user : M nss Empty_set () :=
  let? '(status, c) := getpwnam "nonexistent" 1024 in
  assert_eq status NotFound ;;?
  assert_eq (cl_errno c) 0%Z.

Definition nss_getpwuid_r_after_name_lookup : M nss Empty_set () :=
  let? '(status, c) := getpwnam "alice" 1024 in
  assert_eq status Success ;;?
  let? '(status2, c2) := getpwuid (pw_uid (cl_result c)) 1024 in
  assert_eq status2 Success ;;?
  let? name := read_str (cl_buf c2) (pw_name (cl_result c2)) in
  assert_eq name "alice" ;;?
  assert_true (in_range (pw_uid (cl_result c2))).

Definition nss_getpwnam_r_returns_tryagain_on_small_buffer : M nss Empty_set () :=
  let? '(status, c) := getpwnam "alice" 1 in
  assert_eq status TryAgain ;;?
  assert_eq (cl_errno c) ERANGE.

Definition nss_initgroups_dyn_returns_supplementary_gids : M nss Empty_set () :=
  let? '(status, a) := initgroups "alice" in
  assert_eq status Success ;;?
  assert_eq (ga_errno a) 0%Z ;;?
  assert_true (bool_decide (0 < ga_start a)%Z) ;;?
  let? gids := slice_to (ga_groups a) (ga_start a) in
  assert_ne gids [] ;;?
  assert_true (forallb in_range gids).

Definition nss_initgroups_dyn_returns_success_for_unknown_user : M nss Empty_set () :=
  let? '(status, a) := initgroups "nonexistent" in
  assert_eq status Success ;;?
  assert_eq (ga_start a) 0%Z.

Definition nss_getgrnam_r_fills_group_struct : M nss Empty_set () :=
  let? '(status, c) := getgrnam "engineering" 4096 in
  let result := cl_result c in
  let? name := read_str (cl_buf c) (gr_name result) in
  let? password := read_str (cl_buf c) (gr_passwd result) in
  let? members := read_members 4096 (cl_buf c) (gr_mem result) in
  assert_eq status Success ;;?
  assert_eq (cl_errno c) 0%Z ;;?
  assert_eq name "engineering" ;;?
  assert_eq password "x" ;;?
  assert_true (in_range (gr_gid result)) ;;?
  assert_true (bool_decide ("alice" ∈ members)).

Definition nss_getgrnam_r_returns_notfound_for_unknown_group : M nss Empty_set () :=
  let? '(status, c) := getgrnam "nonexistent" 1024 in
  assert_eq status NotFound ;;?
  assert_eq (cl_errno c) 0%Z.

Definition nss_getgrgid_r_after_name_lookup : M nss Empty_set () :=
  let? '(status, c) := getgrnam "engineering" 4096 in
  assert_eq status Success ;;?
  let? '(status2, c2) := getgrgid (gr_gid (cl_result c)) 4096 in
  assert_eq status2 Success ;;?
  let? name := read_str (cl_buf c2) (gr_name (cl_result c2)) in
  assert_eq name "engineering" ;;?
  assert_true (in_range (gr_gid (cl_result c2))).

Definition ffi_tests : list (M nss Empty_set ()) :=
  [nss_getpwnam_r_fills_passwd_struct; nss_getpwnam_r_returns_notfound_for_unknown_user;
   nss_getpwuid_r_after_name_lookup; nss_getpwnam_r_returns_tryagain_on_small_buffer;
   nss_initgroups_dyn_returns_supplementary_gids;
   nss_initgroups_dyn_returns_success_for_unknown_user; nss_getgrnam_r_fills_group_struct;
   nss_getgrnam_r_returns_notfound_for_unknown_group; nss_getgrgid_r_after_name_lookup].
End ffi_tests.

(** ** [oidc.rs]: the OIDC client, and [pam.rs] *)

Section client_tests.
Context `{World} `{JsonParser} `{BuildProfile} `{Jsonwebtoken} (base : string).

Definition discover_test_client : M net Empty_set OidcClient :=
  unwrap (discover_insecure base "test-client-id" None).

Definition oidc_discovery_parses_endpoints : M net Empty_set () :=
  let? client := discover_test_client in
  let endpoints := oc_endpoints client in
  assert_true (contains (ep_token endpoints) "/token") ;;?
  assert_true (contains (ep_device_authorization endpoints) "/device") ;;?
  assert_true (contains (ep_jwks_uri endpoints) "/jwks") ;;?
  assert_ne (ep_issuer endpoints) "".

(** The closure that keeps the code and the URI: it tells them, and the test reads
    what was told last. *)
Definition keep (code uri : string) : M net OidcError () := λ log,
  (Ok tt, log ++ [Told code; Told uri]).
Definition told (log : net) : list string :=
  omap (λ e, match e with Told text => Some text | _ => None end) log.
Definition displayed : M net Empty_set (string * string) := λ log,
  match reverse (told log) with uri :: code :: _ => (Ok (code, uri), log) | _ => (Ok ("", ""), log) end.

Definition device_code_flow_succeeds_after_pending : M net Empty_set () :=
  let? client := discover_test_client in
  let? token := unwrap (authenticate_device_flow client "openid" keep) in
  let? id_token := unwrap_some (tr_id_token token) in
  let? claims := unwrap (validate_id_token client id_token) in
  let? '(displayed_code, displayed_uri) := displayed in
  assert_eq (tr_access_token token) "test-access-token-001" ;;?
  assert_eq (tr_token_type token) "Bearer" ;;?
  assert_eq displayed_code "ABCD-1234" ;;?
  assert_ne displayed_uri "" ;;?
  assert_eq (cl_sub claims) "test-subject".

Definition device_code_flow_handles_expired_token : M net Empty_set () :=
  let? client := discover_test_client in
  let? err := unwrap_err (authenticate_device_flow client "openid" (λ _ _, ret tt)) in
  assert_true (match err with ExpiredToken => true | _ => false end).

Definition validate_id_token_verifies_signature_and_claims : M net Empty_set () :=
  let? client := discover_test_client in
  let? token := unwrap (authenticate_device_flow client "openid" (λ _ _, ret tt)) in
  let? id_token := unwrap_some (tr_id_token token) in
  let? claims := unwrap (validate_id_token client id_token) in
  assert_eq (cl_sub claims) "user-uuid-alice-001" ;;?
  assert_true (starts_with "http://" (cl_iss claims)) ;;?
  assert_true (bool_decide (0 < cl_exp claims)%Z).
End client_tests.

Definition pam_module_symbols_exist : M pam Empty_set () :=
  let? result := pam_sm_setcred in
  assert_eq result PAM_SUCCESS.

(** ** The world the tests run in *)

Definition e2e_base : string := "http://127.0.0.1:34567".
Definition e2e_start : list Mock := start "modulus" "exponent" e2e_base.

(** The server of [MockIdp::start] listens at its base; nothing listens elsewhere. *)
Definition e2e_world (mocks : list Mock) : World := {|
  transport := λ log r,
    if starts_with e2e_base (req_url r)
    then inr (mock_response print_value e2e_base mocks log r)
    else inl (Transport "Connection refused");
  instant_now := λ log, (slept log * nanos_per_sec)%Z;
|}.
Definition e2e_parser (mocks : list Mock) : JsonParser := document_parser (mock_body <$> mocks).

(** A parser of the two configurations the tests write. *)
Definition e2e_tables (scim_base_url oidc_issuer_url : string) : value := VObject
  [("scim", VObject [("base_url", VString scim_base_url); ("bearer_token_file", VString token_path)]);
   ("oidc", VObject [("issuer_url", VString oidc_issuer_url); ("client_id", VString "test-client-id")]);
   ("mapping", VObject [("uid_range_min", VInt 200000); ("uid_range_size", VInt 200000);
                        ("gid_range_min", VInt 200000); ("gid_range_size", VInt 200000)]);
   ("user_defaults", VObject [("shell", VString "/bin/bash"); ("home_template", VString "/home/{user}")]);
   ("cache", VObject [("db_path", VString ":memory:")])].
#[local] Instance e2e_toml : TomlParser := λ text,
  (λ url, e2e_tables url url) <$>
    head (filter (λ url, test_toml url url = text) [e2e_base; "http://127.0.0.1:1"]).

(** A token library that knows the tokens the tests have signed. *)
Definition e2e_encode (kid : string) (claims : value) : string :=
  print_value (VObject [("kid", VString kid); ("claims", claims)]).
Definition e2e_signed_at : Z := 1700000000.
Definition e2e_token (subject : string) : string :=
  sign_id_token e2e_encode e2e_base e2e_signed_at subject.
Definition e2e_subject (token : string) : option string :=
  head (filter (λ subject, e2e_token subject = token) ["test-subject"; "user-uuid-alice-001"]).

#[local] Instance e2e_jwt : Jsonwebtoken := {|
  jwt_alg := string;
  jwk := string;
  decoding_key := string;
  decode_header := λ token,
    match e2e_subject token with
    | Some _ => inr (mk_jwt_header "RS256" (Some "test-key-1"))
    | None => inl (mk_jwt_error "InvalidToken")
    end;
  decode_JwkSet := λ v, v ← as_struct 1 v; required v 0 "keys" (decode_vec (λ k,
    k ← as_struct 6 k; required k 3 "kid" decode_string));
  jwk_find := λ jwks kid, head (filter (λ k, k = kid) jwks);
  from_jwk := inr;
  jwt_decode := λ A dec log token key val,
    match e2e_subject token with
    | Some subject =>
        if bool_decide (key = "test-key-1") && bool_decide (val_algorithm val = "RS256") &&
           bool_decide (e2e_base ∈ val_issuer val) &&
           bool_decide ("test-client-id" ∈ val_audience val) &&
           bool_decide (slept log ≤ 3600 + 60)%Z
        then match dec (test_claims e2e_base e2e_signed_at subject) with
             | Some a => inr a | None => inl (mk_jwt_error "Json") end
        else inl (mk_jwt_error "InvalidClaims")
    | None => inl (mk_jwt_error "InvalidToken")
    end;
|}.

#[local] Existing Instance ascii_percent_encoding.
#[local] Existing Instance byte_sum_hash.
#[local] Instance test_profile : BuildProfile := {| overflow_checks := true |}.
#[local] Instance e2e_engine : Sqlite := still_engine true 1700000000.
#[local] Instance e2e_os : Os := os_as 1000.
#[local] Instance e2e_env : Env := λ name,
  if bool_decide (name = CONFIG_ENV_VAR) then Some cfg_path else None.

Definition with_mocks {A} (mocks : list Mock) (test : World → JsonParser → A) : A :=
  test (e2e_world mocks) (e2e_parser mocks).

Definition e2e_service_tests : list (M testbed Empty_set ()) :=
  with_mocks e2e_start (λ _ _, service_tests e2e_base).
Definition e2e_ffi_tests : list (M nss Empty_set ()) := with_mocks e2e_start (λ _ _, ffi_tests).
Definition e2e_ensure_init : M nss Empty_set () := ensure_init e2e_base.
Definition e2e_client_tests : list (M net Empty_set ()) :=
  let flow subject := e2e_start ++ mount_device_code_flow e2e_base (e2e_token subject) in
  [with_mocks e2e_start (λ _ _, oidc_discovery_parses_endpoints e2e_base);
   with_mocks (flow "test-subject") (λ _ _, device_code_flow_succeeds_after_pending e2e_base);
   with_mocks (e2e_start ++ mount_device_code_flow_expired e2e_base)
     (λ _ _, device_code_flow_handles_expired_token e2e_base);
   with_mocks (flow "user-uuid-alice-001")
     (λ _ _, validate_id_token_verifies_signature_and_claims e2e_base)].

(** ** They pass *)

Definition test_machine : testbed := mk_testbed ∅ (mk_backend [] empty_db).
Definition test_host : pam := mk_pam ∅ [] empty_db None None.

Lemma service_tests_pass : Forall (λ t, passes t test_machine) e2e_service_tests.
Proof. repeat constructor; vm_compute; reflexivity. Qed.

(** Alone in their process, and one after the other in the same one. *)
Lemma ffi_tests_pass :
  Forall (λ t, passes (e2e_ensure_init ;;? t) test_process) e2e_ffi_tests ∧
  passes (e2e_ensure_init ;;? for_each e2e_ffi_tests id) test_process ∧
  passes (e2e_ensure_init ;;? for_each (reverse e2e_ffi_tests) id) test_process.
Proof. split; [repeat constructor; vm_compute; reflexivity|]. split; vm_compute; reflexivity. Qed.

Lemma client_tests_pass : Forall (λ t, passes t []) e2e_client_tests.
Proof. repeat constructor; vm_compute; reflexivity. Qed.

Lemma pam_test_passes : passes pam_module_symbols_exist test_host.
Proof. reflexivity. Qed.

(** The end-to-end tests pass. *)
Theorem e2e_tests_pass :
  Forall (λ t, passes t test_machine) e2e_service_tests ∧
  Forall (λ t, passes (e2e_ensure_init ;;? t) test_process) e2e_ffi_tests ∧
  Forall (λ t, passes t []) e2e_client_tests ∧
  passes pam_module_symbols_exist test_host.
Proof.
  split_and!; [apply service_tests_pass|apply ffi_tests_pass|apply client_tests_pass|
               apply pam_test_passes].
Qed.
